(* ===== verification/_CoqProject ===== *)
-Q . S2P
Prelude.v
Types.v
Extension.v
Instances.v
Property.v
Correctness.v
Malleability.v
ExtraProps.v
Ast.v
Examples.v
Typing.v
Resources.v
Iter.v
Tokens.v
Context.v
ScriptNum.v
Script.v
Encoding.v
Builder.v
Lex.v
Decode.v
DecodeLoop.v
DecodeSound.v
Lexing.v
Parse.v
DecodeComplete.v
RoundTrip.v
Subtyping.v
Timelocks.v
Semantic.v
PolicyNormal.v
PolicyEntails.v
PolicyFilter.v
Concrete.v
Lift.v
LiftProps.v
ConcreteProps.v
PolicySamples.v
Interp.v
InterpRefine.v
InterpSound.v
Satisfy.v
Choice.v
SatShape.v
SatAccept.v
SatTotal.v
SatSamples.v
IndexOps.v
Arith.v
ArithProps.v
ArithParse.v
ArithEval.v
ArithSamples.v
CompCost.v
Compiler.v
CompilerSteps.v
CompilerCorrect.v
CompilerSamples.v
Expression.v
ExpressionProps.v
TextForm.v
TextProps.v
TextRoundTrip.v
PolicyText.v
PolicyTextProps.v
Checksum.v
ChecksumProps.v
TextSamples.v
ScriptPubkey.v
CsfsCov.v
TxData.v
Outputs.v
Taproot.v
Descriptor.v
AsParsed.v
SpendStack.v
SpendScript.v
DescriptorSpend.v
TapSpend.v
DescriptorSamples.v
