(* ===== verification/Prelude.v ===== *)
(** * A verification library for elements-miniscript

    elements-miniscript translates spending conditions of the Elements chain between
    policies, Miniscript (a typed tree of script fragments) and Script, finds witnesses
    for them and checks witnesses.  This library models the core of the crate and proves
    what makes it correct.  Paths below are under [src/] of the repository, so that
    [miniscript/decode.rs] is [src/src/miniscript/decode.rs] of the source tree.

    ** Parts of the program and the files that model them

    - The type system ([miniscript/types/]): [Types.v] (the data), [Property.v] (the
      trait [Property] as a class), [Correctness.v], [Malleability.v], [ExtraProps.v] (one
      Module per [impl Property]).  [Ast.v] has [Terminal], [Miniscript],
      [Type::type_check], [ExtData::type_check] and [Miniscript::from_ast].  A Miniscript
      is [well_typed] when every node has the types [from_ast] computes.
      [Typing.v], [Rules.v], [Subtyping.v], [Resources.v] and [Timelocks.v] have the
      theorems: the debug assertions hold, type checking is monotone in the subtype order,
      [from_ast] never panics, thresholds, and the exactness of the time lock flags.
    - Iteration ([miniscript/iter.rs]): [Iter.v], the explicit-stack iterators as state
      machines, refining the recursive traversal.
    - Contexts and limits ([miniscript/context.rs], [limits.rs], [analyzable.rs]):
      [Context.v], the checks of the five contexts and their meaning as bounds.
    - Script ([miniscript/astelem.rs], [util.rs], [lib.rs]): [ScriptNum.v], [Script.v]
      ([encode], [script_size]), [Wire.v] (instructions as bytes), [Encoding.v] (the
      instructions and the size of a script).
    - Parsing ([miniscript/lex.rs], [decode.rs], [mod.rs]): [Tokens.v], [Lex.v],
      [Decode.v] (the shift-reduce decoder with its two stacks), [Parse.v];
      [DecodeLoop.v], [DecodeSound.v], [DecodeComplete.v], [Lexing.v] and [RoundTrip.v]
      prove termination, soundness, completeness and the round trip with [encode].
    - Policies ([policy/semantic.rs], [concrete.rs], [mod.rs]): [Semantic.v],
      [PolicyNormal.v], [PolicyEntails.v], [PolicyFilter.v], [Concrete.v], [Lift.v],
      [LiftProps.v], [ConcreteProps.v], [TapKey.v].  The meaning of a policy or of a
      Miniscript is a boolean function of a valuation of its conditions ([eval],
      [ceval], [ms_eval]); every operation is shown to keep or to decide it.
    - The policy compiler ([policy/compiler.rs]): [CompCost.v] (costs in floating point,
      [CompilerExtData]), [Compiler.v] (the ten casts, the map from types to the cheapest
      expression and its closure under the casts, the cache, the search),
      [CompilerCasts.v], [CompilerSteps.v], [CompilerCorrect.v]: a compiled policy is a
      well typed Miniscript with the meaning of the policy, and the search terminates.
    - The interpreter ([interpreter/mod.rs], [stack.rs], [inner.rs], [error.rs]):
      [Interp.v], an iterator over the constraints a witness satisfies, with its stack
      of partially evaluated nodes and the witness stack.  [InterpEval.v] is a recursive
      reference evaluator, [InterpRefine.v] shows that the iterator computes it, and
      [InterpSound.v] what an accepted witness proves.
    - The satisfier ([miniscript/satisfy.rs], [mod.rs]): [Satisfy.v], the malleable and
      the non-malleable algorithm, which share [satisfy_helper] and [dissatisfy_helper].
      [Choice.v] states what both need of the functions that choose (classes [Chooses]
      and [ChoosesTotal], with an instance for each algorithm); [SatShape.v],
      [SatAccept.v] and [SatTotal.v] prove against that interface that the interpreter
      accepts every satisfaction, that no assertion fails and that the malleable satisfier
      is complete.  [Translate.v] is the translation of keys between the two
      ([astelem.rs], [interpreter/inner.rs]).
    - Text forms ([expression.rs], [Display], [FromStr] and [FromTree] in
      [miniscript/astelem.rs] and [mod.rs], [policy/semantic.rs] and [concrete.rs]):
      [Expression.v] (the tree of a string such as [and_v(v:pk(A),after(9))]) with
      [ExpressionProps.v], [TextForm.v] for Miniscripts with [TextProps.v] (what is parsed
      is type checked and within the context) and [TextRoundTrip.v] (what is printed is
      parsed back), [PolicyText.v] with [PolicyTextProps.v] for both kinds of policies.
    - The checksum of descriptors ([descriptor/checksum.rs]): [Checksum.v], with
      [ChecksumProps.v]: the engine is linear over GF(2) and detects a changed character.
    - Descriptors ([descriptor/bare.rs], [sh.rs], [segwitv0.rs], [sortedmulti.rs], [tr.rs],
      [mod.rs], [csfs_cov/]): [Outputs.v] (one section per kind of output: constructors,
      output and script code, satisfaction, weights), [Taproot.v] ([TapTree] with its
      iterator, the cached spending information, [best_tap_spend]), [CsfsCov.v] (covenant
      scripts), [Descriptor.v] (the sum of them).  [ScriptPubkey.v] has the templates of
      outputs as a class, [TxData.v] is [inner::from_txdata], which takes a spend apart for
      the interpreter.  [AsParsed.v] (the Miniscript a script is read back as),
      [SpendStack.v], [SpendTemplates.v], [SpendScript.v] and [SpendOutputs.v] follow a
      satisfaction through it, one kind of output after the other; [DescriptorSpend.v] and
      [TapSpend.v] compose satisfier, output, [from_txdata] and interpreter, and
      [TapTreeIter.v] shows that the iterator yields the leaves from left to right.
      [BytesScript.v] instantiates scripts by bytes, [DescriptorSamples.v] applies the
      theorems to descriptors.
    - Extension fragments ([extensions/]): [Extension.v] (the traits as classes, and what
      the theorems about scripts, parsing and satisfaction ask of an extension),
      [Transactions.v] (transactions and amounts of the elements crate as a class),
      [IndexOps.v] and [Arith.v] (index and arithmetic expressions: types, script, parser,
      evaluation and satisfaction, with signed oracle prices).  [ArithProps.v] and
      [ArithParse.v] discharge the interfaces of the core for them.  [ArithEval.v] shows
      that [Expr::eval] computes the integers and fails exactly when a value leaves the
      range of [i64] ([expr_eval_exact]), that what is satisfied is evaluated to true,
      when the oracles signed the time asked for, and what is parsed means the same.  The
      evaluation of expressions and their satisfaction, which the source writes twice, are
      two functions here too, with a lemma that they agree.
    - [Instances.v], [Examples.v], [Builder.v], [PolicySamples.v], [CompilerSamples.v],
      [SatSamples.v], [ArithSamples.v] and [TextSamples.v] instantiate the interfaces and apply the theorems
      to sample scripts and strings.

    ** How the parts compose

    A script is lexed ([lex]), decoded ([parse]) and checked ([check_top]); the
    round-trip theorems say that [encode] and this composition are inverse on canonical
    Miniscripts, up to the instructions of the script.  The debug assertions of [encode]
    on the context of [multi] and [multi_a] are part of the model ([debug_assert]), and a
    hypothesis of its theorems ([node_signed]) that admitted nodes fulfil.  [lift] maps a Miniscript to an
    abstract policy with the same meaning.  The satisfier builds a witness from what it
    looks up, the interpreter evaluates the witness: [satisfied_accepted] composes
    both, and [accepted_sound] and [satisfy_total] tie each of them to the lifted policy.
    [descriptor_spend] and [tap_spend] put the output in between: the witness and
    scriptSig of a descriptor, the output script and what [from_txdata] makes of them.

    ** Modelling conventions

    - [Result] is [result], with a third outcome for panics ([unwrap], [unreachable!],
      [assert!], an index out of range).  [let?] is the operator [?].
    - [usize] is [nat] and [u32] is [N] where the source cannot overflow them (sizes and
      counts of scripts in memory); the 64-bit integers of [build_scriptint] are bounded
      in the theorems, the [i64] weights of thresholds have their extreme values.
    - Code of other crates is a class with its laws as a class of its own: keys and hashes
      ([MiniscriptKey], [BitcoinKeys], [ToPublicKey], [Signatures]), lock times
      ([LockTimes]), the script builder and reader ([ScriptBuilder]), floating point
      ([F64], [F64Arith]).  [Instances.v], [Builder.v], [SatSamples.v] give concrete
      instances, [CompilerSamples.v] that of IEEE doubles.
    - The extension fragments are a parameter ([Extension], [ParseableExt], [SatisfyExt],
      [EvalExt]) with laws the theorems ask for ([ParseableExtOk], [TypesOk], ...;
      [ext_accepted] for a satisfied extension); [NoExt] and [Arith CovExtArgs] are
      instances.  [usize] arithmetic on indices is checked or wraps as the build says
      ([OverflowChecks]), [i64] arithmetic is checked as in the source.
    - The callback [verify_sig] of the interpreter, an [FnMut], is a function.
    - The panic of [OrdF64] on a comparison with NaN is an outcome of its own ([StopNaN])
      of the compiler, whose theorems hold for every arithmetic of the costs.
    - Text is a string of bytes.  How keys, hashes and lock times are printed and read is
      a class ([FromStrKey], with its round trip in [FromStrKeyOk]), and so is the set of
      characters that may occur ([ValidChars]).
    - A [Vec] used as a stack is a list with its last element first.

    ** Bounds and fuel

    The loops of the decoder, the entailment check and the interpreter take fuel, and a
    theorem says how much suffices on every input: [8 n + 3] turns for [n] tokens
    ([parse_fuel]), [n_terminals + 2] for the case splits of [entails], and
    [inner_fuel], at most [iter_cost + 2], for a witness.  The compiler needs as many levels of
    recursion as the rank of the policy ([rank]), and [closure_fuel] turns of each
    closure under the casts, a bound by the size of the largest script of the context.  [iter_cost] counts at
    most three visits of a node and one more per key or child.  Expressions
    are parsed to a depth of [MAX_RECURSION_DEPTH], as in the source, and a call has fewer
    arguments than its text has characters ([args_loop]).  Everything else is
    structurally recursive.  In [satisfy_mall_complete] witnesses are shorter than
    [i64::MAX] bytes ([fits]).

    ** Not modelled

    [Debug] output and the text of errors, the search for a Taproot tree of a
    policy, the keys of descriptors with their derivation, their text forms and addresses,
    peg-ins, confidential descriptors, PSETs, signature hashes, inferred descriptors, the
    covenant extensions other than
    arithmetic, the text forms of extensions, and bindings to
    other crates (Simplicity). *)

From Stdlib Require Export Strings.Byte ZArith NArith Lia.
From stdpp Require Export base tactics list numbers option.

(** ** The error monad

    [Result<A, E>] of the source, with a third outcome for a panic ([unwrap] on
    [None], [unreachable!], an index out of range).  [let?] is the source's [?]. *)

Inductive result (E A : Type) : Type :=
  | Ok (a : A)
  | Err (e : E)
  | Panic.
Arguments Ok {E A} a.
Arguments Err {E A} e.
Arguments Panic {E A}.

Definition result_bind {E A B : Type} (x : result E A) (f : A → result E B) : result E B :=
  match x with
  | Ok a => f a
  | Err e => Err e
  | Panic => Panic
  end.

Definition map_err {E F A : Type} (f : E → F) (x : result E A) : result F A :=
  match x with
  | Ok a => Ok a
  | Err e => Err (f e)
  | Panic => Panic
  end.

Definition is_ok {E A : Type} (x : result E A) : bool :=
  match x with Ok _ => true | _ => false end.

(** [Option::unwrap] and [Option::ok_or]. *)
Definition unwrap {E A : Type} (o : option A) : result E A :=
  match o with Some a => Ok a | None => Panic end.
Definition ok_or {E A : Type} (e : E) (o : option A) : result E A :=
  match o with Some a => Ok a | None => Err e end.

(** [debug_assert!], in a build with the assertions compiled in. *)
Definition debug_assert {E} (b : bool) : result E unit := if b then Ok tt else Panic.

Declare Scope ms_scope.
Delimit Scope ms_scope with ms.
Notation "'let?' x ':=' m 'in' k" := (result_bind m (fun x => k))
  (at level 10, x pattern, m at level 100, k at level 200) : ms_scope.
Open Scope ms_scope.

#[export] Instance result_eq_dec {E A} `{EqDecision E, EqDecision A} :
  EqDecision (result E A).
Proof. solve_decision. Defined.

(** Inversion of a successful bind, the step every "if it returns" proof makes. *)
Lemma bind_Ok {E A B} (x : result E A) (f : A → result E B) (b : B) :
  result_bind x f = Ok b ↔ ∃ a, x = Ok a ∧ f a = Ok b.
Proof. destruct x; simpl; naive_solver. Qed.

Lemma bind_Panic {E A B} (x : result E A) (f : A → result E B) :
  result_bind x f = Panic ↔ x = Panic ∨ ∃ a, x = Ok a ∧ f a = Panic.
Proof. destruct x; simpl; naive_solver. Qed.

Lemma bind_no_panic {E A B} (x : result E A) (f : A → result E B) :
  x ≠ Panic → (∀ a, f a ≠ Panic) → result_bind x f ≠ Panic.
Proof. by destruct x; simpl. Qed.

Lemma map_err_no_panic {E F A} (f : E → F) (x : result E A) : x ≠ Panic → map_err f x ≠ Panic.
Proof. by destruct x. Qed.

Lemma map_err_Ok {E F A} (f : E → F) (x : result E A) (a : A) :
  map_err f x = Ok a ↔ x = Ok a.
Proof. destruct x; simpl; naive_solver. Qed.

Lemma map_err_Panic {E F A} (f : E → F) (x : result E A) :
  map_err f x = Panic ↔ x = Panic.
Proof. destruct x; simpl; naive_solver. Qed.

Lemma is_ok_iff {E A} (x : result E A) : is_ok x = true ↔ ∃ a, x = Ok a.
Proof. destruct x; simpl; naive_solver. Qed.

(** ** Tactics

    [inv_ok] takes apart hypotheses that a monadic computation succeeded;
    [split_match] destructs the scrutinee of a [match] in the goal or in a
    hypothesis and prunes the impossible branches. *)

Ltac inv_ok :=
  repeat match goal with
  | H : result_bind _ _ = Ok _ |- _ =>
      apply bind_Ok in H; destruct H as (? & ? & ?)
  | H : map_err _ _ = Ok _ |- _ => apply map_err_Ok in H
  | H : Ok _ = Ok _ |- _ => injection H as H; try subst
  | H : Err _ = Ok _ |- _ => discriminate H
  | H : Ok _ = Err _ |- _ => discriminate H
  | H : Panic = _ |- _ => discriminate H
  | H : _ = Panic |- _ => discriminate H
  end.

Ltac split_match :=
  match goal with
  | H : context [match ?x with _ => _ end] |- _ => destruct x eqn:?; try discriminate H
  | |- context [match ?x with _ => _ end] => destruct x eqn:?
  end.

Ltac bools :=
  repeat match goal with
  | H : _ && _ = true |- _ => apply andb_prop in H; destruct H
  | H : _ || _ = false |- _ => apply orb_false_elim in H; destruct H
  | H : negb _ = true |- _ => apply negb_true_iff in H
  | H : negb _ = false |- _ => apply negb_false_iff in H
  end.

(** ** Booleans as decided propositions *)

(** [a >= b] on Rust's [bool] ([false < true]). *)
Definition bool_ge (a b : bool) : bool := implb b a.

Lemma bool_ge_refl a : bool_ge a a = true.
Proof. by destruct a. Qed.

Lemma bool_ge_trans a b c :
  bool_ge a b = true → bool_ge b c = true → bool_ge a c = true.
Proof. by destruct a, b, c. Qed.

(** ** Folding an error-returning step over a list

    The shape of the source's [for] loops whose body may [return Err]. *)
Fixpoint try_fold {E S A : Type} (f : S → A → result E S) (s : S) (l : list A) : result E S :=
  match l with
  | [] => Ok s
  | x :: l => let? s := f s x in try_fold f s l
  end.

Lemma try_fold_app {E S A} (f : S → A → result E S) l1 l2 s :
  try_fold f s (l1 ++ l2) = let? s := try_fold f s l1 in try_fold f s l2.
Proof.
  revert s; induction l1 as [|x l1 IH]; intros s; simpl; [done|].
  destruct (f s x); simpl; auto.
Qed.

(** A step invariant of the loop body is an invariant of the loop. *)
Lemma try_fold_inv {E S A} (P : S → Prop) (f : S → A → result E S) l :
  (∀ s x s', x ∈ l → P s → f s x = Ok s' → P s') →
  ∀ s s', P s → try_fold f s l = Ok s' → P s'.
Proof.
  induction l as [|x l IH]; intros Hstep s s' HP Hf; simpl in *; inv_ok; [done|].
  eapply IH; [|eapply Hstep; [|exact HP|eassumption]|eassumption].
  - intros ? y ? Hin. eapply Hstep. by right.
  - by left.
Qed.

(** A computation that does not panic and returns, if anything, what satisfies [P]. *)
Definition returns {E A : Type} (P : A → Prop) (r : result E A) : Prop :=
  match r with Ok a => P a | Err _ => True | Panic => False end.

Lemma returns_bind {E A B} (P : A → Prop) (Q : B → Prop) (x : result E A) (f : A → result E B) :
  returns P x → (∀ a, P a → returns Q (f a)) → returns Q (result_bind x f).
Proof. destruct x; cbn; auto. Qed.

Lemma returns_map_err {E F A} (P : A → Prop) (g : E → F) (x : result E A) :
  returns P x → returns P (map_err g x).
Proof. by destruct x. Qed.

Lemma returns_impl {E A} (P Q : A → Prop) (x : result E A) :
  returns P x → (∀ a, P a → Q a) → returns Q x.
Proof. destruct x; cbn; auto. Qed.

Lemma returns_no_panic {E A} (x : result E A) : x ≠ Panic → returns (λ _, True) x.
Proof. by destruct x. Qed.

Lemma returns_Ok {E A} (P : A → Prop) (x : result E A) a : returns P x → x = Ok a → P a.
Proof. by intros H ->. Qed.

Lemma returns_try_fold {E S A} (P : S → Prop) (f : S → A → result E S) l s :
  (∀ s x, x ∈ l → P s → returns P (f s x)) → P s → returns P (try_fold f s l).
Proof.
  revert s. induction l as [|x l IH]; intros s Hf Hs; cbn; [done|].
  eapply returns_bind; [apply Hf; [by left|done]|]. intros s' Hs'.
  apply IH; [|done]. intros ? y Hy. apply Hf. by right.
Qed.

(** [iter().map(f).collect::<Result<Vec<_>, _>>()] *)
Section try_map.
Context {E A B : Type} (f : A → result E B).
Fixpoint try_map (l : list A) : result E (list B) :=
  match l with
  | [] => Ok []
  | x :: l => let? y := f x in let? ys := try_map l in Ok (y :: ys)
  end.

Lemma try_map_Ok l ys : try_map l = Ok ys ↔ Forall2 (λ x y, f x = Ok y) l ys.
Proof.
  revert ys. induction l as [|x l IH]; intros ys; simpl.
  { split; [intros [= <-]; constructor|by inversion_clear 1]. }
  rewrite bind_Ok. split.
  - intros (y & Hy & (ys' & Hys & [= <-])%bind_Ok). constructor; [done|]. by apply IH.
  - inversion_clear 1 as [|? y ? ys' Hy Hys]. exists y. split; [done|].
    apply bind_Ok. exists ys'. split; [by apply IH|done].
Qed.

Lemma try_map_all (P : A → B → Prop) l :
  Forall (λ x, ∃ y, f x = Ok y ∧ P x y) l → ∃ ys, try_map l = Ok ys ∧ Forall2 P l ys.
Proof.
  induction 1 as [|x l (y & Hy & HP) _ (ys & Hys & Hall)]; [by exists []|].
  exists (y :: ys). simpl. rewrite Hy. simpl. rewrite Hys. by repeat constructor.
Qed.

Lemma returns_try_map (P : B → Prop) l :
  (∀ x, x ∈ l → returns P (f x)) → returns (Forall P) (try_map l).
Proof.
  induction l as [|x l IH]; intros Hf; cbn; [by constructor|].
  eapply returns_bind; [apply Hf; by left|]. intros y Hy.
  eapply returns_bind; [apply IH; intros; apply Hf; by right|]. intros ys Hys. by constructor.
Qed.

Lemma try_map_no_panic l : (∀ x, x ∈ l → f x ≠ Panic) → try_map l ≠ Panic.
Proof.
  induction l as [|x l IH]; intros Hf; simpl; [done|].
  apply bind_no_panic; [apply Hf; by left|]. intros y. apply bind_no_panic; [|done].
  apply IH. intros z Hz. apply Hf. by right.
Qed.
End try_map.

(** ** Updating a list *)

Lemma list_insert_middle {A} (l1 : list A) x y l2 :
  <[length l1 := x]> (l1 ++ y :: l2) = l1 ++ x :: l2.
Proof. by rewrite insert_app_r_alt, Nat.sub_diag. Qed.

Lemma rev_reverse {A} (l : list A) : rev l = reverse l.
Proof. apply rev_alt. Qed.

Lemma sublist_map {A B} (f : A → B) l1 l2 : l1 `sublist_of` l2 → map f l1 `sublist_of` map f l2.
Proof. induction 1; cbn; by constructor. Qed.

Lemma sublist_Forall {A} (P : A → Prop) l1 l2 : l1 `sublist_of` l2 → Forall P l2 → Forall P l1.
Proof. induction 1; inversion_clear 1; auto. Qed.

Lemma sublist_rev {A} (l1 l2 : list A) : l1 `sublist_of` l2 → rev l1 `sublist_of` rev l2.
Proof.
  induction 1 as [|x l1 l2 _ IH|x l1 l2 _ IH]; cbn [rev]; [constructor|by apply sublist_app|].
  rewrite <-(app_nil_r (rev l1)). apply sublist_app; [done|apply sublist_nil_l].
Qed.

(** ** Bytes *)

Abbreviation bytes := (list Byte.byte).

#[export] Instance byte_eq_dec : EqDecision Byte.byte := Byte.byte_eq_dec.
