(* ===== verification/Types.v ===== *)
(** * The data of the Miniscript type system

    The records and enumerations of [src/miniscript/types/]: the correctness
    type ([Base], [Input], [Correctness]), the malleability type ([Dissat],
    [Malleability]), their pair ([MsType], the source's [Type]), the type
    errors, and the subtyping tests.  The subtyping tests are shown to be
    partial orders. *)

From S2P Require Import Prelude.

(** ** Correctness: [src/miniscript/types/correctness.rs] *)

Inductive Base : Type := B | K | V | W.

Inductive Input : Type := Zero | One | Any | OneNonZero | AnyNonZero.

#[export] Instance Base_eq_dec : EqDecision Base.
Proof. solve_decision. Defined.
#[export] Instance Input_eq_dec : EqDecision Input.
Proof. solve_decision. Defined.

(** [Input::is_subtype]: [OneNonZero] is below [One] and [AnyNonZero], and
    everything is below [Any]. *)
Definition Input_is_subtype (self other : Input) : bool :=
  bool_decide (self = other) ||
  match self, other with
  | OneNonZero, One | OneNonZero, AnyNonZero | _, Any => true
  | _, _ => false
  end.

Record Correctness : Type := MkCorr {
  base : Base;
  input : Input;
  dissatisfiable : bool;
  unit_ : bool;
}.

#[export] Instance Correctness_eq_dec : EqDecision Correctness.
Proof. solve_decision. Defined.

(** [Correctness::is_subtype] *)
Definition Correctness_is_subtype (self other : Correctness) : bool :=
  bool_decide (base self = base other)
  && Input_is_subtype (input self) (input other)
  && bool_ge (dissatisfiable self) (dissatisfiable other)
  && bool_ge (unit_ self) (unit_ other).

(** ** Malleability: [src/miniscript/types/malleability.rs] *)

(** The variant [Dissat::None] is [DNone] here. *)
Inductive Dissat : Type := DNone | Unique | Unknown.

#[export] Instance Dissat_eq_dec : EqDecision Dissat.
Proof. solve_decision. Defined.

Definition Dissat_is_subtype (self other : Dissat) : bool :=
  bool_decide (self = other) ||
  match self, other with
  | _, Unknown => true
  | _, _ => false
  end.

Record Malleability : Type := MkMall {
  dissat : Dissat;
  safe : bool;
  non_malleable : bool;
}.

#[export] Instance Malleability_eq_dec : EqDecision Malleability.
Proof. solve_decision. Defined.

Definition Malleability_is_subtype (self other : Malleability) : bool :=
  Dissat_is_subtype (dissat self) (dissat other)
  && bool_ge (safe self) (safe other)
  && bool_ge (non_malleable self) (non_malleable other).

(** ** The type of a fragment: [src/miniscript/types/mod.rs] *)

Record MsType : Type := MkType {
  corr : Correctness;
  mall : Malleability;
}.

#[export] Instance MsType_eq_dec : EqDecision MsType.
Proof. solve_decision. Defined.

Definition Type_is_subtype (self other : MsType) : bool :=
  Correctness_is_subtype (corr self) (corr other)
  && Malleability_is_subtype (mall self) (mall other).

(** The reasons a fragment can fail to type check. *)
Inductive ErrorKind : Type :=
  | InvalidTime
  | NonZeroDupIf
  | ZeroThreshold
  | OverThreshold (k n : nat)
  | NoStrongChild
  | LeftNotDissatisfiable
  | RightNotDissatisfiable
  | SwapNonOne
  | NonZeroZero
  | LeftNotUnit
  | ChildBase1 (b : Base)
  | ChildBase2 (b1 b2 : Base)
  | ChildBase3 (b1 b2 b3 : Base)
  | ThresholdBase (i : nat) (b : Base)
  | ThresholdDissat (i : nat)
  | ThresholdNonUnit (i : nat)
  | ThresholdNotStrong (k n n_strong : nat).

#[export] Instance ErrorKind_eq_dec : EqDecision ErrorKind.
Proof. solve_decision. Defined.

(** ** Subtyping is a partial order

    Proved by enumeration: the domains are finite, so the tactic destructs
    the components and lets the booleans compute. *)

Ltac enum_types :=
  repeat match goal with
  | x : MsType |- _ => destruct x
  | x : Correctness |- _ => destruct x
  | x : Malleability |- _ => destruct x
  end.

Create HintDb subty discriminated.

Lemma Input_subtype_refl a : Input_is_subtype a a = true.
Proof. by destruct a. Qed.
Lemma Input_subtype_trans a b c :
  Input_is_subtype a b = true → Input_is_subtype b c = true → Input_is_subtype a c = true.
Proof. by destruct a, b, c. Qed.
Lemma Input_subtype_antisym a b :
  Input_is_subtype a b = true → Input_is_subtype b a = true → a = b.
Proof. by destruct a, b. Qed.

Lemma Dissat_subtype_refl a : Dissat_is_subtype a a = true.
Proof. by destruct a. Qed.
Lemma Dissat_subtype_trans a b c :
  Dissat_is_subtype a b = true → Dissat_is_subtype b c = true → Dissat_is_subtype a c = true.
Proof. by destruct a, b, c. Qed.
Lemma Dissat_subtype_antisym a b :
  Dissat_is_subtype a b = true → Dissat_is_subtype b a = true → a = b.
Proof. by destruct a, b. Qed.

Lemma Correctness_subtype_iff a b :
  Correctness_is_subtype a b = true ↔
  base a = base b ∧ Input_is_subtype (input a) (input b) = true ∧
  bool_ge (dissatisfiable a) (dissatisfiable b) = true ∧ bool_ge (unit_ a) (unit_ b) = true.
Proof.
  unfold Correctness_is_subtype. rewrite !andb_true_iff, bool_decide_eq_true. tauto.
Qed.

Lemma Malleability_subtype_iff a b :
  Malleability_is_subtype a b = true ↔
  Dissat_is_subtype (dissat a) (dissat b) = true ∧
  bool_ge (safe a) (safe b) = true ∧ bool_ge (non_malleable a) (non_malleable b) = true.
Proof. unfold Malleability_is_subtype. rewrite !andb_true_iff. tauto. Qed.

Lemma Type_subtype_iff a b :
  Type_is_subtype a b = true ↔
  Correctness_is_subtype (corr a) (corr b) = true ∧
  Malleability_is_subtype (mall a) (mall b) = true.
Proof. unfold Type_is_subtype. by rewrite andb_true_iff. Qed.

Lemma Correctness_subtype_refl a : Correctness_is_subtype a a = true.
Proof.
  apply Correctness_subtype_iff.
  eauto using Input_subtype_refl, bool_ge_refl.
Qed.
Lemma Malleability_subtype_refl a : Malleability_is_subtype a a = true.
Proof.
  apply Malleability_subtype_iff.
  eauto using Dissat_subtype_refl, bool_ge_refl.
Qed.

#[export] Hint Resolve Input_subtype_refl Dissat_subtype_refl bool_ge_refl
  Correctness_subtype_refl Malleability_subtype_refl : subty.

Lemma bool_ge_antisym a b : bool_ge a b = true → bool_ge b a = true → a = b.
Proof. by destruct a, b. Qed.

Lemma Correctness_subtype_trans a b c :
  Correctness_is_subtype a b = true → Correctness_is_subtype b c = true →
  Correctness_is_subtype a c = true.
Proof.
  rewrite !Correctness_subtype_iff. intros (? & ? & ? & ?) (? & ? & ? & ?).
  split_and!; [congruence|..]; eauto using Input_subtype_trans, bool_ge_trans.
Qed.
Lemma Malleability_subtype_trans a b c :
  Malleability_is_subtype a b = true → Malleability_is_subtype b c = true →
  Malleability_is_subtype a c = true.
Proof.
  rewrite !Malleability_subtype_iff. intros (? & ? & ?) (? & ? & ?).
  split_and!; eauto using Dissat_subtype_trans, bool_ge_trans.
Qed.
Lemma Correctness_subtype_antisym a b :
  Correctness_is_subtype a b = true → Correctness_is_subtype b a = true → a = b.
Proof.
  rewrite !Correctness_subtype_iff. intros (? & ? & ? & ?) (? & ? & ? & ?).
  destruct a, b; simpl in *. f_equal; eauto using Input_subtype_antisym, bool_ge_antisym.
Qed.
Lemma Malleability_subtype_antisym a b :
  Malleability_is_subtype a b = true → Malleability_is_subtype b a = true → a = b.
Proof.
  rewrite !Malleability_subtype_iff. intros (? & ? & ?) (? & ? & ?).
  destruct a, b; simpl in *. f_equal; eauto using Dissat_subtype_antisym, bool_ge_antisym.
Qed.

(** The order as a relation, so that [Reflexive]/[Transitive] automation applies. *)
Definition subtype (a b : MsType) : Prop := Type_is_subtype a b = true.

#[export] Instance subtype_preorder : PreOrder subtype.
Proof.
  split.
  - intros a. apply Type_subtype_iff. auto with subty.
  - intros a b c. unfold subtype. rewrite !Type_subtype_iff. intros [] [].
    eauto using Correctness_subtype_trans, Malleability_subtype_trans.
Qed.
#[export] Instance subtype_antisymm : AntiSymm (=) subtype.
Proof.
  intros a b. unfold subtype. rewrite !Type_subtype_iff. intros [] [].
  destruct a, b; simpl in *.
  f_equal; eauto using Correctness_subtype_antisym, Malleability_subtype_antisym.
Qed.

(** ** Extra properties: data of [src/miniscript/types/extra_props.rs] *)

Record TimelockInfo : Type := MkTL {
  csv_with_height : bool;
  csv_with_time : bool;
  cltv_with_height : bool;
  cltv_with_time : bool;
  contains_combination : bool;
}.

Definition TimelockInfo_default : TimelockInfo := MkTL false false false false false.

Record OpLimits : Type := MkOps {
  count : nat;
  op_sat : option nat;
  op_nsat : option nat;
}.

(** [usize] quantities are natural numbers: every one of them is a sum over the
    nodes of a script that is held in memory. *)
Record ExtData : Type := MkExt {
  pk_cost : nat;
  has_free_verify : bool;
  ops : OpLimits;
  stack_elem_count_sat : option nat;
  stack_elem_count_dissat : option nat;
  max_sat_size : option (nat * nat);
  max_dissat_size : option (nat * nat);
  timelock_info : TimelockInfo;
  exec_stack_elem_count_sat : option nat;
  exec_stack_elem_count_dissat : option nat;
}.

#[export] Instance TimelockInfo_eq_dec : EqDecision TimelockInfo.
Proof. solve_decision. Defined.
#[export] Instance OpLimits_eq_dec : EqDecision OpLimits.
Proof. solve_decision. Defined.
#[export] Instance ExtData_eq_dec : EqDecision ExtData.
Proof. solve_decision. Defined.
