(* ===== verification/Extension.v ===== *)
(** * Script contexts, keys and extensions

    The interfaces the fragments are generic over: the script context
    ([src/miniscript/context.rs]), the [Extension] trait
    ([src/extensions/mod.rs]) and, as classes, the third-party traits
    [MiniscriptKey] and [ToPublicKey] together with the lock time types of the
    [elements] crate. *)

From S2P Require Import Prelude Types.
From stdpp Require Import strings.

(** The contexts a script can be used in.  They are uninhabited types in the
    source and select an implementation of the [ScriptContext] trait. *)
Inductive ScriptContext : Type := Legacy | Segwitv0 | Tap | BareCtx | NoChecks.

#[export] Instance ScriptContext_eq_dec : EqDecision ScriptContext.
Proof. solve_decision. Defined.

Inductive SigType : Type := Ecdsa | Schnorr.
#[export] Instance SigType_EqDecision : EqDecision SigType.
Proof. solve_decision. Defined.

Definition sig_type (ctx : ScriptContext) : SigType :=
  match ctx with
  | Tap => Schnorr
  | Legacy | Segwitv0 | BareCtx | NoChecks => Ecdsa
  end.

(** Errors of the context checks. *)
Inductive ScriptContextError : Type :=
  | MalleablePkH
  | MalleableOrI
  | MalleableDupIf
  | CompressedOnly (pk : string)
  | XOnlyKeysNotAllowed (pk : string) (ctx : string)
  | UncompressedKeysNotAllowed
  | MaxWitnessItemssExceeded (actual limit : nat)
  | MaxOpCountExceeded
  | MaxWitnessScriptSizeExceeded
  | MaxRedeemScriptSizeExceeded
  | MaxScriptSigSizeExceeded
  | ImpossibleSatisfaction
  | CovElementSizeExceeded
  | TaprootMultiDisabled
  | StackSizeLimitExceeded (actual limit : nat)
  | CheckMultiSigLimitExceeded
  | MultiANotAllowed
  | ExtensionError (s : string).

(** ** Third-party interfaces *)

(** Hash types: byte arrays of a fixed length ([hash160::Hash] and the like). *)
Record hash_n (n : nat) : Type := MkHash {
  hash_bytes : bytes;
  hash_len : (length hash_bytes =? n) = true;
}.
Arguments MkHash {n} _ _.
Arguments hash_bytes {n} _.
Arguments hash_len {n} _.

Lemma hash_n_eq {n} (h1 h2 : hash_n n) : hash_bytes h1 = hash_bytes h2 → h1 = h2.
Proof.
  destruct h1 as [b1 H1], h2 as [b2 H2]; simpl. intros ->. f_equal.
  apply (proof_irrel H1 H2).
Qed.

#[export] Instance hash_n_eq_dec n : EqDecision (hash_n n).
Proof.
  intros h1 h2. destruct (decide (hash_bytes h1 = hash_bytes h2)) as [He|He].
  - left. by apply hash_n_eq.
  - right. congruence.
Defined.

(** [Hash::from_slice] fails on a slice of another length. *)
Definition hash_from_slice (n : nat) (b : bytes) : option (hash_n n) :=
  match Bool.bool_dec (length b =? n) true with
  | left Hb => Some (MkHash b Hb)
  | right _ => None
  end.

Lemma hash_from_slice_Some n b h :
  hash_from_slice n b = Some h ↔ hash_bytes h = b.
Proof.
  unfold hash_from_slice. destruct (Bool.bool_dec _ _) as [Hb|Hb].
  - split; [by intros [= <-]|]. intros <-. f_equal. by apply hash_n_eq.
  - split; [done|]. intros <-. destruct (Hb (hash_len h)).
Qed.

Lemma hash_from_slice_is_Some n b : length b = n → is_Some (hash_from_slice n b).
Proof.
  intros Hb. apply Nat.eqb_eq in Hb. exists (MkHash b Hb). by apply hash_from_slice_Some.
Qed.

(** [bitcoin_miniscript::MiniscriptKey] with its associated hash types and the
    printed form of a key. *)
Class MiniscriptKey (Pk : Type) : Type := {
  Sha256T : Type;
  Hash256T : Type;
  Ripemd160T : Type;
  Hash160T : Type;
  is_uncompressed : Pk → bool;
  is_x_only_key : Pk → bool;
  key_to_string : Pk → string;
}.

(** Lock times of the [elements] crate.  [u32] values are [N]. *)
Class LockTimes : Type := {
  is_relative_lock_time : N → bool;
  is_height_locked : N → bool;
  is_time_locked : N → bool;
  is_block_height : N → bool;
  is_block_time : N → bool;
}.

(** What the crate documents about them: a lock time is a height or a time, and
    exactly the relative lock times are height locks or time locks. *)
Class LockTimesOk `{LockTimes} : Prop := {
  block_height_time : ∀ t, is_block_time t = negb (is_block_height t);
  relative_height_or_time :
    ∀ t, is_relative_lock_time t = true →
         is_time_locked t = negb (is_height_locked t);
  locked_relative :
    ∀ t, is_relative_lock_time t = false → is_height_locked t = false ∧ is_time_locked t = false;
}.

(** ** Extensions: [src/extensions/mod.rs] *)

Class Extension (Ext : Type) : Type := {
  corr_prop : Ext → Correctness;
  mall_prop : Ext → Malleability;
  extra_prop : Ext → ExtData;
  ext_script_size : Ext → nat;
  segwit_ctx_checks : Ext → result ScriptContextError unit;
  tap_ctx_checks : Ext → result ScriptContextError unit;
}.

(** [NoExt]: the empty extension. *)
Inductive NoExt : Type := .

#[export] Instance NoExt_Extension : Extension NoExt := {|
  corr_prop (e : NoExt) := match e with end;
  mall_prop (e : NoExt) := match e with end;
  extra_prop (e : NoExt) := match e with end;
  ext_script_size (e : NoExt) := match e with end;
  segwit_ctx_checks e := Ok tt;
  tap_ctx_checks e := Ok tt;
|}.

(** ** Transactions, and what an extension sees of them

    The transactions of the [elements] crate as an interface, the environment [TxEnv] a
    covenant fragment is evaluated in ([src/src/extensions/mod.rs]) and the errors of
    that evaluation ([EvalError] of [src/src/extensions/arith.rs]).  Indices and lengths
    are [N], 64-bit signed integers are [Z]. *)

(** [confidential::Value] and [confidential::Asset]: nothing, an explicit value, or a
    commitment. *)
Inductive Confidential (E C : Type) : Type :=
  | Null
  | Explicit (e : E)
  | Commitment (c : C).
Arguments Null {E C}.
Arguments Explicit {E C} e.
Arguments Commitment {E C} c.

#[export] Instance Confidential_eq_dec {E C} `{EqDecision E, EqDecision C} :
  EqDecision (Confidential E C).
Proof. solve_decision. Defined.

(** [Value::explicit], [Asset::explicit] *)
Definition explicit {E C} (v : Confidential E C) : option E :=
  match v with Explicit e => Some e | _ => None end.

(** The fields of a transaction the extensions read.  Script pubkeys are bytes, an
    asset id is a hash. *)
Class Transactions : Type := {
  Transaction : Type;
  TxIn : Type;
  TxOut : Type;
  PedersenCommitment : Type;
  Generator : Type;
  OutPoint : Type;
  #[global] Pedersen_eq_dec :: EqDecision PedersenCommitment;
  #[global] Generator_eq_dec :: EqDecision Generator;
  tx_input : Transaction → list TxIn;
  tx_output : Transaction → list TxOut;
  txout_value : TxOut → Confidential N PedersenCommitment;
  txout_asset : TxOut → Confidential (hash_n 32) Generator;
  txout_script_pubkey : TxOut → bytes;
  (** [asset_issuance.amount] and [asset_issuance.inflation_keys] *)
  issuance_amount : TxIn → Confidential N PedersenCommitment;
  issuance_inflation_keys : TxIn → Confidential N PedersenCommitment;
  (** what the signature hash covers: fields, and their consensus encodings *)
  tx_version : Transaction → N;
  tx_lock_time : Transaction → N;
  previous_output : TxIn → OutPoint;
  txin_sequence : TxIn → N;
  has_issuance : TxIn → bool;
  serialize_issuance : TxIn → bytes;
  serialize_outpoint : OutPoint → bytes;
  serialize_txout : TxOut → bytes;
  serialize_value : Confidential N PedersenCommitment → bytes;
}.

Section env.
Context `{Transactions}.

(** [confidential::Value] and [confidential::Asset] *)
Definition Value : Type := Confidential N PedersenCommitment.
Definition Asset : Type := Confidential (hash_n 32) Generator.

Record TxEnv : Type := MkTxEnv {
  env_tx : Transaction;
  spent_utxos : list TxOut;
  env_idx : N;
}.

(** [TxEnv::new]: one spent output per input. *)
Definition TxEnv_new (tx : Transaction) (utxos : list TxOut) (idx : N) : option TxEnv :=
  if length (tx_input tx) =? length utxos then Some (MkTxEnv tx utxos idx) else None.
End env.

(** [EvalError] *)
Inductive EvalError : Type :=
  | TxEnvNotPresent
  | UtxoIndexOutOfBounds (i len : N)
  | NonExplicitInput (i : N)
  | OutputIndexOutOfBounds (i len : N)
  | NonExplicitOutput (i : N)
  | InputIndexOutOfBounds (i len : N)
  | NonExplicitInputIssuance (i : N)
  | NonExplicitInputReIssuance (i : N)
  | AddOverflow (x y : Z)
  | SubOverflow (x y : Z)
  | MulOverflow (x y : Z)
  | DivOverflow (x y : Z)
  | ModOverflow (x y : Z)
  | NegOverflow (x : Z)
  | MissingPrice
  | Price8BytePush
  | MissingTimestamp
  | Timstamp8BytePush
  | MissingOracleSignature
  | MalformedSig
  | TimestampInFuture
  | InvalidSignature
  | PriceOverflow.
