(* ===== verification/Instances.v ===== *)
(** * A concrete instantiation of the third-party interfaces

    Small models of the types other crates provide, used to evaluate the
    definitions on concrete Miniscripts: keys of the three encodings, hashes as
    byte arrays, and lock times by the consensus rules. *)

From S2P Require Import Prelude Types Extension.
From stdpp Require Import strings.

(** A key is an index and the way it is serialized. *)
Inductive DemoKey : Type :=
  | Compressed (n : nat)
  | Uncompressed (n : nat)
  | XOnly (n : nat).

#[export] Instance DemoKey_eq_dec : EqDecision DemoKey.
Proof. solve_decision. Defined.

#[export] Instance DemoKey_MiniscriptKey : MiniscriptKey DemoKey := {|
  Sha256T := hash_n 32;
  Hash256T := hash_n 32;
  Ripemd160T := hash_n 20;
  Hash160T := hash_n 20;
  is_uncompressed k := match k with Uncompressed _ => true | _ => false end;
  is_x_only_key k := match k with XOnly _ => true | _ => false end;
  key_to_string _ := "key"%string;
|}.

(** BIP 65 and BIP 68: absolute lock times below 500000000 are heights; bit 31 of
    a sequence number disables relative lock times and bit 22 selects time. *)
#[export] Instance demo_LockTimes : LockTimes := {|
  is_relative_lock_time t := negb (N.testbit t 31);
  is_height_locked t := negb (N.testbit t 31) && negb (N.testbit t 22);
  is_time_locked t := negb (N.testbit t 31) && N.testbit t 22;
  is_block_height t := (t <? 500000000)%N;
  is_block_time t := (500000000 <=? t)%N;
|}.

#[export] Instance demo_LockTimesOk : LockTimesOk.
Proof.
  split; cbn.
  - intros t. by rewrite N.ltb_antisym, negb_involutive.
  - intros t ->. cbn. by rewrite negb_involutive.
  - by intros t ->.
Qed.
