(* ===== verification/Property.v ===== *)
(** * The [Property] interface

    The trait of [src/miniscript/types/mod.rs] that says how a type property
    propagates from the leaves of a Miniscript to its root, as a class.  It is
    implemented by the correctness type, the malleability type, their pair and
    the extra properties, one file each. *)

From S2P Require Import Prelude Types Extension.

Class Property (A : Type) : Type := {
  pr_sanity_checks : A → bool;
  pr_from_true : A;
  pr_from_false : A;
  pr_from_pk_k : ScriptContext → A;
  pr_from_pk_h : ScriptContext → A;
  pr_from_multi : nat → nat → A;
  pr_from_multi_a : nat → nat → A;
  pr_from_sha256 : A;
  pr_from_hash256 : A;
  pr_from_ripemd160 : A;
  pr_from_hash160 : A;
  pr_from_after : N → A;
  pr_from_older : N → A;
  pr_cast_alt : A → result ErrorKind A;
  pr_cast_swap : A → result ErrorKind A;
  pr_cast_check : A → result ErrorKind A;
  pr_cast_dupif : A → result ErrorKind A;
  pr_cast_verify : A → result ErrorKind A;
  pr_cast_nonzero : A → result ErrorKind A;
  pr_cast_zeronotequal : A → result ErrorKind A;
  pr_cast_true : A → result ErrorKind A;
  pr_and_b : A → A → result ErrorKind A;
  pr_and_v : A → A → result ErrorKind A;
  pr_or_b : A → A → result ErrorKind A;
  pr_or_d : A → A → result ErrorKind A;
  pr_or_c : A → A → result ErrorKind A;
  pr_or_i : A → A → result ErrorKind A;
  pr_and_or : A → A → A → result ErrorKind A;
  (** the number of children and a function that yields the child's property *)
  pr_threshold : nat → nat → (nat → result ErrorKind A) → result ErrorKind A;
}.

(** The casts the trait derives from the others. *)
Definition cast_unlikely {A} `{Property A} (self : A) : result ErrorKind A :=
  pr_or_i self pr_from_false.
Definition cast_likely {A} `{Property A} (self : A) : result ErrorKind A :=
  pr_or_i pr_from_false self.
Definition and_n {A} `{Property A} (left right : A) : result ErrorKind A :=
  pr_and_or left right pr_from_false.
(** The default body of [cast_true]. *)
Definition cast_true_default {A} (from_true : A)
    (and_v : A → A → result ErrorKind A) (self : A) : result ErrorKind A :=
  and_v self from_true.
