(* ===== verification/Correctness.v ===== *)
(** * Correctness typing rules: [src/miniscript/types/correctness.rs]

    [impl Property for Correctness], rule by rule. *)

From S2P Require Import Prelude Types Extension Property.

(** The [debug_assert!]s of the source, as a test. *)
Definition sanity_checks (self : Correctness) : bool :=
  match base self with
  | B => true
  | K => unit_ self
  | V => negb (unit_ self) && negb (dissatisfiable self)
  | W => negb (bool_decide (input self = OneNonZero))
         && negb (bool_decide (input self = AnyNonZero))
  end.

Definition from_true : Correctness := MkCorr B Zero false true.
Definition from_false : Correctness := MkCorr B Zero true true.
Definition from_pk_k (ctx : ScriptContext) : Correctness := MkCorr K OneNonZero true true.
Definition from_pk_h (ctx : ScriptContext) : Correctness := MkCorr K AnyNonZero true true.
Definition from_multi (k n : nat) : Correctness := MkCorr B AnyNonZero true true.
Definition from_multi_a (k n : nat) : Correctness := MkCorr B Any true true.
Definition from_hash : Correctness := MkCorr B OneNonZero true true.
Definition from_time (t : N) : Correctness := MkCorr B Zero false false.

Definition cast_alt (self : Correctness) : result ErrorKind Correctness :=
  let? base' := match base self with B => Ok W | x => Err (ChildBase1 x) end in
  Ok (MkCorr base' Any (dissatisfiable self) (unit_ self)).

Definition cast_swap (self : Correctness) : result ErrorKind Correctness :=
  let? base' := match base self with B => Ok W | x => Err (ChildBase1 x) end in
  let? input' := match input self with
                 | One | OneNonZero => Ok Any
                 | _ => Err SwapNonOne
                 end in
  Ok (MkCorr base' input' (dissatisfiable self) (unit_ self)).

Definition cast_check (self : Correctness) : result ErrorKind Correctness :=
  let? base' := match base self with K => Ok B | x => Err (ChildBase1 x) end in
  Ok (MkCorr base' (input self) (dissatisfiable self) true).

Definition cast_dupif (self : Correctness) : result ErrorKind Correctness :=
  let? base' := match base self with V => Ok B | x => Err (ChildBase1 x) end in
  let? input' := match input self with
                 | Zero => Ok OneNonZero
                 | _ => Err NonZeroDupIf
                 end in
  Ok (MkCorr base' input' true false).

Definition cast_verify (self : Correctness) : result ErrorKind Correctness :=
  let? base' := match base self with B => Ok V | x => Err (ChildBase1 x) end in
  Ok (MkCorr base' (input self) false false).

Definition cast_nonzero (self : Correctness) : result ErrorKind Correctness :=
  if negb (bool_decide (input self = OneNonZero))
     && negb (bool_decide (input self = AnyNonZero))
  then Err NonZeroZero
  else
    let? base' := match base self with B => Ok B | x => Err (ChildBase1 x) end in
    Ok (MkCorr base' (input self) true (unit_ self)).

Definition cast_zeronotequal (self : Correctness) : result ErrorKind Correctness :=
  let? base' := match base self with B => Ok B | x => Err (ChildBase1 x) end in
  Ok (MkCorr base' (input self) (dissatisfiable self) true).

Definition cast_true (self : Correctness) : result ErrorKind Correctness :=
  let? base' := match base self with V => Ok B | x => Err (ChildBase1 x) end in
  Ok (MkCorr base' (input self) false true).

Definition cast_or_i_false (self : Correctness) : result ErrorKind Correctness :=
  let? base' := match base self with B => Ok B | x => Err (ChildBase1 x) end in
  Ok (MkCorr base' (match input self with Zero => One | _ => Any end) true (unit_ self)).

(** The input rule shared by [and_b] and [and_v] (written out twice in the source). *)
Definition and_input (left right : Input) : Input :=
  match left, right with
  | Zero, Zero => Zero
  | Zero, One | One, Zero => One
  | Zero, OneNonZero | OneNonZero, Zero => OneNonZero
  | OneNonZero, _ | AnyNonZero, _ | Zero, AnyNonZero => AnyNonZero
  | _, _ => Any
  end.

Definition and_b (left right : Correctness) : result ErrorKind Correctness :=
  let? base' := match base left, base right with
                | B, W => Ok B
                | x, y => Err (ChildBase2 x y)
                end in
  Ok (MkCorr base' (and_input (input left) (input right))
        (dissatisfiable left && dissatisfiable right) true).

Definition and_v (left right : Correctness) : result ErrorKind Correctness :=
  let? base' := match base left, base right with
                | V, B => Ok B
                | V, K => Ok K
                | V, V => Ok V
                | x, y => Err (ChildBase2 x y)
                end in
  Ok (MkCorr base' (and_input (input left) (input right)) false (unit_ right)).

Definition or_b_input (left right : Input) : Input :=
  match left, right with
  | Zero, Zero => Zero
  | Zero, One | One, Zero | Zero, OneNonZero | OneNonZero, Zero => One
  | _, _ => Any
  end.

Definition or_b (left right : Correctness) : result ErrorKind Correctness :=
  if negb (dissatisfiable left) then Err LeftNotDissatisfiable
  else if negb (dissatisfiable right) then Err RightNotDissatisfiable
  else
    let? base' := match base left, base right with
                  | B, W => Ok B
                  | x, y => Err (ChildBase2 x y)
                  end in
    Ok (MkCorr base' (or_b_input (input left) (input right)) true true).

(** The input rule of [or_d] and [or_c]. *)
Definition or_dc_input (left right : Input) : Input :=
  match left, right with
  | Zero, Zero => Zero
  | One, Zero | OneNonZero, Zero => One
  | _, _ => Any
  end.

Definition or_d (left right : Correctness) : result ErrorKind Correctness :=
  if negb (dissatisfiable left) then Err LeftNotDissatisfiable
  else if negb (unit_ left) then Err LeftNotUnit
  else
    let? base' := match base left, base right with
                  | B, B => Ok B
                  | x, y => Err (ChildBase2 x y)
                  end in
    Ok (MkCorr base' (or_dc_input (input left) (input right))
          (dissatisfiable right) (unit_ right)).

Definition or_c (left right : Correctness) : result ErrorKind Correctness :=
  if negb (dissatisfiable left) then Err LeftNotDissatisfiable
  else if negb (unit_ left) then Err LeftNotUnit
  else
    let? base' := match base left, base right with
                  | B, V => Ok V
                  | x, y => Err (ChildBase2 x y)
                  end in
    Ok (MkCorr base' (or_dc_input (input left) (input right)) false false).

Definition or_i_input (left right : Input) : Input :=
  match left, right with
  | Zero, Zero => One
  | _, _ => Any
  end.

Definition or_i (left right : Correctness) : result ErrorKind Correctness :=
  let? base' := match base left, base right with
                | B, B => Ok B
                | V, V => Ok V
                | K, K => Ok K
                | x, y => Err (ChildBase2 x y)
                end in
  Ok (MkCorr base' (or_i_input (input left) (input right))
        (dissatisfiable left || dissatisfiable right) (unit_ left && unit_ right)).

Definition and_or_input (a b c : Input) : Input :=
  match a, b, c with
  | Zero, Zero, Zero => Zero
  | Zero, One, One
  | Zero, One, OneNonZero
  | Zero, OneNonZero, One
  | Zero, OneNonZero, OneNonZero
  | One, Zero, Zero
  | OneNonZero, Zero, Zero => One
  | _, _, _ => Any
  end.

Definition and_or (a b c : Correctness) : result ErrorKind Correctness :=
  if negb (dissatisfiable a) then Err LeftNotDissatisfiable
  else if negb (unit_ a) then Err LeftNotUnit
  else
    let? base' := match base a, base b, base c with
                  | B, B, B => Ok B
                  | B, K, K => Ok K
                  | B, V, V => Ok V
                  | x, y, z => Err (ChildBase3 x y z)
                  end in
    Ok (MkCorr base'
          (and_or_input (input a) (input b) (input c))
          (dissatisfiable c) (unit_ b && unit_ c)).

(** The contribution of one child to the argument count of a threshold; it is
    only compared with 0 and 1. *)
Definition threshold_args (i : Input) : nat :=
  match i with
  | Zero => 0
  | One | OneNonZero => 1
  | Any | AnyNonZero => 2
  end.

(** One turn of the loop over the children. *)
Definition threshold_step (sub_ck : nat → result ErrorKind Correctness)
    (num_args i : nat) : result ErrorKind nat :=
  let? subtype := sub_ck i in
  let num_args := num_args + threshold_args (input subtype) in
  if (i =? 0) && negb (bool_decide (base subtype = B)) then Err (ThresholdBase i (base subtype))
  else if negb (i =? 0) && negb (bool_decide (base subtype = W))
  then Err (ThresholdBase i (base subtype))
  else if negb (unit_ subtype) then Err (ThresholdNonUnit i)
  else if negb (dissatisfiable subtype) then Err (ThresholdDissat i)
  else Ok num_args.

Definition threshold (k n : nat) (sub_ck : nat → result ErrorKind Correctness)
    : result ErrorKind Correctness :=
  let? num_args := try_fold (threshold_step sub_ck) 0 (seq 0 n) in
  Ok (MkCorr B
        match num_args with
        | 0 => Zero
        | 1 => One
        | _ => Any
        end true true).

#[global] Instance Correctness_Property : Property Correctness := {|
  pr_sanity_checks := sanity_checks;
  pr_from_true := from_true;
  pr_from_false := from_false;
  pr_from_pk_k := from_pk_k;
  pr_from_pk_h := from_pk_h;
  pr_from_multi := from_multi;
  pr_from_multi_a := from_multi_a;
  pr_from_sha256 := from_hash;
  pr_from_hash256 := from_hash;
  pr_from_ripemd160 := from_hash;
  pr_from_hash160 := from_hash;
  pr_from_after := from_time;
  pr_from_older := from_time;
  pr_cast_alt := cast_alt;
  pr_cast_swap := cast_swap;
  pr_cast_check := cast_check;
  pr_cast_dupif := cast_dupif;
  pr_cast_verify := cast_verify;
  pr_cast_nonzero := cast_nonzero;
  pr_cast_zeronotequal := cast_zeronotequal;
  pr_cast_true := cast_true;
  pr_and_b := and_b;
  pr_and_v := and_v;
  pr_or_b := or_b;
  pr_or_d := or_d;
  pr_or_c := or_c;
  pr_or_i := or_i;
  pr_and_or := and_or;
  pr_threshold := threshold;
|}.
