(* ===== verification/Malleability.v ===== *)
(** * Malleability typing rules: [src/miniscript/types/malleability.rs]

    [impl Property for Malleability], rule by rule. *)

From S2P Require Import Prelude Types Extension Property.

(** The trait's default: nothing is asserted about a malleability type alone. *)
Definition sanity_checks (self : Malleability) : bool := true.

Definition from_true : Malleability := MkMall DNone false true.
Definition from_false : Malleability := MkMall Unique true true.
Definition from_pk_k (ctx : ScriptContext) : Malleability := MkMall Unique true true.
Definition from_pk_h (ctx : ScriptContext) : Malleability := MkMall Unique true true.
Definition from_multi (k n : nat) : Malleability := MkMall Unique true true.
Definition from_multi_a (k n : nat) : Malleability := MkMall Unique true true.
Definition from_hash : Malleability := MkMall Unknown false true.
Definition from_time (t : N) : Malleability := MkMall DNone false true.

Definition cast_alt (self : Malleability) : result ErrorKind Malleability := Ok self.
Definition cast_swap (self : Malleability) : result ErrorKind Malleability := Ok self.
Definition cast_check (self : Malleability) : result ErrorKind Malleability := Ok self.

Definition cast_dupif (self : Malleability) : result ErrorKind Malleability :=
  Ok (MkMall (if bool_decide (dissat self = DNone) then Unique else Unknown)
        (safe self) (non_malleable self)).

Definition cast_verify (self : Malleability) : result ErrorKind Malleability :=
  Ok (MkMall DNone (safe self) (non_malleable self)).

Definition cast_nonzero (self : Malleability) : result ErrorKind Malleability :=
  Ok (MkMall (if bool_decide (dissat self = DNone) then Unique else Unknown)
        (safe self) (non_malleable self)).

Definition cast_zeronotequal (self : Malleability) : result ErrorKind Malleability := Ok self.

Definition cast_true (self : Malleability) : result ErrorKind Malleability :=
  Ok (MkMall DNone (safe self) (non_malleable self)).

Definition cast_or_i_false (self : Malleability) : result ErrorKind Malleability :=
  Ok (MkMall (if bool_decide (dissat self = DNone) then Unique else Unknown)
        (safe self) (non_malleable self)).

Definition and_b (left right : Malleability) : result ErrorKind Malleability :=
  Ok (MkMall
        match dissat left, dissat right with
        | DNone, DNone => DNone
        | DNone, _ =>
            (* the guard fails: no later arm matches [(None, Some)] *)
            if safe left then DNone else Unknown
        | _, DNone => if safe right then DNone else Unknown
        | Unique, Unique => if safe left && safe right then Unique else Unknown
        | _, _ => Unknown
        end
        (safe left || safe right) (non_malleable left && non_malleable right)).

Definition and_v (left right : Malleability) : result ErrorKind Malleability :=
  Ok (MkMall
        match safe left, dissat right with
        | _, DNone => DNone
        | true, _ => DNone
        | _, _ => Unknown
        end
        (safe left || safe right) (non_malleable left && non_malleable right)).

Definition or_b (left right : Malleability) : result ErrorKind Malleability :=
  Ok (MkMall Unique (safe left && safe right)
        (non_malleable left
         && bool_decide (dissat left = Unique)
         && non_malleable right
         && bool_decide (dissat right = Unique)
         && (safe left || safe right))).

Definition or_d (left right : Malleability) : result ErrorKind Malleability :=
  Ok (MkMall (dissat right) (safe left && safe right)
        (non_malleable left
         && bool_decide (dissat left = Unique)
         && non_malleable right
         && (safe left || safe right))).

Definition or_c (left right : Malleability) : result ErrorKind Malleability :=
  Ok (MkMall DNone (safe left && safe right)
        (non_malleable left
         && bool_decide (dissat left = Unique)
         && non_malleable right
         && (safe left || safe right))).

Definition or_i (left right : Malleability) : result ErrorKind Malleability :=
  Ok (MkMall
        match dissat left, dissat right with
        | DNone, DNone => DNone
        | Unique, DNone => Unique
        | DNone, Unique => Unique
        | _, _ => Unknown
        end
        (safe left && safe right)
        (non_malleable left && non_malleable right && (safe left || safe right))).

Definition and_or (a b c : Malleability) : result ErrorKind Malleability :=
  Ok (MkMall
        match safe a, dissat b, dissat c with
        | _, DNone, Unique => Unique
        | true, _, Unique => Unique
        | _, DNone, DNone => DNone
        | true, _, DNone => DNone
        | _, _, _ => Unknown
        end
        ((safe a || safe b) && safe c)
        (non_malleable a
         && non_malleable c
         && bool_decide (dissat a = Unique)
         && non_malleable b
         && (safe a || safe b || safe c))).

(** The accumulators of the loop over the children of a threshold. *)
Record ThreshAcc : Type := MkAcc {
  safe_count : nat;
  all_are_dissat_unique : bool;
  all_are_non_malleable : bool;
}.

Definition threshold_step (sub_ck : nat → result ErrorKind Malleability)
    (acc : ThreshAcc) (i : nat) : result ErrorKind ThreshAcc :=
  let? subtype := sub_ck i in
  Ok (MkAcc (safe_count acc + (if safe subtype then 1 else 0))
        (all_are_dissat_unique acc && bool_decide (dissat subtype = Unique))
        (all_are_non_malleable acc && non_malleable subtype)).

(** [n - k] cannot underflow: [type_check] rejects [k > n] first. *)
Definition threshold (k n : nat) (sub_ck : nat → result ErrorKind Malleability)
    : result ErrorKind Malleability :=
  let? acc := try_fold (threshold_step sub_ck) (MkAcc 0 true true) (seq 0 n) in
  Ok (MkMall
        (if all_are_dissat_unique acc && (safe_count acc =? n) then Unique else Unknown)
        (n - k <? safe_count acc)
        (all_are_non_malleable acc && (n - k <=? safe_count acc) && all_are_dissat_unique acc)).

#[global] Instance Malleability_Property : Property Malleability := {|
  pr_sanity_checks := sanity_checks;
  pr_from_true := from_true;
  pr_from_false := from_false;
  pr_from_pk_k := from_pk_k;
  pr_from_pk_h := from_pk_h;
  pr_from_multi := from_multi;
  pr_from_multi_a := from_multi_a;
  pr_from_sha256 := from_hash;
  pr_from_hash256 := from_hash;
  pr_from_ripemd160 := from_hash;
  pr_from_hash160 := from_hash;
  pr_from_after := from_time;
  pr_from_older := from_time;
  pr_cast_alt := cast_alt;
  pr_cast_swap := cast_swap;
  pr_cast_check := cast_check;
  pr_cast_dupif := cast_dupif;
  pr_cast_verify := cast_verify;
  pr_cast_nonzero := cast_nonzero;
  pr_cast_zeronotequal := cast_zeronotequal;
  pr_cast_true := cast_true;
  pr_and_b := and_b;
  pr_and_v := and_v;
  pr_or_b := or_b;
  pr_or_d := or_d;
  pr_or_c := or_c;
  pr_or_i := or_i;
  pr_and_or := and_or;
  pr_threshold := threshold;
|}.
