(* ===== verification/ExtraProps.v ===== *)
(** * Extra properties: [src/miniscript/types/extra_props.rs]

    Resource accounting for a fragment: script size, opcode counts, witness
    element counts and sizes, execution stack depth and time lock mixing. *)

From S2P Require Import Prelude Types Extension Property.

(** ** Numbers in scripts ([src/lib.rs]) *)

Definition script_num_size (n : N) : nat :=
  if (n <=? 0x10)%N then 1
  else if (n <? 0x80)%N then 2
  else if (n <? 0x8000)%N then 3
  else if (n <? 0x800000)%N then 4
  else if (n <? 0x80000000)%N then 5
  else 6.

(** ** Options

    [cmp::max] on [Option<T>] orders [None] below every [Some]; [opt_max] and
    [opt_add] of the source are [None] as soon as one argument is. *)

Definition cmp_max (a b : option nat) : option nat :=
  match a, b with
  | Some x, Some y => Some (Nat.max x y)
  | Some x, None => Some x
  | None, b => b
  end.

(** [Ord] on pairs is lexicographic, and [cmp::max] returns its second argument
    on a tie. *)
Definition pair_max (a b : nat * nat) : nat * nat :=
  if (b.1 <? a.1) || ((a.1 =? b.1) && (b.2 <? a.2)) then a else b.

Definition cmp_max_pair (a b : option (nat * nat)) : option (nat * nat) :=
  match a, b with
  | Some x, Some y => Some (pair_max x y)
  | Some x, None => Some x
  | None, b => b
  end.

Definition opt_max (a b : option nat) : option nat :=
  match a, b with
  | Some x, Some y => Some (Nat.max x y)
  | _, _ => None
  end.

Definition opt_add (a b : option nat) : option nat :=
  match a, b with
  | Some x, Some y => Some (x + y)
  | _, _ => None
  end.

Definition opt_add_pair (a b : option (nat * nat)) : option (nat * nat) :=
  match a, b with
  | Some (aw, a_s), Some (bw, bs) => Some (aw + bw, a_s + bs)
  | _, _ => None
  end.

(** ** Operation limits *)

Definition op_count (self : OpLimits) : option nat :=
  match op_sat self with
  | Some sat => Some (count self + sat)
  | None => None
  end.

(** ** Time locks *)

(** One turn of the fold of [combine_threshold]. *)
Definition combine_step (k : nat) (acc t : TimelockInfo) : TimelockInfo :=
  let height_and_time :=
    (csv_with_height acc && csv_with_time t)
    || (csv_with_time acc && csv_with_height t)
    || (cltv_with_time acc && cltv_with_height t)
    || (cltv_with_height acc && cltv_with_time t) in
  let comb := if 1 <? k then contains_combination acc || height_and_time
              else contains_combination acc in
  MkTL (csv_with_height acc || csv_with_height t)
       (csv_with_time acc || csv_with_time t)
       (cltv_with_height acc || cltv_with_height t)
       (cltv_with_time acc || cltv_with_time t)
       (comb || contains_combination t).

Definition combine_threshold (k : nat) (timelocks : list TimelockInfo) : TimelockInfo :=
  fold_left (combine_step k) timelocks TimelockInfo_default.

Definition combine_and (a b : TimelockInfo) : TimelockInfo := combine_threshold 2 [a; b].
Definition combine_or (a b : TimelockInfo) : TimelockInfo := combine_threshold 1 [a; b].

Definition contains_unspendable_path (self : TimelockInfo) : bool := contains_combination self.

(** ** Leaves *)

Definition sanity_checks (self : ExtData) : bool :=
  Bool.eqb (bool_decide (is_Some (stack_elem_count_sat self)))
           (bool_decide (is_Some (exec_stack_elem_count_sat self)))
  && Bool.eqb (bool_decide (is_Some (stack_elem_count_dissat self)))
              (bool_decide (is_Some (exec_stack_elem_count_dissat self))).

Definition from_true : ExtData := {|
  pk_cost := 1;
  has_free_verify := false;
  ops := MkOps 0 (Some 0) None;
  stack_elem_count_sat := Some 0;
  stack_elem_count_dissat := None;
  max_sat_size := Some (0, 0);
  max_dissat_size := None;
  timelock_info := TimelockInfo_default;
  exec_stack_elem_count_sat := Some 1;
  exec_stack_elem_count_dissat := None;
|}.

Definition from_false : ExtData := {|
  pk_cost := 1;
  has_free_verify := false;
  ops := MkOps 0 None (Some 0);
  stack_elem_count_sat := None;
  stack_elem_count_dissat := Some 0;
  max_sat_size := None;
  max_dissat_size := Some (0, 0);
  timelock_info := TimelockInfo_default;
  exec_stack_elem_count_sat := None;
  exec_stack_elem_count_dissat := Some 1;
|}.

Definition from_pk_k (ctx : ScriptContext) : ExtData := {|
  pk_cost := match sig_type ctx with Ecdsa => 34 | Schnorr => 33 end;
  has_free_verify := false;
  ops := MkOps 0 (Some 0) (Some 0);
  stack_elem_count_sat := Some 1;
  stack_elem_count_dissat := Some 1;
  max_sat_size := match sig_type ctx with
                  | Ecdsa => Some (73, 73)
                  | Schnorr => Some (66, 66)
                  end;
  max_dissat_size := Some (1, 1);
  timelock_info := TimelockInfo_default;
  exec_stack_elem_count_sat := Some 1;
  exec_stack_elem_count_dissat := Some 1;
|}.

Definition from_pk_h (ctx : ScriptContext) : ExtData := {|
  pk_cost := 24;
  has_free_verify := false;
  ops := MkOps 3 (Some 0) (Some 0);
  stack_elem_count_sat := Some 2;
  stack_elem_count_dissat := Some 2;
  max_sat_size := match sig_type ctx with
                  | Ecdsa => Some (34 + 73, 34 + 73)
                  | Schnorr => Some (66 + 33, 33 + 66)
                  end;
  max_dissat_size := match sig_type ctx with
                     | Ecdsa => Some (35, 35)
                     | Schnorr => Some (34, 34)
                     end;
  timelock_info := TimelockInfo_default;
  exec_stack_elem_count_sat := Some 2;
  exec_stack_elem_count_dissat := Some 2;
|}.

Definition num_cost (k n : nat) : nat :=
  match 16 <? k, 16 <? n with
  | true, true => 4
  | false, true => 3
  | true, false => 3
  | false, false => 2
  end.

Definition from_multi (k n : nat) : ExtData := {|
  pk_cost := num_cost k n + 34 * n + 1;
  has_free_verify := true;
  ops := MkOps 1 (Some n) (Some n);
  stack_elem_count_sat := Some (k + 1);
  stack_elem_count_dissat := Some (k + 1);
  max_sat_size := Some (1 + 73 * k, 1 + 73 * k);
  max_dissat_size := Some (1 + k, 1 + k);
  timelock_info := TimelockInfo_default;
  exec_stack_elem_count_sat := Some n;
  exec_stack_elem_count_dissat := Some n;
|}.

Definition from_multi_a (k n : nat) : ExtData := {|
  pk_cost := num_cost k n + 33 * n + (n - 1) + 1;
  has_free_verify := true;
  ops := MkOps n (Some 0) (Some 0);
  stack_elem_count_sat := Some n;
  stack_elem_count_dissat := Some n;
  max_sat_size := Some ((n - k) + 66 * k, (n - k) + 66 * k);
  max_dissat_size := Some (n, n);
  timelock_info := TimelockInfo_default;
  exec_stack_elem_count_sat := Some 2;
  exec_stack_elem_count_dissat := Some 2;
|}.

(** The four hash fragments differ in the length of the digest only. *)
Definition from_hash_of (cost : nat) : ExtData := {|
  pk_cost := cost;
  has_free_verify := true;
  ops := MkOps 4 (Some 0) (Some 0);
  stack_elem_count_sat := Some 1;
  stack_elem_count_dissat := Some 1;
  max_sat_size := Some (33, 33);
  max_dissat_size := Some (33, 33);
  timelock_info := TimelockInfo_default;
  exec_stack_elem_count_sat := Some 2;
  exec_stack_elem_count_dissat := Some 2;
|}.

Definition from_sha256 : ExtData := from_hash_of (33 + 6).
Definition from_hash256 : ExtData := from_hash_of (33 + 6).
Definition from_ripemd160 : ExtData := from_hash_of (21 + 6).
Definition from_hash160 : ExtData := from_hash_of (21 + 6).

Section timelocks.
Context `{LockTimes}.

Definition from_after (t : N) : ExtData := {|
  pk_cost := script_num_size t + 1;
  has_free_verify := false;
  ops := MkOps 1 (Some 0) None;
  stack_elem_count_sat := Some 0;
  stack_elem_count_dissat := None;
  max_sat_size := Some (0, 0);
  max_dissat_size := None;
  timelock_info := MkTL false false (is_block_height t) (is_block_time t) false;
  exec_stack_elem_count_sat := Some 1;
  exec_stack_elem_count_dissat := None;
|}.

Definition from_older (t : N) : ExtData := {|
  pk_cost := script_num_size t + 1;
  has_free_verify := false;
  ops := MkOps 1 (Some 0) None;
  stack_elem_count_sat := Some 0;
  stack_elem_count_dissat := None;
  max_sat_size := Some (0, 0);
  max_dissat_size := None;
  timelock_info := MkTL (is_height_locked t) (is_time_locked t) false false false;
  exec_stack_elem_count_sat := Some 1;
  exec_stack_elem_count_dissat := None;
|}.
End timelocks.

(** ** Wrappers *)

(** The wrappers that only change the script: [cost] bytes and [n] opcodes. *)
Definition wrap (self : ExtData) (cost n : nat) (free_verify : bool) : ExtData := {|
  pk_cost := pk_cost self + cost;
  has_free_verify := free_verify;
  ops := MkOps (n + count (ops self)) (op_sat (ops self)) (op_nsat (ops self));
  stack_elem_count_sat := stack_elem_count_sat self;
  stack_elem_count_dissat := stack_elem_count_dissat self;
  max_sat_size := max_sat_size self;
  max_dissat_size := max_dissat_size self;
  timelock_info := timelock_info self;
  exec_stack_elem_count_sat := exec_stack_elem_count_sat self;
  exec_stack_elem_count_dissat := exec_stack_elem_count_dissat self;
|}.

Definition cast_alt (self : ExtData) : result ErrorKind ExtData := Ok (wrap self 2 2 false).
Definition cast_swap (self : ExtData) : result ErrorKind ExtData :=
  Ok (wrap self 1 1 (has_free_verify self)).
Definition cast_check (self : ExtData) : result ErrorKind ExtData := Ok (wrap self 1 1 true).
Definition cast_zeronotequal (self : ExtData) : result ErrorKind ExtData :=
  Ok (wrap self 1 1 false).

Definition cast_dupif (self : ExtData) : result ErrorKind ExtData := Ok {|
  pk_cost := pk_cost self + 3;
  has_free_verify := false;
  ops := MkOps (3 + count (ops self)) (op_sat (ops self)) (Some 0);
  stack_elem_count_sat := option_map (λ x, x + 1) (stack_elem_count_sat self);
  stack_elem_count_dissat := Some 1;
  max_sat_size := option_map (λ '(w, s), (w + 2, s + 1)) (max_sat_size self);
  max_dissat_size := Some (1, 1);
  timelock_info := timelock_info self;
  exec_stack_elem_count_sat := exec_stack_elem_count_sat self;
  exec_stack_elem_count_dissat := Some 1;
|}.

Definition cast_verify (self : ExtData) : result ErrorKind ExtData :=
  let verify_cost := if has_free_verify self then 0 else 1 in
  Ok {|
  pk_cost := pk_cost self + verify_cost;
  has_free_verify := false;
  ops := MkOps (verify_cost + count (ops self)) (op_sat (ops self)) None;
  stack_elem_count_sat := stack_elem_count_sat self;
  stack_elem_count_dissat := None;
  max_sat_size := max_sat_size self;
  max_dissat_size := None;
  timelock_info := timelock_info self;
  exec_stack_elem_count_sat := exec_stack_elem_count_sat self;
  exec_stack_elem_count_dissat := None;
|}.

Definition cast_nonzero (self : ExtData) : result ErrorKind ExtData := Ok {|
  pk_cost := pk_cost self + 4;
  has_free_verify := false;
  ops := MkOps (4 + count (ops self)) (op_sat (ops self)) (Some 0);
  stack_elem_count_sat := stack_elem_count_sat self;
  stack_elem_count_dissat := Some 1;
  max_sat_size := max_sat_size self;
  max_dissat_size := Some (1, 1);
  timelock_info := timelock_info self;
  exec_stack_elem_count_sat := exec_stack_elem_count_sat self;
  exec_stack_elem_count_dissat := Some 1;
|}.

(** ** Conjunctions and disjunctions *)

Definition and_b (l r : ExtData) : result ErrorKind ExtData := Ok {|
  pk_cost := pk_cost l + pk_cost r + 1;
  has_free_verify := false;
  ops := MkOps (1 + count (ops l) + count (ops r))
           (opt_add (op_sat (ops l)) (op_sat (ops r)))
           (opt_add (op_nsat (ops l)) (op_nsat (ops r)));
  stack_elem_count_sat := opt_add (stack_elem_count_sat l) (stack_elem_count_sat r);
  stack_elem_count_dissat := opt_add (stack_elem_count_dissat l) (stack_elem_count_dissat r);
  max_sat_size := opt_add_pair (max_sat_size l) (max_sat_size r);
  max_dissat_size := opt_add_pair (max_dissat_size l) (max_dissat_size r);
  timelock_info := combine_and (timelock_info l) (timelock_info r);
  exec_stack_elem_count_sat :=
    opt_max (exec_stack_elem_count_sat l) (option_map (λ x, x + 1) (exec_stack_elem_count_sat r));
  exec_stack_elem_count_dissat :=
    opt_max (exec_stack_elem_count_dissat l)
      (option_map (λ x, x + 1) (exec_stack_elem_count_dissat r));
|}.

Definition and_v (l r : ExtData) : result ErrorKind ExtData := Ok {|
  pk_cost := pk_cost l + pk_cost r;
  has_free_verify := has_free_verify r;
  ops := MkOps (count (ops l) + count (ops r))
           (opt_add (op_sat (ops l)) (op_sat (ops r))) None;
  stack_elem_count_sat := opt_add (stack_elem_count_sat l) (stack_elem_count_sat r);
  stack_elem_count_dissat := None;
  max_sat_size := opt_add_pair (max_sat_size l) (max_sat_size r);
  max_dissat_size := None;
  timelock_info := combine_and (timelock_info l) (timelock_info r);
  exec_stack_elem_count_sat :=
    opt_max (exec_stack_elem_count_sat l) (exec_stack_elem_count_sat r);
  exec_stack_elem_count_dissat := None;
|}.

Definition or_b (l r : ExtData) : result ErrorKind ExtData := Ok {|
  pk_cost := pk_cost l + pk_cost r + 1;
  has_free_verify := false;
  ops := MkOps (count (ops l) + count (ops r) + 1)
           (cmp_max (opt_add (op_sat (ops l)) (op_nsat (ops r)))
                    (opt_add (op_nsat (ops l)) (op_sat (ops r))))
           (opt_add (op_nsat (ops l)) (op_nsat (ops r)));
  stack_elem_count_sat :=
    cmp_max (opt_add (stack_elem_count_sat l) (stack_elem_count_dissat r))
            (opt_add (stack_elem_count_dissat l) (stack_elem_count_sat r));
  stack_elem_count_dissat := opt_add (stack_elem_count_dissat l) (stack_elem_count_dissat r);
  max_sat_size :=
    cmp_max_pair (opt_add_pair (max_sat_size l) (max_dissat_size r))
                 (opt_add_pair (max_dissat_size l) (max_sat_size r));
  max_dissat_size := opt_add_pair (max_dissat_size l) (max_dissat_size r);
  timelock_info := combine_or (timelock_info l) (timelock_info r);
  exec_stack_elem_count_sat :=
    cmp_max
      (opt_max (exec_stack_elem_count_sat l)
         (option_map (λ x, x + 1) (exec_stack_elem_count_dissat r)))
      (opt_max (exec_stack_elem_count_dissat l)
         (option_map (λ x, x + 1) (exec_stack_elem_count_sat r)));
  exec_stack_elem_count_dissat :=
    opt_max (exec_stack_elem_count_dissat l)
      (option_map (λ x, x + 1) (exec_stack_elem_count_dissat r));
|}.

Definition or_d (l r : ExtData) : result ErrorKind ExtData := Ok {|
  pk_cost := pk_cost l + pk_cost r + 3;
  has_free_verify := false;
  ops := MkOps (count (ops l) + count (ops r) + 3)
           (cmp_max (op_sat (ops l)) (opt_add (op_nsat (ops l)) (op_sat (ops r))))
           (opt_add (op_nsat (ops l)) (op_nsat (ops r)));
  stack_elem_count_sat :=
    cmp_max (stack_elem_count_sat l)
            (opt_add (stack_elem_count_dissat l) (stack_elem_count_sat r));
  stack_elem_count_dissat := opt_add (stack_elem_count_dissat l) (stack_elem_count_dissat r);
  max_sat_size :=
    cmp_max_pair (max_sat_size l) (opt_add_pair (max_dissat_size l) (max_sat_size r));
  max_dissat_size := opt_add_pair (max_dissat_size l) (max_dissat_size r);
  timelock_info := combine_or (timelock_info l) (timelock_info r);
  exec_stack_elem_count_sat :=
    cmp_max (exec_stack_elem_count_sat l)
      (opt_max (exec_stack_elem_count_sat r) (exec_stack_elem_count_dissat l));
  exec_stack_elem_count_dissat :=
    opt_max (exec_stack_elem_count_dissat l)
      (option_map (λ x, x + 1) (exec_stack_elem_count_dissat r));
|}.

Definition or_c (l r : ExtData) : result ErrorKind ExtData := Ok {|
  pk_cost := pk_cost l + pk_cost r + 2;
  has_free_verify := false;
  ops := MkOps (count (ops l) + count (ops r) + 2)
           (cmp_max (op_sat (ops l)) (opt_add (op_nsat (ops l)) (op_sat (ops r))))
           None;
  stack_elem_count_sat :=
    cmp_max (stack_elem_count_sat l)
            (opt_add (stack_elem_count_dissat l) (stack_elem_count_sat r));
  stack_elem_count_dissat := None;
  max_sat_size :=
    cmp_max_pair (max_sat_size l) (opt_add_pair (max_dissat_size l) (max_sat_size r));
  max_dissat_size := None;
  timelock_info := combine_or (timelock_info l) (timelock_info r);
  exec_stack_elem_count_sat :=
    cmp_max (exec_stack_elem_count_sat l)
      (opt_max (exec_stack_elem_count_sat r) (exec_stack_elem_count_dissat l));
  exec_stack_elem_count_dissat := None;
|}.

(** [1 + max] when both branches exist, [1 +] the only one otherwise. *)
Definition or_i_count (l r : option nat) : option nat :=
  match l, r with
  | Some l, Some r => Some (1 + Nat.max l r)
  | Some l, None => Some (1 + l)
  | None, Some r => Some (1 + r)
  | None, None => None
  end.

Definition or_i (l r : ExtData) : result ErrorKind ExtData := Ok {|
  pk_cost := pk_cost l + pk_cost r + 3;
  has_free_verify := false;
  ops := MkOps (count (ops l) + count (ops r) + 3)
           (cmp_max (op_sat (ops l)) (op_sat (ops r)))
           (cmp_max (op_nsat (ops l)) (op_nsat (ops r)));
  stack_elem_count_sat := or_i_count (stack_elem_count_sat l) (stack_elem_count_sat r);
  stack_elem_count_dissat := or_i_count (stack_elem_count_dissat l) (stack_elem_count_dissat r);
  max_sat_size :=
    cmp_max_pair (option_map (λ '(w, s), (w + 2, s + 1)) (max_sat_size l))
                 (option_map (λ '(w, s), (w + 1, s + 1)) (max_sat_size r));
  max_dissat_size :=
    match max_dissat_size l, max_dissat_size r with
    | Some l, Some r => let max := pair_max l r in Some (1 + max.1, 1 + max.2)
    | None, Some r => Some (1 + r.1, 1 + r.2)
    | Some l, None => Some (2 + l.1, 1 + l.2)
    | None, None => None
    end;
  timelock_info := combine_or (timelock_info l) (timelock_info r);
  exec_stack_elem_count_sat :=
    cmp_max (exec_stack_elem_count_sat l) (exec_stack_elem_count_sat r);
  exec_stack_elem_count_dissat :=
    cmp_max (exec_stack_elem_count_dissat l) (exec_stack_elem_count_dissat r);
|}.

Definition and_or (a b c : ExtData) : result ErrorKind ExtData := Ok {|
  pk_cost := pk_cost a + pk_cost b + pk_cost c + 3;
  has_free_verify := false;
  ops := MkOps (count (ops a) + count (ops b) + count (ops c) + 3)
           (cmp_max (opt_add (op_sat (ops a)) (op_sat (ops b)))
                    (opt_add (op_nsat (ops a)) (op_sat (ops c))))
           (opt_add (op_nsat (ops a)) (op_nsat (ops c)));
  stack_elem_count_sat :=
    cmp_max (opt_add (stack_elem_count_sat a) (stack_elem_count_sat b))
            (opt_add (stack_elem_count_dissat a) (stack_elem_count_sat c));
  stack_elem_count_dissat := opt_add (stack_elem_count_dissat a) (stack_elem_count_dissat c);
  max_sat_size :=
    cmp_max_pair (opt_add_pair (max_sat_size a) (max_sat_size b))
                 (opt_add_pair (max_dissat_size a) (max_sat_size c));
  max_dissat_size := opt_add_pair (max_dissat_size a) (max_dissat_size c);
  timelock_info :=
    combine_or (combine_and (timelock_info a) (timelock_info b)) (timelock_info c);
  exec_stack_elem_count_sat :=
    cmp_max (opt_max (exec_stack_elem_count_sat a) (exec_stack_elem_count_sat b))
            (opt_max (exec_stack_elem_count_sat c) (exec_stack_elem_count_dissat a));
  exec_stack_elem_count_dissat :=
    opt_max (exec_stack_elem_count_dissat a) (exec_stack_elem_count_dissat c);
|}.

(** ** Thresholds *)

(** [Ord] on [Option<T>], from an order on [T]. *)
Definition option_compare {A} (cmp : A → A → comparison) (a b : option A) : comparison :=
  match a, b with
  | None, None => Eq
  | None, Some _ => Lt
  | Some _, None => Gt
  | Some x, Some y => cmp x y
  end.

(** [slice::sort_by], a stable sort. *)
Fixpoint insert_by {A} (cmp : A → A → comparison) (x : A) (l : list A) : list A :=
  match l with
  | [] => [x]
  | y :: l' => match cmp x y with
               | Gt => y :: insert_by cmp x l'
               | _ => x :: l
               end
  end.
Fixpoint sort_by {A} (cmp : A → A → comparison) (l : list A) : list A :=
  match l with
  | [] => []
  | x :: l => insert_by cmp x (sort_by cmp l)
  end.

(** The three comparison functions; [usize as isize] casts do not wrap for sizes
    of objects in memory. *)
Definition isub (x y : nat) : Z := (Z.of_nat x - Z.of_nat y)%Z.

Definition sat_minus_dissat (a b : option nat * nat) : comparison :=
  option_compare Z.compare (option_map (λ x, isub x a.2) a.1)
                           (option_map (λ x, isub x b.2) b.1).

Definition sat_minus_option_dissat (a b : option nat * option nat) : comparison :=
  let key p := option_map (λ x, option_map (λ y, isub x y) p.2) p.1 in
  option_compare (option_compare Z.compare) (key a) (key b).

Definition sat_minus_dissat_witness
    (a b : option (nat * nat) * option (nat * nat)) : comparison :=
  let key (p : option (nat * nat) * option (nat * nat)) :=
    option_map (λ x, option_map (λ y, isub x.1 y.1) p.2) p.1 in
  option_compare (option_compare Z.compare) (key a) (key b).

(** [iter().enumerate().try_fold(acc, ..)] with an optional result: the first
    [k + 1] entries are satisfied ([i <= k]), the others dissatisfied. *)
Fixpoint fold_worst {A St} (k i : nat) (add : St → A → St) (acc : St)
    (l : list (option A * option A)) : option St :=
  match l with
  | [] => Some acc
  | (x, y) :: l =>
      match (if i <=? k then x else y) with
      | Some v => fold_worst k (S i) add (add acc v) l
      | None => None
      end
  end.

Record ThreshAcc : Type := MkAcc {
  a_pk_cost : nat;
  a_ops_count : nat;
  a_ops_count_sat_vec : list (option nat * nat);
  a_ops_count_nsat_sum : nat;
  a_timelocks : list TimelockInfo;
  a_stack_elem_count_sat_vec : list (option nat * option nat);
  a_stack_elem_count_dissat : option nat;
  a_max_sat_size_vec : list (option (nat * nat) * option (nat * nat));
  a_max_dissat_size : option (nat * nat);
  a_exec_stack_elem_count_sat_vec : list (option nat * option nat);
  a_exec_stack_elem_count_dissat : option nat;
}.

(** One turn of the loop; [Panic] is one of the two [expect]s. *)
Definition threshold_step (sub_ck : nat → result ErrorKind ExtData)
    (acc : ThreshAcc) (i : nat) : result ErrorKind ThreshAcc :=
  let? sub := sub_ck i in
  let? dissats :=
    match stack_elem_count_dissat sub with
    | Some n_items =>
        let? sub_dissat_size := unwrap (max_dissat_size sub) in
        Ok (option_map (λ x, x + n_items) (a_stack_elem_count_dissat acc),
            option_map (λ '(w, s), (w + sub_dissat_size.1, s + sub_dissat_size.2))
              (a_max_dissat_size acc))
    | None => Ok (None, a_max_dissat_size acc)
    end in
  let? sub_nsat := unwrap (op_nsat (ops sub)) in
  Ok {|
    a_pk_cost := a_pk_cost acc + pk_cost sub;
    a_ops_count := a_ops_count acc + count (ops sub);
    a_ops_count_sat_vec := a_ops_count_sat_vec acc ++ [(op_sat (ops sub), sub_nsat)];
    a_ops_count_nsat_sum := a_ops_count_nsat_sum acc + sub_nsat;
    a_timelocks := a_timelocks acc ++ [timelock_info sub];
    a_stack_elem_count_sat_vec := a_stack_elem_count_sat_vec acc
      ++ [(stack_elem_count_sat sub, stack_elem_count_dissat sub)];
    a_stack_elem_count_dissat := dissats.1;
    a_max_sat_size_vec := a_max_sat_size_vec acc ++ [(max_sat_size sub, max_sat_size sub)];
    a_max_dissat_size := dissats.2;
    a_exec_stack_elem_count_sat_vec := a_exec_stack_elem_count_sat_vec acc
      ++ [(exec_stack_elem_count_sat sub, exec_stack_elem_count_dissat sub)];
    a_exec_stack_elem_count_dissat :=
      opt_max (a_exec_stack_elem_count_dissat acc) (exec_stack_elem_count_dissat sub);
  |}.

Definition threshold_init (k : nat) : ThreshAcc := {|
  a_pk_cost := 1 + script_num_size (N.of_nat k);
  a_ops_count := 0;
  a_ops_count_sat_vec := [];
  a_ops_count_nsat_sum := 0;
  a_timelocks := [];
  a_stack_elem_count_sat_vec := [];
  a_stack_elem_count_dissat := Some 0;
  a_max_sat_size_vec := [];
  a_max_dissat_size := Some (0, 0);
  a_exec_stack_elem_count_sat_vec := [];
  a_exec_stack_elem_count_dissat := Some 0;
|}.

(** The code after the loop.  [n - 1] does not underflow: [type_check] calls this
    with [1 <= k <= n]. *)
Definition threshold_finish (k n : nat) (acc : ThreshAcc) : ExtData := {|
  pk_cost := a_pk_cost acc + n - 1;
  has_free_verify := true;
  ops := MkOps (a_ops_count acc + 1 + (n - 1))
           (fold_worst k 0 (λ acc x, x + acc) 0
              (map (λ p, (p.1, Some p.2))
                 (sort_by sat_minus_dissat (a_ops_count_sat_vec acc))))
           (Some (a_ops_count_nsat_sum acc));
  stack_elem_count_sat :=
    fold_worst k 0 (λ acc x, x + acc) 0
      (rev (sort_by sat_minus_option_dissat (a_stack_elem_count_sat_vec acc)));
  stack_elem_count_dissat := a_stack_elem_count_dissat acc;
  max_sat_size :=
    fold_worst k 0 (λ acc x, (acc.1 + x.1, acc.2 + x.2)) (0, 0)
      (sort_by sat_minus_dissat_witness (a_max_sat_size_vec acc));
  max_dissat_size := a_max_dissat_size acc;
  timelock_info := combine_threshold k (a_timelocks acc);
  exec_stack_elem_count_sat :=
    fold_worst k 0 (λ acc x, Nat.max x acc) 0
      (rev (sort_by sat_minus_option_dissat (a_exec_stack_elem_count_sat_vec acc)));
  exec_stack_elem_count_dissat := a_exec_stack_elem_count_dissat acc;
|}.

Definition threshold (k n : nat) (sub_ck : nat → result ErrorKind ExtData)
    : result ErrorKind ExtData :=
  let? acc := try_fold (threshold_step sub_ck) (threshold_init k) (seq 0 n) in
  Ok (threshold_finish k n acc).

#[global] Instance ExtData_Property `{LockTimes} : Property ExtData := {|
  pr_sanity_checks := sanity_checks;
  pr_from_true := from_true;
  pr_from_false := from_false;
  pr_from_pk_k := from_pk_k;
  pr_from_pk_h := from_pk_h;
  pr_from_multi := from_multi;
  pr_from_multi_a := from_multi_a;
  pr_from_sha256 := from_sha256;
  pr_from_hash256 := from_hash256;
  pr_from_ripemd160 := from_ripemd160;
  pr_from_hash160 := from_hash160;
  pr_from_after := from_after;
  pr_from_older := from_older;
  pr_cast_alt := cast_alt;
  pr_cast_swap := cast_swap;
  pr_cast_check := cast_check;
  pr_cast_dupif := cast_dupif;
  pr_cast_verify := cast_verify;
  pr_cast_nonzero := cast_nonzero;
  pr_cast_zeronotequal := cast_zeronotequal;
  pr_cast_true := cast_true_default from_true and_v;
  pr_and_b := and_b;
  pr_and_v := and_v;
  pr_or_b := or_b;
  pr_or_d := or_d;
  pr_or_c := or_c;
  pr_or_i := or_i;
  pr_and_or := and_or;
  pr_threshold := threshold;
|}.
