(* ===== verification/Ast.v ===== *)
(** * The Miniscript syntax tree and its type checker

    [Terminal] of [src/miniscript/decode.rs], [Miniscript] of
    [src/miniscript/mod.rs] with the type information it caches, and the two
    type checkers, [Type::type_check] ([src/miniscript/types/mod.rs]) and
    [ExtData::type_check] ([src/miniscript/types/extra_props.rs]). *)

From S2P Require Import Prelude Types Extension Property.
From S2P Require Correctness Malleability ExtraProps.

Section ast.
Context {Pk : Type} `{MiniscriptKey Pk} {Ext : Type}.

(** A node refers to its children as [Miniscript]s, which cache the types
    computed when they were built. *)
Inductive Terminal : Type :=
  | TTrue
  | TFalse
  | PkK (pk : Pk)
  | PkH (pk : Pk)
  | RawPkH (h : hash_n 20)
  | After (t : N)
  | Older (t : N)
  | Sha256 (h : Sha256T)
  | Hash256 (h : Hash256T)
  | Ripemd160 (h : Ripemd160T)
  | Hash160 (h : Hash160T)
  | Alt (sub : Miniscript)
  | Swap (sub : Miniscript)
  | Check (sub : Miniscript)
  | DupIf (sub : Miniscript)
  | Verify (sub : Miniscript)
  | NonZero (sub : Miniscript)
  | ZeroNotEqual (sub : Miniscript)
  | AndV (l r : Miniscript)
  | AndB (l r : Miniscript)
  | AndOr (a b c : Miniscript)
  | OrB (l r : Miniscript)
  | OrD (l r : Miniscript)
  | OrC (l r : Miniscript)
  | OrI (l r : Miniscript)
  | Thresh (k : nat) (subs : list Miniscript)
  | Multi (k : nat) (pks : list Pk)
  | MultiA (k : nat) (pks : list Pk)
  | ExtT (e : Ext)
with Miniscript : Type :=
  | MkMs (node : Terminal) (ty : MsType) (ext : ExtData).

Definition node (ms : Miniscript) : Terminal := let 'MkMs n _ _ := ms in n.
Definition ty (ms : Miniscript) : MsType := let 'MkMs _ t _ := ms in t.
Definition ext (ms : Miniscript) : ExtData := let 'MkMs _ _ e := ms in e.

(** The children of a node, left to right. *)
Definition children (t : Terminal) : list Miniscript :=
  match t with
  | Alt s | Swap s | Check s | DupIf s | Verify s | NonZero s | ZeroNotEqual s => [s]
  | AndV l r | AndB l r | OrB l r | OrD l r | OrC l r | OrI l r => [l; r]
  | AndOr a b c => [a; b; c]
  | Thresh _ subs => subs
  | _ => []
  end.

(** Structural induction, with the hypothesis for every child. *)
Section induction.
Variables (P : Miniscript → Prop).
Hypothesis Hnode : ∀ t ty ext, Forall P (children t) → P (MkMs t ty ext).

Fixpoint Miniscript_tree_ind (ms : Miniscript) : P ms.
Proof.
  destruct ms as [t ty ext]. apply Hnode.
  destruct t; simpl;
    repeat first [apply Forall_nil | apply Forall_cons; [apply Miniscript_tree_ind|]].
  induction subs as [|s subs IH]; [apply Forall_nil|].
  apply Forall_cons; [apply Miniscript_tree_ind|exact IH].
Qed.
End induction.

(** Structural recursion: [f] sees the node and the results for its children. *)
Section recursion.
Context {A : Type} (f : Miniscript → list A → A).

Fixpoint cata (ms : Miniscript) : A :=
  let 'MkMs t _ _ := ms in
  f ms
    match t with
    | Alt s | Swap s | Check s | DupIf s | Verify s | NonZero s | ZeroNotEqual s => [cata s]
    | AndV l r | AndB l r | OrB l r | OrD l r | OrC l r | OrI l r => [cata l; cata r]
    | AndOr a b c => [cata a; cata b; cata c]
    | Thresh _ subs => map cata subs
    | _ => []
    end.

Lemma cata_unfold ms : cata ms = f ms (cata <$> children (node ms)).
Proof. destruct ms as [[] ? ?]; reflexivity. Qed.
End recursion.
End ast.

Arguments Terminal Pk {_} Ext.
Arguments Miniscript Pk {_} Ext.

(** [impl Property for Type]: the pair of the two properties, both of which must
    accept; the first error is reported. *)
Module TypeProp.
Section type_prop.
Definition pair_with (c : result ErrorKind Correctness) (m : result ErrorKind Malleability)
    : result ErrorKind MsType :=
  let? c := c in
  let? m := m in
  Ok (MkType c m).

(** The [debug_assert!]s on the pair. *)
Definition sanity_checks (self : MsType) : bool :=
  (negb (dissatisfiable (corr self)) || negb (bool_decide (dissat (mall self) = DNone)))
  && (bool_decide (dissat (mall self) = DNone) || negb (bool_decide (base (corr self) = V)))
  && (safe (mall self) || negb (bool_decide (base (corr self) = K)))
  && (non_malleable (mall self) || negb (bool_decide (input (corr self) = Zero))).

Definition threshold (k n : nat) (sub_ck : nat → result ErrorKind MsType)
    : result ErrorKind MsType :=
  pair_with (Correctness.threshold k n (λ i, let? t := sub_ck i in Ok (corr t)))
            (Malleability.threshold k n (λ i, let? t := sub_ck i in Ok (mall t))).

#[global] Instance Type_Property : Property MsType := {|
  pr_sanity_checks := sanity_checks;
  pr_from_true := MkType pr_from_true pr_from_true;
  pr_from_false := MkType pr_from_false pr_from_false;
  pr_from_pk_k ctx := MkType (pr_from_pk_k ctx) (pr_from_pk_k ctx);
  pr_from_pk_h ctx := MkType (pr_from_pk_h ctx) (pr_from_pk_h ctx);
  pr_from_multi k n := MkType (pr_from_multi k n) (pr_from_multi k n);
  pr_from_multi_a k n := MkType (pr_from_multi_a k n) (pr_from_multi_a k n);
  pr_from_sha256 := MkType pr_from_sha256 pr_from_sha256;
  pr_from_hash256 := MkType pr_from_hash256 pr_from_hash256;
  pr_from_ripemd160 := MkType pr_from_ripemd160 pr_from_ripemd160;
  pr_from_hash160 := MkType pr_from_hash160 pr_from_hash160;
  pr_from_after t := MkType (pr_from_after t) (pr_from_after t);
  pr_from_older t := MkType (pr_from_older t) (pr_from_older t);
  pr_cast_alt t := pair_with (pr_cast_alt (corr t)) (pr_cast_alt (mall t));
  pr_cast_swap t := pair_with (pr_cast_swap (corr t)) (pr_cast_swap (mall t));
  pr_cast_check t := pair_with (pr_cast_check (corr t)) (pr_cast_check (mall t));
  pr_cast_dupif t := pair_with (pr_cast_dupif (corr t)) (pr_cast_dupif (mall t));
  pr_cast_verify t := pair_with (pr_cast_verify (corr t)) (pr_cast_verify (mall t));
  pr_cast_nonzero t := pair_with (pr_cast_nonzero (corr t)) (pr_cast_nonzero (mall t));
  pr_cast_zeronotequal t :=
    pair_with (pr_cast_zeronotequal (corr t)) (pr_cast_zeronotequal (mall t));
  pr_cast_true t := pair_with (pr_cast_true (corr t)) (pr_cast_true (mall t));
  pr_and_b l r := pair_with (pr_and_b (corr l) (corr r)) (pr_and_b (mall l) (mall r));
  pr_and_v l r := pair_with (pr_and_v (corr l) (corr r)) (pr_and_v (mall l) (mall r));
  pr_or_b l r := pair_with (pr_or_b (corr l) (corr r)) (pr_or_b (mall l) (mall r));
  pr_or_d l r := pair_with (pr_or_d (corr l) (corr r)) (pr_or_d (mall l) (mall r));
  pr_or_c l r := pair_with (pr_or_c (corr l) (corr r)) (pr_or_c (mall l) (mall r));
  pr_or_i l r := pair_with (pr_or_i (corr l) (corr r)) (pr_or_i (mall l) (mall r));
  pr_and_or a b c :=
    pair_with (pr_and_or (corr a) (corr b) (corr c)) (pr_and_or (mall a) (mall b) (mall c));
  pr_threshold := threshold;
|}.
End type_prop.
End TypeProp.

(** ** Type checking

    The source writes the same dispatch twice, for [Type] and for [ExtData]; it
    is stated here once for any property, with the type of an extension and the
    cached property of a child as arguments. *)
Section type_check.
Context {Pk : Type} `{MiniscriptKey Pk} {Ext : Type} `{LockTimes}.
Context {A : Type} `{Property A} (from_ext : Ext → A) (get : Miniscript Pk Ext → A).

(** The checks of [k] against the number of keys or children. *)
Definition check_threshold (k n : nat) : result ErrorKind unit :=
  if k =? 0 then Err ZeroThreshold
  else if n <? k then Err (OverThreshold k n)
  else Ok tt.

Definition property_check (ctx : ScriptContext) (fragment : Terminal Pk Ext)
    : result ErrorKind A :=
  match fragment with
  | TTrue => Ok pr_from_true
  | TFalse => Ok pr_from_false
  | PkK _ => Ok (pr_from_pk_k ctx)
  | PkH _ | RawPkH _ => Ok (pr_from_pk_h ctx)
  | Multi k pks =>
      let? _ := check_threshold k (length pks) in Ok (pr_from_multi k (length pks))
  | MultiA k pks =>
      let? _ := check_threshold k (length pks) in Ok (pr_from_multi_a k (length pks))
  | After t => if (t =? 0)%N then Err InvalidTime else Ok (pr_from_after t)
  | Older t =>
      if (t =? 0)%N || negb (is_relative_lock_time t) then Err InvalidTime
      else Ok (pr_from_older t)
  | Sha256 _ => Ok pr_from_sha256
  | Hash256 _ => Ok pr_from_hash256
  | Ripemd160 _ => Ok pr_from_ripemd160
  | Hash160 _ => Ok pr_from_hash160
  | Alt sub => pr_cast_alt (get sub)
  | Swap sub => pr_cast_swap (get sub)
  | Check sub => pr_cast_check (get sub)
  | DupIf sub => pr_cast_dupif (get sub)
  | Verify sub => pr_cast_verify (get sub)
  | NonZero sub => pr_cast_nonzero (get sub)
  | ZeroNotEqual sub => pr_cast_zeronotequal (get sub)
  | AndB l r => pr_and_b (get l) (get r)
  | AndV l r => pr_and_v (get l) (get r)
  | OrB l r => pr_or_b (get l) (get r)
  | OrD l r => pr_or_d (get l) (get r)
  | OrC l r => pr_or_c (get l) (get r)
  | OrI l r => pr_or_i (get l) (get r)
  | AndOr a b c => pr_and_or (get a) (get b) (get c)
  | Thresh k subs =>
      let? _ := check_threshold k (length subs) in
      pr_threshold k (length subs)
        (λ n, match subs !! n with Some sub => Ok (get sub) | None => Panic end)
  | ExtT e => Ok (from_ext e)
  end.
End type_check.

Section checkers.
Context {Pk : Type} `{MiniscriptKey Pk} {Ext : Type} `{Extension Ext} `{LockTimes}.

Definition type_check (ctx : ScriptContext) (fragment : Terminal Pk Ext)
    : result ErrorKind MsType :=
  property_check (λ e, MkType (corr_prop e) (mall_prop e)) ty ctx fragment.

Definition ext_type_check (ctx : ScriptContext) (fragment : Terminal Pk Ext)
    : result ErrorKind ExtData :=
  property_check extra_prop ext ctx fragment.

(** [Miniscript::from_ast]: check a node whose children are already checked. *)
Definition from_ast (ctx : ScriptContext) (t : Terminal Pk Ext)
    : result ErrorKind (Miniscript Pk Ext) :=
  let? ty := type_check ctx t in
  let? ext := ext_type_check ctx t in
  Ok (MkMs t ty ext).

(** A Miniscript every node of which carries the types [from_ast] computes. *)
Inductive well_typed (ctx : ScriptContext) : Miniscript Pk Ext → Prop :=
  | well_typed_node t mty mext :
      type_check ctx t = Ok mty →
      ext_type_check ctx t = Ok mext →
      Forall (well_typed ctx) (children t) →
      well_typed ctx (MkMs t mty mext).

Lemma well_typed_inv ctx ms :
  well_typed ctx ms →
  type_check ctx (node ms) = Ok (ty ms) ∧ ext_type_check ctx (node ms) = Ok (ext ms) ∧
  Forall (well_typed ctx) (children (node ms)).
Proof. by inversion 1. Qed.

Lemma from_ast_well_typed ctx t ms :
  Forall (well_typed ctx) (children t) → from_ast ctx t = Ok ms →
  node ms = t ∧ well_typed ctx ms.
Proof. unfold from_ast. intros ? Ht. inv_ok. split; [done|]. by constructor. Qed.

(** Induction over well-typed Miniscripts. *)
Lemma well_typed_ind' ctx (P : Miniscript Pk Ext → Prop) :
  (∀ t mty mext,
     type_check ctx t = Ok mty → ext_type_check ctx t = Ok mext →
     Forall (well_typed ctx) (children t) → Forall P (children t) →
     P (MkMs t mty mext)) →
  ∀ ms, well_typed ctx ms → P ms.
Proof.
  intros IHn. induction ms as [t mty mext IH] using Miniscript_tree_ind.
  inversion_clear 1 as [? ? ? Hty Hext Hch]. apply IHn; auto.
  clear -IH Hch. induction Hch; inversion_clear IH; constructor; auto.
Qed.
End checkers.
