(* ===== verification/Examples.v ===== *)
(** * Sample Miniscripts

    A few Miniscripts over the demonstration keys, built the way the program builds
    them ([from_ast] bottom up), on which the theorems are exercised. *)

From S2P Require Import Prelude Types Extension Instances Property Ast.

Abbreviation Ms := (Miniscript DemoKey NoExt).

(** [from_ast], with a fallback that no sample reaches (each sample is shown well typed). *)
Definition build {Pk} `{MiniscriptKey Pk} (ctx : ScriptContext) (t : Terminal Pk NoExt)
    : Miniscript Pk NoExt :=
  match from_ast ctx t with
  | Ok ms => ms
  | _ => MkMs TFalse pr_from_false pr_from_false
  end.

Section samples.
Variable ctx : ScriptContext.

Definition pk (n : nat) : Ms := build ctx (Check (build ctx (PkK (Compressed n)))).
Definition pkh (n : nat) : Ms := build ctx (Check (build ctx (PkH (Compressed n)))).
Definition wrap_v (m : Ms) : Ms := build ctx (Verify m).
Definition wrap_s (m : Ms) : Ms := build ctx (Swap m).
Definition wrap_a (m : Ms) : Ms := build ctx (Alt m).

(** [andor(pk(0),older(144),and_v(v:pk(1),after(1000)))] *)
Definition ms_andor : Ms :=
  build ctx (AndOr (pk 0) (build ctx (Older 144))
                   (build ctx (AndV (wrap_v (pk 1)) (build ctx (After 1000))))).

(** [thresh(2,pk(0),s:pk(1),s:pk(2))] *)
Definition ms_thresh : Ms := build ctx (Thresh 2 [pk 0; wrap_s (pk 1); wrap_s (pk 2)]).

(** [and_v(v:after(1000),after(500000001))] mixes heights and times. *)
Definition ms_mixed : Ms :=
  build ctx (AndV (wrap_v (build ctx (After 1000))) (build ctx (After 500000001))).

(** [thresh(1,pk(0),a:0)] *)
Definition ms_thresh_zero : Ms :=
  build ctx (Thresh 1 [pk 0; wrap_a (build ctx TFalse)]).
End samples.

(** A sample is well typed if [from_ast] accepts each of its nodes. *)
Lemma build_typed {Pk} `{MiniscriptKey Pk} ctx (t : Terminal Pk NoExt) :
  Forall (well_typed ctx) (children t) → is_ok (from_ast ctx t) = true →
  well_typed ctx (build ctx t).
Proof.
  intros Hch (ms & Hms)%is_ok_iff. unfold build. rewrite Hms. by eapply from_ast_well_typed.
Qed.

Ltac build_typed :=
  repeat (apply build_typed; [cbn [children]; repeat apply Forall_cons_2; try apply Forall_nil_2
                             |vm_compute; reflexivity]).

Lemma ms_andor_typed : well_typed Segwitv0 (ms_andor Segwitv0).
Proof. build_typed. Qed.
Lemma ms_thresh_typed : well_typed Segwitv0 (ms_thresh Segwitv0).
Proof. build_typed. Qed.
Lemma ms_mixed_typed : well_typed Segwitv0 (ms_mixed Segwitv0).
Proof. build_typed. Qed.
Lemma ms_thresh_zero_typed : well_typed Segwitv0 (ms_thresh_zero Segwitv0).
Proof. build_typed. Qed.
