(* ===== verification/Typing.v ===== *)
(** * Properties of the type system

    The assertions the type checker makes about its own results
    ([sanity_checks]) hold for every Miniscript it accepts, and type checking is
    monotone: replacing a child by one whose type is a subtype keeps a node well
    typed and can only make its type better. *)

From S2P Require Import Prelude Types Extension Instances Property Ast Examples.
From S2P Require Correctness Malleability ExtraProps.

(** ** The invariant of the types of well-typed fragments

    The first four clauses are the assertions on [Type], the next two those on
    [Correctness]; the last two make it inductive: a fragment that reads nothing
    from the stack and can be dissatisfied is equivalent to [0]. *)
Record type_inv (t : MsType) : Prop := {
  inv_dissat : dissatisfiable (corr t) = true → dissat (mall t) ≠ DNone;
  inv_V_dissat : base (corr t) = V → dissat (mall t) = DNone;
  inv_K_safe : base (corr t) = K → safe (mall t) = true;
  inv_zero_nonmall : input (corr t) = Zero → non_malleable (mall t) = true;
  inv_K_unit : base (corr t) = K → unit_ (corr t) = true;
  inv_V_corr : base (corr t) = V → unit_ (corr t) = false ∧ dissatisfiable (corr t) = false;
  inv_W_input : base (corr t) = W → input (corr t) = Any;
  inv_zero_dissat : input (corr t) = Zero → dissatisfiable (corr t) = true →
                    dissat (mall t) = Unique ∧ safe (mall t) = true;
}.

Lemma type_inv_sanity t :
  type_inv t → TypeProp.sanity_checks t = true ∧ Correctness.sanity_checks (corr t) = true.
Proof.
  destruct t as [[b i d u] [ds s nm]]. intros [I1 I2 I3 I4 I5 I6 I7 _]. simpl in *.
  split.
  - unfold TypeProp.sanity_checks; simpl.
    destruct b, i, d, ds, s, nm; simpl in *; try done; exfalso;
      first [by apply I1 | by specialize (I2 eq_refl) | by specialize (I3 eq_refl)
            | by specialize (I4 eq_refl)].
  - unfold Correctness.sanity_checks; simpl. destruct b; [done|..].
    + by apply I5.
    + by destruct I6 as [-> ->].
    + by rewrite I7.
Qed.

(** The components of a successful pair rule. *)
Lemma pair_with_Ok c m t :
  TypeProp.pair_with c m = Ok t ↔ c = Ok (corr t) ∧ m = Ok (mall t).
Proof.
  unfold TypeProp.pair_with. destruct c, m, t; simpl; naive_solver.
Qed.

(** Uses the clauses of the children's invariants whose premises are met, and
    drops those whose premises cannot be. *)
Ltac use_clauses :=
  repeat match goal with
  | H : ?x = ?x → _ |- _ => specialize (H eq_refl)
  | H : ?P → _, H' : ?P |- _ => specialize (H H')
  | H : ?a = ?b → _ |- _ => assert (a ≠ b) as _ by discriminate; clear H
  | H : _ ∧ _ |- _ => destruct H
  | H : ?x ≠ ?x |- _ => by destruct (H eq_refl)
  | H : ?x = _ |- _ => is_var x; subst x
  end.

(** One clause for a rule: decide the scrutinees the clause depends on. *)
Ltac solve_clause :=
  intros; simpl in *; bools;
  repeat match goal with H : _ || _ = true |- _ => apply orb_prop in H; destruct H end;
  simplify_eq/=; use_clauses;
  repeat (split_match; simpl in *; simplify_eq/=; use_clauses);
  bools; simplify_eq/=; use_clauses; try done; try congruence.

(** ** Preservation, rule by rule *)

Create HintDb rules.
#[export] Hint Unfold
  Correctness.cast_alt Correctness.cast_swap Correctness.cast_check Correctness.cast_dupif
  Correctness.cast_verify Correctness.cast_nonzero Correctness.cast_zeronotequal Correctness.and_b
  Correctness.and_v Correctness.or_b Correctness.or_d Correctness.or_c
  Correctness.or_i Correctness.and_or
  Malleability.cast_alt Malleability.cast_swap Malleability.cast_check Malleability.cast_dupif
  Malleability.cast_verify Malleability.cast_nonzero Malleability.cast_zeronotequal Malleability.and_b
  Malleability.and_v Malleability.or_b Malleability.or_d Malleability.or_c
  Malleability.or_i Malleability.and_or : rules.
Create HintDb rules_input.
#[export] Hint Unfold Correctness.and_input Correctness.or_dc_input Correctness.or_b_input
  Correctness.or_i_input Correctness.and_or_input : rules_input.

(** Invert a successful rule, decide the base types it matches on, and check the
    invariant clause by clause. *)
Ltac open_rule :=
  let Hc := fresh "Hc" in let Hm := fresh "Hm" in
  match goal with |- ?P → _ => intros [Hc Hm]%pair_with_Ok end;
  repeat match goal with
  | t : MsType |- _ => destruct t
  | c : Correctness |- _ => destruct c
  | m : Malleability |- _ => destruct m
  end;
  cbn [corr mall pr_cast_alt pr_cast_swap pr_cast_check pr_cast_dupif pr_cast_verify
       pr_cast_nonzero pr_cast_zeronotequal pr_and_b pr_and_v pr_or_b pr_or_d pr_or_c
       pr_or_i pr_and_or Correctness.Correctness_Property
       Malleability.Malleability_Property] in Hc, Hm;
  autounfold with rules rules_input in Hc, Hm;
  cbn [base input dissatisfiable unit_ dissat safe non_malleable] in Hc, Hm;
  repeat (split_match; cbn [result_bind] in Hc; simplify_eq);
  repeat match goal with H : type_inv _ |- _ => destruct H end;
  cbn [corr mall base input dissatisfiable unit_ dissat safe non_malleable] in *.

Ltac inv_rule := open_rule; try done; constructor; solve_clause; by rewrite ?orb_true_r.

Section preservation.
Implicit Types a b c l r t u : MsType.

Lemma inv_alt t u : type_inv t → pr_cast_alt t = Ok u → type_inv u.
Proof. intros I. inv_rule. Qed.
Lemma inv_swap t u : type_inv t → pr_cast_swap t = Ok u → type_inv u.
Proof. intros I. inv_rule. Qed.
Lemma inv_check t u : type_inv t → pr_cast_check t = Ok u → type_inv u.
Proof. intros I. inv_rule. Qed.
Lemma inv_dupif t u : type_inv t → pr_cast_dupif t = Ok u → type_inv u.
Proof. intros I. inv_rule. Qed.
Lemma inv_verify t u : type_inv t → pr_cast_verify t = Ok u → type_inv u.
Proof. intros I. inv_rule. Qed.
Lemma inv_nonzero t u : type_inv t → pr_cast_nonzero t = Ok u → type_inv u.
Proof. intros I. inv_rule. Qed.
Lemma inv_zeronotequal t u : type_inv t → pr_cast_zeronotequal t = Ok u → type_inv u.
Proof. intros I. inv_rule. Qed.
Lemma inv_and_b l r u : type_inv l → type_inv r → pr_and_b l r = Ok u → type_inv u.
Proof. intros I J. inv_rule. Qed.
Lemma inv_and_v l r u : type_inv l → type_inv r → pr_and_v l r = Ok u → type_inv u.
Proof. intros I J. inv_rule. Qed.
Lemma inv_or_b l r u : type_inv l → type_inv r → pr_or_b l r = Ok u → type_inv u.
Proof. intros I J. inv_rule. Qed.
Lemma inv_or_d l r u : type_inv l → type_inv r → pr_or_d l r = Ok u → type_inv u.
Proof. intros I J. inv_rule. Qed.
Lemma inv_or_c l r u : type_inv l → type_inv r → pr_or_c l r = Ok u → type_inv u.
Proof. intros I J. inv_rule. Qed.
Lemma inv_or_i l r u : type_inv l → type_inv r → pr_or_i l r = Ok u → type_inv u.
Proof. intros I J. inv_rule. Qed.
Lemma inv_and_or a b c u :
  type_inv a → type_inv b → type_inv c → pr_and_or a b c = Ok u → type_inv u.
Proof. intros I J L. inv_rule. Qed.
End preservation.

(** ** Thresholds

    Both loops run over the children's types [ts]; what they accept and compute is
    stated on the list. *)

(** What the correctness loop demands of child [i]. *)
Definition thresh_child_ok (i : nat) (c : Correctness) : Prop :=
  base c = (if i =? 0 then B else W) ∧ unit_ c = true ∧ dissatisfiable c = true.

Definition thresh_args (cs : list Correctness) : nat :=
  sum_list ((λ c, Correctness.threshold_args (input c)) <$> cs).

Lemma thresh_args_cons c cs :
  thresh_args (c :: cs) = Correctness.threshold_args (input c) + thresh_args cs.
Proof. done. Qed.

Lemma corr_step_Ok sub i m m' c :
  sub i = Ok c →
  Correctness.threshold_step sub m i = Ok m' ↔
  thresh_child_ok i c ∧ m' = m + Correctness.threshold_args (input c).
Proof.
  intros Hc. unfold Correctness.threshold_step, thresh_child_ok. rewrite Hc. cbn [result_bind].
  destruct (i =? 0), c as [[] i' [] []]; simpl; naive_solver.
Qed.

Lemma corr_fold_Ok sub cs m :
  (∀ i c, cs !! i = Some c → sub i = Ok c) →
  try_fold (Correctness.threshold_step sub) 0 (seq 0 (length cs)) = Ok m ↔
  (∀ i c, cs !! i = Some c → thresh_child_ok i c) ∧ m = thresh_args cs.
Proof.
  revert m. induction cs as [|c cs IH] using rev_ind; intros m Hsub.
  { simpl. split; [intros [= <-]; split; [intros ??; by rewrite lookup_nil|done]|].
    intros [_ ->]. done. }
  assert (sub (length cs) = Ok c) as Hc
    by (apply Hsub; by rewrite lookup_app_r, Nat.sub_diag).
  rewrite length_app, Nat.add_1_r, seq_S, try_fold_app, bind_Ok.
  assert (∀ i c, cs !! i = Some c → sub i = Ok c) as Hsub'
    by (intros i d Hi; apply Hsub; by apply lookup_app_l_Some).
  assert (thresh_args (cs ++ [c]) = thresh_args cs + Correctness.threshold_args (input c))
    as Hargs by (unfold thresh_args; rewrite fmap_app, sum_list_with_app; simpl; lia).
  split.
  - intros (m0 & Hm0 & Hstep). apply IH in Hm0 as [Hall ->]; [|done].
    cbn [try_fold] in Hstep. apply bind_Ok in Hstep as (m1 & Hstep & [= <-]).
    apply (corr_step_Ok _ _ _ _ c) in Hstep as [Hok ->]; [|done]. split; [|done].
    intros i d [Hi|[? Hi]]%lookup_app_Some; [eauto|].
    apply list_lookup_singleton_Some in Hi as [? <-].
    by replace i with (0 + length cs) by lia.
  - intros [Hall ->]. exists (thresh_args cs). split.
    { apply IH; [done|]. split; [|done]. intros i d Hi. apply Hall. by apply lookup_app_l_Some. }
    cbn [try_fold]. apply bind_Ok. eexists. split; [|done].
    apply (corr_step_Ok _ _ _ _ c); [done|]. split; [|done].
    apply (Hall (length cs)). by rewrite lookup_app_r, Nat.sub_diag.
Qed.

Lemma corr_threshold_Ok k sub cs c :
  (∀ i c, cs !! i = Some c → sub i = Ok c) →
  Correctness.threshold k (length cs) sub = Ok c ↔
  (∀ i c, cs !! i = Some c → thresh_child_ok i c) ∧
  c = MkCorr B (match thresh_args cs with 0 => Zero | 1 => One | _ => Any end) true true.
Proof.
  intros Hsub. unfold Correctness.threshold. rewrite bind_Ok.
  setoid_rewrite corr_fold_Ok; [|done].
  split; [intros (m & [? ->] & [= <-]); done|intros [? ->]; eexists; done].
Qed.

(** The accumulators of the malleability loop. *)
Definition thresh_acc (ms : list Malleability) : Malleability.ThreshAcc :=
  Malleability.MkAcc (sum_list ((λ m, if safe m then 1 else 0) <$> ms))
    (forallb (λ m, bool_decide (dissat m = Unique)) ms)
    (forallb non_malleable ms).

Lemma mall_fold_Ok sub ms :
  (∀ i m, ms !! i = Some m → sub i = Ok m) →
  try_fold (Malleability.threshold_step sub) (Malleability.MkAcc 0 true true)
    (seq 0 (length ms)) = Ok (thresh_acc ms).
Proof.
  induction ms as [|m ms IH] using rev_ind; intros Hsub; [done|].
  rewrite length_app, Nat.add_1_r, seq_S, try_fold_app, IH.
  2:{ intros i d Hi; apply Hsub; by apply lookup_app_l_Some. }
  cbn [result_bind try_fold]. unfold Malleability.threshold_step.
  rewrite (Hsub (0 + length ms) m) by (by rewrite lookup_app_r, Nat.sub_diag).
  cbn [result_bind]. unfold thresh_acc; cbn. f_equal.
  rewrite fmap_app, sum_list_with_app, !forallb_app; simpl.
  by rewrite !andb_true_r, Nat.add_0_r.
Qed.

Definition thresh_mall (k : nat) (ms : list Malleability) : Malleability :=
  let acc := thresh_acc ms in
  MkMall
    (if Malleability.all_are_dissat_unique acc && (Malleability.safe_count acc =? length ms)
     then Unique else Unknown)
    (length ms - k <? Malleability.safe_count acc)
    (Malleability.all_are_non_malleable acc
     && (length ms - k <=? Malleability.safe_count acc) && Malleability.all_are_dissat_unique acc).

Lemma mall_threshold_Ok k sub ms :
  (∀ i m, ms !! i = Some m → sub i = Ok m) →
  Malleability.threshold k (length ms) sub = Ok (thresh_mall k ms).
Proof. intros Hsub. unfold Malleability.threshold. by rewrite mall_fold_Ok. Qed.

(** The type of a threshold over children of types [ts]. *)
Lemma type_threshold_Ok k sub ts u :
  (∀ i t, ts !! i = Some t → sub i = Ok t) →
  TypeProp.threshold k (length ts) sub = Ok u ↔
  (∀ i t, ts !! i = Some t → thresh_child_ok i (corr t)) ∧
  corr u = MkCorr B (match thresh_args (corr <$> ts) with
                     | 0 => Zero | 1 => One | _ => Any end) true true ∧
  mall u = thresh_mall k (mall <$> ts).
Proof.
  intros Hsub. unfold TypeProp.threshold. rewrite pair_with_Ok.
  rewrite <-(length_fmap corr ts) at 1. rewrite <-(length_fmap mall ts).
  rewrite corr_threshold_Ok, mall_threshold_Ok.
  - split.
    + intros [[Hok ->] [= <-]]. split_and!; [|done|done].
      intros i t Hi. apply Hok. by rewrite list_lookup_fmap, Hi.
    + intros (Hok & -> & ->). split_and!; [|done|done].
      intros i c (t & -> & Hi)%list_lookup_fmap_Some_1. eauto.
  - intros i m (t & -> & Ht)%list_lookup_fmap_Some_1. by rewrite (Hsub i t).
  - intros i c (t & -> & Ht)%list_lookup_fmap_Some_1. by rewrite (Hsub i t).
Qed.

(** No argument means a single child, and it reads nothing: the others would be
    [W] fragments, which count as [Any]. *)
Lemma thresh_zero_args ts :
  1 ≤ length ts → Forall type_inv ts →
  (∀ i t, ts !! i = Some t → thresh_child_ok i (corr t)) →
  thresh_args (corr <$> ts) = 0 → ∃ t, ts = [t] ∧ input (corr t) = Zero ∧ dissatisfiable (corr t) = true.
Proof.
  intros Hlen Hinv Hok Hargs. destruct ts as [|t [|t' ts]]; simpl in *; [lia| |].
  - exists t. destruct (Hok 0 t eq_refl) as (_ & _ & Hd). unfold thresh_args in Hargs. simpl in Hargs.
    destruct (input (corr t)); simpl in *; (done || lia).
  - exfalso. destruct (Hok 1 t' eq_refl) as (HW & _). simpl in HW.
    rewrite !Forall_cons_iff in Hinv. destruct Hinv as (_ & Ht' & _).
    unfold thresh_args in Hargs. simpl in Hargs. rewrite (inv_W_input _ Ht' HW) in Hargs.
    simpl in Hargs. lia.
Qed.

Lemma inv_threshold k ts sub u :
  1 ≤ k ≤ length ts → (∀ i t, ts !! i = Some t → sub i = Ok t) → Forall type_inv ts →
  TypeProp.threshold k (length ts) sub = Ok u → type_inv u.
Proof.
  intros [Hk Hn] Hsub Hinv Hu. apply type_threshold_Ok in Hu as (Hok & Hc & Hm); [|done].
  destruct u as [c m]; simpl in *; subst.
  assert (thresh_args (corr <$> ts) = 0 →
          dissat (thresh_mall k (mall <$> ts)) = Unique ∧
          safe (thresh_mall k (mall <$> ts)) = true ∧
          non_malleable (thresh_mall k (mall <$> ts)) = true) as Hzero.
  { intros Hargs. apply thresh_zero_args in Hargs as (t & -> & Hz & Hd); [|lia|done|done].
    rewrite Forall_singleton in Hinv.
    destruct (inv_zero_dissat _ Hinv Hz Hd) as [Hun Hsafe].
    pose proof (inv_zero_nonmall _ Hinv Hz) as Hnm. simpl in *.
    assert (k = 1) as -> by lia.
    unfold thresh_mall; simpl. by rewrite Hun, Hsafe, Hnm. }
  constructor; cbn [corr mall base input dissatisfiable unit_]; try done.
  - unfold thresh_mall; simpl. intros _. by case_match.
  - destruct (thresh_args _) as [|[|]]; [|done..]. intros _. by apply Hzero.
  - destruct (thresh_args _) as [|[|]]; [|done..]. intros _ _.
    destruct Hzero as (? & ? & _); done.
Qed.

(** ** The invariant of well-typed Miniscripts *)

(** What the type rules assume of an extension's leaf types. *)
Class ExtensionTypesOk (Ext : Type) `{Extension Ext} : Prop :=
  ext_type_inv : ∀ e, type_inv (MkType (corr_prop e) (mall_prop e)).

#[export] Instance NoExt_types_ok : ExtensionTypesOk NoExt.
Proof. intros []. Qed.

Lemma check_threshold_Ok k n u : check_threshold k n = Ok u ↔ 1 ≤ k ≤ n.
Proof.
  unfold check_threshold. destruct u.
  destruct (Nat.eqb_spec k 0); [naive_solver lia|].
  destruct (Nat.ltb_spec n k); naive_solver lia.
Qed.

Section typing.
Context {Pk : Type} `{MiniscriptKey Pk} {Ext : Type} `{ExtensionTypesOk Ext} `{LockTimes}.
Implicit Types ms : Miniscript Pk Ext.

(** The children of a threshold, as the closure passed to [threshold] sees them. *)
Lemma lookup_children {A} (get : Miniscript Pk Ext → A) (subs : list (Miniscript Pk Ext)) i t :
  (get <$> subs) !! i = Some t →
  match subs !! i with Some sub => Ok (get sub) | None => Panic end = Ok (E := ErrorKind) t.
Proof. rewrite list_lookup_fmap. destruct (subs !! i); naive_solver. Qed.

Lemma type_check_inv ctx (t : Terminal Pk Ext) u :
  Forall (λ ms, type_inv (ty ms)) (children t) → type_check ctx t = Ok u → type_inv u.
Proof.
  unfold type_check, property_check. intros Hch Ht.
  destruct t; cbn [children] in Hch; rewrite ?Forall_cons_iff in Hch; destruct_and?;
    try (injection Ht as <-; by constructor);
    try (apply bind_Ok in Ht as (? & Hk%check_threshold_Ok & Ht)).
  all: lazymatch type of Ht with
       | pr_threshold _ _ _ = _ => idtac
       | Ok _ = _ => injection Ht as <-
       | (if _ then _ else _) = _ => case_match; [done|]; injection Ht as <-; by constructor
       | pr_and_or _ _ _ = _ => eapply inv_and_or; [..|exact Ht]; assumption
       | pr_cast_alt _ = _ => eapply inv_alt; [|exact Ht]; assumption
       | pr_cast_swap _ = _ => eapply inv_swap; [|exact Ht]; assumption
       | pr_cast_check _ = _ => eapply inv_check; [|exact Ht]; assumption
       | pr_cast_dupif _ = _ => eapply inv_dupif; [|exact Ht]; assumption
       | pr_cast_verify _ = _ => eapply inv_verify; [|exact Ht]; assumption
       | pr_cast_nonzero _ = _ => eapply inv_nonzero; [|exact Ht]; assumption
       | pr_cast_zeronotequal _ = _ => eapply inv_zeronotequal; [|exact Ht]; assumption
       | pr_and_b _ _ = _ => eapply inv_and_b; [..|exact Ht]; assumption
       | pr_and_v _ _ = _ => eapply inv_and_v; [..|exact Ht]; assumption
       | pr_or_b _ _ = _ => eapply inv_or_b; [..|exact Ht]; assumption
       | pr_or_d _ _ = _ => eapply inv_or_d; [..|exact Ht]; assumption
       | pr_or_c _ _ = _ => eapply inv_or_c; [..|exact Ht]; assumption
       | pr_or_i _ _ = _ => eapply inv_or_i; [..|exact Ht]; assumption
       end.
  - rewrite <-(length_fmap ty subs) in *.
    eapply inv_threshold; [exact Hk| |by apply Forall_fmap|exact Ht].
    intros i t. apply lookup_children.
  - by constructor.
  - by constructor.
  - apply ext_type_inv.
Qed.

Lemma well_typed_type_inv ctx ms : well_typed ctx ms → type_inv (ty ms).
Proof.
  revert ms. apply well_typed_ind'. intros t mty mext Ht _ _ Hch. simpl.
  eapply type_check_inv; eassumption.
Qed.

(** (C8) Type soundness of the checker's own assertions: for every Miniscript all
    of whose nodes carry the types [from_ast] computes, the [debug_assert!]s of
    [Type::sanity_checks] and of [Correctness::sanity_checks] hold, so no debug
    build can panic on one; extensions only have to satisfy them at the leaves. *)
Theorem well_typed_sanity_checks ctx ms :
  well_typed ctx ms →
  TypeProp.sanity_checks (ty ms) = true ∧ Correctness.sanity_checks (corr (ty ms)) = true.
Proof. intros Hms. apply type_inv_sanity. by eapply well_typed_type_inv. Qed.
End typing.

Lemma well_typed_sanity_checks_witness :
  well_typed Segwitv0 (ms_andor Segwitv0) ∧
  TypeProp.sanity_checks (ty (ms_andor Segwitv0)) = true ∧
  Correctness.sanity_checks (corr (ty (ms_andor Segwitv0))) = true.
Proof.
  split; [exact ms_andor_typed|].
  apply (well_typed_sanity_checks Segwitv0 (ms_andor Segwitv0)). exact ms_andor_typed.
Defined.

(** ** The correctness rules, read backwards

    What is known of the children of a node that type checks, and the correctness type
    of the node in terms of theirs. *)

Section rules.
Context {Pk : Type} `{MiniscriptKey Pk} {Ext : Type} `{!Extension Ext} `{LockTimes}.
Implicit Types ms : Miniscript Pk Ext.

Definition cb ms : Base := base (corr (ty ms)).
Definition ci ms : Input := input (corr (ty ms)).
Definition cd ms : bool := dissatisfiable (corr (ty ms)).
Definition cu ms : bool := unit_ (corr (ty ms)).

Definition is_nonzero (i : Input) : bool :=
  match i with OneNonZero | AnyNonZero => true | _ => false end.

Definition thresh_children_ok (subs : list (Miniscript Pk Ext)) : Prop :=
  ∀ i s, subs !! i = Some s → thresh_child_ok i (corr (ty s)).

Definition corr_rule (ctx : ScriptContext) (t : Terminal Pk Ext) (c : Types.Correctness) : Prop :=
  match t with
  | TTrue => c = Correctness.from_true
  | TFalse => c = Correctness.from_false
  | PkK _ => c = Correctness.from_pk_k ctx
  | PkH _ | RawPkH _ => c = Correctness.from_pk_h ctx
  | After n | Older n => c = Correctness.from_time n
  | Sha256 _ | Hash256 _ | Ripemd160 _ | Hash160 _ => c = Correctness.from_hash
  | Alt s => cb s = B ∧ c = MkCorr W Any (cd s) (cu s)
  | Swap s => cb s = B ∧ c = MkCorr W Any (cd s) (cu s)
  | Check s => cb s = K ∧ c = MkCorr B (ci s) (cd s) true
  | DupIf s => cb s = V ∧ ci s = Zero ∧ c = MkCorr B OneNonZero true false
  | Verify s => cb s = B ∧ c = MkCorr V (ci s) false false
  | NonZero s => cb s = B ∧ is_nonzero (ci s) = true ∧ c = MkCorr B (ci s) true (cu s)
  | ZeroNotEqual s => cb s = B ∧ c = MkCorr B (ci s) (cd s) true
  | AndV l r =>
      cb l = V ∧ cb r ≠ W ∧ c = MkCorr (cb r) (Correctness.and_input (ci l) (ci r)) false (cu r)
  | AndB l r =>
      cb l = B ∧ cb r = W ∧
      c = MkCorr B (Correctness.and_input (ci l) (ci r)) (cd l && cd r) true
  | OrB l r =>
      cb l = B ∧ cb r = W ∧ cd l = true ∧ cd r = true ∧
      c = MkCorr B (Correctness.or_b_input (ci l) (ci r)) true true
  | OrD l r =>
      cb l = B ∧ cb r = B ∧ cd l = true ∧ cu l = true ∧
      c = MkCorr B (Correctness.or_dc_input (ci l) (ci r)) (cd r) (cu r)
  | OrC l r =>
      cb l = B ∧ cb r = V ∧ cd l = true ∧ cu l = true ∧
      c = MkCorr V (Correctness.or_dc_input (ci l) (ci r)) false false
  | OrI l r =>
      cb l = cb r ∧ cb r ≠ W ∧
      c = MkCorr (cb r) (Correctness.or_i_input (ci l) (ci r)) (cd l || cd r) (cu l && cu r)
  | AndOr x y z =>
      cb x = B ∧ cb y = cb z ∧ cb z ≠ W ∧ cd x = true ∧ cu x = true ∧
      c = MkCorr (cb z) (Correctness.and_or_input (ci x) (ci y) (ci z)) (cd z) (cu y && cu z)
  | Thresh k subs =>
      1 ≤ k ≤ length subs ∧ thresh_children_ok subs ∧
      c = MkCorr B (match thresh_args (map (λ s, corr (ty s)) subs) with
                    | 0 => Zero | 1 => One | _ => Any end) true true
  | Multi k pks => 1 ≤ k ≤ length pks ∧ c = Correctness.from_multi k (length pks)
  | MultiA k pks => 1 ≤ k ≤ length pks ∧ c = Correctness.from_multi_a k (length pks)
  | ExtT e => c = corr_prop e
  end.

(** Decides the base types and flags a rule looks at. *)
Ltac open_corr :=
  repeat match goal with
  | H : result_bind _ _ = Ok _ |- _ => apply bind_Ok in H; destruct H as (? & ? & ?)
  | H : (if ?x then _ else _) = _ |- _ => destruct x eqn:?; try discriminate H
  | H : match base ?c with _ => _ end = _ |- _ => destruct (base c) eqn:?; try discriminate H
  | H : match input ?c with _ => _ end = _ |- _ => destruct (input c) eqn:?; try discriminate H
  | H : Ok _ = Ok _ |- _ => injection H as H
  | H : Err _ = Ok _ |- _ => discriminate H
  end; subst.

Lemma type_check_rule ctx t mty : type_check ctx t = Ok mty → corr_rule ctx t (corr mty).
Proof.
  unfold type_check, property_check. intros Ht.
  destruct t; cbn [corr_rule] in *; try (by injection Ht as <-);
    try (cbn in Ht; apply pair_with_Ok in Ht as [Ht _];
         autounfold with rules in Ht; unfold cb, ci, cd, cu;
         open_corr; bools; repeat match goal with H : bool_decide _ = false |- _ => clear H end;
         destruct mty as [[] ?]; simplify_eq/=; by (repeat split; try congruence; eauto)).
  - case_match; [done|]. by injection Ht as <-.
  - case_match; [done|]. by injection Ht as <-.
  - cbn in Ht. apply pair_with_Ok in Ht as [Ht _]. autounfold with rules in Ht.
    unfold cb, ci, cu. destruct (input (corr (ty sub))) eqn:Hi; cbn in Ht; try done;
      open_corr; destruct mty as [[] ?]; simplify_eq/=; done.
  - apply bind_Ok in Ht as (u & Hk%check_threshold_Ok & Ht).
    rewrite <-(length_fmap ty subs) in Ht. cbn in Ht.
    apply type_threshold_Ok in Ht as (Hok & Hc & _).
    + split_and!; [lia|lia| |].
      * intros i s Hs. apply Hok. by rewrite list_lookup_fmap, Hs.
      * rewrite Hc. by rewrite <-list_fmap_compose.
    + intros i t. apply lookup_children.
  - apply bind_Ok in Ht as (u & Hk%check_threshold_Ok & Ht). by injection Ht as <-.
  - apply bind_Ok in Ht as (u & Hk%check_threshold_Ok & Ht). by injection Ht as <-.
Qed.

Lemma well_typed_rule ctx ms : well_typed ctx ms → corr_rule ctx (node ms) (corr (ty ms)).
Proof. intros (Ht & _ & _)%well_typed_inv. by apply type_check_rule. Qed.

Lemma thresh_children_cons s subs :
  thresh_children_ok (s :: subs) →
  (cb s = B ∧ cu s = true ∧ cd s = true) ∧
  Forall (λ s, cb s = W ∧ cu s = true ∧ cd s = true) subs.
Proof.
  intros Hok. split; [by apply (Hok 0 s)|]. apply Forall_lookup_2. intros i s' Hi.
  by apply (Hok (S i) s').
Qed.
End rules.
