(* ===== verification/Resources.v ===== *)
(** * Properties of the extra properties

    The resource analysis of [ExtData] agrees with the type system about what can
    be dissatisfied, so the [expect]s of the threshold rule never fail; its own
    sanity checks hold; its time lock summary is exactly "two children that may be
    needed together conflict". *)

From S2P Require Import Prelude Types Extension Property Ast Typing Instances Examples.
From S2P Require Correctness Malleability ExtraProps.
Import ExtraProps(cmp_max, cmp_max_pair, opt_max, opt_add, opt_add_pair, or_i_count,

  fold_worst, sort_by, insert_by, combine_step, combine_threshold, isub).

(** ** Which entries are present *)

Abbreviation some o := (bool_decide (is_Some o)).

Lemma some_Some {A} (x : A) : some (Some x) = true.
Proof. done. Qed.
Lemma some_None {A} : some (@None A) = false.
Proof. done. Qed.
Lemma some_opt_add a b : some (opt_add a b) = some a && some b.
Proof. by destruct a, b. Qed.
Lemma some_opt_max a b : some (opt_max a b) = some a && some b.
Proof. by destruct a, b. Qed.
Lemma some_opt_add_pair a b : some (opt_add_pair a b) = some a && some b.
Proof. by destruct a as [[]|], b as [[]|]. Qed.
Lemma some_cmp_max a b : some (cmp_max a b) = some a || some b.
Proof. by destruct a, b. Qed.
Lemma some_cmp_max_pair a b : some (cmp_max_pair a b) = some a || some b.
Proof. by destruct a, b. Qed.
Lemma some_or_i_count a b : some (or_i_count a b) = some a || some b.
Proof. by destruct a, b. Qed.
Lemma some_option_map {A B} (f : A → B) o : some (option_map f o) = some o.
Proof. by destruct o. Qed.

(** [or_i] spells out the maximum of the dissatisfaction sizes case by case. *)
Lemma some_or_i_dissat (a b : option (nat * nat)) f g h :
  some (match a with
        | Some l => match b with Some r => Some (f l r) | None => Some (g l) end
        | None => match b with Some r => Some (h r : nat * nat) | None => None end
        end) = some a || some b.
Proof. by destruct a, b. Qed.

#[export] Hint Rewrite some_or_i_dissat @some_Some @some_None some_opt_add some_opt_max some_opt_add_pair
  some_cmp_max some_cmp_max_pair some_or_i_count @some_option_map : some.

Lemma some_true {A} (o : option A) : some o = true ↔ ∃ x, o = Some x.
Proof. rewrite bool_decide_eq_true. unfold is_Some. naive_solver. Qed.

(** ** The invariant

    The four dissatisfaction entries are present together, and always when the
    type says the fragment is dissatisfiable; the two stack entries for
    satisfaction are present together. *)
Record ext_inv (t : MsType) (e : ExtData) : Prop := {
  inv_stack_dissat : some (stack_elem_count_dissat e) = some (op_nsat (ops e));
  inv_max_dissat : some (max_dissat_size e) = some (op_nsat (ops e));
  inv_exec_dissat : some (exec_stack_elem_count_dissat e) = some (op_nsat (ops e));
  inv_exec_sat : some (exec_stack_elem_count_sat e) = some (stack_elem_count_sat e);
  inv_dissatisfiable : dissatisfiable (corr t) = true → some (op_nsat (ops e)) = true;
}.

Lemma ext_inv_sanity t e : ext_inv t e → ExtraProps.sanity_checks e = true.
Proof.
  intros [H1 _ H3 H4 _]. unfold ExtraProps.sanity_checks.
  by rewrite H1, H3, H4, !Bool.eqb_reflx.
Qed.

(** ** Thresholds *)

(** A sort whose comparison respects a property puts the elements without it first. *)
Section sorting.
Context {A : Type} (cmp : A → A → comparison) (p : A → bool).
Hypothesis cmp_le : ∀ x y, cmp x y ≠ Gt → p x = true → p y = true.
Hypothesis cmp_gt : ∀ x y, cmp x y = Gt → p y = true → p x = true.

Inductive upward : list A → Prop :=
  | upward_nil : upward []
  | upward_cons x l : (p x = true → Forall (λ y, p y = true) l) → upward l → upward (x :: l).

Lemma insert_by_Forall (P : A → Prop) x l : P x → Forall P l → Forall P (insert_by cmp x l).
Proof.
  intros Hx. induction 1 as [|y l Hy Hl IH]; simpl; [by constructor|].
  destruct (cmp x y); repeat constructor; auto.
Qed.

Lemma insert_by_upward x l : upward l → upward (insert_by cmp x l).
Proof.
  induction 1 as [|y l Hy Hl IH]; simpl; [repeat constructor|].
  destruct (cmp x y) eqn:Hxy.
  1,2: constructor; [|by constructor]; intros Hx;
    assert (p y = true) by (eapply cmp_le; [|done]; by rewrite Hxy); by constructor; auto.
  constructor; [|done]. intros Hpy. apply insert_by_Forall; eauto.
Qed.

Lemma sort_by_upward l : upward (sort_by cmp l).
Proof. induction l; simpl; [constructor|by apply insert_by_upward]. Qed.

Lemma insert_by_perm x l : insert_by cmp x l ≡ₚ x :: l.
Proof.
  induction l as [|y l IH]; simpl; [done|]. destruct (cmp x y); [done..|].
  rewrite IH. apply Permutation_swap.
Qed.
Lemma sort_by_perm l : sort_by cmp l ≡ₚ l.
Proof. induction l as [|x l IH]; simpl; [done|]. by rewrite insert_by_perm, IH. Qed.
End sorting.

(** How many entries have a satisfaction. *)
Fixpoint n_sat {A} (l : list (option A * option A)) : nat :=
  match l with
  | [] => 0
  | x :: l => (if some x.1 then 1 else 0) + n_sat l
  end.

Lemma n_sat_app {A} (l l' : list (option A * option A)) : n_sat (l ++ l') = n_sat l + n_sat l'.
Proof. induction l; simpl; lia. Qed.

Lemma n_sat_perm {A} (l l' : list (option A * option A)) : l ≡ₚ l' → n_sat l = n_sat l'.
Proof. induction 1; simpl; lia. Qed.

Lemma n_sat_le {A} (l : list (option A * option A)) : n_sat l ≤ length l.
Proof. induction l as [|x l IH]; simpl; [lia|]. destruct (some x.1); lia. Qed.

(** Satisfiable entries first. *)
Inductive downward {A} : list (option A * option A) → Prop :=
  | downward_nil : downward []
  | downward_cons x l : (some x.1 = false → n_sat l = 0) → downward l → downward (x :: l).

Lemma downward_snoc {A} (x : option A * option A) l :
  downward l → (some x.1 = true → Forall (λ y, some y.1 = true) l) → downward (l ++ [x]).
Proof.
  induction 1 as [|y l Hy Hl IH]; intros Hall; cbn [app]; [apply downward_cons; [intros _; reflexivity|apply downward_nil]|].
  constructor.
  - intros Hy'. rewrite n_sat_app, (Hy Hy'). simpl. destruct (some x.1); [|done].
    specialize (Hall eq_refl). apply Forall_cons_iff in Hall as [Hall _]. congruence.
  - apply IH. intros Hx. specialize (Hall Hx). by apply Forall_cons_iff in Hall as [_ Hall].
Qed.

Lemma upward_rev {A} (l : list (option A * option A)) :
  upward (λ p, some p.1) l → downward (rev l).
Proof.
  induction 1 as [|x l Hx Hl IH]; simpl; [constructor|].
  apply downward_snoc; [done|]. intros Hsx. apply Forall_rev. auto.
Qed.

(** On such a list whose entries can all be dissatisfied the fold succeeds iff its
    first [k + 1 - i] entries, as far as there are as many, can be satisfied. *)
Lemma fold_worst_some {A St} k i (add : St → A → St) acc l :
  downward l → Forall (λ p, some p.2 = true) l →
  some (fold_worst k i add acc l) = (Nat.min (S k - i) (length l) <=? n_sat l).
Proof.
  intros Hl. revert i acc. induction Hl as [|x l Hx Hl IH]; intros i acc Hd.
  { simpl. by rewrite Nat.min_0_r. }
  rewrite Forall_cons_iff in Hd. destruct Hd as [Hx2 Hd].
  destruct x as [sat nsat]. cbn [fst snd] in *. cbn [fold_worst length n_sat fst].
  pose proof (n_sat_le l). destruct (Nat.leb_spec i k).
  - destruct sat as [v|].
    + rewrite IH by done. rewrite some_Some; cbv iota.
      destruct (Nat.leb_spec (Nat.min (S k - S i) (length l)) (n_sat l));
        symmetry; [apply Nat.leb_le|apply Nat.leb_gt]; lia.
    + change (some (@None A)) with false. rewrite some_None, (Hx eq_refl); cbv iota. symmetry. apply Nat.leb_gt. lia.
  - apply some_true in Hx2 as [v ->]. rewrite IH by done.
    replace (S k - S i) with 0 by lia. by replace (S k - i) with 0 by lia.
Qed.

(** The comparison used for stack elements puts unsatisfiable entries first. *)
Lemma sat_minus_option_dissat_le x y :
  ExtraProps.sat_minus_option_dissat x y ≠ Gt → some x.1 = true → some y.1 = true.
Proof. destruct x as [[]], y as [[]]; done. Qed.
Lemma sat_minus_option_dissat_gt x y :
  ExtraProps.sat_minus_option_dissat x y = Gt → some y.1 = true → some x.1 = true.
Proof. destruct x as [[]], y as [[]]; done. Qed.

Lemma worst_stack_some k add acc (l : list (option nat * option nat)) :
  Forall (λ p, some p.2 = true) l →
  some (fold_worst k 0 add (acc : nat) (rev (sort_by ExtraProps.sat_minus_option_dissat l)))
  = (Nat.min (S k) (length l) <=? n_sat l).
Proof.
  intros Hl. pose proof (sort_by_perm ExtraProps.sat_minus_option_dissat l) as Hp.
  rewrite fold_worst_some.
  - rewrite length_rev, (Permutation_length Hp), Nat.sub_0_r. f_equal.
    apply n_sat_perm. by rewrite <-Permutation_rev.
  - apply upward_rev, sort_by_upward;
      eauto using sat_minus_option_dissat_le, sat_minus_option_dissat_gt.
  - apply Forall_rev. by rewrite Hp.
Qed.

(** The accumulators after children [es], every one of them dissatisfiable. *)
Record acc_inv (k : nat) (es : list ExtData) (acc : ExtraProps.ThreshAcc) : Prop := {
  acc_stack_dissat : some (ExtraProps.a_stack_elem_count_dissat acc) = true;
  acc_max_dissat : some (ExtraProps.a_max_dissat_size acc) = true;
  acc_exec_dissat : some (ExtraProps.a_exec_stack_elem_count_dissat acc) = true;
  acc_stack_vec : Forall (λ p, some p.2 = true) (ExtraProps.a_stack_elem_count_sat_vec acc);
  acc_exec_vec : Forall (λ p, some p.2 = true) (ExtraProps.a_exec_stack_elem_count_sat_vec acc);
  acc_len : length (ExtraProps.a_stack_elem_count_sat_vec acc)
            = length (ExtraProps.a_exec_stack_elem_count_sat_vec acc);
  acc_n_sat : n_sat (ExtraProps.a_stack_elem_count_sat_vec acc)
              = n_sat (ExtraProps.a_exec_stack_elem_count_sat_vec acc);
  acc_timelocks : ExtraProps.a_timelocks acc = timelock_info <$> es;
  acc_stack_eq : ExtraProps.a_stack_elem_count_sat_vec acc
                 = (λ e, (stack_elem_count_sat e, stack_elem_count_dissat e)) <$> es;
  acc_max_eq : ExtraProps.a_max_sat_size_vec acc
               = (λ e, (max_sat_size e, max_sat_size e)) <$> es;
  acc_pk_cost : ExtraProps.a_pk_cost acc
                = 1 + ExtraProps.script_num_size (N.of_nat k) + sum_list (pk_cost <$> es);
}.

(** How many children can be satisfied, by the stack analysis. *)
Definition n_stack_sat (es : list ExtData) : nat :=
  length (List.filter (λ e, some (stack_elem_count_sat e)) es).

(** The fold over pairs of equal components looks at every one of them. *)
Lemma fold_worst_same {A St} k i (add : St → A → St) acc (l : list (option A)) :
  some (fold_worst k i add acc ((λ o, (o, o)) <$> l)) = forallb (λ o, some o) l.
Proof.
  revert i acc. induction l as [|o l IH]; intros i acc; [done|]. cbn -[bool_decide Nat.leb].
  destruct (i <=? k), o; rewrite ?IH; done.
Qed.

Lemma forallb_perm {A} (p : A → bool) l l' : l ≡ₚ l' → forallb p l = forallb p l'.
Proof.
  induction 1 as [|x l l' _ IH|x y l|]; simpl; [done|by rewrite IH| |congruence].
  by rewrite !andb_assoc, (andb_comm (p y)).
Qed.

Lemma same_pairs_some k cmp {St} (add : St → nat * nat → St) acc (es : list ExtData) :
  some (fold_worst k 0 add acc
          (sort_by cmp ((λ e, (max_sat_size e, max_sat_size e)) <$> es)))
  = forallb (λ e, some (max_sat_size e)) es.
Proof.
  pose proof (sort_by_perm cmp ((λ e, (max_sat_size e, max_sat_size e)) <$> es)) as Hp.
  rewrite (list_fmap_compose max_sat_size (λ o, (o, o))) in Hp at 2.
  apply Permutation_map_inv in Hp as (l & Hl & Hp).
  rewrite Hl. change (map ?f l) with (f <$> l). rewrite fold_worst_same, <-(forallb_perm _ _ _ Hp).
  clear. induction es; simpl; [done|]. by f_equal.
Qed.

Lemma forallb_fmap_Forall {A B} (f : A → B) (p : B → Prop) `{∀ x, Decision (p x)} l :
  forallb (λ x, bool_decide (p x)) (f <$> l) = true ↔ Forall (λ x, p (f x)) l.
Proof.
  induction l as [|x l IH]; simpl; [done|].
  by rewrite andb_true_iff, bool_decide_eq_true, IH, Forall_cons_iff.
Qed.

(** What a threshold needs of its children. *)
Definition child_inv (e : ExtData) : Prop :=
  ∃ t, ext_inv t e ∧ dissatisfiable (corr t) = true.

Lemma threshold_step_inv k sub i e es acc :
  sub i = Ok e → child_inv e → acc_inv k es acc →
  ∃ acc', ExtraProps.threshold_step sub acc i = Ok acc' ∧ acc_inv k (es ++ [e]) acc'.
Proof.
  intros Hsub (t & [E1 E2 E3 E4 E5] & Hd) [A1 A2 A3 A4 A5 A6 A7 A8 A9 A10 A11].
  specialize (E5 Hd). rewrite E5 in E1, E2, E3.
  unfold ExtraProps.threshold_step. rewrite Hsub. cbn [result_bind].
  apply some_true in E1 as [sd HE1], E2 as [md HE2], E5 as [ns HE5].
  rewrite HE1, HE2, HE5. cbn [result_bind unwrap].
  eexists; split; [reflexivity|].
  constructor; cbn [ExtraProps.a_stack_elem_count_dissat ExtraProps.a_max_dissat_size
    ExtraProps.a_exec_stack_elem_count_dissat ExtraProps.a_stack_elem_count_sat_vec
    ExtraProps.a_exec_stack_elem_count_sat_vec ExtraProps.a_timelocks
    ExtraProps.a_max_sat_size_vec ExtraProps.a_pk_cost fst snd].
  - by rewrite some_option_map.
  - by rewrite some_option_map.
  - by rewrite some_opt_max, A3, E3.
  - apply Forall_app; split; [done|]. by constructor.
  - apply Forall_app; split; [done|]. by constructor.
  - rewrite !length_app. simpl. lia.
  - rewrite !n_sat_app. cbn [n_sat fst]. rewrite E4. lia.
  - by rewrite A8, fmap_app.
  - rewrite A9, fmap_app. simpl. by rewrite HE1.
  - by rewrite A10, fmap_app.
  - rewrite A11, fmap_app, sum_list_with_app. cbn. lia.
Qed.

Lemma threshold_fold_inv k sub es :
  (∀ i e, es !! i = Some e → sub i = Ok e) → Forall child_inv es →
  ∃ acc, try_fold (ExtraProps.threshold_step sub) (ExtraProps.threshold_init k)
           (seq 0 (length es)) = Ok acc ∧ acc_inv k es acc.
Proof.
  induction es as [|e es IH] using rev_ind; intros Hsub Hes.
  { eexists; split; [reflexivity|]. by constructor; cbn. }
  apply Forall_app in Hes as [Hes He]. apply Forall_cons_iff in He as [He _].
  destruct IH as (acc & Hacc & Hinv); [|done|].
  { intros i d Hi. apply Hsub. by apply lookup_app_l_Some. }
  rewrite length_app, Nat.add_1_r, seq_S, try_fold_app, Hacc. cbn [result_bind try_fold].
  destruct (threshold_step_inv k sub (length es) e es acc) as (acc' & Hstep & Hinv');
    [by apply Hsub; rewrite lookup_app_r, Nat.sub_diag|done|done|].
  rewrite Nat.add_0_l, Hstep. cbn [result_bind]. eauto.
Qed.

Lemma threshold_ext_inv k sub es t :
  (∀ i e, es !! i = Some e → sub i = Ok e) → Forall child_inv es →
  ∃ e, ExtraProps.threshold k (length es) sub = Ok e ∧ ext_inv t e ∧
       timelock_info e = combine_threshold k (timelock_info <$> es) ∧
       some (stack_elem_count_sat e) = (Nat.min (S k) (length es) <=? n_stack_sat es) ∧
       some (max_sat_size e) = forallb (λ e, some (max_sat_size e)) es ∧
       pk_cost e = 1 + ExtraProps.script_num_size (N.of_nat k)
                   + sum_list (pk_cost <$> es) + length es - 1.
Proof.
  intros Hsub Hes. destruct (threshold_fold_inv k sub es) as (acc & Hacc & Hinv); [done..|].
  unfold ExtraProps.threshold. rewrite Hacc. cbn [result_bind].
  eexists; split; [reflexivity|]. destruct Hinv.
  split; [|split; [cbn; by f_equal|split; [|split; [|cbn; by rewrite acc_pk_cost0]]]].
  2:{ cbn [stack_elem_count_sat ExtraProps.threshold_finish].
      rewrite worst_stack_some by done. rewrite acc_stack_eq0, length_fmap. f_equal.
      unfold n_stack_sat. clear. induction es as [|e es IH]; [done|].
      cbn -[bool_decide]. rewrite IH. by destruct (some _). }
  2:{ cbn [max_sat_size ExtraProps.threshold_finish]. rewrite acc_max_eq0.
      apply same_pairs_some. }
  constructor; cbn [ops op_nsat stack_elem_count_dissat max_dissat_size
    exec_stack_elem_count_dissat exec_stack_elem_count_sat stack_elem_count_sat
    ExtraProps.threshold_finish]; try done.
  rewrite !worst_stack_some by done. by rewrite acc_len0, acc_n_sat0.
Qed.

(** ** Nodes *)

(** What the resource analysis assumes of an extension. *)
Class ExtensionResourcesOk (Ext : Type) `{Extension Ext} : Prop :=
  ext_resources_inv : ∀ e, ext_inv (MkType (corr_prop e) (mall_prop e)) (extra_prop e).

#[export] Instance NoExt_resources_ok : ExtensionResourcesOk NoExt.
Proof. intros []. Qed.

(** Close the invariant of a rule other than a threshold: the entries are computed
    from the children's, and [dissatisfiable] is read off the correctness rule. *)
Ltac close_ext_inv :=
  eexists; (split; [reflexivity|]);
  constructor; cbn; autorewrite with some; try congruence; try done.

(** Equations between presence tests: name the tests and compare the booleans. *)
Ltac decide_some :=
  try done;
  repeat match goal with
  | |- context [some ?o] => destruct (some o) eqn:?; cbn [andb orb]
  end;
  first [done | congruence | intuition congruence].

Ltac rule_ext_inv Ht :=
  apply pair_with_Ok in Ht as [Ht _]; autounfold with rules in Ht;
  cbn [pr_cast_alt pr_cast_swap pr_cast_check pr_cast_dupif pr_cast_verify
       pr_cast_nonzero pr_cast_zeronotequal pr_and_b pr_and_v pr_or_b pr_or_d pr_or_c
       pr_or_i pr_and_or Correctness.Correctness_Property] in Ht;
  autounfold with rules in Ht;
  repeat (split_match; cbn [result_bind] in Ht; try discriminate Ht);
  injection Ht as Ht;
  repeat match goal with H : ext_inv _ _ |- _ => destruct H end;
  close_ext_inv; rewrite <-?Ht; cbn; intros; bools;
  repeat match goal with
  | H : _ || _ = true |- _ => apply orb_prop in H
  | H : ?d = true → _, Hd : ?d = true |- _ => specialize (H Hd)
  end; decide_some.

Section nodes.
Context {Pk : Type} `{MiniscriptKey Pk} {Ext : Type} `{ExtensionResourcesOk Ext} `{LockTimes}.
Implicit Types ms : Miniscript Pk Ext.

Lemma ext_type_check_inv ctx (t : Terminal Pk Ext) u :
  Forall (λ ms, ext_inv (ty ms) (ext ms)) (children t) → type_check ctx t = Ok u →
  ∃ e, ext_type_check ctx t = Ok e ∧ ext_inv u e.
Proof.
  unfold type_check, ext_type_check, property_check. intros Hch Ht.
  destruct t; cbn [children] in Hch; rewrite ?Forall_cons_iff in Hch; destruct_and?;
    try (injection Ht as <-; by close_ext_inv);
    try (injection Ht as <-; destruct ctx; by close_ext_inv);
    try (apply bind_Ok in Ht as (? & Hk & Ht); rewrite Hk; cbn [result_bind];
         injection Ht as <-; by close_ext_inv).
  all: lazymatch type of Ht with
       | (let? _ := _ in _) = _ => idtac
       | Ok _ = _ => idtac
       | (if _ then _ else _) = _ => case_match; [done|]; injection Ht as <-; by close_ext_inv
       | pr_threshold _ _ _ = _ => idtac
       | _ => rule_ext_inv Ht
       end.
  - apply bind_Ok in Ht as (? & Hk & Ht). rewrite Hk. cbn [result_bind].
    rewrite <-(length_fmap ty subs) in Ht. apply type_threshold_Ok in Ht as (Hok & _ & _).
    2:{ intros i t. apply lookup_children. }
    rewrite <-(length_fmap ext subs).
    edestruct (threshold_ext_inv k) as (e & He & Hinv & _ & _); [| |exists e; split; [exact He|exact Hinv]].
    + intros i e. apply lookup_children.
    + apply Forall_fmap, Forall_lookup. intros i ms Hi. exists (ty ms).
      split; [by eapply (Forall_lookup_1 _ _ _ _ Hch)|].
      destruct (Hok i (ty ms)) as (_ & _ & ?); [by rewrite list_lookup_fmap, Hi|done].
  - injection Ht as <-. eexists; split; [reflexivity|]. apply ext_resources_inv.
Qed.

Lemma well_typed_ext_inv ctx ms : well_typed ctx ms → ext_inv (ty ms) (ext ms).
Proof.
  revert ms. apply well_typed_ind'. intros t mty mext Ht He _ Hch. cbn [ty ext].
  destruct (ext_type_check_inv ctx t mty) as (e & He' & Hinv); [done..|]. congruence.
Qed.

(** ** The checker does not panic *)

Lemma try_fold_no_panic {E S A} (f : S → A → result E S) l s :
  (∀ s x, x ∈ l → f s x ≠ Panic) → try_fold f s l ≠ Panic.
Proof.
  revert s. induction l as [|x l IH]; intros s Hf; cbn [try_fold]; [done|].
  rewrite bind_Panic. intros [Hx|(s' & _ & Hl)].
  - by eapply Hf; [left|].
  - eapply IH; [|exact Hl]. intros s1 y Hy. apply Hf. by right.
Qed.

Lemma threshold_no_panic k n sub :
  (∀ i, i < n → sub i ≠ Panic) → TypeProp.threshold k n sub ≠ Panic.
Proof.
  intros Hsub. unfold TypeProp.threshold, TypeProp.pair_with.
  assert (∀ i, i ∈ seq 0 n → sub i ≠ Panic) as Hsub'
    by (intros i [_ Hi]%elem_of_seq; by apply Hsub).
  rewrite bind_Panic. intros [Hc|(c & _ & Hm)].
  - unfold Correctness.threshold in Hc. apply bind_Panic in Hc as [Hc|(? & _ & ?)]; [|done].
    revert Hc. apply try_fold_no_panic. intros m i Hi. unfold Correctness.threshold_step.
    specialize (Hsub' i Hi). destruct (sub i); [|done|done]. cbn [result_bind].
    repeat case_match; done.
  - apply bind_Panic in Hm as [Hm|(? & _ & ?)]; [|done].
    unfold Malleability.threshold in Hm. apply bind_Panic in Hm as [Hm|(? & _ & ?)]; [|done].
    revert Hm. apply try_fold_no_panic. intros m i Hi. unfold Malleability.threshold_step.
    specialize (Hsub' i Hi). by destruct (sub i).
Qed.

Lemma type_check_no_panic ctx (t : Terminal Pk Ext) : type_check ctx t ≠ Panic.
Proof.
  unfold type_check, property_check.
  assert (∀ k n, check_threshold k n ≠ Panic) as Hck
    by (intros k n; unfold check_threshold; repeat case_match; done).
  destruct t; try done; try (by repeat case_match);
    try (rewrite bind_Panic; intros [?|(? & _ & Hp)]; [by eapply Hck|try done]).
  all: try (cbn -[bool_decide]; unfold TypeProp.pair_with; autounfold with rules;
    repeat case_match; done).
  revert Hp. apply threshold_no_panic. intros i Hi%lookup_lt_is_Some.
  by destruct Hi as [? ->].
Qed.

(** (C10) Totality of [Miniscript::from_ast]: on a node whose children were built by
    it, it neither panics (no [expect] of the threshold rule fails, no child index
    is out of range) nor fails in the resource analysis; it returns a node exactly
    when [Type::type_check] accepts, with the error of [type_check] otherwise. *)
Theorem from_ast_total ctx (t : Terminal Pk Ext) :
  Forall (well_typed ctx) (children t) →
  match type_check ctx t with
  | Ok u => ∃ e, ext_type_check ctx t = Ok e ∧ from_ast ctx t = Ok (MkMs t u e)
  | Err err => from_ast ctx t = Err err
  | Panic => False
  end.
Proof.
  intros Hch. pose proof (type_check_no_panic ctx t) as Hp. unfold from_ast.
  destruct (type_check ctx t) as [u|err|] eqn:Ht; [|done|done].
  destruct (ext_type_check_inv ctx t u) as (e & He & _); [|done|].
  - eapply Forall_impl; [|exact Hch]. apply well_typed_ext_inv.
  - exists e. cbn [result_bind]. by rewrite He.
Qed.

(** (C11) The assertions of [ExtData::sanity_checks] hold for every Miniscript that
    [from_ast] builds: a witness stack bound is known exactly when an execution
    stack bound is, for satisfactions and for dissatisfactions; and a fragment
    whose type promises a dissatisfaction has bounds for it. *)
Theorem well_typed_ext_sanity ctx ms :
  well_typed ctx ms →
  ExtraProps.sanity_checks (ext ms) = true ∧
  (dissatisfiable (corr (ty ms)) = true →
   is_Some (op_nsat (ops (ext ms))) ∧ is_Some (stack_elem_count_dissat (ext ms)) ∧
   is_Some (max_dissat_size (ext ms)) ∧ is_Some (exec_stack_elem_count_dissat (ext ms))).
Proof.
  intros Hms%well_typed_ext_inv. split; [by eapply ext_inv_sanity|]. intros Hd.
  destruct Hms as [I1 I2 I3 _ I5]. specialize (I5 Hd). rewrite I5 in I1, I2, I3.
  by rewrite bool_decide_eq_true in I1, I2, I3, I5.
Qed.

(** A threshold in terms of its children. *)
Lemma well_typed_thresh ctx k subs mty mext :
  well_typed ctx (MkMs (Thresh k subs) mty mext : Miniscript Pk Ext) →
  1 ≤ k ≤ length subs ∧
  timelock_info mext = combine_threshold k ((λ ms, timelock_info (ext ms)) <$> subs) ∧
  some (stack_elem_count_sat mext)
  = (Nat.min (S k) (length subs) <=? n_stack_sat (ext <$> subs)) ∧
  some (max_sat_size mext) = forallb (λ e, some (max_sat_size e)) (ext <$> subs) ∧
  pk_cost mext = 1 + ExtraProps.script_num_size (N.of_nat k)
                 + sum_list ((λ ms, pk_cost (ext ms)) <$> subs) + length subs - 1.
Proof.
  intros (Ht & He & Hch)%well_typed_inv. cbn [node ty ext children] in *.
  unfold type_check, ext_type_check, property_check in *.
  apply bind_Ok in Ht as (? & Hk & Ht), He as (? & _ & He). apply check_threshold_Ok in Hk.
  split; [done|].
  rewrite <-(length_fmap ty subs) in Ht. apply type_threshold_Ok in Ht as (Hok & _ & _).
  2:{ intros i t. apply lookup_children. }
  rewrite <-(length_fmap ext subs) in He |- *.
  edestruct (threshold_ext_inv k) as (e & He' & _ & Htl & Hst & Hmax & Hcost);
    [| |cbn in He; rewrite He' in He; injection He as <-; rewrite Htl, Hcost;
        rewrite !length_fmap in *; by rewrite <-!list_fmap_compose].
  - intros i d. apply lookup_children.
  - apply Forall_fmap, Forall_lookup. intros i ms Hi. exists (ty ms). split.
    + eapply well_typed_ext_inv, (Forall_lookup_1 _ _ _ _ Hch Hi).
    + destruct (Hok i (ty ms)) as (_ & _ & ?); [by rewrite list_lookup_fmap, Hi|done].
  Unshelve. exact mty.
Qed.

(** (C13) When the analysis deems a threshold satisfiable.  [thresh(k,..)] has a
    bound on the witness elements of a satisfaction exactly when at least
    [min(k + 1, n)] of its children have one (the folds test [i <= k] on indices
    from zero, one child more than the [k] a satisfaction needs); and it has a bound
    on the witness size exactly when every child has one. *)
Theorem threshold_satisfiable ctx k subs mty mext :
  well_typed ctx (MkMs (Thresh k subs) mty mext : Miniscript Pk Ext) →
  (is_Some (stack_elem_count_sat mext) ↔
   Nat.min (k + 1) (length subs) ≤
   length (List.filter (λ s, some (stack_elem_count_sat (ext s))) subs)) ∧
  (is_Some (max_sat_size mext) ↔ Forall (λ s, is_Some (max_sat_size (ext s))) subs).
Proof.
  intros (_ & _ & Hst & Hmax & _)%well_typed_thresh. split.
  - rewrite <-(bool_decide_eq_true (is_Some (stack_elem_count_sat mext))), Hst, Nat.leb_le.
    rewrite Nat.add_1_r. unfold n_stack_sat.
    assert (length (List.filter (λ e, some (stack_elem_count_sat e)) (ext <$> subs))
            = length (List.filter (λ s, some (stack_elem_count_sat (ext s))) subs)) as ->; [|done].
    clear. induction subs as [|s subs IH]; [done|]. cbn -[bool_decide].
    destruct (some _); simpl; by rewrite IH.
  - rewrite <-(bool_decide_eq_true (is_Some (max_sat_size mext))), Hmax, forallb_fmap_Forall. done.
Qed.
End nodes.

Lemma from_ast_total_witness :
  Forall (well_typed Segwitv0) (children (node (ms_thresh Segwitv0))) ∧
  ∃ u e, from_ast Segwitv0 (node (ms_thresh Segwitv0)) = Ok (MkMs (node (ms_thresh Segwitv0)) u e).
Proof.
  pose proof (well_typed_inv _ _ ms_thresh_typed) as (Ht & _ & Hch). split; [exact Hch|].
  pose proof (from_ast_total Segwitv0 (node (ms_thresh Segwitv0)) Hch) as Htot.
  rewrite Ht in Htot. destruct Htot as (e & _ & He). by eexists _, e.
Defined.

Lemma well_typed_ext_sanity_witness :
  well_typed Segwitv0 (ms_thresh Segwitv0) ∧
  dissatisfiable (corr (ty (ms_thresh Segwitv0))) = true ∧
  ExtraProps.sanity_checks (ext (ms_thresh Segwitv0)) = true.
Proof.
  split_and!; [exact ms_thresh_typed|reflexivity|].
  apply (well_typed_ext_sanity Segwitv0). exact ms_thresh_typed.
Defined.

(** [thresh(1,pk(0),a:0)] is satisfied by a signature for the first key, yet two
    children would have to be satisfiable for the analysis to find a bound. *)
Lemma threshold_satisfiable_witness :
  let ms := ms_thresh_zero Segwitv0 in
  well_typed Segwitv0 ms ∧ stack_elem_count_sat (ext (pk Segwitv0 0)) = Some 1 ∧
  ¬ is_Some (stack_elem_count_sat (ext ms)) ∧ ¬ is_Some (max_sat_size (ext ms)).
Proof.
  intros ms. split_and!; [exact ms_thresh_zero_typed|reflexivity|..].
  - intros Hs. assert (Nat.min 2 2 ≤ 1) as Hle; [|simpl in Hle; lia].
    apply (threshold_satisfiable Segwitv0 1 [pk Segwitv0 0; wrap_a Segwitv0 (build Segwitv0 TFalse)]
             (ty ms) (ext ms)); [exact ms_thresh_zero_typed|exact Hs].
  - intros [x Hx]. vm_compute in Hx. discriminate Hx.
Defined.
