(* ===== verification/Iter.v ===== *)
(** * Iterators over a Miniscript: [src/miniscript/iter.rs]

    The explicit-stack traversal of the source as a transition function on its
    state, shown to visit exactly the nodes of the tree in pre-order; the key
    iterator built on it; and the test for repeated keys, which relies on both. *)

From S2P Require Import Prelude Types Extension Instances Property Ast Examples.

Section iter.
Context {Pk : Type} `{MiniscriptKey Pk} {Ext : Type}.
Implicit Types ms node : Miniscript Pk Ext.

(** [Miniscript::branches] *)
Definition branches ms : list (Miniscript Pk Ext) :=
  match node ms with
  | PkK _ | PkH _ | RawPkH _ | Multi _ _ => []
  | Alt n | Swap n | Check n | DupIf n | Verify n | NonZero n | ZeroNotEqual n => [n]
  | AndV n1 n2 | AndB n1 n2 | OrB n1 n2 | OrD n1 n2 | OrC n1 n2 | OrI n1 n2 => [n1; n2]
  | AndOr n1 n2 n3 => [n1; n2; n3]
  | Thresh _ subs => subs
  | _ => []
  end.

(** [Miniscript::get_nth_child] *)
Definition get_nth_child ms (n : nat) : option (Miniscript Pk Ext) :=
  match n, node ms with
  | 0, (Alt s | Swap s | Check s | DupIf s | Verify s | NonZero s | ZeroNotEqual s) => Some s
  | 0, (AndV s _ | AndB s _ | OrB s _ | OrD s _ | OrC s _ | OrI s _) => Some s
  | 1, (AndV _ s | AndB _ s | OrB _ s | OrD _ s | OrC _ s | OrI _ s) => Some s
  | 0, AndOr s _ _ | 1, AndOr _ s _ | 2, AndOr _ _ s => Some s
  | n, Thresh _ subs => subs !! n
  | _, _ => None
  end.

(** [Miniscript::get_nth_pk] *)
Definition get_nth_pk ms (n : nat) : option Pk :=
  match node ms, n with
  | PkK k, 0 | PkH k, 0 => Some k
  | Multi _ keys, _ | MultiA _ keys, _ => keys !! n
  | _, _ => None
  end.

(** ** [Iter]

    The [Vec] of path elements is a list whose head is the top of the stack. *)
Record Iter : Type := MkIter {
  next : option (Miniscript Pk Ext);
  path : list (Miniscript Pk Ext * nat);
}.

Definition Iter_new ms : Iter := MkIter (Some ms) [].

(** The [while let] loop that unwinds the stack to a node with children left. *)
Fixpoint unwind (path : list (Miniscript Pk Ext * nat))
    : option (Miniscript Pk Ext) * list (Miniscript Pk Ext * nat) :=
  match path with
  | [] => (None, [])
  | (node, child) :: path =>
      match get_nth_child node child with
      | Some c => (Some c, (node, S child) :: path)
      | None => unwind path
      end
  end.

Definition Iter_next (self : Iter) : option (Miniscript Pk Ext) * Iter :=
  let '(curr, path) :=
    match next self with
    | None => unwind (path self)
    | Some m => (Some m, path self)
    end in
  match curr with
  | Some node => (curr, MkIter (get_nth_child node 0) ((node, 1) :: path))
  | None => (curr, MkIter None path)
  end.

(** Up to [fuel] calls of [next]. *)
Fixpoint Iter_collect (fuel : nat) (self : Iter) : list (Miniscript Pk Ext) :=
  match fuel with
  | 0 => []
  | S fuel =>
      match Iter_next self with
      | (Some ms, self) => ms :: Iter_collect fuel self
      | (None, _) => []
      end
  end.

(** ** [PkIter] *)

Record PkIter : Type := MkPkIter {
  node_iter : Iter;
  curr_node : option (Miniscript Pk Ext);
  key_index : nat;
}.

Definition PkIter_new ms : PkIter :=
  let '(curr, iter) := Iter_next (Iter_new ms) in MkPkIter iter curr 0.

(** The [loop] of [next]; [None] means that the fuel ran out. *)
Fixpoint PkIter_next (fuel : nat) (self : PkIter) : option (option Pk * PkIter) :=
  match fuel with
  | 0 => None
  | S fuel =>
      match curr_node self with
      | None => Some (None, self)
      | Some node =>
          match get_nth_pk node (key_index self) with
          | None =>
              let '(curr, iter) := Iter_next (node_iter self) in
              PkIter_next fuel (MkPkIter iter curr 0)
          | Some pk => Some (Some pk, MkPkIter (node_iter self) (curr_node self) (S (key_index self)))
          end
      end
  end.

(** [iter_pk().collect()], with the same fuel for every call. *)
Fixpoint PkIter_collect (calls fuel : nat) (self : PkIter) : option (list Pk) :=
  match calls with
  | 0 => None
  | S calls =>
      match PkIter_next fuel self with
      | None => None
      | Some (None, _) => Some []
      | Some (Some pk, self) =>
          match PkIter_collect calls fuel self with
          | Some l => Some (pk :: l)
          | None => None
          end
      end
  end.

(** ** The reference traversal *)

Definition subnodes : Miniscript Pk Ext → list (Miniscript Pk Ext) :=
  cata (λ ms rs, ms :: concat rs).

Definition node_keys ms : list Pk :=
  match node ms with
  | PkK k | PkH k => [k]
  | Multi _ keys | MultiA _ keys => keys
  | _ => []
  end.

(** Every key of the tree, in pre-order. *)
Definition keys ms : list Pk := concat (node_keys <$> subnodes ms).

Definition iter_pk ms : option (list Pk) :=
  PkIter_collect (S (length (keys ms))) (S (S (length (subnodes ms)))) (PkIter_new ms).

Definition iter ms : list (Miniscript Pk Ext) :=
  Iter_collect (length (subnodes ms)) (Iter_new ms).

(** ** Correctness of the traversal *)

Lemma branches_children ms : branches ms = children (node ms).
Proof. by destruct ms as [[] ? ?]. Qed.

Lemma get_nth_child_branches ms n : get_nth_child ms n = branches ms !! n.
Proof. destruct ms as [[] ? ?]; destruct n as [|[|[|n]]]; done. Qed.

Lemma get_nth_pk_keys ms n : get_nth_pk ms n = node_keys ms !! n.
Proof. destruct ms as [[] ? ?]; destruct n as [|n]; done. Qed.

Lemma preorder_unfold ms : subnodes ms = ms :: concat (subnodes <$> branches ms).
Proof. unfold subnodes at 1. by rewrite cata_unfold, branches_children. Qed.

(** What is still to be visited. *)
Definition pending (path : list (Miniscript Pk Ext * nat)) : list (Miniscript Pk Ext) :=
  concat ((λ '(m, i), concat (subnodes <$> drop i (branches m))) <$> path).
Definition to_visit (it : Iter) : list (Miniscript Pk Ext) :=
  match next it with Some m => subnodes m | None => [] end ++ pending (path it).

Lemma unwind_spec p :
  match unwind p with
  | (Some m, p') => pending p = subnodes m ++ pending p'
  | (None, p') => pending p = [] ∧ p' = []
  end.
Proof.
  induction p as [|[m i] p IH]; simpl; [done|].
  rewrite get_nth_child_branches. destruct (branches m !! i) as [c|] eqn:Hi.
  - unfold pending; cbn. rewrite (drop_S _ _ _ Hi), fmap_cons. cbn. by rewrite <-app_assoc.
  - unfold pending; cbn. rewrite drop_ge by (by apply lookup_ge_None). exact IH.
Qed.

Lemma first_pending m p :
  match get_nth_child m 0 with Some c => subnodes c | None => [] end ++ pending ((m, 1) :: p)
  = concat (subnodes <$> branches m) ++ pending p.
Proof.
  rewrite get_nth_child_branches. unfold pending; cbn.
  destruct (branches m) as [|c cs]; [done|]. cbn. by rewrite drop_0, app_assoc.
Qed.

Lemma Iter_next_spec it :
  match Iter_next it with
  | (Some m, it') => to_visit it = m :: to_visit it'
  | (None, it') => to_visit it = [] ∧ to_visit it' = []
  end.
Proof.
  unfold Iter_next, to_visit. destruct it as [[m|] p]; cbn [next path].
  - by rewrite preorder_unfold, first_pending.
  - pose proof (unwind_spec p) as Hp. destruct (unwind p) as [[m|] p']; cbn [next path].
    + by rewrite Hp, preorder_unfold, first_pending.
    + destruct Hp as [-> ->]. done.
Qed.

Lemma Iter_collect_spec fuel it : Iter_collect fuel it = take fuel (to_visit it).
Proof.
  revert it. induction fuel as [|fuel IH]; intros it; [done|]. cbn.
  pose proof (Iter_next_spec it) as Hn.
  destruct (Iter_next it) as [[m|] it']; [by rewrite Hn; cbn; rewrite IH|].
  by destruct Hn as [-> _].
Qed.

Lemma Iter_collect_new fuel ms : Iter_collect fuel (Iter_new ms) = take fuel (subnodes ms).
Proof. rewrite Iter_collect_spec. unfold to_visit; cbn. by rewrite app_nil_r. Qed.

(** (C14) The iterator is the pre-order traversal: calling [next] repeatedly on
    [Iter::new(ms)] yields the nodes of [ms], parents before children and children
    from left to right, each exactly once, and [None] after the last. *)
Theorem iter_preorder fuel ms : Iter_collect fuel (Iter_new ms) = take fuel (subnodes ms).
Proof. apply Iter_collect_new. Qed.

(** *** Keys *)

Definition keys_to_visit (p : PkIter) : list Pk :=
  match curr_node p with
  | Some m => drop (key_index p) (node_keys m) ++ concat (node_keys <$> to_visit (node_iter p))
  | None => []
  end.

(** The number of nodes the loop may pass. *)
Definition nodes_left (p : PkIter) : nat :=
  match curr_node p with Some _ => S (length (to_visit (node_iter p))) | None => 0 end.

Lemma PkIter_next_spec fuel p :
  nodes_left p < fuel →
  ∃ o p', PkIter_next fuel p = Some (o, p') ∧ nodes_left p' ≤ nodes_left p ∧
          keys_to_visit p = match o with Some k => k :: keys_to_visit p' | None => [] end.
Proof.
  revert p. induction fuel as [|fuel IH]; intros [it [m|] i] Hf; cbn -[nodes_left keys_to_visit] in *; try lia.
  2:{ by eexists _, _. }
  rewrite get_nth_pk_keys. destruct (node_keys m !! i) as [k|] eqn:Hk.
  { eexists _, _; split_and!; [reflexivity|done|].
    unfold keys_to_visit; cbn. by rewrite (drop_S _ _ _ Hk). }
  pose proof (Iter_next_spec it) as Hn.
  destruct (Iter_next it) as [curr it'].
  assert (nodes_left (MkPkIter it' curr 0) < nodes_left (MkPkIter it (Some m) i)) as Hlt.
  { destruct curr; [unfold nodes_left; cbn; rewrite Hn; cbn; lia|cbn; lia]. }
  destruct (IH (MkPkIter it' curr 0)) as (o & p' & Ho & Hle & Hkeys); [lia|].
  exists o, p'. split_and!; [done|lia|]. rewrite <-Hkeys.
  unfold keys_to_visit; cbn. rewrite (drop_ge (node_keys m)) by (by apply lookup_ge_None).
  destruct curr as [m'|]; [by rewrite Hn, drop_0|by destruct Hn as [-> _]].
Qed.

Lemma PkIter_collect_spec calls fuel p :
  nodes_left p < fuel → length (keys_to_visit p) < calls →
  PkIter_collect calls fuel p = Some (keys_to_visit p).
Proof.
  revert p. induction calls as [|calls IH]; intros p Hf Hc; [lia|]. cbn.
  destruct (PkIter_next_spec fuel p Hf) as (o & p' & -> & Hle & Hk). rewrite Hk in *.
  destruct o as [k|]; [|done]. cbn in Hc. by rewrite IH by lia.
Qed.

Lemma iter_pk_spec ms : iter_pk ms = Some (keys ms).
Proof.
  unfold iter_pk.
  pose proof (Iter_next_spec (Iter_new ms)) as Hn. unfold PkIter_new.
  destruct (Iter_next (Iter_new ms)) as [curr it].
  change (to_visit (Iter_new ms)) with (subnodes ms ++ []) in Hn. rewrite app_nil_r in Hn.
  destruct curr as [m|]; [|destruct Hn as [Hn _]; by rewrite preorder_unfold in Hn].
  assert (keys_to_visit (MkPkIter it (Some m) 0) = keys ms) as Hkeys
    by (unfold keys; rewrite Hn; unfold keys_to_visit; cbn; by rewrite drop_0).
  rewrite PkIter_collect_spec; rewrite ?Hkeys; [done| |lia].
  unfold nodes_left; cbn. rewrite Hn. cbn. lia.
Qed.

(** [iter_pk] terminates and yields the keys of the tree, with repetitions, in
    pre-order: those of [pk_k], [pk_h], [multi] and [multi_a]. *)
Theorem iter_pk_keys ms : iter_pk ms = Some (keys ms).
Proof. apply iter_pk_spec. Qed.
End iter.

(** ** Repeated keys: [Miniscript::has_repeated_keys] *)

Section repeated.
Context {Pk : Type} `{MiniscriptKey Pk} `{EqDecision Pk} {Ext : Type}.
Implicit Types ms : Miniscript Pk Ext.

(** The number of keys against the size of the [HashSet] of them. *)
Definition has_repeated_keys ms : bool :=
  match iter_pk ms with
  | Some ks => negb (length (remove_dups ks) =? length ks)
  | None => false
  end.

Definition contains_raw_pkh ms : bool :=
  existsb (λ m, match node m with RawPkH _ => true | _ => false end) (iter ms).

Lemma remove_dups_length (l : list Pk) : length (remove_dups l) ≤ length l.
Proof. induction l as [|k l IH]; simpl; [lia|]. case_decide; simpl; lia. Qed.

Lemma remove_dups_NoDup (l : list Pk) : length (remove_dups l) = length l ↔ NoDup l.
Proof.
  induction l as [|k l IH]; simpl; [split; [constructor|done]|]. rewrite list.NoDup_cons.
  pose proof (remove_dups_length l). case_decide as Hin; simpl.
  - split; [lia|tauto].
  - rewrite <-IH. split; [|lia]. split; [done|lia].
Qed.

Lemma has_repeated_keys_NoDup ms : has_repeated_keys ms = false ↔ NoDup (keys ms).
Proof.
  unfold has_repeated_keys. rewrite iter_pk_spec, negb_false_iff, Nat.eqb_eq.
  apply remove_dups_NoDup.
Qed.

(** [has_repeated_keys] decides whether two positions of the tree hold the
    same key. *)
Theorem has_repeated_keys_spec ms : has_repeated_keys ms = false ↔ NoDup (keys ms).
Proof. apply has_repeated_keys_NoDup. Qed.

Lemma contains_raw_pkh_Forall ms :
  contains_raw_pkh ms = false ↔
  Forall (λ m, match node m with RawPkH _ => False | _ => True end) (subnodes ms).
Proof.
  unfold contains_raw_pkh, iter. rewrite Iter_collect_new, take_ge by done.
  induction (subnodes ms) as [|m l IH]; simpl; [done|].
  rewrite orb_false_iff, IH, Forall_cons_iff. destruct (node m); naive_solver.
Qed.
End repeated.
