(* ===== verification/Tokens.v ===== *)
(** * Opcodes, instructions, tokens and errors

    The vocabulary of the script encoder, the lexer and the decoder: the opcodes of
    the [elements] crate that the source names, script instructions, the [Token]
    enumeration and the [TokenIter] of [src/miniscript/lex.rs], and the errors of
    [src/lib.rs] that the modelled code returns. *)

From S2P Require Import Prelude Types Extension.
From stdpp Require Import strings.
From Stdlib Require Export Ascii.

(** ** Opcodes and instructions (crate [elements]) *)

Inductive opcode : Type :=
  | OP_PUSHNUM_NEG1
  | OP_PUSHBYTES_0
  | OP_PUSHNUM_1 | OP_PUSHNUM_2 | OP_PUSHNUM_3 | OP_PUSHNUM_4
  | OP_PUSHNUM_5 | OP_PUSHNUM_6 | OP_PUSHNUM_7 | OP_PUSHNUM_8
  | OP_PUSHNUM_9 | OP_PUSHNUM_10 | OP_PUSHNUM_11 | OP_PUSHNUM_12
  | OP_PUSHNUM_13 | OP_PUSHNUM_14 | OP_PUSHNUM_15 | OP_PUSHNUM_16
  | OP_BOOLAND | OP_BOOLOR | OP_EQUAL | OP_EQUALVERIFY | OP_NUMEQUAL | OP_NUMEQUALVERIFY
  | OP_CHECKSIG | OP_CHECKSIGVERIFY | OP_CHECKSIGADD
  | OP_CHECKSIGFROMSTACK | OP_CHECKSIGFROMSTACKVERIFY
  | OP_CHECKMULTISIG | OP_CHECKMULTISIGVERIFY
  | OP_CSV | OP_CLTV
  | OP_FROMALTSTACK | OP_TOALTSTACK | OP_LEFT | OP_2DUP | OP_CAT | OP_CODESEPARATOR
  | OP_OVER | OP_NIP | OP_PICK | OP_DROP | OP_DEPTH | OP_DUP | OP_ADD | OP_SUB
  | OP_IF | OP_IFDUP | OP_NOTIF | OP_ELSE | OP_ENDIF | OP_0NOTEQUAL | OP_SIZE | OP_SWAP
  | OP_VERIFY | OP_RIPEMD160 | OP_HASH160 | OP_SHA256 | OP_HASH256
  | OP_INSPECTINPUTVALUE | OP_INSPECTOUTPUTVALUE | OP_INSPECTINPUTASSET
  | OP_INSPECTOUTPUTASSET | OP_INSPECTINPUTSCRIPTPUBKEY | OP_INSPECTOUTPUTSCRIPTPUBKEY
  | OP_INSPECTINPUTISSUANCE | OP_PUSHCURRENTINPUTINDEX
  | OP_ADD64 | OP_SUB64 | OP_MUL64 | OP_DIV64 | OP_NEG64
  | OP_GREATERTHAN64 | OP_GREATERTHANOREQUAL64 | OP_LESSTHAN64 | OP_LESSTHANOREQUAL64
  | OP_AND | OP_OR | OP_XOR | OP_INVERT | OP_SCRIPTNUMTOLE64 | OP_LE64TOSCRIPTNUM
  (** any other opcode of the crate *)
  | OP_OTHER (n : Byte.byte).

#[export] Instance opcode_eq_dec : EqDecision opcode.
Proof. solve_decision. Defined.

Inductive Instruction : Type :=
  | PushBytes (b : bytes)
  | Op (op : opcode).

(** ** Tokens: [src/miniscript/lex.rs]

    [u32] payloads are [N]; slices and arrays are byte lists. *)
Inductive Token : Type :=
  | TkBoolAnd | TkBoolOr | TkAdd | TkSub | TkEqual | TkNumEqual | TkCheckSig
  | TkCheckSigFromStack | TkCheckSigAdd | TkCheckSigFromStackVerify | TkCheckMultiSig
  | TkCheckSequenceVerify | TkCheckLockTimeVerify | TkFromAltStack | TkToAltStack
  | TkLeft | TkCat | TkCodeSep | TkOver | TkPick | TkDepth | TkDrop | TkDup
  | TkIf | TkIfDup | TkNotIf | TkElse | TkEndIf | TkZeroNotEqual | TkSize | TkSwap
  | TkVerify | TkRipemd160 | TkHash160 | TkSha256 | TkHash256
  | TkNum (n : N)
  | TkHash20 (b : bytes)
  | TkBytes8 (b : bytes)
  | TkBytes32 (b : bytes)
  | TkBytes33 (b : bytes)
  | TkBytes65 (b : bytes)
  | TkPush (b : bytes)
  | TkPickPush4 (n : N)
  | TkPickPush32 (b : bytes)
  | TkPickPush (b : bytes)
  | TkInpValue | TkOutValue | TkInpIssue
  | TkLeq64 | TkLe64 | TkGeq64 | TkGe64 | TkNeg64 | TkDiv64 | TkMul64 | TkSub64 | TkAdd64
  | TkNip | TkAnd | TkOr | TkXor | TkInvert | TkCurrInp
  | TkInpAsset | TkOutAsset | TkOutSpk | TkInpSpk | TkNumNeg1
  | TkScriptNumToLe64 | TkLe64ToScriptNum | TkDup2.

#[export] Instance Token_eq_dec : EqDecision Token.
Proof. solve_decision. Defined.

(** *** [TokenIter]

    A vector of tokens read from its end.  The model keeps it reversed, so that the
    head of the list is the token [next] pops. *)
Definition TokenIter : Type := list Token.

Definition TokenIter_new (v : list Token) : TokenIter := rev v.

Definition peek (self : TokenIter) : option Token := head self.

(** The last [n] tokens, in script order. *)
Definition peek_slice (self : TokenIter) (n : nat) : option (list Token) :=
  if n <=? length self then Some (rev (take n self)) else None.

Definition advance (self : TokenIter) (n : nat) : option TokenIter :=
  if n <=? length self then Some (drop n self) else None.

Definition un_next (self : TokenIter) (tok : Token) : TokenIter := tok :: self.

Definition next_token (self : TokenIter) : option Token * TokenIter :=
  match self with
  | [] => (None, [])
  | t :: self => (Some t, self)
  end.

(** ** Errors: [src/lib.rs]

    The variants returned by the modelled code.  Payloads that are the printed form
    of a value carry the value; third-party payloads are dropped. *)

Inductive AnalysisError : Type :=
  | SiglessBranch
  | RepeatedPubkeys
  | BranchExceedResouceLimits
  | HeightTimelockCombination
  | Malleable
  | ContainsRawPkh.

Inductive KeyParseError : Type := FullKeyParseError | XonlyKeyParseError.

(** [elements::script::Error] *)
Inductive ScriptError : Type := NonMinimalPush | EarlyEndOfScript | NumericOverflow.

(** [CovError] of [src/src/descriptor/csfs_cov/error.rs]. *)
Inductive CovError : Type :=
  | MissingScriptCode
  | MissingValue
  | MissingSighashItem (n : nat)
  | MissingCovSignature
  | BadCovDescriptor
  | CovenantLift
  | CovenantSighashTypeMismatch.

(** [policy::concrete::PolicyError] and [policy::LiftError] *)
Inductive PolicyError : Type :=
  | NonBinaryArgAnd | NonBinaryArgOr | IncorrectThresh | ZeroTime | TimeTooFar
  | InsufficientArgsforAnd | InsufficientArgsforOr | EntailmentMaxTerminals
  | PolicyHeightTimelockCombination | DuplicatePubKeys.

Inductive LiftError : Type :=
  | LiftHeightTimelockCombination | BranchExceedResourceLimits | RawDescriptorLift.

Inductive Error : Type :=
  | InvalidOpcode (op : opcode)
  | NonMinimalVerify (tok : Token)
  | InvalidPush (b : bytes)
  | ScriptErr (e : ScriptError)
  | CmsTooManyKeys (n : N)
  | MultiATooManyKeys (n : N)
  | UnexpectedStart
  | Unexpected (tok : Token)
  | NonTopLevel
  | Trailing (tok : Token)
  | TypeCheck (e : ErrorKind)
  | ContextError (e : ScriptContextError)
  | NonStandardBareScript
  | AnalysisErr (e : AnalysisError)
  | ImpossibleSatisfactionErr
  | CouldNotSatisfy
  | PubKeyCtxError (e : KeyParseError) (ctx : string)
  (** errors of the text parsers *)
  | ExpectedChar (c : ascii)
  | UnexpectedStr (s : string)
  | MultiColon (s : string)
  | MultiAt (s : string)
  | AtOutsideOr (s : string)
  | LikelyFalse
  | UnknownWrapper (c : ascii)
  | BadDescriptor (s : string)
  | MaxRecursiveDepthExceeded
  | BtcError (s : string)
  (** errors of policies *)
  | PolicyErr (e : PolicyError)
  | LiftErr (e : LiftError)
  | BadPubkeySlice
  (** the key, serialized *)
  | MissingSig (key : bytes)
  | ScriptSizeTooLarge
  | TrNoScriptCode
  | BareDescriptorAddr
  | CovErr (e : CovError).
