(* ===== verification/Context.v ===== *)
(** * Script contexts: [src/miniscript/context.rs], [limits.rs], [analyzable.rs]

    The consensus and policy limits of each context, and the analysis of a whole
    Miniscript that applies them. *)

From S2P Require Import Prelude Types Extension Instances Property Ast Examples Iter Tokens.
From S2P Require ExtraProps.
From stdpp Require Import strings.

(** ** Limits: [src/miniscript/limits.rs]

    Kept as binary numbers, several are too large for unary ones. *)
Definition MAX_OPS_PER_SCRIPT : N := 201.
Definition MAX_STANDARD_P2WSH_STACK_ITEMS : nat := 100.
Definition MAX_SCRIPT_SIZE : N := 10000.
Definition MAX_STANDARD_P2WSH_SCRIPT_SIZE : N := 3600.
Definition MAX_SCRIPT_ELEMENT_SIZE : N := 520.
Definition MAX_SCRIPTSIG_SIZE : N := 1650.
Definition MAX_STANDARD_P2WSH_STACK_ITEM_SIZE : N := 80.
Definition MAX_STACK_SIZE : nat := N.to_nat 1000.
Definition MAX_BLOCK_WEIGHT : N := 4000000.
Definition MAX_PUBKEYS_PER_MULTISIG : nat := 20.

(** [a > b] on [usize] *)
Definition gtN (a : nat) (b : N) : bool := (b <? N.of_nat a)%N.

Definition name_str (ctx : ScriptContext) : string :=
  match ctx with
  | Legacy => "Legacy/p2sh"%string
  | Segwitv0 => "Segwitv0"%string
  | Tap => "TapscriptCtx"%string
  | BareCtx => "BareCtx"%string
  | NoChecks => "NochecksEcdsa"%string
  end.

Section context.
Context {Pk : Type} `{MiniscriptKey Pk} {Ext : Type} `{Extension Ext}.
Implicit Types ms : Miniscript Pk Ext.

(** [ScriptContext::pk_len]; the context without checks panics. *)
Definition pk_len (ctx : ScriptContext) (k : Pk) : result Error nat :=
  match ctx with
  | Legacy | BareCtx => Ok (if is_uncompressed k then 66 else 34)
  | Segwitv0 => Ok 34
  | Tap => Ok 33
  | NoChecks => Panic
  end.

Definition check_terminal_non_malleable (ctx : ScriptContext) (frag : Terminal Pk Ext)
    : result ScriptContextError unit :=
  match ctx with
  | Legacy =>
      match frag with
      | PkH _ => Err MalleablePkH
      | RawPkH _ => Err MalleablePkH
      | OrI _ _ => Err MalleableOrI
      | DupIf _ => Err MalleableDupIf
      | _ => Ok tt
      end
  | Segwitv0 | Tap | BareCtx | NoChecks => Ok tt
  end.

(** [Ctx::max_satisfaction_size], then [Miniscript::max_satisfaction_size]. *)
Definition ctx_max_satisfaction_size (ctx : ScriptContext) ms : result Error (option nat) :=
  match ctx with
  | Legacy | BareCtx => Ok (option_map snd (max_sat_size (ext ms)))
  | Segwitv0 | Tap => Ok (option_map fst (max_sat_size (ext ms)))
  | NoChecks => Panic
  end.

Definition max_satisfaction_size (ctx : ScriptContext) ms : result Error nat :=
  let? size := ctx_max_satisfaction_size ctx ms in
  ok_or ImpossibleSatisfactionErr size.

(** [Miniscript::max_satisfaction_witness_elements] *)
Definition max_satisfaction_witness_elements ms : result Error nat :=
  ok_or ImpossibleSatisfactionErr (option_map (λ x, x + 1) (stack_elem_count_sat (ext ms))).

(** The loops over the keys of a [multi]. *)
Fixpoint check_x_only (ctx : ScriptContext) (pks : list Pk) : result ScriptContextError unit :=
  match pks with
  | [] => Ok tt
  | k :: pks =>
      if is_x_only_key k then Err (XOnlyKeysNotAllowed (key_to_string k) (name_str ctx))
      else check_x_only ctx pks
  end.

Definition check_segwit_key (k : Pk) : result ScriptContextError unit :=
  if is_uncompressed k then Err (CompressedOnly (key_to_string k))
  else if is_x_only_key k then Err (XOnlyKeysNotAllowed (key_to_string k) (name_str Segwitv0))
  else Ok tt.

Fixpoint check_segwit_keys (pks : list Pk) : result ScriptContextError unit :=
  match pks with
  | [] => Ok tt
  | k :: pks => let? _ := check_segwit_key k in check_segwit_keys pks
  end.

Definition legacy_global_consensus ms : result ScriptContextError unit :=
  if gtN (pk_cost (ext ms)) MAX_SCRIPT_ELEMENT_SIZE then Err MaxRedeemScriptSizeExceeded
  else
    let? _ :=
      match node ms with
      | PkK key =>
          if is_x_only_key key
          then Err (XOnlyKeysNotAllowed (key_to_string key) (name_str Legacy)) else Ok tt
      | Multi _ pks =>
          if MAX_PUBKEYS_PER_MULTISIG <? length pks then Err CheckMultiSigLimitExceeded
          else check_x_only Legacy pks
      | MultiA _ _ => Err MultiANotAllowed
      | _ => Ok tt
      end in
    match node ms with
    | ExtT _ => Err (ExtensionError "No Extensions in Legacy context"%string)
    | _ => Ok tt
    end.

Definition segwitv0_global_consensus ms : result ScriptContextError unit :=
  if gtN (pk_cost (ext ms)) MAX_SCRIPT_SIZE then Err MaxWitnessScriptSizeExceeded
  else
    match node ms with
    | PkK k => check_segwit_key k
    | Multi _ pks =>
        if MAX_PUBKEYS_PER_MULTISIG <? length pks then Err CheckMultiSigLimitExceeded
        else check_segwit_keys pks
    | ExtT e => let? _ := segwit_ctx_checks e in Ok tt
    | MultiA _ _ => Err MultiANotAllowed
    | _ => Ok tt
    end.

Definition tap_global_consensus ms : result ScriptContextError unit :=
  if gtN (pk_cost (ext ms)) MAX_BLOCK_WEIGHT then Err MaxWitnessScriptSizeExceeded
  else
    match node ms with
    | PkK k => if is_uncompressed k then Err UncompressedKeysNotAllowed else Ok tt
    | Multi _ _ => Err TaprootMultiDisabled
    | ExtT e => let? _ := tap_ctx_checks e in Ok tt
    | _ => Ok tt
    end.

Definition bare_global_consensus ms : result ScriptContextError unit :=
  if gtN (pk_cost (ext ms)) MAX_SCRIPT_SIZE then Err MaxWitnessScriptSizeExceeded
  else
    match node ms with
    | ExtT _ => Err (ExtensionError "No Extensions in Bare context"%string)
    | PkK key =>
        if is_x_only_key key
        then Err (XOnlyKeysNotAllowed (key_to_string key) (name_str BareCtx)) else Ok tt
    | Multi _ pks =>
        if MAX_PUBKEYS_PER_MULTISIG <? length pks then Err CheckMultiSigLimitExceeded
        else check_x_only BareCtx pks
    | MultiA _ _ => Err MultiANotAllowed
    | _ => Ok tt
    end.

Definition check_global_consensus_validity (ctx : ScriptContext) ms
    : result ScriptContextError unit :=
  match ctx with
  | Legacy => legacy_global_consensus ms
  | Segwitv0 => segwitv0_global_consensus ms
  | Tap => tap_global_consensus ms
  | BareCtx => bare_global_consensus ms
  | NoChecks => Ok tt
  end.

Definition check_global_policy_validity (ctx : ScriptContext) ms
    : result ScriptContextError unit :=
  match ctx with
  | Segwitv0 =>
      if gtN (pk_cost (ext ms)) MAX_STANDARD_P2WSH_SCRIPT_SIZE
      then Err MaxWitnessScriptSizeExceeded else Ok tt
  | Legacy | Tap | BareCtx | NoChecks => Ok tt
  end.

(** The opcode limit of the contexts before taproot. *)
Definition check_op_count ms : result ScriptContextError unit :=
  match ExtraProps.op_count (ops (ext ms)) with
  | None => Err MaxOpCountExceeded
  | Some op_count => if gtN op_count MAX_OPS_PER_SCRIPT then Err MaxOpCountExceeded else Ok tt
  end.

Definition tap_local_consensus ms : result ScriptContextError unit :=
  match exec_stack_elem_count_sat (ext ms), stack_elem_count_sat (ext ms) with
  | Some s, Some h =>
      if MAX_STACK_SIZE <? s + h then Err (StackSizeLimitExceeded (s + h) MAX_STACK_SIZE)
      else Ok tt
  | _, _ => Ok tt
  end.

Definition check_local_consensus_validity (ctx : ScriptContext) ms
    : result ScriptContextError unit :=
  match ctx with
  | Legacy | Segwitv0 | BareCtx => check_op_count ms
  | Tap => tap_local_consensus ms
  | NoChecks => Ok tt
  end.

Definition legacy_local_policy ms : result ScriptContextError unit :=
  match max_satisfaction_size Legacy ms with
  | Err _ => Err ImpossibleSatisfaction
  | Ok size => if gtN size MAX_SCRIPTSIG_SIZE then Err MaxScriptSigSizeExceeded else Ok tt
  | Panic => Panic
  end.

Definition segwitv0_local_policy ms : result ScriptContextError unit :=
  match max_satisfaction_witness_elements ms with
  | Err _ => Err ImpossibleSatisfaction
  | Ok n =>
      if MAX_STANDARD_P2WSH_STACK_ITEMS <? n
      then Err (MaxWitnessItemssExceeded n MAX_STANDARD_P2WSH_STACK_ITEMS) else Ok tt
  | Panic => Panic
  end.

Definition check_local_policy_validity (ctx : ScriptContext) ms
    : result ScriptContextError unit :=
  match ctx with
  | Legacy => legacy_local_policy ms
  | Segwitv0 => segwitv0_local_policy ms
  | Tap | BareCtx | NoChecks => Ok tt
  end.

Definition check_global_validity (ctx : ScriptContext) ms : result ScriptContextError unit :=
  let? _ := check_global_consensus_validity ctx ms in
  let? _ := check_global_policy_validity ctx ms in
  Ok tt.

Definition check_local_validity (ctx : ScriptContext) ms : result ScriptContextError unit :=
  let? _ := check_global_consensus_validity ctx ms in
  let? _ := check_global_policy_validity ctx ms in
  let? _ := check_local_consensus_validity ctx ms in
  let? _ := check_local_policy_validity ctx ms in
  Ok tt.

(** ** Top level checks *)

Definition top_level_type_check ms : result Error unit :=
  if bool_decide (base (corr (ty ms)) = B) then Ok tt else Err NonTopLevel.

Definition bare_top_level_checks ms : result Error unit :=
  match node ms with
  | Check sub =>
      match node sub with
      | RawPkH _ => Ok tt
      | PkK _ | PkH _ => Ok tt
      | _ => Err NonStandardBareScript
      end
  | Multi _ subs => if length subs <=? 3 then Ok tt else Err NonStandardBareScript
  | _ => Err NonStandardBareScript
  end.

Definition other_top_level_checks (ctx : ScriptContext) ms : result Error unit :=
  match ctx with
  | BareCtx => bare_top_level_checks ms
  | Legacy | Segwitv0 | Tap | NoChecks => Ok tt
  end.

Definition top_level_checks (ctx : ScriptContext) ms : result Error unit :=
  let? _ := top_level_type_check ms in
  other_top_level_checks ctx ms.
End context.

(** The witness checks that need no script builder: [Ctx::check_witness]. *)
Definition check_witness_len (limit : nat) (witness : list bytes) : result ScriptContextError unit :=
  if limit <? length witness then Err (MaxWitnessItemssExceeded (length witness) limit) else Ok tt.

Definition segwitv0_check_witness := check_witness_len MAX_STANDARD_P2WSH_STACK_ITEMS.
Definition tap_check_witness := check_witness_len MAX_STACK_SIZE.

(** ** Analysis: [src/miniscript/analyzable.rs] *)

Record ExtParams : Type := MkExtParams {
  top_unsafe : bool;
  resource_limitations : bool;
  timelock_mixing : bool;
  malleability : bool;
  repeated_pk : bool;
  raw_pkh : bool;
}.

Definition ExtParams_new : ExtParams := MkExtParams false false false false false false.
Definition ExtParams_sane : ExtParams := ExtParams_new.
Definition ExtParams_insane : ExtParams := MkExtParams true true true true true false.
Definition ExtParams_allow_all : ExtParams := MkExtParams true true true true true true.

Section analysis.
Context {Pk : Type} `{MiniscriptKey Pk} `{EqDecision Pk} {Ext : Type} `{Extension Ext}.
Context (ctx : ScriptContext).
Implicit Types ms : Miniscript Pk Ext.

Definition requires_sig ms : bool := safe (mall (ty ms)).
Definition is_non_malleable ms : bool := non_malleable (mall (ty ms)).
Definition within_resource_limits ms : bool := is_ok (check_local_validity ctx ms).
Definition has_mixed_timelocks ms : bool :=
  ExtraProps.contains_unspendable_path (timelock_info (ext ms)).

Definition sanity_check ms : result AnalysisError unit :=
  if negb (requires_sig ms) then Err SiglessBranch
  else if negb (is_non_malleable ms) then Err Malleable
  else if negb (within_resource_limits ms) then Err BranchExceedResouceLimits
  else if has_repeated_keys ms then Err RepeatedPubkeys
  else if has_mixed_timelocks ms then Err HeightTimelockCombination
  else Ok tt.

Definition ext_check (params : ExtParams) ms : result AnalysisError unit :=
  if negb (top_unsafe params) && negb (requires_sig ms) then Err SiglessBranch
  else if negb (malleability params) && negb (is_non_malleable ms) then Err Malleable
  else if negb (resource_limitations params) && negb (within_resource_limits ms)
       then Err BranchExceedResouceLimits
  else if negb (repeated_pk params) && has_repeated_keys ms then Err RepeatedPubkeys
  else if negb (timelock_mixing params) && has_mixed_timelocks ms then Err HeightTimelockCombination
  else if negb (raw_pkh params) && contains_raw_pkh ms then Err ContainsRawPkh
  else Ok tt.
End analysis.

(** ** What the checks accept *)

Section spec.
Context {Pk : Type} `{MiniscriptKey Pk} {Ext : Type} `{Extension Ext}.
Implicit Types ms : Miniscript Pk Ext.

(** The fragments a context admits. *)
Definition node_allowed (ctx : ScriptContext) (t : Terminal Pk Ext) : Prop :=
  match ctx, t with
  | (Legacy | BareCtx), PkK k => is_x_only_key k = false
  | (Legacy | BareCtx), Multi _ pks => length pks ≤ 20 ∧ Forall (λ k, is_x_only_key k = false) pks
  | (Legacy | BareCtx), (MultiA _ _ | ExtT _) => False
  | Segwitv0, PkK k => is_uncompressed k = false ∧ is_x_only_key k = false
  | Segwitv0, Multi _ pks =>
      length pks ≤ 20 ∧ Forall (λ k, is_uncompressed k = false ∧ is_x_only_key k = false) pks
  | Segwitv0, MultiA _ _ => False
  | Segwitv0, ExtT e => segwit_ctx_checks e = Ok tt
  | Tap, PkK k => is_uncompressed k = false
  | Tap, Multi _ _ => False
  | Tap, ExtT e => tap_ctx_checks e = Ok tt
  | _, _ => True
  end.

(** The script size limit of a context, consensus and policy. *)
Definition size_limit (ctx : ScriptContext) : option N :=
  match ctx with
  | Legacy => Some 520
  | Segwitv0 => Some 3600
  | Tap => Some 4000000
  | BareCtx => Some 10000
  | NoChecks => None
  end%N.

Definition ops_within (e : ExtData) : Prop :=
  ∃ sat, op_sat (ops e) = Some sat ∧ (N.of_nat (count (ops e) + sat) <= 201)%N.

Definition satisfaction_within (ctx : ScriptContext) (e : ExtData) : Prop :=
  match ctx with
  | Legacy => ops_within e ∧ ∃ s, max_sat_size e = Some s ∧ (N.of_nat s.2 <= 1650)%N
  | Segwitv0 => ops_within e ∧ ∃ n, stack_elem_count_sat e = Some n ∧ n + 1 ≤ 100
  | Tap => ∀ s h, exec_stack_elem_count_sat e = Some s → stack_elem_count_sat e = Some h →
                  s + h ≤ MAX_STACK_SIZE
  | BareCtx => ops_within e
  | NoChecks => True
  end.

Definition size_within (ctx : ScriptContext) (e : ExtData) : Prop :=
  match size_limit ctx with Some l => (N.of_nat (pk_cost e) <= l)%N | None => True end.

Lemma gtN_false a b : gtN a b = false ↔ (N.of_nat a <= b)%N.
Proof. unfold gtN. apply N.ltb_ge. Qed.

Lemma if_err_Ok {E} (b : bool) (e : E) (k : result E unit) :
  (if b then Err e else k) = Ok tt ↔ b = false ∧ k = Ok tt.
Proof. destruct b; naive_solver. Qed.

Lemma check_x_only_Ok ctx pks :
  check_x_only ctx pks = Ok tt ↔ Forall (λ k, is_x_only_key k = false) pks.
Proof.
  induction pks as [|k pks IH]; simpl; [done|].
  by rewrite Forall_cons_iff, if_err_Ok, IH.
Qed.

Lemma bind_tt_Ok {E} (x : result E unit) (k : result E unit) :
  (let? _ := x in k) = Ok tt ↔ x = Ok tt ∧ k = Ok tt.
Proof. destruct x as [[]| |]; naive_solver. Qed.

Lemma check_segwit_key_Ok k :
  check_segwit_key k = Ok tt ↔ is_uncompressed k = false ∧ is_x_only_key k = false.
Proof. unfold check_segwit_key. rewrite !if_err_Ok. tauto. Qed.

Lemma check_segwit_keys_Ok pks :
  check_segwit_keys pks = Ok tt ↔
  Forall (λ k, is_uncompressed k = false ∧ is_x_only_key k = false) pks.
Proof.
  induction pks as [|k pks IH]; cbn [check_segwit_keys]; [done|].
  by rewrite Forall_cons_iff, bind_tt_Ok, check_segwit_key_Ok, IH.
Qed.

Lemma global_validity_Ok ctx ms :
  check_global_validity ctx ms = Ok tt ↔ size_within ctx (ext ms) ∧ node_allowed ctx (node ms).
Proof.
  unfold check_global_validity, size_within. rewrite !bind_tt_Ok.
  destruct ctx; cbn [size_limit check_global_consensus_validity check_global_policy_validity];
    unfold legacy_global_consensus, segwitv0_global_consensus, tap_global_consensus,
      bare_global_consensus; rewrite ?if_err_Ok, ?gtN_false;
    unfold MAX_SCRIPT_ELEMENT_SIZE, MAX_SCRIPT_SIZE, MAX_STANDARD_P2WSH_SCRIPT_SIZE, MAX_BLOCK_WEIGHT;
    destruct (node ms); cbn [node_allowed];
    rewrite ?bind_tt_Ok, ?if_err_Ok, ?check_x_only_Ok, ?check_segwit_keys_Ok, ?check_segwit_key_Ok,
      ?Nat.ltb_ge; unfold MAX_PUBKEYS_PER_MULTISIG; try (by intuition lia); naive_solver lia.
Qed.

Lemma check_op_count_Ok ms : check_op_count ms = Ok tt ↔ ops_within (ext ms).
Proof.
  unfold check_op_count, ops_within, ExtraProps.op_count.
  destruct (op_sat (ops (ext ms))); [rewrite if_err_Ok, gtN_false|]; naive_solver.
Qed.

Lemma local_validity_Ok ctx ms :
  check_local_validity ctx ms = Ok tt ↔
  size_within ctx (ext ms) ∧ node_allowed ctx (node ms) ∧ satisfaction_within ctx (ext ms).
Proof.
  transitivity (check_global_validity ctx ms = Ok tt ∧
                check_local_consensus_validity ctx ms = Ok tt ∧
                check_local_policy_validity ctx ms = Ok tt).
  { unfold check_local_validity, check_global_validity. rewrite !bind_tt_Ok. tauto. }
  rewrite global_validity_Ok.
  transitivity ((size_within ctx (ext ms) ∧ node_allowed ctx (node ms)) ∧
                satisfaction_within ctx (ext ms)); [apply and_iff_compat_l|tauto].
  destruct ctx; cbn [check_local_consensus_validity check_local_policy_validity satisfaction_within];
    rewrite ?check_op_count_Ok.
  - apply and_iff_compat_l. unfold legacy_local_policy, max_satisfaction_size. simpl.
    destruct (max_sat_size (ext ms)) as [s|]; simpl; [rewrite if_err_Ok, gtN_false|]; naive_solver.
  - apply and_iff_compat_l. unfold segwitv0_local_policy, max_satisfaction_witness_elements.
    destruct (stack_elem_count_sat (ext ms)) as [s|]; simpl; [rewrite if_err_Ok, Nat.ltb_ge|];
      unfold MAX_STANDARD_P2WSH_STACK_ITEMS; naive_solver.
  - unfold tap_local_consensus.
    destruct (exec_stack_elem_count_sat (ext ms)), (stack_elem_count_sat (ext ms));
      [rewrite if_err_Ok, Nat.ltb_ge|..]; naive_solver.
  - tauto.
  - tauto.
Qed.

(** The limits that [check_local_validity] enforces, in every context, no more
    and no less: the script size (P2SH 520, P2WSH 3600, taproot 4000000 and bare
    10000 bytes), the fragments and keys the context admits at this node, the 201
    opcodes of the contexts before taproot, and the size of a satisfaction (P2SH
    1650 bytes of scriptSig, P2WSH 100 items with the script, taproot 1000 stack
    elements). *)
Theorem check_local_validity_spec ctx ms :
  check_local_validity ctx ms = Ok tt ↔
  size_within ctx (ext ms) ∧ node_allowed ctx (node ms) ∧ satisfaction_within ctx (ext ms).
Proof. apply local_validity_Ok. Qed.
End spec.

(** The checks of an extension return. *)
Class ExtChecks (Ext : Type) `{Extension Ext} : Prop := {
  segwit_checks_no_panic : ∀ e : Ext, segwit_ctx_checks e ≠ Panic;
  tap_checks_no_panic : ∀ e : Ext, tap_ctx_checks e ≠ Panic;
}.

#[export] Instance NoExt_ExtChecks : ExtChecks NoExt.
Proof. split; by intros []. Qed.

Lemma global_validity_no_panic {Pk} `{MiniscriptKey Pk} {Ext} `{ExtChecks Ext} ctx
    (ms : Miniscript Pk Ext) : check_global_validity ctx ms ≠ Panic.
Proof.
  assert (∀ c pks, check_x_only (Pk := Pk) c pks ≠ Panic) as Hx
    by (intros c pks; induction pks; simpl; [done|case_match; done]).
  assert (∀ pks, check_segwit_keys (Pk := Pk) pks ≠ Panic) as Hs.
  { intros pks. induction pks; simpl; [done|]. unfold check_segwit_key. repeat case_match; done. }
  unfold check_global_validity. apply bind_no_panic; [|intros _].
  - destruct ctx; simpl; unfold legacy_global_consensus, segwitv0_global_consensus,
      tap_global_consensus, bare_global_consensus, check_segwit_key;
      repeat first [done | apply Hx | apply Hs | apply segwit_checks_no_panic
                   | apply tap_checks_no_panic | apply bind_no_panic; [|intros ?] | case_match].
  - destruct ctx; simpl; repeat case_match; done.
Qed.

(** ** Sane Miniscripts *)

Section sanity.
Context {Pk : Type} `{MiniscriptKey Pk} `{EqDecision Pk} {Ext : Type} `{Extension Ext}.
Context (ctx : ScriptContext).
Implicit Types ms : Miniscript Pk Ext.

(** [p] allows whatever [q] allows. *)
Definition params_le (q p : ExtParams) : Prop :=
  bool_ge (top_unsafe p) (top_unsafe q) = true ∧
  bool_ge (resource_limitations p) (resource_limitations q) = true ∧
  bool_ge (timelock_mixing p) (timelock_mixing q) = true ∧
  bool_ge (malleability p) (malleability q) = true ∧
  bool_ge (repeated_pk p) (repeated_pk q) = true ∧
  bool_ge (raw_pkh p) (raw_pkh q) = true.

Lemma ext_check_Ok p ms :
  ext_check ctx p ms = Ok tt ↔
  (top_unsafe p = true ∨ requires_sig ms = true) ∧
  (malleability p = true ∨ is_non_malleable ms = true) ∧
  (resource_limitations p = true ∨ check_local_validity ctx ms = Ok tt) ∧
  (repeated_pk p = true ∨ has_repeated_keys ms = false) ∧
  (timelock_mixing p = true ∨ has_mixed_timelocks ms = false) ∧
  (raw_pkh p = true ∨ contains_raw_pkh ms = false).
Proof.
  unfold ext_check, within_resource_limits. rewrite !if_err_Ok, !andb_false_iff, !negb_false_iff.
  rewrite is_ok_iff.
  assert ((∃ a, check_local_validity ctx ms = Ok a) ↔ check_local_validity ctx ms = Ok tt) as ->
    by (split; [intros [[] ?]; done|eauto]).
  tauto.
Qed.

(** Relaxing the extra parameters never rejects more: whatever [ext_check]
    accepts under some [ExtParams] it accepts under any that allow more; with
    [allow_all] it accepts everything. *)
Theorem ext_check_mono p q ms :
  params_le q p → ext_check ctx q ms = Ok tt → ext_check ctx p ms = Ok tt.
Proof.
  rewrite !ext_check_Ok. unfold params_le, bool_ge. rewrite !implb_true_iff.
  intros (? & ? & ? & ? & ? & ?). intuition auto.
Qed.

(** What a sane Miniscript guarantees: [sanity_check] succeeds exactly when
    every spend path needs a signature, satisfactions are non-malleable, the
    resource limits of the context hold, no key occurs twice and the time lock
    summary shows no conflict.  [ext_check] with the sane parameters demands the
    same and, in addition, that no raw public key hash occurs. *)
Theorem sanity_check_spec ms :
  (sanity_check ctx ms = Ok tt ↔
   safe (mall (ty ms)) = true ∧ non_malleable (mall (ty ms)) = true ∧
   check_local_validity ctx ms = Ok tt ∧ NoDup (keys ms) ∧
   contains_combination (timelock_info (ext ms)) = false) ∧
  (ext_check ctx ExtParams_sane ms = Ok tt ↔
   sanity_check ctx ms = Ok tt ∧
   Forall (λ m, match node m with RawPkH _ => False | _ => True end) (subnodes ms)).
Proof.
  assert (sanity_check ctx ms = Ok tt ↔ ext_check ctx (MkExtParams false false false false false true) ms = Ok tt) as Hs.
  { unfold sanity_check, ext_check. simpl. done. }
  split.
  - rewrite Hs, ext_check_Ok, has_repeated_keys_NoDup. simpl.
    unfold requires_sig, is_non_malleable, has_mixed_timelocks, ExtraProps.contains_unspendable_path.
    intuition congruence.
  - rewrite Hs, !ext_check_Ok, <-contains_raw_pkh_Forall. simpl. intuition congruence.
Qed.
End sanity.

Lemma ext_check_mono_witness :
  let ms := ms_mixed Segwitv0 in
  let q := MkExtParams true false true false false false in
  params_le q ExtParams_allow_all ∧ ext_check Segwitv0 q ms = Ok tt ∧
  ext_check Segwitv0 ExtParams_allow_all ms = Ok tt.
Proof.
  intros ms q. split_and!; [done|vm_compute; reflexivity|].
  apply (ext_check_mono Segwitv0 ExtParams_allow_all q); [done|vm_compute; reflexivity].
Defined.

(** The key of [pk_h] is not examined: an uncompressed key that [pk_k] rejects in a
    segwit script is accepted under [pk_h]. *)
Lemma segwit_pkh_key_unchecked :
  let pkh := build Segwitv0 (PkH (Uncompressed 0)) in
  let pkk := build Segwitv0 (PkK (Uncompressed 0)) in
  check_local_validity Segwitv0 pkh = Ok tt ∧
  check_local_validity Segwitv0 pkk = Err (CompressedOnly "key").
Proof. split; vm_compute; reflexivity. Qed.
