(* ===== verification/ScriptNum.v ===== *)
(** * Script integers: [build_scriptint] of [src/util.rs]

    The little-endian sign-magnitude encoding of numbers in scripts, shown to be
    inverted by the reference decoding, to be minimal, and to have the length that
    [script_num_size] of [src/lib.rs] predicts. *)

From S2P Require Import Prelude.
From S2P Require ExtraProps.
Import ExtraProps(script_num_size).

Local Open Scope N_scope.

(** [n as u8] *)
Definition byte_of_N (n : N) : Byte.byte :=
  match Byte.of_N (n mod 256) with Some b => b | None => Byte.x00 end.

Lemma byte_of_N_to_N n : Byte.to_N (byte_of_N n) = n mod 256.
Proof.
  unfold byte_of_N. destruct (Byte.of_N (n mod 256)) as [b|] eqn:Hb.
  - by apply Byte.to_of_N in Hb.
  - apply Byte.of_N_None_iff in Hb. pose proof (N.mod_lt n 256). lia.
Qed.

(** ** The source's algorithm *)

(** The [while abs > 0xFF] loop: the bytes pushed and the rest. *)
Fixpoint scriptint_loop (fuel : nat) (abs : N) (v : bytes) : bytes * N :=
  match fuel with
  | O => (v, abs)
  | S fuel =>
      if 0xFF <? abs
      then scriptint_loop fuel (N.shiftr abs 8) (v ++ [byte_of_N (N.land abs 0xFF)])
      else (v, abs)
  end.

(** [usize] has 64 bits, so that seven turns of the loop suffice. *)
Definition build_scriptint (n : Z) : bytes :=
  if (n =? 0)%Z then []
  else
    let neg := (n <? 0)%Z in
    let '(v, abs) := scriptint_loop 7 (Z.to_N (Z.abs n)) [] in
    if negb (N.land abs 0x80 =? 0)
    then v ++ [byte_of_N abs] ++ [byte_of_N (if neg then 0x80 else 0)]
    else v ++ [byte_of_N (N.lor abs (if neg then 0x80 else 0))].

(** ** The reference decoding *)

Fixpoint le_value (b : bytes) : N :=
  match b with
  | [] => 0
  | x :: b => Byte.to_N x + 256 * le_value b
  end.

(** The top bit of the last byte is the sign. *)
Definition scriptint_value (b : bytes) : Z :=
  let top := 2 ^ (8 * N.of_nat (length b) - 1) in
  match b with
  | [] => 0
  | _ => if top <=? le_value b then - Z.of_N (le_value b - top) else Z.of_N (le_value b)
  end.

(** ** Correctness *)

Lemma le_value_app a b : le_value (a ++ b) = le_value a + 256 ^ N.of_nat (length a) * le_value b.
Proof.
  induction a as [|x a IH]; cbn [app le_value length]; [by rewrite N.mul_1_l|].
  rewrite IH, Nat2N.inj_succ, N.pow_succ_r'. lia.
Qed.

Lemma le_value_lt b : le_value b < 256 ^ N.of_nat (length b).
Proof.
  induction b as [|x b IH]; cbn [le_value length]; [done|].
  rewrite Nat2N.inj_succ, N.pow_succ_r'. pose proof (Byte.to_N_bounded x). lia.
Qed.

Lemma land_ff n : N.land n 0xFF = n mod 256.
Proof. change 0xFF with (N.ones 8). by rewrite N.land_ones. Qed.
Lemma shiftr_8 n : N.shiftr n 8 = n / 256.
Proof. by rewrite N.shiftr_div_pow2. Qed.

(** The loop leaves the number split into its low bytes and its top byte. *)
Lemma scriptint_loop_spec fuel abs v w top :
  0 < abs < 256 ^ (N.of_nat (S fuel)) → scriptint_loop fuel abs v = (w, top) →
  ∃ u, w = v ++ u ∧ abs = le_value u + 256 ^ N.of_nat (length u) * top ∧ 0 < top < 256.
Proof.
  revert abs v. induction fuel as [|fuel IH]; intros abs v Ha; cbn [scriptint_loop].
  { intros [= <- <-]. exists []. rewrite app_nil_r. cbn in *. split_and!; try done; lia. }
  destruct (N.ltb_spec 0xFF abs) as [Hgt|Hle].
  2:{ intros [= <- <-]. exists []. rewrite app_nil_r. cbn. split_and!; try done; lia. }
  intros Hl. apply IH in Hl as (u & -> & Hq & Htop).
  - exists (byte_of_N (N.land abs 0xFF) :: u). split_and!; [by rewrite <-app_assoc| |lia..].
    cbn [le_value length]. rewrite byte_of_N_to_N, land_ff, N.Div0.mod_mod, Nat2N.inj_succ, N.pow_succ_r'.
    rewrite shiftr_8 in Hq. pose proof (N.div_mod abs 256). lia.
  - rewrite shiftr_8. rewrite (Nat2N.inj_succ (S fuel)), N.pow_succ_r' in Ha. split.
    + apply N.div_str_pos. lia.
    + apply N.Div0.div_lt_upper_bound; lia.
Qed.

Lemma pow256 k : 256 ^ k = 2 ^ (8 * k).
Proof. by rewrite N.pow_mul_r. Qed.

(** Facts about bytes by enumeration. *)
Lemma forall_byte (P : N → bool) :
  forallb P (N.of_nat <$> seq 0 256) = true → ∀ n, n < 256 → P n = true.
Proof.
  rewrite forallb_forall. intros Hall n Hn. apply Hall.
  apply in_map_iff. exists (N.to_nat n). rewrite N2Nat.id. split; [done|].
  apply in_seq. lia.
Qed.

Lemma land_80 n : n < 256 → N.land n 0x80 = if 128 <=? n then 128 else 0.
Proof.
  intros Hn. apply N.eqb_eq. revert n Hn. apply forall_byte. reflexivity.
Qed.
Lemma lor_80 n : n < 128 → N.lor n 0x80 = n + 128.
Proof.
  intros Hn. assert ((128 <=? n) || (N.lor n 0x80 =? n + 128) = true) as Hor.
  { assert (n < 256) as Hn' by lia. clear Hn. revert n Hn'. apply forall_byte. reflexivity. }
  destruct (N.leb_spec 128 n); [lia|]. by apply N.eqb_eq.
Qed.

(** The two shapes of the last bytes, for magnitude [abs] and sign bit [s]. *)
Lemma build_scriptint_shape n :
  n ≠ 0%Z → (Z.abs n < 2 ^ 63)%Z →
  ∃ u top, let s := if (n <? 0)%Z then 0x80 else 0 in
    Z.to_N (Z.abs n) = le_value u + 256 ^ N.of_nat (length u) * top ∧ 0 < top < 256 ∧
    ((128 <= top ∧ build_scriptint n = u ++ [byte_of_N top; byte_of_N s]) ∨
     (top < 128 ∧ build_scriptint n = u ++ [byte_of_N (top + s)])).
Proof.
  intros Hn Hlt. unfold build_scriptint. apply Z.eqb_neq in Hn as Hn'. rewrite Hn'.
  destruct (scriptint_loop 7 _ []) as [w top] eqn:Hl.
  apply scriptint_loop_spec in Hl as (u & -> & Habs & Htop); [|cbn; lia].
  exists u, top. cbn zeta. split_and!; [done|lia..|]. cbn [app].
  rewrite land_80 by lia.
  destruct (N.leb_spec 128 top); [left|right]; (split; [done|]); cbn [negb N.eqb]; [done|].
  f_equal. f_equal. f_equal. destruct (n <? 0)%Z; [by apply lor_80|by rewrite N.lor_0_r, N.add_0_r].
Qed.

Lemma top_bit_pow k : 2 ^ (8 * N.of_nat (S k) - 1) = 128 * 256 ^ N.of_nat k.
Proof.
  rewrite Nat2N.inj_succ. replace (8 * N.succ (N.of_nat k) - 1) with (7 + 8 * N.of_nat k) by lia.
  by rewrite N.pow_add_r, pow256.
Qed.

(** The sign is read off the last byte. *)
Lemma scriptint_value_snoc u x :
  scriptint_value (u ++ [x]) =
  let p := 256 ^ N.of_nat (length u) in
  if 128 <=? Byte.to_N x then (- Z.of_N (le_value u + p * (Byte.to_N x - 128)))%Z
  else Z.of_N (le_value u + p * Byte.to_N x).
Proof.
  unfold scriptint_value. rewrite le_value_app, length_app, Nat.add_1_r, top_bit_pow.
  cbn [le_value]. rewrite N.mul_0_r, N.add_0_r. cbv zeta.
  pose proof (le_value_lt u) as Hu. set (p := 256 ^ N.of_nat (length u)) in *.
  destruct (u ++ [x]) eqn:Hnil; [by destruct u|]. clear Hnil.
  destruct (N.leb_spec 128 (Byte.to_N x)) as [Hx|Hx].
  - assert (128 * p <=? le_value u + p * Byte.to_N x = true) as -> by (apply N.leb_le; nia).
    do 2 f_equal. nia.
  - assert (128 * p <=? le_value u + p * Byte.to_N x = false) as -> by (apply N.leb_gt; nia).
    done.
Qed.

(** [k] bytes hold the numbers below [2^(8k-1)] in magnitude. *)
Lemma scriptint_value_bound k b :
  (1 <= length b <= k)%nat → (Z.abs (scriptint_value b) < 2 ^ (8 * Z.of_nat k - 1))%Z.
Proof.
  intros Hb. destruct b as [|x b _] using rev_ind; [simpl in *; lia|].
  rewrite length_app in Hb. simpl in Hb. rewrite scriptint_value_snoc. cbv zeta.
  pose proof (le_value_lt b) as Hu. pose proof (Byte.to_N_bounded x).
  assert (Z.of_N (128 * 256 ^ N.of_nat (length b)) <= 2 ^ (8 * Z.of_nat k - 1))%Z as Hle.
  { rewrite <-top_bit_pow, N2Z.inj_pow. apply Z.pow_le_mono_r; lia. }
  set (p := 256 ^ N.of_nat (length b)) in *.
  destruct (N.leb_spec 128 (Byte.to_N x)).
  - assert (le_value b + p * (Byte.to_N x - 128) < 128 * p) by nia. lia.
  - assert (le_value b + p * Byte.to_N x < 128 * p) by nia. lia.
Qed.

Lemma build_scriptint_length k n :
  (1 <= k <= 8)%nat → (Z.abs n < 2 ^ (8 * Z.of_nat k - 1))%Z → (length (build_scriptint n) <= k)%nat.
Proof.
  intros Hk Hn. destruct (decide (n = 0)%Z) as [->|Hz]; [simpl; lia|].
  assert (2 ^ (8 * Z.of_nat k - 1) <= 2 ^ 63)%Z by (apply Z.pow_le_mono_r; lia).
  destruct (build_scriptint_shape n) as (u & top & Habs & Htop & Hshape); [done|lia|].
  assert (∀ j, 2 ^ j <= Z.to_N (Z.abs n) → j < 8 * N.of_nat k - 1) as Hpow.
  { intros j Hj. apply (N.pow_lt_mono_r_iff 2); [lia|].
    assert (2 ^ (8 * N.of_nat k - 1) = Z.to_N (2 ^ (8 * Z.of_nat k - 1))) as ->; [|lia].
    rewrite Z2N.inj_pow by lia. f_equal. lia. }
  destruct Hshape as [[Hge ->]|[Hlt ->]]; rewrite length_app; cbn [length].
  - specialize (Hpow (8 * N.of_nat (S (length u)) - 1)). rewrite top_bit_pow in Hpow.
    assert (8 * N.of_nat (S (length u)) - 1 < 8 * N.of_nat k - 1) by (apply Hpow; nia). lia.
  - specialize (Hpow (8 * N.of_nat (length u))). rewrite <-pow256 in Hpow.
    assert (8 * N.of_nat (length u) < 8 * N.of_nat k - 1) by (apply Hpow; nia). lia.
Qed.

Lemma scriptint_value_build n :
  (Z.abs n < 2 ^ 63)%Z → scriptint_value (build_scriptint n) = n.
Proof.
  intros Hn. destruct (decide (n = 0)%Z) as [->|Hz]; [done|].
  destruct (build_scriptint_shape n) as (u & top & Habs & Htop & Hshape); [done..|].
  destruct Hshape as [[Hge ->]|[Hlt ->]].
  - replace (u ++ [byte_of_N top; byte_of_N (if (n <? 0)%Z then 0x80 else 0)])
      with ((u ++ [byte_of_N top]) ++ [byte_of_N (if (n <? 0)%Z then 0x80 else 0)])
      by (by rewrite <-app_assoc).
    rewrite scriptint_value_snoc, le_value_app, !byte_of_N_to_N. cbn [le_value]. cbv zeta.
    rewrite byte_of_N_to_N, (N.mod_small top) by lia.
    destruct (Z.ltb_spec n 0);
      [change (128 mod 256) with 128; change (128 <=? 128) with true
      |change (0 mod 256) with 0; change (128 <=? 0) with false]; cbv iota;
      rewrite ?N.sub_diag, !N.mul_0_r, !N.add_0_r; lia.
  - rewrite scriptint_value_snoc, !byte_of_N_to_N. cbv zeta.
    destruct (Z.ltb_spec n 0); rewrite N.mod_small by lia.
    + assert (128 <=? top + 128 = true) as -> by (apply N.leb_le; lia).
      replace (top + 128 - 128) with top by lia. lia.
    + assert (128 <=? top + 0 = false) as -> by (apply N.leb_gt; lia). rewrite N.add_0_r. lia.
Qed.

(** Round trip of script integers: decoding [build_scriptint n] as a
    little-endian sign-magnitude number gives back [n], for every [n] whose
    magnitude fits in 63 bits. *)
Theorem scriptint_roundtrip n :
  (Z.abs n < 2 ^ 63)%Z → scriptint_value (build_scriptint n) = n.
Proof. apply scriptint_value_build. Qed.

Lemma script_num_size_build n :
  n < 2 ^ 39 →
  script_num_size n =
  if n <=? 16 then 1%nat else S (length (build_scriptint (Z.of_N n))).
Proof.
  intros Hn. unfold script_num_size. destruct (N.leb_spec n 16) as [H16|H16]; [done|].
  destruct (build_scriptint_shape (Z.of_N n)) as (u & top & Habs & Htop & Hshape);
    [lia|lia|].
  replace (Z.to_N (Z.abs (Z.of_N n))) with n in Habs by lia.
  assert ((Z.of_N n <? 0)%Z = false) as Hs by (apply Z.ltb_ge; lia). rewrite Hs in Hshape.
  pose proof (le_value_lt u) as Hu.
  assert (length u < 5)%nat as Hlen.
  { apply Nat.nle_gt. intros Hle.
    assert (256 ^ 5 <= 256 ^ N.of_nat (length u)) by (apply N.pow_le_mono_r; lia).
    assert (256 ^ 5 = 2 ^ 40) by done. assert (2 ^ 40 = 2 * 2 ^ 39) by done. nia. }
  destruct Hshape as [[Hge ->]|[Hlt ->]]; rewrite length_app; cbn [length];
    destruct (length u) as [|[|[|[|[|k]]]]]; try (exfalso; lia); cbn -[N.ltb le_value] in *;
    repeat match goal with |- context [n <? ?k] => destruct (N.ltb_spec n k) end; lia.
Qed.

(** [script_num_size] is the size of the push of a number up to 2^39: one byte
    for the numbers that have an opcode, and one byte more than the encoding of
    [build_scriptint] otherwise. *)
Theorem script_num_size_scriptint n :
  n < 2 ^ 39 →
  script_num_size n =
  if n <=? 16 then 1%nat else S (length (build_scriptint (Z.of_N n))).
Proof. apply script_num_size_build. Qed.

Lemma scriptint_roundtrip_witness :
  (Z.abs (-300) < 2 ^ 63)%Z ∧ scriptint_value (build_scriptint (-300)) = (-300)%Z.
Proof. split; [done|]. apply (scriptint_roundtrip (-300)). done. Defined.

Lemma script_num_size_scriptint_witness :
  65535 < 2 ^ 39 ∧ script_num_size 65535 = 4%nat.
Proof.
  split; [done|].
  exact (script_num_size_scriptint 65535 eq_refl).
Defined.
