(* ===== verification/Script.v ===== *)
(** * From Miniscript to script: [encode] and [script_size] of
      [src/miniscript/astelem.rs], key pushes of [src/util.rs]

    The script builder and the key types are third-party code: classes with the
    documented behaviour as laws, and a concrete builder (a list of instructions) for
    which the laws hold. *)

From S2P Require Import Prelude Types Extension Instances Property Ast Examples Tokens Context ScriptNum.
From S2P Require ExtraProps.
Import ExtraProps(script_num_size).

(** ** Interfaces *)

(** Public keys of the [bitcoin] crate and the hash of a serialized key. *)
Class BitcoinKeys : Type := {
  PublicKey : Type;
  XOnlyPublicKey : Type;
  pubkey_bytes : PublicKey → bytes;
  pubkey_hash : PublicKey → hash_n 20;
  xonly_serialize : XOnlyPublicKey → bytes;
  PubkeyHash_hash : bytes → hash_n 20;
}.

(** [ToPublicKey] *)
Class ToPublicKey (Pk : Type) `{MiniscriptKey Pk} `{BitcoinKeys} : Type := {
  to_public_key : Pk → PublicKey;
  to_x_only_pubkey : Pk → XOnlyPublicKey;
  to_sha256 : Sha256T → hash_n 32;
  to_hash256 : Hash256T → hash_n 32;
  to_ripemd160 : Ripemd160T → hash_n 20;
  to_hash160 : Hash160T → hash_n 20;
}.

(** Serialized keys have 33 or 65 bytes, x-only keys 32. *)
Class ToPublicKeyOk (Pk : Type) `{ToPublicKey Pk} : Prop := {
  pubkey_bytes_length : ∀ k : Pk,
    length (pubkey_bytes (to_public_key k)) = if is_uncompressed k then 65 else 33;
  xonly_length : ∀ k : Pk, length (xonly_serialize (to_x_only_pubkey k)) = 32;
}.

(** [script::Builder], [Script] and [read_scriptint] of the [elements] crate. *)
Class ScriptBuilder `{BitcoinKeys} : Type := {
  Builder : Type;
  Script : Type;
  builder_new : Builder;
  push_opcode : Builder → opcode → Builder;
  push_int : Builder → Z → Builder;
  push_slice : Builder → bytes → Builder;
  push_key : Builder → PublicKey → Builder;
  push_verify : Builder → Builder;
  into_script : Builder → Script;
  script_bytes : Script → bytes;
  instructions_minimal : Script → list (result ScriptError Instruction);
  read_scriptint : bytes → result ScriptError Z;
}.

(** *** Documented behaviour *)

(** [push_int] of a number: an opcode, or the minimal push of its encoding. *)
Definition pushnum (n : N) : opcode :=
  match n with
  | 1 => OP_PUSHNUM_1 | 2 => OP_PUSHNUM_2 | 3 => OP_PUSHNUM_3 | 4 => OP_PUSHNUM_4
  | 5 => OP_PUSHNUM_5 | 6 => OP_PUSHNUM_6 | 7 => OP_PUSHNUM_7 | 8 => OP_PUSHNUM_8
  | 9 => OP_PUSHNUM_9 | 10 => OP_PUSHNUM_10 | 11 => OP_PUSHNUM_11 | 12 => OP_PUSHNUM_12
  | 13 => OP_PUSHNUM_13 | 14 => OP_PUSHNUM_14 | 15 => OP_PUSHNUM_15 | _ => OP_PUSHNUM_16
  end%N.

Definition num_instr (n : N) : Instruction :=
  if (n =? 0)%N then PushBytes []
  else if (n <=? 16)%N then Op (pushnum n)
  else PushBytes (build_scriptint (Z.of_N n)).

(** The opcodes [push_verify] merges with. *)
Definition verify_version (op : opcode) : option opcode :=
  match op with
  | OP_EQUAL => Some OP_EQUALVERIFY
  | OP_NUMEQUAL => Some OP_NUMEQUALVERIFY
  | OP_CHECKSIG => Some OP_CHECKSIGVERIFY
  | OP_CHECKMULTISIG => Some OP_CHECKMULTISIGVERIFY
  | OP_CHECKSIGFROMSTACK => Some OP_CHECKSIGFROMSTACKVERIFY
  | _ => None
  end.

Definition instr_verify (i : Instruction) : option opcode :=
  match i with Op op => verify_version op | PushBytes _ => None end.

Definition add_verify (l : list Instruction) : list Instruction :=
  match rev l with
  | i :: l' => match instr_verify i with
               | Some op => rev l' ++ [Op op]
               | None => l ++ [Op OP_VERIFY]
               end
  | [] => [Op OP_VERIFY]
  end.

(** The opcodes [instructions] reports as [Op]; [OP_PUSHBYTES_0] is an empty push. *)
Definition opcode_instr (op : opcode) : Instruction :=
  match op with OP_PUSHBYTES_0 => PushBytes [] | op => Op op end.

(** The opcodes the source names: a byte of [OP_OTHER] could be a push. *)
Definition op_named (op : opcode) : bool := match op with OP_OTHER _ => false | _ => true end.

(** The length of an instruction: opcode, length bytes and data. *)
Definition push_opcode_size (n : nat) : nat :=
  let n := N.of_nat n in
  if (n <? 76)%N then 1 else if (n <? 0x100)%N then 2 else if (n <? 0x10000)%N then 3 else 5.
Definition instr_size (i : Instruction) : nat :=
  match i with
  | PushBytes b => push_opcode_size (length b) + length b
  | Op _ => 1
  end.
Definition instrs_size (l : list Instruction) : nat := sum_list (instr_size <$> l).

Section laws.
Context `{ScriptBuilder}.

(** The instructions of the script built so far. *)
Definition has_instrs (b : Builder) (l : list Instruction) : Prop :=
  instructions_minimal (into_script b) = Ok <$> l.

(** Each [push_*] appends one instruction; a slice of at least two bytes (and less than
    four gigabytes) and an encoded number are minimal pushes. *)
Class ScriptBuilderOk : Prop := {
  has_new : has_instrs builder_new [];
  has_push_opcode b l op : op_named op → has_instrs b l →
    has_instrs (push_opcode b op) (l ++ [opcode_instr op]);
  has_push_int b l n : has_instrs b l → (n < 2 ^ 63)%N →
    has_instrs (push_int b (Z.of_N n)) (l ++ [num_instr n]);
  has_push_slice b l s : has_instrs b l → 2 ≤ length s → (N.of_nat (length s) < 2 ^ 32)%N →
    has_instrs (push_slice b s) (l ++ [PushBytes s]);
  has_push_key b l k : has_instrs b l → 2 ≤ length (pubkey_bytes k) ≤ 65 →
    has_instrs (push_key b k) (l ++ [PushBytes (pubkey_bytes k)]);
  has_push_verify b l : has_instrs b l → has_instrs (push_verify b) (add_verify l);
  (** [OP_PUSHBYTES_0] is reported as an empty push *)
  instructions_no_op0 s : Ok (Op OP_PUSHBYTES_0) ∉ instructions_minimal s;
  (** reading a script or a number does not panic *)
  instructions_no_panic s : Panic ∉ instructions_minimal s;
  read_scriptint_no_panic b : read_scriptint b ≠ Panic;
  script_bytes_size s l : instructions_minimal s = Ok <$> l →
    length (script_bytes s) = instrs_size l;
  (** the bytes after the opcode of a pushed number *)
  push_int_tail n : (n < 2 ^ 63)%N →
    drop 1 (script_bytes (into_script (push_int builder_new (Z.of_N n)))) =
    match num_instr n with PushBytes b => b | Op _ => [] end;
  (** numbers of at most four bytes are read back, longer ones refused *)
  read_scriptint_ok b v : read_scriptint b = Ok v → (Z.abs v < 2 ^ 31)%Z;
  read_scriptint_build v : (Z.abs v < 2 ^ 31)%Z → read_scriptint (build_scriptint v) = Ok v;
}.
End laws.

(** ** Extensions that can be encoded: [ParseableExt] *)

Class ParseableExt (Ext : Type) `{Extension Ext} `{ScriptBuilder} : Type := {
  push_to_builder : Ext → Builder → result Error Builder;
  (** the parser and the tokens it leaves *)
  from_token_iter : TokenIter → option Ext * TokenIter;
}.

(** Whether a script ends in an opcode that has a VERIFY version. *)
Definition ends_free_verify (l : list Instruction) : bool :=
  match rev l with
  | i :: _ => bool_decide (is_Some (instr_verify i))
  | [] => false
  end.

(** What the encoder relies on: an extension whose numbers are in range
    ([ext_encodable]) appends its instructions, and one that is [ext_measured] has the
    size and the free VERIFY it says it has. *)
Class ParseableExtOk (Ext : Type) `{ParseableExt Ext} : Type := {
  ext_instrs : Ext → list Instruction;
  ext_encodable : Ext → Prop;
  ext_measured : Ext → Prop;
  has_push_ext : ∀ e b l, ext_encodable e → has_instrs b l →
    ∃ b', push_to_builder e b = Ok b' ∧ has_instrs b' (l ++ ext_instrs e);
  ext_instrs_size : ∀ e, ext_measured e → instrs_size (ext_instrs e) = ext_script_size e;
  ext_instrs_free_verify : ∀ e, ext_measured e →
    ends_free_verify (ext_instrs e) = has_free_verify (extra_prop e);
  ext_instrs_nonempty : ∀ e, ext_instrs e ≠ [];
}.

#[export] Instance NoExt_ParseableExt `{ScriptBuilder} : ParseableExt NoExt := {|
  push_to_builder (e : NoExt) := match e with end;
  from_token_iter tokens := (None, tokens);
|}.
#[export] Instance NoExt_ParseableExtOk `{ScriptBuilder} : ParseableExtOk NoExt.
Proof. unshelve econstructor; (by intros []) || exact (λ _, True). Defined.

(** ** The encoder *)

Section encode.
Context {Pk : Type} `{MiniscriptKey Pk} `{BitcoinKeys} `{!ToPublicKey Pk} `{!ScriptBuilder}.
Context {Ext : Type} `{!Extension Ext} `{!ParseableExt Ext}.
Context (ctx : ScriptContext).
Implicit Types ms : Miniscript Pk Ext.

(** [MsKeyBuilder] *)
Definition push_ms_key (b : Builder) (key : Pk) : Builder :=
  match sig_type ctx with
  | Ecdsa => push_key b (to_public_key key)
  | Schnorr => push_slice b (xonly_serialize (to_x_only_pubkey key))
  end.

Definition push_ms_key_hash (b : Builder) (key : Pk) : Builder :=
  match sig_type ctx with
  | Ecdsa => push_slice b (hash_bytes (pubkey_hash (to_public_key key)))
  | Schnorr =>
      push_slice b (hash_bytes (PubkeyHash_hash (xonly_serialize (to_x_only_pubkey key))))
  end.

(** The prefix of the four hash fragments. *)
Definition push_hash_check (b : Builder) (op : opcode) (h : bytes) : Builder :=
  push_opcode (push_slice (push_opcode (push_opcode (push_int (push_opcode b OP_SIZE) 32)
    OP_EQUALVERIFY) op) h) OP_EQUAL.

Definition push_pkh (b : Builder) : Builder := push_opcode (push_opcode b OP_DUP) OP_HASH160.

(** The arms of [multi] and [multi_a]: each first asserts the signature type of the
    context. *)
Definition push_multi (b : Builder) (k : nat) (keys : list Pk) : result Error Builder :=
  let? _ := debug_assert (bool_decide (sig_type ctx = Ecdsa)) in
  let b := push_int b (Z.of_nat k) in
  let b := fold_left (λ b pk, push_key b (to_public_key pk)) keys b in
  Ok (push_opcode (push_int b (Z.of_nat (length keys))) OP_CHECKMULTISIG).

Definition push_multi_a (b : Builder) (k : nat) (keys : list Pk) : result Error Builder :=
  let? _ := debug_assert (bool_decide (sig_type ctx = Schnorr)) in
  match keys with
  | [] => Panic
  | key :: rest =>
      let b := push_opcode (push_ms_key b key) OP_CHECKSIG in
      let b := fold_left (λ b pk, push_opcode (push_ms_key b pk) OP_CHECKSIGADD) rest b in
      Ok (push_opcode (push_int b (Z.of_nat k)) OP_NUMEQUAL)
  end.

(** [Terminal::encode] on the node of a Miniscript; [Panic] is the index [subs[0]] or
    [keys[0]] out of range, or a failed assertion of [multi] and [multi_a]. *)
Fixpoint push_astelem ms (b : Builder) {struct ms} : result Error Builder :=
  let '(MkMs t _ _) := ms in
  match t with
  | PkK pk => Ok (push_ms_key b pk)
  | PkH pk => Ok (push_opcode (push_ms_key_hash (push_pkh b) pk) OP_EQUALVERIFY)
  | RawPkH hash => Ok (push_opcode (push_slice (push_pkh b) (hash_bytes hash)) OP_EQUALVERIFY)
  | After t => Ok (push_opcode (push_int b (Z.of_N t)) OP_CLTV)
  | Older t => Ok (push_opcode (push_int b (Z.of_N t)) OP_CSV)
  | Sha256 h => Ok (push_hash_check b OP_SHA256 (hash_bytes (to_sha256 h)))
  | Hash256 h => Ok (push_hash_check b OP_HASH256 (hash_bytes (to_hash256 h)))
  | Ripemd160 h => Ok (push_hash_check b OP_RIPEMD160 (hash_bytes (to_ripemd160 h)))
  | Hash160 h => Ok (push_hash_check b OP_HASH160 (hash_bytes (to_hash160 h)))
  | TTrue => Ok (push_opcode b OP_PUSHNUM_1)
  | TFalse => Ok (push_opcode b OP_PUSHBYTES_0)
  | Alt sub =>
      let? b := push_astelem sub (push_opcode b OP_TOALTSTACK) in
      Ok (push_opcode b OP_FROMALTSTACK)
  | Swap sub => push_astelem sub (push_opcode b OP_SWAP)
  | Check sub =>
      let? b := push_astelem sub b in
      Ok (push_opcode b OP_CHECKSIG)
  | DupIf sub =>
      let? b := push_astelem sub (push_opcode (push_opcode b OP_DUP) OP_IF) in
      Ok (push_opcode b OP_ENDIF)
  | Verify sub =>
      let? b := push_astelem sub b in
      Ok (push_verify b)
  | NonZero sub =>
      let? b := push_astelem sub
                  (push_opcode (push_opcode (push_opcode b OP_SIZE) OP_0NOTEQUAL) OP_IF) in
      Ok (push_opcode b OP_ENDIF)
  | ZeroNotEqual sub =>
      let? b := push_astelem sub b in
      Ok (push_opcode b OP_0NOTEQUAL)
  | AndV l r =>
      let? b := push_astelem l b in
      push_astelem r b
  | AndB l r =>
      let? b := push_astelem l b in
      let? b := push_astelem r b in
      Ok (push_opcode b OP_BOOLAND)
  | AndOr x y z =>
      let? b := push_astelem x b in
      let? b := push_astelem z (push_opcode b OP_NOTIF) in
      let? b := push_astelem y (push_opcode b OP_ELSE) in
      Ok (push_opcode b OP_ENDIF)
  | OrB l r =>
      let? b := push_astelem l b in
      let? b := push_astelem r b in
      Ok (push_opcode b OP_BOOLOR)
  | OrD l r =>
      let? b := push_astelem l b in
      let? b := push_astelem r (push_opcode (push_opcode b OP_IFDUP) OP_NOTIF) in
      Ok (push_opcode b OP_ENDIF)
  | OrC l r =>
      let? b := push_astelem l b in
      let? b := push_astelem r (push_opcode b OP_NOTIF) in
      Ok (push_opcode b OP_ENDIF)
  | OrI l r =>
      let? b := push_astelem l (push_opcode b OP_IF) in
      let? b := push_astelem r (push_opcode b OP_ELSE) in
      Ok (push_opcode b OP_ENDIF)
  | Thresh k subs =>
      match subs with
      | [] => Panic
      | s0 :: rest =>
          let? b := push_astelem s0 b in
          let? b := (fix go (subs : list (Miniscript Pk Ext)) (b : Builder) :=
                       match subs with
                       | [] => Ok b
                       | s :: subs =>
                           let? b := push_astelem s b in
                           go subs (push_opcode b OP_ADD)
                       end) rest b in
          Ok (push_opcode (push_int b (Z.of_nat k)) OP_EQUAL)
      end
  | Multi k keys => push_multi b k keys
  | MultiA k keys => push_multi_a b k keys
  | ExtT e => push_to_builder e b
  end.

(** [Miniscript::encode] *)
Definition encode ms : result Error Script :=
  let? b := push_astelem ms builder_new in
  Ok (into_script b).

(** ** [script_size] *)

Fixpoint sum_pk_len (pks : list Pk) : result Error nat :=
  match pks with
  | [] => Ok 0
  | k :: pks =>
      let? n := pk_len ctx k in
      let? m := sum_pk_len pks in
      Ok (n + m)
  end.

Fixpoint script_size ms : result Error nat :=
  let '(MkMs t _ _) := ms in
  match t with
  | PkK pk => pk_len ctx pk
  | PkH _ | RawPkH _ => Ok 24
  | After n => Ok (script_num_size n + 1)
  | Older n => Ok (script_num_size n + 1)
  | Sha256 _ => Ok (33 + 6)
  | Hash256 _ => Ok (33 + 6)
  | Ripemd160 _ => Ok (21 + 6)
  | Hash160 _ => Ok (21 + 6)
  | TTrue => Ok 1
  | TFalse => Ok 1
  | Alt sub => let? s := script_size sub in Ok (s + 2)
  | Swap sub => let? s := script_size sub in Ok (s + 1)
  | Check sub => let? s := script_size sub in Ok (s + 1)
  | DupIf sub => let? s := script_size sub in Ok (s + 3)
  | Verify sub =>
      let? s := script_size sub in
      Ok (s + (if negb (has_free_verify (ext sub)) then 1 else 0))
  | NonZero sub => let? s := script_size sub in Ok (s + 4)
  | ZeroNotEqual sub => let? s := script_size sub in Ok (s + 1)
  | AndV l r => let? x := script_size l in let? y := script_size r in Ok (x + y)
  | AndB l r => let? x := script_size l in let? y := script_size r in Ok (x + y + 1)
  | AndOr a b c =>
      let? x := script_size a in
      let? y := script_size b in
      let? z := script_size c in
      Ok (x + y + z + 3)
  | OrB l r => let? x := script_size l in let? y := script_size r in Ok (x + y + 1)
  | OrD l r => let? x := script_size l in let? y := script_size r in Ok (x + y + 3)
  | OrC l r => let? x := script_size l in let? y := script_size r in Ok (x + y + 2)
  | OrI l r => let? x := script_size l in let? y := script_size r in Ok (x + y + 3)
  | Thresh k subs =>
      match subs with
      | [] => Panic
      | _ =>
          let? s := (fix go (subs : list (Miniscript Pk Ext)) : result Error nat :=
                       match subs with
                       | [] => Ok 0
                       | s :: subs =>
                           let? x := script_size s in
                           let? y := go subs in
                           Ok (x + y)
                       end) subs in
          Ok (script_num_size (N.of_nat k) + 1 + s + length subs - 1)
      end
  | Multi k pks =>
      let? s := sum_pk_len pks in
      Ok (script_num_size (N.of_nat k) + 1 + script_num_size (N.of_nat (length pks)) + s)
  | MultiA k pks =>
      let? s := sum_pk_len pks in
      Ok (script_num_size (N.of_nat k) + 1 + s + length pks)
  | ExtT e => Ok (ext_script_size e)
  end.
End encode.

(** ** The bytes of a script

    The consensus serialization of script instructions, which the laws of the script
    templates refer to: opcodes are bytes, a push has the shortest header for its
    length. *)

(** Consensus values of the opcodes. *)
Definition opcode_byte (op : opcode) : N :=
  match op with
  | OP_PUSHNUM_NEG1 => 0x4f | OP_PUSHBYTES_0 => 0x00
  | OP_PUSHNUM_1 => 0x51 | OP_PUSHNUM_2 => 0x52 | OP_PUSHNUM_3 => 0x53 | OP_PUSHNUM_4 => 0x54
  | OP_PUSHNUM_5 => 0x55 | OP_PUSHNUM_6 => 0x56 | OP_PUSHNUM_7 => 0x57 | OP_PUSHNUM_8 => 0x58
  | OP_PUSHNUM_9 => 0x59 | OP_PUSHNUM_10 => 0x5a | OP_PUSHNUM_11 => 0x5b
  | OP_PUSHNUM_12 => 0x5c | OP_PUSHNUM_13 => 0x5d | OP_PUSHNUM_14 => 0x5e
  | OP_PUSHNUM_15 => 0x5f | OP_PUSHNUM_16 => 0x60
  | OP_BOOLAND => 0x9a | OP_BOOLOR => 0x9b | OP_EQUAL => 0x87 | OP_EQUALVERIFY => 0x88
  | OP_NUMEQUAL => 0x9c | OP_NUMEQUALVERIFY => 0x9d | OP_CHECKSIG => 0xac
  | OP_CHECKSIGVERIFY => 0xad | OP_CHECKSIGADD => 0xba | OP_CHECKSIGFROMSTACK => 0xc1
  | OP_CHECKSIGFROMSTACKVERIFY => 0xc2 | OP_CHECKMULTISIG => 0xae
  | OP_CHECKMULTISIGVERIFY => 0xaf | OP_CSV => 0xb2 | OP_CLTV => 0xb1
  | OP_FROMALTSTACK => 0x6c | OP_TOALTSTACK => 0x6b | OP_LEFT => 0x80 | OP_2DUP => 0x6e
  | OP_CAT => 0x7e | OP_CODESEPARATOR => 0xab | OP_OVER => 0x78 | OP_NIP => 0x77
  | OP_PICK => 0x79 | OP_DROP => 0x75 | OP_DEPTH => 0x74 | OP_DUP => 0x76 | OP_ADD => 0x93
  | OP_SUB => 0x94 | OP_IF => 0x63 | OP_IFDUP => 0x73 | OP_NOTIF => 0x64 | OP_ELSE => 0x67
  | OP_ENDIF => 0x68 | OP_0NOTEQUAL => 0x92 | OP_SIZE => 0x82 | OP_SWAP => 0x7c
  | OP_VERIFY => 0x69 | OP_RIPEMD160 => 0xa6 | OP_HASH160 => 0xa9 | OP_SHA256 => 0xa8
  | OP_HASH256 => 0xaa | OP_INSPECTINPUTASSET => 0xc8 | OP_INSPECTINPUTVALUE => 0xc9
  | OP_INSPECTINPUTSCRIPTPUBKEY => 0xca | OP_INSPECTINPUTISSUANCE => 0xcc
  | OP_PUSHCURRENTINPUTINDEX => 0xcd | OP_INSPECTOUTPUTASSET => 0xce
  | OP_INSPECTOUTPUTVALUE => 0xcf | OP_INSPECTOUTPUTSCRIPTPUBKEY => 0xd1
  | OP_ADD64 => 0xd7 | OP_SUB64 => 0xd8 | OP_MUL64 => 0xd9 | OP_DIV64 => 0xda
  | OP_NEG64 => 0xdb | OP_LESSTHAN64 => 0xdc | OP_LESSTHANOREQUAL64 => 0xdd
  | OP_GREATERTHAN64 => 0xde | OP_GREATERTHANOREQUAL64 => 0xdf
  | OP_AND => 0x84 | OP_OR => 0x85 | OP_XOR => 0x86 | OP_INVERT => 0x83
  | OP_SCRIPTNUMTOLE64 => 0xe0 | OP_LE64TOSCRIPTNUM => 0xe1
  | OP_OTHER n => Byte.to_N n
  end%N.

Fixpoint le_bytes (k : nat) (n : N) : bytes :=
  match k with O => [] | S k => byte_of_N n :: le_bytes k (n / 256) end.

(** The push opcode with its length bytes. *)
Definition push_header (n : nat) : bytes :=
  let len := N.of_nat n in
  if (len <? 76)%N then [byte_of_N len]
  else if (len <? 0x100)%N then byte_of_N 0x4c :: le_bytes 1 len
  else if (len <? 0x10000)%N then byte_of_N 0x4d :: le_bytes 2 len
  else byte_of_N 0x4e :: le_bytes 4 len.

Definition instr_bytes (i : Instruction) : bytes :=
  match i with
  | Op op => [byte_of_N (opcode_byte op)]
  | PushBytes b => push_header (length b) ++ b
  end.

Definition instrs_bytes (l : list Instruction) : bytes := concat (map instr_bytes l).

Lemma instr_bytes_length i : length (instr_bytes i) = instr_size i.
Proof.
  destruct i as [b|]; [|done]. cbn [instr_bytes instr_size]. rewrite length_app. f_equal.
  unfold push_header, push_opcode_size. by repeat case_match.
Qed.

Lemma instrs_bytes_length l : length (instrs_bytes l) = instrs_size l.
Proof.
  unfold instrs_bytes. induction l as [|i l IH]; [done|]. cbn [map concat].
  by rewrite length_app, IH, instr_bytes_length.
Qed.
