(* ===== verification/Encoding.v ===== *)
(** * Correctness of the encoder and of [script_size]

    The instructions a Miniscript stands for, as a specification; [encode] produces
    exactly them, never panics on a well-typed Miniscript, and [script_size] is the
    length of the result; [pk_cost] bounds it. *)

From S2P Require Import Prelude Types Extension Instances Property Ast Examples Iter Tokens Context ScriptNum Script Typing Resources.
From S2P Require ExtraProps.
Import ExtraProps(script_num_size).

(** ** Lists of instructions *)

Lemma instrs_size_app l1 l2 : instrs_size (l1 ++ l2) = instrs_size l1 + instrs_size l2.
Proof. unfold instrs_size. by rewrite fmap_app, sum_list_with_app. Qed.

Lemma instrs_size_cons i l : instrs_size (i :: l) = instr_size i + instrs_size l.
Proof. done. Qed.

Lemma instrs_size_nil : instrs_size [] = 0.
Proof. done. Qed.

Create HintDb isize.
#[export] Hint Rewrite instrs_size_app instrs_size_cons instrs_size_nil : isize.

Lemma rev_nonempty {A} (l : list A) : l ≠ [] → ∃ x l', rev l = x :: l' ∧ l = rev l' ++ [x].
Proof.
  intros Hl. destruct (rev l) as [|x l'] eqn:Hr.
  - destruct Hl. rewrite <-(rev_involutive l). by rewrite Hr.
  - exists x, l'. split; [done|]. rewrite <-(rev_involutive l). by rewrite Hr.
Qed.

Lemma app_ne_l {A} (l1 l2 : list A) : l1 ≠ [] → l1 ++ l2 ≠ [].
Proof. by destruct l1. Qed.
Lemma app_ne_r {A} (l1 l2 : list A) : l2 ≠ [] → l1 ++ l2 ≠ [].
Proof. by destruct l1. Qed.

(** Merging a VERIFY looks at the last instruction only. *)
Lemma add_verify_app l f : f ≠ [] → add_verify (l ++ f) = l ++ add_verify f.
Proof.
  intros (x & f' & Hr & _)%rev_nonempty. unfold add_verify.
  rewrite rev_app_distr, Hr. cbn. destruct (instr_verify x).
  - by rewrite rev_app_distr, rev_involutive, <-app_assoc.
  - by rewrite <-app_assoc.
Qed.

Lemma add_verify_nonempty l : add_verify l ≠ [].
Proof.
  unfold add_verify. destruct (rev l) as [|i l']; [done|].
  destruct (instr_verify i); [by destruct (rev l')|by destruct l].
Qed.

Lemma add_verify_size l :
  l ≠ [] →
  instrs_size (add_verify l) = instrs_size l + (if negb (ends_free_verify l) then 1 else 0).
Proof.
  intros (x & l' & Hr & Hl)%rev_nonempty. unfold add_verify, ends_free_verify. rewrite Hr.
  destruct x as [b|op]; cbn [instr_verify].
  - rewrite bool_decide_eq_false_2 by (by intros [? ?]). autorewrite with isize. done.
  - destruct (verify_version op) eqn:Hv.
    + rewrite bool_decide_eq_true_2 by done. rewrite Hl. autorewrite with isize. cbn. lia.
    + rewrite bool_decide_eq_false_2 by (by intros [? ?]). autorewrite with isize. done.
Qed.

Lemma ends_free_verify_snoc l i :
  ends_free_verify (l ++ [i]) = bool_decide (is_Some (instr_verify i)).
Proof. unfold ends_free_verify. by rewrite rev_app_distr. Qed.

Lemma ends_free_verify_app l f :
  f ≠ [] → ends_free_verify (l ++ f) = ends_free_verify f.
Proof.
  intros (x & f' & Hr & _)%rev_nonempty. unfold ends_free_verify.
  by rewrite rev_app_distr, Hr.
Qed.

Lemma ends_free_verify_add_verify l : ends_free_verify (add_verify l) = false.
Proof.
  unfold add_verify. destruct (rev l) as [|i l']; [done|].
  destruct (instr_verify i) as [op|] eqn:Hi; rewrite ends_free_verify_snoc; [|done].
  destruct i as [|[]]; simplify_eq/=; done.
Qed.

(** ** The script of a Miniscript *)

Section spec.
Context {Pk : Type} `{MiniscriptKey Pk} `{BitcoinKeys} `{!ToPublicKey Pk} `{!ScriptBuilder}.
Context {Ext : Type} `{!Extension Ext} `{!ParseableExt Ext} `{!ParseableExtOk Ext}.
Context (ctx : ScriptContext).
Implicit Types ms : Miniscript Pk Ext.

Definition key_push (k : Pk) : bytes :=
  match sig_type ctx with
  | Ecdsa => pubkey_bytes (to_public_key k)
  | Schnorr => xonly_serialize (to_x_only_pubkey k)
  end.

Definition key_hash (k : Pk) : hash_n 20 :=
  match sig_type ctx with
  | Ecdsa => pubkey_hash (to_public_key k)
  | Schnorr => PubkeyHash_hash (xonly_serialize (to_x_only_pubkey k))
  end.

Definition hash_instrs (op : opcode) (h : bytes) : list Instruction :=
  [Op OP_SIZE; num_instr 32; Op OP_EQUALVERIFY; Op op; PushBytes h; Op OP_EQUAL].

Definition count_instr (n : nat) : Instruction := num_instr (N.of_nat n).

Fixpoint instrs ms : list Instruction :=
  let '(MkMs t _ _) := ms in
  match t with
  | TTrue => [Op OP_PUSHNUM_1]
  | TFalse => [PushBytes []]
  | PkK k => [PushBytes (key_push k)]
  | PkH k => [Op OP_DUP; Op OP_HASH160; PushBytes (hash_bytes (key_hash k)); Op OP_EQUALVERIFY]
  | RawPkH h => [Op OP_DUP; Op OP_HASH160; PushBytes (hash_bytes h); Op OP_EQUALVERIFY]
  | After t => [num_instr t; Op OP_CLTV]
  | Older t => [num_instr t; Op OP_CSV]
  | Sha256 h => hash_instrs OP_SHA256 (hash_bytes (to_sha256 h))
  | Hash256 h => hash_instrs OP_HASH256 (hash_bytes (to_hash256 h))
  | Ripemd160 h => hash_instrs OP_RIPEMD160 (hash_bytes (to_ripemd160 h))
  | Hash160 h => hash_instrs OP_HASH160 (hash_bytes (to_hash160 h))
  | Alt s => [Op OP_TOALTSTACK] ++ instrs s ++ [Op OP_FROMALTSTACK]
  | Swap s => [Op OP_SWAP] ++ instrs s
  | Check s => instrs s ++ [Op OP_CHECKSIG]
  | DupIf s => [Op OP_DUP; Op OP_IF] ++ instrs s ++ [Op OP_ENDIF]
  | Verify s => add_verify (instrs s)
  | NonZero s => [Op OP_SIZE; Op OP_0NOTEQUAL; Op OP_IF] ++ instrs s ++ [Op OP_ENDIF]
  | ZeroNotEqual s => instrs s ++ [Op OP_0NOTEQUAL]
  | AndV l r => instrs l ++ instrs r
  | AndB l r => instrs l ++ instrs r ++ [Op OP_BOOLAND]
  | AndOr a b c =>
      instrs a ++ [Op OP_NOTIF] ++ instrs c ++ [Op OP_ELSE] ++ instrs b ++ [Op OP_ENDIF]
  | OrB l r => instrs l ++ instrs r ++ [Op OP_BOOLOR]
  | OrD l r => instrs l ++ [Op OP_IFDUP; Op OP_NOTIF] ++ instrs r ++ [Op OP_ENDIF]
  | OrC l r => instrs l ++ [Op OP_NOTIF] ++ instrs r ++ [Op OP_ENDIF]
  | OrI l r => [Op OP_IF] ++ instrs l ++ [Op OP_ELSE] ++ instrs r ++ [Op OP_ENDIF]
  | Thresh k subs =>
      match subs with
      | [] => []
      | s :: subs =>
          instrs s ++ concat (map (λ s, instrs s ++ [Op OP_ADD]) subs)
          ++ [count_instr k; Op OP_EQUAL]
      end
  | Multi k keys =>
      [count_instr k] ++ map (λ k, PushBytes (pubkey_bytes (to_public_key k))) keys
      ++ [count_instr (length keys); Op OP_CHECKMULTISIG]
  | MultiA k keys =>
      match keys with
      | [] => []
      | key :: keys =>
          [PushBytes (key_push key); Op OP_CHECKSIG]
          ++ concat (map (λ k, [PushBytes (key_push k); Op OP_CHECKSIGADD]) keys)
          ++ [count_instr k; Op OP_NUMEQUAL]
      end
  | ExtT e => ext_instrs e
  end.

(** The ranges of the machine integers in a tree: lock times are [u32], and counts are
    far below the 2^63 that a cast to [i64] would overflow. *)
Definition node_sized (t : Terminal Pk Ext) : Prop :=
  match t with
  | After t | Older t => (t < 2 ^ 32)%N
  | Thresh _ subs => (N.of_nat (length subs) < 2 ^ 39)%N
  | Multi _ keys | MultiA _ keys => (N.of_nat (length keys) < 2 ^ 39)%N
  | ExtT e => ext_encodable e
  | _ => True
  end.

(** The signature type the two multisignature fragments assert of the context. *)
Definition node_signed (t : Terminal Pk Ext) : Prop :=
  match t with
  | Multi _ _ => sig_type ctx = Ecdsa
  | MultiA _ _ => sig_type ctx = Schnorr
  | _ => True
  end.

Lemma allowed_signed t : ctx ≠ NoChecks → node_allowed ctx t → node_signed t.
Proof. unfold node_signed. by destruct ctx, t. Qed.

Definition node_measured (t : Terminal Pk Ext) : Prop :=
  match t with ExtT e => ext_measured e | _ => True end.

Inductive all_nodes (P : Terminal Pk Ext → Prop) : Miniscript Pk Ext → Prop :=
  | all_nodes_node t mty mext :
      P t → Forall (all_nodes P) (children t) → all_nodes P (MkMs t mty mext).

Lemma all_nodes_inv P ms :
  all_nodes P ms → P (node ms) ∧ Forall (all_nodes P) (children (node ms)).
Proof. by inversion 1. Qed.

Lemma all_nodes_all (P : Terminal Pk Ext → Prop) ms : (∀ t, P t) → all_nodes P ms.
Proof.
  intros HP. induction ms as [t mty mext IH] using Miniscript_tree_ind. by constructor.
Qed.

Lemma all_nodes_impl (P R : Terminal Pk Ext → Prop) ms :
  (∀ t, P t → R t) → all_nodes P ms → all_nodes R ms.
Proof.
  intros HPR. induction ms as [t mty mext IH] using Miniscript_tree_ind.
  intros [Ht Hch]%all_nodes_inv. constructor; [by apply HPR|].
  cbn [node] in *. clear -IH Hch. induction IH; inversion_clear Hch; constructor; auto.
Qed.

Lemma nodes_signed ms :
  ctx ≠ NoChecks → all_nodes (node_allowed ctx) ms → all_nodes node_signed ms.
Proof. intros Hctx. apply all_nodes_impl. intros t. by apply allowed_signed. Qed.
End spec.

(** ** The encoder *)

Section encode.
Context {Pk : Type} `{MiniscriptKey Pk} `{BitcoinKeys} `{!ToPublicKey Pk} `{!ToPublicKeyOk Pk}.
Context `{!ScriptBuilder} `{!ScriptBuilderOk} `{LockTimes}.
Context {Ext : Type} `{!Extension Ext} `{!ParseableExt Ext} `{!ParseableExtOk Ext}.
Context (ctx : ScriptContext).
Implicit Types ms : Miniscript Pk Ext.

(** A well-typed threshold or key list has an element. *)
Lemma check_threshold_cons {A B} k (l : list A) (f : unit → result ErrorKind B) t :
  (let? u := check_threshold k (length l) in f u) = Ok t → 1 ≤ k ≤ length l.
Proof. intros (? & Hk%check_threshold_Ok & _)%bind_Ok. done. Qed.

Lemma instrs_nonempty ms : well_typed ctx ms → instrs ctx ms ≠ [].
Proof.
  revert ms. apply well_typed_ind'. intros t mty mext Ht _ _ IH.
  unfold type_check, property_check in Ht.
  destruct t; cbn [children instrs] in *; rewrite ?Forall_cons_iff in IH;
    repeat match goal with IH : _ ∧ _ |- _ => destruct IH end;
    first [done | by apply add_verify_nonempty | by apply ext_instrs_nonempty
          | by apply app_ne_l | by apply app_ne_r | idtac].
  - apply check_threshold_cons in Ht. destruct subs as [|s subs]; [simpl in *; lia|].
    rewrite Forall_cons_iff in IH. destruct IH as [IH _].
    by apply app_ne_l.
  - apply check_threshold_cons in Ht. destruct pks; [simpl in *; lia|done].
Qed.

Lemma instrs_free_verify ms :
  well_typed ctx ms → all_nodes node_measured ms →
  ends_free_verify (instrs ctx ms) = has_free_verify (ext ms).
Proof.
  revert ms. apply (well_typed_ind' ctx (λ ms, all_nodes node_measured ms →
    ends_free_verify (instrs ctx ms) = has_free_verify (ext ms))).
  intros t mty mext Ht He Hch IH [Hmeas Hall]%all_nodes_inv. cbn [node] in *.
  assert (Forall (λ s, instrs ctx s ≠ []) (children t)) as Hne
    by (eapply Forall_impl; [|exact Hch]; apply instrs_nonempty).
  unfold type_check, ext_type_check, property_check in Ht, He.
  destruct t; cbn [children instrs ext] in *; rewrite ?Forall_cons_iff in IH, Hall, Hne;
    repeat match goal with H : _ ∧ _ |- _ => destruct H end;
    repeat match goal with H : all_nodes _ ?s → _, Hs : all_nodes _ ?s |- _ => specialize (H Hs) end;
    try (first [injection He as <-|cbn in He; injection He as <-]; cbn [has_free_verify]);
    rewrite ?app_assoc, ?ends_free_verify_add_verify, ?ends_free_verify_snoc, ?ends_free_verify_app by done; try done.
  - case_match; [done|]. by injection He as <-.
  - case_match; [done|]. by injection He as <-.
  - apply check_threshold_cons in Ht. destruct subs as [|s subs]; [simpl in *; lia|].
    rewrite !ends_free_verify_app by (done || by apply app_ne_r).
    apply bind_Ok in He as (? & _ & He). cbn in He. unfold ExtraProps.threshold in He.
    apply bind_Ok in He as (? & _ & He). by injection He as <-.
  - apply bind_Ok in He as (? & _ & He). by injection He as <-.
  - apply check_threshold_cons in Ht. destruct pks as [|k0 pks]; [simpl in *; lia|].
    rewrite !ends_free_verify_app by (done || by apply app_ne_r).
    apply bind_Ok in He as (? & _ & He). by injection He as <-.
  - by apply ext_instrs_free_verify.
Qed.

(** *** [encode] produces the specified instructions *)

Lemma key_push_length k : 2 ≤ length (key_push ctx k) ≤ 65.
Proof.
  unfold key_push. destruct (sig_type ctx).
  - rewrite pubkey_bytes_length. destruct (is_uncompressed k); lia.
  - rewrite xonly_length. lia.
Qed.
Lemma pubkey_length_2 (k : Pk) : 2 ≤ length (pubkey_bytes (to_public_key k)) ≤ 65.
Proof. rewrite pubkey_bytes_length. destruct (is_uncompressed k); lia. Qed.
Lemma hash_bytes_length {n} (h : hash_n n) : length (hash_bytes h) = n.
Proof. apply Nat.eqb_eq, hash_len. Qed.
Lemma hash_length_2 {n} (h : hash_n n) : 2 ≤ n → 2 ≤ length (hash_bytes h).
Proof. by rewrite hash_bytes_length. Qed.
Lemma hash_length_32 {n} (h : hash_n n) : n ≤ 32 → (N.of_nat (length (hash_bytes h)) < 2 ^ 32)%N.
Proof. rewrite hash_bytes_length. lia. Qed.

Lemma push_ms_key_instrs b l k :
  has_instrs b l → has_instrs (push_ms_key ctx b k) (l ++ [PushBytes (key_push ctx k)]).
Proof.
  intros Hb. pose proof (key_push_length k) as Hk. unfold push_ms_key, key_push in *.
  destruct (sig_type ctx);
    [apply has_push_key, pubkey_length_2|apply has_push_slice]; by auto with lia.
Qed.

Lemma push_ms_key_hash_instrs b l k :
  has_instrs b l →
  has_instrs (push_ms_key_hash ctx b k) (l ++ [PushBytes (hash_bytes (key_hash ctx k))]).
Proof.
  intros Hb. unfold push_ms_key_hash, key_hash.
  destruct (sig_type ctx); apply has_push_slice; auto using hash_length_2, hash_length_32 with lia.
Qed.

Lemma push_count_instrs b l n :
  has_instrs b l → (N.of_nat n < 2 ^ 39)%N →
  has_instrs (push_int b (Z.of_nat n)) (l ++ [count_instr n]).
Proof.
  intros Hb Hn. rewrite <-nat_N_Z. apply has_push_int; [done|].
  assert (2 ^ 39 < 2 ^ 63)%N by done. lia.
Qed.

Lemma has_instrs_eq b l l' : has_instrs b l → l = l' → has_instrs b l'.
Proof. by intros ? <-. Qed.

Lemma push_int_32 b l :
  has_instrs b l → has_instrs (push_int b 32) (l ++ [num_instr 32]).
Proof. intros Hb. change 32%Z with (Z.of_N 32). by apply has_push_int. Qed.

(** Assemble [has_instrs] of a chain of pushes. *)
Ltac build_instrs :=
  repeat first
    [ eassumption
    | eapply has_push_opcode; [done|] | eapply has_push_verify | eapply push_ms_key_instrs
    | eapply push_ms_key_hash_instrs | eapply push_int_32 | eapply push_count_instrs
    | eapply has_push_slice | eapply has_push_int ].
Ltac finish_instrs :=
  eexists; split; [reflexivity|]; eapply has_instrs_eq; [build_instrs|];
  rewrite <-?app_assoc; try done; try (apply hash_length_2; lia); try (apply hash_length_32; lia); try lia.

(** Run the encoder on a child, with the induction hypothesis for it. *)
Ltac run_child :=
  match goal with
  | IH : ∀ b l, has_instrs b l → ∃ b', push_astelem ctx ?s b = Ok b' ∧ _
    |- context [push_astelem ctx ?s ?b] =>
      let b' := fresh "b'" in let Hb' := fresh "Hb'" in let Hr := fresh "Hr" in
      edestruct (IH b) as (b' & Hr & Hb'); [build_instrs|];
      rewrite Hr; cbn [result_bind]; clear Hr IH
  end.

Definition encodes ms : Prop :=
  ∀ b l, has_instrs b l → ∃ b', push_astelem ctx ms b = Ok b' ∧ has_instrs b' (l ++ instrs ctx ms).

Lemma push_keys_instrs (keys : list Pk) b l :
  has_instrs b l →
  has_instrs (fold_left (λ b pk, push_key b (to_public_key pk)) keys b)
    (l ++ map (λ k, PushBytes (pubkey_bytes (to_public_key k))) keys).
Proof.
  revert b l. induction keys as [|k keys IH]; intros b l Hb; cbn [fold_left map].
  { by rewrite app_nil_r. }
  eapply has_instrs_eq; [apply IH, has_push_key; [done|apply pubkey_length_2]|].
  by rewrite <-app_assoc.
Qed.

Lemma push_keys_a_instrs (keys : list Pk) b l :
  has_instrs b l →
  has_instrs (fold_left (λ b pk, push_opcode (push_ms_key ctx b pk) OP_CHECKSIGADD) keys b)
    (l ++ concat (map (λ k, [PushBytes (key_push ctx k); Op OP_CHECKSIGADD]) keys)).
Proof.
  revert b l. induction keys as [|k keys IH]; intros b l Hb; cbn [fold_left map concat].
  { by rewrite app_nil_r. }
  eapply has_instrs_eq; [apply IH; build_instrs|]. by rewrite <-!app_assoc.
Qed.

(** The loop over the remaining children of a threshold. *)
Lemma push_subs_instrs (subs : list (Miniscript Pk Ext)) b l :
  Forall encodes subs → has_instrs b l →
  ∃ b', (fix go (subs : list (Miniscript Pk Ext)) (b : Builder) :=
           match subs with
           | [] => Ok b
           | s :: subs => let? b := push_astelem ctx s b in go subs (push_opcode b OP_ADD)
           end) subs b = Ok b' ∧
        has_instrs b' (l ++ concat (map (λ s, instrs ctx s ++ [Op OP_ADD]) subs)).
Proof.
  intros Hsubs. revert b l. induction Hsubs as [|s subs Hs _ IH]; intros b l Hb.
  { exists b. cbn. by rewrite app_nil_r. }
  destruct (Hs b l Hb) as (b1 & -> & Hb1). cbn [result_bind].
  edestruct IH as (b2 & -> & Hb2); [build_instrs|]. exists b2. split; [done|].
  eapply has_instrs_eq; [exact Hb2|]. cbn. by rewrite <-!app_assoc.
Qed.

Lemma encode_instrs ms :
  well_typed ctx ms → all_nodes node_sized ms → all_nodes (node_signed ctx) ms → encodes ms.
Proof.
  revert ms. apply (well_typed_ind' ctx (λ ms, all_nodes node_sized ms →
    all_nodes (node_signed ctx) ms → encodes ms)).
  intros t mty mext Ht _ Hwt IH [Hsz Hall]%all_nodes_inv [Hsig Hall']%all_nodes_inv b l Hb. cbn [node children] in *.
  assert (Forall encodes (children t)) as Hch.
  { rewrite list.Forall_forall in *. auto. }
  assert (Forall (λ s, instrs ctx s ≠ []) (children t)) as Hne
    by (eapply Forall_impl; [|exact Hwt]; apply instrs_nonempty).
  clear IH Hall Hall' Hwt. unfold type_check, property_check in Ht.
  assert (2 ^ 32 < 2 ^ 63)%N by done.
  destruct t; cbn [children push_astelem instrs node_sized node_signed] in *; rewrite ?Forall_cons_iff in Hch, Hne;
    repeat match goal with H : _ ∧ _ |- _ => destruct H end; unfold encodes in *;
    unfold push_hash_check, push_pkh, hash_instrs; repeat run_child.
  all: lazymatch goal with
       | |- context [push_multi] => idtac
       | |- context [push_multi_a] => idtac
       | |- context [add_verify] => idtac
       | _ => try (by finish_instrs)
       end.
  - eexists; split; [reflexivity|]. rewrite <-add_verify_app by done. by apply has_push_verify.
  - apply check_threshold_cons in Ht. destruct subs as [|s subs]; [simpl in *; lia|].
    rewrite Forall_cons_iff in Hch. destruct Hch as [Hs Hch].
    destruct (Hs b l Hb) as (b1 & -> & Hb1). cbn [result_bind].
    destruct (push_subs_instrs subs b1 _ Hch Hb1) as (b2 & -> & Hb2). cbn [result_bind].
    eexists; split; [reflexivity|]. eapply has_instrs_eq.
    + apply has_push_opcode; [done|]. apply push_count_instrs; [exact Hb2|lia].
    + by rewrite <-!app_assoc.
  - apply check_threshold_cons in Ht. unfold push_multi. rewrite bool_decide_eq_true_2 by done. eexists; split; [reflexivity|].
    eapply has_instrs_eq.
    + apply has_push_opcode; [done|]. apply push_count_instrs; [|exact Hsz].
      apply push_keys_instrs, push_count_instrs; [exact Hb|lia].
    + by rewrite <-!app_assoc.
  - apply check_threshold_cons in Ht. unfold push_multi_a. rewrite bool_decide_eq_true_2 by done.
    destruct pks as [|key pks]; [simpl in *; lia|]. eexists; split; [reflexivity|].
    eapply has_instrs_eq.
    + apply has_push_opcode; [done|]. apply push_count_instrs; [|lia].
      apply push_keys_a_instrs, has_push_opcode; [done|]. apply push_ms_key_instrs, Hb.
    + by rewrite <-!app_assoc.
  - by apply has_push_ext.
Qed.

(** *** Sizes *)

Lemma num_instr_size n : (n < 2 ^ 39)%N → instr_size (num_instr n) = script_num_size n.
Proof.
  intros Hn. rewrite script_num_size_build by done. unfold num_instr.
  destruct (N.eqb_spec n 0) as [->|Hz]; [done|].
  destruct (N.leb_spec n 16); [done|]. cbn [instr_size].
  unfold push_opcode_size. pose proof (script_num_size_build n Hn) as Hs.
  destruct (N.leb_spec n 16); [lia|].
  assert (script_num_size n ≤ 6) by (unfold script_num_size; repeat case_match; lia).
  assert (N.of_nat (length (build_scriptint (Z.of_N n))) < 76)%N as Hlt by lia.
  apply N.ltb_lt in Hlt. by rewrite Hlt.
Qed.

Lemma count_instr_size n :
  (N.of_nat n < 2 ^ 39)%N → instr_size (count_instr n) = script_num_size (N.of_nat n).
Proof. apply num_instr_size. Qed.

Lemma push_size b : length b < 76 → instr_size (PushBytes b) = S (length b).
Proof.
  intros Hb. cbn. unfold push_opcode_size.
  assert (N.of_nat (length b) < 76)%N as Hlt by lia. apply N.ltb_lt in Hlt. by rewrite Hlt.
Qed.

Lemma hash_push_size {n} (h : hash_n n) : n < 76 → instr_size (PushBytes (hash_bytes h)) = S n.
Proof. intros Hn. rewrite push_size; by rewrite hash_bytes_length. Qed.

(** The keys whose serialization has the length [pk_len] assumes. *)
Definition key_sized (k : Pk) : Prop :=
  match ctx with Segwitv0 => is_uncompressed k = false | _ => True end.

Lemma ecdsa_key_size k n :
  sig_type ctx = Ecdsa → key_sized k → pk_len ctx k = Ok n →
  instr_size (PushBytes (pubkey_bytes (to_public_key k))) = n.
Proof.
  intros Hsig Hk. unfold pk_len, key_sized in *.
  rewrite push_size by (rewrite pubkey_bytes_length; destruct (is_uncompressed k); lia).
  rewrite pubkey_bytes_length.
  destruct ctx; try done; destruct (is_uncompressed k); try done; by intros [= <-].
Qed.

Lemma ms_key_size k n :
  key_sized k → pk_len ctx k = Ok n → instr_size (PushBytes (key_push ctx k)) = n.
Proof.
  intros Hk Hn. unfold key_push. destruct (sig_type ctx) eqn:Hsig; [by apply ecdsa_key_size|].
  rewrite push_size; rewrite xonly_length; [|lia].
  destruct ctx; try done. by injection Hn as <-.
Qed.

Lemma sum_pk_len_keys (keys : list Pk) f :
  ctx ≠ NoChecks →
  (∀ k n, k ∈ keys → pk_len ctx k = Ok n → f k = n) →
  sum_pk_len ctx keys = Ok (sum_list (f <$> keys)).
Proof.
  intros Hctx. induction keys as [|k keys IH]; intros Hf; [done|]. cbn [sum_pk_len].
  destruct (pk_len ctx k) as [n| |] eqn:Hn; try by destruct ctx.
  rewrite IH by (intros ? ? ?; apply Hf; by right). cbn.
  by rewrite (Hf k n) by (done || by left).
Qed.

Lemma keys_instrs_size (keys : list Pk) (f : Pk → Instruction) :
  instrs_size (map f keys) = sum_list ((λ k, instr_size (f k)) <$> keys).
Proof. unfold instrs_size. by rewrite <-list_fmap_compose. Qed.

Lemma keys_a_instrs_size (keys : list Pk) :
  instrs_size (concat (map (λ k, [PushBytes (key_push ctx k); Op OP_CHECKSIGADD]) keys))
  = sum_list ((λ k, instr_size (PushBytes (key_push ctx k))) <$> keys) + length keys.
Proof.
  induction keys as [|k keys IH]; [done|]. cbn [map concat app].
  autorewrite with isize. rewrite IH. cbn -[instr_size push_opcode_size].
  change (instr_size (Op OP_CHECKSIGADD)) with 1. lia.
Qed.

(** What the context admits has the key lengths [pk_len] assumes. *)
Lemma allowed_pk_k k : node_allowed ctx (PkK k : Terminal Pk Ext) → key_sized k.
Proof. unfold key_sized. destruct ctx; try done. by intros [? _]. Qed.
Lemma allowed_multi k keys :
  node_allowed ctx (Multi k keys : Terminal Pk Ext) →
  sig_type ctx = Ecdsa ∧ ∀ pk, pk ∈ keys → key_sized pk.
Proof.
  unfold key_sized. destruct ctx; cbn; try done. intros [_ Hall]. split; [done|].
  intros pk Hpk. rewrite list.Forall_forall in Hall. by apply Hall.
Qed.
Lemma allowed_multi_a k keys :
  node_allowed ctx (MultiA k keys : Terminal Pk Ext) → ∀ pk, key_sized pk.
Proof. unfold key_sized. by destruct ctx. Qed.

Definition sizes ms : Prop := script_size ctx ms = Ok (instrs_size (instrs ctx ms)).

Lemma subs_size (subs : list (Miniscript Pk Ext)) :
  Forall sizes subs →
  (fix go (subs : list (Miniscript Pk Ext)) : result Error nat :=
     match subs with
     | [] => Ok 0
     | s :: subs => let? x := script_size ctx s in let? y := go subs in Ok (x + y)
     end) subs = Ok (instrs_size (concat (map (instrs ctx) subs))).
Proof.
  induction 1 as [|s subs Hs _ IH]; [done|]. rewrite Hs. cbn [result_bind].
  rewrite IH. cbn [result_bind map concat]. by autorewrite with isize.
Qed.

Lemma subs_add_size (subs : list (Miniscript Pk Ext)) :
  instrs_size (concat (map (λ s, instrs ctx s ++ [Op OP_ADD]) subs))
  = instrs_size (concat (map (instrs ctx) subs)) + length subs.
Proof.
  induction subs as [|s subs IH]; [done|]. cbn [map concat length].
  autorewrite with isize. rewrite IH. cbn. lia.
Qed.

Lemma script_size_instrs ms :
  ctx ≠ NoChecks → well_typed ctx ms → all_nodes node_sized ms →
  all_nodes (node_allowed ctx) ms → all_nodes node_measured ms → sizes ms.
Proof.
  intros Hctx. revert ms.
  apply (well_typed_ind' ctx (λ ms, all_nodes node_sized ms → all_nodes (node_allowed ctx) ms →
    all_nodes node_measured ms → sizes ms)).
  intros t mty mext Ht _ Hwt IH [Hsz Hall]%all_nodes_inv [Hok Hall']%all_nodes_inv
    [Hmeas Hall'']%all_nodes_inv.
  cbn [node children] in *.
  assert (Forall sizes (children t)) as Hch.
  { rewrite list.Forall_forall in *. auto. }
  assert (Forall (λ s, instrs ctx s ≠ [] ∧
                       ends_free_verify (instrs ctx s) = has_free_verify (ext s)) (children t)) as Hne.
  { rewrite list.Forall_forall in *. intros s Hs.
    split; [|apply instrs_free_verify]; eauto using instrs_nonempty. }
  clear IH Hall Hall' Hall'' Hwt. unfold type_check, property_check in Ht.
  assert (2 ^ 32 < 2 ^ 39)%N by done.
  destruct t; cbn [children node_sized] in *; rewrite ?Forall_cons_iff in Hch, Hne;
    repeat match goal with H : _ ∧ _ |- _ => destruct H end; unfold sizes in *;
    cbn [script_size instrs];
    repeat match goal with Hs : script_size ctx ?s = _ |- _ => rewrite Hs; clear Hs end;
    cbn [result_bind]; unfold hash_instrs;
    rewrite ?add_verify_size by done; autorewrite with isize;
    rewrite ?hash_push_size by lia.
  all: try (f_equal; cbn; lia).
  - destruct (pk_len ctx pk) as [n| |] eqn:Hn; [|by destruct ctx..].
    by rewrite (ms_key_size pk n), Nat.add_0_r by (done || by apply allowed_pk_k).
  - by rewrite num_instr_size by lia.
  - by rewrite num_instr_size by lia.
  - by match goal with H : ends_free_verify _ = _ |- _ => rewrite H end.
  - apply check_threshold_cons in Ht. pose proof (subs_size _ Hch) as Hgo.
    destruct subs as [|s subs]; [simpl in *; lia|]. rewrite Hgo. cbn [result_bind map concat length]. autorewrite with isize.
    rewrite subs_add_size, count_instr_size by (simpl in *; lia). f_equal. cbn. lia.
  - apply check_threshold_cons in Ht. apply allowed_multi in Hok as [Hsig Hkeys].
    rewrite (sum_pk_len_keys pks (λ k, instr_size (PushBytes (pubkey_bytes (to_public_key k))))).
    2:{ done. } 2:{ intros pk n Hpk. by apply ecdsa_key_size, Hkeys. }
    cbn [result_bind]. rewrite keys_instrs_size, !count_instr_size by lia. f_equal. cbn -[instr_size].
    change (instr_size (Op OP_CHECKMULTISIG)) with 1. lia.
  - apply check_threshold_cons in Ht. pose proof (allowed_multi_a _ _ Hok) as Hkeys.
    rewrite (sum_pk_len_keys pks (λ k, instr_size (PushBytes (key_push ctx k)))).
    2:{ done. } 2:{ intros pk n _. apply ms_key_size, Hkeys. }
    cbn [result_bind]. destruct pks as [|key pks]; [simpl in *; lia|].
    autorewrite with isize. rewrite keys_a_instrs_size, count_instr_size by (simpl in *; lia).
    f_equal. cbn [fmap list_fmap sum_list length id].
    change (instr_size (Op OP_CHECKSIG)) with 1. change (instr_size (Op OP_NUMEQUAL)) with 1. lia.
  - by rewrite ext_instrs_size.
Qed.

(** (C16) The encoder: on a well-typed Miniscript whose [multi]s are in an ECDSA context
    and whose [multi_a]s are in a Schnorr context, whose lock times are [u32]s and whose
    counts are below 2^39 and whose extensions can be encoded, [encode] does not panic
    (its debug assertions hold) and the script it builds consists of exactly the
    instructions specified for the fragment, in order, with each [v:] merged into the
    opcode before it where there is a VERIFY version. *)
Theorem encode_correct ms :
  well_typed ctx ms → all_nodes node_sized ms → all_nodes (node_signed ctx) ms →
  ∃ s, encode ctx ms = Ok s ∧ instructions_minimal s = Ok <$> instrs ctx ms.
Proof.
  intros Hwt Hsz Hsig. destruct (encode_instrs ms Hwt Hsz Hsig builder_new []) as (b & Hb & Hi).
  { apply has_new. }
  exists (into_script b). unfold encode. rewrite Hb. by split.
Qed.

(** (C17) [script_size] is exact: in every context but the one without checks, on a
    well-typed Miniscript all of whose nodes the context admits (no uncompressed [pk] key
    or [multi] key under Segwitv0), whose lock times are [u32]s and whose counts are below
    2^39, and whose extensions can be encoded and know the size of their script, it is the
    number of bytes of the encoded script. *)
Theorem script_size_correct ms :
  ctx ≠ NoChecks → well_typed ctx ms → all_nodes node_sized ms →
  all_nodes (node_allowed ctx) ms → all_nodes node_measured ms →
  ∃ s, encode ctx ms = Ok s ∧ script_size ctx ms = Ok (length (script_bytes s)).
Proof.
  intros Hctx Hwt Hsz Hok Hmeas.
  destruct (encode_instrs ms Hwt Hsz (nodes_signed ctx ms Hctx Hok) builder_new []) as (b & Hb & Hi); [apply has_new|].
  exists (into_script b). unfold encode. rewrite Hb. split; [done|].
  rewrite (script_bytes_size _ _ Hi). by apply script_size_instrs.
Qed.
End encode.

(** ** The size estimate [pk_cost] *)

Section cost.
Context {Pk : Type} `{MiniscriptKey Pk} `{LockTimes} {Ext : Type} `{!Extension Ext}.
Context (ctx : ScriptContext).
Implicit Types ms : Miniscript Pk Ext.

(** The keys have the length the estimate assumes, a threshold of [multi] fits one
    byte and one of [multi_a] two. *)
Definition node_estimated (t : Terminal Pk Ext) : Prop :=
  match t with
  | PkK k => is_uncompressed k = false
  | Multi k keys => length keys < 128 ∧ Forall (λ k, is_uncompressed k = false) keys
  | MultiA k keys =>
      sig_type ctx = Schnorr ∧ (N.of_nat k < 2 ^ 15)%N
  | ExtT e => ext_script_size e ≤ pk_cost (extra_prop e)
  | _ => True
  end.

Lemma num_cost_spec k n :
  (N.of_nat k < 2 ^ 15)%N → k ≤ n →
  script_num_size (N.of_nat k) + 1 ≤ ExtraProps.num_cost k n ∧
  (n < 128 → ExtraProps.num_cost k n = script_num_size (N.of_nat k) + script_num_size (N.of_nat n)).
Proof.
  intros Hk Hkn. unfold ExtraProps.num_cost, script_num_size.
  destruct (Nat.ltb_spec 16 k), (Nat.ltb_spec 16 n); split; intros;
    repeat match goal with
    | |- context [(?n <=? ?k)%N] => destruct (N.leb_spec n k)
    | |- context [(?n <? ?k)%N] => destruct (N.ltb_spec n k)
    end; lia.
Qed.

Lemma sum_pk_len_const (keys : list Pk) c :
  (∀ k, k ∈ keys → pk_len ctx k = Ok c) → sum_pk_len ctx keys = Ok (c * length keys).
Proof.
  induction keys as [|k keys IH]; intros Hc; [by rewrite Nat.mul_0_r|]. cbn [sum_pk_len length].
  rewrite (Hc k) by (by left). rewrite IH by (intros; apply Hc; by right). cbn. f_equal. lia.
Qed.

Definition cost_bounds ms : Prop := ∃ n, script_size ctx ms = Ok n ∧ n ≤ pk_cost (ext ms).

Lemma subs_cost (subs : list (Miniscript Pk Ext)) :
  Forall cost_bounds subs →
  ∃ n, (fix go (subs : list (Miniscript Pk Ext)) : result Error nat :=
          match subs with
          | [] => Ok 0
          | s :: subs => let? x := script_size ctx s in let? y := go subs in Ok (x + y)
          end) subs = Ok n ∧ n ≤ sum_list ((λ ms, pk_cost (ext ms)) <$> subs).
Proof.
  induction 1 as [|s subs (x & Hx & Hxle) _ (y & Hy & Hyle)]; [by exists 0|].
  rewrite Hx. cbn [result_bind]. rewrite Hy. cbn. eexists; split; [done|]. lia.
Qed.

(** A key of the estimated length. *)
Lemma pk_len_compressed k :
  ctx ≠ NoChecks → is_uncompressed k = false →
  pk_len ctx k = Ok (match sig_type ctx with Ecdsa => 34 | Schnorr => 33 end).
Proof. intros Hctx Hk. unfold pk_len. destruct ctx; cbn; rewrite ?Hk; done. Qed.

Lemma pk_len_schnorr k : sig_type ctx = Schnorr → pk_len ctx k = Ok 33.
Proof. by destruct ctx. Qed.

(** A chain of children: their sizes and costs. *)
Ltac open_costs :=
  repeat match goal with
  | Hc : cost_bounds _ |- _ => destruct Hc as (? & ? & ?)
  | Hs : script_size ctx ?s = _ |- context [script_size ctx ?s] =>
      rewrite Hs; cbn [result_bind]
  end.

Lemma script_size_cost `{!ExtensionResourcesOk Ext} ms :
  ctx ≠ NoChecks → well_typed ctx ms → all_nodes node_estimated ms → cost_bounds ms.
Proof.
  intros Hctx. revert ms.
  apply (well_typed_ind' ctx (λ ms, all_nodes node_estimated ms → cost_bounds ms)).
  intros t mty mext Ht He Hwt IH [Hest Hall]%all_nodes_inv. cbn [node children] in *.
  assert (Forall cost_bounds (children t)) as Hch
    by (clear -IH Hall; induction IH; inversion_clear Hall; constructor; auto).
  assert (well_typed ctx (MkMs t mty mext)) as Hms by by constructor.
  clear IH Hall Hwt. unfold type_check, ext_type_check, property_check in Ht, He.
  destruct t; cbn [children node_estimated] in *; rewrite ?Forall_cons_iff in Hch;
    repeat match goal with H : _ ∧ _ |- _ => destruct H end; unfold cost_bounds;
    cbn [script_size ext]; open_costs;
    try (first [injection He as <-|cbn in He; injection He as <-]; eexists; split; [reflexivity|];
         cbn; (lia || (case_match; lia))).
  - injection He as <-. rewrite pk_len_compressed by done. eexists; split; [done|]. cbn.
    by destruct (sig_type ctx).
  - case_match; [done|]. injection He as <-. by eexists.
  - case_match; [done|]. injection He as <-. by eexists.
  - cbn in He. injection He as <-. eexists; split; [done|]. cbn.
    destruct (has_free_verify (ext sub)); cbn; lia.
  - apply well_typed_thresh in Hms as (Hk & _ & _ & _ & ->).
    destruct (subs_cost subs Hch) as (n & Hn & Hle).
    destruct subs as [|s subs]; [simpl in *; lia|].
    rewrite Hn. cbn [result_bind]. eexists; split; [done|]. lia.
  - apply bind_Ok in He as (? & Hk & He). apply check_threshold_Ok in Hk. injection He as <-.
    rewrite (sum_pk_len_const pks (match sig_type ctx with Ecdsa => 34 | Schnorr => 33 end)).
    2:{ intros pk Hpk. apply pk_len_compressed; [done|].
        match goal with Hc : Forall _ pks |- _ => rewrite list.Forall_forall in Hc; by apply Hc end. }
    cbn [result_bind]. eexists; split; [done|]. cbn -[Nat.mul].
    assert (2 ^ 15 = 32768)%N by done.
    destruct (num_cost_spec k (length pks)) as [_ Hnc]; [lia..|]. rewrite Hnc by lia.
    destruct (sig_type ctx); lia.
  - apply bind_Ok in He as (? & Hk & He). apply check_threshold_Ok in Hk. injection He as <-.
    rewrite (sum_pk_len_const pks 33) by (intros; by apply pk_len_schnorr).
    cbn [result_bind]. eexists; split; [done|]. cbn -[Nat.mul].
    destruct (num_cost_spec k (length pks)) as [Hle _]; [lia..|]. lia.
Qed.

(** [pk_cost], the estimate the size limits are checked against, is an upper
    bound on the script size: on a well-typed Miniscript with compressed keys, at most
    127 keys in a [multi] and a threshold below 2^15 in a [multi_a] (under Schnorr
    signatures), [script_size] does not exceed it. *)
Theorem pk_cost_bound `{!ExtensionResourcesOk Ext} ms :
  ctx ≠ NoChecks → well_typed ctx ms → all_nodes node_estimated ms →
  ∃ n, script_size ctx ms = Ok n ∧ n ≤ pk_cost (ext ms).
Proof. apply script_size_cost. Qed.
End cost.
