(* ===== verification/Builder.v ===== *)
(** * A concrete script builder

    The script as its list of instructions, for which every law assumed of the
    script builder holds; keys and hashes are
    padded to their length with the index of the demonstration key. *)

From S2P Require Import Prelude Types Extension Instances Property Ast Examples Typing Resources Iter Tokens Context ScriptNum Script Encoding.
From S2P Require ExtraProps.

Definition pad (n : nat) (k : nat) : bytes := repeat (byte_of_N (N.of_nat k)) n.

Lemma pad_len n k : (length (pad n k) =? n) = true.
Proof. unfold pad. by rewrite repeat_length, Nat.eqb_refl. Qed.

Definition pad_hash (n k : nat) : hash_n n := MkHash (pad n k) (pad_len n k).

(** A hash function: the first byte of the input, repeated. *)
Definition demo_hash (b : bytes) : hash_n 20 :=
  pad_hash 20 (match b with x :: _ => N.to_nat (Byte.to_N x) | [] => 0 end).

#[export] Instance demo_BitcoinKeys : BitcoinKeys := {|
  PublicKey := Byte.byte * bool;
  XOnlyPublicKey := Byte.byte;
  pubkey_bytes k := repeat k.1 (if k.2 then 33 else 65);
  pubkey_hash k := demo_hash (repeat k.1 33);
  xonly_serialize k := repeat k 32;
  PubkeyHash_hash := demo_hash;
|}.

Definition key_index (k : DemoKey) : nat :=
  match k with Compressed n | Uncompressed n | XOnly n => n end.

#[export] Instance demo_ToPublicKey : ToPublicKey DemoKey := {|
  to_public_key k := (byte_of_N (N.of_nat (key_index k)), negb (is_uncompressed k));
  to_x_only_pubkey k := byte_of_N (N.of_nat (key_index k));
  to_sha256 h := h;
  to_hash256 h := h;
  to_ripemd160 h := h;
  to_hash160 h := h;
|}.

#[export] Instance demo_ToPublicKeyOk : ToPublicKeyOk DemoKey.
Proof. split; intros []; done. Qed.

Definition int_instr (z : Z) : Instruction :=
  if (z =? -1)%Z then Op OP_PUSHNUM_NEG1
  else if (z <? 0)%Z then PushBytes (build_scriptint z)
  else num_instr (Z.to_N z).

Definition demo_read_scriptint (b : bytes) : result ScriptError Z :=
  if 4 <? length b then Err NumericOverflow
  else if bool_decide (build_scriptint (scriptint_value b) = b) then Ok (scriptint_value b)
  else Err NonMinimalPush.

(** [instructions] reports [OP_PUSHBYTES_0] as an empty push. *)
Definition norm_instr (i : Instruction) : Instruction :=
  match i with Op op => opcode_instr op | PushBytes b => PushBytes b end.

#[export] Instance demo_ScriptBuilder : ScriptBuilder := {|
  Builder := list Instruction;
  Script := list Instruction;
  builder_new := [];
  push_opcode b op := b ++ [opcode_instr op];
  push_int b z := b ++ [int_instr z];
  push_slice b s := b ++ [PushBytes s];
  push_key b k := b ++ [PushBytes (pubkey_bytes k)];
  push_verify := add_verify;
  into_script b := b;
  script_bytes := instrs_bytes;
  instructions_minimal l := Ok <$> (norm_instr <$> l);
  read_scriptint := demo_read_scriptint;
|}.

(** ** The laws *)

Lemma int_instr_num n : int_instr (Z.of_N n) = num_instr n.
Proof.
  unfold int_instr. rewrite (proj2 (Z.eqb_neq _ _)) by lia.
  rewrite (proj2 (Z.ltb_ge _ _)) by lia. by rewrite N2Z.id.
Qed.

Lemma num_instr_tail n :
  (n < 2 ^ 63)%N →
  drop 1 (instr_bytes (num_instr n)) = match num_instr n with PushBytes b => b | Op _ => [] end.
Proof.
  intros Hn. unfold num_instr. destruct (n =? 0)%N; [done|]. destruct (n <=? 16)%N; [done|].
  cbn [instr_bytes]. unfold push_header.
  assert (length (build_scriptint (Z.of_N n)) ≤ 8) as Hl
    by (apply build_scriptint_length; [lia|]; change (2 ^ (8 * Z.of_nat 8 - 1))%Z with (Z.of_N (2 ^ 63)); lia).
  assert (N.of_nat (length (build_scriptint (Z.of_N n))) < 76)%N as Hlt by lia.
  apply N.ltb_lt in Hlt. by rewrite Hlt.
Qed.

Lemma fmap_Ok_inj (l1 l2 : list Instruction) :
  Ok (E := ScriptError) <$> l1 = Ok <$> l2 → l1 = l2.
Proof.
  revert l2. induction l1 as [|i l1 IH]; intros [|j l2]; try done.
  cbn. intros [= -> Hb]. f_equal. by apply IH.
Qed.

Lemma demo_has_instrs (b l : list Instruction) : has_instrs b l ↔ l = norm_instr <$> b.
Proof. unfold has_instrs. cbn. split; [by intros ?%fmap_Ok_inj|by intros ->]. Qed.

Lemma norm_opcode op : norm_instr (opcode_instr op) = opcode_instr op.
Proof. by destruct op. Qed.

Lemma norm_num n : norm_instr (num_instr n) = num_instr n.
Proof. unfold num_instr, pushnum. repeat case_match; done. Qed.

Lemma norm_size l : instrs_size (norm_instr <$> l) = instrs_size l.
Proof.
  induction l as [|i l IH]; [done|]. rewrite fmap_cons, !instrs_size_cons, IH. f_equal.
  by destruct i as [|[]].
Qed.

Lemma norm_add_verify l : norm_instr <$> add_verify l = add_verify (norm_instr <$> l).
Proof.
  unfold add_verify.
  assert (rev (norm_instr <$> l) = norm_instr <$> rev l) as -> by (symmetry; apply map_rev).
  destruct (rev l) as [|i l'] eqn:Hr; [done|]. rewrite fmap_cons.
  assert (instr_verify (norm_instr i) = instr_verify i) as -> by (by destruct i as [|[]]).
  destruct (instr_verify i) as [op|] eqn:Hi; rewrite fmap_app; [|done].
  assert (rev (norm_instr <$> l') = norm_instr <$> rev l') as -> by (symmetry; apply map_rev).
  destruct i as [|[]]; simplify_eq/=; done.
Qed.

Lemma demo_push (b l : list Instruction) i j :
  norm_instr i = j → has_instrs b l → has_instrs (b ++ [i]) (l ++ [j]).
Proof. rewrite !demo_has_instrs. intros <- ->. by rewrite fmap_app. Qed.

#[export] Instance demo_ScriptBuilderOk : ScriptBuilderOk.
Proof.
  split.
  - by apply demo_has_instrs.
  - intros b l op _. apply demo_push, norm_opcode.
  - intros b l n Hb _. cbn. rewrite int_instr_num. by apply demo_push; [apply norm_num|].
  - intros b l s Hb _ _. by apply demo_push.
  - intros b l k Hb _. by apply demo_push.
  - intros b l ->%demo_has_instrs. apply demo_has_instrs. by rewrite <-norm_add_verify.
  - intros s. cbn. intros (i & [= Hi] & (j & -> & Hj)%list_elem_of_fmap)%list_elem_of_fmap.
    by destruct j as [|[]].
  - intros s. cbn. by intros (i & [= Hi] & _)%list_elem_of_fmap.
  - intros b. cbn. unfold demo_read_scriptint. by repeat case_match.
  - intros s l Hs%fmap_Ok_inj. rewrite <-Hs, norm_size. apply instrs_bytes_length.
  - intros n Hn. cbn -[drop]. rewrite int_instr_num, app_nil_r. by apply num_instr_tail.
  - intros b v. cbn. unfold demo_read_scriptint. destruct (Nat.ltb_spec 4 (length b)); [done|].
    case_bool_decide; [|done]. intros [= <-].
    destruct b as [|x b]; [done|]. by apply (scriptint_value_bound 4); simpl in *; lia.
  - intros v Hv. cbn. unfold demo_read_scriptint.
    assert (length (build_scriptint v) ≤ 4) as Hl by (by apply build_scriptint_length; [lia|]).
    destruct (Nat.ltb_spec 4 (length (build_scriptint v))); [lia|].
    rewrite scriptint_value_build by lia. by rewrite bool_decide_eq_true_2.
Qed.

(** ** The encoder on sample Miniscripts *)

Ltac build_nodes :=
  repeat (apply all_nodes_node; [vm_compute; repeat constructor; (lia || done)
         |repeat apply Forall_cons_2; try apply Forall_nil_2]).

Lemma encode_correct_witness :
  well_typed Segwitv0 (ms_andor Segwitv0) ∧ all_nodes node_sized (ms_andor Segwitv0) ∧
  ∃ s, encode Segwitv0 (ms_andor Segwitv0) = Ok s ∧
       instructions_minimal s = Ok <$> instrs Segwitv0 (ms_andor Segwitv0).
Proof.
  assert (all_nodes node_sized (ms_andor Segwitv0)) as Hs by build_nodes.
  split_and!; [exact ms_andor_typed|exact Hs|].
  apply (encode_correct Segwitv0 (ms_andor Segwitv0)); [exact ms_andor_typed|exact Hs|build_nodes].
Defined.

Lemma script_size_correct_witness :
  well_typed Segwitv0 (ms_thresh Segwitv0) ∧
  ∃ s, encode Segwitv0 (ms_thresh Segwitv0) = Ok s ∧
       script_size Segwitv0 (ms_thresh Segwitv0) = Ok (length (script_bytes s)).
Proof.
  split; [exact ms_thresh_typed|].
  apply (script_size_correct Segwitv0 (ms_thresh Segwitv0));
    [done|exact ms_thresh_typed|build_nodes..].
Defined.

Lemma pk_cost_bound_witness :
  well_typed Segwitv0 (ms_thresh Segwitv0) ∧
  ∃ n, script_size Segwitv0 (ms_thresh Segwitv0) = Ok n ∧ n ≤ pk_cost (ext (ms_thresh Segwitv0)).
Proof.
  split; [exact ms_thresh_typed|].
  apply (pk_cost_bound Segwitv0 (ms_thresh Segwitv0)); [done|exact ms_thresh_typed|build_nodes].
Defined.

(** Without compressed keys the estimate is too low: fifteen uncompressed keys under
    P2SH pass the 520 byte limit with a script of 993 bytes. *)
Definition ms_uncompressed : Ms := build Legacy (Multi 1 (Uncompressed <$> seq 0 15)).

Lemma legacy_size_underestimated :
  check_global_validity Legacy ms_uncompressed = Ok tt ∧
  pk_cost (ext ms_uncompressed) = 513 ∧ script_size Legacy ms_uncompressed = Ok 993.
Proof. split_and!; vm_compute; reflexivity. Qed.
