(* ===== verification/Lex.v ===== *)
(** * The lexer: [src/miniscript/lex.rs]

    From the instructions of a script to tokens.  The vector [ret] of the source,
    which is read at its end, is kept reversed while it grows. *)

From S2P Require Import Prelude Types Extension Property Ast Tokens ScriptNum Script.

(** [slice_to_u32_le] of [src/util.rs]; the length is asserted. *)
Definition slice_to_u32_le (slice : bytes) : result Error N :=
  if length slice =? 4 then
    Ok (fold_left N.lor (zip_with (λ i x, N.shiftl (Byte.to_N x) (N.of_nat (8 * i)))
          (seq 0 4) slice) 0%N)
  else Panic.

(** When [CAT] is met, the token before a [SWAP] is turned back into a push. *)
Definition process_candidate_push (ret : list Token) : list Token :=
  match ret with
  | TkSwap :: tok :: rest =>
      match tok with
      | TkHash20 x => TkSwap :: TkPush x :: rest
      | TkBytes32 x | TkBytes33 x | TkBytes65 x => TkSwap :: TkPush x :: rest
      | TkNum k => TkSwap :: TkPush (build_scriptint (Z.of_N k)) :: rest
      | _ => ret
      end
  | _ => ret
  end.

Section lex.
Context `{ScriptBuilder}.

(** The bytes a number would be pushed with, for the minimality check. *)
Definition push_int_bytes (v : Z) : bytes :=
  drop 1 (script_bytes (into_script (push_int builder_new v))).

Definition lex_number (bytes : bytes) (ret : list Token) : result Error (list Token) :=
  match read_scriptint bytes with
  | Ok v =>
      if (0 <=? v)%Z then
        if bool_decide (push_int_bytes v = bytes)
        then Ok (TkNum (Z.to_N v mod 2 ^ 32) :: ret)
        else Err (InvalidPush bytes)
      else Ok (TkPush bytes :: ret)
  | Err _ => Ok (TkPush bytes :: ret)
  | Panic => Panic
  end.

Definition lex_push (bytes : bytes) (ret : list Token) : result Error (list Token) :=
  match ret with
  | TkPick :: ret =>
      if length bytes =? 4 then
        let? n := slice_to_u32_le bytes in Ok (TkPickPush4 n :: ret)
      else if length bytes =? 32 then Ok (TkPickPush32 bytes :: ret)
      else Err (InvalidPush bytes)
  | _ =>
      if length bytes =? 8 then Ok (TkBytes8 bytes :: ret)
      else if length bytes =? 20 then Ok (TkHash20 bytes :: ret)
      else if length bytes =? 32 then Ok (TkBytes32 bytes :: ret)
      else if length bytes =? 33 then Ok (TkBytes33 bytes :: ret)
      else if length bytes =? 65 then Ok (TkBytes65 bytes :: ret)
      else lex_number bytes ret
  end.

Definition lex_verify (ret : list Token) : result Error (list Token) :=
  match ret with
  | (TkEqual as op) :: _ | (TkCheckSig as op) :: _ | (TkCheckMultiSig as op) :: _ =>
      Err (NonMinimalVerify op)
  | _ => Ok (TkVerify :: ret)
  end.

(** The tokens of an opcode, in script order; [None] for [VERIFY], [CAT] and opcodes
    outside the subset, which [lex_op] treats. *)
Definition op_tokens (op : opcode) : option (list Token) :=
  match op with
  | OP_BOOLAND => Some [TkBoolAnd]
  | OP_BOOLOR => Some [TkBoolOr]
  | OP_EQUAL => Some [TkEqual]
  | OP_EQUALVERIFY => Some [TkEqual; TkVerify]
  | OP_NUMEQUAL => Some [TkNumEqual]
  | OP_NUMEQUALVERIFY => Some [TkNumEqual; TkVerify]
  | OP_CHECKSIG => Some [TkCheckSig]
  | OP_CHECKSIGFROMSTACK => Some [TkCheckSigFromStack]
  | OP_CHECKSIGFROMSTACKVERIFY => Some [TkCheckSigFromStackVerify]
  | OP_CHECKSIGVERIFY => Some [TkCheckSig; TkVerify]
  | OP_CHECKSIGADD => Some [TkCheckSigAdd]
  | OP_INSPECTINPUTVALUE => Some [TkInpValue]
  | OP_INSPECTOUTPUTVALUE => Some [TkOutValue]
  | OP_INSPECTINPUTASSET => Some [TkInpAsset]
  | OP_INSPECTOUTPUTASSET => Some [TkOutAsset]
  | OP_INSPECTINPUTSCRIPTPUBKEY => Some [TkInpSpk]
  | OP_INSPECTOUTPUTSCRIPTPUBKEY => Some [TkOutSpk]
  | OP_INSPECTINPUTISSUANCE => Some [TkInpIssue]
  | OP_PUSHCURRENTINPUTINDEX => Some [TkCurrInp]
  | OP_ADD64 => Some [TkAdd64]
  | OP_SUB64 => Some [TkSub64]
  | OP_MUL64 => Some [TkMul64]
  | OP_DIV64 => Some [TkDiv64]
  | OP_NEG64 => Some [TkNeg64]
  | OP_GREATERTHAN64 => Some [TkGe64]
  | OP_GREATERTHANOREQUAL64 => Some [TkGeq64]
  | OP_LESSTHAN64 => Some [TkLe64]
  | OP_LESSTHANOREQUAL64 => Some [TkLeq64]
  | OP_AND => Some [TkAnd]
  | OP_OR => Some [TkOr]
  | OP_XOR => Some [TkXor]
  | OP_INVERT => Some [TkInvert]
  | OP_SCRIPTNUMTOLE64 => Some [TkScriptNumToLe64]
  | OP_LE64TOSCRIPTNUM => Some [TkLe64ToScriptNum]
  | OP_CHECKMULTISIG => Some [TkCheckMultiSig]
  | OP_CHECKMULTISIGVERIFY => Some [TkCheckMultiSig; TkVerify]
  | OP_CSV => Some [TkCheckSequenceVerify]
  | OP_CLTV => Some [TkCheckLockTimeVerify]
  | OP_FROMALTSTACK => Some [TkFromAltStack]
  | OP_TOALTSTACK => Some [TkToAltStack]
  | OP_LEFT => Some [TkLeft]
  | OP_2DUP => Some [TkDup2]
  | OP_CODESEPARATOR => Some [TkCodeSep]
  | OP_OVER => Some [TkOver]
  | OP_NIP => Some [TkNip]
  | OP_PICK => Some [TkPick]
  | OP_DROP => Some [TkDrop]
  | OP_DEPTH => Some [TkDepth]
  | OP_DUP => Some [TkDup]
  | OP_ADD => Some [TkAdd]
  | OP_SUB => Some [TkSub]
  | OP_IF => Some [TkIf]
  | OP_IFDUP => Some [TkIfDup]
  | OP_NOTIF => Some [TkNotIf]
  | OP_ELSE => Some [TkElse]
  | OP_ENDIF => Some [TkEndIf]
  | OP_0NOTEQUAL => Some [TkZeroNotEqual]
  | OP_SIZE => Some [TkSize]
  | OP_SWAP => Some [TkSwap]
  | OP_RIPEMD160 => Some [TkRipemd160]
  | OP_HASH160 => Some [TkHash160]
  | OP_SHA256 => Some [TkSha256]
  | OP_HASH256 => Some [TkHash256]
  | OP_PUSHNUM_NEG1 => Some [TkNumNeg1]
  | OP_PUSHBYTES_0 => Some [TkNum 0]
  | OP_PUSHNUM_1 => Some [TkNum 1]
  | OP_PUSHNUM_2 => Some [TkNum 2]
  | OP_PUSHNUM_3 => Some [TkNum 3]
  | OP_PUSHNUM_4 => Some [TkNum 4]
  | OP_PUSHNUM_5 => Some [TkNum 5]
  | OP_PUSHNUM_6 => Some [TkNum 6]
  | OP_PUSHNUM_7 => Some [TkNum 7]
  | OP_PUSHNUM_8 => Some [TkNum 8]
  | OP_PUSHNUM_9 => Some [TkNum 9]
  | OP_PUSHNUM_10 => Some [TkNum 10]
  | OP_PUSHNUM_11 => Some [TkNum 11]
  | OP_PUSHNUM_12 => Some [TkNum 12]
  | OP_PUSHNUM_13 => Some [TkNum 13]
  | OP_PUSHNUM_14 => Some [TkNum 14]
  | OP_PUSHNUM_15 => Some [TkNum 15]
  | OP_PUSHNUM_16 => Some [TkNum 16]
  | OP_VERIFY | OP_CAT | OP_OTHER _ => None
  end%N.

Definition lex_op (op : opcode) (ret : list Token) : result Error (list Token) :=
  match op with
  | OP_VERIFY => lex_verify ret
  | OP_CAT => Ok (TkCat :: process_candidate_push ret)
  | _ =>
      match op_tokens op with
      | Some toks => Ok (rev toks ++ ret)
      | None => Err (InvalidOpcode op)
      end
  end.

Definition lex_instr (ret : list Token) (ins : result ScriptError Instruction)
    : result Error (list Token) :=
  let? ins := map_err ScriptErr ins in
  match ins with
  | Op op => lex_op op ret
  | PushBytes bytes => lex_push bytes ret
  end.

Definition lex (script : Script) : result Error (list Token) :=
  let? ret := try_fold lex_instr [] (instructions_minimal script) in
  Ok (rev ret).
End lex.
