(* ===== verification/Decode.v ===== *)
(** * The decoder: [src/miniscript/decode.rs]

    A shift-reduce parser that reads the tokens of a script from its end.  The two
    stacks of the source are lists whose head is the top; one iteration of its loop is
    [step], and [parse] iterates it. *)

From S2P Require Import Prelude Types Extension Property Ast Tokens Context ScriptNum Script.

(** [ParseableKey]: keys read from a script, and the hash types of [Ctx::Key]. *)
Class ParseableKey (Pk : Type) `{MiniscriptKey Pk} : Type := {
  from_slice : bytes → result KeyParseError Pk;
  of_sha256 : hash_n 32 → Sha256T;
  of_hash256 : hash_n 32 → Hash256T;
  of_ripemd160 : hash_n 20 → Ripemd160T;
  of_hash160 : hash_n 20 → Hash160T;
}.

Inductive NonTerm : Type :=
  | NtExpression | NtWExpression | NtSwap | NtMaybeAndV | NtAlt | NtCheck | NtDupIf
  | NtVerify | NtNonZero | NtZeroNotEqual | NtAndV | NtAndB | NtTern | NtOrB | NtOrD | NtOrC
  | NtThreshW (k n : nat)
  | NtThreshE (k n : nat)
  (** could be or_d, or_c, or_i, d:, n: *)
  | NtEndIf
  (** could be or_d, or_c *)
  | NtEndIfNotIf
  (** could be or_i or tern *)
  | NtEndIfElse.

Definition is_and_v (tokens : TokenIter) : bool :=
  match peek tokens with
  | None | Some TkIf | Some TkNotIf | Some TkElse | Some TkToAltStack | Some TkSwap => false
  | Some _ => true
  end.

(** *** [match_token!]

    The macro commits to the arm whose first pattern matches; what is left of that arm
    must then match too.  [unexpected] is the failure of a match on the next token,
    [match_tokens] the constant tail of an arm. *)
Definition unexpected (tokens : TokenIter) : Error :=
  match tokens with tok :: _ => Unexpected tok | [] => UnexpectedStart end.

Fixpoint match_tokens (toks : list Token) (tokens : TokenIter) : result Error TokenIter :=
  match toks with
  | [] => Ok tokens
  | t :: toks =>
      match tokens with
      | t' :: tokens' =>
          if bool_decide (t' = t) then match_tokens toks tokens' else Err (unexpected tokens)
      | [] => Err (unexpected tokens)
      end
  end.

Section decode.
Context {Pk : Type} `{MiniscriptKey Pk} `{!ParseableKey Pk} `{LockTimes}.
Context {Ext : Type} `{BitcoinKeys} `{!ScriptBuilder} `{!Extension Ext} `{!ParseableExt Ext}.
Context (ctx : ScriptContext).

(** [TerminalStack]; a [pop] of an empty stack is unwrapped, which panics. *)
Definition TerminalStack : Type := list (Miniscript Pk Ext).

Definition reduce0 (term : TerminalStack) (ms : Terminal Pk Ext)
    : result Error TerminalStack :=
  let? ty := map_err TypeCheck (type_check ctx ms) in
  let? ext := map_err TypeCheck (ext_type_check ctx ms) in
  let ms := MkMs ms ty ext in
  let? _ := map_err ContextError (check_global_validity ctx ms) in
  Ok (ms :: term).

Definition reduce1 (term : TerminalStack) (wrap : Miniscript Pk Ext → Terminal Pk Ext)
    : result Error TerminalStack :=
  match term with
  | top :: term => reduce0 term (wrap top)
  | _ => Panic
  end.

Definition reduce2 (term : TerminalStack)
    (wrap : Miniscript Pk Ext → Miniscript Pk Ext → Terminal Pk Ext)
    : result Error TerminalStack :=
  match term with
  | l :: r :: term => reduce0 term (wrap l r)
  | _ => Panic
  end.

(** The reduction of [Tern], which skips the check of the context. *)
Definition reduce_tern (term : TerminalStack) : result Error TerminalStack :=
  match term with
  | a :: b :: c :: term =>
      let ms := AndOr a c b in
      let? ty := map_err TypeCheck (type_check ctx ms) in
      let? ext := map_err TypeCheck (ext_type_check ctx ms) in
      Ok (MkMs ms ty ext :: term)
  | _ => Panic
  end.

(** The [n] children popped by [ThreshE], in the order they are pushed to [subs]. *)
Definition pop_n (n : nat) (term : TerminalStack) : result Error (TerminalStack * TerminalStack) :=
  if n <=? length term then Ok (take n term, drop n term) else Panic.

(** The state of the loop. *)
Record Parser : Type := MkParser {
  non_term : list NonTerm;
  term : TerminalStack;
  tokens : TokenIter;
}.

Definition parse_key (pk : bytes) : result Error Pk :=
  map_err (λ e, PubKeyCtxError e (name_str ctx)) (from_slice pk).

(** [Hash::from_slice(hash).expect("valid size")] *)
Definition hash_expect (n : nat) (hash : bytes) : result Error (hash_n n) :=
  unwrap (hash_from_slice n hash).

(** [keys] is kept in the order of the script: the source pushes and reverses. *)
Fixpoint multi_keys (n : nat) (tokens : TokenIter) (keys : list Pk)
    : result Error (list Pk * TokenIter) :=
  match n with
  | O => Ok (keys, tokens)
  | S n =>
      match tokens with
      | TkBytes33 pk :: tokens | TkBytes65 pk :: tokens =>
          let? key := parse_key pk in multi_keys n tokens (key :: keys)
      | _ => Err (unexpected tokens)
      end
  end.

Fixpoint multi_a_keys (tokens : TokenIter) (keys : list Pk) {struct tokens}
    : result Error (list Pk * TokenIter) :=
  match tokens with
  | TkCheckSigAdd :: tokens =>
      match tokens with
      | TkBytes32 pk :: tokens =>
          let? key := parse_key pk in multi_a_keys tokens (key :: keys)
      | _ => Err (unexpected tokens)
      end
  | TkCheckSig :: tokens =>
      match tokens with
      | TkBytes32 pk :: tokens => let? key := parse_key pk in Ok (key :: keys, tokens)
      | _ => Err (unexpected tokens)
      end
  | _ => Err (unexpected tokens)
  end.

(** [term.reduce0(..)?] after which the loop goes on. *)
Definition reduce0_to (nt : list NonTerm) (ter : TerminalStack) (ts : TokenIter)
    (ms : Terminal Pk Ext) : result Error Parser :=
  let? ter := reduce0 ter ms in Ok (MkParser nt ter ts).

Definition hash_tail : list Token := [TkVerify; TkEqual; TkNum 32; TkSize].

(** A hash fragment, after the token of the hash function. *)
Definition reduce_hash (nt : list NonTerm) (ter : TerminalStack) (n : nat) (hash : bytes)
    (wrap : hash_n n → Terminal Pk Ext) (ts : TokenIter) : result Error Parser :=
  let? ts := match_tokens hash_tail ts in
  let? h := hash_expect n hash in
  reduce0_to nt ter ts (wrap h).

(** The hash fragments met after [EQUAL]. *)
Definition hash32_fragment nt ter hash (ts : TokenIter) : result Error Parser :=
  match ts with
  | TkSha256 :: ts => reduce_hash nt ter 32 hash (λ h, Sha256 (of_sha256 h)) ts
  | TkHash256 :: ts => reduce_hash nt ter 32 hash (λ h, Hash256 (of_hash256 h)) ts
  | _ => Err (unexpected ts)
  end.

Definition hash20_fragment nt ter hash (ts : TokenIter) : result Error Parser :=
  match ts with
  | TkRipemd160 :: ts => reduce_hash nt ter 20 hash (λ h, Ripemd160 (of_ripemd160 h)) ts
  | TkHash160 :: ts => reduce_hash nt ter 20 hash (λ h, Hash160 (of_hash160 h)) ts
  | _ => Err (unexpected ts)
  end.

(** The [Hash20] arm after [VERIFY] and [EQUAL], where a public key hash is possible. *)
Definition verify_hash20 nt ter hash (ts : TokenIter) : result Error Parser :=
  match ts with
  | TkHash160 :: ts' =>
      match ts' with
      | TkDup :: ts'' =>
          let? h := hash_expect 20 hash in
          reduce0_to nt ter ts'' (RawPkH h)
      | TkVerify :: ts'' =>
          let? ts'' := match_tokens (drop 1 hash_tail) ts'' in
          let? h := hash_expect 20 hash in
          reduce0_to (NtVerify :: nt) ter ts'' (Hash160 (of_hash160 h))
      | _ => Err (unexpected ts')
      end
  | TkRipemd160 :: ts =>
      reduce_hash (NtVerify :: nt) ter 20 hash (λ h, Ripemd160 (of_ripemd160 h)) ts
  | _ => Err (unexpected ts)
  end.

(** The [VERIFY] arm of an expression. *)
Definition verify_arm nt ter (ts : TokenIter) : result Error Parser :=
  match ts with
  | TkEqual :: ts' =>
      match ts' with
      | TkHash20 hash :: ts => verify_hash20 nt ter hash ts
      | TkBytes32 hash :: ts => hash32_fragment (NtVerify :: nt) ter hash ts
      | TkNum k :: ts => Ok (MkParser (NtThreshW (N.to_nat k) 0 :: NtVerify :: nt) ter ts)
      | x :: ts =>
          Ok (MkParser (NtExpression :: NtVerify :: nt) ter
                (un_next (un_next ts x) TkEqual))
      | [] => Err (unexpected ts')
      end
  | x :: ts => Ok (MkParser (NtExpression :: NtVerify :: nt) ter (un_next ts x))
  | [] => Err (unexpected ts)
  end.

(** The [EQUAL] arm. *)
Definition equal_arm nt ter (ts : TokenIter) : result Error Parser :=
  match ts with
  | TkBytes32 hash :: ts => hash32_fragment nt ter hash ts
  | TkHash20 hash :: ts => hash20_fragment nt ter hash ts
  | TkNum k :: ts => Ok (MkParser (NtThreshW (N.to_nat k) 0 :: nt) ter ts)
  | _ => Err (unexpected ts)
  end.

Definition multi_arm nt ter (ts : TokenIter) : result Error Parser :=
  match ts with
  | TkNum n :: ts =>
      if (N.of_nat MAX_PUBKEYS_PER_MULTISIG <? n)%N then Err (CmsTooManyKeys n)
      else
        let? (keys, ts) := multi_keys (N.to_nat n) ts [] in
        match ts with
        | TkNum k :: ts => reduce0_to nt ter ts (Multi (N.to_nat k) keys)
        | _ => Err (unexpected ts)
        end
  | _ => Err (unexpected ts)
  end.

Definition multi_a_arm nt ter (ts : TokenIter) : result Error Parser :=
  match ts with
  | TkNum k :: ts =>
      if (MAX_BLOCK_WEIGHT / 32 <? k)%N then Err (MultiATooManyKeys (MAX_BLOCK_WEIGHT / 32))
      else
        let? (keys, ts) := multi_a_keys ts [] in
        reduce0_to nt ter ts (MultiA (N.to_nat k) keys)
  | _ => Err (unexpected ts)
  end.

Definition key_arm nt ter pk (ts : TokenIter) : result Error Parser :=
  let? key := parse_key pk in reduce0_to nt ter ts (PkK key).

(** [NonTerm::Expression] *)
Definition expression nt ter (ts : TokenIter) : result Error Parser :=
  match ts with
  | TkBytes33 pk :: ts | TkBytes65 pk :: ts | TkBytes32 pk :: ts => key_arm nt ter pk ts
  | TkCheckSig :: ts => Ok (MkParser (NtExpression :: NtCheck :: nt) ter ts)
  | TkVerify :: ts => verify_arm nt ter ts
  | TkZeroNotEqual :: ts => Ok (MkParser (NtExpression :: NtZeroNotEqual :: nt) ter ts)
  | TkCheckSequenceVerify :: ts =>
      match ts with
      | TkNum n :: ts => reduce0_to nt ter ts (Older n)
      | _ => Err (unexpected ts)
      end
  | TkCheckLockTimeVerify :: ts =>
      match ts with
      | TkNum n :: ts => reduce0_to nt ter ts (After n)
      | _ => Err (unexpected ts)
      end
  | TkEqual :: ts => equal_arm nt ter ts
  | TkNum 0 :: ts => reduce0_to nt ter ts TFalse
  | TkNum 1 :: ts => reduce0_to nt ter ts TTrue
  | TkEndIf :: ts => Ok (MkParser (NtExpression :: NtMaybeAndV :: NtEndIf :: nt) ter ts)
  | TkBoolAnd :: ts => Ok (MkParser (NtWExpression :: NtExpression :: NtAndB :: nt) ter ts)
  | TkBoolOr :: ts => Ok (MkParser (NtWExpression :: NtExpression :: NtOrB :: nt) ter ts)
  | TkCheckMultiSig :: ts => multi_arm nt ter ts
  | TkNumEqual :: ts => multi_a_arm nt ter ts
  | _ => Err (unexpected ts)
  end.

(** The reductions: [term.reduce1(wrap)?] and [term.reduce2(wrap)?]. *)
Definition reduce1_to nt ter (ts : TokenIter) wrap : result Error Parser :=
  let? ter := reduce1 ter wrap in Ok (MkParser nt ter ts).
Definition reduce2_to nt ter (ts : TokenIter) wrap : result Error Parser :=
  let? ter := reduce2 ter wrap in Ok (MkParser nt ter ts).

(** One iteration of the loop; [None] when the stack of non-terminals is empty. *)
Definition handle (x : NonTerm) nt ter (ts : TokenIter) : result Error Parser :=
  match x with
  | NtExpression => expression nt ter ts
  | NtMaybeAndV =>
      if is_and_v ts then Ok (MkParser (NtExpression :: NtAndV :: nt) ter ts)
      else Ok (MkParser nt ter ts)
  | NtSwap => let? ts := match_tokens [TkSwap] ts in reduce1_to nt ter ts Swap
  | NtAlt => let? ts := match_tokens [TkToAltStack] ts in reduce1_to nt ter ts Alt
  | NtCheck => reduce1_to nt ter ts Check
  | NtDupIf => reduce1_to nt ter ts DupIf
  | NtVerify => reduce1_to nt ter ts Verify
  | NtNonZero => reduce1_to nt ter ts NonZero
  | NtZeroNotEqual => reduce1_to nt ter ts ZeroNotEqual
  | NtAndV =>
      if is_and_v ts then Ok (MkParser (NtMaybeAndV :: NtAndV :: nt) ter ts)
      else reduce2_to nt ter ts AndV
  | NtAndB => reduce2_to nt ter ts AndB
  | NtOrB => reduce2_to nt ter ts OrB
  | NtOrC => reduce2_to nt ter ts OrC
  | NtOrD => reduce2_to nt ter ts OrD
  | NtTern => let? ter := reduce_tern ter in Ok (MkParser nt ter ts)
  | NtThreshW k n =>
      match ts with
      | TkAdd :: ts => Ok (MkParser (NtWExpression :: NtThreshW k (n + 1) :: nt) ter ts)
      | x :: ts => Ok (MkParser (NtExpression :: NtThreshE k (n + 1) :: nt) ter (un_next ts x))
      | [] => Err (unexpected ts)
      end
  | NtThreshE k n =>
      let? (subs, ter) := pop_n n ter in
      reduce0_to nt ter ts (Thresh k subs)
  | NtEndIf =>
      match ts with
      | TkElse :: ts => Ok (MkParser (NtExpression :: NtMaybeAndV :: NtEndIfElse :: nt) ter ts)
      | TkIf :: ts' =>
          match ts' with
          | TkDup :: ts => Ok (MkParser (NtDupIf :: nt) ter ts)
          | TkZeroNotEqual :: ts =>
              let? ts := match_tokens [TkSize] ts in Ok (MkParser (NtNonZero :: nt) ter ts)
          | _ => Err (unexpected ts')
          end
      | TkNotIf :: ts => Ok (MkParser (NtEndIfNotIf :: nt) ter ts)
      | _ => Err (unexpected ts)
      end
  | NtEndIfNotIf =>
      match ts with
      | TkIfDup :: ts => Ok (MkParser (NtExpression :: NtOrD :: nt) ter ts)
      | x :: ts => Ok (MkParser (NtExpression :: NtOrC :: nt) ter (un_next ts x))
      | [] => Err (unexpected ts)
      end
  | NtEndIfElse =>
      match ts with
      | TkIf :: ts => reduce2_to nt ter ts OrI
      | TkNotIf :: ts => Ok (MkParser (NtExpression :: NtTern :: nt) ter ts)
      | _ => Err (unexpected ts)
      end
  | NtWExpression =>
      match ts with
      | TkFromAltStack :: ts => Ok (MkParser (NtExpression :: NtMaybeAndV :: NtAlt :: nt) ter ts)
      | tok :: ts =>
          Ok (MkParser (NtExpression :: NtMaybeAndV :: NtSwap :: nt) ter (un_next ts tok))
      | [] => Err (unexpected ts)
      end
  end.

Definition step (p : Parser) : result Error (option Parser) :=
  match non_term p with
  | [] => Ok None
  | NtExpression :: nt =>
      match from_token_iter (tokens p) with
      | (Some ext, ts) => let? p := reduce0_to nt (term p) ts (ExtT ext) in Ok (Some p)
      | (None, ts) => let? p := handle NtExpression nt (term p) ts in Ok (Some p)
      end
  | x :: nt => let? p := handle x nt (term p) (tokens p) in Ok (Some p)
  end.

(** The loop, with fuel; [None] when the fuel runs out. *)
Fixpoint parse_loop (fuel : nat) (p : Parser) : option (result Error Parser) :=
  match fuel with
  | O => None
  | S fuel =>
      match step p with
      | Ok None => Some (Ok p)
      | Ok (Some p) => parse_loop fuel p
      | Err e => Some (Err e)
      | Panic => Some Panic
      end
  end.

Definition parse_start (ts : TokenIter) : Parser :=
  MkParser [NtExpression; NtMaybeAndV] [] ts.

(** Linear in the number of tokens; [Termination] shows that it suffices. *)
Definition parse_fuel (ts : TokenIter) : nat := 8 * length ts + 3.

(** [parse]: the Miniscript and the tokens left; the assertions on the final stacks
    are the [Panic]s. *)
Definition parse (ts : TokenIter) : option (result Error (Miniscript Pk Ext * TokenIter)) :=
  match parse_loop (parse_fuel ts) (parse_start ts) with
  | None => None
  | Some (Ok p) =>
      match term p with
      | [ms] => Some (Ok (ms, tokens p))
      | _ => Some Panic
      end
  | Some (Err e) => Some (Err e)
  | Some Panic => Some Panic
  end.
End decode.
