(* ===== verification/DecodeLoop.v ===== *)
(** * Termination of the decoder

    The loop of [parse] has no bound in the source.  A potential that counts the
    non-terminals on the stack and eight times the tokens left, less a credit for the
    non-terminals that are about to consume a token, decreases with every iteration. *)

From S2P Require Import Prelude Types Extension Property Ast Tokens Context ScriptNum Script Decode.

(** What the decoder relies on when it lets an extension parse: the tokens of the
    extension are consumed on success and none on failure. *)
Class ParseableExtTokens (Ext : Type) `{ParseableExt Ext} : Type := {
  ext_tokens : Ext → list Token;
  ext_tokens_nonempty : ∀ e, ext_tokens e ≠ [];
  from_token_iter_Some : ∀ ts e ts',
    from_token_iter ts = (Some e, ts') → ts = rev (ext_tokens e) ++ ts';
  from_token_iter_None : ∀ ts ts', from_token_iter (Ext := Ext) ts = (None, ts') → ts' = ts;
  #[global] ext_checks :: ExtChecks Ext;
}.

#[export] Instance NoExt_ParseableExtTokens `{ScriptBuilder} : ParseableExtTokens NoExt.
Proof. unshelve econstructor; try apply _; try (by intros []); cbn; congruence. Defined.

Section termination.
Context {Pk : Type} `{MiniscriptKey Pk} `{!ParseableKey Pk} `{LockTimes}.
Context {Ext : Type} `{BitcoinKeys} `{!ScriptBuilder} `{!Extension Ext} `{!ParseableExt Ext}.
Context `{!ParseableExtTokens Ext}.
Context (ctx : ScriptContext).
Implicit Types (p : Parser (Pk := Pk) (Ext := Ext)) (nt : list NonTerm) (ts : TokenIter).

Definition credit nt ts : nat :=
  match nt, ts with
  | NtExpression :: _, _ :: _ => 4
  | NtMaybeAndV :: _, _ => if is_and_v ts then 2 else 0
  | _, _ => 0
  end.

Definition weight nt ts : nat := length nt + 8 * length ts.
Definition potential p : nat :=
  weight (non_term p) (tokens p) - credit (non_term p) (tokens p).

Lemma credit_weight nt ts : credit nt ts ≤ weight nt ts.
Proof. unfold credit, weight, is_and_v. destruct nt as [|[]], ts; simpl; repeat case_match; lia. Qed.

(** A handler that uses at least one token, and pushes at most three symbols. *)
Definition consumes nt ts (r : result Error (Parser (Pk := Pk) (Ext := Ext))) : Prop :=
  ∀ p, r = Ok p → weight (non_term p) (tokens p) + 5 ≤ weight nt ts.

Lemma match_tokens_length toks ts ts' :
  match_tokens toks ts = Ok ts' → length ts' ≤ length ts.
Proof.
  revert ts. induction toks as [|t toks IH]; intros [|t' ts]; simpl; intros Hm; inv_ok; simpl; try lia.
  case_bool_decide; inv_ok. apply IH in Hm. lia.
Qed.

Lemma multi_keys_length n ts keys r :
  multi_keys (Pk := Pk) ctx n ts keys = Ok r → length r.2 ≤ length ts.
Proof.
  revert ts keys. induction n as [|n IH]; intros ts keys; simpl.
  - intros [= <-]. done.
  - destruct ts as [|[] ts]; intros Hr; inv_ok;
      match goal with Hk : multi_keys _ _ _ _ = _ |- _ => apply IH in Hk; simpl; lia end.
Qed.

Lemma multi_a_keys_length ts keys r :
  multi_a_keys (Pk := Pk) ctx ts keys = Ok r → length r.2 ≤ length ts.
Proof.
  remember (length ts) as n eqn:Hn. assert (length ts ≤ n) as Hle by lia. clear Hn.
  revert ts keys Hle. induction n as [|n IH]; intros ts keys Hle;
    (destruct ts as [|[] ts]; simpl; intros Hr; inv_ok; try (simpl in Hle; lia));
    (destruct ts as [|[] ts]; simpl in *; inv_ok; try lia).
  - simpl. lia.
  - match goal with Hk : multi_a_keys _ _ _ = _ |- _ => apply IH in Hk; simpl; lia end.
Qed.

Lemma reduce0_to_consumes nt nt' ter ts ts' ms :
  weight nt' ts' + 5 ≤ weight nt ts → consumes nt ts (reduce0_to ctx nt' ter ts' ms).
Proof. unfold reduce0_to. intros Hw p Hp. inv_ok. done. Qed.

Ltac match_len :=
  match goal with Hm : match_tokens _ _ = _ |- _ => apply match_tokens_length in Hm end.
Ltac weigh := unfold weight in *; simpl in *; lia.

Lemma reduce_hash_consumes nt nt' ter n hash wrap ts ts' :
  weight nt' ts' + 5 ≤ weight nt ts →
  consumes nt ts (reduce_hash (Pk := Pk) (Ext := Ext) ctx nt' ter n hash wrap ts').
Proof.
  intros Hw p Hp. unfold reduce_hash in Hp. inv_ok.
  match goal with Hm : match_tokens _ _ = _ |- _ => apply match_tokens_length in Hm end.
  eapply reduce0_to_consumes; [|eassumption]. weigh.
Qed.

Lemma consumes_Ok nt nt' ter ts ts' :
  weight nt' ts' + 5 ≤ weight nt ts → consumes nt ts (Ok (MkParser nt' ter ts')).
Proof. by intros Hw p [= <-]. Qed.
Lemma consumes_Err nt ts e : consumes nt ts (Err e).
Proof. by intros p. Qed.
Lemma consumes_Panic nt ts : consumes nt ts Panic.
Proof. by intros p. Qed.

Create HintDb consume.
#[local] Hint Resolve reduce0_to_consumes reduce_hash_consumes consumes_Ok consumes_Err
  consumes_Panic : consume.
#[local] Hint Extern 1 (_ ≤ _) => weigh : consume.

Lemma hash32_consumes nt nt' ter hash ts ts' :
  weight nt' ts' ≤ weight nt ts →
  consumes nt ts (hash32_fragment (Pk := Pk) (Ext := Ext) ctx nt' ter hash ts').
Proof. intros Hw. unfold hash32_fragment. destruct ts' as [|[]]; eauto with consume. Qed.

Lemma hash20_consumes nt nt' ter hash ts ts' :
  weight nt' ts' ≤ weight nt ts →
  consumes nt ts (hash20_fragment (Pk := Pk) (Ext := Ext) ctx nt' ter hash ts').
Proof. intros Hw. unfold hash20_fragment. destruct ts' as [|[]]; eauto with consume. Qed.

Lemma verify_hash20_consumes nt nt' ter hash ts ts' :
  weight nt' ts' + 2 ≤ weight nt ts →
  consumes nt ts (verify_hash20 (Pk := Pk) (Ext := Ext) ctx nt' ter hash ts').
Proof.
  intros Hw. unfold verify_hash20. destruct ts' as [|[] ts']; eauto with consume.
  destruct ts' as [|[] ts']; eauto with consume.
  - intros p Hp. inv_ok. eapply reduce0_to_consumes; [|eassumption]. weigh.
  - intros p Hp. inv_ok.
    match_len.
    eapply reduce0_to_consumes; [|eassumption]. weigh.
Qed.

Lemma verify_arm_consumes nt ter tok ts :
  consumes nt (tok :: ts) (verify_arm (Pk := Pk) (Ext := Ext) ctx nt ter ts).
Proof.
  unfold verify_arm, un_next. destruct ts as [|t ts]; eauto with consume.
  destruct t; eauto with consume. destruct ts as [|[] ts]; eauto with consume;
    auto using hash32_consumes, verify_hash20_consumes with consume.
Qed.

Lemma expression_consumes nt ter ts :
  consumes nt ts (expression (Pk := Pk) (Ext := Ext) ctx nt ter ts).
Proof.
  unfold expression. destruct ts as [|t ts]; eauto with consume.
  destruct t; eauto with consume; unfold key_arm.
  - unfold equal_arm. destruct ts as [|[] ts]; eauto with consume;
      auto using hash32_consumes, hash20_consumes with consume.
  - unfold multi_a_arm. destruct ts as [|[] ts]; eauto with consume. case_match; eauto with consume.
    intros p Hp. apply bind_Ok in Hp as ([keys ts'] & Hk%multi_a_keys_length & Hp).
    eapply reduce0_to_consumes; [|eassumption]. weigh.
  - unfold multi_arm. destruct ts as [|[] ts]; eauto with consume. case_match; eauto with consume.
    intros p Hp. apply bind_Ok in Hp as ([keys ts'] & Hk%multi_keys_length & Hp).
    destruct ts' as [|[] ts']; inv_ok. eapply reduce0_to_consumes; [|eassumption]. weigh.
  - destruct ts as [|[] ts]; eauto with consume.
  - destruct ts as [|[] ts]; eauto with consume.
  - apply verify_arm_consumes.
  - destruct n as [|[]]; eauto with consume.
  - intros p Hp. inv_ok. eapply reduce0_to_consumes; [|eassumption]. weigh.
  - intros p Hp. inv_ok. eapply reduce0_to_consumes; [|eassumption]. weigh.
  - intros p Hp. inv_ok. eapply reduce0_to_consumes; [|eassumption]. weigh.
Qed.

Lemma potential_lt nt ts p :
  weight (non_term p) (tokens p) < weight nt ts - credit nt ts →
  potential p < weight nt ts - credit nt ts.
Proof. unfold potential. lia. Qed.

Lemma is_and_v_nonempty ts : is_and_v ts = true → ∃ t ts', ts = t :: ts'.
Proof. destruct ts; [done|eauto]. Qed.

(** Every iteration that goes on lowers the potential. *)
Lemma handle_potential x nt ter ts p :
  handle (Pk := Pk) (Ext := Ext) ctx x nt ter ts = Ok p →
  potential p < weight (x :: nt) ts - credit (x :: nt) ts.
Proof.
  intros Hp. destruct x; cbn [handle] in Hp; unfold reduce1_to, reduce2_to, reduce0_to in Hp; inv_ok;
    try (apply potential_lt; unfold weight; simpl; lia).
  - apply expression_consumes in Hp. apply potential_lt. unfold weight in *. simpl in *.
    destruct ts; simpl in *; lia.
  - destruct ts as [|[] ts]; inv_ok; unfold potential, weight, un_next; simpl; lia.
  - apply potential_lt. match_len.
    unfold weight. simpl. lia.
  - destruct (is_and_v ts) eqn:Hv; inv_ok.
    + destruct (is_and_v_nonempty _ Hv) as (t & ts' & ->). unfold potential, weight. simpl in *.
      rewrite Hv. lia.
    + apply potential_lt. unfold weight. simpl. rewrite Hv. lia.
  - apply potential_lt. match_len.
    unfold weight. simpl. lia.
  - destruct (is_and_v ts) eqn:Hv; inv_ok.
    + unfold potential, weight. simpl. rewrite Hv.
      destruct (is_and_v_nonempty _ Hv) as (t & ts' & ->). simpl. lia.
    + apply potential_lt. unfold weight. simpl. lia.
  - destruct ts as [|[] ts]; inv_ok; unfold potential, weight, un_next; simpl; lia.
  - case_match; inv_ok. apply potential_lt. unfold weight. simpl. lia.
  - destruct ts as [|[] ts]; inv_ok; try (apply potential_lt; unfold weight; simpl; lia).
    destruct ts as [|[] ts]; inv_ok; try (apply potential_lt; unfold weight; simpl; lia).
    apply potential_lt. match_len.
    unfold weight. simpl in *. lia.
  - destruct ts as [|[] ts]; inv_ok; unfold potential, weight, un_next; simpl; lia.
  - destruct ts as [|[] ts]; inv_ok; apply potential_lt; unfold weight; simpl; lia.
Qed.

Lemma step_potential p p' :
  step ctx p = Ok (Some p') → potential p' < potential p.
Proof.
  intros Hp. unfold step in Hp. unfold potential at 2. destruct p as [nt ter ts]; simpl in *.
  assert (∀ x nt', x = NtExpression ∨ x ≠ NtExpression → nt = x :: nt' →
            potential p' < weight (x :: nt') ts - credit (x :: nt') ts) as Hall.
  2:{ destruct nt as [|x nt]; [done|]. apply Hall; [|done]. destruct x; auto. }
  intros x nt' Hx ->. destruct Hx as [->|Hx].
  - destruct (from_token_iter ts) as [[e|] ts'] eqn:He.
    + apply from_token_iter_Some in He as ->. unfold reduce0_to in Hp. inv_ok.
      pose proof (ext_tokens_nonempty e) as Hne.
      destruct (rev (ext_tokens e)) as [|t l] eqn:Hr.
      { destruct Hne. by rewrite <-(rev_involutive (ext_tokens e)), Hr. }
      unfold potential, weight. simpl. rewrite length_app. lia.
    + apply from_token_iter_None in He as ->. inv_ok. by eapply (handle_potential NtExpression).
  - destruct x; [done|..]; cbv beta iota in Hp; inv_ok; by eapply handle_potential.
Qed.

Lemma parse_loop_enough fuel p :
  potential p < fuel → is_Some (parse_loop ctx fuel p).
Proof.
  revert p. induction fuel as [|fuel IH]; intros p Hp; [lia|]. simpl.
  destruct (step ctx p) as [[p'|]| |] eqn:Hstep; eauto.
  apply IH. apply step_potential in Hstep. lia.
Qed.

(** (C18) The decoder terminates: on every sequence of tokens the loop of [parse] ends
    after a number of iterations linear in the number of tokens, with a Miniscript, an
    error or a panic. *)
Theorem parse_terminates ts : is_Some (parse (Pk := Pk) (Ext := Ext) ctx ts).
Proof.
  unfold parse. destruct (parse_loop_enough (parse_fuel ts) (parse_start (Pk := Pk) (Ext := Ext) ts))
    as [[p|e|] ->]; eauto.
  - unfold potential, weight, parse_fuel. simpl. lia.
  - destruct (term p) as [|ms [|]]; eauto.
Qed.
End termination.
