(* ===== verification/DecodeSound.v ===== *)
(** * Soundness of the decoder

    The tokens of a Miniscript, as a specification; the invariant of the decoder's two
    stacks; and the theorem that what [parse] returns has exactly the tokens it
    consumed, is well typed and admitted by the context, and that it never panics. *)

From S2P Require Import Prelude Types Extension Property Ast Typing Resources Tokens Context ScriptNum Script Encoding Decode DecodeLoop.

(** The token of a push, by its length, and the lengths the lexer guarantees. *)
Definition push_token (b : bytes) : Token :=
  match length b with
  | 8 => TkBytes8 b | 20 => TkHash20 b | 32 => TkBytes32 b | 33 => TkBytes33 b
  | 65 => TkBytes65 b | _ => TkPush b
  end.

Definition token_sized (t : Token) : Prop :=
  match t with
  | TkBytes8 b => length b = 8
  | TkHash20 b => length b = 20
  | TkBytes32 b => length b = 32
  | TkBytes33 b => length b = 33
  | TkBytes65 b => length b = 65
  | _ => True
  end.

(** Keys parsed from a slice serialize to that slice; the hash types of the parsed keys
    are the hashes themselves. *)
Class ParseableKeyOk (ctx : ScriptContext) (Pk : Type) `{ToPublicKey Pk} `{!ParseableKey Pk} : Prop := {
  from_slice_push b k : from_slice b = Ok k → key_push ctx k = b;
  from_slice_no_panic b : from_slice b ≠ Panic;
  of_sha256_to h : to_sha256 (of_sha256 h) = h;
  of_hash256_to h : to_hash256 (of_hash256 h) = h;
  of_ripemd160_to h : to_ripemd160 (of_ripemd160 h) = h;
  of_hash160_to h : to_hash160 (of_hash160 h) = h;
  to_sha256_of h : of_sha256 (to_sha256 h) = h;
  to_hash256_of h : of_hash256 (to_hash256 h) = h;
  to_ripemd160_of h : of_ripemd160 (to_ripemd160 h) = h;
  to_hash160_of h : of_hash160 (to_hash160 h) = h;
}.

(** ** The tokens of a Miniscript *)

Section toks.
Context {Pk : Type} `{MiniscriptKey Pk} `{BitcoinKeys} `{!ToPublicKey Pk} `{!ScriptBuilder}.
Context {Ext : Type} `{!Extension Ext} `{!ParseableExt Ext} `{!ParseableExtTokens Ext}.
Context (ctx : ScriptContext).

Definition hash_toks (op : Token) (h : bytes) : list Token :=
  [TkSize; TkNum 32; TkEqual; TkVerify; op; push_token h; TkEqual].

Definition count_tok (n : nat) : Token := TkNum (N.of_nat n).

Fixpoint tokens_of (ms : Miniscript Pk Ext) : list Token :=
  let '(MkMs t _ _) := ms in
  match t with
  | TTrue => [TkNum 1]
  | TFalse => [TkNum 0]
  | PkK k => [push_token (key_push ctx k)]
  | PkH k => [TkDup; TkHash160; push_token (hash_bytes (key_hash ctx k)); TkEqual; TkVerify]
  | RawPkH h => [TkDup; TkHash160; push_token (hash_bytes h); TkEqual; TkVerify]
  | After t => [TkNum t; TkCheckLockTimeVerify]
  | Older t => [TkNum t; TkCheckSequenceVerify]
  | Sha256 h => hash_toks TkSha256 (hash_bytes (to_sha256 h))
  | Hash256 h => hash_toks TkHash256 (hash_bytes (to_hash256 h))
  | Ripemd160 h => hash_toks TkRipemd160 (hash_bytes (to_ripemd160 h))
  | Hash160 h => hash_toks TkHash160 (hash_bytes (to_hash160 h))
  | Alt s => [TkToAltStack] ++ tokens_of s ++ [TkFromAltStack]
  | Swap s => [TkSwap] ++ tokens_of s
  | Check s => tokens_of s ++ [TkCheckSig]
  | DupIf s => [TkDup; TkIf] ++ tokens_of s ++ [TkEndIf]
  | Verify s => tokens_of s ++ [TkVerify]
  | NonZero s => [TkSize; TkZeroNotEqual; TkIf] ++ tokens_of s ++ [TkEndIf]
  | ZeroNotEqual s => tokens_of s ++ [TkZeroNotEqual]
  | AndV l r => tokens_of l ++ tokens_of r
  | AndB l r => tokens_of l ++ tokens_of r ++ [TkBoolAnd]
  | AndOr a b c =>
      tokens_of a ++ [TkNotIf] ++ tokens_of c ++ [TkElse] ++ tokens_of b ++ [TkEndIf]
  | OrB l r => tokens_of l ++ tokens_of r ++ [TkBoolOr]
  | OrD l r => tokens_of l ++ [TkIfDup; TkNotIf] ++ tokens_of r ++ [TkEndIf]
  | OrC l r => tokens_of l ++ [TkNotIf] ++ tokens_of r ++ [TkEndIf]
  | OrI l r => [TkIf] ++ tokens_of l ++ [TkElse] ++ tokens_of r ++ [TkEndIf]
  | Thresh k subs =>
      match subs with
      | [] => []
      | s :: subs =>
          tokens_of s ++ concat (map (λ s, tokens_of s ++ [TkAdd]) subs) ++ [count_tok k; TkEqual]
      end
  | Multi k keys =>
      [count_tok k] ++ map (λ k, push_token (pubkey_bytes (to_public_key k))) keys
      ++ [count_tok (length keys); TkCheckMultiSig]
  | MultiA k keys =>
      match keys with
      | [] => []
      | key :: keys =>
          [push_token (key_push ctx key); TkCheckSig]
          ++ concat (map (λ k, [push_token (key_push ctx k); TkCheckSigAdd]) keys)
          ++ [count_tok k; TkNumEqual]
      end
  | ExtT e => ext_tokens e
  end.
End toks.

(** ** The invariant of the stacks *)

Section sound.
Context {Pk : Type} `{MiniscriptKey Pk} `{BitcoinKeys} `{!ToPublicKey Pk} `{!ParseableKey Pk}.
Context `{LockTimes} `{!ScriptBuilder}.
Context {Ext : Type} `{!Extension Ext} `{!ParseableExt Ext} `{!ParseableExtTokens Ext}.
Context `{!ExtensionResourcesOk Ext}.
Context (ctx : ScriptContext) `{!ParseableKeyOk ctx Pk}.
Notation ms_t := (Miniscript Pk Ext).
Implicit Types (nt : list NonTerm) (ter : list ms_t) (ts : TokenIter) (C D : list Token).
Notation toks := (tokens_of ctx).

Definition wtoks (ws : list ms_t) : list Token := concat (map (λ w, toks w ++ [TkAdd]) ws).

(** [awaits nt ter C]: the stacks [nt] and [ter] wait for one more term, whose tokens
    come directly before the tokens [C] read so far. *)
Inductive awaits : list NonTerm → list ms_t → list Token → Prop :=
  | aw_nil : awaits [] [] []
  | aw_and_v_prefix nt ter C : awaits nt ter C → awaits (NtMaybeAndV :: nt) ter C
  | aw_and_v nt ter C y : awaits nt ter C → awaits (NtAndV :: nt) (y :: ter) (toks y ++ C)
  | aw_swap nt ter C : awaits nt ter C → awaits (NtSwap :: nt) ter C
  | aw_alt nt ter C : awaits nt ter C → awaits (NtAlt :: nt) ter (TkFromAltStack :: C)
  | aw_check nt ter C : awaits nt ter C → awaits (NtCheck :: nt) ter (TkCheckSig :: C)
  | aw_verify nt ter C : awaits nt ter C → awaits (NtVerify :: nt) ter (TkVerify :: C)
  | aw_zero_not_equal nt ter C :
      awaits nt ter C → awaits (NtZeroNotEqual :: nt) ter (TkZeroNotEqual :: C)
  | aw_and_b_w nt ter C :
      awaits nt ter C → awaits (NtExpression :: NtAndB :: nt) ter (TkBoolAnd :: C)
  | aw_and_b nt ter C w :
      awaits nt ter C → awaits (NtAndB :: nt) (w :: ter) (toks w ++ TkBoolAnd :: C)
  | aw_or_b_w nt ter C :
      awaits nt ter C → awaits (NtExpression :: NtOrB :: nt) ter (TkBoolOr :: C)
  | aw_or_b nt ter C w :
      awaits nt ter C → awaits (NtOrB :: nt) (w :: ter) (toks w ++ TkBoolOr :: C)
  | aw_end_if nt ter C : awaits nt ter C → awaits (NtEndIf :: nt) ter (TkEndIf :: C)
  | aw_end_if_else nt ter C r :
      awaits nt ter C → awaits (NtEndIfElse :: nt) (r :: ter) (TkElse :: toks r ++ TkEndIf :: C)
  | aw_tern nt ter C b c :
      awaits nt ter C →
      awaits (NtTern :: nt) (c :: b :: ter)
        (TkNotIf :: toks c ++ TkElse :: toks b ++ TkEndIf :: C)
  | aw_or_d nt ter C r :
      awaits nt ter C →
      awaits (NtOrD :: nt) (r :: ter) (TkIfDup :: TkNotIf :: toks r ++ TkEndIf :: C)
  | aw_or_c nt ter C r :
      awaits nt ter C → awaits (NtOrC :: nt) (r :: ter) (TkNotIf :: toks r ++ TkEndIf :: C)
  | aw_thresh_w nt ter C k ws :
      awaits nt ter C →
      awaits (NtThreshW k (length ws + 1) :: nt) (ws ++ ter)
        (TkAdd :: wtoks ws ++ count_tok k :: TkEqual :: C)
  | aw_thresh_e nt ter C k ws :
      awaits nt ter C →
      awaits (NtThreshE k (length ws + 1) :: nt) (ws ++ ter)
        (wtoks ws ++ count_tok k :: TkEqual :: C).

(** [stacks nt ter C]: the stacks at the top of the loop after reading [C]. *)
Inductive stacks : list NonTerm → list ms_t → list Token → Prop :=
  | st_expression nt ter C : awaits nt ter C → stacks (NtExpression :: nt) ter C
  | st_w_expression nt ter C : awaits nt ter C → stacks (NtWExpression :: nt) ter C
  | st_done nt ter C x : awaits nt ter C → stacks nt (x :: ter) (toks x ++ C)
  | st_thresh_w nt ter C k ws :
      awaits nt ter C →
      stacks (NtThreshW k (length ws) :: nt) (ws ++ ter) (wtoks ws ++ count_tok k :: TkEqual :: C)
  | st_end_if_not_if nt ter C r :
      awaits nt ter C →
      stacks (NtEndIfNotIf :: nt) (r :: ter) (TkNotIf :: toks r ++ TkEndIf :: C)
  | st_dup_if nt ter C x :
      awaits nt ter C →
      stacks (NtDupIf :: nt) (x :: ter) (TkDup :: TkIf :: toks x ++ TkEndIf :: C)
  | st_non_zero nt ter C x :
      awaits nt ter C →
      stacks (NtNonZero :: nt) (x :: ter)
        (TkSize :: TkZeroNotEqual :: TkIf :: toks x ++ TkEndIf :: C).

(** What holds of every term on the stack. *)
Definition good (ms : ms_t) : Prop := well_typed ctx ms ∧ all_nodes (node_allowed ctx) ms.

(** The outcome of an iteration that starts with [ts] to read and [C] read: no panic,
    and after reading [D] the invariant holds. *)
Definition advances ts C (r : result Error (Parser (Pk := Pk) (Ext := Ext))) : Prop :=
  match r with
  | Ok p => ∃ D, ts = rev D ++ tokens p ∧ stacks (non_term p) (term p) (D ++ C) ∧
                 Forall good (term p)
  | Err _ => True
  | Panic => False
  end.

Lemma advances_read D ts C r : advances ts (D ++ C) r → advances (rev D ++ ts) C r.
Proof.
  unfold advances. destruct r as [p| |]; [|done..]. intros (D' & -> & Hst & Hg).
  exists (D' ++ D). by rewrite rev_app_distr, <-!app_assoc.
Qed.

(** One token read. *)
Lemma advances_tok t ts C r : advances ts (t :: C) r → advances (t :: ts) C r.
Proof. apply (advances_read [t]). Qed.

Lemma advances_stop nt ter ts C :
  stacks nt ter C → Forall good ter → advances ts C (Ok (MkParser nt ter ts)).
Proof. intros ??. by exists []. Qed.

(** *** Reductions *)

(** [reduce0] pushes a good term or returns an error. *)
Lemma reduce0_good ter t :
  Forall good ter → Forall good (children t) →
  match reduce0 ctx ter t with
  | Ok ter' => ∃ ms, ter' = ms :: ter ∧ node ms = t ∧ good ms
  | Err _ => True
  | Panic => False
  end.
Proof.
  intros Hter Hch. unfold reduce0.
  assert (Forall (well_typed ctx) (children t)) as Hwt 
    by (eapply Forall_impl; [|exact Hch]; by intros ? []).
  pose proof (type_check_no_panic ctx t) as Hp.
  destruct (type_check ctx t) as [u|err|] eqn:Ht; cbn; [|done|done].
  destruct (ext_type_check_inv ctx t u) as (e & He & _); [|done|].
  { eapply Forall_impl; [|exact Hwt]. apply well_typed_ext_inv. }
  rewrite He. cbn. pose proof (global_validity_no_panic ctx (MkMs t u e)) as Hnp.
  destruct (check_global_validity ctx (MkMs t u e)) as [[]| |] eqn:Hv; cbn; [|done|done].
  exists (MkMs t u e). split_and!; [done..|]. split; [by constructor|].
  apply global_validity_Ok in Hv as [_ Hv]. constructor; [done|].
  eapply Forall_impl; [|exact Hch]. by intros ? [].
Qed.

Lemma reduce0_to_advances nt ter ts C D t :
  awaits nt ter C → Forall good ter → Forall good (children t) →
  (∀ a b, node_allowed ctx t → toks (MkMs t a b) = D) →
  advances ts (D ++ C) (reduce0_to ctx nt ter ts t).
Proof.
  intros Haw Hter Hch Htoks. pose proof (reduce0_good ter t Hter Hch) as Hr.
  unfold reduce0_to. destruct (reduce0 ctx ter t) as [ter'| |]; cbn; [|done|done].
  destruct Hr as ([t' a b] & -> & Hnode & Hg). simpl in Hnode. subst t'.
  exists []. split_and!; [done| |by constructor].
  rewrite <-(Htoks a b); [by apply st_done|]. by destruct Hg as [_ [? _]%all_nodes_inv].
Qed.

Lemma match_tokens_spec l ts :
  match match_tokens l ts with
  | Ok ts' => ts = l ++ ts'
  | Err _ => True
  | Panic => False
  end.
Proof.
  revert ts. induction l as [|t l IH]; intros [|t' ts]; simpl; try done.
  case_bool_decide; [|done]. subst t'. specialize (IH ts). case_match; naive_solver.
Qed.

(** Run [match_tokens] on a constant list. *)
Lemma match_tokens_advances l ts C (k : TokenIter → result Error (Parser (Pk := Pk) (Ext := Ext))) :
  (∀ ts', advances ts' (rev l ++ C) (k ts')) →
  advances ts C (let? ts' := match_tokens l ts in k ts').
Proof.
  intros Hk. pose proof (match_tokens_spec l ts) as Hm.
  destruct (match_tokens l ts) as [ts'| |]; simpl; [|done|done]. subst ts.
  rewrite <-(rev_involutive l) at 1. by apply advances_read.
Qed.

Lemma hash_expect_advances n hash ts C (k : hash_n n → result Error (Parser (Pk := Pk) (Ext := Ext))) :
  length hash = n →
  (∀ h, hash_bytes h = hash → advances ts C (k h)) →
  advances ts C (let? h := hash_expect n hash in k h).
Proof.
  intros Hn Hk. destruct (hash_from_slice_is_Some n hash Hn) as [h Hh].
  unfold hash_expect. rewrite Hh. simpl. apply Hk. by apply hash_from_slice_Some.
Qed.

Lemma parse_key_advances pk ts C (k : Pk → result Error (Parser (Pk := Pk) (Ext := Ext))) :
  (∀ key, key_push ctx key = pk → advances ts C (k key)) →
  advances ts C (let? key := parse_key ctx pk in k key).
Proof.
  intros Hk. unfold parse_key. pose proof (from_slice_no_panic pk).
  destruct (from_slice pk) as [key| |] eqn:He; simpl; [|done|done].
  apply Hk. by eapply from_slice_push.
Qed.

Lemma push_token_20 b : length b = 20 → push_token b = TkHash20 b.
Proof. unfold push_token. by intros ->. Qed.
Lemma push_token_32 b : length b = 32 → push_token b = TkBytes32 b.
Proof. unfold push_token. by intros ->. Qed.
Lemma push_token_33 b : length b = 33 → push_token b = TkBytes33 b.
Proof. unfold push_token. by intros ->. Qed.
Lemma push_token_65 b : length b = 65 → push_token b = TkBytes65 b.
Proof. unfold push_token. by intros ->. Qed.

(** *** Hash fragments *)

Lemma reduce_hash_advances nt ter n hash wrap ts C X :
  awaits nt ter C → Forall good ter → length hash = n →
  (∀ h, children (wrap h) = []) →
  (∀ h a b, hash_bytes h = hash →
     toks (MkMs (wrap h) a b) = [TkSize; TkNum 32; TkEqual; TkVerify] ++ X) →
  advances ts (X ++ C) (reduce_hash ctx nt ter n hash wrap ts).
Proof.
  intros Haw Hter Hn Hleaf Htoks. unfold reduce_hash. apply match_tokens_advances. intros ts'.
  apply hash_expect_advances; [done|]. intros h Hh. rewrite app_assoc.
  apply reduce0_to_advances; [done|done|by rewrite Hleaf|]. intros a b _. by apply Htoks.
Qed.

Ltac solve_hash :=
  intros h ? ? Hh; cbn [tokens_of];
  rewrite ?of_sha256_to, ?of_hash256_to, ?of_ripemd160_to, ?of_hash160_to; unfold hash_toks;
  rewrite Hh, ?push_token_32, ?push_token_20 by done; reflexivity.

Lemma hash32_advances nt ter hash ts C :
  awaits nt ter C → Forall good ter → length hash = 32 →
  advances ts (TkBytes32 hash :: TkEqual :: C) (hash32_fragment ctx nt ter hash ts).
Proof.
  intros Haw Hter Hn. unfold hash32_fragment.
  destruct ts as [|[] ts]; try done; apply advances_tok;
    [eapply (reduce_hash_advances _ _ _ _ _ _ _ [_; _; _])
    |eapply (reduce_hash_advances _ _ _ _ _ _ _ [_; _; _])];
    try done; solve_hash.
Qed.

Lemma hash20_advances nt ter hash ts C :
  awaits nt ter C → Forall good ter → length hash = 20 →
  advances ts (TkHash20 hash :: TkEqual :: C) (hash20_fragment ctx nt ter hash ts).
Proof.
  intros Haw Hter Hn. unfold hash20_fragment.
  destruct ts as [|[] ts]; try done; apply advances_tok;
    [eapply (reduce_hash_advances _ _ _ _ _ _ _ [_; _; _])
    |eapply (reduce_hash_advances _ _ _ _ _ _ _ [_; _; _])];
    try done; solve_hash.
Qed.

Lemma verify_hash20_advances nt ter hash ts C :
  awaits nt ter C → Forall good ter → length hash = 20 →
  advances ts (TkHash20 hash :: TkEqual :: TkVerify :: C) (verify_hash20 ctx nt ter hash ts).
Proof.
  intros Haw Hter Hn. unfold verify_hash20.
  destruct ts as [|[] ts]; try done; apply advances_tok.
  - eapply (reduce_hash_advances _ _ _ _ _ _ _ [_; _; _]); try done; [by apply aw_verify|].
    solve_hash.
  - destruct ts as [|[] ts]; try done; apply advances_tok.
    + apply hash_expect_advances; [done|]. intros h Hh.
      apply (reduce0_to_advances _ _ _ _ [_; _; _; _; _]); [done..|].
      intros a b _. cbn [tokens_of]. by rewrite Hh, push_token_20.
    + apply match_tokens_advances. intros ts'. apply hash_expect_advances; [done|]. intros h Hh.
      apply (reduce0_to_advances _ _ _ _ [_; _; _; _; _; _; _]); [by apply aw_verify|done..|].
      intros a b _. cbn [tokens_of]. unfold hash_toks.
      by rewrite of_hash160_to, Hh, push_token_20.
Qed.

(** *** Keys *)

Lemma parse_key_spec pk :
  match parse_key ctx pk with
  | Ok key => key_push ctx key = pk
  | Err _ => True
  | Panic => False
  end.
Proof.
  unfold parse_key. pose proof (from_slice_no_panic pk).
  destruct (from_slice pk) eqn:He; simpl; [|done|done]. by eapply from_slice_push.
Qed.

Lemma key_arm_advances nt ter ts C tok pk :
  awaits nt ter C → Forall good ter → push_token pk = tok →
  advances ts (tok :: C) (key_arm ctx nt ter pk ts).
Proof.
  intros Haw Hter <-. unfold key_arm. apply parse_key_advances. intros key Hkey.
  apply (reduce0_to_advances _ _ _ _ [_]); [done..|]. intros a b _. cbn [tokens_of].
  by rewrite Hkey.
Qed.

Definition key_toks (ks : list Pk) : list Token := map (λ k, push_token (key_push ctx k)) ks.

Lemma multi_keys_spec n ts keys :
  Forall token_sized ts →
  match multi_keys ctx n ts keys with
  | Ok (keys', ts') =>
      ∃ ks, keys' = ks ++ keys ∧ length ks = n ∧ ts = rev (key_toks ks) ++ ts'
  | Err _ => True
  | Panic => False
  end.
Proof.
  revert ts keys. induction n as [|n IH]; intros ts keys Hts; simpl; [by exists []|].
  assert (∀ tok pk ts', token_sized tok → (token_sized tok → push_token pk = tok) →
    Forall token_sized ts' →
    match (let? key := parse_key ctx pk in multi_keys ctx n ts' (key :: keys)) with
    | Ok (keys', ts'') =>
        ∃ ks, keys' = ks ++ keys ∧ length ks = S n ∧ tok :: ts' = rev (key_toks ks) ++ ts''
    | Err _ => True
    | Panic => False
    end) as Hkey.
  { intros tok pk ts' Hsz Htok Hts'. pose proof (parse_key_spec pk) as Hpk.
    destruct (parse_key ctx pk) as [key| |]; simpl; [|done|done].
    specialize (IH ts' (key :: keys) Hts').
    destruct (multi_keys ctx n ts' (key :: keys)) as [[keys' ts'']| |]; [|done|done].
    destruct IH as (ks & -> & <- & ->). exists (ks ++ [key]).
    unfold key_toks. rewrite map_app, rev_app_distr, length_app, <-app_assoc. simpl.
    rewrite Hpk, Htok by done. split_and!; [done|lia|done]. }
  destruct ts as [|[] ts]; try done; inversion_clear Hts; apply Hkey; simpl in *;
    auto using push_token_33, push_token_65.
Qed.

Definition key_a_toks (ks : list Pk) : list Token :=
  concat (map (λ k, [push_token (key_push ctx k); TkCheckSigAdd]) ks).

Lemma multi_a_keys_spec ts keys :
  Forall token_sized ts →
  match multi_a_keys ctx ts keys with
  | Ok (keys', ts') =>
      ∃ k ks, keys' = k :: ks ++ keys ∧
        ts = rev ([push_token (key_push ctx k); TkCheckSig] ++ key_a_toks ks) ++ ts'
  | Err _ => True
  | Panic => False
  end.
Proof.
  remember (length ts) as n eqn:Hn. assert (length ts ≤ n) as Hle by lia. clear Hn.
  revert ts keys Hle. induction n as [|n IH]; intros ts keys Hle Hts;
    (destruct ts as [|[] ts]; try done; simpl in Hle; try lia);
    inversion_clear Hts as [|? ? _ Hts'];
    (destruct ts as [|[] ts]; try done; simpl in Hle; try lia);
    inversion_clear Hts' as [|? ? Hsz Hts]; simpl in Hsz; cbn [multi_a_keys];
    (match goal with |- context [parse_key ctx ?pk] =>
       pose proof (parse_key_spec pk) as Hpk; destruct (parse_key ctx pk) as [key| |] end);
    simpl; try done.
  - exists key, []. by rewrite Hpk, push_token_32.
  - specialize (IH ts (key :: keys)). destruct (multi_a_keys ctx ts (key :: keys)) as [[keys' ts']| |];
      [|done|by apply IH; [lia|]].
    destruct IH as (k & ks & -> & ->); [lia|done|]. exists k, (ks ++ [key]).
    unfold key_a_toks. rewrite map_app, concat_app, <-app_assoc. simpl.
    rewrite rev_app_distr. simpl. rewrite (push_token_32 (key_push ctx key)), Hpk by congruence.
    split; [done|]. by rewrite <-!app_assoc.
Qed.

Lemma multi_arm_advances nt ter ts C :
  awaits nt ter C → Forall good ter → Forall token_sized ts →
  advances ts (TkCheckMultiSig :: C) (multi_arm ctx nt ter ts).
Proof.
  intros Haw Hter Hts. unfold multi_arm. destruct ts as [|[] ts]; try done. case_match; [done|].
  apply advances_tok. inversion_clear Hts as [|? ? _ Hts'].
  pose proof (multi_keys_spec (N.to_nat n) ts [] Hts') as Hm.
  destruct (multi_keys ctx (N.to_nat n) ts []) as [[keys ts']| |]; [|done|done].
  destruct Hm as (ks & -> & Hlen & ->). cbn [result_bind]. rewrite app_nil_r.
  apply advances_read. destruct ts' as [|[] ts']; try done. apply advances_tok.
  replace (TkNum n0 :: key_toks ks ++ TkNum n :: TkCheckMultiSig :: C)
    with ((TkNum n0 :: key_toks ks ++ [TkNum n; TkCheckMultiSig]) ++ C)
    by (simpl; by rewrite <-app_assoc).
  apply reduce0_to_advances; [done..|]. intros a b Hok. cbn [tokens_of].
  unfold count_tok. rewrite Hlen, !N2Nat.id. cbn [app]. f_equal. f_equal.
  unfold key_toks, key_push. destruct ctx; done.
Qed.

Lemma multi_a_arm_advances nt ter ts C :
  awaits nt ter C → Forall good ter → Forall token_sized ts →
  advances ts (TkNumEqual :: C) (multi_a_arm ctx nt ter ts).
Proof.
  intros Haw Hter Hts. unfold multi_a_arm. destruct ts as [|[] ts]; try done. case_match; [done|].
  apply advances_tok. inversion_clear Hts as [|? ? _ Hts'].
  pose proof (multi_a_keys_spec ts [] Hts') as Hm.
  destruct (multi_a_keys ctx ts []) as [[keys ts']| |]; [|done|done].
  destruct Hm as (k & ks & -> & ->). cbn [result_bind]. rewrite app_nil_r.
  apply advances_read.
  match goal with |- advances _ (?K ++ TkNum n :: TkNumEqual :: C) _ =>
    replace (K ++ TkNum n :: TkNumEqual :: C) with ((K ++ [TkNum n; TkNumEqual]) ++ C)
      by (by rewrite <-app_assoc) end.
  apply reduce0_to_advances; [done..|]. intros a b _. cbn [tokens_of].
  unfold count_tok. by rewrite N2Nat.id, <-app_assoc.
Qed.

(** *** Expressions *)

Lemma thresh_start nt ter C k :
  awaits nt ter C → stacks (NtThreshW (N.to_nat k) 0 :: nt) ter (TkNum k :: TkEqual :: C).
Proof.
  intros Haw. pose proof (st_thresh_w nt ter C (N.to_nat k) [] Haw) as Hst. simpl in Hst.
  unfold count_tok in Hst. by rewrite N2Nat.id in Hst.
Qed.

Lemma verify_arm_advances nt ter ts C :
  awaits nt ter C → Forall good ter → Forall token_sized ts →
  advances ts (TkVerify :: C) (verify_arm ctx nt ter ts).
Proof.
  intros Haw Hter Hts. unfold verify_arm, un_next.
  assert (∀ l, advances l (TkVerify :: C) (Ok (MkParser (NtExpression :: NtVerify :: nt) ter l))) as Hx
    by (intros l; apply advances_stop; [|done]; by apply st_expression, aw_verify).
  destruct ts as [|t ts]; [done|]. inversion_clear Hts as [|? ? _ Hts'].
  destruct t; try apply Hx.
  destruct ts as [|t ts]; [done|]. inversion_clear Hts' as [|? ? Hsz _].
  destruct t; try apply Hx; do 2 apply advances_tok.
  - apply advances_stop; [|done]. by apply thresh_start, aw_verify.
  - by apply verify_hash20_advances.
  - apply hash32_advances; [by apply aw_verify|done..].
Qed.

Lemma equal_arm_advances nt ter ts C :
  awaits nt ter C → Forall good ter → Forall token_sized ts →
  advances ts (TkEqual :: C) (equal_arm ctx nt ter ts).
Proof.
  intros Haw Hter Hts. unfold equal_arm. destruct ts as [|t ts]; [done|].
  inversion_clear Hts as [|? ? Hsz Hts']. destruct t; try done; apply advances_tok.
  - apply advances_stop; [|done]. by apply thresh_start.
  - by apply hash20_advances.
  - by apply hash32_advances.
Qed.

Lemma expression_advances nt ter ts C :
  awaits nt ter C → Forall good ter → Forall token_sized ts →
  advances ts C (expression ctx nt ter ts).
Proof.
  intros Haw Hter Hts. unfold expression. destruct ts as [|t ts]; [done|].
  inversion_clear Hts as [|? ? Hsz Hts'].
  destruct t; try done; try apply advances_tok.
  - apply advances_stop; [|done]. by apply st_w_expression, aw_and_b_w.
  - apply advances_stop; [|done]. by apply st_w_expression, aw_or_b_w.
  - by apply equal_arm_advances.
  - by apply multi_a_arm_advances.
  - apply advances_stop; [|done]. by apply st_expression, aw_check.
  - by apply multi_arm_advances.
  - destruct ts as [|[] ts]; try done. apply advances_tok.
    apply (reduce0_to_advances _ _ _ _ [_; _]); done.
  - destruct ts as [|[] ts]; try done. apply advances_tok.
    apply (reduce0_to_advances _ _ _ _ [_; _]); done.
  - apply advances_stop; [|done]. by apply st_expression, aw_and_v_prefix, aw_end_if.
  - apply advances_stop; [|done]. by apply st_expression, aw_zero_not_equal.
  - by apply verify_arm_advances.
  - destruct n as [|[]]; try done;
      apply (reduce0_to_advances _ _ _ _ [_]); done.
  - apply key_arm_advances; [done..|]. by apply push_token_32.
  - apply key_arm_advances; [done..|]. by apply push_token_33.
  - apply key_arm_advances; [done..|]. by apply push_token_65.
Qed.

(** *** The other non-terminals *)

Ltac list_good := repeat first [assumption | apply Forall_nil_2 | apply Forall_cons_2].

Lemma reduce1_advances nt ter ts C D x wrap :
  awaits nt ter C → Forall good (x :: ter) → children (wrap x) = [x] →
  (∀ a b, toks (MkMs (wrap x) a b) = D) →
  advances ts (D ++ C) (reduce1_to ctx nt (x :: ter) ts wrap).
Proof.
  intros Haw Hter Hch Ht. inversion_clear Hter.
  apply reduce0_to_advances; [done..|rewrite Hch; by list_good|]. intros a b _. apply Ht.
Qed.

Lemma reduce2_advances nt ter ts C D x y wrap :
  awaits nt ter C → Forall good (x :: y :: ter) → children (wrap x y) = [x; y] →
  (∀ a b, toks (MkMs (wrap x y) a b) = D) →
  advances ts (D ++ C) (reduce2_to ctx nt (x :: y :: ter) ts wrap).
Proof.
  intros Haw Hter Hch Ht. inversion_clear Hter as [|? ? Hx Hter']. inversion_clear Hter'.
  apply reduce0_to_advances; [done..|rewrite Hch; by list_good|]. intros a b _. apply Ht.
Qed.

Lemma reduce_tern_advances nt ter ts C a b c :
  awaits nt ter C → Forall good (a :: c :: b :: ter) →
  advances ts (toks a ++ TkNotIf :: toks c ++ TkElse :: toks b ++ TkEndIf :: C)
    (let? ter := reduce_tern ctx (a :: c :: b :: ter) in Ok (MkParser nt ter ts)).
Proof.
  intros Haw Hter. cbn [reduce_tern].
  inversion_clear Hter as [|? ? Ha Hter']. inversion_clear Hter' as [|? ? Hc Hter].
  inversion_clear Hter as [|? ? Hb Hter'].
  assert (Forall (well_typed ctx) (children (AndOr a b c))) as Hwt
    by (destruct Ha, Hb, Hc; cbn [children]; list_good).
  pose proof (type_check_no_panic ctx (AndOr a b c)) as Hp.
  destruct (type_check ctx (AndOr a b c)) as [u|err|] eqn:Ht; cbn [map_err result_bind]; [|done|done].
  destruct (ext_type_check_inv ctx (AndOr a b c) u) as (e & He & _); [|done|].
  { eapply Forall_impl; [|exact Hwt]. apply well_typed_ext_inv. }
  rewrite He. cbn [map_err result_bind]. exists []. split_and!; [done|..].
  - pose proof (st_done nt ter C (MkMs (AndOr a b c) u e) Haw) as Hst. cbn [tokens_of] in Hst.
    repeat (rewrite <-app_assoc in Hst || cbn [app] in Hst). done.
  - constructor; [|done]. split; [by constructor|]. constructor; [by destruct ctx|].
    destruct Ha, Hb, Hc; cbn [children]; list_good.
Qed.

Lemma stacks_expression nt ter C :
  stacks (NtExpression :: nt) ter C → awaits nt ter C.
Proof.
  inversion 1; subst; [done|]. match goal with Ha : awaits _ _ _ |- _ => inversion Ha; subst end.
  - by apply aw_and_b.
  - by apply aw_or_b.
Qed.

Lemma stacks_thresh_w k n nt ter C :
  stacks (NtThreshW k n :: nt) ter C →
  ∃ ter0 C0 ws, awaits nt ter0 C0 ∧ n = length ws ∧ ter = ws ++ ter0 ∧
    C = wtoks ws ++ count_tok k :: TkEqual :: C0.
Proof.
  inversion 1; subst; [|by eauto 10].
  match goal with Ha : awaits (_ :: _) _ _ |- _ => inversion Ha; subst end.
  eexists _, _, (_ :: _). refine (conj _ (conj _ (conj eq_refl _))); [done|simpl; lia|].
  unfold wtoks. simpl. by rewrite <-!app_assoc.
Qed.

Lemma thresh_e_advances k ws x nt ter ts C :
  awaits nt ter C → Forall good (x :: ws ++ ter) →
  advances ts (toks x ++ wtoks ws ++ count_tok k :: TkEqual :: C)
    (let? (subs, ter) := pop_n (length ws + 1) (x :: ws ++ ter) in
     reduce0_to ctx nt ter ts (Thresh k subs)).
Proof.
  intros Haw Hg. inversion_clear Hg as [|? ? Hx Hg']. apply Forall_app in Hg' as [Hws Hter].
  unfold pop_n. simpl. rewrite length_app.
  assert (length ws + 1 <=? S (length ws + length ter) = true) as -> by (apply Nat.leb_le; lia).
  cbn [result_bind]. replace (length ws + 1) with (S (length ws)) by lia. simpl.
  rewrite take_app_length, drop_app_length.
  replace (toks x ++ wtoks ws ++ count_tok k :: TkEqual :: C)
    with ((toks x ++ wtoks ws ++ [count_tok k; TkEqual]) ++ C) by (by rewrite <-!app_assoc).
  apply reduce0_to_advances; [done..|by constructor|]. intros a b _. done.
Qed.

(** A non-terminal that is not a producer was waiting for the term on the top. *)
Lemma stacks_done x nt ter C :
  stacks (x :: nt) ter C →
  match x with
  | NtExpression | NtWExpression | NtThreshW _ _ | NtEndIfNotIf | NtDupIf | NtNonZero => True
  | _ => ∃ y ter0 C0, awaits (x :: nt) ter0 C0 ∧ ter = y :: ter0 ∧ C = toks y ++ C0
  end.
Proof. intros Hst. destruct x; try done; inversion Hst; subst; eauto 10. Qed.

Ltac done_term Hst :=
  apply stacks_done in Hst as (y & ter0 & C0 & Haw & -> & ->); inversion Haw; subst.

Lemma advances_text ts C C' r : C = C' → advances ts C r → advances ts C' r.
Proof. by intros <-. Qed.

(** Split the text of the goal after [D]. *)
Ltac as_read D :=
  eapply (advances_text _ (D ++ _));
  [repeat (rewrite <-app_assoc || cbn [app rev]); reflexivity|].

Lemma handle_advances x nt ter ts C :
  stacks (x :: nt) ter C → Forall good ter → Forall token_sized ts →
  advances ts C (handle ctx x nt ter ts).
Proof.
  intros Hst Hter Hts. destruct x; cbn [handle].
  - apply expression_advances; [by apply stacks_expression in Hst|done..].
  - inversion Hst; subst.
    2:{ match goal with Ha : awaits (_ :: _) _ _ |- _ => inversion Ha end. }
    destruct ts as [|t ts]; [done|].
    assert (advances (t :: ts) C (Ok (MkParser (NtExpression :: NtMaybeAndV :: NtSwap :: nt) ter (t :: ts))))
      as Hswap by (apply advances_stop; [|done]; by apply st_expression, aw_and_v_prefix, aw_swap).
    destruct t; try exact Hswap. apply advances_tok.
    apply advances_stop; [|done]. by apply st_expression, aw_and_v_prefix, aw_alt.
  - done_term Hst. apply match_tokens_advances. intros ts'. rewrite app_assoc.
    by apply reduce1_advances.
  - done_term Hst. destruct (is_and_v ts); apply advances_stop; try done; [|by apply st_done].
    by apply st_expression, aw_and_v.
  - done_term Hst. apply match_tokens_advances. intros ts'.
    as_read ([TkToAltStack] ++ toks y ++ [TkFromAltStack]). by apply reduce1_advances.
  - done_term Hst. as_read (toks y ++ [TkCheckSig]). by apply reduce1_advances.
  - inversion Hst; subst; [match goal with Ha : awaits (_ :: _) _ _ |- _ => inversion Ha end|].
    as_read ([TkDup; TkIf] ++ toks x ++ [TkEndIf]). by apply reduce1_advances.
  - done_term Hst. as_read (toks y ++ [TkVerify]). by apply reduce1_advances.
  - inversion Hst; subst; [match goal with Ha : awaits (_ :: _) _ _ |- _ => inversion Ha end|].
    as_read ([TkSize; TkZeroNotEqual; TkIf] ++ toks x ++ [TkEndIf]). by apply reduce1_advances.
  - done_term Hst. as_read (toks y ++ [TkZeroNotEqual]). by apply reduce1_advances.
  - done_term Hst. destruct (is_and_v ts).
    + apply advances_stop; [|done]. apply st_done. by apply aw_and_v_prefix.
    + rewrite app_assoc. by apply reduce2_advances.
  - done_term Hst. as_read (toks y ++ toks w ++ [TkBoolAnd]). by apply reduce2_advances.
  - done_term Hst. by apply reduce_tern_advances.
  - done_term Hst. as_read (toks y ++ toks w ++ [TkBoolOr]). by apply reduce2_advances.
  - done_term Hst. as_read (toks y ++ [TkIfDup; TkNotIf] ++ toks r ++ [TkEndIf]).
    by apply reduce2_advances.
  - done_term Hst. as_read (toks y ++ [TkNotIf] ++ toks r ++ [TkEndIf]).
    by apply reduce2_advances.
  - apply stacks_thresh_w in Hst as (ter0 & C0 & ws & Haw & -> & -> & ->).
    destruct ts as [|t ts]; [done|].
    assert (advances (t :: ts) (wtoks ws ++ count_tok k :: TkEqual :: C0)
      (Ok (MkParser (NtExpression :: NtThreshE k (length ws + 1) :: nt) (ws ++ ter0) (t :: ts))))
      as He by (apply advances_stop; [|done]; by apply st_expression, aw_thresh_e).
    destruct t; try exact He. apply advances_tok.
    apply advances_stop; [|done]. by apply st_w_expression, aw_thresh_w.
  - done_term Hst. by apply thresh_e_advances.
  - done_term Hst. destruct ts as [|t ts]; [done|]. destruct t; try done; apply advances_tok.
    + destruct ts as [|t ts]; [done|]. destruct t; try done; apply advances_tok.
      * apply advances_stop; [|done]. by apply st_dup_if.
      * apply match_tokens_advances. intros ts'. apply advances_stop; [|done]. by apply st_non_zero.
    + apply advances_stop; [|done]. by apply st_end_if_not_if.
    + apply advances_stop; [|done]. by apply st_expression, aw_and_v_prefix, aw_end_if_else.
  - inversion Hst; subst; [match goal with Ha : awaits (_ :: _) _ _ |- _ => inversion Ha end|].
    destruct ts as [|t ts]; [done|].
    match goal with |- advances _ ?T _ =>
      assert (advances (t :: ts) T
        (Ok (MkParser (NtExpression :: NtOrC :: nt) (r :: ter0) (t :: ts)))) as Hc
        by (apply advances_stop; [|done]; by apply st_expression, aw_or_c) end.
    destruct t; try exact Hc. apply advances_tok.
    apply advances_stop; [|done]. by apply st_expression, aw_or_d.
  - done_term Hst. destruct ts as [|t ts]; [done|]. destruct t; try done; apply advances_tok.
    + as_read ([TkIf] ++ toks y ++ [TkElse] ++ toks r ++ [TkEndIf]). by apply reduce2_advances.
    + as_read [TkNotIf].
      apply advances_stop; [|done]. by apply st_expression, aw_tern.
Qed.

(** *** The loop *)

(** The invariant of the loop on a sequence of tokens [all]. *)
Definition loop_inv (all : TokenIter) (p : Parser (Pk := Pk) (Ext := Ext)) : Prop :=
  ∃ D, all = rev D ++ tokens p ∧ stacks (non_term p) (term p) D ∧ Forall good (term p).

Lemma advances_inv all ts D r :
  all = rev D ++ ts → advances ts D r →
  match r with Ok p => loop_inv all p | Err _ => True | Panic => False end.
Proof.
  intros -> Hr. destruct r as [p| |]; [|done|done]. destruct Hr as (D' & -> & Hst & Hg).
  exists (D' ++ D). by rewrite rev_app_distr, <-app_assoc.
Qed.

Lemma step_inv all p :
  Forall token_sized all → loop_inv all p →
  match step ctx p with
  | Ok (Some p') => loop_inv all p'
  | Ok None => non_term p = []
  | Err _ => True
  | Panic => False
  end.
Proof.
  intros Hall (D & Heq & Hst & Hg). destruct p as [nt ter ts]; cbn [non_term term tokens] in *.
  assert (Forall token_sized ts) as Hts by (rewrite Heq in Hall; by apply Forall_app in Hall as [_ ?]).
  assert (∀ r : result Error Parser, advances ts D r →
    match (let? p := r in Ok (Some p)) with
    | Ok (Some p') => loop_inv all p'
    | Ok None => nt = []
    | Err _ => True
    | Panic => False
    end) as Hadv.
  { intros r Hr. pose proof (advances_inv all ts D r Heq Hr). by destruct r. }
  unfold step; cbn [non_term term tokens]. destruct nt as [|x nt]; [done|].
  pose proof (Hadv _ (handle_advances x nt ter ts D Hst Hg Hts)) as Hx.
  destruct x; try exact Hx.
  destruct (from_token_iter ts) as [[e|] ts'] eqn:He.
  - apply from_token_iter_Some in He. apply Hadv. rewrite He. apply advances_read.
    apply reduce0_to_advances; [by apply stacks_expression|done..].
  - apply from_token_iter_None in He as ->. exact Hx.
Qed.

Lemma parse_loop_inv all fuel p :
  Forall token_sized all → loop_inv all p →
  match parse_loop ctx fuel p with
  | Some (Ok p') => loop_inv all p' ∧ non_term p' = []
  | Some (Err _) => True
  | Some Panic => False
  | None => True
  end.
Proof.
  intros Hall. revert p. induction fuel as [|fuel IH]; intros p Hp; simpl; [done|].
  pose proof (step_inv all p Hall Hp) as Hs.
  destruct (step ctx p) as [[p'|]| |]; [|done..]. by apply IH.
Qed.

Lemma parse_start_inv ts : loop_inv ts (parse_start ts).
Proof.
  exists []. split_and!; [done| |done]. apply st_expression, aw_and_v_prefix, aw_nil.
Qed.

Lemma parse_spec ts :
  Forall token_sized ts →
  match parse ctx ts with
  | Some (Ok (ms, ts')) => ts = rev (toks ms) ++ ts' ∧ good ms
  | Some (Err _) => True
  | _ => False
  end.
Proof.
  intros Hts. pose proof (parse_terminates (Pk := Pk) (Ext := Ext) ctx ts) as [r Hr]. rewrite Hr.
  unfold parse in Hr.
  pose proof (parse_loop_inv ts (parse_fuel ts) _ Hts (parse_start_inv ts)) as Hl.
  destruct (parse_loop ctx (parse_fuel ts) (parse_start ts)) as [[p|e|]|]; simplify_eq; [|done..].
  destruct Hl as [(D & -> & Hst & Hg) Hnt]. rewrite Hnt in Hst. inversion Hst; subst.
  match goal with Ha : awaits [] _ _ |- _ => inversion Ha; subst end.
  match goal with Ht : _ = term p |- _ => rewrite <-Ht in * end. simplify_eq.
  inversion_clear Hg. by rewrite app_nil_r.
Qed.

(** (C19) Soundness of the decoder: [parse] never panics, and a Miniscript it returns
    has exactly the tokens that were consumed, is well typed at every node, and every
    node is admitted by the context. *)
Theorem parse_sound ts :
  Forall token_sized ts →
  match parse ctx ts with
  | Some (Ok (ms, ts')) =>
      ts = rev (toks ms) ++ ts' ∧ well_typed ctx ms ∧ all_nodes (node_allowed ctx) ms
  | Some (Err _) => True
  | _ => False
  end.
Proof. apply parse_spec. Qed.
End sound.
