(* ===== verification/Lexing.v ===== *)
(** * Correctness of the lexer

    The instructions a sequence of tokens stands for, as a specification ([unlex]);
    on the tokens of the fragments without extensions the lexer and [unlex] are inverse
    to each other, up to one script the lexer should refuse. *)

From S2P Require Import Prelude Types Extension Instances Property Ast Typing Resources Tokens Context ScriptNum Script Encoding Lex Decode DecodeLoop DecodeSound.

(** The tokens of the fragments of Miniscript, extensions apart. *)
Definition core (t : Token) : bool :=
  match t with
  | TkBoolAnd | TkBoolOr | TkAdd | TkEqual | TkNumEqual | TkCheckSig | TkCheckSigAdd
  | TkCheckMultiSig | TkCheckSequenceVerify | TkCheckLockTimeVerify | TkFromAltStack
  | TkToAltStack | TkDup | TkIf | TkIfDup | TkNotIf | TkElse | TkEndIf | TkZeroNotEqual
  | TkSize | TkSwap | TkVerify | TkRipemd160 | TkHash160 | TkSha256 | TkHash256 | TkNum _
  | TkHash20 _ | TkBytes8 _ | TkBytes32 _ | TkBytes33 _ | TkBytes65 _ => true
  | _ => false
  end.

(** The instruction of a core token by itself. *)
Definition tok_instr (t : Token) : Instruction :=
  match t with
  | TkBoolAnd => Op OP_BOOLAND
  | TkBoolOr => Op OP_BOOLOR
  | TkAdd => Op OP_ADD
  | TkEqual => Op OP_EQUAL
  | TkNumEqual => Op OP_NUMEQUAL
  | TkCheckSig => Op OP_CHECKSIG
  | TkCheckSigAdd => Op OP_CHECKSIGADD
  | TkCheckMultiSig => Op OP_CHECKMULTISIG
  | TkCheckSequenceVerify => Op OP_CSV
  | TkCheckLockTimeVerify => Op OP_CLTV
  | TkFromAltStack => Op OP_FROMALTSTACK
  | TkToAltStack => Op OP_TOALTSTACK
  | TkDup => Op OP_DUP
  | TkIf => Op OP_IF
  | TkIfDup => Op OP_IFDUP
  | TkNotIf => Op OP_NOTIF
  | TkElse => Op OP_ELSE
  | TkEndIf => Op OP_ENDIF
  | TkZeroNotEqual => Op OP_0NOTEQUAL
  | TkSize => Op OP_SIZE
  | TkSwap => Op OP_SWAP
  | TkVerify => Op OP_VERIFY
  | TkRipemd160 => Op OP_RIPEMD160
  | TkHash160 => Op OP_HASH160
  | TkSha256 => Op OP_SHA256
  | TkHash256 => Op OP_HASH256
  | TkNum n => num_instr n
  | TkHash20 b | TkBytes8 b | TkBytes32 b | TkBytes33 b | TkBytes65 b | TkPush b => PushBytes b
  | _ => Op OP_VERIFY
  end.

Definition unlex_step (l : list Instruction) (t : Token) : list Instruction :=
  match t with TkVerify => add_verify l | _ => l ++ [tok_instr t] end.

Definition unlex (ts : list Token) : list Instruction := fold_left unlex_step ts [].

(** *** Concatenation *)

(** The second half does not begin with a VERIFY that could merge. *)
Definition no_verify (ts : list Token) : Prop := head ts ≠ Some TkVerify.

Lemma unlex_step_tok l t : t ≠ TkVerify → unlex_step l t = l ++ [tok_instr t].
Proof. by destruct t. Qed.

Lemma unlex_step_nonempty l t : unlex_step l t ≠ [].
Proof. destruct t; try apply add_verify_nonempty; by apply app_ne_r. Qed.

Lemma unlex_step_app l f t : f ≠ [] → unlex_step (l ++ f) t = l ++ unlex_step f t.
Proof. intros Hf. destruct t; simpl; rewrite <-?app_assoc; try done. by apply add_verify_app. Qed.

Lemma unlex_fold_app b l f :
  f ≠ [] → fold_left unlex_step b (l ++ f) = l ++ fold_left unlex_step b f.
Proof.
  revert f. induction b as [|t b IH]; intros f Hf; simpl; [done|].
  rewrite unlex_step_app by done. apply IH, unlex_step_nonempty.
Qed.

Lemma unlex_snoc a t : unlex (a ++ [t]) = unlex_step (unlex a) t.
Proof. unfold unlex. by rewrite fold_left_app. Qed.

Lemma unlex_app a b : no_verify b → unlex (a ++ b) = unlex a ++ unlex b.
Proof.
  intros Hb. unfold unlex. rewrite fold_left_app. destruct b as [|t b]; simpl; [by rewrite app_nil_r|].
  assert (t ≠ TkVerify) as Ht by (intros ->; by apply Hb).
  rewrite !unlex_step_tok by done. by rewrite unlex_fold_app.
Qed.

Lemma unlex_one t : t ≠ TkVerify → unlex [t] = [tok_instr t].
Proof. apply unlex_step_tok. Qed.

(** ** Scripts of Miniscripts *)

Section scripts.
Context {Pk : Type} `{MiniscriptKey Pk} `{BitcoinKeys} `{!ToPublicKey Pk} `{!ScriptBuilder}.
Context `{LockTimes}.
Context (ctx : ScriptContext).
Implicit Types ms : Miniscript Pk NoExt.
Notation toks := (tokens_of ctx).

Lemma tok_instr_push b : tok_instr (push_token b) = PushBytes b.
Proof. unfold push_token. repeat case_match; done. Qed.
Lemma push_token_not_verify b : push_token b ≠ TkVerify.
Proof. unfold push_token. repeat case_match; done. Qed.

Lemma no_verify_app a b : a ≠ [] → no_verify a → no_verify (a ++ b).
Proof. by destruct a. Qed.

(** No fragment is empty or begins with a VERIFY. *)
Lemma tokens_start ms : well_typed ctx ms → toks ms ≠ [] ∧ no_verify (toks ms).
Proof.
  revert ms. apply well_typed_ind'. intros t mty mext Ht _ _ IH.
  unfold type_check, property_check in Ht.
  destruct t; cbn [children tokens_of] in *; rewrite ?Forall_cons_iff in IH;
    repeat match goal with IH : _ ∧ _ |- _ => destruct IH end;
    try done; try (split; [by apply app_ne_l|by apply no_verify_app]).
  - split; [done|]. intros [=Hp]. by eapply push_token_not_verify.
  - apply check_threshold_cons in Ht. destruct subs as [|s subs]; [simpl in *; lia|].
    rewrite Forall_cons_iff in IH. destruct IH as [[??] _].
    split; [by apply app_ne_l|by apply no_verify_app].
  - apply check_threshold_cons in Ht. destruct pks as [|k0 pks]; [simpl in *; lia|].
    split; [done|]. intros [=Hp]. by eapply push_token_not_verify.
Qed.

(** The side conditions of the scripts below. *)
Lemma core_push b : (length b = 20 ∨ length b = 32 ∨ length b = 33 ∨ length b = 65) → core (push_token b) = true.
Proof. unfold push_token. intros Hb. destruct_or! Hb; by rewrite Hb. Qed.

(** The tokens of a Miniscript are core tokens of the right length; their numbers satisfy
    what the numbers of the tree do. *)
Section numbers.
Variable Q : N → Prop.
Hypothesis small : ∀ n, (n <= 32)%N → Q n.

Definition tok_ok (t : Token) : Prop :=
  core t = true ∧ token_sized t ∧ match t with TkNum n => Q n | _ => True end.

Definition node_nums (t : Terminal Pk NoExt) : Prop :=
  match t with
  | After t | Older t => Q t
  | Thresh _ subs => ∀ k, k ≤ length subs → Q (N.of_nat k)
  | Multi _ keys | MultiA _ keys => ∀ k, k ≤ length keys → Q (N.of_nat k)
  | _ => True
  end.

Lemma tok_ok_push b :
  (length b = 20 ∨ length b = 32 ∨ length b = 33 ∨ length b = 65) → tok_ok (push_token b).
Proof. intros Hb. unfold tok_ok, push_token. destruct_or! Hb; rewrite Hb; by split_and!. Qed.

Lemma tok_ok_key `{!ToPublicKeyOk Pk} k : tok_ok (push_token (key_push ctx k)).
Proof.
  apply tok_ok_push. unfold key_push. destruct (sig_type ctx).
  - rewrite pubkey_bytes_length. destruct (is_uncompressed k); auto.
  - rewrite xonly_length. auto.
Qed.
Lemma tok_ok_pubkey `{!ToPublicKeyOk Pk} (k : Pk) :
  tok_ok (push_token (pubkey_bytes (to_public_key k))).
Proof. apply tok_ok_push. rewrite pubkey_bytes_length. destruct (is_uncompressed k); auto. Qed.
Lemma tok_ok_hash {n} (h : hash_n n) : n = 20 ∨ n = 32 → tok_ok (push_token (hash_bytes h)).
Proof. intros Hn. apply tok_ok_push. rewrite hash_bytes_length. tauto. Qed.
Lemma tok_ok_num n : Q n → tok_ok (TkNum n).
Proof. by intros Hn. Qed.
Lemma tok_ok_small n : (n <= 32)%N → tok_ok (TkNum n).
Proof. intros Hn. by apply tok_ok_num, small. Qed.

Ltac toks_ok :=
  repeat apply Forall_cons_2; try done;
  try (by apply tok_ok_small); try (by apply tok_ok_hash; auto); try apply tok_ok_key;
  try apply Forall_nil_2.

Lemma tokens_ok `{!ToPublicKeyOk Pk} ms :
  well_typed ctx ms → all_nodes node_nums ms → Forall tok_ok (toks ms).
Proof.
  revert ms. apply (well_typed_ind' ctx (λ ms, all_nodes node_nums ms → Forall tok_ok (toks ms))).
  intros t mty mext Ht _ _ IH [Hok Hall]%all_nodes_inv. cbn [node] in *.
  assert (Forall (λ s, Forall tok_ok (toks s)) (children t)) as Hch.
  { clear -IH Hall. induction IH; inversion_clear Hall; constructor; auto. }
  clear IH Hall. unfold type_check, property_check in Ht.
  destruct t; cbn [children tokens_of node_nums] in *; unfold hash_toks;
    rewrite ?Forall_cons_iff in Hch;
    repeat match goal with IH : _ ∧ _ |- _ => destruct IH end; rewrite ?Forall_app; split_and?;
    try done; try (toks_ok; fail).
  - apply check_threshold_cons in Ht as Hk.
    destruct subs as [|s subs]; [simpl in *; lia|]. apply Forall_cons_iff in Hch as [Hs Hsubs].
    rewrite !Forall_app. split_and!; [done| |].
    + apply Forall_concat, Forall_map. eapply Forall_impl; [|exact Hsubs]. intros s' Hs'.
      rewrite Forall_app. split; [done|by toks_ok].
    + toks_ok. apply tok_ok_num, Hok, Hk.
  - toks_ok. apply check_threshold_cons in Ht as [_ Hk]. by apply tok_ok_num, Hok.
  - apply Forall_map, Forall_true. intros k'. apply tok_ok_pubkey.
  - toks_ok. apply tok_ok_num, Hok; lia.
  - apply check_threshold_cons in Ht as Hk.
    destruct pks as [|key keys]; [simpl in *; lia|].
    rewrite !Forall_app. split_and!; [by toks_ok| |].
    + apply Forall_concat, Forall_map, Forall_true. intros k'. by toks_ok.
    + toks_ok. apply tok_ok_num, Hok, Hk.
Qed.
End numbers.

(** Tokens the lexer can read back: numbers of at most four bytes. *)
Definition readable : Token → Prop := tok_ok (λ n, (n < 2 ^ 31)%N).

(** The numbers of a tree fit in the four bytes the lexer accepts. *)
Definition node_readable (t : Terminal Pk NoExt) : Prop :=
  match t with
  | After t | Older t => (t < 2 ^ 31)%N
  | Thresh _ subs => (N.of_nat (length subs) < 2 ^ 31)%N
  | Multi _ keys | MultiA _ keys => (N.of_nat (length keys) < 2 ^ 31)%N
  | _ => True
  end.

Lemma tokens_readable `{!ToPublicKeyOk Pk} ms :
  well_typed ctx ms → all_nodes node_readable ms → Forall readable (toks ms).
Proof.
  intros Hwt Hr. apply (tokens_ok (λ n, (n < 2 ^ 31)%N)); [intros; lia|done|done|].
  eapply all_nodes_impl; [|exact Hr]. intros []; simpl; try done; intros; lia.
Qed.

Lemma all_nodes_true (P : Terminal Pk NoExt → Prop) ms : (∀ t, P t) → all_nodes P ms.
Proof.
  intros HP. induction ms as [t mty mext IH] using Miniscript_tree_ind. by constructor.
Qed.

Lemma tokens_core `{!ToPublicKeyOk Pk} ms :
  well_typed ctx ms → Forall (λ t, core t = true) (toks ms).
Proof.
  intros Hwt. eapply Forall_impl; [|apply (tokens_ok (λ _, True)); [done|done|exact Hwt|]].
  - by intros t [? _].
  - apply all_nodes_true. by intros [].
Qed.

(** *** The instructions of the tokens *)

Lemma no_verify_cons t b : t ≠ TkVerify → no_verify (t :: b).
Proof. intros Ht [=]. congruence. Qed.

Lemma unlex_cons t b : t ≠ TkVerify → no_verify b → unlex (t :: b) = tok_instr t :: unlex b.
Proof. intros Ht Hb. change (t :: b) with ([t] ++ b). by rewrite unlex_app, unlex_one. Qed.

Lemma unlex_equal_verify b :
  no_verify b → unlex (TkEqual :: TkVerify :: b) = Op OP_EQUALVERIFY :: unlex b.
Proof. intros Hb. change (TkEqual :: TkVerify :: b) with ([TkEqual; TkVerify] ++ b). by rewrite unlex_app. Qed.

Ltac no_verify :=
  repeat first [done | apply push_token_not_verify | apply no_verify_cons
               | apply tokens_start; done
               | apply no_verify_app; [apply tokens_start; done|] ].

(** Push [unlex] through a text whose pieces begin with no VERIFY. *)
Ltac unlex_text :=
  repeat first [ rewrite unlex_one by no_verify | rewrite unlex_cons by no_verify
               | rewrite unlex_equal_verify by no_verify | rewrite unlex_app by no_verify ];
  cbn [tok_instr]; rewrite ?tok_instr_push.

Lemma unlex_keys (f : Pk → bytes) (keys : list Pk) b :
  no_verify b →
  unlex (map (λ k, push_token (f k)) keys ++ b) = map (λ k, PushBytes (f k)) keys ++ unlex b.
Proof.
  intros Hb. induction keys as [|k keys IH]; cbn [map app]; [done|].
  rewrite unlex_cons, tok_instr_push, IH; [done|by no_verify|].
  destruct keys; [done|by no_verify].
Qed.

Lemma unlex_groups {A} (f : A → list Token) (g : A → list Instruction) l b :
  no_verify b → Forall (λ x, f x ≠ [] ∧ no_verify (f x) ∧ unlex (f x) = g x) l →
  no_verify (concat (map f l) ++ b) ∧ unlex (concat (map f l) ++ b) = concat (map g l) ++ unlex b.
Proof.
  intros Hb Hl. induction Hl as [|x l (Hne & Hv & Hx) _ [IHv IH]]; cbn [map concat]; [done|].
  rewrite <-!app_assoc. split; [by apply no_verify_app|]. by rewrite unlex_app, Hx, IH.
Qed.

Lemma unlex_tokens ms : well_typed ctx ms → unlex (toks ms) = instrs ctx ms.
Proof.
  revert ms. apply well_typed_ind'. intros t mty mext Ht _ Hwt IH.
  unfold type_check, property_check in Ht.
  destruct t; cbn [children tokens_of instrs] in *; rewrite ?Forall_cons_iff in IH, Hwt;
    repeat match goal with IH : _ ∧ _ |- _ => destruct IH end;
    try done; unfold hash_toks; try (unlex_text; cbn [app]; first [reflexivity | congruence]).
  - rewrite unlex_snoc. cbn [unlex_step]. congruence.
  - apply check_threshold_cons in Ht as Hk. destruct subs as [|s subs]; [simpl in *; lia|].
    apply Forall_cons_iff in IH as [Hs Hsubs]. apply Forall_cons_iff in Hwt as [Hws Hwt].
    destruct (unlex_groups (λ s, toks s ++ [TkAdd]) (λ s, instrs ctx s ++ [Op OP_ADD]) subs
      [count_tok k; TkEqual]) as [Hv Hu]; [done| |by rewrite unlex_app, Hs, Hu].
    clear -Hsubs Hwt. induction Hsubs as [|s subs Hs _ IH]; inversion_clear Hwt as [|? ? Hws Hwt'];
      constructor; [|by apply IH].
    destruct (tokens_start s Hws) as [Hne Hv].
    split_and!; [by apply app_ne_l|by apply no_verify_app|]. by rewrite unlex_app, Hs.
  - cbn [app]. rewrite unlex_cons; [|done|by destruct pks; no_verify].
    rewrite unlex_keys by done. done.
  - apply check_threshold_cons in Ht as Hk. destruct pks as [|key keys]; [simpl in *; lia|].
    destruct (unlex_groups (λ k, [push_token (key_push ctx k); TkCheckSigAdd])
      (λ k, [PushBytes (key_push ctx k); Op OP_CHECKSIGADD]) keys [count_tok k; TkNumEqual])
      as [Hv Hu]; [done| |].
    + apply Forall_true. intros k'. split_and!; [done|by no_verify|by unlex_text].
    + rewrite unlex_app, Hu by done. by unlex_text.
Qed.
End scripts.

(** ** The lexer on scripts *)

Section lexing.
Context `{ScriptBuilder} `{!ScriptBuilderOk}.
Implicit Types (l : list Instruction) (ret ts : list Token).

Definition lex_all l ret : result Error (list Token) := try_fold lex_instr ret (Ok <$> l).

Lemma lex_all_snoc l i ret :
  lex_all (l ++ [i]) ret = let? ret := lex_all l ret in lex_instr ret (Ok i).
Proof.
  unfold lex_all. rewrite fmap_app, try_fold_app.
  destruct (try_fold lex_instr ret (Ok <$> l)) as [ret'| |]; [|done..].
  cbn [fmap list_fmap try_fold result_bind]. by destruct (lex_instr ret' (Ok i)).
Qed.

Definition no_pick ret : Prop := head ret ≠ Some TkPick.

Lemma lex_push_no_pick b ret :
  no_pick ret →
  lex_push b ret =
  if length b =? 8 then Ok (TkBytes8 b :: ret)
  else if length b =? 20 then Ok (TkHash20 b :: ret)
  else if length b =? 32 then Ok (TkBytes32 b :: ret)
  else if length b =? 33 then Ok (TkBytes33 b :: ret)
  else if length b =? 65 then Ok (TkBytes65 b :: ret)
  else lex_number b ret.
Proof. intros Hp. by destruct ret as [|[] ret]. Qed.

(** *** Numbers *)

Lemma push_int_bytes_num n :
  (n < 2 ^ 63)%N →
  push_int_bytes (Z.of_N n) = match num_instr n with PushBytes b => b | Op _ => [] end.
Proof. apply push_int_tail. Qed.

Lemma build_scriptint_short n :
  (n < 2 ^ 31)%N → length (build_scriptint (Z.of_N n)) ≤ 4.
Proof. intros Hn. apply build_scriptint_length; lia. Qed.

Lemma lex_num_push n ret :
  (n < 2 ^ 31)%N → no_pick ret → (n = 0 ∨ 16 < n)%N →
  lex_push (build_scriptint (Z.of_N n)) ret = Ok (TkNum n :: ret).
Proof.
  intros Hn Hp Hr. rewrite lex_push_no_pick by done.
  pose proof (build_scriptint_short n Hn) as Hl.
  repeat match goal with |- context [length ?b =? ?k] =>
    destruct (Nat.eqb_spec (length b) k); [lia|] end.
  unfold lex_number. rewrite read_scriptint_build by lia.
  assert ((0 <=? Z.of_N n)%Z = true) as -> by (apply Z.leb_le; lia).
  rewrite push_int_bytes_num by lia. rewrite N2Z.id, N.mod_small by lia.
  rewrite bool_decide_eq_true_2; [done|]. unfold num_instr.
  destruct (N.eqb_spec n 0) as [->|?]; [done|]. destruct (N.leb_spec n 16); [lia|done].
Qed.

Lemma lex_num n ret :
  (n < 2 ^ 31)%N → no_pick ret → lex_instr ret (Ok (num_instr n)) = Ok (TkNum n :: ret).
Proof.
  intros Hn Hp. unfold num_instr. destruct (N.eqb_spec n 0) as [->|Hne].
  { apply (lex_num_push 0); [done..|by left]. }
  destruct (N.leb_spec n 16) as [Hle|Hgt].
  - assert (∃ k, k ≤ 16 ∧ n = N.of_nat k) as (k & Hk & ->) by (exists (N.to_nat n); lia).
    do 17 (destruct k as [|k]; [done|]). lia.
  - cbn. apply lex_num_push; [done..|by right].
Qed.

(** *** Single tokens *)

Lemma readable_no_pick ts : Forall readable ts → no_pick (rev ts).
Proof.
  intros Hts%Forall_rev. destruct (rev ts) as [|t ts']; [done|].
  intros [= ->]. inversion_clear Hts as [|? ? [??] _]. done.
Qed.

Lemma lex_tok t ret :
  readable t → no_pick ret → t ≠ TkVerify →
  lex_instr ret (Ok (tok_instr t)) = Ok (t :: ret).
Proof.
  intros (Hc & Hs & Hn) Hp Ht. destruct t; try done; cbn [tok_instr token_sized] in *;
    [by apply lex_num|..]; cbn -[lex_push]; rewrite lex_push_no_pick by done; by rewrite Hs.
Qed.

(** *** From tokens to tokens *)

(** Tokens a VERIFY of its own may not follow. *)
Definition verify_merges (t : Token) : bool :=
  match t with TkEqual | TkCheckSig | TkCheckMultiSig => true | _ => false end.

Lemma lex_verify_spec ret :
  lex_verify ret =
  match ret with
  | t :: _ => if verify_merges t then Err (NonMinimalVerify t) else Ok (TkVerify :: ret)
  | [] => Ok [TkVerify]
  end.
Proof. by destruct ret as [|[]]. Qed.

(** An instruction without a VERIFY version ends in no such token. *)
Lemma lex_instr_merges ret i t ret' :
  lex_instr ret (Ok i) = Ok (t :: ret') → verify_merges t = true → is_Some (instr_verify i).
Proof.
  intros Hi Ht. destruct i as [b|op].
  - exfalso. cbn -[lex_push] in Hi. unfold lex_push in Hi.
    destruct ret as [|u ret]; [|destruct u]; repeat (case_match; simplify_eq/=; try done);
      unfold lex_number in Hi; repeat (case_match; simplify_eq/=; try done).
    all: unfold slice_to_u32_le in *; repeat (case_match; simplify_eq/=; try done).
  - destruct op; cbn -[lex_verify] in Hi; simplify_eq; cbn in Ht; try done; try (by eexists).
    rewrite lex_verify_spec in Hi. repeat case_match; simplify_eq; done.
Qed.

Lemma lex_verify_instr ret i op t ret' :
  lex_instr ret (Ok i) = Ok (t :: ret') → core t = true → instr_verify i = Some op →
  lex_instr ret (Ok (Op op)) = Ok (TkVerify :: t :: ret').
Proof.
  destruct i as [|o]; [done|]. intros Hi Ht Hop. destruct o; cbn -[lex_verify] in *; simplify_eq; done.
Qed.

Lemma lex_unlex_readable ts : Forall readable ts → lex_all (unlex ts) [] = Ok (rev ts).
Proof.
  induction ts as [|t ts IH] using rev_ind; [done|].
  intros [Hts [Ht _]%Forall_cons_iff]%Forall_app. specialize (IH Hts).
  rewrite unlex_snoc, rev_app_distr. cbn [rev app].
  destruct (decide (t = TkVerify)) as [->|Hne].
  2:{ rewrite unlex_step_tok, lex_all_snoc, IH by done. cbn [result_bind].
      apply lex_tok; [done|by apply readable_no_pick|done]. }
  cbn [unlex_step]. unfold add_verify. destruct (rev (unlex ts)) as [|i l'] eqn:Hr.
  - apply (f_equal (@rev _)) in Hr. rewrite rev_involutive in Hr. simpl in Hr. rewrite Hr in IH.
    cbn in IH. injection IH as IH. rewrite <-IH. done.
  - assert (unlex ts = rev l' ++ [i]) as Hl by (by rewrite <-(rev_involutive (unlex ts)), Hr).
    rewrite Hl in IH. rewrite lex_all_snoc in IH. apply bind_Ok in IH as (ret & Hret & Hi).
    destruct (rev ts) as [|t ts'] eqn:Hts'.
    { destruct ts as [|u ts] using rev_ind; [done|]. by rewrite rev_app_distr in Hts'. }
    assert (core t = true) as Hcore.
    { apply Forall_rev in Hts. rewrite Hts' in Hts. by inversion_clear Hts as [|? ? [? _] _]. }
    destruct (instr_verify i) as [op|] eqn:Hv.
    + rewrite lex_all_snoc, Hret. cbn [result_bind]. by eapply lex_verify_instr.
    + rewrite Hl, lex_all_snoc, lex_all_snoc, Hret. cbn [result_bind]. rewrite Hi.
      cbn [result_bind]. cbn -[lex_verify]. rewrite lex_verify_spec.
      destruct (verify_merges t) eqn:Hm; [|done].
      destruct (lex_instr_merges _ _ _ _ Hi Hm) as [? ?]. congruence.
Qed.

(** *** From instructions to instructions *)

(** NUMEQUAL and VERIFY are not two instructions; the lexer lets this pass. *)
Definition verify_minimal l : Prop :=
  ∀ l1 l2, l ≠ l1 ++ Op OP_NUMEQUAL :: Op OP_VERIFY :: l2.

Lemma verify_minimal_app l l' : verify_minimal (l ++ l') → verify_minimal l.
Proof. intros Hl l1 l2 ->. apply (Hl l1 (l2 ++ l')). by rewrite <-app_assoc. Qed.

Lemma lex_number_core b ret ret' :
  lex_number b ret = Ok ret' → Forall (λ t, core t = true) ret' →
  ∃ n, num_instr n = PushBytes b ∧ ret' = TkNum n :: ret.
Proof.
  unfold lex_number.
  assert (Ok (TkPush b :: ret) = Ok (E := Error) ret' → Forall (λ t, core t = true) ret' → False) as Hpush
    by (intros [= <-] Hc; by inversion_clear Hc).
  destruct (read_scriptint b) as [v| |] eqn:Hv; [|by intros ??; destruct Hpush|done].
  pose proof (read_scriptint_ok _ _ Hv) as Hb.
  destruct (Z.leb_spec 0 v) as [Hpos|]; [|by intros ??; destruct Hpush].
  case_bool_decide as Hint; [|done]. intros [= <-] _. exists (Z.to_N v).
  rewrite N.mod_small by lia. split; [|done].
  rewrite <-(Z2N.id v), push_int_bytes_num in Hint by lia.
  destruct (num_instr (Z.to_N v)) as [b'|op] eqn:Hn; [by subst|]. subst b.
  pose proof (read_scriptint_build 0 eq_refl) as Hzero.
  change (build_scriptint 0) with (@nil Byte.byte) in Hzero.
  rewrite Hzero in Hv. injection Hv as <-. done.
Qed.

(** What an instruction that leaves core tokens only can have done. *)
Inductive lexed ret (i : Instruction) : list Token → Prop :=
  | lexed_tok t : t ≠ TkVerify → tok_instr t = i → lexed ret i (t :: ret)
  | lexed_merged t op :
      t ≠ TkVerify → i = Op op → instr_verify (tok_instr t) = Some op →
      lexed ret i (TkVerify :: t :: ret)
  | lexed_verify :
      i = Op OP_VERIFY → (∀ t ret', ret = t :: ret' → verify_merges t = false) →
      lexed ret i (TkVerify :: ret).

Lemma lex_push_core b ret ret' :
  lex_push b ret = Ok ret' → Forall (λ t, core t = true) ret' → lexed ret (PushBytes b) ret'.
Proof.
  intros Hp Hc. destruct (decide (head ret = Some TkPick)) as [Hpick|Hpick].
  { destruct ret as [|t ret]; simplify_eq/=. exfalso.
    repeat case_match; simplify_eq; try (by inversion_clear Hc).
    unfold slice_to_u32_le in Hp. case_match; [|done]. simplify_eq/=. by inversion_clear Hc. }
  rewrite lex_push_no_pick in Hp by done.
  repeat case_match; simplify_eq; try (by apply lexed_tok).
  destruct (lex_number_core _ _ _ Hp Hc) as (n & Hn & ->). by apply lexed_tok.
Qed.

Lemma lex_instr_core ret i ret' :
  lex_instr ret (Ok i) = Ok ret' → Forall (λ t, core t = true) ret' →
  i ≠ Op OP_PUSHBYTES_0 → lexed ret i ret'.
Proof.
  intros Hi Hc Hne. destruct i as [b|op]; [by apply lex_push_core|].
  destruct (decide (op = OP_VERIFY)) as [->|Hv].
  { cbn -[lex_verify] in Hi. rewrite lex_verify_spec in Hi.
    destruct ret as [|t ret]; [injection Hi as <-; by apply lexed_verify|].
    destruct (verify_merges t) eqn:Hm; [done|]. injection Hi as <-. apply lexed_verify; [done|].
    intros t' ret'' [= <- <-]. done. }
  destruct op; cbn in Hi; simplify_eq; try (by apply lexed_tok); try (by inversion_clear Hc);
    by eapply lexed_merged.
Qed.

Lemma lexed_core ret i ret' :
  lexed ret i ret' → Forall (λ t, core t = true) ret' → Forall (λ t, core t = true) ret.
Proof.
  intros [] Hc; inversion_clear Hc as [|? ? _ Hc']; [done| |done]. by inversion_clear Hc'.
Qed.

(** The last instruction of a script with core tokens, by the last token. *)
Lemma unlex_last t ts i l :
  core t = true → unlex (ts ++ [t]) = l ++ [i] → is_Some (instr_verify i) →
  verify_merges t = true ∨ i = Op OP_NUMEQUAL.
Proof.
  intros Hc Hl Hi. rewrite unlex_snoc in Hl. destruct (decide (t = TkVerify)) as [->|Hne].
  - exfalso. pose proof (ends_free_verify_add_verify (unlex ts)) as Hf. cbn in Hl. rewrite Hl in Hf.
    rewrite ends_free_verify_snoc in Hf. by apply bool_decide_eq_false in Hf.
  - rewrite unlex_step_tok in Hl by done. apply app_inj_tail in Hl as [_ <-].
    destruct t; try done; try (by left); try (by right);
      destruct Hi as [? Hi]; try discriminate Hi.
    exfalso. revert Hi. simpl. unfold num_instr. repeat case_match; try done.
    unfold pushnum. repeat case_match; done.
Qed.

Lemma unlex_lex_core l ret :
  lex_all l [] = Ok ret → Forall (λ t, core t = true) ret → verify_minimal l →
  Op OP_PUSHBYTES_0 ∉ l → unlex (rev ret) = l.
Proof.
  revert ret. induction l as [|i l IH] using rev_ind; intros ret Hl Hc Hmin Hop0.
  { by injection Hl as <-. }
  rewrite lex_all_snoc in Hl. apply bind_Ok in Hl as (ret0 & Hl & Hi).
  assert (i ≠ Op OP_PUSHBYTES_0 ∧ Op OP_PUSHBYTES_0 ∉ l) as [Hi0 Hl0].
  { split; [intros ->|intros Hin]; apply Hop0; apply elem_of_app; [right; by left|by left]. }
  pose proof (lex_instr_core _ _ _ Hi Hc Hi0) as Hlx.
  specialize (IH ret0 Hl (lexed_core _ _ _ Hlx Hc) (verify_minimal_app _ _ Hmin) Hl0).
  destruct Hlx as [t Ht Hti|t op Ht Hti Hop|Hti Hhead]; subst i.
  - cbn [rev]. by rewrite unlex_snoc, IH, unlex_step_tok.
  - cbn [rev]. rewrite unlex_snoc, unlex_snoc, IH, (unlex_step_tok l t) by done. cbn [unlex_step].
    rewrite add_verify_app by done. f_equal. unfold add_verify. cbn [rev app]. by rewrite Hop.
  - cbn [rev]. rewrite unlex_snoc, IH. cbn [unlex_step]. unfold add_verify.
    destruct (rev l) as [|j l'] eqn:Hr.
    { apply (f_equal (@rev _)) in Hr. rewrite rev_involutive in Hr. by rewrite Hr. }
    destruct (instr_verify j) as [op|] eqn:Hj; [|done]. exfalso.
    assert (l = rev l' ++ [j]) as Hlj by (by rewrite <-(rev_involutive l), Hr).
    destruct ret0 as [|t ret0]; [rewrite Hlj in IH; by apply app_cons_not_nil in IH|].
    inversion_clear Hc as [|? ? _ Hc']. inversion_clear Hc' as [|? ? Ht _].
    cbn [rev] in IH. rewrite Hlj in IH. destruct (unlex_last _ _ _ _ Ht IH) as [Hm|Hj'].
    + by eexists.
    + by rewrite (Hhead t ret0 eq_refl) in Hm.
    + apply (Hmin (rev l') []). by rewrite Hlj, Hj', <-app_assoc.
Qed.

(** *** The result of the lexer *)

Lemma lex_instr_sized ret i ret' :
  Forall token_sized ret → lex_instr ret i = Ok ret' → Forall token_sized ret'.
Proof.
  intros Hret Hi. destruct i as [[b|op]| |]; [| |done..].
  - cbn -[lex_push] in Hi. assert (∀ r r', lex_number b r = Ok r' → Forall token_sized r →
      Forall token_sized r') as Hnum.
    { intros r r' Hr Hs. unfold lex_number in Hr. repeat case_match; simplify_eq; by constructor. }
    destruct (decide (head ret = Some TkPick)) as [Hpick|Hpick].
    + destruct ret as [|t ret]; simplify_eq/=. inversion_clear Hret as [|? ? _ Hret'].
      repeat case_match; simplify_eq; try by constructor.
      unfold slice_to_u32_le in Hi. case_match; simplify_eq/=. by constructor.
    + rewrite lex_push_no_pick in Hi by done. repeat case_match; simplify_eq; eauto;
        constructor; try done; by apply Nat.eqb_eq.
  - destruct op; cbn -[lex_verify process_candidate_push] in Hi; simplify_eq;
      try (repeat apply Forall_cons_2; done).
    + constructor; [done|]. destruct ret as [|[] ret]; try done.
      destruct ret as [|[] ret]; try done; inversion_clear Hret as [|? ? _ Hret'];
        inversion_clear Hret'; by repeat apply Forall_cons_2.
    + rewrite lex_verify_spec in Hi. repeat case_match; simplify_eq; by constructor.
Qed.

Lemma lex_tokens_sized s ts : lex s = Ok ts → Forall token_sized ts.
Proof.
  unfold lex. intros (ret & Hret & [= <-])%bind_Ok. apply Forall_rev.
  refine (try_fold_inv (Forall token_sized) _ _ _ _ _ _ Hret); [|done].
  intros r x r' _. apply lex_instr_sized.
Qed.

Lemma lex_instr_no_panic ret i : i ≠ Panic → lex_instr ret i ≠ Panic.
Proof.
  intros Hi. destruct i as [i|e|]; [|done|done]. cbn [lex_instr map_err result_bind].
  assert (∀ b r, lex_number b r ≠ Panic) as Hnum.
  { intros b r. unfold lex_number. pose proof (read_scriptint_no_panic b).
    repeat case_match; done. }
  destruct i as [b|op].
  - unfold lex_push. destruct ret as [|t ret]; [by repeat case_match|].
    destruct t; repeat case_match; try done; try apply Hnum.
    apply bind_no_panic; [|done]. unfold slice_to_u32_le. by case_match.
  - destruct op; try done. cbn. rewrite lex_verify_spec. by repeat case_match.
Qed.

Lemma lex_no_panic s : lex s ≠ Panic.
Proof.
  unfold lex. apply bind_no_panic; [|done]. apply try_fold_no_panic. intros ret i Hin.
  apply lex_instr_no_panic. intros ->. by eapply instructions_no_panic.
Qed.

(** A script the lexer accepts has no error among its instructions. *)
Lemma lex_instructions s ts :
  lex s = Ok ts → ∃ l, instructions_minimal s = Ok <$> l ∧ lex_all l [] = Ok (rev ts) ∧
                       Op OP_PUSHBYTES_0 ∉ l.
Proof.
  unfold lex. intros (ret & Hret & [= <-])%bind_Ok. rewrite rev_involutive.
  pose proof (instructions_no_op0 s) as Hno. revert Hret Hno. unfold lex_all.
  generalize (instructions_minimal s) as il. generalize (@nil Token) as r0.
  intros r0 il. revert r0. induction il as [|i il IH]; intros r0 Hret Hno.
  { exists []. split_and!; [done|done|apply not_elem_of_nil]. }
  cbn [try_fold] in Hret. apply bind_Ok in Hret as (r1 & Hi & Hret).
  destruct i as [i|e|]; [|discriminate Hi|discriminate Hi].
  destruct (IH r1 Hret) as (l & -> & Hl & Hop); [intros Hin; apply Hno; by right|].
  exists (i :: l). split_and!; [done| |].
  - cbn [fmap list_fmap try_fold]. by rewrite Hi.
  - intros [<-|Hin]%elem_of_cons; [apply Hno; by left|done].
Qed.
End lexing.

(** ** The lexer and the encoder *)

Section lex_encode.
Context {Pk : Type} `{MiniscriptKey Pk} `{BitcoinKeys} `{!ToPublicKey Pk} `{!ToPublicKeyOk Pk}.
Context `{!ScriptBuilder} `{!ScriptBuilderOk} `{LockTimes}.
Context (ctx : ScriptContext).
Implicit Types ms : Miniscript Pk NoExt.

Lemma lex_script_tokens ms s :
  well_typed ctx ms → all_nodes node_readable ms →
  instructions_minimal s = Ok <$> instrs ctx ms → lex s = Ok (tokens_of ctx ms).
Proof.
  intros Hwt Hr Hs. unfold lex. rewrite Hs, <-unlex_tokens by done.
  pose proof (lex_unlex_readable _ (tokens_readable ctx ms Hwt Hr)) as Hl. unfold lex_all in Hl.
  rewrite Hl. cbn [result_bind]. by rewrite rev_involutive.
Qed.

Lemma node_readable_sized (t : Terminal Pk NoExt) : node_readable t → node_sized t.
Proof. destruct t; simpl; lia || done. Qed.

End lex_encode.
