(* ===== verification/Parse.v ===== *)
(** * From scripts to Miniscripts: [parse] of [src/miniscript/mod.rs]

    The lexer, the decoder and the checks of the analysis composed, and what a parsed
    Miniscript is known to be. *)

From S2P Require Import Prelude Types Extension Instances Property Ast Typing Resources Tokens Context ScriptNum Script Encoding Lex Decode DecodeLoop DecodeSound Lexing.

Section parse.
Context {Pk : Type} `{MiniscriptKey Pk} `{EqDecision Pk} `{!ParseableKey Pk} `{LockTimes}.
Context {Ext : Type} `{BitcoinKeys} `{!ScriptBuilder} `{!Extension Ext} `{!ParseableExt Ext}.
Context (ctx : ScriptContext).

(** What follows the decoder in [parse_with_ext]. *)
Definition check_top (ext : ExtParams) (r : Miniscript Pk Ext * TokenIter)
    : result Error (Miniscript Pk Ext) :=
  let '(top, iter) := r in
  let? _ := map_err ContextError (check_global_validity ctx top) in
  let? type_check := map_err TypeCheck (type_check ctx (node top)) in
  if negb (bool_decide (base (corr type_check) = B)) then Err NonTopLevel
  else
    match next_token iter with
    | (Some leading, _) => Err (Trailing leading)
    | (None, _) =>
        let? _ := map_err AnalysisErr (ext_check ctx ext top) in
        Ok top
    end.

(** [None] is the decoder out of fuel, which does not happen ([parse_terminates]). *)
Definition parse_with_ext (script : Script) (ext : ExtParams)
    : option (result Error (Miniscript Pk Ext)) :=
  match lex script with
  | Ok tokens =>
      match parse ctx (TokenIter_new tokens) with
      | Some r => Some (let? r := r in check_top ext r)
      | None => None
      end
  | Err e => Some (Err e)
  | Panic => Some Panic
  end.

Definition parse_insane (script : Script) : option (result Error (Miniscript Pk Ext)) :=
  parse_with_ext script ExtParams_insane.

(** [Miniscript::parse] *)
Definition parse_sane (script : Script) : option (result Error (Miniscript Pk Ext)) :=
  match parse_with_ext script ExtParams_sane with
  | Some r =>
      Some (let? ms := r in
            let? _ := map_err AnalysisErr (sanity_check ctx ms) in
            Ok ms)
  | None => None
  end.
End parse.

(** ** What parsing guarantees *)

Section parse_sound.
Context {Pk : Type} `{MiniscriptKey Pk} `{EqDecision Pk} `{BitcoinKeys}.
Context `{!ToPublicKey Pk} `{!ToPublicKeyOk Pk} `{!ParseableKey Pk}.
Context `{LockTimes} `{!ScriptBuilder} `{!ScriptBuilderOk}.
Context (ctx : ScriptContext) `{!ParseableKeyOk ctx Pk}.
Implicit Types ms : Miniscript Pk NoExt.

(** The properties of a Miniscript that [parse_with_ext] has checked. *)
Record parsed (p : ExtParams) ms : Prop := {
  parsed_typed : well_typed ctx ms;
  parsed_allowed : all_nodes (node_allowed ctx) ms;
  parsed_base : base (corr (ty ms)) = B;
  parsed_valid : check_global_validity ctx ms = Ok tt;
  parsed_checked : ext_check ctx p ms = Ok tt;
}.

(** (C21) Parsing a script without extensions never panics, and a Miniscript it returns is
    well typed, admitted by the context node by node, of type B and within the checks
    asked for.  When the script does not contain NUMEQUAL and VERIFY as two consecutive
    instructions, the instructions of the Miniscript are exactly those of the script; if
    moreover the context is not the one without checks, the lock times are [u32]s and the
    counts below 2^39, encoding the Miniscript gives the instructions of the script
    back. *)
Theorem parse_encode s p :
  match parse_with_ext ctx s p with
  | Some (Ok ms) =>
      parsed p ms ∧
      ((∀ l1 l2, instructions_minimal s ≠ Ok <$> (l1 ++ Op OP_NUMEQUAL :: Op OP_VERIFY :: l2)) →
       instructions_minimal s = Ok <$> instrs ctx ms ∧
       (ctx ≠ NoChecks → all_nodes node_sized ms →
        ∃ s', encode ctx ms = Ok s' ∧ instructions_minimal s' = instructions_minimal s))
  | Some (Err _) => True
  | _ => False
  end.
Proof.
  unfold parse_with_ext. pose proof (lex_no_panic s) as Hnp.
  destruct (lex s) as [tks| |] eqn:Hlex; [|done|done].
  pose proof (lex_tokens_sized _ _ Hlex) as Hsz.
  assert (Forall token_sized (TokenIter_new tks)) as Hsz' by (by apply Forall_rev).
  pose proof (parse_spec (Ext := NoExt) ctx (TokenIter_new tks) Hsz') as Hparse.
  destruct (parse ctx (TokenIter_new tks)) as [[[ms ts']|e|]|]; cbn [result_bind]; try done.
  destruct Hparse as [Htoks [Hwt Hok]]. unfold check_top.
  pose proof (global_validity_no_panic (Ext := NoExt) ctx ms).
  destruct (check_global_validity ctx ms) as [[]| |] eqn:Hv; cbn [map_err result_bind]; try done.
  destruct (well_typed_inv _ _ Hwt) as (Hty & _ & _). rewrite Hty. cbn [map_err result_bind].
  case_bool_decide as Hb; [|done]. cbn [negb]. destruct ts' as [|t ts']; [|done]. cbn [next_token].
  assert (ext_check ctx p ms ≠ Panic) by (unfold ext_check; by repeat case_match).
  destruct (ext_check ctx p ms) as [[]| |] eqn:Hc; cbn [map_err result_bind]; try done.
  split; [by constructor|]. intros Hmin.
  assert (instructions_minimal s = Ok <$> instrs ctx ms) as Hins.
  { destruct (lex_instructions _ _ Hlex) as (l & Hl & Hall & Hop).
    rewrite Hl. f_equal. rewrite <-unlex_tokens by done.
    unfold TokenIter_new in Htoks. rewrite app_nil_r in Htoks. rewrite Htoks in Hall.
    rewrite <-(unlex_lex_core _ _ Hall), rev_involutive; [done| | |done].
    - apply Forall_rev. by apply tokens_core.
    - intros l1 l2 ->. by apply (Hmin l1 l2). }
  split; [done|]. intros Hctx Hns.
  destruct (encode_instrs ctx ms Hwt Hns (nodes_signed ctx ms Hctx Hok) builder_new [] has_new) as (b & Hb' & Hi).
  exists (into_script b). unfold encode. rewrite Hb'. split; [done|]. by rewrite Hins.
Qed.
End parse_sound.
