(* ===== verification/DecodeComplete.v ===== *)
(** * Completeness of the decoder

    The Miniscripts the decoder can produce ([canonical]), and the theorem that it does:
    parsing the tokens of a well-typed canonical Miniscript gives that Miniscript back. *)

From S2P Require Import Prelude Types Extension Instances Property Ast Typing Resources Tokens Context ScriptNum Script Encoding Lex Decode DecodeLoop DecodeSound Lexing.
From stdpp Require Import relations.

Section canonical.
Context {Pk : Type} `{MiniscriptKey Pk} `{BitcoinKeys} `{!ToPublicKey Pk} `{!ParseableKey Pk}.
Context (ctx : ScriptContext).
Notation ms_t := (Miniscript Pk NoExt).

Definition is_AndV (ms : ms_t) : bool := match node ms with AndV _ _ => true | _ => false end.

(** A conjunction is moved out of the fragments that only append an opcode, and nested
    to the left; [pk_h] reads back as a raw hash. *)
Definition node_canonical (t : Terminal Pk NoExt) : Prop :=
  match t with
  | PkH _ => False
  | Check s | Verify s | ZeroNotEqual s => is_AndV s = false
  | AndB l _ => is_AndV l = false
  | AndV _ r => is_AndV r = false
  | _ => True
  end.

(** The key parses back from the bytes that are pushed for it. *)
Definition key_parses (k : Pk) : Prop := from_slice (key_push ctx k) = Ok k.

Definition node_parses (t : Terminal Pk NoExt) : Prop :=
  match t with
  | PkK k => key_parses k
  | Multi _ keys => sig_type ctx = Ecdsa ∧ length keys ≤ 20 ∧ Forall key_parses keys
  | MultiA k keys => sig_type ctx = Schnorr ∧ (N.of_nat k <= 125000)%N ∧ Forall key_parses keys
  | _ => True
  end.
End canonical.

(** ** The bases of the children *)

Section bases.
Context {Pk : Type} `{MiniscriptKey Pk} `{LockTimes}.
Context (ctx : ScriptContext).
Notation ms_t := (Miniscript Pk NoExt).
Implicit Types (ms : ms_t).

Definition bs ms : Base := base (corr (ty ms)).
Definition ds ms : bool := dissatisfiable (corr (ty ms)).

(** What the typing rules say of the children of a node of base [b]. *)
Definition bases_ok (t : Terminal Pk NoExt) (b : Base) : Prop :=
  match t with
  | Alt s | Swap s => bs s = B ∧ b = W
  | Check s => bs s = K ∧ b ≠ W
  | DupIf s => bs s = V ∧ b ≠ W
  | Verify s | NonZero s | ZeroNotEqual s => bs s = B ∧ b ≠ W
  | AndV l r => bs l = V ∧ bs r ≠ W ∧ b ≠ W
  | AndB l r => bs l = B ∧ bs r = W ∧ b ≠ W
  | OrB l r => bs l = B ∧ ds l = true ∧ bs r = W ∧ b ≠ W
  | OrD l r => bs l = B ∧ ds l = true ∧ bs r ≠ W ∧ b ≠ W
  | OrC l r => bs l = B ∧ ds l = true ∧ bs r ≠ W ∧ b ≠ W
  | OrI l r => bs l ≠ W ∧ bs r ≠ W ∧ b ≠ W
  | AndOr x y z => bs x = B ∧ ds x = true ∧ bs y ≠ W ∧ bs z ≠ W ∧ b ≠ W
  | Thresh _ subs =>
      (∀ i s, subs !! i = Some s → bs s = (if i =? 0 then B else W)) ∧
      (∀ s, subs !! 0 = Some s → ds s = true) ∧ b ≠ W
  | _ => b ≠ W
  end.

Lemma type_check_bases t u : type_check ctx t = Ok u → bases_ok t (base (corr u)).
Proof.
  intros Ht. unfold bases_ok, bs, ds.
  destruct t; unfold type_check, property_check in Ht; try (by injection Ht as <-);
    try (by repeat case_match; simplify_eq);
    try (by apply bind_Ok in Ht as (? & _ & [= <-]));
    try (revert Ht; repeat match goal with |- context [ty ?x] => generalize (ty x); intros ? end;
         open_rule; bools; split_and?; done).
  - apply bind_Ok in Ht as (? & _ & Ht).
    rewrite <-(length_fmap ty subs) in Ht. apply type_threshold_Ok in Ht as (Hok & Hu & _).
    2:{ intros i t. apply lookup_children. }
    assert (∀ i s, subs !! i = Some s → thresh_child_ok i (corr (ty s))) as Hs.
    { intros i s Hi. apply Hok. by rewrite list_lookup_fmap, Hi. }
    split_and!; [intros i s Hi; by apply (Hs i s Hi)|intros s Hi; by apply (Hs 0 s Hi)|by rewrite Hu].
Qed.

Definition is_W ms : bool := match node ms with Alt _ | Swap _ => true | _ => false end.

(** Only the wrappers [a:] and [s:] make a W. *)
Lemma well_typed_W ms : well_typed ctx ms → (is_W ms = true ↔ bs ms = W).
Proof.
  intros Hwt. destruct ms as [t mty mext]. apply well_typed_inv in Hwt as (Ht & _ & _).
  cbn [node ty] in *. apply type_check_bases in Ht. unfold is_W, bs. cbn [node ty].
  destruct t; simpl in Ht; destruct_and?; split; congruence.
Qed.

Lemma and_v_not_dissatisfiable ms : well_typed ctx ms → ds ms = true → is_AndV ms = false.
Proof.
  intros Hwt. destruct ms as [t mty mext]. apply well_typed_inv in Hwt as (Ht & _ & _).
  cbn [node ty] in *. unfold is_AndV, ds. cbn [node ty]. destruct t; try done.
  revert Ht. unfold type_check, property_check. generalize (ty l), (ty r). intros t1 t2.
  by open_rule.
Qed.
End bases.

(** ** Sizes of the children *)

Section sizes.
Context {Pk : Type} `{MiniscriptKey Pk} `{LockTimes}.
Context (ctx : ScriptContext).
Implicit Types (ms : Miniscript Pk NoExt).

Lemma child_pk_cost t mty mext s :
  well_typed ctx (MkMs t mty mext : Miniscript Pk NoExt) → s ∈ children t →
  pk_cost (ext s) ≤ pk_cost mext.
Proof.
  intros Hwt Hs. destruct (well_typed_inv _ _ Hwt) as (_ & He & _).
  cbn [node ext] in He. destruct t; cbn [children] in Hs;
    repeat (apply elem_of_cons in Hs as [->|Hs]); try (by apply elem_of_nil in Hs);
    try (unfold ext_type_check, property_check in He; cbn in He; injection He as <-; cbn; lia).
  apply well_typed_thresh in Hwt as (Hk & _ & _ & _ & ->).
  assert (pk_cost (ext s) ≤ sum_list ((λ ms, pk_cost (ext ms)) <$> subs)) as Hle; [|lia].
  clear -Hs. induction Hs; csimpl; lia.
Qed.

(** A node within the size limits has its children within them. *)
Lemma valid_children t mty mext :
  well_typed ctx (MkMs t mty mext : Miniscript Pk NoExt) →
  check_global_validity ctx (MkMs t mty mext) = Ok tt →
  Forall (λ s, node_allowed ctx (node s) → check_global_validity ctx s = Ok tt) (children t).
Proof.
  intros Hwt [Hsz _]%global_validity_Ok. apply list.Forall_forall. intros s Hs Hok.
  apply global_validity_Ok. split; [|done]. pose proof (child_pk_cost t mty mext s Hwt Hs).
  unfold size_within in *. cbn [ext] in Hsz. destruct (size_limit ctx); [lia|done].
Qed.
End sizes.

(** ** Runs of the parser *)

Section complete.
Context {Pk : Type} `{MiniscriptKey Pk} `{BitcoinKeys} `{!ToPublicKey Pk} `{!ToPublicKeyOk Pk}.
Context `{!ParseableKey Pk} `{LockTimes} `{!ScriptBuilder}.
Context (ctx : ScriptContext) `{!ParseableKeyOk ctx Pk}.
Notation ms_t := (Miniscript Pk NoExt).
Notation toks := (tokens_of ctx).
Implicit Types (ms : ms_t) (nt : list NonTerm) (ter : list ms_t) (ts : TokenIter).

Notation state := (Parser (Pk := Pk) (Ext := NoExt)).

(** One iteration that goes on, and a run of several. *)
Definition goes (p p' : state) : Prop := step ctx p = Ok (Some p').
Notation "p ⟹ p'" := (rtc goes p p') (at level 70).

Lemma goes_once p p' q : step ctx p = Ok (Some p') → p' ⟹ q → p ⟹ q.
Proof. intros Hs Hq. by eapply rtc_l. Qed.

Lemma loop_run p p' fuel r :
  p ⟹ p' → parse_loop ctx fuel p = Some r → ∃ fuel', parse_loop ctx fuel' p' = Some r.
Proof.
  intros Hrun. revert fuel. induction Hrun as [p|p q p' Hs _ IH]; intros fuel Hl; [by eexists|].
  destruct fuel as [|fuel]; [done|]. cbn [parse_loop] in Hl. unfold goes in Hs.
  rewrite Hs in Hl. by eapply IH.
Qed.

(** A run to the end is the result of the loop. *)
Lemma parse_run ts ms ts' :
  parse_start ts ⟹ MkParser [] [ms] ts' → parse ctx ts = Some (Ok (ms, ts')).
Proof.
  intros Hrun. pose proof (parse_terminates (Pk := Pk) (Ext := NoExt) ctx ts) as [r Hr].
  rewrite Hr. unfold parse in Hr.
  destruct (parse_loop ctx (parse_fuel ts) (parse_start ts)) as [r'|] eqn:Hl; [|done].
  destruct (loop_run _ _ _ _ Hrun Hl) as ([|fuel] & Hf); [done|].
  cbn in Hf. injection Hf as <-. by injection Hr as <-.
Qed.

(** *** Reductions *)

Definition valid ms : Prop := check_global_validity ctx ms = Ok tt.

Lemma reduce0_valid t mty mext ter :
  well_typed ctx (MkMs t mty mext : ms_t) → valid (MkMs t mty mext) →
  reduce0 ctx ter t = Ok (MkMs t mty mext :: ter).
Proof.
  intros (Ht & He & _)%well_typed_inv Hv. cbn [node ty ext] in *. unfold reduce0.
  rewrite Ht. cbn [map_err result_bind]. rewrite He. cbn [map_err result_bind].
  unfold valid in Hv. by rewrite Hv.
Qed.

Lemma reduce_tern_valid a b c mty mext ter :
  well_typed ctx (MkMs (AndOr a b c) mty mext : ms_t) →
  reduce_tern ctx (a :: c :: b :: ter) = Ok (MkMs (AndOr a b c) mty mext :: ter).
Proof.
  intros (Ht & He & _)%well_typed_inv. cbn [node ty ext] in *. unfold reduce_tern.
  rewrite Ht. cbn [map_err result_bind]. by rewrite He.
Qed.

(** *** What a sub-expression does *)

Definition parses_expr ms : Prop := ∀ nt ter ts,
  MkParser (NtExpression :: nt) ter (rev (toks ms) ++ ts) ⟹ MkParser nt (ms :: ter) ts.

(** ... in a position where a conjunction continues to the left *)
Definition parses_left ms : Prop := ∀ nt ter ts,
  is_and_v ts = false →
  MkParser (NtExpression :: NtAndV :: nt) ter (rev (toks ms) ++ ts)
    ⟹ MkParser (NtAndV :: nt) (ms :: ter) ts.

Definition parses_seq ms : Prop := ∀ nt ter ts,
  is_and_v ts = false →
  MkParser (NtExpression :: NtMaybeAndV :: nt) ter (rev (toks ms) ++ ts)
    ⟹ MkParser nt (ms :: ter) ts.

Definition parses_w ms : Prop := ∀ nt ter ts,
  MkParser (NtWExpression :: nt) ter (rev (toks ms) ++ ts) ⟹ MkParser nt (ms :: ter) ts.

(** ... and under [v:], after the VERIFY *)
Definition parses_verify ms : Prop := ∀ nt ter ts,
  MkParser (NtExpression :: nt) ter (TkVerify :: rev (toks ms) ++ ts)
    ⟹ MkParser (NtVerify :: nt) (ms :: ter) ts.

Lemma expr_seq ms : parses_expr ms → parses_seq ms.
Proof.
  intros He nt ter ts Hts. etrans; [apply He|].
  eapply goes_once; [|reflexivity]. unfold step; cbn. by rewrite Hts.
Qed.

Ltac text :=
  cbn [tokens_of]; rewrite ?rev_app_distr; cbn [rev app]; rewrite ?rev_app_distr; cbn [rev app];
  rewrite <-?app_assoc; cbn [app].
Ltac go := eapply goes_once; [reflexivity|]; cbn [non_term term tokens].
Ltac reduce :=
  eapply goes_once;
  [unfold step; cbn -[reduce0 reduce_tern]; rewrite ?bool_decide_eq_true_2 by done;
   unfold reduce1_to, reduce2_to, reduce0_to; cbn [reduce1 reduce2 result_bind]; first [erewrite reduce0_valid by eassumption | erewrite reduce_tern_valid by eassumption]; reflexivity|];
  try reflexivity.

(** *** Fragments without children *)

Section leaves.
Variables (mty : MsType) (mext : ExtData).
Implicit Types t : Terminal Pk NoExt.

Lemma hash_expect_bytes {n} (h : hash_n n) : hash_expect n (hash_bytes h) = Ok h.
Proof. unfold hash_expect. by rewrite (proj2 (hash_from_slice_Some n _ h)). Qed.

Lemma match_tail_ok nt ter (n : nat) (h : hash_n n) wrap t ts :
  wrap h = t → well_typed ctx (MkMs t mty mext : ms_t) → valid (MkMs t mty mext) →
  reduce_hash ctx nt ter n (hash_bytes h) wrap
    (TkVerify :: TkEqual :: TkNum 32 :: TkSize :: ts)
  = Ok (MkParser nt (MkMs t mty mext :: ter) ts).
Proof.
  intros Hw Hwt Hv. unfold reduce_hash. cbn [match_tokens hash_tail].
  rewrite !bool_decide_eq_true_2 by done. cbn [result_bind].
  rewrite hash_expect_bytes. cbn [result_bind]. unfold reduce0_to. by rewrite Hw, (reduce0_valid _ mty mext).
Qed.

Lemma verify_hash160_ok nt ter (h : hash_n 20) h' ts :
  of_hash160 h = h' → well_typed ctx (MkMs (Hash160 h') mty mext : ms_t) →
  valid (MkMs (Hash160 h') mty mext) →
  verify_hash20 ctx nt ter (hash_bytes h)
    (TkHash160 :: TkVerify :: TkEqual :: TkNum 32 :: TkSize :: ts)
  = Ok (MkParser (NtVerify :: nt) (MkMs (Hash160 h') mty mext :: ter) ts).
Proof.
  intros Hh Hwt Hv. unfold verify_hash20. cbn [match_tokens hash_tail drop].
  rewrite !bool_decide_eq_true_2 by done. cbn [result_bind].
  rewrite hash_expect_bytes. cbn [result_bind]. unfold reduce0_to. by rewrite Hh, (reduce0_valid _ mty mext).
Qed.
End leaves.

(** The hash fragments, alone and under [v:]. *)
Definition is_hash (t : Terminal Pk NoExt) : bool :=
  match t with Sha256 _ | Hash256 _ | Ripemd160 _ | Hash160 _ => true | _ => false end.

Lemma hash_parses t mty mext :
  is_hash t = true → well_typed ctx (MkMs t mty mext : ms_t) → valid (MkMs t mty mext) →
  parses_expr (MkMs t mty mext) ∧ parses_verify (MkMs t mty mext).
Proof.
  intros Ht Hwt Hv. destruct t; try done; split; intros nt ter ts; text; unfold hash_toks;
    cbn [rev app]; rewrite ?push_token_32, ?push_token_20 by apply hash_bytes_length.
  all: eapply goes_once; [|reflexivity]; unfold step; cbn -[reduce_hash reduce0 verify_hash20].
  6: change (verify_hash20 ctx nt ter (hash_bytes (to_ripemd160 h))
       (TkRipemd160 :: TkVerify :: TkEqual :: TkNum 32 :: TkSize :: ts))
     with (reduce_hash ctx (NtVerify :: nt) ter 20 (hash_bytes (to_ripemd160 h))
       (λ h, Ripemd160 (of_ripemd160 h)) (TkVerify :: TkEqual :: TkNum 32 :: TkSize :: ts)).
  8: by rewrite (verify_hash160_ok mty mext _ _ _ h) by (done || apply to_hash160_of).
  all: match goal with |- context [Ok (Some (MkParser _ (MkMs ?t _ _ :: _) _))] =>
         rewrite (match_tail_ok mty mext _ _ _ _ _ t); [done| |done|done] end.
  all: by rewrite ?to_sha256_of, ?to_hash256_of, ?to_ripemd160_of, ?to_hash160_of.
Qed.

(** *** Keys *)

Lemma parse_key_ok k pk :
  key_parses ctx k → key_push ctx k = pk → parse_key ctx pk = Ok k.
Proof. unfold key_parses, parse_key. intros Hk <-. by rewrite Hk. Qed.

Lemma key_push_sig k :
  length (key_push ctx k) = match sig_type ctx with
                            | Ecdsa => if is_uncompressed k then 65 else 33
                            | Schnorr => 32
                            end.
Proof. unfold key_push. destruct (sig_type ctx); [apply pubkey_bytes_length|apply xonly_length]. Qed.

Lemma multi_keys_ok keys acc ts :
  sig_type ctx = Ecdsa → Forall (key_parses ctx) keys →
  multi_keys ctx (length keys) (rev (key_toks ctx keys) ++ ts) acc = Ok (keys ++ acc, ts).
Proof.
  intros Hsig. revert acc. induction keys as [|k keys IH] using rev_ind; intros acc Hk; [done|].
  apply Forall_app in Hk as [Hkeys [Hk _]%Forall_cons_iff].
  unfold key_toks. rewrite map_app, rev_app_distr, length_app, Nat.add_comm. cbn [map rev app].
  assert (push_token (key_push ctx k) = TkBytes33 (key_push ctx k) ∨
          push_token (key_push ctx k) = TkBytes65 (key_push ctx k)) as Htok.
  { pose proof (key_push_sig k) as Hl. rewrite Hsig in Hl. unfold push_token.
    destruct (is_uncompressed k); rewrite Hl; auto. }
  destruct Htok as [->| ->]; cbn [length Nat.add multi_keys];
    rewrite (parse_key_ok k) by done; cbn [result_bind]; rewrite IH by done;
    by rewrite <-app_assoc.
Qed.

Lemma multi_a_keys_ok k keys acc ts :
  sig_type ctx = Schnorr → Forall (key_parses ctx) (k :: keys) →
  multi_a_keys ctx (rev ([push_token (key_push ctx k); TkCheckSig] ++ key_a_toks ctx keys) ++ ts) acc
  = Ok (k :: keys ++ acc, ts).
Proof.
  intros Hsig. revert acc. induction keys as [|k' keys IH] using rev_ind; intros acc Hk.
  - apply Forall_cons_iff in Hk as [Hk _]. cbn.
    rewrite push_token_32 by (by rewrite key_push_sig, Hsig). by rewrite (parse_key_ok k).
  - apply Forall_cons_iff in Hk as [Hk [Hkeys [Hk' _]%Forall_cons_iff]%Forall_app].
    unfold key_a_toks. rewrite map_app, concat_app, app_assoc, rev_app_distr. cbn [map concat rev app].
    rewrite push_token_32 by (by rewrite key_push_sig, Hsig). cbn [multi_a_keys].
    rewrite (parse_key_ok k') by done. cbn [result_bind].
    unfold key_a_toks in IH. rewrite IH by (by constructor). by rewrite <-app_assoc.
Qed.

(** *** The last token of a fragment *)

(** Tokens that do not end a fragment, and make the parser choose. *)
Definition ends_fragment (t : Token) : bool :=
  match t with
  | TkIf | TkNotIf | TkElse | TkToAltStack | TkSwap | TkAdd | TkIfDup | TkFromAltStack => false
  | _ => true
  end.

Definition last_token ms (t : Token) : Prop := ∃ l, rev (toks ms) = t :: l.

Lemma last_token_end ms : well_typed ctx ms → bs ms ≠ W → ∃ t, last_token ms t ∧ ends_fragment t = true.
Proof.
  revert ms. apply (well_typed_ind' ctx (λ ms, bs ms ≠ W →
    ∃ t, last_token ms t ∧ ends_fragment t = true)).
  intros t mty mext Ht _ _ IH Hw. pose proof (type_check_bases ctx t mty Ht) as Hb.
  unfold last_token, bs in *. cbn [ty] in *.
  destruct t; cbn [tokens_of bases_ok children] in *; unfold hash_toks;
    rewrite ?Forall_cons_iff in IH; rewrite ?rev_app_distr; cbn [rev app];
    rewrite ?rev_app_distr; cbn [rev app]; try (by destruct e);
    try (by eexists; split; [by eexists|]); try (by destruct_and?).
  - eexists; split; [by eexists|]. unfold push_token. by repeat case_match.
  - destruct IH as [_ [IH _]]. destruct IH as (t & (l' & Hl) & Ht'); [by apply Hb|].
    rewrite Hl. eexists; split; [by eexists|done].
  - unfold type_check, property_check in Ht. apply check_threshold_cons in Ht.
    destruct subs as [|s subs]; [simpl in *; lia|].
    rewrite !rev_app_distr. eexists; split; [by eexists|done].
  - unfold type_check, property_check in Ht. apply check_threshold_cons in Ht.
    destruct pks as [|k0 pks]; [simpl in *; lia|].
    cbn [rev app]. rewrite !rev_app_distr. eexists; split; [by eexists|done].
Qed.

Lemma last_and_v ms ts : well_typed ctx ms → bs ms ≠ W → is_and_v (rev (toks ms) ++ ts) = true.
Proof.
  intros Hwt Hw. destruct (last_token_end ms Hwt Hw) as (t & (l & ->) & Ht). by destruct t.
Qed.

(** Under [v:], a fragment that does not end in EQUAL is parsed as an expression. *)
Lemma expr_verify ms t :
  last_token ms t → t ≠ TkEqual → parses_expr ms → parses_verify ms.
Proof.
  intros (l & Hl) Ht He nt ter ts. eapply goes_once; [|apply He].
  rewrite Hl. unfold step; cbn [non_term term tokens from_token_iter NoExt_ParseableExt handle].
  by destruct t.
Qed.

(** *** Thresholds *)

Lemma thresh_run k s pre ws mty mext nt ter ts :
  let ms := MkMs (Thresh k (s :: pre ++ ws)) mty mext in
  well_typed ctx ms → valid ms →
  well_typed ctx s → bs s ≠ W → parses_expr s → Forall parses_w pre →
  MkParser (NtThreshW k (length ws) :: nt) (ws ++ ter) (rev (toks s ++ wtoks ctx pre) ++ ts)
    ⟹ MkParser nt (ms :: ter) ts.
Proof.
  cbv zeta. intros Hwt Hv Hs Hw He. revert ws Hwt Hv.
  induction pre as [|w pre IH] using rev_ind; intros ws Hwt Hv Hpre.
  - unfold wtoks. cbn [map concat app]. rewrite app_nil_r.
    destruct (last_token_end s Hs Hw) as (t & (l & Hl) & Ht).
    eapply goes_once.
    { unfold step; cbn [non_term term tokens handle]. rewrite Hl. cbn [app].
      instantiate (1 := MkParser (NtExpression :: NtThreshE k (length ws + 1) :: nt) (ws ++ ter) (t :: l ++ ts)).
      by destruct t. }
    change (t :: l ++ ts) with ((t :: l) ++ ts). rewrite <-Hl. etrans; [apply He|].
    eapply goes_once; [|reflexivity]. unfold step; cbn [non_term term tokens handle].
    unfold pop_n. rewrite length_cons, length_app.
    rewrite (proj2 (Nat.leb_le _ _)) by lia. cbn [result_bind].
    replace (length ws + 1) with (S (length ws)) by lia. cbn [take drop firstn skipn].
    rewrite take_app_length, drop_app_length. unfold reduce0_to.
    cbn [app] in *. erewrite reduce0_valid by eassumption. done.
  - apply Forall_app in Hpre as [Hpre [Hpw _]%Forall_cons_iff].
    unfold wtoks. rewrite map_app, concat_app, app_assoc, rev_app_distr. cbn [map concat].
    rewrite app_nil_r, rev_app_distr. cbn [rev app]. rewrite <-!app_assoc.
    go. etrans; [apply Hpw|]. rewrite Nat.add_1_r. rewrite <-app_assoc in *. cbn [app] in *.
    by apply (IH (w :: ws)).
Qed.

(** *** Fragments with children, one by one *)

Section nodes.
Variables (mty : MsType) (mext : ExtData).
Notation "'mk' t" := (MkMs t mty mext : ms_t) (at level 10).
Implicit Types t : Terminal Pk NoExt.

Definition built t : Prop := well_typed ctx (mk t) ∧ valid (mk t).

(** Run the parser on the child [s], by the hypothesis about it. *)
Ltac run s :=
  etrans;
  [match goal with
   | HP : parses_expr s |- _ => apply HP
   | HP : parses_seq s |- _ => apply HP; reflexivity
   | HP : parses_w s |- _ => apply HP
   | HP : parses_verify s |- _ => apply HP
   end|].
Ltac start := intros [Hwt Hv]; intros; intros nt ter ts; text.

Lemma check_run s : built (Check s) → parses_expr s → parses_expr (mk (Check s)).
Proof. start. go. run s. reduce. Qed.
Lemma zeronotequal_run s :
  built (ZeroNotEqual s) → parses_expr s → parses_expr (mk (ZeroNotEqual s)).
Proof. start. go. run s. reduce. Qed.
Lemma verify_run s : built (Verify s) → parses_verify s → parses_expr (mk (Verify s)).
Proof. start. run s. reduce. Qed.
Lemma dupif_run s : built (DupIf s) → parses_seq s → parses_expr (mk (DupIf s)).
Proof. start. go. run s. go. reduce. Qed.
Lemma nonzero_run s : built (NonZero s) → parses_seq s → parses_expr (mk (NonZero s)).
Proof. start. go. run s. go. reduce. Qed.
Lemma and_b_run l r :
  built (AndB l r) → parses_expr l → parses_w r → parses_expr (mk (AndB l r)).
Proof. start. go. run r. run l. reduce. Qed.
Lemma or_b_run l r :
  built (OrB l r) → parses_expr l → parses_w r → parses_expr (mk (OrB l r)).
Proof. start. go. run r. run l. reduce. Qed.
Lemma or_i_run l r :
  built (OrI l r) → parses_seq l → parses_seq r → parses_expr (mk (OrI l r)).
Proof. start. go. run r. go. run l. reduce. Qed.
Lemma and_or_run a b c :
  built (AndOr a b c) → parses_expr a → parses_seq b → parses_seq c →
  parses_expr (mk (AndOr a b c)).
Proof. start. go. run b. go. run c. go. run a. reduce. Qed.
Lemma or_d_run l r :
  built (OrD l r) → parses_expr l → parses_seq r → parses_expr (mk (OrD l r)).
Proof. start. go. run r. go. go. run l. reduce. Qed.
Lemma or_c_run l r :
  built (OrC l r) → well_typed ctx l → bs l ≠ W → parses_expr l → parses_seq r →
  parses_expr (mk (OrC l r)).
Proof.
  start. destruct (last_token_end l) as (t & (l' & Hl) & Ht); [done..|].
  go. run r. go.
  apply (goes_once _ (MkParser (NtExpression :: NtOrC :: nt) (r :: ter) (rev (toks l) ++ ts)));
    [|run l; reduce].
  rewrite Hl. unfold step; cbn [non_term term tokens handle]. by destruct t.
Qed.
Lemma alt_run s : built (Alt s) → parses_seq s → parses_w (mk (Alt s)).
Proof. start. go. run s. reduce. Qed.
Lemma swap_run s :
  built (Swap s) → well_typed ctx s → bs s ≠ W → parses_seq s → parses_w (mk (Swap s)).
Proof.
  start. destruct (last_token_end s) as (t & (l' & Hl) & Ht); [done..|].
  apply (goes_once _ (MkParser (NtExpression :: NtMaybeAndV :: NtSwap :: nt) ter
                        (rev (toks s) ++ TkSwap :: ts))); [|run s; reduce].
  rewrite Hl. unfold step; cbn [non_term term tokens handle]. by destruct t.
Qed.
Lemma and_v_left l r :
  built (AndV l r) → well_typed ctx l → bs l ≠ W → parses_left l → parses_expr r →
  parses_left (mk (AndV l r)).
Proof.
  intros [Hwt Hv] Hl Hw Hpl Hr nt ter ts Hts. text. run r.
  eapply goes_once.
  { unfold step; cbn [non_term term tokens handle]. by rewrite last_and_v. }
  eapply goes_once.
  { unfold step; cbn [non_term term tokens handle]. by rewrite last_and_v. }
  etrans; [by apply Hpl|]. eapply goes_once; [|reflexivity].
  unfold step; cbn [non_term term tokens handle]. rewrite Hts. unfold reduce2_to, reduce2.
  by erewrite reduce0_valid by eassumption.
Qed.
Lemma and_v_seq l r :
  built (AndV l r) → well_typed ctx l → bs l ≠ W → parses_left l → parses_expr r →
  parses_seq (mk (AndV l r)).
Proof.
  intros [Hwt Hv] Hl Hw Hpl Hr nt ter ts Hts. text. run r.
  eapply goes_once.
  { unfold step; cbn [non_term term tokens handle]. by rewrite last_and_v. }
  etrans; [by apply Hpl|]. eapply goes_once; [|reflexivity].
  unfold step; cbn [non_term term tokens handle]. rewrite Hts. unfold reduce2_to, reduce2.
  by erewrite reduce0_valid by eassumption.
Qed.

(** Fragments without children. *)
Lemma pk_k_run k : built (PkK k) → key_parses ctx k → parses_expr (mk (PkK k)).
Proof.
  start. eapply goes_once; [|reflexivity]. pose proof (key_push_sig k) as Hl.
  assert (push_token (key_push ctx k) = TkBytes32 (key_push ctx k) ∨
          push_token (key_push ctx k) = TkBytes33 (key_push ctx k) ∨
          push_token (key_push ctx k) = TkBytes65 (key_push ctx k)) as Htok.
  { unfold push_token. destruct (sig_type ctx); [destruct (is_uncompressed k)|]; rewrite Hl; auto. }
  destruct_or! Htok; rewrite Htok; unfold step; cbn -[reduce0]; unfold key_arm;
    rewrite (parse_key_ok k) by done; cbn [result_bind]; unfold reduce0_to;
    by erewrite reduce0_valid by eassumption.
Qed.

Lemma raw_pkh_run h : built (RawPkH h) → parses_expr (mk (RawPkH h)).
Proof.
  start. rewrite push_token_20 by apply hash_bytes_length. eapply goes_once; [|reflexivity].
  unfold step; cbn -[reduce0 hash_expect]. rewrite hash_expect_bytes. cbn [result_bind].
  unfold reduce0_to. by erewrite reduce0_valid by eassumption.
Qed.

Lemma multi_run k keys :
  built (Multi k keys) → node_parses ctx (Multi k keys) → parses_expr (mk (Multi k keys)).
Proof.
  intros [Hwt Hv] (Hsig & Hlen & Hkeys) nt ter ts. text. eapply goes_once; [|reflexivity].
  unfold step; cbn -[reduce0 multi_keys N.of_nat N.to_nat].
  rewrite (proj2 (N.ltb_ge _ _)) by (unfold MAX_PUBKEYS_PER_MULTISIG; lia). rewrite Nat2N.id.
  assert (map (λ k0, push_token (pubkey_bytes (to_public_key k0))) keys = key_toks ctx keys) as ->.
  { unfold key_toks, key_push. by rewrite Hsig. }
  rewrite multi_keys_ok by done. cbn [result_bind]. rewrite app_nil_r.
  unfold count_tok. rewrite Nat2N.id. unfold reduce0_to.
  by erewrite reduce0_valid by eassumption.
Qed.

Lemma multi_a_run k keys :
  built (MultiA k keys) → node_parses ctx (MultiA k keys) → parses_expr (mk (MultiA k keys)).
Proof.
  intros [Hwt Hv] (Hsig & Hlen & Hkeys) nt ter ts.
  destruct (well_typed_inv _ _ Hwt) as (Ht & _ & _). cbn [node] in Ht.
  unfold type_check, property_check in Ht. apply check_threshold_cons in Ht.
  destruct keys as [|key keys]; [simpl in *; lia|]. text.
  eapply goes_once; [|reflexivity].
  unfold step; cbn -[reduce0 multi_a_keys N.of_nat N.to_nat].
  rewrite (proj2 (N.ltb_ge _ _)) by (unfold MAX_BLOCK_WEIGHT; exact Hlen).
  pose proof (multi_a_keys_ok key keys [] ts Hsig Hkeys) as Hm.
  rewrite rev_app_distr in Hm. cbn [rev app] in Hm. rewrite <-!app_assoc in Hm. cbn [app] in Hm.
  unfold key_a_toks in Hm. rewrite Hm. cbn [result_bind]. rewrite app_nil_r, Nat2N.id.
  unfold reduce0_to. by erewrite reduce0_valid by eassumption.
Qed.
End nodes.

(** *** All fragments *)

(** Everything a position in a script can ask of a fragment. *)
Record parse_ok ms : Prop := {
  ok_w : bs ms = W → parses_w ms;
  ok_expr : bs ms ≠ W → is_AndV ms = false → parses_expr ms ∧ parses_verify ms;
  ok_left : bs ms ≠ W → parses_left ms;
  ok_seq : bs ms ≠ W → parses_seq ms;
}.

Lemma parse_ok_W ms : bs ms = W → parses_w ms → parse_ok ms.
Proof. by intros Hw Hp; split. Qed.

Lemma parse_ok_expr ms :
  bs ms ≠ W → parses_expr ms → parses_verify ms → parse_ok ms.
Proof.
  intros Hw He Hv. split; try done.
  - intros _ nt ter ts _. apply He.
  - intros _. by apply expr_seq.
Qed.

(** The common case: an expression that does not end in EQUAL. *)
Lemma parse_ok_last ms t :
  bs ms ≠ W → last_token ms t → t ≠ TkEqual → parses_expr ms → parse_ok ms.
Proof. intros Hw Hl Ht He. apply parse_ok_expr; [done..|]. by eapply expr_verify. Qed.

Record ready ms : Prop := {
  ready_typed : well_typed ctx ms;
  ready_valid : valid ms;
  ready_allowed : all_nodes (node_allowed ctx) ms;
  ready_canonical : all_nodes node_canonical ms;
  ready_parses : all_nodes (node_parses ctx) ms;
}.

Lemma ready_children t mty mext : ready (MkMs t mty mext) → Forall ready (children t).
Proof.
  intros [Hwt Hv Ha Hc Hp]. pose proof (valid_children ctx t mty mext Hwt Hv) as Hval.
  destruct (well_typed_inv _ _ Hwt) as (_ & _ & Hwt'). cbn [node] in *.
  apply all_nodes_inv in Ha as [_ Ha], Hc as [_ Hc], Hp as [_ Hp]. cbn [node] in *.
  rewrite list.Forall_forall in *. intros s Hs. split; auto.
  apply (Hval s Hs). by destruct (Ha s Hs).
Qed.

Lemma thresh_parses k s subs mty mext :
  let ms := MkMs (Thresh k (s :: subs)) mty mext in
  well_typed ctx ms → valid ms → well_typed ctx s → bs s ≠ W → parses_expr s →
  Forall parses_w subs → parses_expr ms ∧ parses_verify ms.
Proof.
  cbv zeta. intros Hwt Hv Hs Hw He Hsubs.
  assert (∀ nt ter ts, MkParser (NtThreshW k 0 :: nt) ter (rev (toks s ++ wtoks ctx subs) ++ ts)
    ⟹ MkParser nt (MkMs (Thresh k (s :: subs)) mty mext :: ter) ts) as Hrun.
  { intros nt ter ts. pose proof (thresh_run k s subs [] mty mext nt ter ts) as Hr.
    cbv zeta in Hr. rewrite app_nil_r in Hr. by apply Hr. }
  unfold wtoks in Hrun.
  split; intros nt ter ts; cbn [tokens_of]; rewrite app_assoc, rev_app_distr; cbn [rev app];
    (eapply goes_once; [|apply Hrun]); unfold step; cbn -[N.of_nat N.to_nat]; unfold count_tok;
    by rewrite Nat2N.id.
Qed.

Lemma push_token_not_equal b : push_token b ≠ TkEqual.
Proof. unfold push_token. by repeat case_match. Qed.

Ltac at_end T :=
  apply (parse_ok_last _ T);
  [done|unfold last_token; text; by eexists|first [done | apply push_token_not_equal]|].

(** The premises about a child, from its [parse_ok]. *)
Ltac child :=
  first [ done | congruence | apply ok_w; done | apply ok_seq; [done|congruence]
        | apply ok_left; [done|congruence]
        | apply ok_expr; [done|congruence|first [done | by eapply and_v_not_dissatisfiable]] ].

Lemma constant_run t mty mext :
  built mty mext t → (t = TTrue ∨ t = TFalse ∨ ∃ n, t = After n ∨ t = Older n) →
  parses_expr (MkMs t mty mext).
Proof.
  intros [Hwt Hv] Ht nt ter ts. destruct Ht as [->|[->|(n & [->| ->])]]; text; reduce.
Qed.

Lemma thresh_ok k subs mty mext :
  built mty mext (Thresh k subs) → type_check ctx (Thresh k subs) = Ok mty →
  bases_ok (Thresh k subs) (base (corr mty)) →
  Forall (well_typed ctx) subs → Forall parse_ok subs →
  parse_ok (MkMs (Thresh k subs) mty mext).
Proof.
  intros [Hwt Hv] Ht (Hbase & Hd & Hw) Hwts Hok.
  unfold type_check, property_check in Ht. apply check_threshold_cons in Ht.
  destruct subs as [|s subs]; [simpl in *; lia|].
  apply Forall_cons_iff in Hwts as [Hs _], Hok as [Hsok Hok].
  pose proof (Hbase 0 s eq_refl) as Hbs. cbn in Hbs.
  apply parse_ok_expr; [done|eapply thresh_parses; try done..].
  1,4: congruence.
  1,3: by eapply ok_expr; [done|congruence|]; eapply and_v_not_dissatisfiable; eauto.
  1,2: apply list.Forall_forall; intros w (i & Hi)%list_elem_of_lookup_1; rewrite list.Forall_forall in Hok;
    apply ok_w; [apply Hok; by eapply list_elem_of_lookup_2|]; by apply (Hbase (S i)).
Qed.

Lemma parse_ok_node t mty mext :
  ready (MkMs t mty mext) → Forall parse_ok (children t) → parse_ok (MkMs t mty mext).
Proof.
  intros Hr IH. pose proof (ready_children _ _ _ Hr) as Hch.
  destruct Hr as [Hwt Hv _ [Hc _]%all_nodes_inv [Hp _]%all_nodes_inv]. cbn [node] in *.
  assert (built mty mext t) as Hb by done.
  destruct (well_typed_inv _ _ Hwt) as (Ht & _ & _). cbn [node ty] in Ht.
  pose proof (type_check_bases ctx t mty Ht) as Hbase.
  assert (Forall (well_typed ctx) (children t)) as Hwts
    by (eapply Forall_impl; [exact Hch|]; by intros ? []).
  clear Hch.
  destruct t; cbn [children bases_ok node_canonical] in *; rewrite ?Forall_cons_iff in IH, Hwts;
    destruct_and?; try (by destruct e).
  - at_end (TkNum 1). apply constant_run; auto.
  - at_end (TkNum 0). apply constant_run; auto.
  - at_end (push_token (key_push ctx pk)). by apply pk_k_run.
  - done.
  - at_end TkVerify. by apply raw_pkh_run.
  - at_end TkCheckLockTimeVerify. apply constant_run; eauto.
  - at_end TkCheckSequenceVerify. apply constant_run; eauto.
  - by apply parse_ok_expr; [|apply hash_parses..].
  - by apply parse_ok_expr; [|apply hash_parses..].
  - by apply parse_ok_expr; [|apply hash_parses..].
  - by apply parse_ok_expr; [|apply hash_parses..].
  - apply parse_ok_W; [done|]. apply alt_run; child.
  - apply parse_ok_W; [done|]. apply swap_run; child.
  - at_end TkCheckSig. apply check_run; child.
  - at_end TkEndIf. apply dupif_run; child.
  - at_end TkVerify. apply verify_run; child.
  - at_end TkEndIf. apply nonzero_run; child.
  - at_end TkZeroNotEqual. apply zeronotequal_run; child.
  - split; [done|done| |]; intros _; [apply and_v_left|apply and_v_seq]; child.
  - at_end TkBoolAnd. apply and_b_run; child.
  - at_end TkEndIf. apply and_or_run; child.
  - at_end TkBoolOr. apply or_b_run; child.
  - at_end TkEndIf. apply or_d_run; child.
  - at_end TkEndIf. apply or_c_run; child.
  - at_end TkEndIf. apply or_i_run; child.
  - by eapply thresh_ok.
  - at_end TkCheckMultiSig. by apply multi_run.
  - apply (parse_ok_last _ TkNumEqual); [done| |done|by apply multi_a_run].
    unfold type_check, property_check in Ht. apply check_threshold_cons in Ht.
    destruct pks as [|k0 pks]; [simpl in *; lia|]. unfold last_token. text. by eexists.
Qed.

Lemma ready_parse_ok ms : ready ms → parse_ok ms.
Proof.
  induction ms as [t mty mext IH] using Miniscript_tree_ind. intros Hr.
  apply parse_ok_node; [done|]. apply ready_children in Hr.
  rewrite list.Forall_forall in *. auto.
Qed.

Lemma parse_tokens ms :
  ready ms → bs ms ≠ W → parse ctx (rev (toks ms)) = Some (Ok (ms, [])).
Proof.
  intros Hr Hw. apply parse_run. rewrite <-(app_nil_r (rev (toks ms))).
  apply (ok_seq ms (ready_parse_ok ms Hr) Hw). done.
Qed.

(** (C22) Decoding is complete: the tokens of a canonical Miniscript that the context
    admits, read from the end as [parse] does, give that very Miniscript and leave no
    token. *)
Theorem parse_complete ms :
  ready ms → bs ms ≠ W → parse ctx (TokenIter_new (toks ms)) = Some (Ok (ms, [])).
Proof. apply parse_tokens. Qed.
End complete.
