(* ===== verification/RoundTrip.v ===== *)
(** * Encoding and parsing are inverse

    The composition of [encode] with the lexer, the decoder and the final checks, and
    the theorems on sample scripts, with keys parsed from the demonstration scripts. *)

From S2P Require Import Prelude Types Extension Instances Property Ast Examples Typing Resources Iter Tokens Context ScriptNum Script Encoding Builder Lex Decode DecodeLoop DecodeSound Lexing Parse DecodeComplete.

Section round_trip.
Context {Pk : Type} `{MiniscriptKey Pk} `{EqDecision Pk} `{BitcoinKeys}.
Context `{!ToPublicKey Pk} `{!ToPublicKeyOk Pk} `{!ParseableKey Pk}.
Context `{LockTimes} `{!ScriptBuilder} `{!ScriptBuilderOk}.
Context (ctx : ScriptContext) `{!ParseableKeyOk ctx Pk}.
Implicit Types ms : Miniscript Pk NoExt.

(** What is encoded is lexed to the tokens and parsed back. *)
Lemma encoded_lexes ms s :
  well_typed ctx ms → all_nodes node_readable ms → all_nodes (node_signed ctx) ms →
  encode ctx ms = Ok s →
  instructions_minimal s = Ok <$> instrs ctx ms ∧ lex s = Ok (tokens_of ctx ms).
Proof.
  intros Hwt Hread Hsig Henc.
  destruct (encode_instrs ctx ms Hwt (all_nodes_impl _ _ _ node_readable_sized Hread) Hsig
    builder_new [] has_new) as (b & Hb' & Hi).
  unfold encode in Henc. rewrite Hb' in Henc. injection Henc as <-. split; [exact Hi|].
  by apply lex_script_tokens.
Qed.

Lemma encoded_parses ms p s :
  ctx ≠ NoChecks → ready ctx ms → base (corr (ty ms)) = B → all_nodes node_readable ms →
  ext_check ctx p ms = Ok tt → encode ctx ms = Ok s → parse_with_ext ctx s p = Some (Ok ms).
Proof.
  intros Hctx Hr Hb Hread Hext Henc. pose proof (ready_typed _ _ Hr) as Hwt.
  destruct (encoded_lexes ms s Hwt Hread (nodes_signed ctx ms Hctx (ready_allowed _ _ Hr)) Henc) as [_ Hlex].
  unfold parse_with_ext. rewrite Hlex.
  assert (bs ms ≠ W) as Hw by (unfold bs; congruence).
  rewrite (parse_tokens ctx ms Hr Hw). cbn [result_bind check_top].
  pose proof (ready_valid _ _ Hr) as Hv. unfold valid in Hv. rewrite Hv.
  destruct (well_typed_inv _ _ Hwt) as (Ht & _ & _). rewrite Ht. cbn [map_err result_bind].
  rewrite Hb, bool_decide_eq_true_2 by done. cbn [negb next_token]. by rewrite Hext.
Qed.

Lemma encode_total ms :
  well_typed ctx ms → all_nodes node_readable ms → all_nodes (node_signed ctx) ms →
  ∃ s, encode ctx ms = Ok s.
Proof.
  intros Hwt Hread Hsig.
  destruct (encode_instrs ctx ms Hwt (all_nodes_impl _ _ _ node_readable_sized Hread) Hsig builder_new [] has_new) as (b & Hb' & _). unfold encode. rewrite Hb'. by eexists.
Qed.

(** (C23) Encoding and parsing round-trip: a canonical Miniscript of type B without
    extensions, admitted by its context (other than the one without checks) and within
    the checks asked for, whose lock times and counts are below 2^31 (the four bytes the
    lexer reads), is encoded to a script that [parse_with_ext] reads back as that very
    Miniscript. *)
Theorem encode_parse ms p :
  ctx ≠ NoChecks → ready ctx ms → base (corr (ty ms)) = B → all_nodes node_readable ms →
  ext_check ctx p ms = Ok tt →
  ∃ s, encode ctx ms = Ok s ∧ parse_with_ext ctx s p = Some (Ok ms).
Proof.
  intros Hctx Hr Hb Hread Hext.
  destruct (encode_total ms (ready_typed _ _ Hr) Hread (nodes_signed ctx ms Hctx (ready_allowed _ _ Hr))) as [s Hs].
  exists s. split; [done|]. by apply encoded_parses.
Qed.
End round_trip.

(** ** Keys of the demonstration scripts *)

(** [Ctx::Key]: x-only keys under Tapscript, full keys elsewhere. *)
Definition demo_from_slice (sig : SigType) (b : bytes) : result KeyParseError DemoKey :=
  let n := match b with x :: _ => N.to_nat (Byte.to_N x) | [] => 0 end in
  let key := match sig, length b with
             | Ecdsa, 33 => Some (Compressed n)
             | Ecdsa, 65 => Some (Uncompressed n)
             | Schnorr, 32 => Some (XOnly n)
             | _, _ => None
             end in
  match key with
  | Some k => if bool_decide (pad (length b) n = b) then Ok k else Err FullKeyParseError
  | None => Err FullKeyParseError
  end.

Definition demo_ParseableKey (sig : SigType) : ParseableKey DemoKey := {|
  from_slice := demo_from_slice sig;
  of_sha256 h := h;
  of_hash256 h := h;
  of_ripemd160 h := h;
  of_hash160 h := h;
|}.

#[export] Instance demo_ParseableKeyOk (ctx : ScriptContext) :
  @ParseableKeyOk ctx DemoKey _ _ _ (demo_ParseableKey (sig_type ctx)).
Proof.
  split; try done.
  - intros b k. cbn. unfold demo_from_slice, key_push. destruct (sig_type ctx).
    + destruct (length b) as [|n] eqn:Hn; [done|].
      repeat case_match; intros; simplify_eq; case_bool_decide; simplify_eq; done.
    + repeat case_match; intros; simplify_eq; case_bool_decide; simplify_eq; done.
  - intros b. cbn. unfold demo_from_slice. repeat case_match; done.
Qed.

(** ** The theorems on samples *)

Lemma ms_andor_ready :
  ready (ParseableKey0 := demo_ParseableKey Ecdsa) Segwitv0 (ms_andor Segwitv0).
Proof. split; [exact ms_andor_typed|vm_compute; reflexivity|build_nodes..]. Qed.

Lemma parse_sound_witness :
  Forall token_sized (TokenIter_new (tokens_of Segwitv0 (ms_andor Segwitv0))) ∧
  match parse (ParseableKey0 := demo_ParseableKey Ecdsa) Segwitv0
          (TokenIter_new (tokens_of Segwitv0 (ms_andor Segwitv0))) with
  | Some (Ok (ms, ts')) =>
      TokenIter_new (tokens_of Segwitv0 (ms_andor Segwitv0)) = rev (tokens_of Segwitv0 ms) ++ ts' ∧
      well_typed Segwitv0 ms ∧ all_nodes (node_allowed Segwitv0) ms
  | Some (Err _) => True
  | _ => False
  end.
Proof.
  assert (Forall token_sized (TokenIter_new (tokens_of Segwitv0 (ms_andor Segwitv0)))) as Hs
    by (vm_compute; repeat constructor).
  split; [exact Hs|].
  exact (parse_sound (ParseableKey0 := demo_ParseableKey Ecdsa) Segwitv0 _ Hs).
Defined.

Lemma parse_complete_witness :
  ready (ParseableKey0 := demo_ParseableKey Ecdsa) Segwitv0 (ms_andor Segwitv0) ∧
  parse (ParseableKey0 := demo_ParseableKey Ecdsa) Segwitv0
    (TokenIter_new (tokens_of Segwitv0 (ms_andor Segwitv0)))
  = Some (Ok (ms_andor Segwitv0, [])).
Proof.
  split; [exact ms_andor_ready|].
  by apply (parse_complete (ParseableKey0 := demo_ParseableKey Ecdsa) Segwitv0 _ ms_andor_ready).
Defined.

Lemma encode_parse_witness :
  ready (ParseableKey0 := demo_ParseableKey Ecdsa) Segwitv0 (ms_andor Segwitv0) ∧
  ∃ s, encode Segwitv0 (ms_andor Segwitv0) = Ok s ∧
       parse_with_ext (ParseableKey0 := demo_ParseableKey Ecdsa) Segwitv0 s ExtParams_sane
       = Some (Ok (ms_andor Segwitv0)).
Proof.
  split; [exact ms_andor_ready|].
  apply (encode_parse (ParseableKey0 := demo_ParseableKey Ecdsa) Segwitv0 _ _ ltac:(done) ms_andor_ready);
    [reflexivity|build_nodes|vm_compute; reflexivity].
Defined.

(** A script without NUMEQUAL, as its instructions. *)
Definition andor_script : list Instruction := instrs Segwitv0 (ms_andor Segwitv0).

Lemma andor_no_numequal l1 l2 :
  instructions_minimal andor_script
  ≠ Ok (E := ScriptError) <$> (l1 ++ Op OP_NUMEQUAL :: Op OP_VERIFY :: l2).
Proof.
  intros Hi. assert (Ok (Op OP_NUMEQUAL) ∈ instructions_minimal andor_script) as Hin.
  { rewrite Hi. apply list_elem_of_fmap. eexists. split; [done|]. apply elem_of_app. right. by left. }
  revert Hin. vm_compute. intros Hin. repeat (apply elem_of_cons in Hin as [Hin|Hin]; [done|]).
  by apply elem_of_nil in Hin.
Qed.

Lemma parse_encode_witness :
  parse_with_ext (ParseableKey0 := demo_ParseableKey Ecdsa) Segwitv0 andor_script ExtParams_sane
  = Some (Ok (ms_andor Segwitv0)) ∧
  parsed Segwitv0 ExtParams_sane (ms_andor Segwitv0) ∧
  instructions_minimal andor_script = Ok <$> instrs Segwitv0 (ms_andor Segwitv0).
Proof.
  assert (parse_with_ext (ParseableKey0 := demo_ParseableKey Ecdsa) Segwitv0 andor_script
    ExtParams_sane = Some (Ok (ms_andor Segwitv0))) as Hp by (vm_compute; reflexivity).
  pose proof (parse_encode (ParseableKey0 := demo_ParseableKey Ecdsa)
    Segwitv0 andor_script ExtParams_sane) as Hspec. rewrite Hp in Hspec.
  destruct Hspec as [Hparsed Hi]. split_and!; [exact Hp|exact Hparsed|].
  by apply Hi, andor_no_numequal.
Defined.

(** The lexer rejects [EQUAL VERIFY] and the like but accepts [NUMEQUAL VERIFY]: two
    scripts that parse to the same Miniscript [and_v(v:multi_a(1,pk0),pk1)]. *)
Definition numequal_script (last : list Instruction) : list Instruction :=
  [PushBytes (pad 32 0); Op OP_CHECKSIG; Op OP_PUSHNUM_1] ++ last
  ++ [PushBytes (pad 32 1); Op OP_CHECKSIG].

Lemma numequal_verify_accepted :
  let parse_tap s := parse_with_ext (Ext := NoExt) (ParseableKey0 := demo_ParseableKey Schnorr)
                       Tap s ExtParams_sane in
  parse_tap (numequal_script [Op OP_NUMEQUAL; Op OP_VERIFY])
  = parse_tap (numequal_script [Op OP_NUMEQUALVERIFY]) ∧
  match parse_tap (numequal_script [Op OP_NUMEQUALVERIFY]) with
  | Some (Ok ms) => encode Tap ms = Ok (numequal_script [Op OP_NUMEQUALVERIFY])
  | _ => False
  end.
Proof. cbv zeta. split; vm_compute; reflexivity. Qed.
