(* ===== verification/Subtyping.v ===== *)
(** * Type checking is monotone in the types of the children

    Replacing children by ones of a subtype keeps a node well typed and gives it a
    subtype.  This is what allows a compiler to substitute a better typed fragment
    anywhere in a Miniscript. *)

From S2P Require Import Prelude Types Extension Property Ast Typing Instances Examples.
From S2P Require Correctness Malleability.

Abbreviation csub a b := (Correctness_is_subtype a b = true).
Abbreviation msub a b := (Malleability_is_subtype a b = true).

(** [f] accepts whatever it accepted on a supertype, with a subtype as result. *)
Definition better {A} (sub : A → A → Prop) (x y : result ErrorKind A) : Prop :=
  ∀ b, y = Ok b → ∃ a, x = Ok a ∧ sub a b.

Lemma better_pair c c' m m' :
  better (λ a b, csub a b) c c' → better (λ a b, msub a b) m m' →
  better subtype (TypeProp.pair_with c m) (TypeProp.pair_with c' m').
Proof.
  intros Hc Hm u [(a & -> & ?)%Hc (b & -> & ?)%Hm]%pair_with_Ok.
  exists (MkType a b). split; [done|]. by apply Type_subtype_iff.
Qed.

(** ** Monotone pieces *)

Lemma bool_ge_andb a a' b b' :
  bool_ge a a' = true → bool_ge b b' = true → bool_ge (a && b) (a' && b') = true.
Proof. by destruct a, a', b, b'. Qed.
Lemma bool_ge_orb a a' b b' :
  bool_ge a a' = true → bool_ge b b' = true → bool_ge (a || b) (a' || b') = true.
Proof. by destruct a, a', b, b'. Qed.
Lemma bool_ge_true b : bool_ge true b = true.
Proof. by destruct b. Qed.
Lemma bool_ge_unique d d' :
  Dissat_is_subtype d d' = true →
  bool_ge (bool_decide (d = Unique)) (bool_decide (d' = Unique)) = true.
Proof. by destruct d, d'. Qed.
Lemma bool_ge_use a b : bool_ge a b = true → b = true → a = true.
Proof. by destruct a, b. Qed.
Lemma bool_ge_intro a b : (b = true → a = true) → bool_ge a b = true.
Proof. destruct a, b; auto. Qed.
#[export] Hint Resolve bool_ge_andb bool_ge_orb bool_ge_true bool_ge_unique : subty.

Lemma and_input_mono a a' b b' :
  Input_is_subtype a a' = true → Input_is_subtype b b' = true →
  Input_is_subtype (Correctness.and_input a b) (Correctness.and_input a' b') = true.
Proof. by destruct a, a', b, b'. Qed.
Lemma or_dc_input_mono a a' b b' :
  Input_is_subtype a a' = true → Input_is_subtype b b' = true →
  Input_is_subtype (Correctness.or_dc_input a b) (Correctness.or_dc_input a' b') = true.
Proof. by destruct a, a', b, b'. Qed.
Lemma or_b_input_mono a a' b b' :
  Input_is_subtype a a' = true → Input_is_subtype b b' = true →
  Input_is_subtype (Correctness.or_b_input a b) (Correctness.or_b_input a' b') = true.
Proof. by destruct a, a', b, b'. Qed.
Lemma or_i_input_mono a a' b b' :
  Input_is_subtype a a' = true → Input_is_subtype b b' = true →
  Input_is_subtype (Correctness.or_i_input a b) (Correctness.or_i_input a' b') = true.
Proof. by destruct a, a', b, b'. Qed.
Lemma and_or_input_mono a a' b b' c c' :
  Input_is_subtype a a' = true → Input_is_subtype b b' = true →
  Input_is_subtype c c' = true →
  Input_is_subtype (Correctness.and_or_input a b c) (Correctness.and_or_input a' b' c') = true.
Proof. by destruct a, a'; try done; destruct b, b'; try done; destruct c, c'. Qed.
Lemma subtype_Any a : Input_is_subtype a Any = true.
Proof. by destruct a. Qed.
#[export] Hint Resolve and_input_mono or_dc_input_mono or_b_input_mono or_i_input_mono
  and_or_input_mono subtype_Any : subty.

(** ** The correctness rules *)

Section corr.
Implicit Types a b c l r t : Correctness.

(** Split the hypotheses into facts on the components and identify the bases. *)
Ltac open_csub :=
  rewrite ?Correctness_subtype_iff; intros;
  repeat match goal with c : Correctness |- _ => destruct c as [?bs ?ip ?ds ?un] end;
  cbn [base input dissatisfiable unit_] in *; destruct_and?; subst.

Ltac close_csub Hu :=
  injection Hu as <-; eexists; (split; [reflexivity|]); apply Correctness_subtype_iff;
  cbn [base input dissatisfiable unit_ andb orb];
  refine (conj _ (conj _ (conj _ _))); eauto with subty.

(** Decide the guards of the supertype's run; the subtype passes them too. *)
Ltac pass_guards Hu :=
  repeat match type of Hu with
  | context [if negb ?x then _ else _] => destruct x; cbn [negb] in Hu; [|discriminate Hu]
  end;
  repeat match goal with
  | H : bool_ge ?y true = true |- _ => change (y = true) in H; subst y
  end.

Ltac mono_rule :=
  let u := fresh "u" in let Hu := fresh "Hu" in
  open_csub; intros u Hu; autounfold with rules in *;
  cbn [base input dissatisfiable unit_] in *; pass_guards Hu;
  cbn [negb]; repeat (split_match; cbn [result_bind] in Hu |- *; try discriminate Hu);
  try discriminate; close_csub Hu.

Lemma corr_alt_mono t t' : csub t t' →
  better (λ a b, csub a b) (Correctness.cast_alt t) (Correctness.cast_alt t').
Proof. mono_rule. Qed.
Lemma corr_check_mono t t' : csub t t' →
  better (λ a b, csub a b) (Correctness.cast_check t) (Correctness.cast_check t').
Proof. mono_rule. Qed.
Lemma corr_verify_mono t t' : csub t t' →
  better (λ a b, csub a b) (Correctness.cast_verify t) (Correctness.cast_verify t').
Proof. mono_rule. Qed.
Lemma corr_zeronotequal_mono t t' : csub t t' →
  better (λ a b, csub a b) (Correctness.cast_zeronotequal t) (Correctness.cast_zeronotequal t').
Proof. mono_rule. Qed.
Lemma corr_swap_mono t t' : csub t t' →
  better (λ a b, csub a b) (Correctness.cast_swap t) (Correctness.cast_swap t').
Proof. mono_rule. Qed.
Lemma corr_dupif_mono t t' : csub t t' →
  better (λ a b, csub a b) (Correctness.cast_dupif t) (Correctness.cast_dupif t').
Proof. mono_rule. Qed.
(** The test of [cast_nonzero] accepts a downward closed set of inputs. *)
Lemma nonzero_input_mono i i' :
  Input_is_subtype i i' = true →
  negb (bool_decide (i' = OneNonZero)) && negb (bool_decide (i' = AnyNonZero)) = false →
  negb (bool_decide (i = OneNonZero)) && negb (bool_decide (i = AnyNonZero)) = false.
Proof. by destruct i, i'. Qed.
Lemma corr_nonzero_mono t t' : csub t t' →
  better (λ a b, csub a b) (Correctness.cast_nonzero t) (Correctness.cast_nonzero t').
Proof.
  open_csub; intros u Hu; unfold Correctness.cast_nonzero in *;
    cbn [base input dissatisfiable unit_] in *;
    match goal with Hi : Input_is_subtype _ ?i = true |- _ =>
      destruct (negb (bool_decide (i = OneNonZero)) && _) eqn:Ht; [discriminate Hu|];
      rewrite (nonzero_input_mono _ _ Hi Ht)
    end;
    match goal with b : Base |- _ => destruct b end; cbn [result_bind] in Hu |- *; try discriminate Hu; close_csub Hu.
Qed.
Lemma corr_and_b_mono l l' r r' : csub l l' → csub r r' →
  better (λ a b, csub a b) (Correctness.and_b l r) (Correctness.and_b l' r').
Proof. mono_rule. Qed.
Lemma corr_and_v_mono l l' r r' : csub l l' → csub r r' →
  better (λ a b, csub a b) (Correctness.and_v l r) (Correctness.and_v l' r').
Proof. mono_rule. Qed.
Lemma corr_or_b_mono l l' r r' : csub l l' → csub r r' →
  better (λ a b, csub a b) (Correctness.or_b l r) (Correctness.or_b l' r').
Proof. mono_rule. Qed.
Lemma corr_or_d_mono l l' r r' : csub l l' → csub r r' →
  better (λ a b, csub a b) (Correctness.or_d l r) (Correctness.or_d l' r').
Proof. mono_rule. Qed.
Lemma corr_or_c_mono l l' r r' : csub l l' → csub r r' →
  better (λ a b, csub a b) (Correctness.or_c l r) (Correctness.or_c l' r').
Proof. mono_rule. Qed.
Lemma corr_or_i_mono l l' r r' : csub l l' → csub r r' →
  better (λ a b, csub a b) (Correctness.or_i l r) (Correctness.or_i l' r').
Proof. mono_rule. Qed.
Lemma corr_and_or_mono a a' b b' c c' : csub a a' → csub b b' → csub c c' →
  better (λ a b, csub a b) (Correctness.and_or a b c) (Correctness.and_or a' b' c').
Proof. mono_rule. Qed.
End corr.

(** ** The malleability rules *)

Section mall.
Implicit Types a b c l r t : Malleability.

(** The dissatisfaction column of each rule, by enumeration. *)
Ltac enum_dissat :=
  repeat match goal with
  | H : Dissat_is_subtype ?d ?d' = true |- _ =>
      is_var d; is_var d'; destruct d, d'; try discriminate H; clear H
  end;
  repeat match goal with
  | H : bool_ge ?s ?s' = true |- ?g =>
      is_var s; is_var s';
      match g with context [s] => idtac | context [s'] => idtac end;
      destruct s, s'; try discriminate H; clear H
  end; reflexivity.

Ltac mall_rule :=
  rewrite ?Malleability_subtype_iff; intros;
  repeat match goal with c : Malleability |- _ => destruct c as [?ds ?sf ?nm] end;
  cbn [dissat safe non_malleable] in *; destruct_and?;
  let Hu := fresh in intros ? Hu; autounfold with rules in *; injection Hu as <-;
  eexists; split; [reflexivity|]; apply Malleability_subtype_iff;
  cbn [dissat safe non_malleable];
  refine (conj _ (conj _ _)); [|solve [eauto 8 with subty]..]; eauto with subty; enum_dissat.

Lemma mall_dupif_mono t t' : msub t t' →
  better (λ a b, msub a b) (Malleability.cast_dupif t) (Malleability.cast_dupif t').
Proof. mall_rule. Qed.
Lemma mall_verify_mono t t' : msub t t' →
  better (λ a b, msub a b) (Malleability.cast_verify t) (Malleability.cast_verify t').
Proof. mall_rule. Qed.
Lemma mall_nonzero_mono t t' : msub t t' →
  better (λ a b, msub a b) (Malleability.cast_nonzero t) (Malleability.cast_nonzero t').
Proof. mall_rule. Qed.
Lemma mall_and_b_mono l l' r r' : msub l l' → msub r r' →
  better (λ a b, msub a b) (Malleability.and_b l r) (Malleability.and_b l' r').
Proof. mall_rule. Qed.
Lemma mall_and_v_mono l l' r r' : msub l l' → msub r r' →
  better (λ a b, msub a b) (Malleability.and_v l r) (Malleability.and_v l' r').
Proof. mall_rule. Qed.
Lemma mall_or_b_mono l l' r r' : msub l l' → msub r r' →
  better (λ a b, msub a b) (Malleability.or_b l r) (Malleability.or_b l' r').
Proof. mall_rule. Qed.
Lemma mall_or_d_mono l l' r r' : msub l l' → msub r r' →
  better (λ a b, msub a b) (Malleability.or_d l r) (Malleability.or_d l' r').
Proof. mall_rule. Qed.
Lemma mall_or_c_mono l l' r r' : msub l l' → msub r r' →
  better (λ a b, msub a b) (Malleability.or_c l r) (Malleability.or_c l' r').
Proof. mall_rule. Qed.
Lemma mall_or_i_mono l l' r r' : msub l l' → msub r r' →
  better (λ a b, msub a b) (Malleability.or_i l r) (Malleability.or_i l' r').
Proof. mall_rule. Qed.
Lemma mall_and_or_mono a a' b b' c c' : msub a a' → msub b b' → msub c c' →
  better (λ a b, msub a b) (Malleability.and_or a b c) (Malleability.and_or a' b' c').
Proof. mall_rule. Qed.
Lemma mall_id_mono t t' : msub t t' → better (λ a b, msub a b) (Ok t) (Ok t').
Proof. intros Ht u [= <-]. eauto. Qed.
End mall.

(** ** Thresholds *)

(** Either the argument counts agree, or the supertype's is already [Any]. *)
Lemma thresh_args_mono cs cs' :
  Forall2 (λ a b, csub a b) cs cs' → thresh_args cs = thresh_args cs' ∨ 2 ≤ thresh_args cs'.
Proof.
  induction 1 as [|c c' cs cs' Hc _ IH]; [by left|].
  apply Correctness_subtype_iff in Hc as (_ & Hi & _). rewrite !thresh_args_cons.
  destruct (input c), (input c'); try discriminate Hi; simpl; lia.
Qed.

Lemma thresh_child_ok_mono i c c' : csub c c' → thresh_child_ok i c' → thresh_child_ok i c.
Proof.
  rewrite Correctness_subtype_iff. intros (Hb & _ & Hd & Hu) (Hb' & Hu' & Hd').
  split; [congruence|]. eauto using bool_ge_use.
Qed.

Lemma thresh_acc_mono ms ms' :
  Forall2 (λ a b, msub a b) ms ms' →
  let acc := thresh_acc ms in let acc' := thresh_acc ms' in
  Malleability.safe_count acc' ≤ Malleability.safe_count acc ≤ length ms ∧
  bool_ge (Malleability.all_are_dissat_unique acc) (Malleability.all_are_dissat_unique acc') = true ∧
  bool_ge (Malleability.all_are_non_malleable acc) (Malleability.all_are_non_malleable acc') = true.
Proof.
  induction 1 as [|m m' ms ms' Hm _ IH]; [done|].
  apply Malleability_subtype_iff in Hm as (Hd & Hs & Hn).
  cbn in IH |- *. destruct IH as (IHs & IHu & IHm). split_and!.
  - destruct (safe m), (safe m'); try discriminate Hs; lia.
  - destruct (safe m); lia.
  - auto with subty.
  - auto with subty.
Qed.

Lemma thresh_mall_mono k ms ms' :
  Forall2 (λ a b, msub a b) ms ms' → msub (thresh_mall k ms) (thresh_mall k ms').
Proof.
  intros Hms. destruct (thresh_acc_mono _ _ Hms) as (Hs & Hu & Hn).
  apply Forall2_length in Hms. apply Malleability_subtype_iff.
  unfold thresh_mall. rewrite <-Hms. cbn [dissat safe non_malleable].
  set (acc := thresh_acc ms) in *. set (acc' := thresh_acc ms') in *. refine (conj _ (conj _ _)).
  - destruct (Malleability.all_are_dissat_unique acc'); [|by case_match].
    rewrite (bool_ge_use _ _ Hu eq_refl). cbn [andb].
    destruct (Nat.eqb_spec (Malleability.safe_count acc') (length ms)); [|by case_match].
    by rewrite (proj2 (Nat.eqb_eq _ _)) by lia.
  - apply bool_ge_intro. rewrite !Nat.ltb_lt. lia.
  - apply bool_ge_andb; [apply bool_ge_andb|]; [done| |done].
    apply bool_ge_intro. rewrite !Nat.leb_le. lia.
Qed.

Lemma type_threshold_mono k sub sub' ts ts' :
  (∀ i t, ts !! i = Some t → sub i = Ok t) → (∀ i t, ts' !! i = Some t → sub' i = Ok t) →
  Forall2 subtype ts ts' →
  better subtype (TypeProp.threshold k (length ts) sub) (TypeProp.threshold k (length ts') sub').
Proof.
  intros Hsub Hsub' Hts u (Hok & Hc & Hm)%type_threshold_Ok; [|done].
  assert (Forall2 (λ a b, csub a b) (corr <$> ts) (corr <$> ts')) as Hcs.
  { apply Forall2_fmap. eapply Forall2_impl; [|exact Hts]. by intros ?? [? _]%Type_subtype_iff. }
  assert (Forall2 (λ a b, msub a b) (mall <$> ts) (mall <$> ts')) as Hms.
  { apply Forall2_fmap. eapply Forall2_impl; [|exact Hts]. by intros ?? [_ ?]%Type_subtype_iff. }
  eexists (MkType _ _). split.
  - apply type_threshold_Ok; [done|]. split_and!; [|reflexivity|reflexivity].
    intros i t Ht. destruct (Forall2_lookup_l _ _ _ _ _ Hts Ht) as (t' & Ht' & [Hcc _]%Type_subtype_iff).
    eapply thresh_child_ok_mono; eauto.
  - apply Type_subtype_iff. cbn [corr mall]. rewrite Hc, Hm. split; [|by apply thresh_mall_mono].
    apply Correctness_subtype_iff. cbn. split_and!; [done| |done|done].
    destruct (thresh_args_mono _ _ Hcs) as [->|Hge]; [apply Input_subtype_refl|].
    destruct (thresh_args (corr <$> ts')) as [|[|n]]; [lia|lia|apply subtype_Any].
Qed.

(** ** Nodes *)

Section nodes.
Context {Pk : Type} `{MiniscriptKey Pk} {Ext : Type} `{Extension Ext} `{LockTimes}.

(** [t] with its children replaced, left to right, by [ms]. *)
Definition with_children (t : Terminal Pk Ext) (ms : list (Miniscript Pk Ext)) : Terminal Pk Ext :=
  match t, ms with
  | Alt _, [s] => Alt s
  | Swap _, [s] => Swap s
  | Check _, [s] => Check s
  | DupIf _, [s] => DupIf s
  | Verify _, [s] => Verify s
  | NonZero _, [s] => NonZero s
  | ZeroNotEqual _, [s] => ZeroNotEqual s
  | AndV _ _, [l; r] => AndV l r
  | AndB _ _, [l; r] => AndB l r
  | AndOr _ _ _, [a; b; c] => AndOr a b c
  | OrB _ _, [l; r] => OrB l r
  | OrD _ _, [l; r] => OrD l r
  | OrC _ _, [l; r] => OrC l r
  | OrI _ _, [l; r] => OrI l r
  | Thresh k _, subs => Thresh k subs
  | t, _ => t
  end.

#[local] Hint Resolve corr_alt_mono corr_swap_mono corr_check_mono corr_dupif_mono corr_verify_mono
  corr_nonzero_mono corr_zeronotequal_mono corr_and_b_mono corr_and_v_mono corr_or_b_mono
  corr_or_d_mono corr_or_c_mono corr_or_i_mono corr_and_or_mono mall_dupif_mono mall_verify_mono
  mall_nonzero_mono mall_and_b_mono mall_and_v_mono mall_or_b_mono mall_or_d_mono mall_or_c_mono
  mall_or_i_mono mall_and_or_mono mall_id_mono : mono.

(** Lists of children of a known length. *)
Ltac inv_Forall2 :=
  repeat match goal with
  | H : Forall2 _ _ [] |- _ => apply Forall2_nil_inv_r in H; subst
  | H : Forall2 _ _ (_ :: _) |- _ => apply Forall2_cons_inv_r in H as (? & ? & ? & ? & ->)
  end.

(** (C9) Substitutivity of typing: if each child of a well-typed node is replaced
    by a fragment whose type is a subtype of the old child's, the node still type
    checks and its new type is a subtype of the old one.  A compiler may therefore
    choose the better typed of two candidate fragments without re-examining the
    context. *)
Theorem type_check_mono ctx (t : Terminal Pk Ext) ms u :
  Forall2 (λ m m', subtype (ty m) (ty m')) ms (children t) →
  type_check ctx t = Ok u →
  ∃ u', type_check ctx (with_children t ms) = Ok u' ∧ subtype u' u.
Proof.
  unfold type_check, property_check. intros Hms Hu. revert u Hu.
  change (better subtype (type_check ctx (with_children t ms)) (type_check ctx t)).
  unfold type_check, property_check.
  destruct t; cbn [children] in Hms; inv_Forall2; cbn [with_children];
    try (intros u ->; exists u; done); repeat match goal with
    | Hs : subtype _ _ |- _ => apply Type_subtype_iff in Hs as [? ?]
    end; try (apply better_pair; first [by auto with mono | by apply mall_id_mono]).
  intros u (? & Hk & Hu)%bind_Ok.
  pose proof (Forall2_length Hms) as Hlen.
  rewrite Hlen, Hk. cbn [result_bind].
  rewrite <-(length_fmap ty subs) in Hu. rewrite <-Hlen, <-(length_fmap ty ms).
  eapply type_threshold_mono; [| |by apply Forall2_fmap|exact Hu]; intros ? ?; apply lookup_children.
Qed.
End nodes.

(** [v:pk_h] with the better typed [pk] in place of [pk_h]. *)
Lemma type_check_mono_witness :
  subtype (ty (pk Segwitv0 0)) (ty (pkh Segwitv0 0)) ∧
  ∃ u', type_check Segwitv0 (Verify (pk Segwitv0 0)) = Ok u' ∧
        subtype u' (ty (wrap_v Segwitv0 (pkh Segwitv0 0))).
Proof.
  split; [reflexivity|].
  apply (type_check_mono Segwitv0 (Verify (pkh Segwitv0 0)) [pk Segwitv0 0]).
  - repeat constructor.
  - reflexivity.
Defined.
