(* ===== verification/Timelocks.v ===== *)
(** * Time lock mixing

    What [TimelockInfo::contains_combination] means: a Miniscript carries the flag
    exactly when some way of satisfying it needs a height lock and a time lock of
    the same opcode at once. *)

From S2P Require Import Prelude Types Extension Property Ast Typing Resources Instances Examples.
From S2P Require Correctness Malleability ExtraProps.
Import ExtraProps(combine_step, combine_threshold, combine_and, combine_or).

(** ** The four kinds of lock *)

Inductive lock_kind : Type := CsvHeight | CsvTime | CltvHeight | CltvTime.

Definition opposite (k : lock_kind) : lock_kind :=
  match k with
  | CsvHeight => CsvTime
  | CsvTime => CsvHeight
  | CltvHeight => CltvTime
  | CltvTime => CltvHeight
  end.

Definition has (tl : TimelockInfo) (k : lock_kind) : bool :=
  match k with
  | CsvHeight => csv_with_height tl
  | CsvTime => csv_with_time tl
  | CltvHeight => cltv_with_height tl
  | CltvTime => cltv_with_time tl
  end.

(** A transaction cannot meet both locks: it has one lock time and an input has one
    sequence number, each of one kind. *)
Definition mixes (locks : list lock_kind) : Prop :=
  ∃ k, k ∈ locks ∧ opposite k ∈ locks.

Lemma opposite_involutive k : opposite (opposite k) = k.
Proof. by destruct k. Qed.
Lemma opposite_neq k : opposite k ≠ k.
Proof. by destruct k. Qed.

Definition conflict (a b : TimelockInfo) : Prop :=
  ∃ k, has a k = true ∧ has b (opposite k) = true.

(** ** What [combine_threshold] computes *)

Lemma combine_step_has k acc t x : has (combine_step k acc t) x = has acc x || has t x.
Proof. by destruct x. Qed.

Lemma combine_step_comb k acc t :
  contains_combination (combine_step k acc t) = true ↔
  contains_combination acc = true ∨ contains_combination t = true ∨ (1 < k ∧ conflict acc t).
Proof.
  unfold combine_step. cbn [contains_combination].
  assert ((csv_with_height acc && csv_with_time t)
    || (csv_with_time acc && csv_with_height t)
    || (cltv_with_time acc && cltv_with_height t)
    || (cltv_with_height acc && cltv_with_time t) = true ↔ conflict acc t) as Hc.
  { rewrite !orb_true_iff, !andb_true_iff. split.
    - intros [[[[]|[]]|[]]|[]];
        [exists CsvHeight|exists CsvTime|exists CltvTime|exists CltvHeight]; done.
    - intros ([] & ? & ?); simpl in *; tauto. }
  revert Hc. generalize (conflict acc t). intros P Hc.
  destruct (Nat.ltb_spec 1 k); rewrite orb_true_iff; [rewrite orb_true_iff, Hc|].
  - tauto.
  - split; [tauto|]. intros [?|[?|[? _]]]; [tauto..|lia].
Qed.

Section fold.
Variable k : nat.

Lemma fold_has tls acc x :
  has (fold_left (combine_step k) tls acc) x = true ↔
  has acc x = true ∨ ∃ t, t ∈ tls ∧ has t x = true.
Proof.
  revert acc. induction tls as [|t tls IH]; intros acc; simpl.
  - split; [by left|]. intros [?|(t & Ht & _)]; [done|]. by apply elem_of_nil in Ht.
  - rewrite IH, combine_step_has, orb_true_iff. setoid_rewrite elem_of_cons. naive_solver.
Qed.

Lemma fold_comb tls acc :
  contains_combination (fold_left (combine_step k) tls acc) = true ↔
  contains_combination acc = true ∨ (∃ t, t ∈ tls ∧ contains_combination t = true) ∨
  (1 < k ∧ ((∃ t, t ∈ tls ∧ conflict acc t) ∨
            ∃ l1 a l2 b l3, tls = l1 ++ a :: l2 ++ b :: l3 ∧ conflict a b)).
Proof.
  revert acc. induction tls as [|t tls IH]; intros acc; simpl.
  { split; [by left|]. intros [?|[(t & Ht & _)|[_ [(t & Ht & _)|(l1 & a & l2 & b & l3 & Heq & _)]]]];
      [done|by apply elem_of_nil in Ht..|by destruct l1]. }
  rewrite IH, combine_step_comb. setoid_rewrite elem_of_cons. split.
  - intros [[?|[?|[? Hc]]]|[(u & ? & ?)|[? [(u & Hu & x & Hx & ?)|(l1 & a & l2 & b & l3 & -> & ?)]]]].
    + by left.
    + right; left. by exists t; auto.
    + right; right. split; [done|]. left. by exists t; auto.
    + right; left. exists u; auto.
    + rewrite combine_step_has, orb_true_iff in Hx. right; right. split; [done|].
      destruct Hx; [left; exists u; split; [by right|by exists x]|].
      right. apply list_elem_of_split in Hu as (l1 & l2 & ->).
      exists [], t, l1, u, l2. split; [done|]. by exists x.
    + right; right. split; [done|]. right. by exists (t :: l1), a, l2, b, l3.
  - intros [?|[(u & [->|?] & ?)|[? [(u & [->|Hu] & x & Hx & Hy)|(l1 & a & l2 & b & l3 & Heq & Hab)]]]].
    + by left; left.
    + by left; right; left.
    + right; left. by exists u.
    + left; right; right. split; [done|]. by exists x.
    + right; right. split; [done|]. left. exists u. split; [done|]. exists x.
      by rewrite combine_step_has, Hx.
    + right; right. split; [done|]. destruct l1 as [|c l1]; simplify_eq/=.
      * left. exists b. split; [apply elem_of_app; right; by left|]. destruct Hab as (x & Hx & ?). exists x.
        by rewrite combine_step_has, Hx, orb_true_r.
      * right. by exists l1, a, l2, b, l3.
Qed.

Lemma combine_threshold_has tls x :
  has (combine_threshold k tls) x = true ↔ ∃ t, t ∈ tls ∧ has t x = true.
Proof.
  unfold combine_threshold. rewrite fold_has.
  assert (has TimelockInfo_default x = false) as -> by (by destruct x). naive_solver.
Qed.

Lemma combine_threshold_comb tls :
  contains_combination (combine_threshold k tls) = true ↔
  (∃ t, t ∈ tls ∧ contains_combination t = true) ∨
  (1 < k ∧ ∃ l1 a l2 b l3, tls = l1 ++ a :: l2 ++ b :: l3 ∧ conflict a b).
Proof.
  unfold combine_threshold. rewrite fold_comb. simpl.
  assert (∀ t, ¬ conflict TimelockInfo_default t) by (by intros t ([] & ? & ?)). naive_solver.
Qed.
End fold.

(** ** Satisfaction paths

    The locks executed by one canonical way of satisfying a Miniscript: a
    conjunction satisfies both sides, a disjunction one of them, a threshold [k] of
    its children.  A dissatisfaction and an extension execute no lock. *)

Section paths.
Context {Pk : Type} `{MiniscriptKey Pk} {Ext : Type} `{Extension Ext} `{LockTimes}.
Implicit Types ms : Miniscript Pk Ext.

Definition after_kind (t : N) : lock_kind := if is_block_height t then CltvHeight else CltvTime.
Definition older_kind (t : N) : lock_kind := if is_height_locked t then CsvHeight else CsvTime.

(** Meet [k] of the requirements [rs] and concatenate what they need. *)
Inductive choose : nat → list (list lock_kind → Prop) → list lock_kind → Prop :=
  | choose_nil : choose 0 [] []
  | choose_take k (r : list lock_kind → Prop) rs l1 l2 :
      r l1 → choose k rs l2 → choose (S k) (r :: rs) (l1 ++ l2)
  | choose_skip k r rs l : choose k rs l → choose k (r :: rs) l.

Definition both (p q : list lock_kind → Prop) (l : list lock_kind) : Prop :=
  ∃ l1 l2, p l1 ∧ q l2 ∧ l = l1 ++ l2.

Fixpoint sat_path ms (l : list lock_kind) {struct ms} : Prop :=
  match ms with
  | MkMs t _ _ =>
      match t with
      | TFalse => False
      | After n => l = [after_kind n]
      | Older n => l = [older_kind n]
      | Alt s | Swap s | Check s | DupIf s | Verify s | NonZero s | ZeroNotEqual s =>
          sat_path s l
      | AndV a b | AndB a b => both (sat_path a) (sat_path b) l
      | AndOr a b c => both (sat_path a) (sat_path b) l ∨ sat_path c l
      | OrB a b | OrD a b | OrC a b | OrI a b => sat_path a l ∨ sat_path b l
      | Thresh k subs => choose k (map sat_path subs) l
      | _ => l = []
      end
  end.

(** Fragments without [0] and without extensions: every part of them is needed on
    some path. *)
Fixpoint no_false ms : bool :=
  match ms with
  | MkMs t _ _ =>
      match t with
      | TFalse | ExtT _ => false
      | Alt s | Swap s | Check s | DupIf s | Verify s | NonZero s | ZeroNotEqual s => no_false s
      | AndV a b | AndB a b | OrB a b | OrD a b | OrC a b | OrI a b => no_false a && no_false b
      | AndOr a b c => no_false a && no_false b && no_false c
      | Thresh _ subs => forallb no_false subs
      | _ => true
      end
  end.

(** A summary [tl] bounds the paths [P]. *)
Record sound (tl : TimelockInfo) (P : list lock_kind → Prop) : Prop := {
  sound_has : ∀ l k, P l → k ∈ l → has tl k = true;
  sound_mixes : ∀ l, P l → mixes l → contains_combination tl = true;
}.

(** A summary is met by some of the paths [P]. *)
Record exact (tl : TimelockInfo) (P : list lock_kind → Prop) : Prop := {
  exact_sat : ∃ l, P l;
  exact_has : ∀ k, has tl k = true → ∃ l, P l ∧ k ∈ l;
  exact_mixes : contains_combination tl = true → ∃ l, P l ∧ mixes l;
}.
End paths.

Lemma mixes_app l1 l2 :
  mixes (l1 ++ l2) → mixes l1 ∨ mixes l2 ∨
  ∃ k, (k ∈ l1 ∧ opposite k ∈ l2).
Proof.
  intros (k & [?|?]%elem_of_app & [?|?]%elem_of_app).
  - left; by exists k.
  - right; right; by exists k.
  - right; right. exists (opposite k). by rewrite opposite_involutive.
  - right; left; by exists k.
Qed.

Lemma mixes_mono l l' : mixes l → (∀ k, k ∈ l → k ∈ l') → mixes l'.
Proof. intros (k & ? & ?) Hl. exists k; auto. Qed.

(** *** Thresholds are sound and exact *)

Lemma choose_zero Ps l : choose 0 Ps l → l = [].
Proof.
  induction Ps as [|p Ps IH]; inversion 1; auto.
Qed.

Lemma comb_cons k0 t tls :
  contains_combination (combine_threshold k0 tls) = true →
  contains_combination (combine_threshold k0 (t :: tls)) = true.
Proof.
  rewrite !combine_threshold_comb. intros [(u & ? & ?)|[? (m1 & a & m2 & b & m3 & -> & ?)]].
  - left. exists u; split; [by right|done].
  - right; split; [done|]. by exists (t :: m1), a, m2, b, m3.
Qed.

Lemma choose_sound k0 k tls Ps l :
  choose k Ps l → k ≤ k0 → Forall2 sound tls Ps →
  (∀ x, x ∈ l → ∃ t, t ∈ tls ∧ has t x = true) ∧
  (mixes l → contains_combination (combine_threshold k0 tls) = true).
Proof.
  intros Hl. revert tls. induction Hl as [|k r rs l1 l2 Hr Hl IH|k r rs l Hl IH];
    intros tls Hk Hs.
  - apply Forall2_nil_inv_r in Hs as ->. split; [intros x Hx; by apply elem_of_nil in Hx|].
    intros (x & Hx & _). by apply elem_of_nil in Hx.
  - apply Forall2_cons_inv_r in Hs as (t & tls' & [Ht1 Ht2] & Hs & ->).
    destruct (IH tls') as [IH1 IH2]; [lia|done|]. split.
    + intros x [Hx|Hx]%elem_of_app; [exists t; split; [left|eauto]|].
      destruct (IH1 x Hx) as (u & ? & ?). exists u; split; [by right|done].
    + intros [Hm|[Hm|(x & Hx & Hy)]]%mixes_app; [|by apply comb_cons, IH2|].
      * rewrite combine_threshold_comb. left. exists t; split; [left|eauto].
      * rewrite combine_threshold_comb. right.
        destruct (IH1 _ Hy) as (u & (m1 & m2 & ->)%list_elem_of_split & Hu).
        split; [|by exists [], t, m1, u, m2; split; [done|exists x; split; [eauto|done]]].
        assert (k ≠ 0); [|lia]. intros ->. apply choose_zero in Hl as ->.
        by apply elem_of_nil in Hy.
  - apply Forall2_cons_inv_r in Hs as (t & tls' & _ & Hs & ->).
    destruct (IH tls') as [IH1 IH2]; [done..|]. split; [|intros; by apply comb_cons, IH2].
    intros x Hx. destruct (IH1 x Hx) as (u & ? & ?). exists u; split; [by right|done].
Qed.

Lemma threshold_sound k tls Ps :
  Forall2 sound tls Ps → sound (combine_threshold k tls) (choose k Ps).
Proof.
  intros Hs. split; intros l.
  - intros x Hl Hx. apply combine_threshold_has.
    by eapply (choose_sound k k); [exact Hl|..].
  - intros Hl. by eapply choose_sound.
Qed.

Lemma choose_app k1 k2 Ps1 Ps2 l1 l2 :
  choose k1 Ps1 l1 → choose k2 Ps2 l2 → choose (k1 + k2) (Ps1 ++ Ps2) (l1 ++ l2).
Proof.
  intros H1 H2. induction H1; simpl; [done|rewrite <-app_assoc|]; by constructor.
Qed.

Lemma choose_any k Ps :
  Forall (λ P : list lock_kind → Prop, ∃ l, P l) Ps → k ≤ length Ps → ∃ l, choose k Ps l.
Proof.
  intros HPs. revert k. induction HPs as [|P Ps [l HP] HPs IH]; intros k Hk; simpl in *.
  - assert (k = 0) as -> by lia. eexists; constructor.
  - destruct k as [|k]; [destruct (IH 0) as [l' ?]; [lia|exists l'; by constructor]|].
    destruct (IH k) as [l' ?]; [lia|]. eexists. by constructor.
Qed.

Lemma choose_one k Ps1 (P : list lock_kind → Prop) Ps2 l :
  Forall (λ P : list lock_kind → Prop, ∃ l, P l) (Ps1 ++ P :: Ps2) →
  1 ≤ k ≤ length (Ps1 ++ P :: Ps2) → P l →
  ∃ l', choose k (Ps1 ++ P :: Ps2) l' ∧ (∀ x, x ∈ l → x ∈ l').
Proof.
  rewrite Forall_app, length_app. intros [H1 [_ H2]%Forall_cons_iff] Hk Hl; simpl in *.
  destruct (choose_any (Nat.min (k - 1) (length Ps1)) Ps1 H1) as [l1 Hl1]; [lia|].
  destruct (choose_any (k - 1 - Nat.min (k - 1) (length Ps1)) Ps2 H2) as [l2 Hl2]; [lia|].
  exists (l1 ++ l ++ l2). split; [|intros x; rewrite !elem_of_app; tauto].
  replace k with (Nat.min (k - 1) (length Ps1) + S (k - 1 - Nat.min (k - 1) (length Ps1))) by lia.
  apply choose_app; [done|]. by constructor.
Qed.

Lemma choose_two k Ps1 (P : list lock_kind → Prop) Ps2 (Q : list lock_kind → Prop) Ps3 l m :
  Forall (λ P : list lock_kind → Prop, ∃ l, P l) (Ps1 ++ P :: Ps2 ++ Q :: Ps3) →
  2 ≤ k ≤ length (Ps1 ++ P :: Ps2 ++ Q :: Ps3) → P l → Q m →
  ∃ l', choose k (Ps1 ++ P :: Ps2 ++ Q :: Ps3) l' ∧ (∀ x, x ∈ l ∨ x ∈ m → x ∈ l').
Proof.
  rewrite Forall_app, !length_app. intros [H1 [_ H2]%Forall_cons_iff] Hk Hl Hm; simpl in *.
  rewrite length_app in Hk; simpl in Hk.
  set (k1 := Nat.min (k - 2) (length Ps1)).
  destruct (choose_any k1 Ps1 H1) as [l1 Hl1]; [lia|].
  destruct (choose_one (k - 1 - k1) Ps2 Q Ps3 m H2) as (l2 & Hl2 & Hin);
    [rewrite length_app; simpl; lia|done|].
  exists (l1 ++ l ++ l2). split; [|intros x; rewrite !elem_of_app; naive_solver].
  replace k with (k1 + S (k - 1 - k1)) by lia.
  apply choose_app; [done|]. by constructor.
Qed.

Lemma threshold_exact k tls Ps :
  Forall2 exact tls Ps → 1 ≤ k ≤ length Ps → exact (combine_threshold k tls) (choose k Ps).
Proof.
  intros He Hk. pose proof (Forall2_length He) as Hlen.
  assert (Forall (λ P : list lock_kind → Prop, ∃ l, P l) Ps) as HPs
    by (clear -He; induction He as [|??? ? []]; by constructor).
  assert (∀ t, t ∈ tls → ∃ Ps1 P Ps2, Ps = Ps1 ++ P :: Ps2 ∧ exact t P) as Hsplit.
  { intros t (m1 & m2 & ->)%list_elem_of_split.
    apply Forall2_app_inv_l in He as (Ps1 & Ps2 & _ & He & ->).
    apply Forall2_cons_inv_l in He as (P & Ps3 & ? & _ & ->). by exists Ps1, P, Ps3. }
  split.
  - apply choose_any; [done|lia].
  - intros x (t & Ht & Hx)%combine_threshold_has.
    destruct (Hsplit t Ht) as (Ps1 & P & Ps2 & -> & [_ Hhas _]).
    destruct (Hhas x Hx) as (l & Hl & Hin).
    destruct (choose_one k Ps1 P Ps2 l) as (l' & ? & ?); eauto.
  - rewrite combine_threshold_comb. intros [(t & Ht & Hx)|[? (m1 & a & m2 & b & m3 & -> & Hc)]].
    + destruct (Hsplit t Ht) as (Ps1 & P & Ps2 & -> & [_ _ Hmix]).
      destruct (Hmix Hx) as (l & Hl & Hm).
      destruct (choose_one k Ps1 P Ps2 l) as (l' & ? & ?); eauto using mixes_mono.
    + clear Hsplit. apply Forall2_app_inv_l in He as (Ps1 & Ps' & _ & He & ->).
      apply Forall2_cons_inv_l in He as (P & Ps'' & [_ Ha _] & He & ->).
      apply Forall2_app_inv_l in He as (Ps2 & Ps3 & _ & He & ->).
      apply Forall2_cons_inv_l in He as (Q & Ps4 & [_ Hb _] & _ & ->).
      destruct Hc as (x & [l [Hl ?]]%Ha & [m [Hm ?]]%Hb).
      destruct (choose_two k Ps1 P Ps2 Q Ps4 l m) as (l' & ? & Hin); [done|lia|done|done|].
      exists l'. split; [done|]. exists x; auto.
Qed.

(** *** Conjunctions and disjunctions are thresholds of two *)

Lemma choose_both P Q l : choose 2 [P; Q] l ↔ both P Q l.
Proof.
  split.
  - inversion 1 as [|? ? ? l1 l2 H1 H2|? ? ? ? H2]; subst; inversion H2 as [|? ? ? m1 m2 H3 H4|? ? ? ? H4]; subst;
      inversion H4; subst. exists l1, m1. by rewrite app_nil_r.
  - intros (l1 & l2 & ? & ? & ->). rewrite <-(app_nil_r l2). by repeat constructor.
Qed.

Lemma choose_either (P Q : list lock_kind → Prop) l : choose 1 [P; Q] l ↔ P l ∨ Q l.
Proof.
  split.
  - inversion 1 as [|? ? ? l1 l2 H1 H2|? ? ? ? H2]; subst.
    + apply choose_zero in H2 as ->. rewrite app_nil_r. by left.
    + inversion H2 as [|? ? ? m1 m2 H3 H4|? ? ? ? H4]; subst; inversion H4; subst.
      rewrite app_nil_r. by right.
  - intros Hl. rewrite <-(app_nil_r l). destruct Hl as [Hl|Hl].
    + apply choose_take; [done|]. by repeat constructor.
    + apply choose_skip, choose_take; [done|constructor].
Qed.

#[export] Instance sound_proper tl : Proper (pointwise_relation _ iff ==> iff) (sound tl).
Proof.
  intros P Q HPQ. split; intros [H1 H2]; split; intros l;
    [setoid_rewrite <-HPQ|rewrite <-(HPQ l)|setoid_rewrite HPQ|rewrite (HPQ l)]; eauto.
Qed.
#[export] Instance exact_proper tl : Proper (pointwise_relation _ iff ==> iff) (exact tl).
Proof.
  intros P Q HPQ.
  split; intros [H1 H2 H3]; split;
    first [setoid_rewrite <-HPQ; done | setoid_rewrite HPQ; done].
Qed.

Lemma and_sound a b P Q : sound a P → sound b Q → sound (combine_and a b) (both P Q).
Proof.
  intros Ha Hb. apply (sound_proper _ _ _ (choose_both P Q)). apply threshold_sound. eauto.
Qed.
Lemma or_sound a b P Q : sound a P → sound b Q → sound (combine_or a b) (λ l, P l ∨ Q l).
Proof.
  intros Ha Hb. apply (sound_proper _ _ _ (choose_either P Q)). apply threshold_sound. eauto.
Qed.
Lemma and_exact a b P Q : exact a P → exact b Q → exact (combine_and a b) (both P Q).
Proof.
  intros Ha Hb. apply (exact_proper _ _ _ (choose_both P Q)). apply threshold_exact; [eauto|simpl; lia].
Qed.
Lemma or_exact a b P Q : exact a P → exact b Q → exact (combine_or a b) (λ l, P l ∨ Q l).
Proof.
  intros Ha Hb. apply (exact_proper _ _ _ (choose_either P Q)).
  apply threshold_exact; [eauto|simpl; lia].
Qed.

Lemma default_sound : sound TimelockInfo_default (λ l, l = []).
Proof. split; intros ? ; [intros ? -> Hx|intros -> (x & Hx & _)]; by apply elem_of_nil in Hx. Qed.
Lemma default_exact : exact TimelockInfo_default (λ l, l = []).
Proof. split; [eauto|by intros []|done]. Qed.

Lemma lock_sound tl x : has tl x = true → sound tl (λ l, l = [x]).
Proof.
  intros Hx. split.
  - intros ? ? -> ->%list_elem_of_singleton. done.
  - intros ? -> (y & ->%list_elem_of_singleton & Hy%list_elem_of_singleton).
    by destruct (opposite_neq x).
Qed.
Lemma lock_exact tl x :
  contains_combination tl = false → (∀ y, has tl y = true → y = x) → exact tl (λ l, l = [x]).
Proof.
  intros Hc Hx. split; [eauto| |congruence].
  intros y ->%Hx. exists [x]; split; [done|by left].
Qed.

(** ** The flag of a Miniscript *)

Section nodes.
Context {Pk : Type} `{MiniscriptKey Pk} {Ext : Type} `{ExtensionResourcesOk Ext} `{LockTimesOk}.
Implicit Types ms : Miniscript Pk Ext.

Abbreviation info ms := (timelock_info (ext ms)).

Lemma after_has t x : has (timelock_info (ExtraProps.from_after t)) x = true ↔ x = after_kind t.
Proof.
  unfold after_kind. pose proof (block_height_time t). cbn.
  destruct x, (is_block_height t), (is_block_time t); cbn in *; done.
Qed.
Lemma older_has t x :
  is_relative_lock_time t = true →
  has (timelock_info (ExtraProps.from_older t)) x = true ↔ x = older_kind t.
Proof.
  intros Ht. unfold older_kind. pose proof (relative_height_or_time t Ht). cbn.
  destruct x, (is_height_locked t), (is_time_locked t); cbn in *; done.
Qed.

Lemma no_locks_sound tl : sound tl (λ l, l = []).
Proof. split; intros ? ; [intros ? -> Hx|intros -> (x & Hx & _)]; by apply elem_of_nil in Hx. Qed.

(** Both directions of the main result are one induction, for a relation [R]
    between summaries and paths that the connectives preserve.  Under [strict] the
    fragment has no unsatisfiable part. *)
Section induction.
Variables (strict : bool) (R : TimelockInfo → (list lock_kind → Prop) → Prop).
Hypothesis R_default : R TimelockInfo_default (λ l, l = []).
Hypothesis R_lock : ∀ tl x,
  contains_combination tl = false → (∀ y, has tl y = true ↔ y = x) → R tl (λ l, l = [x]).
Hypothesis R_and : ∀ a b P Q, R a P → R b Q → R (combine_and a b) (both P Q).
Hypothesis R_or : ∀ a b P Q, R a P → R b Q → R (combine_or a b) (λ l, P l ∨ Q l).
Hypothesis R_thresh : ∀ k tls Ps,
  Forall2 R tls Ps → 1 ≤ k ≤ length Ps → R (combine_threshold k tls) (choose k Ps).
Hypothesis R_false : strict = false → R TimelockInfo_default (λ _, False).
Hypothesis R_ext : strict = false → ∀ tl, R tl (λ l, l = []).

Lemma implb_andb a b : implb strict (a && b) = true → implb strict a = true ∧ implb strict b = true.
Proof. by destruct strict, a, b. Qed.

Lemma Forall2_subs (subs : list (Miniscript Pk Ext)) :
  Forall (λ ms, implb strict (no_false ms) = true → R (info ms) (sat_path ms)) subs →
  implb strict (forallb no_false subs) = true →
  Forall2 R ((λ ms, info ms) <$> subs) (map sat_path subs).
Proof.
  induction 1 as [|s subs Hs _ IH]; simpl; [by constructor|].
  intros [? ?]%implb_andb. constructor; auto.
Qed.

Lemma well_typed_timelocks ctx ms :
  well_typed ctx ms → implb strict (no_false ms) = true → R (info ms) (sat_path ms).
Proof.
  revert ms. apply (well_typed_ind' ctx (λ ms, implb strict (no_false ms) = true → _)).
  intros t mty mext Ht He Hch IH Hs.
  assert (well_typed ctx (MkMs t mty mext)) as Hwt by by constructor.
  unfold ext_type_check, type_check, property_check in He, Ht.
  destruct t; cbn [children no_false sat_path ext] in *; rewrite ?Forall_cons_iff in IH;
    repeat match goal with
    | IH : _ ∧ _ |- _ => destruct IH
    | Hs : implb strict (_ && _) = true |- _ => apply implb_andb in Hs
    end;
    try (first [injection He as <-|cbn in He; injection He as <-]; cbn [timelock_info]; solve [auto]);
    try (inv_ok; done).
  - injection He as <-. apply R_false. by destruct strict.
  - case_match; [done|]. injection He as <-.
    by apply R_lock; [|apply after_has].
  - case_match; [done|]. bools. injection He as <-. apply R_lock; [done|]. intros y. by apply older_has.
  - apply well_typed_thresh in Hwt as (Hk & -> & _).
    apply R_thresh; [by apply Forall2_subs|by rewrite length_map].
  - injection He as <-. apply R_ext. by destruct strict.
Qed.
End induction.

(** (C12) Time lock soundness: in a Miniscript built by [from_ast] whose summary does
    not carry [contains_combination], no way of satisfying it runs
    [OP_CHECKSEQUENCEVERIFY] with both a height and a time, nor
    [OP_CHECKLOCKTIMEVERIFY] with both: every satisfaction path is usable by one
    transaction. *)
Theorem no_timelock_mixing ctx ms l :
  well_typed ctx ms → contains_combination (info ms) = false → sat_path ms l → ¬ mixes l.
Proof.
  intros Hms Hc Hl Hm.
  assert (sound (info ms) (sat_path ms)) as [_ Hs].
  { apply (well_typed_timelocks false sound) with ctx; try done.
    - apply no_locks_sound.
    - intros tl x _ Hx. apply lock_sound. by apply Hx.
    - apply and_sound.
    - apply or_sound.
    - intros. by apply threshold_sound.
    - intros _. apply no_locks_sound. }
  rewrite (Hs l) in Hc; done.
Qed.

(** Time lock completeness: the flag is no false alarm.  If a Miniscript built
    by [from_ast] without [0] and extensions carries [contains_combination], there
    is a satisfaction path that needs a height lock and a time lock of the same
    opcode. *)
Theorem timelock_flag_exact ctx ms :
  well_typed ctx ms → no_false ms = true → contains_combination (info ms) = true →
  ∃ l, sat_path ms l ∧ mixes l.
Proof.
  intros Hms Hf.
  assert (exact (info ms) (sat_path ms)) as [_ _ Hs]; [|exact Hs].
  apply (well_typed_timelocks true exact) with ctx; try done.
  - apply default_exact.
  - intros tl x ? Hx. apply lock_exact; [done|]. intros y. by apply Hx.
  - apply and_exact.
  - apply or_exact.
  - apply threshold_exact.
Qed.
End nodes.

Lemma no_timelock_mixing_witness :
  let ms := ms_andor Segwitv0 in
  well_typed Segwitv0 ms ∧ contains_combination (timelock_info (ext ms)) = false ∧
  sat_path ms [CltvHeight] ∧ ¬ mixes [CltvHeight].
Proof.
  intros ms.
  assert (sat_path ms [CltvHeight]) as Hp by (right; by exists [], [CltvHeight]).
  split_and!; [exact ms_andor_typed|reflexivity|exact Hp|].
  apply (no_timelock_mixing Segwitv0 ms); [exact ms_andor_typed|reflexivity|exact Hp].
Defined.

Lemma timelock_flag_exact_witness :
  let ms := ms_mixed Segwitv0 in
  well_typed Segwitv0 ms ∧ contains_combination (timelock_info (ext ms)) = true ∧
  ∃ l, sat_path ms l ∧ mixes l.
Proof.
  intros ms. split_and!; [exact ms_mixed_typed|reflexivity|].
  apply (timelock_flag_exact Segwitv0 ms); [exact ms_mixed_typed|reflexivity|reflexivity].
Defined.
