(* ===== verification/Semantic.v ===== *)
(** * Abstract policies: [src/policy/semantic.rs]

    The policy tree, its normal form, the entailment check, filtering by time locks and
    key counts.  The file is not imported by its clients: its constructors are written
    [Semantic.Key], [Semantic.Threshold], as in the source. *)

From S2P Require Import Prelude Types Extension Tokens.
From stdpp Require Import sorting.

(** The equality that [MiniscriptKey] demands of keys and of their hash types. *)
Class MiniscriptKeyEq (Pk : Type) `{MiniscriptKey Pk} : Type := {
  #[global] key_eq_dec :: EqDecision Pk;
  #[global] sha256_eq_dec :: EqDecision Sha256T;
  #[global] hash256_eq_dec :: EqDecision Hash256T;
  #[global] ripemd160_eq_dec :: EqDecision Ripemd160T;
  #[global] hash160_eq_dec :: EqDecision Hash160T;
}.

Inductive Policy {Pk : Type} `{MiniscriptKey Pk} : Type :=
  | Unsatisfiable
  | Trivial
  | Key (k : Pk)
  | After (t : N)
  | Older (t : N)
  | Sha256 (h : Sha256T)
  | Hash256 (h : Hash256T)
  | Ripemd160 (h : Ripemd160T)
  | Hash160 (h : Hash160T)
  | Threshold (k : nat) (subs : list Policy).
Arguments Policy Pk {_}.

Section induction.
Context {Pk : Type} `{MiniscriptKey Pk} (P : Policy Pk → Prop).
Hypothesis Hatom : ∀ p, (∀ k subs, p ≠ Threshold k subs) → P p.
Hypothesis Hthreshold : ∀ k subs, Forall P subs → P (Threshold k subs).

Fixpoint Policy_tree_ind (p : Policy Pk) : P p.
Proof.
  destruct p; try (by apply Hatom).
  apply Hthreshold. induction subs as [|s subs IH]; constructor; [apply Policy_tree_ind|exact IH].
Qed.
End induction.

Section policy.
Context {Pk : Type} `{MiniscriptKey Pk}.
Implicit Types (p q w : Policy Pk) (subs : list (Policy Pk)).

#[global] Instance Policy_eq_dec `{!MiniscriptKeyEq Pk} : EqDecision (Policy Pk).
Proof.
  refine (fix go p q {struct p} : {p = q} + {p ≠ q} :=
    match p, q with
    | Unsatisfiable, Unsatisfiable => left eq_refl
    | Trivial, Trivial => left eq_refl
    | Key k, Key k' => cast_if (decide (k = k'))
    | After t, After t' => cast_if (decide (t = t'))
    | Older t, Older t' => cast_if (decide (t = t'))
    | Sha256 h, Sha256 h' => cast_if (decide (h = h'))
    | Hash256 h, Hash256 h' => cast_if (decide (h = h'))
    | Ripemd160 h, Ripemd160 h' => cast_if (decide (h = h'))
    | Hash160 h, Hash160 h' => cast_if (decide (h = h'))
    | Threshold k subs, Threshold k' subs' =>
        cast_if_and (decide (k = k')) (@list_eq_dec _ go subs subs')
    | _, _ => right _
    end); clear go; abstract congruence.
Defined.

Definition is_trivial (self : Policy Pk) : bool := match self with Trivial => true | _ => false end.
Definition is_unsatisfiable (self : Policy Pk) : bool :=
  match self with Unsatisfiable => true | _ => false end.

(** ** [normalized] *)

(** What a normalized branch contributes to [ret_subs]. *)
Definition flatten_sub (is_and is_or : bool) (sub : Policy Pk) : list (Policy Pk) :=
  match sub with
  | Trivial | Unsatisfiable => []
  | Threshold k subs =>
      match is_and, is_or with
      | true, true => [Threshold k subs]
      | true, false => if k =? length subs then subs else [Threshold k subs]
      | false, true => if k =? 1 then subs else [Threshold k subs]
      | false, false => [Threshold k subs]
      end
  | x => [x]
  end.

Definition count (f : Policy Pk → bool) (subs : list (Policy Pk)) : nat :=
  length (filter (λ p, f p = true) subs).

(** The threshold of already normalized branches. *)
Definition normalize_threshold (k : nat) (subs : list (Policy Pk)) : Policy Pk :=
  let trivial_count := count is_trivial subs in
  let unsatisfied_count := count is_unsatisfiable subs in
  let n := length subs - unsatisfied_count - trivial_count in
  let m := k - trivial_count in
  let is_and := m =? n in
  let is_or := m =? 1 in
  let ret_subs := concat (map (flatten_sub is_and is_or) subs) in
  if m =? 0 then Trivial
  else if length ret_subs <? m then Unsatisfiable
  else
    match ret_subs with
    | [p] => p
    | _ =>
        if is_and then Threshold (length ret_subs) ret_subs
        else if is_or then Threshold 1 ret_subs
        else Threshold m ret_subs
    end.

Fixpoint normalized (self : Policy Pk) : Policy Pk :=
  match self with
  | Threshold k subs => normalize_threshold k (map normalized subs)
  | x => x
  end.

(** ** Entailment *)

Definition ENTAILMENT_MAX_TERMINALS : nat := 20.

Fixpoint n_terminals (self : Policy Pk) : nat :=
  match self with
  | Threshold _ subs => sum_list (map n_terminals subs)
  | Trivial | Unsatisfiable => 0
  | _ => 1
  end.

Context `{!MiniscriptKeyEq Pk}.

Definition is_normalized (self : Policy Pk) : bool := bool_decide (normalized self = self).

Fixpoint first_constraint (self : Policy Pk) : result PolicyError (Policy Pk) :=
  let? _ := debug_assert (is_normalized self) in
  match self with
  | Threshold _ subs => match subs with s :: _ => first_constraint s | [] => Panic end
  | first => Ok first
  end.

Fixpoint satisfy_constraint (self witness : Policy Pk) (available : bool)
    : result PolicyError (Policy Pk) :=
  let? _ := debug_assert (is_normalized self) in
  let? _ := match witness with Threshold _ _ => Panic | _ => Ok tt end in
  match self with
  | Threshold k subs =>
      let? ret_subs := try_map (λ sub, satisfy_constraint sub witness available) subs in
      Ok (normalized (Threshold k ret_subs))
  | leaf =>
      if bool_decide (leaf = witness)
      then Ok (normalized (if available then Trivial else Unsatisfiable))
      else Ok (normalized leaf)
  end.

(** The four policies of the recursive calls. *)
Definition entails_split (a b : Policy Pk)
    : result PolicyError ((Policy Pk * Policy Pk) * (Policy Pk * Policy Pk)) :=
  let a_norm := normalized a in
  let b_norm := normalized b in
  let? first := first_constraint a_norm in
  let? a1 := satisfy_constraint a_norm first true in
  let? b1 := satisfy_constraint b_norm first true in
  let? a2 := satisfy_constraint a_norm first false in
  let? b2 := satisfy_constraint b_norm first false in
  Ok ((a1, b1), (a2, b2)).

(** [None] when the fuel runs out. *)
Fixpoint entails_loop (fuel : nat) (self other : Policy Pk) : option (result PolicyError bool) :=
  match fuel with
  | O => None
  | S fuel =>
      if ENTAILMENT_MAX_TERMINALS <? n_terminals self then Some (Err EntailmentMaxTerminals)
      else
        match self, other with
        | Unsatisfiable, _ => Some (Ok true)
        | Trivial, Trivial => Some (Ok true)
        | Trivial, _ => Some (Ok false)
        | _, Unsatisfiable => Some (Ok false)
        | a, b =>
            match entails_split a b with
            | Ok ((a1, b1), (a2, b2)) =>
                match entails_loop fuel a1 b1 with
                | Some (Ok true) => entails_loop fuel a2 b2
                | r => r
                end
            | Err e => Some (Err e)
            | Panic => Some Panic
            end
        end
  end.

(** One recursive call per constraint, one for the constants and one to normalize. *)
Definition entails (self other : Policy Pk) : option (result PolicyError bool) :=
  entails_loop (S (S (n_terminals self))) self other.

(** ** Time locks and keys *)

Context `{LockTimes}.

Fixpoint real_relative_timelocks (self : Policy Pk) : list N :=
  match self with
  | Older t => [t]
  | Threshold _ subs => concat (map real_relative_timelocks subs)
  | _ => []
  end.

Fixpoint real_absolute_timelocks (self : Policy Pk) : list N :=
  match self with
  | After t => [t]
  | Threshold _ subs => concat (map real_absolute_timelocks subs)
  | _ => []
  end.

(** [Vec::dedup]: equal neighbours are merged. *)
Fixpoint dedup (l : list N) : list N :=
  match l with
  | x :: l =>
      match dedup l with
      | y :: l' => if (x =? y)%N then y :: l' else x :: y :: l'
      | [] => [x]
      end
  | [] => []
  end.

Definition relative_timelocks (self : Policy Pk) : list N :=
  dedup (merge_sort N.le (real_relative_timelocks self)).
Definition absolute_timelocks (self : Policy Pk) : list N :=
  dedup (merge_sort N.le (real_absolute_timelocks self)).

Definition older_unsatisfied (age t : N) : bool :=
  (is_height_locked t && is_time_locked age)
  || (is_time_locked t && is_height_locked age)
  || (age <? t)%N.

Fixpoint at_age (age : N) (self : Policy Pk) : Policy Pk :=
  normalized
    match self with
    | Older t => if older_unsatisfied age t then Unsatisfiable else Older t
    | Threshold k subs => Threshold k (map (at_age age) subs)
    | x => x
    end.

(** Two lock times compare when both are heights or both are times. *)
Definition after_satisfied (n t : N) : bool :=
  ((is_block_height t && is_block_height n) || (is_block_time t && is_block_time n))
  && (t <=? n)%N.

Fixpoint at_lock_time (n : N) (self : Policy Pk) : Policy Pk :=
  normalized
    match self with
    | After t => if negb (after_satisfied n t) then Unsatisfiable else After t
    | Threshold k subs => Threshold k (map (at_lock_time n) subs)
    | x => x
    end.

Fixpoint n_keys (self : Policy Pk) : nat :=
  match self with
  | Key _ => 1
  | Threshold _ subs => sum_list (map n_keys subs)
  | _ => 0
  end.

Fixpoint minimum_n_keys (self : Policy Pk) : option nat :=
  match self with
  | Unsatisfiable => None
  | Key _ => Some 1
  | Threshold k subs =>
      let sublens := omap id (map minimum_n_keys subs) in
      if length sublens <? k then None
      else Some (sum_list (take k (merge_sort le sublens)))
  | _ => Some 0
  end.
End policy.
