(* ===== verification/PolicyNormal.v ===== *)
(** * Normal forms of abstract policies

    The meaning of a policy under a valuation of its constraints; the normal form that
    [normalized] computes, and that it keeps the meaning. *)

From S2P Require Import Prelude Types Extension Tokens Semantic.

Section normal.
Context {Pk : Type} `{MiniscriptKey Pk}.
Implicit Types (p q w : Policy Pk) (subs E ret : list (Policy Pk)) (v : Policy Pk → bool).

(** ** The meaning of a policy *)

(** A valuation says which constraints (leaves of the tree) are met. *)
Fixpoint eval v p : bool :=
  match p with
  | Unsatisfiable => false
  | Trivial => true
  | Threshold k subs => k <=? length (filter (λ b, b = true) (map (eval v) subs))
  | leaf => v leaf
  end.

Definition met v subs : nat := length (filter (λ b, b = true) (map (eval v) subs)).

Lemma eval_threshold v k subs : eval v (Threshold k subs) = (k <=? met v subs).
Proof. done. Qed.

Lemma met_nil v : met v [] = 0.
Proof. done. Qed.

Lemma met_cons v p subs : met v (p :: subs) = (if eval v p then 1 else 0) + met v subs.
Proof. unfold met. cbn [map]. rewrite filter_cons. by destruct (eval v p). Qed.

Lemma met_app v subs1 subs2 : met v (subs1 ++ subs2) = met v subs1 + met v subs2.
Proof. induction subs1 as [|p subs IH]; [done|]. cbn [app]. rewrite !met_cons, IH. lia. Qed.

Lemma met_le v subs : met v subs ≤ length subs.
Proof. induction subs as [|p subs IH]; [done|]. rewrite met_cons. simpl. destruct (eval v p); lia. Qed.

Lemma met_all v subs : met v subs = length subs ↔ Forall (λ p, eval v p = true) subs.
Proof.
  induction subs as [|p subs IH]; [done|]. rewrite met_cons, Forall_cons_iff, <-IH. simpl.
  pose proof (met_le v subs). destruct (eval v p); naive_solver lia.
Qed.

Lemma met_ext v v' subs :
  Forall (λ p, eval v p = eval v' p) subs → met v subs = met v' subs.
Proof. induction 1 as [|p subs Hp _ IH]; [done|]. by rewrite !met_cons, Hp, IH. Qed.

Lemma met_map v (f : Policy Pk → Policy Pk) v' subs :
  Forall (λ p, eval v (f p) = eval v' p) subs → met v (map f subs) = met v' subs.
Proof. induction 1 as [|p subs Hp _ IH]; [done|]. cbn [map]. by rewrite !met_cons, Hp, IH. Qed.

(** ** The normal form *)

Definition constant p : bool := is_trivial p || is_unsatisfiable p.

(** The branches that a conjunction or a disjunction absorbs. *)
Definition absorbed (is_and is_or : bool) p : bool :=
  match p with
  | Threshold k subs => (is_and && negb is_or && (k =? length subs)) ||
                        (negb is_and && is_or && (k =? 1))
  | _ => false
  end.

Inductive normal : Policy Pk → Prop :=
  | normal_atom p : (∀ k subs, p ≠ Threshold k subs) → normal p
  | normal_threshold k subs :
      1 ≤ k ≤ length subs → 2 ≤ length subs → Forall normal subs →
      Forall (λ p, constant p = false) subs →
      Forall (λ p, absorbed (k =? length subs) (k =? 1) p = false) subs →
      normal (Threshold k subs).

Lemma normal_threshold_inv k subs :
  normal (Threshold k subs) →
  1 ≤ k ≤ length subs ∧ 2 ≤ length subs ∧ Forall normal subs ∧
  Forall (λ p, constant p = false) subs ∧
  Forall (λ p, absorbed (k =? length subs) (k =? 1) p = false) subs.
Proof. inversion 1; naive_solver. Qed.

Definition essential subs : list (Policy Pk) := filter (λ p, constant p = false) subs.

(** *** Counting the constants *)

Lemma count_cons (f : Policy Pk → bool) p subs :
  count f (p :: subs) = (if f p then 1 else 0) + count f subs.
Proof. unfold count. rewrite filter_cons. case_decide; destruct (f p); done. Qed.

Lemma essential_cons p subs :
  essential (p :: subs) = if constant p then essential subs else p :: essential subs.
Proof.
  unfold essential. rewrite filter_cons. case_decide; destruct (constant p); done.
Qed.

Lemma essential_length subs :
  length (essential subs) = length subs - count is_unsatisfiable subs - count is_trivial subs ∧
  count is_unsatisfiable subs + count is_trivial subs ≤ length subs.
Proof.
  induction subs as [|p subs [IH Hle]]; [done|]. rewrite essential_cons, !count_cons.
  unfold constant. destruct p; simpl; lia.
Qed.

Lemma met_essential v subs : met v subs = count is_trivial subs + met v (essential subs).
Proof.
  induction subs as [|p subs IH]; [done|]. rewrite essential_cons, met_cons, count_cons, IH.
  unfold constant. destruct p; cbn [is_trivial is_unsatisfiable orb]; rewrite ?met_cons; simpl; lia.
Qed.

Lemma essential_normal subs : Forall normal subs → Forall normal (essential subs).
Proof.
  rewrite !list.Forall_forall. intros Hn p Hp. apply Hn. by apply list_elem_of_filter in Hp as [_ Hp].
Qed.

Lemma essential_constant subs : Forall (λ p, constant p = false) (essential subs).
Proof. apply list.Forall_forall. intros p Hp. by apply list_elem_of_filter in Hp as [Hp _]. Qed.

Definition flattened (is_and is_or : bool) subs : list (Policy Pk) :=
  concat (map (flatten_sub is_and is_or) subs).

Lemma flattened_essential b b' subs : flattened b b' subs = flattened b b' (essential subs).
Proof.
  unfold flattened. induction subs as [|p subs IH]; [done|]. rewrite essential_cons.
  cbn [map concat]. rewrite IH. by destruct p.
Qed.

Lemma flatten_sub_absorbed b b' p :
  constant p = false →
  flatten_sub b b' p = if absorbed b b' p
                       then match p with Threshold _ subs => subs | _ => [] end else [p].
Proof. destruct p; try done. destruct b, b'; simpl; by repeat case_match. Qed.

(** *** The normalized threshold has the meaning of the threshold *)

Lemma flattened_cons b b' p subs :
  flattened b b' (p :: subs) = flatten_sub b b' p ++ flattened b b' subs.
Proof. done. Qed.

Lemma flattened_length b b' subs :
  Forall normal subs → Forall (λ p, constant p = false) subs →
  length subs ≤ length (flattened b b' subs).
Proof.
  intros Hn. induction Hn as [|p subs Hp _ IH]; [done|]. intros [Hc Hcs]%Forall_cons_iff.
  rewrite flattened_cons, length_app, flatten_sub_absorbed by done. specialize (IH Hcs).
  destruct (absorbed b b' p) eqn:Ha; simpl; [|lia]. destruct p; try done.
  apply normal_threshold_inv in Hp. lia.
Qed.

(** No branch is absorbed when the threshold is neither, or both, of the two kinds. *)
Lemma flattened_same b subs :
  Forall (λ p, constant p = false) subs → flattened b b subs = subs.
Proof.
  induction 1 as [|p subs Hc _ IH]; [done|]. rewrite flattened_cons, IH, flatten_sub_absorbed by done.
  destruct p, b; simpl; by rewrite ?andb_false_r.
Qed.

Lemma flattened_none b b' subs :
  Forall (λ p, constant p = false) subs → Forall (λ p, absorbed b b' p = false) subs →
  flattened b b' subs = subs.
Proof.
  induction 1 as [|p subs Hc _ IH]; [done|]. intros [Ha Has]%Forall_cons_iff.
  by rewrite flattened_cons, flatten_sub_absorbed, Ha, IH.
Qed.

Lemma all_flattened v subs :
  Forall normal subs → Forall (λ p, constant p = false) subs →
  Forall (λ p, eval v p = true) (flattened true false subs) ↔ Forall (λ p, eval v p = true) subs.
Proof.
  intros Hn. induction Hn as [|p subs Hp _ IH]; [done|]. intros [Hc Hcs]%Forall_cons_iff.
  rewrite flattened_cons, Forall_app, Forall_cons_iff, flatten_sub_absorbed, IH by done.
  destruct (absorbed true false p) eqn:Ha; [|by rewrite list.Forall_singleton].
  destruct p; try done. rewrite eval_threshold, <-met_all.
  apply normal_threshold_inv in Hp. cbn in Ha. rewrite orb_false_r in Ha. apply Nat.eqb_eq in Ha.
  rewrite Nat.leb_le. pose proof (met_le v subs0). naive_solver lia.
Qed.

Lemma some_flattened v subs :
  Forall (λ p, constant p = false) subs →
  1 ≤ met v (flattened false true subs) ↔ 1 ≤ met v subs.
Proof.
  induction 1 as [|p subs Hc _ IH]; [done|].
  rewrite flattened_cons, met_app, met_cons, flatten_sub_absorbed by done.
  destruct (absorbed false true p) eqn:Ha; [|rewrite met_cons, met_nil; destruct (eval v p); lia].
  destruct p; try done. cbn in Ha. rewrite eval_threshold. apply Nat.eqb_eq in Ha as ->.
  destruct (1 <=? met v subs0) eqn:Hm; [apply Nat.leb_le in Hm|apply Nat.leb_gt in Hm]; lia.
Qed.

(** The end of [normalize_threshold], with [m] of the branches [ret] required. *)
Definition threshold_of (m : nat) (is_and is_or : bool) ret : Policy Pk :=
  if m =? 0 then Trivial
  else if length ret <? m then Unsatisfiable
  else
    match ret with
    | [p] => p
    | _ => Threshold (if is_and then length ret else if is_or then 1 else m) ret
    end.

Lemma normalize_threshold_essential k subs :
  normalize_threshold k subs =
  let m := k - count is_trivial subs in
  let E := essential subs in
  let is_and := m =? length E in
  let is_or := m =? 1 in
  threshold_of m is_and is_or (flattened is_and is_or E).
Proof.
  cbv zeta. destruct (essential_length subs) as [-> _]. rewrite <-flattened_essential.
  unfold normalize_threshold, threshold_of, flattened. repeat case_match; try done.
Qed.

Lemma threshold_of_eval v m b b' ret :
  1 ≤ m ≤ length ret → (b = false → b' = false → 2 ≤ length ret) →
  eval v (threshold_of m b b' ret)
  = ((if b then length ret else if b' then 1 else m) <=? met v ret).
Proof.
  intros Hm Hb. unfold threshold_of. rewrite (proj2 (Nat.eqb_neq m 0)) by lia.
  rewrite (proj2 (Nat.ltb_ge _ _)) by lia. destruct ret as [|p [|q ret]]; [done| |done].
  rewrite met_cons, met_nil. simpl in *.
  destruct b, b'; try (by destruct (eval v p)). specialize (Hb eq_refl eq_refl). lia.
Qed.

Lemma leb_iff a b c d : (a ≤ b ↔ c ≤ d) → (a <=? b) = (c <=? d).
Proof. intros Hiff. destruct (Nat.leb_spec a b), (Nat.leb_spec c d); naive_solver lia. Qed.

Lemma threshold_eval v m E :
  Forall normal E → Forall (λ p, constant p = false) E →
  let is_and := m =? length E in
  let is_or := m =? 1 in
  eval v (threshold_of m is_and is_or (flattened is_and is_or E)) = (m <=? met v E).
Proof.
  intros Hn Hc. cbv zeta.
  destruct (Nat.eqb_spec m 0) as [->|Hm]; [done|].
  pose proof (met_le v E) as Hle. pose proof (flattened_length (m =? length E) (m =? 1) E Hn Hc) as Hl.
  destruct (Nat.eqb_spec m (length E)) as [Hand|Hand], (Nat.eqb_spec m 1) as [Hor|Hor].
  - rewrite flattened_same by done. rewrite threshold_of_eval by (done || lia). apply leb_iff. lia.
  - rewrite threshold_of_eval by (done || lia). apply leb_iff.
    pose proof (all_flattened v E Hn Hc) as Hall. rewrite <-!met_all in Hall.
    pose proof (met_le v (flattened true false E)). lia.
  - destruct E as [|p E]; [by rewrite Hor|]. simpl in *.
    rewrite threshold_of_eval by (done || simpl; lia). apply leb_iff.
    rewrite some_flattened by done. lia.
  - rewrite flattened_same by done. destruct (Nat.ltb_spec (length E) m) as [Hlt|Hge].
    + unfold threshold_of. rewrite (proj2 (Nat.eqb_neq m 0)), (proj2 (Nat.ltb_lt _ _)) by lia.
      cbn [eval]. symmetry. apply Nat.leb_gt. lia.
    + by rewrite threshold_of_eval by lia.
Qed.

Lemma normalize_threshold_eval v k subs :
  Forall normal subs → eval v (normalize_threshold k subs) = eval v (Threshold k subs).
Proof.
  intros Hn. rewrite normalize_threshold_essential. cbv zeta. rewrite threshold_eval.
  - rewrite eval_threshold, (met_essential v subs). apply leb_iff. lia.
  - by apply essential_normal.
  - apply essential_constant.
Qed.

(** *** ... and is in normal form *)

(** A property of the branches of [flattened] from that of the absorbed branches. *)
Lemma flattened_all (P : Policy Pk → Prop) b b' E :
  Forall (λ p : Policy Pk, constant p = false) E →
  Forall (λ p : Policy Pk, absorbed b b' p = false → P p) E →
  Forall (λ p : Policy Pk, ∀ k (subs : list (Policy Pk)), p = Threshold k subs → absorbed b b' p = true → Forall P subs) E →
  Forall P (flattened b b' E).
Proof.
  induction 1 as [|p E Hc _ IH]; [done|].
  intros [Hp HE]%Forall_cons_iff [Ht HtE]%Forall_cons_iff.
  rewrite flattened_cons, flatten_sub_absorbed by done. apply Forall_app. split; [|by apply IH].
  destruct (absorbed b b' p) eqn:Ha; [|by apply list.Forall_singleton, Hp].
  destruct p; try done. by eapply Ht.
Qed.

Lemma threshold_of_normal m (b b' : bool) ret :
  1 ≤ (if b then length ret else if b' then 1 else m) ≤ length ret →
  Forall normal ret → Forall (λ p, constant p = false) ret →
  (2 ≤ length ret → Forall (λ p, absorbed ((if b then length ret else if b' then 1 else m) =? length ret)
                    ((if b then length ret else if b' then 1 else m) =? 1) p = false) ret) →
  normal (threshold_of m b b' ret).
Proof.
  intros Hm Hn Hc Ha. unfold threshold_of.
  destruct (m =? 0); [by constructor|]. destruct (length ret <? m); [by constructor|].
  destruct ret as [|p [|q ret]]; [simpl in *; lia|by inversion_clear Hn|].
  apply normal_threshold; try done; [simpl; lia|]. apply Ha. simpl. lia.
Qed.

(** What is absorbed is made of branches that are not. *)
Lemma absorbed_branches b b' p k subs :
  normal p → p = Threshold k subs → absorbed b b' p = true →
  Forall (λ q, absorbed b b' q = false) subs.
Proof.
  intros Hn -> Ha. apply normal_threshold_inv in Hn as (_ & Hl & _ & _ & Hs).
  cbn in Ha. destruct b, b'; cbn in Ha; rewrite ?orb_false_r in Ha; try done;
    apply Nat.eqb_eq in Ha; subst k.
  - rewrite Nat.eqb_refl, (proj2 (Nat.eqb_neq _ _)) in Hs by lia. done.
  - rewrite Nat.eqb_refl, (proj2 (Nat.eqb_neq _ _)) in Hs by lia. done.
Qed.

Lemma threshold_normal m E :
  Forall normal E → Forall (λ p, constant p = false) E →
  let is_and := m =? length E in
  let is_or := m =? 1 in
  normal (threshold_of m is_and is_or (flattened is_and is_or E)).
Proof.
  intros Hn Hc. cbv zeta.
  destruct (Nat.eqb_spec m 0) as [->|Hm]; [by constructor|].
  pose proof (flattened_length (m =? length E) (m =? 1) E Hn Hc) as Hl.
  assert (∀ b b', Forall (λ p, normal p ∧ constant p = false ∧ absorbed b b' p = false)
                    (flattened b b' E)) as Hall.
  { intros b b'. apply flattened_all; [done| |].
    - rewrite list.Forall_forall in *. auto.
    - rewrite list.Forall_forall in *. intros p Hp k subs -> Ha.
      pose proof (Hn _ Hp) as Hnp. pose proof (absorbed_branches _ _ _ _ _ Hnp eq_refl Ha).
      apply normal_threshold_inv in Hnp as (_ & _ & ? & ? & _).
      rewrite list.Forall_forall in *. auto. }
  assert (∀ b b', Forall normal (flattened b b' E) ∧ Forall (λ p, constant p = false) (flattened b b' E)) as Hnc.
  { intros b b'. specialize (Hall b b'). rewrite !list.Forall_forall in *. naive_solver. }
  assert (∀ b b', Forall (λ p, absorbed b b' p = false) (flattened b b' E)) as Habs.
  { intros b b'. specialize (Hall b b'). rewrite !list.Forall_forall in *. naive_solver. }
  destruct (Nat.ltb_spec (length (flattened (m =? length E) (m =? 1) E)) m) as [Hlt|Hge].
  { unfold threshold_of. rewrite (proj2 (Nat.eqb_neq m 0)), (proj2 (Nat.ltb_lt _ _)) by lia.
    by constructor. }
  destruct (Nat.eqb_spec m (length E)) as [Hand|Hand], (Nat.eqb_spec m 1) as [Hor|Hor];
    (apply threshold_of_normal; [lia|apply Hnc..|intros H2]).
  - rewrite flattened_same in * by done. lia.
  - rewrite Nat.eqb_refl, (proj2 (Nat.eqb_neq _ _)) by lia. apply Habs.
  - rewrite (proj2 (Nat.eqb_neq _ _)) by lia. apply Habs.
  - rewrite flattened_same in * by done.
    rewrite (proj2 (Nat.eqb_neq m (length E))), (proj2 (Nat.eqb_neq m 1)) by lia.
    rewrite <-(flattened_same false E) by done. apply Habs.
Qed.

Lemma normalize_threshold_normal k subs : Forall normal subs → normal (normalize_threshold k subs).
Proof.
  intros Hn. rewrite normalize_threshold_essential. cbv zeta.
  apply threshold_normal; [by apply essential_normal|apply essential_constant].
Qed.

Lemma normalized_normal p : normal (normalized p).
Proof.
  induction p as [p Hp|k subs IH] using Policy_tree_ind.
  - destruct p; try by constructor. by destruct (Hp k subs).
  - cbn [normalized]. apply normalize_threshold_normal, Forall_map. exact IH.
Qed.

Lemma normalized_eval v p : eval v (normalized p) = eval v p.
Proof.
  induction p as [p Hp|k subs IH] using Policy_tree_ind.
  - destruct p; try done. by destruct (Hp k subs).
  - cbn [normalized]. rewrite normalize_threshold_eval.
    + rewrite !eval_threshold. f_equal. by apply met_map.
    + apply Forall_map. apply list.Forall_true, normalized_normal.
Qed.

(** *** A policy in normal form is left as it is *)

Lemma essential_all subs : Forall (λ p, constant p = false) subs → essential subs = subs.
Proof. induction 1 as [|p subs Hp _ IH]; [done|]. by rewrite essential_cons, Hp, IH. Qed.

Lemma normal_normalized p : normal p → normalized p = p.
Proof.
  induction p as [p Hp|k subs IH] using Policy_tree_ind; intros Hn.
  - destruct p; try done. by destruct (Hp k subs).
  - apply normal_threshold_inv in Hn as (Hk & Hl & Hn & Hc & Ha). cbn [normalized].
    assert (map normalized subs = subs) as ->.
    { clear -IH Hn. induction IH as [|p subs Hp _ IH]; [done|].
      inversion_clear Hn. cbn. f_equal; auto. }
    rewrite normalize_threshold_essential, essential_all by done. cbv zeta.
    assert (count is_trivial subs = 0) as ->.
    { destruct (essential_length subs) as [He _]. rewrite essential_all in He by done. lia. }
    rewrite Nat.sub_0_r, flattened_none by done. unfold threshold_of.
    rewrite (proj2 (Nat.eqb_neq k 0)), (proj2 (Nat.ltb_ge _ _)) by lia.
    destruct subs as [|p [|q subs]]; [simpl in *; lia..|].
    f_equal. repeat case_match; rewrite ?Nat.eqb_eq in *; congruence.
Qed.

Lemma normalized_iff p : normalized p = p ↔ normal p.
Proof. split; [intros <-; apply normalized_normal|apply normal_normalized]. Qed.

(** *** Constants in normal form *)

Lemma met_false_true subs :
  Forall (λ p, (p ≠ Trivial → eval (λ _, false) p = false) ∧
               (p ≠ Unsatisfiable → eval (λ _, true) p = true)) subs →
  Forall (λ p, constant p = false) subs →
  met (λ _, false) subs = 0 ∧ met (λ _, true) subs = length subs.
Proof.
  induction 1 as [|p subs [Hf Ht] _ IH]; [done|]. intros [Hc [IH0 IH1]%IH]%Forall_cons_iff.
  rewrite !met_cons, IH0, IH1, Hf, Ht; [simpl; lia|by intros ->..].
Qed.

(** Only the constants themselves are valid or unsatisfiable. *)
Lemma normal_constants p :
  normal p →
  (p ≠ Trivial → eval (λ _, false) p = false) ∧ (p ≠ Unsatisfiable → eval (λ _, true) p = true).
Proof.
  induction p as [p Hp|k subs IH] using Policy_tree_ind; intros Hn.
  - destruct p; try done. by destruct (Hp k subs).
  - apply normal_threshold_inv in Hn as (Hk & Hl & Hn & Hc & _).
    destruct (met_false_true subs) as [Hf Ht]; [|done|].
    { rewrite list.Forall_forall in *. auto. }
    rewrite !eval_threshold, Hf, Ht. split; intros _; [apply Nat.leb_gt|apply Nat.leb_le]; lia.
Qed.
End normal.
