(* ===== verification/PolicyEntails.v ===== *)
(** * Entailment of abstract policies

    [satisfy_constraint] fixes a constraint; the entailment check branches on the first
    constraint, always ends, is sound, and exact on policies in normal form. *)

From S2P Require Import Prelude Types Extension Tokens Semantic PolicyNormal.

Section entails.
Context {Pk : Type} `{MiniscriptKey Pk} `{!MiniscriptKeyEq Pk}.
Implicit Types (p q w a b : Policy Pk) (subs : list (Policy Pk)) (v : Policy Pk → bool).

(** ** The constraints of a policy, from left to right *)

Fixpoint constraints p : list (Policy Pk) :=
  match p with
  | Threshold _ subs => concat (map constraints subs)
  | Trivial | Unsatisfiable => []
  | leaf => [leaf]
  end.

Lemma n_terminals_constraints p : n_terminals p = length (constraints p).
Proof.
  induction p as [p Hp|k subs IH] using Policy_tree_ind.
  - destruct p; try done. by destruct (Hp k subs).
  - cbn [n_terminals constraints].
    induction IH as [|p subs Hp _ IH]; [done|]. cbn. by rewrite length_app, Hp, IH.
Qed.

Lemma flattened_constraints is_and is_or subs :
  concat (map constraints (flattened is_and is_or subs)) = concat (map constraints subs).
Proof.
  induction subs as [|p subs IH]; [done|].
  rewrite flattened_cons, map_app, concat_app, IH. cbn [map concat]. f_equal.
  destruct p; try done; destruct is_and, is_or; cbn; repeat case_match; cbn; by rewrite ?app_nil_r.
Qed.

Lemma threshold_of_constraints m (is_and is_or : bool) subs :
  constraints (threshold_of m is_and is_or subs) `sublist_of` concat (map constraints subs).
Proof.
  unfold threshold_of. destruct (m =? 0); [apply sublist_nil_l|].
  destruct (length subs <? m); [apply sublist_nil_l|].
  destruct subs as [|p [|q subs]]; [done|cbn; by rewrite app_nil_r|done].
Qed.

Lemma essential_constraints subs :
  concat (map constraints (essential subs)) = concat (map constraints subs).
Proof.
  induction subs as [|p subs IH]; [done|]. rewrite essential_cons.
  destruct p; cbn in *; by rewrite IH.
Qed.

Lemma normalize_threshold_constraints k subs :
  constraints (normalize_threshold k subs) `sublist_of` concat (map constraints subs).
Proof.
  rewrite normalize_threshold_essential. cbv zeta. etrans; [apply threshold_of_constraints|].
  by rewrite flattened_constraints, essential_constraints.
Qed.

Lemma sublist_concat {A} (l1 l2 : list (list A)) :
  Forall2 sublist l1 l2 → concat l1 `sublist_of` concat l2.
Proof. induction 1; [done|]. cbn. by apply sublist_app. Qed.

Lemma normalized_constraints p : constraints (normalized p) `sublist_of` constraints p.
Proof.
  induction p as [p Hp|k subs IH] using Policy_tree_ind.
  - destruct p; try done. by destruct (Hp k subs).
  - cbn [normalized constraints]. etrans; [apply normalize_threshold_constraints|].
    apply sublist_concat. rewrite map_map. induction IH; cbn; by constructor.
Qed.

Lemma normalized_terminals p : n_terminals (normalized p) ≤ n_terminals p.
Proof. rewrite !n_terminals_constraints. apply sublist_length, normalized_constraints. Qed.

(** ** [first_constraint] *)

Definition is_leaf p : bool := match p with Threshold _ _ => false | _ => true end.

Lemma debug_normal {E} p : normal p → debug_assert (E := E) (is_normalized p) = Ok tt.
Proof.
  intros Hn. unfold is_normalized. rewrite (normal_normalized p Hn).
  by rewrite bool_decide_eq_true_2.
Qed.

Lemma first_constraint_normal p :
  normal p →
  ∃ w, first_constraint p = Ok w ∧ is_leaf w = true ∧
       (p = w ∨ constant w = false ∧ ∃ l, constraints p = w :: l).
Proof.
  induction p as [p Hp|k subs IH] using Policy_tree_ind; intros Hn.
  - exists p. destruct p; try (split_and!; [by cbn; rewrite debug_normal|done|by left]).
    by destruct (Hp k subs).
  - cbn. rewrite debug_normal by done. cbn.
    apply normal_threshold_inv in Hn as (Hk & Hl & Hn & Hc & _).
    destruct subs as [|p subs]; [simpl in *; lia|].
    apply Forall_cons_iff in IH as [IH _], Hn as [Hn _], Hc as [Hc _].
    destruct (IH Hn) as (w & -> & Hw & Hx). exists w. split_and!; [done..|]. right.
    destruct Hx as [->|(Hcw & l & Hl')].
    + split; [done|]. destruct w; try done; by eexists.
    + split; [done|]. cbn. rewrite Hl'. by eexists.
Qed.

(** ** [satisfy_constraint] *)

Definition update v w (c : bool) : Policy Pk → bool := λ q, if bool_decide (q = w) then c else v q.

Lemma satisfy_constraint_unfold w c k subs :
  normal (Threshold k subs) → is_leaf w = true →
  satisfy_constraint (Threshold k subs) w c =
  let? ret := try_map (λ sub, satisfy_constraint sub w c) subs in
  Ok (normalized (Threshold k ret)).
Proof. intros Hn Hw. cbn. rewrite debug_normal by done. by destruct w. Qed.

(** The result for a policy in normal form: normal, without the constraint, with the
    meaning of the policy in which the constraint is fixed. *)
Lemma satisfy_constraint_normal w (c : bool) p :
  normal p → is_leaf w = true →
  ∃ q, satisfy_constraint p w c = Ok q ∧ normal q ∧
       constraints q `sublist_of` filter (λ x, x ≠ w) (constraints p) ∧
       (constant w = false → ∀ v, eval v q = eval (update v w c) p).
Proof.
  intros Hn Hw. induction p as [p Hp|k subs IH] using Policy_tree_ind.
  - assert (satisfy_constraint p w c
      = if bool_decide (p = w) then Ok (normalized (if c then Trivial else Unsatisfiable))
        else Ok p) as ->.
    { destruct p; try (cbn; rewrite debug_normal by done; by destruct w).
      by destruct (Hp k subs). }
    unfold update. case_bool_decide as Hpw.
    + eexists. split_and!; [done|apply normalized_normal|destruct c; apply sublist_nil_l|].
      intros Hcw v. rewrite normalized_eval. subst w.
      destruct p; try (cbn; rewrite bool_decide_eq_true_2 by done; by destruct c); try done.
    + exists p. split_and!; [done|done| |].
      * destruct p; try apply sublist_nil_l; cbn [constraints]; try rewrite filter_cons, decide_True by done; try done.
        by destruct (Hp k subs).
      * intros _ v. destruct p; try done; cbn; try (by rewrite bool_decide_eq_false_2).
        by destruct (Hp k subs).
  - rewrite satisfy_constraint_unfold by done.
    apply normal_threshold_inv in Hn as (_ & _ & Hn & _ & _).
    assert (∃ ret, try_map (λ sub, satisfy_constraint sub w c) subs = Ok ret ∧ Forall normal ret ∧
      concat (map constraints ret) `sublist_of` filter (λ x, x ≠ w) (concat (map constraints subs)) ∧
      (constant w = false → ∀ v, met v ret = met (update v w c) subs)) as (ret & Hret & Hrn & Hcs & Hm).
    { induction IH as [|p subs Hp _ IH]; [by exists []|].
      apply Forall_cons_iff in Hn as [Hpn Hn].
      destruct (Hp Hpn) as (q & Hq & Hqn & Hqc & Hqe).
      destruct (IH Hn) as (ret & Hret & Hrn & Hcs & Hm). exists (q :: ret).
      split_and!; [cbn; by rewrite Hq, Hret|by constructor| |].
      - cbn. rewrite list.filter_app. by apply sublist_app.
      - intros Hcw v. by rewrite !met_cons, Hqe, Hm. }
    rewrite Hret. cbn [result_bind]. eexists. split_and!; [done|apply normalized_normal| |].
    + etrans; [apply normalized_constraints|]. exact Hcs.
    + intros Hcw v. rewrite normalized_eval, !eval_threshold. by rewrite Hm.
Qed.

Lemma satisfy_terminals w c p q :
  normal p → is_leaf w = true → satisfy_constraint p w c = Ok q →
  n_terminals q ≤ n_terminals p ∧ (w ∈ constraints p → n_terminals q < n_terminals p).
Proof.
  intros Hn Hw Hq. destruct (satisfy_constraint_normal w c p Hn Hw) as (q' & Hq' & _ & Hs & _).
  rewrite Hq in Hq'. injection Hq' as <-. rewrite !n_terminals_constraints. apply sublist_length in Hs.
  split; [etrans; [exact Hs|]; apply length_filter|].
  intros Hin. eapply Nat.le_lt_trans; [exact Hs|].
  apply (length_filter_lt (λ x, x ≠ w) _ w); [done|naive_solver].
Qed.

(** A constant does not occur inside a normal form. *)
Lemma satisfy_constant w (c : bool) p :
  normal p → constant w = true →
  satisfy_constraint p w c = Ok (if bool_decide (p = w) then if c then Trivial else Unsatisfiable else p).
Proof.
  intros Hn Hw. assert (is_leaf w = true) as Hleaf by (by destruct w).
  induction p as [p Hp|k subs IH] using Policy_tree_ind.
  - destruct p; try (cbn; rewrite debug_normal by done; destruct w; try done;
      case_bool_decide; by destruct c). by destruct (Hp k subs).
  - rewrite satisfy_constraint_unfold, bool_decide_eq_false_2 by (done || by intros <-).
    pose proof (normal_normalized _ Hn) as Hnn.
    apply normal_threshold_inv in Hn as (_ & _ & Hn & Hc & _).
    assert (try_map (λ sub, satisfy_constraint sub w c) subs = Ok subs) as ->; [|cbn [result_bind]; by rewrite Hnn].
    apply try_map_Ok. clear -IH Hn Hc Hw Hleaf. induction IH as [|p subs Hp _ IH]; [constructor|].
    apply Forall_cons_iff in Hn as [Hpn Hn], Hc as [Hpc Hc]. constructor; [|by apply IH].
    rewrite Hp by done. rewrite bool_decide_eq_false_2; [done|]. intros ->. congruence.
Qed.

(** ** The recursion of [entails] *)

(** How the four policies of [entails_split] relate to the two it is called with. *)
Record splits a b a1 b1 a2 b2 : Prop := {
  split_normal_a : normal a1 ∧ normal a2;
  split_normal_b : normal b1 ∧ normal b2;
  split_terminals :
    n_terminals a1 ≤ n_terminals a ∧ n_terminals a2 ≤ n_terminals a ∧
    (constant a1 && constant a2 = true ∨
     n_terminals a1 < n_terminals a ∧ n_terminals a2 < n_terminals a);
  split_sound :
    (∀ v, eval v a1 = true → eval v b1 = true) → (∀ v, eval v a2 = true → eval v b2 = true) →
    ∀ v, eval v a = true → eval v b = true;
  split_complete :
    constant (normalized a) = false → (∀ v, eval v a = true → eval v b = true) →
    (∀ v, eval v a1 = true → eval v b1 = true) ∧ (∀ v, eval v a2 = true → eval v b2 = true);
}.

Lemma eval_normal_constants p :
  normal p → (∀ v, eval v p = true) → p = Trivial.
Proof.
  intros Hn Hv. destruct (decide (p = Trivial)) as [|Ht]; [done|].
  destruct (normal_constants p Hn) as [Hf _]. specialize (Hf Ht). by rewrite Hv in Hf.
Qed.

Lemma eval_update_same v w p : eval (update v w (v w)) p = eval v p.
Proof.
  induction p as [p Hp|k subs IH] using Policy_tree_ind.
  - destruct p; try done; try (by destruct (Hp k subs));
      cbn; unfold update; case_bool_decide as He; by rewrite <-?He.
  - rewrite !eval_threshold. f_equal. by apply met_ext.
Qed.

Lemma split_leaf w a b a1 b1 a2 b2 :
  normal a → normal b → is_leaf w = true → constant w = false → w ∈ constraints a →
  satisfy_constraint a w true = Ok a1 → satisfy_constraint b w true = Ok b1 →
  satisfy_constraint a w false = Ok a2 → satisfy_constraint b w false = Ok b2 →
  splits a b a1 b1 a2 b2.
Proof.
  intros Ha Hb Hw Hc Hin H1 H2 H3 H4.
  destruct (satisfy_terminals _ _ _ _ Ha Hw H1) as [Ht1 Ht1'].
  destruct (satisfy_terminals _ _ _ _ Ha Hw H3) as [Ht2 Ht2'].
  destruct (satisfy_constraint_normal w true a Ha Hw) as (x1 & Hx1 & Hn1 & _ & He1).
  destruct (satisfy_constraint_normal w true b Hb Hw) as (x2 & Hx2 & Hn2 & _ & He2).
  destruct (satisfy_constraint_normal w false a Ha Hw) as (x3 & Hx3 & Hn3 & _ & He3).
  destruct (satisfy_constraint_normal w false b Hb Hw) as (x4 & Hx4 & Hn4 & _ & He4).
  rewrite Hx1 in H1. rewrite Hx2 in H2. rewrite Hx3 in H3. rewrite Hx4 in H4.
  injection H1 as <-. injection H2 as <-. injection H3 as <-. injection H4 as <-.
  specialize (He1 Hc). specialize (He2 Hc). specialize (He3 Hc). specialize (He4 Hc).
  split; [done|done|by auto 6| |].
  - intros Hs1 Hs2 v Hv. rewrite <-(eval_update_same v w) in *. destruct (v w).
    + rewrite <-He2. apply Hs1. by rewrite He1.
    + rewrite <-He4. apply Hs2. by rewrite He3.
  - intros _ Hent. split; intros v; rewrite ?He1, ?He2, ?He3, ?He4; apply Hent.
Qed.

Lemma entails_split_spec a b :
  ∃ a1 b1 a2 b2, entails_split a b = Ok ((a1, b1), (a2, b2)) ∧ splits a b a1 b1 a2 b2.
Proof.
  pose proof (normalized_normal a) as Ha. pose proof (normalized_normal b) as Hb.
  pose proof (normalized_terminals a) as Hta.
  unfold entails_split. destruct (first_constraint_normal _ Ha) as (w & -> & Hw & Hx).
  cbn [result_bind].
  destruct (constant w) eqn:Hc.
  - destruct Hx as [Hx|[? _]]; [|congruence].
    rewrite !satisfy_constant by done. cbn [result_bind].
    rewrite bool_decide_eq_true_2 by done. do 4 eexists. split; [done|].
    split; [by repeat constructor| | | |].
    + split; case_bool_decide; try done; by constructor.
    + rewrite <-Hx in Hc. cbn. split_and!; [lia..|by left].
    + intros Hs1 _ v. rewrite <-(normalized_eval v a), <-(normalized_eval v b).
      destruct w; try done; rewrite Hx; [done|]. intros _. specialize (Hs1 v eq_refl).
      case_bool_decide as Hbw; [by rewrite Hbw|done].
    + by rewrite Hx, Hc.
  - destruct (satisfy_constraint_normal w true _ Ha Hw) as (x1 & H1 & _).
    destruct (satisfy_constraint_normal w true _ Hb Hw) as (x2 & H2 & _).
    destruct (satisfy_constraint_normal w false _ Ha Hw) as (x3 & H3 & _).
    destruct (satisfy_constraint_normal w false _ Hb Hw) as (x4 & H4 & _).
    rewrite H1. cbn [result_bind]. rewrite H2. cbn [result_bind].
    rewrite H3. cbn [result_bind]. rewrite H4. cbn [result_bind].
    do 4 eexists. split; [done|].
    assert (w ∈ constraints (normalized a)) as Hin.
    { destruct Hx as [->|(_ & l & ->)]; [|by left]. destruct w; try done; by left. }
    destruct (split_leaf w _ _ _ _ _ _ Ha Hb Hw Hc Hin H1 H2 H3 H4) as [Hna Hnb Ht Hs Hcm].
    destruct Ht as (Ht1 & Ht2 & Ht).
    split; [done|done|split_and!; [lia..|destruct Ht as [Ht|[]]; [by left|right; lia]]| |].
    + intros Hs1 Hs2 v. rewrite <-(normalized_eval v a), <-(normalized_eval v b). by apply Hs.
    + intros Hca Hent. apply Hcm; [by rewrite (normal_normalized _ Ha)|].
      intros v. rewrite !normalized_eval. apply Hent.
Qed.

Lemma entails_loop_S fuel a b :
  constant a = false → b ≠ Unsatisfiable →
  entails_loop (S fuel) a b =
  if ENTAILMENT_MAX_TERMINALS <? n_terminals a then Some (Err EntailmentMaxTerminals)
  else match entails_split a b with
       | Ok ((a1, b1), (a2, b2)) =>
           match entails_loop fuel a1 b1 with
           | Some (Ok true) => entails_loop fuel a2 b2
           | r => r
           end
       | Err e => Some (Err e)
       | Panic => Some Panic
       end.
Proof. intros Ha Hb. destruct a; try done; destruct b; done. Qed.

Lemma entails_loop_constant fuel a b :
  n_terminals a ≤ ENTAILMENT_MAX_TERMINALS → constant a = true ∨ b = Unsatisfiable →
  entails_loop (S fuel) a b
  = Some (Ok (is_unsatisfiable a || (is_trivial a && is_trivial b))).
Proof.
  intros Hn Hc. cbn [entails_loop]. rewrite (proj2 (Nat.ltb_ge _ _)) by done.
  destruct Hc as [Hc| ->]; [|by destruct a]. destruct a; try done; by destruct b.
Qed.

Definition entailed a b : Prop := ∀ v, eval v a = true → eval v b = true.

Lemma normal_no_terminals p : normal p → n_terminals p = 0 → constant p = true.
Proof.
  intros Hn Ht. destruct (first_constraint_normal p Hn) as (w & _ & Hw & Hx).
  destruct Hx as [->|(_ & l & Hl)]; [|by rewrite n_terminals_constraints, Hl in Ht].
  by destruct w.
Qed.

(** A constant on the left, or [Unsatisfiable] on the right, is decided correctly. *)
Lemma entailed_constant a b :
  normal a → normal b → constant a = true ∨ b = Unsatisfiable →
  is_unsatisfiable a || (is_trivial a && is_trivial b) = true ↔ entailed a b.
Proof.
  intros Ha Hb Hc. unfold entailed. destruct (decide (a = Unsatisfiable)) as [->|Hau]; [done|].
  destruct (normal_constants a Ha) as [_ Hat]. specialize (Hat Hau).
  destruct Hc as [Hc| ->].
  - destruct a; try done. cbn. split; [by destruct b|].
    intros Hv. by rewrite (eval_normal_constants b Hb (λ v, Hv v eq_refl)).
  - split; [by destruct a|]. intros Hv. specialize (Hv _ Hat). done.
Qed.

Lemma not_or (P Q : Prop) : ¬ (P ∨ Q) → ¬ P ∧ ¬ Q.
Proof. tauto. Qed.

Lemma entails_normal fuel a b :
  normal a → normal b → n_terminals a ≤ ENTAILMENT_MAX_TERMINALS → n_terminals a < fuel →
  ∃ r, entails_loop fuel a b = Some (Ok r) ∧ (r = true ↔ entailed a b).
Proof.
  revert a b. induction fuel as [|fuel IH]; intros a b Ha Hb Hmax Hfuel; [lia|].
  destruct (decide (constant a = true ∨ b = Unsatisfiable)) as [Hc|Hc].
  { rewrite entails_loop_constant by done. eexists. split; [done|]. by apply entailed_constant. }
  apply not_or in Hc as [Hca%not_true_is_false Hbu]. rewrite entails_loop_S by done.
  rewrite (proj2 (Nat.ltb_ge _ _)) by done.
  destruct (entails_split_spec a b) as (a1 & b1 & a2 & b2 & -> & [[Ha1 Ha2] [Hb1 Hb2] Ht Hs Hcm]).
  assert (n_terminals a ≠ 0) as Hta.
  { intros H0. by rewrite normal_no_terminals in Hca. }
  assert (n_terminals a1 < fuel ∧ n_terminals a2 < fuel) as [Hf1 Hf2].
  { destruct Ht as (_ & _ & [Ht|Ht]); [|lia]. apply andb_prop in Ht as [Ht1 Ht2].
    destruct a1, a2; try done; cbn; lia. }
  destruct (IH a1 b1) as (r1 & -> & Hr1); [done|done|lia|done|].
  destruct (IH a2 b2) as (r2 & Hl2 & Hr2); [done|done|lia|done|].
  rewrite normal_normalized in Hcm by done.
  specialize (Hcm Hca). destruct r1.
  - exists r2. split; [done|]. rewrite Hr2. split.
    + intros He2. exact (Hs (proj1 Hr1 eq_refl) He2).
    + intros He. exact (proj2 (Hcm He)).
  - exists false. split; [done|]. split; [done|]. intros He. exact (proj2 Hr1 (proj1 (Hcm He))).
Qed.

Lemma entails_loop_max fuel a b :
  ENTAILMENT_MAX_TERMINALS < n_terminals a →
  entails_loop (S fuel) a b = Some (Err EntailmentMaxTerminals).
Proof. intros Hmax. cbn [entails_loop]. by rewrite (proj2 (Nat.ltb_lt _ _)). Qed.

(** What the check answers for any two policies. *)
Lemma entails_spec a b :
  if ENTAILMENT_MAX_TERMINALS <? n_terminals a
  then entails a b = Some (Err EntailmentMaxTerminals)
  else ∃ r, entails a b = Some (Ok r) ∧ (r = true → entailed a b) ∧
            (normal a → normal b → entailed a b → r = true).
Proof.
  unfold entails. destruct (Nat.ltb_spec ENTAILMENT_MAX_TERMINALS (n_terminals a)) as [Hmax|Hmax].
  { by apply entails_loop_max. }
  assert (∃ r, entails_loop (S (S (n_terminals a))) a b = Some (Ok r) ∧ (r = true → entailed a b))
    as (r & Hr & Hs).
  { destruct (decide (constant a = true ∨ b = Unsatisfiable)) as [Hc|Hc].
    - rewrite entails_loop_constant by done. eexists. split; [done|].
      intros Hr v. destruct a; try done. by destruct b.
    - apply not_or in Hc as [Hca%not_true_is_false Hbu]. rewrite entails_loop_S by done.
      rewrite (proj2 (Nat.ltb_ge _ _)) by done.
      destruct (entails_split_spec a b) as (a1 & b1 & a2 & b2 & -> & [[Ha1 Ha2] [Hb1 Hb2] Ht Hs _]).
      destruct (entails_normal (S (n_terminals a)) a1 b1) as (r1 & -> & Hr1); [done|done|lia..|].
      destruct (entails_normal (S (n_terminals a)) a2 b2) as (r2 & -> & Hr2); [done|done|lia..|].
      destruct r1; [|by exists false]. exists r2. split; [done|]. intros He2.
      exact (Hs (proj1 Hr1 eq_refl) (proj1 Hr2 He2)). }
  exists r. split_and!; [done..|]. intros Ha Hb He.
  destruct (entails_normal (S (S (n_terminals a))) a b) as (r' & Hr' & Hiff); [done|done|done|lia|].
  rewrite Hr in Hr'. injection Hr' as ->. by apply Hiff.
Qed.
End entails.
