(* ===== verification/PolicyFilter.v ===== *)
(** * Analysis of abstract policies

    Filtering by time locks, the time locks that occur, and the number of keys needed,
    each against its meaning. *)

From S2P Require Import Prelude Types Extension Tokens Instances Semantic PolicyNormal PolicyEntails.
From stdpp Require Import sorting sets.

Section filters.
Context {Pk : Type} `{MiniscriptKey Pk} `{LockTimes}.
Implicit Types (p q : Policy Pk) (subs : list (Policy Pk)) (v : Policy Pk → bool).

(** ** Normalization *)

(** (C32) [normalized] gives a normal form (no constants inside, no conjunction under a
    conjunction, no disjunction under a disjunction), is idempotent, and keeps the
    meaning of the policy under every valuation of its constraints. *)
Theorem normalized_correct p :
  normal (normalized p) ∧ normalized (normalized p) = normalized p ∧
  ∀ v, eval v (normalized p) = eval v p.
Proof.
  split_and!; [apply normalized_normal|apply normal_normalized, normalized_normal|].
  intros v. apply normalized_eval.
Qed.

(** ** Time locks *)

(** The valuation [v] at an age, and at a lock time. *)
Definition at_age_val (age : N) v : Policy Pk → bool := λ q,
  match q with Older t => negb (older_unsatisfied age t) && v q | _ => v q end.
Definition at_lock_time_val (n : N) v : Policy Pk → bool := λ q,
  match q with After t => after_satisfied n t && v q | _ => v q end.

Lemma at_age_eval age v p : eval v (at_age age p) = eval (at_age_val age v) p.
Proof.
  induction p as [p Hp|k subs IH] using Policy_tree_ind.
  - destruct p; try done; [|by destruct (Hp k subs)].
    cbn -[normalized]. rewrite normalized_eval. by destruct (older_unsatisfied age t).
  - cbn [at_age]. rewrite normalized_eval, !eval_threshold. f_equal. by apply met_map.
Qed.

Lemma at_lock_time_eval n v p : eval v (at_lock_time n p) = eval (at_lock_time_val n v) p.
Proof.
  induction p as [p Hp|k subs IH] using Policy_tree_ind.
  - destruct p; try done; [|by destruct (Hp k subs)].
    cbn -[normalized]. rewrite normalized_eval. by destruct (after_satisfied n t).
  - cbn [at_lock_time]. rewrite normalized_eval, !eval_threshold. f_equal. by apply met_map.
Qed.

Lemma at_age_normal age p : normal (at_age age p).
Proof. destruct p; apply normalized_normal. Qed.
Lemma at_lock_time_normal n p : normal (at_lock_time n p).
Proof. destruct p; apply normalized_normal. Qed.

(** The policy filtered at an age and at a lock time is in normal form and means
    what the policy means when the relative and the absolute locks that are not met are
    false. *)
Theorem at_times_correct age n p :
  normal (at_age age p) ∧ normal (at_lock_time n p) ∧
  (∀ v, eval v (at_age age p) = eval (at_age_val age v) p) ∧
  (∀ v, eval v (at_lock_time n p) = eval (at_lock_time_val n v) p).
Proof.
  split_and!; [apply at_age_normal|apply at_lock_time_normal| |]; intros v;
    [apply at_age_eval|apply at_lock_time_eval].
Qed.

(** *** The time locks of a policy *)

Lemma dedup_elem t l : t ∈ dedup l ↔ t ∈ l.
Proof.
  induction l as [|x l IH]; [done|]. cbn. rewrite elem_of_cons, <-IH. clear IH.
  destruct (dedup l) as [|y l']; [set_solver|].
  case_match eqn:Hxy; [apply N.eqb_eq in Hxy as ->|]; set_solver.
Qed.

Lemma dedup_sorted l : StronglySorted N.le l → StronglySorted N.lt (dedup l).
Proof.
  induction 1 as [|x l Hl IH Hx]; [constructor|]. cbn.
  assert (Forall (N.le x) (dedup l)) as Hx'.
  { rewrite list.Forall_forall in *. intros y Hy. apply Hx. by apply dedup_elem. }
  destruct (dedup l) as [|y l']; [by repeat constructor|].
  destruct (N.eqb_spec x y) as [->|Hne]; [done|]. constructor; [done|].
  apply StronglySorted_inv in IH as [_ Hy]. apply Forall_cons_iff in Hx' as [Hxy _].
  constructor; [lia|]. rewrite list.Forall_forall in *. intros z Hz. specialize (Hy z Hz). lia.
Qed.

Lemma sort_dedup l :
  StronglySorted N.lt (dedup (merge_sort N.le l)) ∧ ∀ t, t ∈ dedup (merge_sort N.le l) ↔ t ∈ l.
Proof.
  split.
  - apply dedup_sorted. apply (StronglySorted_merge_sort _).
  - intros t. by rewrite dedup_elem, merge_sort_Permutation.
Qed.

Lemma relative_constraints p t : t ∈ real_relative_timelocks p ↔ Older t ∈ constraints p.
Proof.
  induction p as [p Hp|k subs IH] using Policy_tree_ind.
  - destruct p; try (by destruct (Hp k subs)); cbn;
      rewrite ?list_elem_of_singleton, ?elem_of_nil; naive_solver.
  - cbn. induction IH as [|p subs Hp _ IH]; [by rewrite !elem_of_nil|].
    cbn. by rewrite !elem_of_app, Hp, IH.
Qed.

Lemma absolute_constraints p t : t ∈ real_absolute_timelocks p ↔ After t ∈ constraints p.
Proof.
  induction p as [p Hp|k subs IH] using Policy_tree_ind.
  - destruct p; try (by destruct (Hp k subs)); cbn;
      rewrite ?list_elem_of_singleton, ?elem_of_nil; naive_solver.
  - cbn. induction IH as [|p subs Hp _ IH]; [by rewrite !elem_of_nil|].
    cbn. by rewrite !elem_of_app, Hp, IH.
Qed.

(** [relative_timelocks] and [absolute_timelocks] list the time locks that occur in
    the policy, each once and in increasing order (0 included where it occurs). *)
Lemma timelocks_correct p :
  (StronglySorted N.lt (relative_timelocks p) ∧
   ∀ t, t ∈ relative_timelocks p ↔ Older t ∈ constraints p) ∧
  (StronglySorted N.lt (absolute_timelocks p) ∧
   ∀ t, t ∈ absolute_timelocks p ↔ After t ∈ constraints p).
Proof.
  unfold relative_timelocks, absolute_timelocks.
  destruct (sort_dedup (real_relative_timelocks p)) as [Hr Hre].
  destruct (sort_dedup (real_absolute_timelocks p)) as [Ha Hae].
  split; (split; [done|]); intros t;
    by rewrite ?Hre, ?Hae, ?relative_constraints, ?absolute_constraints.
Qed.

(** ** Keys *)

(** [choose R subs cs]: a choice of branches, each satisfied at a cost. *)
Section choose.
Context (R : Policy Pk → nat → Prop).
Fixpoint choose subs (cs : list (option nat)) : Prop :=
  match subs, cs with
  | [], [] => True
  | _ :: subs, None :: cs => choose subs cs
  | p :: subs, Some c :: cs => R p c ∧ choose subs cs
  | _, _ => False
  end.
End choose.

(** [costs p c]: the policy can be satisfied by [c] signatures, counting a key once for
    each time it is used. *)
Fixpoint costs p (c : nat) : Prop :=
  match p with
  | Unsatisfiable => False
  | Key _ => c = 1
  | Threshold k subs =>
      ∃ cs, choose costs subs cs ∧ length (omap id cs) = k ∧ c = sum_list (omap id cs)
  | _ => c = 0
  end.

Definition least (P : nat → Prop) (n : nat) : Prop := P n ∧ ∀ c, P c → n ≤ c.

(** The [k] least elements have the least sum. *)
Lemma take_sorted_sum (l l' : list nat) :
  StronglySorted le l → l' `sublist_of` l → sum_list (take (length l') l) ≤ sum_list l'.
Proof.
  intros Hl Hs. induction Hs as [|x l' l Hs IH|x l' l Hs IH]; [done| |].
  - apply StronglySorted_inv in Hl as [Hl _]. cbn. specialize (IH Hl). lia.
  - apply StronglySorted_inv in Hl as [Hl Hx]. specialize (IH Hl).
    pose proof (sublist_length _ _ Hs) as Hlen.
    destruct (length l') as [|n] eqn:Hn; [by rewrite take_0|]. cbn.
    destruct (lookup_lt_is_Some_2 l n Hlen) as [y Hy]. rewrite (take_S_r _ _ _ Hy) in IH.
    rewrite sum_list_with_app in IH. cbn in IH. rewrite list.Forall_forall in Hx.
    assert (x ≤ y) by (apply Hx; by eapply list_elem_of_lookup_2). lia.
Qed.

Lemma least_sum (l l' : list nat) :
  l' ⊆+ l → sum_list (take (length l') (merge_sort le l)) ≤ sum_list l'.
Proof.
  intros Hs. rewrite <-(merge_sort_Permutation le l) in Hs.
  apply submseteq_sublist_r in Hs as (l'' & Hp & Hs). rewrite Hp.
  apply take_sorted_sum; [|done]. apply (StronglySorted_merge_sort _).
Qed.

Lemma sublist_sum_le (l l' : list nat) : Forall2 le l l' → sum_list l ≤ sum_list l'.
Proof. induction 1; cbn; lia. Qed.

Definition minima subs : list nat := omap id (map minimum_n_keys subs).

(** A choice costs at least as much as the minima of the chosen branches. *)
Lemma choose_minima subs cs :
  Forall (λ p, ∀ c, costs p c → ∃ n, minimum_n_keys p = Some n ∧ n ≤ c) subs →
  choose costs subs cs →
  ∃ l, l `sublist_of` minima subs ∧ length l = length (omap id cs) ∧
       sum_list l ≤ sum_list (omap id cs).
Proof.
  unfold minima. intros Hall. revert cs.
  induction Hall as [|p subs Hp _ IH]; intros [|[c|] cs] Hc; try done.
  - by exists [].
  - destruct Hc as [Hpc Hc]. destruct (Hp c Hpc) as (n & Hn & Hle).
    destruct (IH cs Hc) as (l & Hl & Hlen & Hsum). exists (n :: l). cbn. rewrite Hn. cbn.
    split_and!; [by constructor|by f_equal|lia].
  - destruct (IH cs Hc) as (l & Hl & Hlen & Hsum). exists l. split_and!; [|done..].
    cbn. destruct (minimum_n_keys p); [by constructor|done].
Qed.

(** Any selection of the minima is a choice. *)
Lemma minima_choose subs l :
  Forall (λ p, ∀ n, minimum_n_keys p = Some n → costs p n) subs →
  l `sublist_of` minima subs → ∃ cs, choose costs subs cs ∧ omap id cs = l.
Proof.
  unfold minima. intros Hall. revert l.
  induction Hall as [|p subs Hp _ IH]; intros l Hl.
  - apply sublist_nil_r in Hl as ->. by exists [].
  - cbn in Hl. destruct (minimum_n_keys p) as [n|] eqn:Hn; cbn in Hl.
    + apply sublist_cons_r in Hl as [Hl|(l' & -> & Hl)].
      * destruct (IH l Hl) as (cs & Hc & <-). by exists (None :: cs).
      * destruct (IH l' Hl) as (cs & Hc & <-). exists (Some n :: cs). cbn. auto.
    + destruct (IH l Hl) as (cs & Hc & <-). by exists (None :: cs).
Qed.

Lemma minimum_n_keys_least p :
  (∀ n, minimum_n_keys p = Some n → costs p n) ∧
  (∀ c, costs p c → ∃ n, minimum_n_keys p = Some n ∧ n ≤ c).
Proof.
  induction p as [p Hp|k subs IH] using Policy_tree_ind.
  - destruct p; try (by destruct (Hp k subs)); cbn; (split; [|naive_solver]); by intros n [= <-].
  - assert (Forall (λ p, ∀ n, minimum_n_keys p = Some n → costs p n) subs) as Hex
      by (rewrite list.Forall_forall in *; naive_solver).
    assert (Forall (λ p, ∀ c, costs p c → ∃ n, minimum_n_keys p = Some n ∧ n ≤ c) subs) as Hle
      by (rewrite list.Forall_forall in *; naive_solver).
    clear IH. cbn [minimum_n_keys costs]. fold (minima subs). split.
    + intros n Hn. case_match eqn:Hk; [done|]. apply Nat.ltb_ge in Hk. injection Hn as <-.
      assert (take k (merge_sort le (minima subs)) ⊆+ minima subs) as Hs.
      { rewrite submseteq_take. by rewrite merge_sort_Permutation. }
      apply submseteq_sublist_r in Hs as (l & Hp & Hs).
      destruct (minima_choose subs l Hex Hs) as (cs & Hc & Hcs). exists cs.
      rewrite Hcs. split_and!; [done| |by rewrite Hp].
      rewrite <-Hp, length_take, merge_sort_Permutation. lia.
    + intros c (cs & Hc & Hk & ->). destruct (choose_minima subs cs Hle Hc) as (l & Hl & Hlen & Hsum).
      pose proof (sublist_length _ _ Hl) as Hll.
      rewrite (proj2 (Nat.ltb_ge _ _)) by lia. eexists. split; [done|].
      pose proof (least_sum (minima subs) l (sublist_submseteq _ _ Hl)) as Hmin.
      rewrite Hlen, Hk in Hmin. lia.
Qed.

(** A policy has a cost exactly when some valuation satisfies it. *)
Lemma costs_satisfiable p : (∃ c, costs p c) ↔ eval (λ _, true) p = true.
Proof.
  induction p as [p Hp|k subs IH] using Policy_tree_ind.
  - destruct p; try (by destruct (Hp k subs)); cbn; naive_solver.
  - rewrite eval_threshold, Nat.leb_le. cbn [costs].
    transitivity (∃ cs, choose costs subs cs ∧ length (omap id cs) = k); [naive_solver|].
    revert k. induction IH as [|p subs Hp _ IH]; intros k.
    + cbn. split; [|intros ?; exists []; split; [done|cbn; lia]].
      intros ([|] & Hc & <-); [|done]. done.
    + rewrite met_cons. split.
      * intros ([|[c|] cs] & Hc & <-); [done| |].
        -- destruct Hc as [Hpc Hc]. assert (eval (λ _, true) p = true) as -> by (apply Hp; eauto).
           cbn. apply le_n_S. apply IH. eauto.
        -- cbn. etrans; [apply IH; eauto|]. lia.
      * intros Hk. destruct (decide (k ≤ met (λ _, true) subs)) as [Hle|Hgt].
        -- apply IH in Hle as (cs & Hc & Hl). by exists (None :: cs).
        -- destruct (eval (λ _, true) p) eqn:He; [|lia].
           destruct (proj2 Hp eq_refl) as [c Hpc].
           destruct (proj2 (IH (k - 1))) as (cs & Hc & Hl); [lia|].
           exists (Some c :: cs). cbn. split; [done|]. lia.
Qed.

(** [minimum_n_keys] is the least number of signatures a satisfaction of the policy
    uses, and [None] exactly for a policy no valuation satisfies. *)
Theorem minimum_n_keys_correct p :
  match minimum_n_keys p with
  | Some n => least (costs p) n ∧ eval (λ _, true) p = true
  | None => ∀ c, ¬ costs p c
  end.
Proof.
  destruct (minimum_n_keys_least p) as [Hex Hle]. destruct (minimum_n_keys p) as [n|].
  - specialize (Hex n eq_refl). split; [|by apply costs_satisfiable; eauto].
    split; [done|]. intros c Hc. destruct (Hle c Hc) as (n' & [= ->] & ?). done.
  - intros c Hc. by destruct (Hle c Hc) as (n & ? & _).
Qed.

(** ** Entailment *)

Context `{!MiniscriptKeyEq Pk}.

(** (C31) The entailment check always ends without a panic: with an error beyond 20
    constraints and only then, and otherwise with an answer.  An answer yes is right for
    any two policies: every satisfaction of the first is one of the second.  On policies
    in normal form the answer is exact. *)
Theorem entails_correct p q :
  if ENTAILMENT_MAX_TERMINALS <? n_terminals p
  then entails p q = Some (Err EntailmentMaxTerminals)
  else ∃ r, entails p q = Some (Ok r) ∧ (r = true → entailed p q) ∧
            (normal p → normal q → entailed p q → r = true).
Proof. apply entails_spec. Qed.
End filters.

(** ** Samples *)

#[export] Instance DemoKey_Eq : MiniscriptKeyEq DemoKey.
Proof. split; apply _. Defined.

(** [or(and(pk(0),older(10)),pk(1))] entails [or(pk(0),pk(1))]. *)
Definition demo_policy : Policy DemoKey :=
  Threshold 1 [Threshold 2 [Key (Compressed 0); Older 10]; Key (Compressed 1)].
Definition demo_policy' : Policy DemoKey :=
  Threshold 1 [Key (Compressed 0); Key (Compressed 1)].

Lemma entails_correct_witness :
  normal demo_policy ∧ normal demo_policy' ∧
  ∃ r, entails demo_policy demo_policy' = Some (Ok r) ∧ r = true ∧ entailed demo_policy demo_policy'.
Proof.
  assert (normal demo_policy) as Hp by (apply normalized_iff; reflexivity).
  assert (normal demo_policy') as Hq by (apply normalized_iff; reflexivity).
  split_and!; [exact Hp|exact Hq|].
  destruct (entails_correct demo_policy demo_policy') as (r & Hr & Hs & Hc).
  assert (r = true) as Ht by (vm_compute in Hr; congruence).
  exists r. split_and!; [exact Hr|exact Ht|exact (Hs Ht)].
Defined.

(** On policies that are not in normal form the answer can be no although the first
    entails the second: a disjunction of two [UNSATISFIABLE] entails anything, and a
    disjunction with [TRIVIAL] is entailed by anything. *)
Lemma entails_not_normal :
  let never := Threshold 1 [Unsatisfiable; Unsatisfiable] in
  let always := Threshold 1 [Trivial; Key (Compressed 0)] in
  entails never (Key (Compressed 0)) = Some (Ok false) ∧ entailed never (Key (Compressed 0)) ∧
  entails Trivial always = Some (Ok false) ∧ entailed Trivial always.
Proof. cbv zeta. split_and!; [vm_compute; reflexivity|by intros v|vm_compute; reflexivity|by intros v]. Qed.
