(* ===== verification/Concrete.v ===== *)
(** * Concrete policies: [src/policy/concrete.rs]

    Policies with the odds of their disjunctions: validity, duplicate keys, mixed time
    locks, and the check that every compilation is safe and non-malleable.  Like
    [Semantic], the file is not imported by its clients. *)

From S2P Require Import Prelude Types Extension Tokens.
From stdpp Require Import strings.
From S2P Require Semantic ExtraProps.
Import Semantic(MiniscriptKeyEq).

Inductive Policy {Pk : Type} `{MiniscriptKey Pk} : Type :=
  | Unsatisfiable
  | Trivial
  | Key (k : Pk)
  | After (t : N)
  | Older (t : N)
  | Sha256 (h : Sha256T)
  | Hash256 (h : Hash256T)
  | Ripemd160 (h : Ripemd160T)
  | Hash160 (h : Hash160T)
  | And (subs : list Policy)
  | Or (subs : list (nat * Policy))
  | Threshold (k : nat) (subs : list Policy).
Arguments Policy Pk {_}.

(** The sub-policies of a node. *)
Definition branches {Pk} `{MiniscriptKey Pk} (p : Policy Pk) : list (Policy Pk) :=
  match p with
  | And subs | Threshold _ subs => subs
  | Or subs => map snd subs
  | _ => []
  end.

Section induction.
Context {Pk : Type} `{MiniscriptKey Pk} (P : Policy Pk → Prop).
Hypothesis Hnode : ∀ p, Forall P (branches p) → P p.

Fixpoint Policy_tree_ind (p : Policy Pk) : P p.
Proof.
  apply Hnode. destruct p; try constructor; cbn [branches].
  - induction subs as [|s subs IH]; constructor; [apply Policy_tree_ind|exact IH].
  - induction subs as [|[o s] subs IH]; constructor; [apply Policy_tree_ind|exact IH].
  - induction subs as [|s subs IH]; constructor; [apply Policy_tree_ind|exact IH].
Qed.
End induction.

Section policy.
Context {Pk : Type} `{MiniscriptKey Pk}.
Implicit Types (self : Policy Pk).

#[global] Instance Policy_eq_dec `{!MiniscriptKeyEq Pk} : EqDecision (Policy Pk).
Proof.
  refine (fix go p q {struct p} : {p = q} + {p ≠ q} :=
    match p, q with
    | Unsatisfiable, Unsatisfiable => left eq_refl
    | Trivial, Trivial => left eq_refl
    | Key k, Key k' => cast_if (decide (k = k'))
    | After t, After t' => cast_if (decide (t = t'))
    | Older t, Older t' => cast_if (decide (t = t'))
    | Sha256 h, Sha256 h' => cast_if (decide (h = h'))
    | Hash256 h, Hash256 h' => cast_if (decide (h = h'))
    | Ripemd160 h, Ripemd160 h' => cast_if (decide (h = h'))
    | Hash160 h, Hash160 h' => cast_if (decide (h = h'))
    | And subs, And subs' => cast_if (@list_eq_dec _ go subs subs')
    | Or subs, Or subs' => cast_if (@list_eq_dec _ (@prod_eq_dec _ _ _ go) subs subs')
    | Threshold k subs, Threshold k' subs' =>
        cast_if_and (decide (k = k')) (@list_eq_dec _ go subs subs')
    | _, _ => right _
    end); clear go; abstract congruence.
Defined.

(** [for_each_key_internal]; [all] stops at the first key the predicate refuses, which a
    pure predicate cannot observe. *)
Fixpoint for_each_key_internal (pred : Pk → bool) self : bool :=
  match self with
  | Key pk => pred pk
  | Threshold _ subs | And subs => forallb (for_each_key_internal pred) subs
  | Or subs => forallb (λ '(_, sub), for_each_key_internal pred sub) subs
  | _ => true
  end.

Fixpoint keys self : list Pk :=
  match self with
  | Key pk => [pk]
  | Threshold _ subs => concat (map keys subs)
  | And subs => concat (map keys subs)
  | Or subs => concat (map (λ '(_, sub), keys sub) subs)
  | _ => []
  end.

(** *** The leaves of a Taproot compilation *)

Definition MAX_COMPILATION_LEAVES : nat := 1024.

Fixpoint num_tap_leaves self : nat :=
  match self with
  | Or subs => sum_list (map (λ '(_, pol), num_tap_leaves pol) subs)
  | Threshold k subs => if k =? 1 then sum_list (map num_tap_leaves subs) else 1
  | _ => 1
  end.

Definition check_num_tapleaves self : result Error unit :=
  if MAX_COMPILATION_LEAVES <? num_tap_leaves self
  then Err (UnexpectedStr "Too many Tapleaves"%string) else Ok tt.


(** *** Safety *)

(** [a - b] on [usize]: an underflow panics. *)
Definition usize_sub {E} (a b : nat) : result E nat := if b <=? a then Ok (a - b) else Panic.

Definition bool_nat (b : bool) : nat := if b then 1 else 0.

Fixpoint is_safe_nonmalleable self : result PolicyError (bool * bool) :=
  match self with
  | Unsatisfiable | Trivial => Ok (true, true)
  | Key _ => Ok (true, true)
  | Sha256 _ | Hash256 _ | Ripemd160 _ | Hash160 _ | After _ | Older _ => Ok (false, true)
  | Threshold k subs =>
      let? l := try_map is_safe_nonmalleable subs in
      let '(safe_count, non_mall_count) :=
        fold_left (λ acc x, (acc.1 + bool_nat x.1, acc.2 + bool_nat x.2)) l (0, 0) in
      let? d := usize_sub (length subs) k in
      Ok (d + 1 <=? safe_count, (non_mall_count =? length subs) && (d <=? safe_count))
  | And subs =>
      let? l := try_map is_safe_nonmalleable subs in
      Ok (fold_left (λ acc x, (acc.1 || x.1, acc.2 && x.2)) l (false, true))
  | Or subs =>
      let? l := try_map (λ '(_, sub), is_safe_nonmalleable sub) subs in
      let '(all_safe, atleast_one_safe, all_non_mall) :=
        fold_left (λ acc x, (acc.1.1 && x.1, acc.1.2 || x.1, acc.2 && x.2)) l (true, false, true) in
      Ok (all_safe, atleast_one_safe && all_non_mall)
  end.

(** *** Time locks *)

Context `{LockTimes}.

Fixpoint check_timelocks_helper self : TimelockInfo :=
  match self with
  | After t => MkTL false false (is_block_height t) (is_block_time t) false
  | Older t => MkTL (is_height_locked t) (is_time_locked t) false false false
  | Threshold k subs => ExtraProps.combine_threshold k (map check_timelocks_helper subs)
  | And subs => ExtraProps.combine_threshold (length subs) (map check_timelocks_helper subs)
  | Or subs => ExtraProps.combine_threshold 1 (map (λ '(_, sub), check_timelocks_helper sub) subs)
  | _ => TimelockInfo_default
  end.

Definition check_timelocks self : result PolicyError unit :=
  if contains_combination (check_timelocks_helper self)
  then Err PolicyHeightTimelockCombination else Ok tt.

(** *** Validity *)

Context `{!MiniscriptKeyEq Pk}.

Definition check_duplicate_keys self : result PolicyError unit :=
  let pks := keys self in
  if length (remove_dups pks) <? length pks then Err DuplicatePubKeys else Ok tt.

Definition check_time (n : N) : result PolicyError unit :=
  if (n =? 0)%N then Err ZeroTime
  else if (2 ^ 31 <? n)%N then Err TimeTooFar
  else Ok tt.

Fixpoint is_valid self : result PolicyError unit :=
  let? _ := check_timelocks self in
  let? _ := check_duplicate_keys self in
  match self with
  | And subs =>
      if negb (length subs =? 2) then Err NonBinaryArgAnd
      else let? _ := try_map is_valid subs in Ok tt
  | Or subs =>
      if negb (length subs =? 2) then Err NonBinaryArgOr
      else let? _ := try_map (λ '(_, sub), is_valid sub) subs in Ok tt
  | Threshold k subs =>
      if (k =? 0) || (length subs <? k) then Err IncorrectThresh
      else let? _ := try_map is_valid subs in Ok tt
  | After n => check_time n
  | Older n => check_time n
  | _ => Ok tt
  end.

(** *** Taproot key *)

(** [translate_unsatisfiable_pk] *)
Fixpoint translate_unsatisfiable_pk (key : Pk) self : Policy Pk :=
  match self with
  | Key k => if bool_decide (k = key) then Unsatisfiable else Key k
  | And subs => And (map (translate_unsatisfiable_pk key) subs)
  | Or subs => Or (map (λ '(k, sub), (k, translate_unsatisfiable_pk key sub)) subs)
  | Threshold k subs => Threshold k (map (translate_unsatisfiable_pk key) subs)
  | x => x
  end.
End policy.
