(* ===== verification/Lift.v ===== *)
(** * Lifting to abstract policies: [src/policy/mod.rs]

    [Liftable] for Miniscripts and for concrete policies, and the internal key of a
    Taproot compilation, which is chosen on the lifted policy. *)

From S2P Require Import Prelude Types Extension Property Ast Iter Tokens Context.
From stdpp Require Import strings.
From S2P Require Semantic Concrete.
Import Semantic(MiniscriptKeyEq).

Section lift.
Context {Pk : Type} `{MiniscriptKey Pk} {Ext : Type} `{!Extension Ext} `{LockTimes}.
Context (ctx : ScriptContext).
Implicit Types ms : Miniscript Pk Ext.

Definition lift_check ms : result LiftError unit :=
  if negb (within_resource_limits ctx ms) then Err BranchExceedResourceLimits
  else if has_mixed_timelocks ms then Err LiftHeightTimelockCombination
  else Ok tt.

(** [impl Liftable for Terminal], on the node of a Miniscript. *)
Fixpoint lift_terminal ms : result Error (Semantic.Policy Pk) :=
  let '(MkMs t _ _) := ms in
  let? ret :=
    match t with
    | PkK pk | PkH pk => Ok (Semantic.Key pk)
    | RawPkH _ => Err (LiftErr RawDescriptorLift)
    | After t => Ok (Semantic.After t)
    | Older t => Ok (Semantic.Older t)
    | Sha256 h => Ok (Semantic.Sha256 h)
    | Hash256 h => Ok (Semantic.Hash256 h)
    | Ripemd160 h => Ok (Semantic.Ripemd160 h)
    | Hash160 h => Ok (Semantic.Hash160 h)
    | TFalse => Ok Semantic.Unsatisfiable
    | TTrue => Ok Semantic.Trivial
    | Alt sub | Swap sub | Check sub | DupIf sub | Verify sub | NonZero sub | ZeroNotEqual sub =>
        lift_terminal sub
    | AndV l r | AndB l r =>
        let? l := lift_terminal l in
        let? r := lift_terminal r in
        Ok (Semantic.Threshold 2 [l; r])
    | AndOr a b c =>
        let? a := lift_terminal a in
        let? b := lift_terminal b in
        let? c := lift_terminal c in
        Ok (Semantic.Threshold 1 [Semantic.Threshold 2 [a; b]; c])
    | OrB l r | OrD l r | OrC l r | OrI l r =>
        let? l := lift_terminal l in
        let? r := lift_terminal r in
        Ok (Semantic.Threshold 1 [l; r])
    | Thresh k subs =>
        let? semantic_subs := try_map lift_terminal subs in
        Ok (Semantic.Threshold k semantic_subs)
    | Multi k keys | MultiA k keys => Ok (Semantic.Threshold k (map Semantic.Key keys))
    | ExtT _ => Err (CovErr CovenantLift)
    end in
  Ok (Semantic.normalized ret).

(** [impl Liftable for Miniscript] *)
Definition lift ms : result Error (Semantic.Policy Pk) :=
  let? _ := map_err LiftErr (lift_check ms) in
  lift_terminal ms.
End lift.

Section lift_concrete.
Context {Pk : Type} `{MiniscriptKey Pk} `{LockTimes}.

(** [impl Liftable for Concrete] *)
Fixpoint lift_concrete (self : Concrete.Policy Pk) : result Error (Semantic.Policy Pk) :=
  let? _ := map_err PolicyErr (Concrete.check_timelocks self) in
  let? ret :=
    match self with
    | Concrete.Unsatisfiable => Ok Semantic.Unsatisfiable
    | Concrete.Trivial => Ok Semantic.Trivial
    | Concrete.Key pk => Ok (Semantic.Key pk)
    | Concrete.After t => Ok (Semantic.After t)
    | Concrete.Older t => Ok (Semantic.Older t)
    | Concrete.Sha256 h => Ok (Semantic.Sha256 h)
    | Concrete.Hash256 h => Ok (Semantic.Hash256 h)
    | Concrete.Ripemd160 h => Ok (Semantic.Ripemd160 h)
    | Concrete.Hash160 h => Ok (Semantic.Hash160 h)
    | Concrete.And subs =>
        let? semantic_subs := try_map lift_concrete subs in
        Ok (Semantic.Threshold 2 semantic_subs)
    | Concrete.Or subs =>
        let? semantic_subs := try_map (λ '(_, sub), lift_concrete sub) subs in
        Ok (Semantic.Threshold 1 semantic_subs)
    | Concrete.Threshold k subs =>
        let? semantic_subs := try_map lift_concrete subs in
        Ok (Semantic.Threshold k semantic_subs)
    end in
  Ok (Semantic.normalized ret).
End lift_concrete.

(** ** The internal key of a Taproot output *)

(** The operations on [f64] that the compiler uses for probabilities. *)
Class F64 : Type := {
  f64 : Type;
  f64_zero : f64;
  f64_one : f64;
  f64_of_usize : nat → f64;
  f64_mul : f64 → f64 → f64;
  f64_div : f64 → f64 → f64;
  f64_gt : f64 → f64 → bool;
}.

Section tap_key.
Context {Pk : Type} `{MiniscriptKey Pk} `{LockTimes} `{!MiniscriptKeyEq Pk} `{F64}.

Fixpoint to_tapleaf_prob_vec (prob : f64) (self : Concrete.Policy Pk)
    : list (f64 * Concrete.Policy Pk) :=
  match self with
  | Concrete.Or subs =>
      let total_odds := sum_list (map fst subs) in
      concat (map (λ '(k, policy),
        to_tapleaf_prob_vec (f64_div (f64_mul prob (f64_of_usize k)) (f64_of_usize total_odds))
          policy) subs)
  | Concrete.Threshold k subs =>
      if k =? 1 then
        concat (map (to_tapleaf_prob_vec (f64_div prob (f64_of_usize (length subs)))) subs)
      else [(prob, Concrete.Threshold k subs)]
  | x => [(prob, x)]
  end.

(** [key_prob_map.get(&Concrete::Key(key))]: an entry collected later replaces an
    earlier one. *)
Definition key_prob (leaves : list (f64 * Concrete.Policy Pk)) (key : Pk) : option f64 :=
  fold_left (λ acc '(p, pol),
    match pol with
    | Concrete.Key k => if bool_decide (k = key) then Some p else acc
    | _ => acc
    end) leaves None.

(** The body of the loop of [extract_key] over the keys of the policy. *)
Definition extract_step (semantic_policy : Semantic.Policy Pk)
    (leaves : list (f64 * Concrete.Policy Pk)) (acc : f64 * option Pk) (key : Pk)
    : result Error (f64 * option Pk) :=
  let '(prob, internal_key) := acc in
  let? sat := map_err PolicyErr
                (Semantic.satisfy_constraint semantic_policy (Semantic.Key key) true) in
  if bool_decide (sat = Semantic.Trivial) then
    match key_prob leaves key with
    | Some val => if f64_gt val prob then Ok (val, Some key) else Ok (prob, internal_key)
    | None => Err (UnexpectedStr "Key should have existed in the HashMap!"%string)
    end
  else Ok (prob, internal_key).

Definition extract_key (self : Concrete.Policy Pk) (unspendable_key : option Pk)
    : result Error (Pk * Concrete.Policy Pk) :=
  let? semantic_policy := lift_concrete self in
  let leaves := to_tapleaf_prob_vec f64_one self in
  let? (_, internal_key) :=
    try_fold (extract_step semantic_policy leaves) (f64_zero, None) (Concrete.keys self) in
  match internal_key, unspendable_key with
  | Some key, _ => Ok (key, Concrete.translate_unsatisfiable_pk key self)
  | None, Some key => Ok (key, self)
  | None, None => Err (UnexpectedStr "No viable internal key found."%string)
  end.
End tap_key.
