(* ===== verification/LiftProps.v ===== *)
(** * Lifting keeps the meaning

    The meaning of Miniscripts and of concrete policies over the constraints of abstract
    policies, and the theorems that lifting keeps it. *)

From S2P Require Import Prelude Types Extension Instances Property Ast Examples Iter Typing Resources Tokens Context ScriptNum Script Encoding PolicyNormal Lift.
From S2P Require Semantic Concrete.
Import Semantic(MiniscriptKeyEq).

Section meaning.
Context {Pk : Type} `{MiniscriptKey Pk}.
Implicit Types (v : Semantic.Policy Pk → bool).

(** How many of a list of conditions hold. *)
Definition number (l : list bool) : nat := length (filter (λ b, b = true) l).

Lemma number_cons b l : number (b :: l) = (if b then 1 else 0) + number l.
Proof. unfold number. rewrite filter_cons. by destruct b. Qed.

Lemma number_app l l' : number (l ++ l') = number l + number l'.
Proof. unfold number. by rewrite list.filter_app, length_app. Qed.

Lemma number_one b : number [b] = if b then 1 else 0.
Proof. by destruct b. Qed.

Lemma number_rev l : number (rev l) = number l.
Proof.
  induction l as [|b l IH]; [done|]. cbn [rev]. rewrite number_app, IH, number_one, number_cons. lia.
Qed.

Lemma number_perm l l' : l ≡ₚ l' → number l = number l'.
Proof. intros Hp. unfold number. by rewrite Hp. Qed.

Lemma number_le l : number l ≤ length l.
Proof. induction l as [|b l IH]; [done|]. rewrite number_cons. simpl. destruct b; lia. Qed.

Lemma number_all l : (length l <=? number l) = forallb id l.
Proof.
  induction l as [|b l IH]; [done|]. rewrite number_cons. pose proof (number_le l).
  cbn [forallb length]. rewrite <-IH.
  destruct b; cbn [id andb]; [done|]. rewrite Nat.add_0_l. apply Nat.leb_gt. lia.
Qed.

Lemma number_any l : (1 <=? number l) = existsb id l.
Proof.
  induction l as [|b l IH]; [done|]. rewrite number_cons. cbn [existsb id].
  rewrite <-IH. by destruct b.
Qed.

(** The meaning of a Miniscript: what a satisfaction has to provide. *)
Fixpoint ms_eval {Ext} v (ms : Miniscript Pk Ext) : bool :=
  let '(MkMs t _ _) := ms in
  match t with
  | PkK pk | PkH pk => v (Semantic.Key pk)
  | After t => v (Semantic.After t)
  | Older t => v (Semantic.Older t)
  | Sha256 h => v (Semantic.Sha256 h)
  | Hash256 h => v (Semantic.Hash256 h)
  | Ripemd160 h => v (Semantic.Ripemd160 h)
  | Hash160 h => v (Semantic.Hash160 h)
  | TFalse => false
  | TTrue => true
  | Alt s | Swap s | Check s | DupIf s | Verify s | NonZero s | ZeroNotEqual s => ms_eval v s
  | AndV l r | AndB l r => ms_eval v l && ms_eval v r
  | AndOr a b c => (ms_eval v a && ms_eval v b) || ms_eval v c
  | OrB l r | OrD l r | OrC l r | OrI l r => ms_eval v l || ms_eval v r
  | Thresh k subs => k <=? number (map (ms_eval v) subs)
  | Multi k keys | MultiA k keys => k <=? number (map (λ pk, v (Semantic.Key pk)) keys)
  | RawPkH _ | ExtT _ => false
  end.

(** The meaning of a concrete policy. *)
Fixpoint ceval v (p : Concrete.Policy Pk) : bool :=
  match p with
  | Concrete.Unsatisfiable => false
  | Concrete.Trivial => true
  | Concrete.Key pk => v (Semantic.Key pk)
  | Concrete.After t => v (Semantic.After t)
  | Concrete.Older t => v (Semantic.Older t)
  | Concrete.Sha256 h => v (Semantic.Sha256 h)
  | Concrete.Hash256 h => v (Semantic.Hash256 h)
  | Concrete.Ripemd160 h => v (Semantic.Ripemd160 h)
  | Concrete.Hash160 h => v (Semantic.Hash160 h)
  | Concrete.And subs => forallb (ceval v) subs
  | Concrete.Or subs => existsb (λ '(_, sub), ceval v sub) subs
  | Concrete.Threshold k subs => k <=? number (map (ceval v) subs)
  end.

Lemma eval_number v k (subs : list (Semantic.Policy Pk)) :
  eval v (Semantic.Threshold k subs) = (k <=? number (map (eval v) subs)).
Proof. done. Qed.

Lemma eval_two v (l r : Semantic.Policy Pk) :
  eval v (Semantic.Threshold 2 [l; r]) = eval v l && eval v r.
Proof. rewrite eval_number. cbn [map]. rewrite !number_cons. by destruct (eval v l), (eval v r). Qed.

Lemma eval_one v (l r : Semantic.Policy Pk) :
  eval v (Semantic.Threshold 1 [l; r]) = eval v l || eval v r.
Proof. rewrite eval_number. cbn [map]. rewrite !number_cons. by destruct (eval v l), (eval v r). Qed.
End meaning.

(** ** Miniscripts *)

Section lift_ms.
Context {Pk : Type} `{MiniscriptKey Pk} {Ext : Type} `{!Extension Ext} `{LockTimes}.
Context (ctx : ScriptContext).
Implicit Types (ms : Miniscript Pk Ext) (v : Semantic.Policy Pk → bool).

(** Extensions and raw key hashes are the fragments that do not lift. *)
Definition node_liftable (t : Terminal Pk Ext) : Prop :=
  match t with RawPkH _ | ExtT _ => False | _ => True end.

Definition lifts ms (r : result Error (Semantic.Policy Pk)) : Prop :=
  match r with
  | Ok p => normal p ∧ (∀ v, eval v p = ms_eval v ms) ∧ all_nodes node_liftable ms
  | Err e => (e = LiftErr RawDescriptorLift ∨ e = CovErr CovenantLift) ∧ ¬ all_nodes node_liftable ms
  | Panic => False
  end.

(** The last step of every case. *)
Lemma lifts_normalized t mty mext p :
  node_liftable t → Forall (all_nodes node_liftable) (children t) →
  (∀ v, eval v p = ms_eval v (MkMs t mty mext)) →
  lifts (MkMs t mty mext) (Ok (Semantic.normalized p)).
Proof.
  intros Ht Hch Hv. split_and!; [apply normalized_normal| |by apply all_nodes_node].
  intros v. by rewrite normalized_eval.
Qed.

Lemma lifts_bind t mty mext s (k : Semantic.Policy Pk → result Error (Semantic.Policy Pk)) r :
  s ∈ children t → lifts s r →
  (∀ p, normal p → (∀ v, eval v p = ms_eval v s) → all_nodes node_liftable s →
        lifts (MkMs t mty mext) (k p)) →
  lifts (MkMs t mty mext) (let? p := r in k p).
Proof.
  intros Hs Hr Hk. destruct r as [p|e|]; simpl in *; [by apply Hk; naive_solver| |done].
  destruct Hr as [He Hn]. split; [done|]. intros [_ Hall]%all_nodes_inv. apply Hn.
  rewrite list.Forall_forall in Hall. auto.
Qed.

Lemma bind_assoc {E A B C} (x : result E A) (f : A → result E B) (g : B → result E C) :
  (let? b := (let? a := x in f a) in g b) = let? a := x in let? b := f a in g b.
Proof. by destruct x. Qed.

Lemma lifts_try_map t mty mext subs (k : list (Semantic.Policy Pk) → result Error (Semantic.Policy Pk)) :
  Forall (λ s, s ∈ children t) subs → Forall (λ s, lifts s (lift_terminal s)) subs →
  (∀ ps, (∀ v, map (eval v) ps = map (ms_eval v) subs) → Forall (all_nodes node_liftable) subs →
         lifts (MkMs t mty mext) (k ps)) →
  lifts (MkMs t mty mext) (let? ps := try_map lift_terminal subs in k ps).
Proof.
  intros Hin Hall. revert k. induction Hall as [|s subs Hs _ IH]; intros k Hk; cbn [try_map].
  { apply Hk; [done|constructor]. }
  apply Forall_cons_iff in Hin as [Hs' Hin]. rewrite bind_assoc.
  eapply lifts_bind; [exact Hs'|exact Hs|]. intros p _ Hp Hps. rewrite bind_assoc.
  apply IH; [done|]. intros ps Hps' Hall'. cbn [result_bind]. apply Hk; [|by constructor].
  intros v. cbn. by rewrite Hp, Hps'.
Qed.

Lemma lift_terminal_spec ms : lifts ms (lift_terminal ms).
Proof.
  induction ms as [t mty mext IH] using Miniscript_tree_ind. cbn [lift_terminal].
  destruct t; cbn [children] in IH; rewrite ?Forall_cons_iff in IH;
    repeat match goal with Hx : _ ∧ _ |- _ => destruct Hx end;
    rewrite ?bind_assoc; cbn [result_bind];
    try (by apply lifts_normalized; [done|constructor|done]);
    try (split; [auto|]; by intros [? _]%all_nodes_inv).
  1-7: (eapply lifts_bind; [by left|done|]; intros p Hn Hv Ha;
    by apply lifts_normalized; [done|by repeat constructor|]).
  all: try (eapply lifts_bind; [by left|done|]; intros p Hn Hv Ha; rewrite ?bind_assoc;
    eapply lifts_bind; [by right; left|done|]; intros p' Hn' Hv' Ha'; rewrite ?bind_assoc;
    cbn [result_bind]).
  all: try (apply lifts_normalized; [done|by repeat constructor|];
    intros v; rewrite ?eval_two, ?eval_one, Hv, Hv'; done).
  - eapply lifts_bind; [by right; right; left|done|]. intros p'' Hn'' Hv'' Ha''.
    cbn [result_bind]. apply lifts_normalized; [done|by repeat constructor|].
    intros v. by rewrite eval_one, eval_two, Hv, Hv', Hv''.
  - apply lifts_try_map; [by apply list.Forall_forall|done|]. intros ps Hv Ha.
    cbn [result_bind]. apply lifts_normalized; [done..|]. intros v. by rewrite eval_number, Hv.
  - apply lifts_normalized; [done|constructor|]. intros v. rewrite eval_number, map_map. done.
  - apply lifts_normalized; [done|constructor|]. intros v. rewrite eval_number, map_map. done.
Qed.

Lemma lift_meaning ms p v : lift ctx ms = Ok p → eval v p = ms_eval v ms.
Proof.
  unfold lift. intros (u & _ & Hp)%bind_Ok. pose proof (lift_terminal_spec ms) as Hs.
  unfold lifts in Hs. rewrite Hp in Hs. by destruct Hs as (_ & He & _).
Qed.

(** (C33) Lifting a Miniscript: it fails exactly when the Miniscript exceeds the resource
    limits, mixes time locks, or has an extension or a raw key hash as a fragment; what
    it returns is a policy in normal form with the meaning of the Miniscript. *)
Theorem lift_correct ms :
  match lift ctx ms with
  | Ok p => lift_check ctx ms = Ok tt ∧ all_nodes node_liftable ms ∧
            normal p ∧ ∀ v, eval v p = ms_eval v ms
  | Err e => (∃ e', e = LiftErr e' ∧ lift_check ctx ms = Err e') ∨
             (e = LiftErr RawDescriptorLift ∨ e = CovErr CovenantLift) ∧ ¬ all_nodes node_liftable ms
  | Panic => False
  end.
Proof.
  unfold lift. assert (lift_check ctx ms ≠ Panic) by (unfold lift_check; by repeat case_match).
  destruct (lift_check ctx ms) as [[]|e|]; cbn [map_err result_bind]; [|by left; eauto|done].
  pose proof (lift_terminal_spec ms) as Hs. destruct (lift_terminal ms) as [p|e|]; [|by right|done].
  destruct Hs as (? & ? & ?). auto.
Qed.
End lift_ms.
