(* ===== verification/ConcreteProps.v ===== *)
(** * Concrete policies: what their checks guarantee

    Validity, lifting, the safety analysis, time locks, and the split of a policy into a
    Taproot internal key and leaves. *)

From S2P Require Import Prelude Types Extension Instances Property Ast Tokens Context PolicyNormal PolicyEntails PolicyFilter Lift LiftProps Timelocks.
From S2P Require ExtraProps Semantic Concrete.
From stdpp Require Import strings.
Import Semantic(MiniscriptKeyEq).
Import Concrete(branches, check_timelocks, check_timelocks_helper, check_duplicate_keys, is_valid, is_safe_nonmalleable, keys, translate_unsatisfiable_pk, num_tap_leaves).

Section concrete.
Context {Pk : Type} `{MiniscriptKey Pk} `{LockTimes} `{!MiniscriptKeyEq Pk}.
Notation policy := (Concrete.Policy Pk).
Implicit Types (p : policy) (v : Semantic.Policy Pk → bool).

(** *** Branches with odds are branches *)

Lemma map_odds {B} (f : policy → B) (subs : list (nat * policy)) :
  map (λ '(_, sub), f sub) subs = map f (map snd subs).
Proof. rewrite map_map. apply map_ext. by intros []. Qed.

Lemma try_map_odds {E B} (f : policy → result E B) (subs : list (nat * policy)) :
  try_map (λ '(_, sub), f sub) subs = try_map f (map snd subs).
Proof. induction subs as [|[o s] subs IH]; [done|]. cbn. by rewrite IH. Qed.

Lemma existsb_odds (f : policy → bool) (subs : list (nat * policy)) :
  existsb (λ '(_, sub), f sub) subs = existsb f (map snd subs).
Proof. induction subs as [|[o s] subs IH]; [done|]. cbn. by rewrite IH. Qed.

(** ** Validity *)

Definition node_shape p : Prop :=
  match p with
  | Concrete.And subs => length subs = 2
  | Concrete.Or subs => length subs = 2
  | Concrete.Threshold k subs => 1 ≤ k ≤ length subs
  | Concrete.After n | Concrete.Older n => (0 < n <= 2 ^ 31)%N
  | _ => True
  end.

Lemma check_duplicate_keys_Ok p : check_duplicate_keys p = Ok tt ↔ NoDup (keys p).
Proof.
  unfold check_duplicate_keys. destruct (Nat.ltb_spec (length (remove_dups (keys p))) (length (keys p))) as [Hlt|Hge].
  - split; [done|]. intros Hnd. assert (remove_dups (keys p) ≡ₚ keys p) as Hp.
    { apply NoDup_Permutation; [apply NoDup_remove_dups|done|]. intros x. apply elem_of_remove_dups. }
    rewrite Hp in Hlt. lia.
  - split; [intros _|done]. assert (keys p ≡ₚ remove_dups (keys p)) as ->; [|apply NoDup_remove_dups].
    symmetry. apply submseteq_length_Permutation; [|done].
    apply NoDup_submseteq; [apply NoDup_remove_dups|]. intros x. apply elem_of_remove_dups.
Qed.

Lemma try_map_unit {E A} (f : A → result E unit) l :
  (let? _ := try_map f l in Ok tt) = Ok tt ↔ Forall (λ x, f x = Ok tt) l.
Proof.
  rewrite bind_Ok. setoid_rewrite try_map_Ok. split.
  - intros (ys & Hys & _). induction Hys as [|x [] l ys Hx _ IH]; by constructor.
  - intros Hl. induction Hl as [|x l Hx _ (ys & Hys & _)]; [by exists []|].
    exists (tt :: ys). split; [by constructor|done].
Qed.

Lemma check_time_Ok n : Concrete.check_time n = Ok tt ↔ (0 < n <= 2 ^ 31)%N.
Proof.
  unfold Concrete.check_time. destruct (N.eqb_spec n 0) as [->|Hn]; [split; [done|lia]|].
  destruct (N.ltb_spec (2 ^ 31) n); split; (done || lia).
Qed.

(** [is_valid] at a node. *)
Lemma is_valid_node p :
  is_valid p = Ok tt ↔
  check_timelocks p = Ok tt ∧ NoDup (keys p) ∧ node_shape p ∧
  Forall (λ q, is_valid q = Ok tt) (branches p).
Proof.
  rewrite <-check_duplicate_keys_Ok.
  assert (is_valid p = let? _ := check_timelocks p in let? _ := check_duplicate_keys p in
    match p with
    | Concrete.And subs => if negb (length subs =? 2) then Err NonBinaryArgAnd
                           else let? _ := try_map is_valid subs in Ok tt
    | Concrete.Or subs => if negb (length subs =? 2) then Err NonBinaryArgOr
                          else let? _ := try_map is_valid (map snd subs) in Ok tt
    | Concrete.Threshold k subs => if (k =? 0) || (length subs <? k) then Err IncorrectThresh
                          else let? _ := try_map is_valid subs in Ok tt
    | Concrete.After n | Concrete.Older n => Concrete.check_time n
    | _ => Ok tt
    end) as ->.
  { destruct p; try done. cbn [is_valid]. by rewrite try_map_odds. }
  destruct (check_timelocks p) as [[]| |]; cbn [result_bind]; [|naive_solver..].
  destruct (check_duplicate_keys p) as [[]| |]; cbn [result_bind]; [|naive_solver..].
  destruct p; cbn [node_shape branches]; rewrite ?check_time_Ok; try naive_solver.
  - destruct (Nat.eqb_spec (length subs) 2); cbn [negb]; [rewrite try_map_unit|]; naive_solver.
  - destruct (Nat.eqb_spec (length subs) 2); cbn [negb]; [rewrite try_map_unit|]; naive_solver.
  - destruct (Nat.eqb_spec k 0), (Nat.ltb_spec (length subs) k); cbn [orb];
      try (split; [done|lia]). rewrite try_map_unit. split; [|tauto]. intros. split_and!; (done || lia).
Qed.

(** ** Lifting *)

Lemma lift_concrete_valid p :
  is_valid p = Ok tt →
  ∃ q, lift_concrete p = Ok q ∧ normal q ∧ ∀ v, eval v q = ceval v p.
Proof.
  induction p as [p IH] using Concrete.Policy_tree_ind. intros (Ht & _ & Hs & Hb)%is_valid_node.
  assert (∃ qs, try_map lift_concrete (branches p) = Ok qs ∧
                ∀ v, map (eval v) qs = map (ceval v) (branches p)) as (qs & Hqs & Hv).
  { clear Ht Hs. induction IH as [|s l Hs _ IH']; [by exists []|].
    apply Forall_cons_iff in Hb as [Hsv Hb]. destruct (IH' Hb) as (qs & Hqs & Hv).
    destruct (Hs Hsv) as (q & Hq & _ & He). exists (q :: qs). cbn [try_map]. rewrite Hq, Hqs.
    split; [done|]. intros v. cbn. by rewrite He, Hv. }
  assert (∀ x, lift_concrete p = Ok (Semantic.normalized x) → (∀ v, eval v x = ceval v p) →
    ∃ q, lift_concrete p = Ok q ∧ normal q ∧ ∀ v, eval v q = ceval v p) as Hdone.
  { intros x -> Hx. eexists. split_and!; [done|apply normalized_normal|].
    intros v. by rewrite normalized_eval. }
  destruct p; cbn [lift_concrete branches node_shape] in *; rewrite Ht in *; cbn [map_err result_bind] in *;
    try (by eapply Hdone).
  - rewrite Hqs in *. cbn [result_bind] in *. eapply Hdone; [done|]. intros v.
    rewrite eval_number, Hv. cbn [ceval]. rewrite <-Hs, <-(length_map (ceval v)), number_all.
    generalize subs. intros l. induction l as [|x l IHl]; [done|]. cbn. by rewrite IHl.
  - rewrite try_map_odds, Hqs in *. cbn [result_bind] in *. eapply Hdone; [done|]. intros v.
    rewrite eval_number, Hv, number_any. cbn [ceval]. rewrite existsb_odds.
    generalize (map snd subs). intros l. induction l as [|x l IHl]; [done|]. cbn. by rewrite IHl.
  - rewrite Hqs in *. cbn [result_bind] in *. eapply Hdone; [done|]. intros v.
    by rewrite eval_number, Hv.
Qed.

(** (C34) A valid concrete policy lifts: the result is in normal form and means the
    conjunctions, disjunctions and thresholds of the policy. *)
Theorem lift_concrete_correct p :
  is_valid p = Ok tt →
  ∃ q, lift_concrete p = Ok q ∧ normal q ∧ ∀ v, eval v q = ceval v p.
Proof. apply lift_concrete_valid. Qed.

(** ** Valuations *)

Lemma number_map_ext {A} (f g : A → bool) l :
  Forall (λ x, f x = g x) l → number (map f l) = number (map g l).
Proof. induction 1 as [|x l Hx _ IH]; [done|]. cbn [map]. by rewrite !number_cons, Hx, IH. Qed.

Lemma number_map_mono {A} (f g : A → bool) l :
  Forall (λ x, f x = true → g x = true) l → number (map f l) ≤ number (map g l).
Proof.
  induction 1 as [|x l Hx _ IH]; [done|]. cbn [map]. rewrite !number_cons.
  destruct (f x); [rewrite Hx by done; lia|destruct (g x); lia].
Qed.

(** The meaning of a node, from the meanings of its branches. *)
Lemma ceval_and v subs : ceval v (Concrete.And subs) = (length subs <=? number (map (ceval v) subs)).
Proof.
  rewrite <-(length_map (ceval v)), number_all. cbn [ceval].
  induction subs as [|x l IHl]; [done|]. cbn. by rewrite IHl.
Qed.

Lemma ceval_or v subs : ceval v (Concrete.Or subs) = (1 <=? number (map (ceval v) (map snd subs))).
Proof.
  rewrite number_any. cbn [ceval]. rewrite existsb_odds.
  induction (map snd subs) as [|x l IHl]; [done|]. cbn. by rewrite IHl.
Qed.

Lemma ceval_mono v v' p :
  (∀ c, v c = true → v' c = true) → ceval v p = true → ceval v' p = true.
Proof.
  intros Hv. induction p as [p IH] using Concrete.Policy_tree_ind.
  apply number_map_mono in IH.
  destruct p; rewrite ?ceval_and, ?ceval_or; cbn [ceval branches] in *; auto;
    rewrite !Nat.leb_le; lia.
Qed.

(** Two valuations that agree on the constraints of the policy. *)
Lemma ceval_ext v v' p :
  (∀ k, k ∈ keys p → v (Semantic.Key k) = v' (Semantic.Key k)) →
  (∀ c, (∀ k, c ≠ Semantic.Key k) → v c = v' c) → ceval v p = ceval v' p.
Proof.
  intros Hk Hc. induction p as [p IH] using Concrete.Policy_tree_ind.
  assert (number (map (ceval v) (branches p)) = number (map (ceval v') (branches p))) as Hn.
  { apply number_map_ext. rewrite list.Forall_forall in *. intros s Hs. apply IH; [done|].
    intros k Hin. apply Hk. clear -Hs Hin.
    assert (∀ l, s ∈ l → k ∈ concat (map keys l)) as Hl.
    { induction l as [|x l IHl]; [by intros ?%elem_of_nil|].
      intros [<-|Hx]%elem_of_cons; cbn; apply elem_of_app; auto. }
    destruct p; cbn [branches keys] in *; rewrite ?map_odds; try (by apply elem_of_nil in Hs);
      by apply Hl. }
  destruct p; rewrite ?ceval_and, ?ceval_or; cbn [ceval branches] in *;
    try (by rewrite Hn); try done; try (by apply Hc). apply Hk. by left.
Qed.

(** ** Safety *)

Inductive no_trivial : policy → Prop :=
  no_trivial_node p : p ≠ Concrete.Trivial → Forall no_trivial (branches p) → no_trivial p.

(** Everything but signatures. *)
Definition no_signature : Semantic.Policy Pk → bool := λ c,
  match c with Semantic.Key _ => false | _ => true end.

Definition unsafe (x : bool * bool) : bool := negb x.1.

Lemma fold_and (l : list (bool * bool)) (a b : bool) :
  (fold_left (λ acc x : bool * bool, (acc.1 || x.1, acc.2 && x.2)) l (a, b)).1 = a || existsb fst l.
Proof.
  revert a b. induction l as [|x l IH]; intros a b; cbn; [by rewrite orb_false_r|].
  by rewrite IH, orb_assoc.
Qed.

Lemma fold_or (l : list (bool * bool)) (a b c : bool) :
  (fold_left (λ (acc : bool * bool * bool) (x : bool * bool), (acc.1.1 && x.1, acc.1.2 || x.1, acc.2 && x.2)) l (a, b, c)).1.1
  = a && forallb fst l.
Proof.
  revert a b c. induction l as [|x l IH]; intros a b c; cbn; [by rewrite andb_true_r|].
  by rewrite IH, andb_assoc.
Qed.

Lemma fold_count (l : list (bool * bool)) a b :
  (fold_left (λ (acc : nat * nat) (x : bool * bool), (acc.1 + Concrete.bool_nat x.1, acc.2 + Concrete.bool_nat x.2))
     l (a, b)).1 = a + number (map fst l).
Proof.
  revert a b. induction l as [|x l IH]; intros a b; cbn [fold_left map]; [cbn; lia|].
  rewrite IH, number_cons. cbn. destruct x.1; cbn; lia.
Qed.

Lemma number_negb (l : list bool) : number (map negb l) + number l = length l.
Proof.
  induction l as [|b l IH]; [done|]. cbn [map]. rewrite !number_cons. simpl. destruct b; simpl; lia.
Qed.

Lemma exists_fst (l : list (bool * bool)) :
  existsb fst l = negb (length l <=? number (map negb (map fst l))).
Proof.
  pose proof (number_negb (map fst l)) as Hn. rewrite length_map in Hn.
  assert (existsb fst l = (1 <=? number (map fst l))) as ->.
  { rewrite number_any. induction l as [|x l IH]; [done|]. cbn.
    pose proof (number_negb (map fst l)) as Hl. rewrite length_map in Hl. by rewrite IH. }
  destruct (Nat.leb_spec 1 (number (map fst l))), (Nat.leb_spec (length l) (number (map negb (map fst l))));
    (done || lia).
Qed.

Lemma forall_fst (l : list (bool * bool)) :
  forallb fst l = negb (1 <=? number (map negb (map fst l))).
Proof.
  pose proof (number_negb (map fst l)) as Hn. rewrite length_map in Hn.
  assert (forallb fst l = (length l <=? number (map fst l))) as ->.
  { rewrite <-(length_map fst l), number_all. clear Hn. induction l as [|x l IH]; [done|]. cbn.
    by rewrite IH. }
  destruct (Nat.leb_spec 1 (number (map negb (map fst l)))), (Nat.leb_spec (length l) (number (map fst l)));
    (done || lia).
Qed.

(** The safety flag says whether the policy fails without signatures. *)
Lemma is_safe_no_signature p :
  is_valid p = Ok tt → no_trivial p →
  ∃ s m, is_safe_nonmalleable p = Ok (s, m) ∧ ceval no_signature p = negb s.
Proof.
  induction p as [p IH] using Concrete.Policy_tree_ind.
  intros (_ & _ & Hs & Hb)%is_valid_node Hnt. inversion Hnt as [? Ht Hnb]; subst.
  assert (∃ l, try_map is_safe_nonmalleable (branches p) = Ok l ∧ length l = length (branches p) ∧
               map (ceval no_signature) (branches p) = map negb (map fst l)) as (l & Hl & Hlen & Hmap).
  { clear Hs Hnt Ht. induction IH as [|s l Hs _ IH']; [by exists []|].
    apply Forall_cons_iff in Hb as [Hsv Hb], Hnb as [Hsn Hnb].
    destruct (IH' Hb Hnb) as (l' & Hl & Hlen & Hmap). destruct (Hs Hsv Hsn) as (sf & m & Hsf & He).
    exists ((sf, m) :: l'). cbn. rewrite Hsf, Hl, He, Hmap. cbn. by rewrite Hlen. }
  destruct p; try done; try (by do 2 eexists);
    cbn [is_safe_nonmalleable branches node_shape] in *; rewrite ?try_map_odds, Hl; cbn [result_bind].
  - destruct (fold_left _ l (false, true)) as [s m] eqn:Hf. exists s, m. split; [done|].
    rewrite ceval_and, Hmap, <-Hlen. pose proof (fold_and l false true) as Ha. rewrite Hf in Ha.
    cbn in Ha. by rewrite Ha, exists_fst, negb_involutive.
  - destruct (fold_left _ l (true, false, true)) as [[s o] m] eqn:Hf. exists s. eexists. split; [done|].
    rewrite ceval_or, Hmap. pose proof (fold_or l true false true) as Ha. rewrite Hf in Ha.
    cbn in Ha. by rewrite Ha, forall_fst, negb_involutive.
  - destruct (fold_left _ l (0, 0)) as [s m] eqn:Hf. pose proof (fold_count l 0 0) as Ha.
    rewrite Hf in Ha. cbn in Ha. unfold Concrete.usize_sub. rewrite (proj2 (Nat.leb_le _ _)) by lia.
    cbn [result_bind]. do 2 eexists. split; [done|]. cbn [ceval]. rewrite Hmap.
    pose proof (number_negb (map fst l)) as Hn. rewrite length_map in Hn. subst s.
    destruct (Nat.leb_spec k (number (map negb (map fst l)))), (Nat.leb_spec (length subs - k + 1) (number (map fst l)));
      cbn; (done || lia).
Qed.

(** (C35) The safety flag of [is_safe_nonmalleable] is exact on valid policies without
    TRIVIAL: it is set exactly when every way of meeting the policy involves a signature
    of one of its keys. *)
Theorem is_safe_correct p :
  is_valid p = Ok tt → no_trivial p →
  ∃ s m, is_safe_nonmalleable p = Ok (s, m) ∧
    (s = true ↔ ∀ v, ceval v p = true → ∃ k, k ∈ keys p ∧ v (Semantic.Key k) = true).
Proof.
  intros Hv Hnt. destruct (is_safe_no_signature p Hv Hnt) as (s & m & Hs & He).
  exists s, m. split; [done|]. destruct s; cbn in He.
  - split; [|done]. intros _ v Hev.
    destruct (existsb (λ k, v (Semantic.Key k)) (keys p)) eqn:Hx.
    + apply existsb_exists in Hx as (k & Hk & Hvk). exists k. split; [|done]. by apply list_elem_of_In.
    + enough (ceval no_signature p = true) by congruence.
      set (v' := λ c, match c with
                      | Semantic.Key k => bool_decide (k ∈ keys p) && v c
                      | _ => v c end).
      assert (ceval v' p = true) as Hev'.
      { rewrite <-Hev. apply ceval_ext.
        - intros k Hk. cbn. by rewrite bool_decide_eq_true_2.
        - intros c Hc. destruct c; try done. by destruct (Hc k). }
      revert Hev'. apply ceval_mono. intros c Hc. destruct c; try done. cbn in Hc.
      apply andb_prop in Hc as [Hin%bool_decide_eq_true_1 Hvk].
      assert (existsb (λ k, v (Semantic.Key k)) (keys p) = true); [|congruence].
      apply existsb_exists. exists k. split; [by apply list_elem_of_In|done].
  - split; [done|]. intros Hall. destruct (Hall no_signature He) as (k & _ & Hk). done.
Qed.

End concrete.

(** ** Time locks and Taproot keys of concrete policies

    Mixed time locks along the ways of meeting a policy; the split of a policy into the
    leaves of a Taproot tree, and into an internal key and the rest. *)

Section locks.
Context {Pk : Type} `{MiniscriptKey Pk} `{LockTimes} `{!LockTimesOk}.
Notation policy := (Concrete.Policy Pk).
Implicit Types (p : policy).

Definition after_locks (t : N) : list lock_kind :=
  if is_block_height t then [CltvHeight] else [CltvTime].
Definition older_locks (t : N) : list lock_kind :=
  if is_height_locked t then [CsvHeight] else if is_time_locked t then [CsvTime] else [].

(** The locks executed by one way of meeting a policy. *)
Fixpoint policy_path p (l : list lock_kind) : Prop :=
  match p with
  | Concrete.Unsatisfiable => False
  | Concrete.After t => l = after_locks t
  | Concrete.Older t => l = older_locks t
  | Concrete.And subs => choose (length subs) (map policy_path subs) l
  | Concrete.Or subs => choose 1 (map (λ '(_, sub), policy_path sub) subs) l
  | Concrete.Threshold k subs => choose k (map policy_path subs) l
  | _ => l = []
  end.

Lemma not_mixes_single k : ¬ mixes [k].
Proof. intros (x & ->%list_elem_of_singleton & Hx%list_elem_of_singleton). by destruct k. Qed.
Lemma not_mixes_nil : ¬ mixes [].
Proof. by intros (x & ?%elem_of_nil & _). Qed.

Lemma leaf_sound tl ls :
  (∀ k, k ∈ ls → has tl k = true) → ¬ mixes ls → sound tl (λ l, l = ls).
Proof. intros Hin Hm. split; [by intros l k -> ?; apply Hin|by intros l ->]. Qed.

Lemma leaf_exact tl ls :
  (∀ k, has tl k = true → k ∈ ls) → contains_combination tl = false → exact tl (λ l, l = ls).
Proof.
  intros Hin Hm. split; [by eexists|intros k Hk; exists ls; auto|congruence].
Qed.

Lemma sound_path p : sound (check_timelocks_helper p) (policy_path p).
Proof.
  induction p as [p IH] using Concrete.Policy_tree_ind.
  assert (Forall2 sound (map check_timelocks_helper (branches p)) (map policy_path (branches p))) as Hch.
  { clear -IH. induction IH as [|q l Hq _ IH]; constructor; done. }
  destruct p; cbn [branches check_timelocks_helper policy_path] in *;
    try (apply leaf_sound; [by intros k0 ?%elem_of_nil|apply not_mixes_nil]).
  - by split.
  - unfold after_locks. pose proof (block_height_time t) as Hbt. apply leaf_sound.
    + intros k. destruct (is_block_height t) eqn:Hh; intros ->%list_elem_of_singleton; cbn;
        [done|by rewrite Hbt].
    + case_match; apply not_mixes_single.
  - unfold older_locks. apply leaf_sound.
    + intros k. destruct (is_height_locked t) eqn:Hh; [by intros ->%list_elem_of_singleton|].
      destruct (is_time_locked t) eqn:Ht; [by intros ->%list_elem_of_singleton|by intros ?%elem_of_nil].
    + repeat case_match; (apply not_mixes_single || apply not_mixes_nil).
  - by apply threshold_sound.
  - rewrite !map_odds. by apply threshold_sound.
  - by apply threshold_sound.
Qed.

(** Every part of the policy is needed on some way of meeting it. *)
Inductive no_unsatisfiable : policy → Prop :=
  no_unsatisfiable_node p :
    p ≠ Concrete.Unsatisfiable → Forall no_unsatisfiable (branches p) → no_unsatisfiable p.

Inductive shaped : policy → Prop :=
  shaped_node p : node_shape p → Forall shaped (branches p) → shaped p.

Lemma exact_path p : no_unsatisfiable p → shaped p → exact (check_timelocks_helper p) (policy_path p).
Proof.
  induction p as [p IH] using Concrete.Policy_tree_ind. intros Hu Hs.
  inversion Hu as [? Hne Hub]; inversion Hs as [? Hsh Hsb]; subst.
  assert (Forall2 exact (map check_timelocks_helper (branches p)) (map policy_path (branches p))) as Hch.
  { clear -IH Hub Hsb. induction IH as [|q l Hq _ IH]; [constructor|].
    apply Forall_cons_iff in Hub as [??], Hsb as [??]. constructor; auto. }
  destruct p; cbn [branches check_timelocks_helper policy_path node_shape] in *;
    try (apply leaf_exact; [by intros []|done]).
  - done.
  - unfold after_locks. pose proof (block_height_time t) as Hbt. apply leaf_exact; [|done].
    intros k. rewrite Hbt. destruct (is_block_height t), k; cbn; try done; by left.
  - unfold older_locks. apply leaf_exact; [|done]. intros k.
    pose proof (locked_relative t) as Hrel. pose proof (relative_height_or_time t) as Hht.
    destruct (is_height_locked t), (is_time_locked t), k; cbn; try done; intros; try (by left).
    all: destruct (is_relative_lock_time t); naive_solver.
  - apply threshold_exact; [done|]. rewrite length_map. lia.
  - rewrite !map_odds. apply threshold_exact; [done|]. rewrite !length_map. lia.
  - apply threshold_exact; [done|]. by rewrite length_map.
Qed.

(** [check_timelocks] is exact: on a policy of valid shape and without
    UNSATISFIABLE it succeeds exactly when no way of meeting the policy executes both a
    height and a time lock of one opcode. *)
Theorem check_timelocks_correct p :
  no_unsatisfiable p → shaped p →
  (check_timelocks p = Ok tt ↔ ∀ l, policy_path p l → ¬ mixes l).
Proof.
  intros Hu Hs. pose proof (sound_path p) as [_ Hsm]. pose proof (exact_path p Hu Hs) as [_ _ Hem].
  unfold check_timelocks. destruct (contains_combination (check_timelocks_helper p)).
  - split; [done|]. intros Hall. destruct (Hem eq_refl) as (l & Hl & Hm). by destruct (Hall l Hl).
  - split; [|done]. intros _ l Hl Hm. by specialize (Hsm l Hl Hm).
Qed.
End locks.

(** ** Taproot *)

Section tap.
Context {Pk : Type} `{MiniscriptKey Pk} `{LockTimes} `{!MiniscriptKeyEq Pk} `{F64}.
Notation policy := (Concrete.Policy Pk).
Implicit Types (p : policy) (v : Semantic.Policy Pk → bool).

Lemma to_tapleaf_leaves prob p :
  length (to_tapleaf_prob_vec prob p) = num_tap_leaves p ∧
  ∀ v, existsb (ceval v) (map snd (to_tapleaf_prob_vec prob p)) = ceval v p.
Proof.
  revert prob. induction p as [p IH] using Concrete.Policy_tree_ind. intros prob.
  assert (∀ (f : policy → f64) l, Forall (λ p, ∀ prob, length (to_tapleaf_prob_vec prob p) = num_tap_leaves p ∧
      ∀ v, existsb (ceval v) (map snd (to_tapleaf_prob_vec prob p)) = ceval v p) l →
    length (concat (map (λ q, to_tapleaf_prob_vec (f q) q) l)) = sum_list (map num_tap_leaves l) ∧
    ∀ v, existsb (ceval v) (map snd (concat (map (λ q, to_tapleaf_prob_vec (f q) q) l)))
         = existsb (ceval v) l) as Hl.
  { intros f l. induction 1 as [|q l Hq _ IHl]; [done|]. destruct IHl as [IHn IHv].
    destruct (Hq (f q)) as [Hqn Hqv]. cbn. rewrite length_app, map_app, Hqn, IHn.
    split; [done|]. intros v. by rewrite existsb_app, Hqv, IHv. }
  destruct p; cbn [to_tapleaf_prob_vec num_tap_leaves branches] in *;
    try (split; [done|]; intros v; cbn; by rewrite ?orb_false_r).
  - generalize (sum_list (map fst subs)). intros total. rewrite map_odds. clear Hl. cbn [ceval].
    induction subs as [|[o q] subs IHs]; [done|]. cbn in IH. apply Forall_cons_iff in IH as [Hq IH].
    destruct (IHs IH) as [IHn IHv].
    destruct (Hq (f64_div (f64_mul prob (f64_of_usize o)) (f64_of_usize total))) as [Hqn Hqv].
    cbn. rewrite length_app, map_app, Hqn, IHn. split; [done|]. intros v.
    by rewrite existsb_app, Hqv, IHv.
  - destruct (Nat.eqb_spec k 1) as [->|Hk]; [|split; [done|]; intros v; cbn; by rewrite orb_false_r].
    destruct (Hl (λ _, f64_div prob (f64_of_usize (length subs))) subs IH) as [Hn Hv].
    split; [done|]. intros v. rewrite Hv. cbn [ceval]. rewrite number_any.
    clear. induction subs as [|x l IHl]; [done|]. cbn. by rewrite IHl.
Qed.

(** The leaves of a Taproot compilation: there are [num_tap_leaves] of them, and
    the policy means that one of them is met. *)
Theorem tap_leaves_correct p :
  length (to_tapleaf_prob_vec f64_one p) = num_tap_leaves p ∧
  ∀ v, existsb (ceval v) (map snd (to_tapleaf_prob_vec f64_one p)) = ceval v p.
Proof. apply to_tapleaf_leaves. Qed.

Lemma ceval_translate key v p :
  ceval v (translate_unsatisfiable_pk key p) = ceval (update v (Semantic.Key key) false) p.
Proof.
  induction p as [p IH] using Concrete.Policy_tree_ind.
  assert (number (map (ceval v) (map (translate_unsatisfiable_pk key) (branches p)))
    = number (map (ceval (update v (Semantic.Key key) false)) (branches p))) as Hn.
  { rewrite map_map. by apply number_map_ext. }
  destruct p; cbn [translate_unsatisfiable_pk branches] in *; try done.
  - case_bool_decide as Hk; cbn; unfold update; case_bool_decide; naive_solver.
  - rewrite !ceval_and, length_map. by rewrite Hn.
  - rewrite !ceval_or, <-Hn, !map_map. do 2 f_equal. apply map_ext. by intros [].
  - cbn [ceval]. by rewrite Hn.
Qed.

(** The keys that [extract_step] picks meet the policy alone. *)
Definition key_suffices (q : Semantic.Policy Pk) (acc : f64 * option Pk) (ks : list Pk) : Prop :=
  match acc.2 with
  | Some k => k ∈ ks ∧ ∀ v, v (Semantic.Key k) = true → eval v q = true
  | None => True
  end.

Lemma extract_step_suffices q leaves ks acc key :
  normal q → key ∈ ks → key_suffices q acc ks →
  match extract_step q leaves acc key with
  | Ok acc' => key_suffices q acc' ks
  | Err _ => True
  | Panic => False
  end.
Proof.
  intros Hn Hin Hacc. unfold extract_step. destruct acc as [prob ik].
  destruct (satisfy_constraint_normal (Semantic.Key key) true q Hn eq_refl) as (sat & Hsat & _ & _ & He).
  rewrite Hsat. cbn [map_err result_bind]. case_bool_decide as Ht; [|done].
  destruct (key_prob leaves key) as [val|]; [|done]. destruct (f64_gt val prob); [|done].
  split; [done|]. intros v Hv. rewrite <-(eval_update_same v (Semantic.Key key)), Hv.
  rewrite <-He by done. by rewrite Ht.
Qed.

Lemma extract_loop q leaves ks keys' acc :
  normal q → (∀ k, k ∈ keys' → k ∈ ks) → key_suffices q acc ks →
  match try_fold (extract_step q leaves) acc keys' with
  | Ok acc' => key_suffices q acc' ks
  | Err _ => True
  | Panic => False
  end.
Proof.
  intros Hn. revert acc. induction keys' as [|k keys' IH]; intros acc Hin Hacc; cbn [try_fold]; [done|].
  pose proof (extract_step_suffices q leaves ks acc k Hn (Hin k ltac:(by left)) Hacc) as Hs.
  destruct (extract_step q leaves acc k) as [acc'|e|]; cbn [result_bind]; [|done..].
  apply IH; [|done]. intros k' Hk'. apply Hin. by right.
Qed.

(** Splitting a valid policy for Taproot does not panic and keeps its meaning: with
    a key of the policy as internal key, the policy is met exactly by a signature of that
    key or by the remaining policy; otherwise the key supplied is used and the policy is
    left as it is. *)
Theorem extract_key_correct p unspendable :
  is_valid p = Ok tt →
  match extract_key p unspendable with
  | Ok (key, q) =>
      (key ∈ keys p ∧ ∀ v, ceval v p = v (Semantic.Key key) || ceval v q) ∨
      (unspendable = Some key ∧ q = p)
  | Err _ => True
  | Panic => False
  end.
Proof.
  intros Hv. destruct (lift_concrete_valid p Hv) as (sem & Hsem & Hn & He).
  unfold extract_key. rewrite Hsem. cbn [result_bind].
  pose proof (extract_loop sem (to_tapleaf_prob_vec f64_one p) (keys p) (keys p) (f64_zero, None) Hn
    (λ _ Hk, Hk) I) as Hl.
  destruct (try_fold _ _ _) as [[prob ik]|e|]; cbn [result_bind]; [|done..].
  destruct ik as [key|]; [|destruct unspendable; [by right|done]].
  left. destruct Hl as [Hin Hk]. split; [done|]. intros v. rewrite ceval_translate, <-!He.
  destruct (v (Semantic.Key key)) eqn:Hvk; cbn [orb]; [by apply Hk|].
  rewrite <-Hvk. symmetry. apply eval_update_same.
Qed.
End tap.
