(* ===== verification/PolicySamples.v ===== *)
(** * The theorems on concrete policies, on samples *)

From S2P Require Import Prelude Types Extension Instances Property Ast Tokens Context Timelocks PolicyNormal PolicyEntails PolicyFilter Lift LiftProps ConcreteProps.
From S2P Require Semantic Concrete.
From stdpp Require Import strings.
From Stdlib Require Import QArith.

Open Scope nat_scope.

(** Probabilities as rational numbers. *)
#[export] Instance demo_F64 : F64 := {|
  f64 := Q;
  f64_zero := 0%Q;
  f64_one := 1%Q;
  f64_of_usize n := inject_Z (Z.of_nat n);
  f64_mul := Qmult;
  f64_div := Qdiv;
  f64_gt x y := negb (Qle_bool x y);
|}.

(** [or(3@pk(1),1@and(pk(0),older(10)))] *)
Definition sample : Concrete.Policy DemoKey :=
  Concrete.Or [(3, Concrete.Key (Compressed 1));
               (1, Concrete.And [Concrete.Key (Compressed 0); Concrete.Older 10])].

Lemma sample_valid : Concrete.is_valid sample = Ok tt.
Proof. vm_compute. reflexivity. Qed.

Ltac tree C := repeat (apply C; [cbn; first [done | lia]|]; cbn [Concrete.branches sample map snd];
  repeat apply Forall_cons_2; try apply Forall_nil_2).

Lemma sample_no_trivial : no_trivial sample.
Proof. tree @no_trivial_node. Qed.
Lemma sample_no_unsatisfiable : no_unsatisfiable sample.
Proof. tree @no_unsatisfiable_node. Qed.
Lemma sample_shaped : shaped sample.
Proof. tree @shaped_node. Qed.

Lemma lift_concrete_correct_witness :
  Concrete.is_valid sample = Ok tt ∧
  ∃ q, lift_concrete sample = Ok q ∧ normal q ∧ ∀ v, eval v q = ceval v sample.
Proof. split; [exact sample_valid|]. exact (lift_concrete_correct sample sample_valid). Defined.

Lemma is_safe_correct_witness :
  Concrete.is_valid sample = Ok tt ∧ no_trivial sample ∧
  ∃ s m, Concrete.is_safe_nonmalleable sample = Ok (s, m) ∧ s = true ∧
    ∀ v, ceval v sample = true → ∃ k, k ∈ Concrete.keys sample ∧ v (Semantic.Key k) = true.
Proof.
  split_and!; [exact sample_valid|exact sample_no_trivial|].
  destruct (is_safe_correct sample sample_valid sample_no_trivial) as (s & m & Hs & Hiff).
  assert (s = true) as Ht by (vm_compute in Hs; congruence).
  exists s, m. split_and!; [exact Hs|exact Ht|]. by apply Hiff.
Defined.

Lemma check_timelocks_correct_witness :
  no_unsatisfiable sample ∧ shaped sample ∧
  (∀ l, policy_path sample l → ¬ mixes l).
Proof.
  split_and!; [exact sample_no_unsatisfiable|exact sample_shaped|].
  apply (check_timelocks_correct sample sample_no_unsatisfiable sample_shaped).
  vm_compute. reflexivity.
Defined.

Lemma extract_key_correct_witness :
  Concrete.is_valid sample = Ok tt ∧
  ∃ q, extract_key sample None = Ok (Compressed 1, q) ∧
       ∀ v, ceval v sample = v (Semantic.Key (Compressed 1)) || ceval v q.
Proof.
  split; [exact sample_valid|].
  pose proof (extract_key_correct sample None sample_valid) as Hspec.
  assert (extract_key sample None = Ok (Compressed 1, Concrete.translate_unsatisfiable_pk (Compressed 1) sample))
    as He by (vm_compute; reflexivity).
  rewrite He in Hspec. eexists. split; [exact He|].
  destruct Hspec as [[_ Hv]|[Hu _]]; [exact Hv|discriminate Hu].
Defined.

(** ** Policies the checks get wrong *)

(** TRIVIAL counts as safe: the disjunction needs no signature. *)
Lemma trivial_is_safe :
  let p := Concrete.Or [(1, Concrete.Key (Compressed 0)); (1, Concrete.Trivial)] in
  Concrete.is_valid p = Ok tt ∧ Concrete.is_safe_nonmalleable p = Ok (true, true) ∧
  ceval (λ _, false) p = true.
Proof. split_and!; vm_compute; reflexivity. Qed.

(** A key that meets the policy alone without being a leaf: [extract_key] fails with the
    error that should not occur. *)
Lemma extract_key_inner :
  let p := Concrete.And [Concrete.Key (Compressed 0); Concrete.Trivial] in
  Concrete.is_valid p = Ok tt ∧
  extract_key p None = Err (UnexpectedStr "Key should have existed in the HashMap!"%string).
Proof. split; vm_compute; reflexivity. Qed.
