(* ===== verification/Interp.v ===== *)
(** * The interpreter: [src/interpreter/mod.rs] and [src/interpreter/stack.rs]

    The iterator over the constraints a witness satisfies: an explicit stack of
    partially evaluated nodes and the stack of witness elements.  The body of its loop
    is [eval_node], one call of [next] is [next_constraint], and [collect] is what a
    caller does with the iterator.  Signatures, hash functions and key parsing are
    third-party code. *)

From S2P Require Import Prelude Types Extension Property Ast Tokens Context ScriptNum Script Lex.
From stdpp Require Import strings.

(** ** Third-party interfaces *)

(** Signatures and keys of the [secp256k1] and [elements] crates, the hash functions. *)
Class Signatures `{BitcoinKeys} : Type := {
  EcdsaSignature : Type;
  EcdsaSighashType : Type;
  SchnorrSig : Type;
  serialize_der : EcdsaSignature → bytes;
  from_der : bytes → option EcdsaSignature;
  sighash_as_u8 : EcdsaSighashType → Byte.byte;
  sighash_from_u32 : N → EcdsaSighashType;
  schnorr_to_vec : SchnorrSig → bytes;
  schnorr_from_slice : bytes → option SchnorrSig;
  PublicKey_from_slice : bytes → option PublicKey;
  XOnly_from_slice : bytes → option XOnlyPublicKey;
  PublicKey_to_pubkeyhash : PublicKey → SigType → hash_n 20;
  XOnly_to_pubkeyhash : XOnlyPublicKey → SigType → hash_n 20;
  XOnly_to_public_key : XOnlyPublicKey → PublicKey;
  PublicKey_display : PublicKey → string;
  sha256_hash : bytes → hash_n 32;
  hash256_hash : bytes → hash_n 32;
  ripemd160_hash : bytes → hash_n 20;
  hash160_hash : bytes → hash_n 20;
  (** the double hash of a message, and the check of a signature of that hash *)
  sighash_message : bytes → hash_n 32;
  verify_ecdsa : hash_n 32 → EcdsaSignature → PublicKey → bool;
  (** [schnorr::Signature] without a sighash type, and its check against a digest *)
  SchnorrSignature : Type;
  schnorr_as_ref : SchnorrSignature → bytes;
  schnorr_signature_from_slice : bytes → option SchnorrSignature;
  verify_schnorr : SchnorrSignature → hash_n 32 → XOnlyPublicKey → bool;
  #[global] sig_transactions :: Transactions;
}.

Section data.
Context `{Signatures}.

Definition ElementsSig : Type := EcdsaSignature * EcdsaSighashType.

Inductive KeySigPair : Type :=
  | KsEcdsa (pk : PublicKey) (sig : ElementsSig)
  | KsSchnorr (pk : XOnlyPublicKey) (sig : SchnorrSig).

Definition as_ecdsa (self : KeySigPair) : option (PublicKey * ElementsSig) :=
  match self with KsEcdsa pk sig => Some (pk, sig) | KsSchnorr _ _ => None end.
Definition as_schnorr (self : KeySigPair) : option (XOnlyPublicKey * SchnorrSig) :=
  match self with KsEcdsa _ _ => None | KsSchnorr pk sig => Some (pk, sig) end.

Inductive BitcoinKey : Type :=
  | Fullkey (pk : PublicKey)
  | XOnlyKey (pk : XOnlyPublicKey).

Definition to_pubkeyhash (self : BitcoinKey) (sig_type : SigType) : hash_n 20 :=
  match self with
  | Fullkey pk => PublicKey_to_pubkeyhash pk sig_type
  | XOnlyKey pk => XOnly_to_pubkeyhash pk sig_type
  end.

Definition display_key (self : BitcoinKey) : string :=
  match self with
  | Fullkey pk => PublicKey_display pk
  | XOnlyKey pk => PublicKey_display (XOnly_to_public_key pk)
  end.

#[global] Instance BitcoinKey_MiniscriptKey : MiniscriptKey BitcoinKey := {|
  Sha256T := hash_n 32;
  Hash256T := hash_n 32;
  Ripemd160T := hash_n 20;
  Hash160T := hash_n 20;
  is_uncompressed _ := false;
  is_x_only_key _ := false;
  key_to_string := display_key;
|}.

(** *** The witness stack: [src/interpreter/stack.rs] *)

Inductive Element : Type :=
  | Satisfied
  | Dissatisfied
  | Push (b : bytes).

#[global] Instance Element_eq_dec : EqDecision Element.
Proof. solve_decision. Defined.

Definition element_of (v : bytes) : Element :=
  if bool_decide (v = [x01]) then Satisfied
  else match v with [] => Dissatisfied | _ => Push v end.

(** The vector of the source, its last element (the top) first. *)
Definition Stack : Type := list Element.

(** The stack a witness, written bottom first, is read into. *)
Definition Stack_of (witness : list bytes) : Stack := rev (map element_of witness).

(** *** Errors: [src/interpreter/error.rs]

    The variants the evaluation returns. *)
Inductive InterpError : Type :=
  | AbsoluteLocktimeNotMet (n : N)
  | AbsoluteLocktimeComparisonInvalid (n lock_time : N)
  | CouldNotEvaluate
  | ExpectedPush
  | HashPreimageLengthMismatch
  | InsufficientSignaturesMultiSig
  | InvalidEcdsaSignature (pk : PublicKey)
  | InvalidSchnorrSignature (pk : XOnlyPublicKey)
  | MissingExtraZeroMultiSig
  | MultiSigEvaluationError
  | PkEvaluationError (pk : BitcoinKey)
  | PkHashVerifyFail (h : hash_n 20)
  | PubkeyParseError
  | RelativeLocktimeNotMet (n : N)
  | Secp
  | ScriptSatisfactionError
  | SchnorrSigErr
  | UnexpectedStackBoolean
  | UnexpectedStackEnd
  | UnexpectedStackElementPush
  | VerifyFailed
  | IncorrectCovenantWitness
  | ArithError (e : EvalError)
  | NonEmptyWitness
  | NonEmptyScriptSig
  | IncorrectPubkeyHash
  | IncorrectWPubkeyHash
  | IncorrectScriptHash
  | IncorrectWScriptHash
  | UncompressedPubkey
  | XOnlyPublicKeyParseError
  | TapAnnexUnsupported
  | ControlBlockParse
  | ControlBlockVerificationError
  | MiniscriptErr (e : Error).

(** Errs when the element is not a push. *)
Definition try_push (self : Element) : result InterpError bytes :=
  match self with Push x => Ok x | _ => Err ExpectedPush end.

Definition as_push (self : Element) : result InterpError bytes :=
  match self with Push x => Ok x | _ => Err UnexpectedStackBoolean end.

Inductive HashLockType : Type :=
  | HlSha256 (h : hash_n 32)
  | HlHash256 (h : hash_n 32)
  | HlHash160 (h : hash_n 20)
  | HlRipemd160 (h : hash_n 20).

Inductive SatisfiedConstraint {Ext : Type} : Type :=
  | CPublicKey (key_sig : KeySigPair)
  | CPublicKeyHash (keyhash : hash_n 20) (key_sig : KeySigPair)
  | CHashLock (hash : HashLockType) (preimage : bytes)
  | CRelativeTimelock (n : N)
  | CAbsoluteTimelock (n : N)
  | CVerEq (n : N)
  | COutputsPref (pref : bytes)
  | CExt (ext : Ext).

(** ** Signatures *)

(** [elementssig_to_rawsig] and [elementssig_from_rawsig] of [src/miniscript/satisfy.rs] *)
Definition elementssig_to_rawsig (sig : ElementsSig) : bytes :=
  serialize_der sig.1 ++ [sighash_as_u8 sig.2].

Definition split_last {A} (l : list A) : option (A * list A) :=
  match rev l with [] => None | x :: l => Some (x, rev l) end.

Definition elementssig_from_rawsig (rawsig : bytes) : result InterpError ElementsSig :=
  let? (flag, sig) := unwrap (split_last rawsig) in
  let flag := sighash_from_u32 (Byte.to_N flag) in
  let? sig := ok_or Secp (from_der sig) in
  Ok (sig, flag).

Definition verify_sersig (verify_sig : KeySigPair → bool) (pk : BitcoinKey) (sigser : bytes)
    : result InterpError KeySigPair :=
  match pk with
  | Fullkey pk =>
      let? ecdsa_sig := elementssig_from_rawsig sigser in
      let key_sig_pair := KsEcdsa pk ecdsa_sig in
      if verify_sig key_sig_pair then Ok key_sig_pair else Err (InvalidEcdsaSignature pk)
  | XOnlyKey x_only_pk =>
      let? schnorr_sig := ok_or SchnorrSigErr (schnorr_from_slice sigser) in
      let key_sig_pair := KsSchnorr x_only_pk schnorr_sig in
      if verify_sig key_sig_pair then Ok key_sig_pair
      else Err (InvalidSchnorrSignature x_only_pk)
  end.
End data.
Arguments SatisfiedConstraint {_ _} Ext.

(** ** Fragments that read the stack *)

Section evaluate.
Context `{Signatures} `{LockTimes} {Ext : Type}.
Implicit Types (self : Stack) (verify_sig : KeySigPair → bool).
Notation C := (SatisfiedConstraint Ext).

(** [Option<Result<SatisfiedConstraint, Error>>] with the stack that is left. *)
Notation ret self r := (self, Some r).

Definition evaluate_pk verify_sig (pk : BitcoinKey) self
    : Stack * option (result InterpError C) :=
  match self with
  | sigser :: self =>
      match sigser with
      | Dissatisfied => (Dissatisfied :: self, None)
      | Push sigser =>
          match verify_sersig verify_sig pk sigser with
          | Ok key_sig => ret (Satisfied :: self) (Ok (CPublicKey key_sig))
          | Err e => ret self (Err e)
          | Panic => ret self Panic
          end
      | Satisfied => ret self (Err (PkEvaluationError pk))
      end
  | [] => ret [] (Err UnexpectedStackEnd)
  end.

Definition bitcoin_key_from_slice (sl : bytes) (sig_type : SigType) : option BitcoinKey :=
  match sig_type with
  | Schnorr => XOnlyKey <$> XOnly_from_slice sl
  | Ecdsa => Fullkey <$> PublicKey_from_slice sl
  end.

Definition evaluate_pkh verify_sig (pkh : hash_n 20) (sig_type : SigType) self
    : Stack * option (result InterpError C) :=
  match self with
  | Push pk :: self =>
      if bool_decide (hash160_hash pk ≠ pkh) then ret self (Err (PkHashVerifyFail pkh))
      else
        match bitcoin_key_from_slice pk sig_type with
        | Some pk =>
            match self with
            | sigser :: self =>
                match sigser with
                | Dissatisfied => (Dissatisfied :: self, None)
                | Push sigser =>
                    match verify_sersig verify_sig pk sigser with
                    | Ok key_sig => ret (Satisfied :: self) (Ok (CPublicKeyHash pkh key_sig))
                    | Err e => ret self (Err e)
                    | Panic => ret self Panic
                    end
                | Satisfied => ret self (Err (PkEvaluationError pk))
                end
            | [] => ret [] (Err UnexpectedStackEnd)
            end
        | None => ret self (Err PubkeyParseError)
        end
  | _ => ret (tail self) (Err UnexpectedStackEnd)
  end.

(** The comparison of lock times of the same unit. *)
Definition evaluate_after (n lock_time : N) self : Stack * option (result InterpError C) :=
  if (is_block_height n && is_block_height lock_time)
     || (is_block_time n && is_block_time lock_time)
  then
    if (n <=? lock_time)%N then ret (Satisfied :: self) (Ok (CAbsoluteTimelock n))
    else ret self (Err (AbsoluteLocktimeNotMet n))
  else ret self (Err (AbsoluteLocktimeComparisonInvalid n lock_time)).

Definition evaluate_older (n age : N) self : Stack * option (result InterpError C) :=
  if (n <=? age)%N then ret (Satisfied :: self) (Ok (CRelativeTimelock n))
  else ret self (Err (RelativeLocktimeNotMet n)).

(** The four hash fragments differ in the hash function only. *)
Definition evaluate_hash (matches : bytes → bool) (lock : HashLockType) self
    : Stack * option (result InterpError C) :=
  match self with
  | Push preimage :: self =>
      if negb (length preimage =? 32) then ret self (Err HashPreimageLengthMismatch)
      else if matches preimage then ret (Satisfied :: self) (Ok (CHashLock lock preimage))
      else (Dissatisfied :: self, None)
  | _ => ret (tail self) (Err UnexpectedStackEnd)
  end.

Definition evaluate_sha256 (hash : hash_n 32) :=
  evaluate_hash (λ p, bool_decide (sha256_hash p = hash)) (HlSha256 hash).
Definition evaluate_hash256 (hash : hash_n 32) :=
  evaluate_hash (λ p, bool_decide (hash256_hash p = hash)) (HlHash256 hash).
Definition evaluate_hash160 (hash : hash_n 20) :=
  evaluate_hash (λ p, bool_decide (hash160_hash p = hash)) (HlHash160 hash).
Definition evaluate_ripemd160 (hash : hash_n 20) :=
  evaluate_hash (λ p, bool_decide (ripemd160_hash p = hash)) (HlRipemd160 hash).

Definition evaluate_multi verify_sig (pk : BitcoinKey) self
    : Stack * option (result InterpError C) :=
  match self with
  | witness_sig :: self =>
      match witness_sig with
      | Push sigser =>
          match verify_sersig verify_sig pk sigser with
          | Ok key_sig => ret self (Ok (CPublicKey key_sig))
          | Err _ => (witness_sig :: self, None)
          | Panic => ret self Panic
          end
      | _ => ret self (Err UnexpectedStackBoolean)
      end
  | [] => ret [] (Err UnexpectedStackEnd)
  end.
End evaluate.

(** ** The iterator *)

(** [ParseableExt::evaluate] *)
Class EvalExt (Ext : Type) `{Signatures} : Type := {
  ext_evaluate : Ext → Stack → option TxEnv → Stack * result InterpError bool;
}.

#[export] Instance NoExt_EvalExt `{Signatures} : EvalExt NoExt := {|
  ext_evaluate (e : NoExt) := match e with end;
|}.

Section iter.
Context `{Signatures} `{LockTimes} {Ext : Type} `{!EvalExt Ext}.
Notation Ms := (Miniscript BitcoinKey Ext).
Notation C := (SatisfiedConstraint Ext).

Record NodeEvaluationState : Type := MkNode {
  ns_node : Ms;
  n_evaluated : nat;
  n_satisfied : nat;
}.

(** The fields of [Iter] that never change. *)
Record Env : Type := MkEnv {
  verify_sig : KeySigPair → bool;
  txenv : option TxEnv;
  age : N;
  lock_time : N;
  env_sig_type : SigType;
}.

(** The fields that do. *)
Record Iter : Type := MkIter {
  public_key : option BitcoinKey;
  state : list NodeEvaluationState;
  stack : Stack;
  cov : option BitcoinKey;
  has_errored : bool;
}.

Context (env : Env).
Implicit Types (st : list NodeEvaluationState) (stk : Stack).

(** Where an iteration of the loop ends: the two stacks, and [None] if the loop goes on
    or the item it returns. *)
Definition turn : Type := list NodeEvaluationState * Stack * option (result InterpError C).

Definition goon st stk : turn := (st, stk, None).
Definition fail st stk (e : InterpError) : turn := (st, stk, Some (Err e)).
Definition panic st stk : turn := (st, stk, Some Panic).

(** [self.push_evaluation_state(node, n_evaluated, n_satisfied)] *)
Definition push_state st (node : Ms) (n_evaluated n_satisfied : nat) :=
  MkNode node n_evaluated n_satisfied :: st.

(** [if res.is_some() { return res; }] *)
Definition leaf st (r : Stack * option (result InterpError C)) : turn := (st, r.1, r.2).

(** The two [debug_assert_eq!]s at the head of most arms. *)
Definition fresh_node (ns : NodeEvaluationState) st stk (t : turn) : turn :=
  if (n_evaluated ns =? 0) && (n_satisfied ns =? 0) then t else panic st stk.

(** [match self.stack.pop()] on a boolean. *)
Definition pop_bool st stk (k : bool → Stack → turn) : turn :=
  match stk with
  | Satisfied :: stk => k true stk
  | Dissatisfied :: stk => k false stk
  | Push _ :: stk => fail st stk UnexpectedStackElementPush
  | [] => fail st [] UnexpectedStackEnd
  end.

(** [match self.stack.pop()] where any element will do. *)
Definition pop_any st stk (k : Element → Stack → turn) : turn :=
  match stk with
  | e :: stk => k e stk
  | [] => fail st [] UnexpectedStackEnd
  end.

Definition push_bool (b : bool) stk : Stack := (if b then Satisfied else Dissatisfied) :: stk.

(** The end of a threshold; [k - 1] overflows for [k = 0]. *)
Definition thresh_end (k n_sat : nat) st stk : turn :=
  match stk with
  | Dissatisfied :: stk => goon st (push_bool (n_sat =? k) stk)
  | Satisfied :: stk =>
      if k =? 0 then panic st stk else goon st (push_bool (n_sat =? k - 1) stk)
  | Push _ :: stk => fail st stk UnexpectedStackElementPush
  | [] => fail st [] UnexpectedStackEnd
  end.

(** One key of a multisig is tried. *)
Definition multi_turn (ms : Ms) (n_ev n_sat : nat) (pk : option BitcoinKey) st stk : turn :=
  match pk with
  | None => panic st stk
  | Some pk =>
      match evaluate_multi (verify_sig env) pk stk with
      | (stk, Some (Ok x)) => (push_state st ms (S n_ev) (S n_sat), stk, Some (Ok x))
      | (stk, None) => goon (push_state st ms (S n_ev) n_sat) stk
      | (stk, x) => (st, stk, x)
      end
  end.

Definition multi_start (ms : Ms) (k : nat) (subs : list BitcoinKey) (n_sat : nat) st stk : turn :=
  let len := length stk in
  if len <? k + 1 then fail st stk InsufficientSignaturesMultiSig
  else
    match stk with
    | Dissatisfied :: _ =>
        let sigs := take (k + 1) stk in
        let stk := drop (k + 1) stk in
        let nonsat := length (filter (λ sig, sig = Dissatisfied) sigs) in
        if nonsat =? k + 1 then goon st (Dissatisfied :: stk)
        else fail st stk MissingExtraZeroMultiSig
    | [] => fail st stk UnexpectedStackEnd
    | _ => multi_turn ms 0 n_sat (subs !! (length subs - 1)) st stk
    end.

Definition multi_next (ms : Ms) (k : nat) (subs : list BitcoinKey) (n_ev n_sat : nat) st stk : turn :=
  if n_sat =? k then
    match stk with
    | Dissatisfied :: stk => goon st (Satisfied :: stk)
    | _ => fail st (tail stk) MissingExtraZeroMultiSig
    end
  else if n_ev =? length subs then fail st stk MultiSigEvaluationError
  else
    (* [subs.len() - n_evaluated - 1] *)
    if length subs <? n_ev + 1 then panic st stk
    else multi_turn ms n_ev n_sat (subs !! (length subs - n_ev - 1)) st stk.

Definition multi_a_turn (ms : Ms) (k : nat) (subs : list BitcoinKey) (n_ev n_sat : nat) st stk : turn :=
  if n_ev =? length subs then goon st (push_bool (n_sat =? k) stk)
  else
    match subs !! n_ev with
    | None => panic st stk
    | Some pk =>
        match evaluate_pk (verify_sig env) pk stk with
        | (stk, Some (Ok x)) =>
            let st := push_state st ms (S n_ev) (S n_sat) in
            match stk with
            | _ :: stk => (st, stk, Some (Ok x))
            | [] => fail st [] UnexpectedStackEnd
            end
        | (stk, None) =>
            pop_any (push_state st ms (S n_ev) n_sat) stk (λ _ stk,
              goon (push_state st ms (S n_ev) n_sat) stk)
        | (stk, x) => (st, stk, x)
        end
    end.

(** The body of the loop of [iter_next]: the node popped from the state, the rest. *)
Definition eval_node (ns : NodeEvaluationState) st stk : turn :=
  let ms := ns_node ns in
  let n_ev := n_evaluated ns in
  let n_sat := n_satisfied ns in
  let fresh := fresh_node ns st stk in
  match node ms with
  | TTrue => fresh (goon st (Satisfied :: stk))
  | TFalse => fresh (goon st (Dissatisfied :: stk))
  | PkK pk => fresh (leaf st (evaluate_pk (verify_sig env) pk stk))
  | PkH pk =>
      fresh (leaf st (evaluate_pkh (verify_sig env) (to_pubkeyhash pk (env_sig_type env))
                        (env_sig_type env) stk))
  | RawPkH pkh => fresh (leaf st (evaluate_pkh (verify_sig env) pkh (env_sig_type env) stk))
  | After n => fresh (leaf st (evaluate_after n (lock_time env) stk))
  | Older n => fresh (leaf st (evaluate_older n (age env) stk))
  | Sha256 hash => fresh (leaf st (evaluate_sha256 hash stk))
  | Hash256 hash => fresh (leaf st (evaluate_hash256 hash stk))
  | Hash160 hash => fresh (leaf st (evaluate_hash160 hash stk))
  | Ripemd160 hash => fresh (leaf st (evaluate_ripemd160 hash stk))
  | ExtT ext =>
      match ext_evaluate ext stk (txenv env) with
      | (stk, Ok true) => (st, stk, Some (Ok (CExt ext)))
      | (stk, Err e) => fail st stk e
      | (stk, Ok false) => goon st stk
      | (stk, Panic) => panic st stk
      end
  | Alt sub | Swap sub | Check sub => fresh (goon (push_state st sub 0 0) stk)
  | DupIf sub =>
      match n_ev with
      | 0 => pop_bool st stk (λ b stk,
               if b then goon (push_state (push_state st ms 1 1) sub 0 0) stk
               else goon st (Dissatisfied :: stk))
      | 1 => goon st (Satisfied :: stk)
      | _ => fail st stk CouldNotEvaluate
      end
  | ZeroNotEqual sub =>
      match n_ev with
      | 0 => goon (push_state (push_state st ms 1 0) sub 0 0) stk
      | 1 => pop_any st stk (λ e stk,
               goon st (push_bool (negb (bool_decide (e = Dissatisfied))) stk))
      | _ => fail st stk CouldNotEvaluate
      end
  | Verify sub =>
      match n_ev with
      | 0 => goon (push_state (push_state st ms 1 0) sub 0 0) stk
      | 1 => pop_any st stk (λ e stk,
               if bool_decide (e = Satisfied) then goon st stk else fail st stk VerifyFailed)
      | _ => fail st stk CouldNotEvaluate
      end
  | NonZero sub =>
      fresh (match stk with
             | Dissatisfied :: _ => goon st stk
             | _ :: _ => goon (push_state st sub 0 0) stk
             | [] => fail st [] UnexpectedStackEnd
             end)
  | AndV l r => fresh (goon (push_state (push_state st r 0 0) l 0 0) stk)
  | AndB l r =>
      match n_ev with
      | 0 => goon (push_state (push_state st ms 1 0) l 0 0) stk
      | 1 => pop_bool st stk (λ b stk,
               goon (push_state (push_state st ms 2 (if b then 1 else 0)) r 0 0) stk)
      | 2 => pop_any st stk (λ e stk,
               goon st (push_bool (bool_decide (e = Satisfied) && (n_sat =? 1)) stk))
      | _ => fail st stk CouldNotEvaluate
      end
  | OrB l r =>
      match n_ev with
      | 0 => goon (push_state (push_state st ms 1 0) l 0 0) stk
      | 1 => pop_bool st stk (λ b stk,
               goon (push_state (push_state st ms 2 (if b then 1 else 0)) r 0 0) stk)
      | 2 => pop_any st stk (λ e stk,
               goon st (push_bool (negb (bool_decide (e = Dissatisfied) && (n_sat =? 0))) stk))
      | _ => fail st stk CouldNotEvaluate
      end
  | OrC l r =>
      match n_ev with
      | 0 => goon (push_state (push_state st ms 1 0) l 0 0) stk
      | 1 => pop_bool st stk (λ b stk,
               if b then goon st stk else goon (push_state st r 0 0) stk)
      | _ => fail st stk CouldNotEvaluate
      end
  | OrD l r =>
      match n_ev with
      | 0 => goon (push_state (push_state st ms 1 0) l 0 0) stk
      | 1 => pop_bool st stk (λ b stk,
               if b then goon st (Satisfied :: stk) else goon (push_state st r 0 0) stk)
      | _ => fail st stk CouldNotEvaluate
      end
  | AndOr cond l r =>
      match n_ev with
      | 0 => goon (push_state (push_state st ms 1 0) cond 0 0) stk
      | _ => pop_bool st stk (λ b stk, goon (push_state st (if b then l else r) 0 0) stk)
      end
  | OrI l r =>
      pop_bool st stk (λ b stk, goon (push_state st (if b then l else r) 0 0) stk)
  | Thresh k subs =>
      if n_ev =? 0 then
        match subs !! 0 with
        | Some sub => goon (push_state (push_state st ms 1 0) sub 0 0) stk
        | None => panic st stk
        end
      else if n_ev =? length subs then thresh_end k n_sat st stk
      else pop_bool st stk (λ b stk,
             match subs !! n_ev with
             | Some sub =>
                 goon (push_state (push_state st ms (S n_ev) (if b then S n_sat else n_sat))
                         sub 0 0) stk
             | None => panic st stk
             end)
  | MultiA k subs => multi_a_turn ms k subs n_ev n_sat st stk
  | Multi k subs =>
      if n_ev =? 0 then multi_start ms k subs n_sat st stk
      else multi_next ms k subs n_ev n_sat st stk
  end.
End iter.
Arguments NodeEvaluationState {_ _} Ext.
Arguments Env {_ _}.
Arguments Iter {_ _} Ext.

(** *** The loop, the items and the whole iteration *)

Section run.
Context `{Signatures} `{LockTimes} {Ext : Type} `{!EvalExt Ext}.
Notation Ms := (Miniscript BitcoinKey Ext).
Notation C := (SatisfiedConstraint Ext).
Context (env : Env).
Implicit Types it : Iter Ext.

Definition with_stacks (it : Iter Ext) (st : list (NodeEvaluationState Ext)) (stk : Stack) : Iter Ext :=
  MkIter (public_key it) st stk (cov it) (has_errored it).

(** What [iter_next] does after the loop for a covenant: the twelve elements below the
    result are the signature, the sighash type and the pieces of the sighash message. *)
Definition cov_end (pk : BitcoinKey) it : option (result InterpError C) * Iter Ext :=
  let fail e it := (Some (Err e), it) in
  match stack it with
  | Satisfied :: stk =>
      let it := with_stacks it (state it) stk in
      if negb (length stk =? 12) then fail UnexpectedStackEnd it
      else
        let elems := rev stk in
        match try_map try_push elems with
        | Ok (sig_vec :: sighash_bytes :: _ as pushes) =>
            match slice_to_u32_le sighash_bytes with
            | Err _ | Panic => (Some Panic, it)
            | Ok sighash_u32 =>
                let ser_sig := sig_vec ++ [sighash_as_u8 (sighash_from_u32 sighash_u32)] in
                match verify_sersig (verify_sig env) pk ser_sig with
                | Ok sig =>
                    let it := MkIter (public_key it) (state it) stk None (has_errored it) in
                    let msg := sighash_message (concat (rev (tail pushes))) in
                    match sig with
                    | KsEcdsa ec_pk ecdsa_sig =>
                        if verify_ecdsa msg ecdsa_sig.1 ec_pk
                        then (Some (Ok (CPublicKey sig)), with_stacks it (state it) [Satisfied])
                        else fail (PkEvaluationError pk) it
                    | KsSchnorr _ _ => (Some Panic, it)
                    end
                | Err _ => fail (PkEvaluationError pk) it
                | Panic => (Some Panic, it)
                end
            end
        | Ok _ => (Some Panic, it)
        | Err e => fail e it
        | Panic => (Some Panic, it)
        end
  | stk => fail IncorrectCovenantWitness (with_stacks it (state it) (tail stk))
  end.

(** ... for an output that pays to a key, and for a script. *)
Definition pk_end (pk : BitcoinKey) it : option (result InterpError C) * Iter Ext :=
  match stack it with
  | Push sig :: stk =>
      match verify_sersig (verify_sig env) pk sig with
      | Ok key_sig =>
          (Some (Ok (CPublicKey key_sig)),
           MkIter None (state it) (Satisfied :: stk) (cov it) (has_errored it))
      | Err _ => (Some (Err (PkEvaluationError pk)), with_stacks it (state it) stk)
      | Panic => (Some Panic, with_stacks it (state it) stk)
      end
  | stk => (Some (Err UnexpectedStackEnd), with_stacks it (state it) (tail stk))
  end.

Definition script_end it : option (result InterpError C) * Iter Ext :=
  let it' := with_stacks it (state it) (tail (stack it)) in
  if bool_decide (stack it = [Satisfied]) then (None, it') else (Some (Err ScriptSatisfactionError), it').

Definition loop_end it : option (result InterpError C) * Iter Ext :=
  match cov it, public_key it with
  | Some pk, _ => cov_end pk it
  | None, Some pk => pk_end pk it
  | None, None => script_end it
  end.

(** [iter_next]: at most [fuel] turns of its loop. *)
Fixpoint iter_next (fuel : nat) it : option (option (result InterpError C) * Iter Ext) :=
  match state it with
  | [] => Some (loop_end it)
  | ns :: st =>
      match fuel with
      | O => None
      | S fuel =>
          match eval_node env ns st (stack it) with
          | (st, stk, None) => iter_next fuel (with_stacks it st stk)
          | (st, stk, Some r) => Some (Some r, with_stacks it st stk)
          end
      end
  end.

(** [Iterator::next] *)
Definition next_constraint (fuel : nat) it : option (option (result InterpError C) * Iter Ext) :=
  if has_errored it then Some (None, it)
  else
    match iter_next fuel it with
    | Some (Some (Err e), it) =>
        Some (Some (Err e), MkIter (public_key it) (state it) (stack it) (cov it) true)
    | r => r
    end.

(** The items up to the end of the iteration or to the first error. *)
Fixpoint collect (fuel : nat) it : option (list C * result InterpError unit) :=
  match fuel with
  | O => None
  | S fuel =>
      match next_constraint fuel it with
      | None => None
      | Some (None, _) => Some ([], Ok tt)
      | Some (Some (Ok c), it) =>
          match collect fuel it with
          | Some (cs, r) => Some (c :: cs, r)
          | None => None
          end
      | Some (Some (Err e), _) => Some ([], Err e)
      | Some (Some Panic, _) => Some ([], Panic)
      end
  end.

(** *** The state [iter_custom] starts from: [src/interpreter/inner.rs] *)

Inductive PubkeyType : Type := PtPk | PtPkh | PtWpkh | PtShWpkh | PtTr.
Inductive ScriptType : Type := StBare | StSh | StWsh | StShWsh | StTr.

Inductive Inner : Type :=
  | InPublicKey (pk : BitcoinKey) (t : PubkeyType)
  | InScript (ms : Ms) (t : ScriptType)
  | InCovScript (pk : BitcoinKey) (ms : Ms).

Definition iter_custom (inner : Inner) (stk : Stack) : Iter Ext := {|
  public_key := match inner with InPublicKey pk _ => Some pk | _ => None end;
  state := match inner with
           | InScript ms _ | InCovScript _ ms => [MkNode ms 0 0]
           | InPublicKey _ _ => []
           end;
  stack := stk;
  cov := match inner with InCovScript pk _ => Some pk | _ => None end;
  has_errored := false;
|}.

Definition is_legacy (inner : Inner) : bool :=
  match inner with
  | InPublicKey _ (PtPk | PtPkh) => true
  | InPublicKey _ (PtWpkh | PtShWpkh | PtTr) => false
  | InScript _ StSh => true
  | InScript _ (StBare | StWsh | StShWsh | StTr) => false
  | InCovScript _ _ => false
  end.

Definition is_segwit_v0 (inner : Inner) : bool :=
  match inner with
  | InPublicKey _ (PtWpkh | PtShWpkh) => true
  | InPublicKey _ (PtPk | PtPkh | PtTr) => false
  | InScript _ (StWsh | StShWsh) => true
  | InScript _ (StBare | StSh | StTr) => false
  | InCovScript _ _ => true
  end.

Definition is_taproot_v1_key_spend (inner : Inner) : bool :=
  match inner with InPublicKey _ PtTr => true | _ => false end.

Definition is_taproot_v1_script_spend (inner : Inner) : bool :=
  match inner with InScript _ StTr => true | _ => false end.

Definition inner_sig_type (inner : Inner) : SigType :=
  match inner with
  | InPublicKey _ PtTr | InScript _ StTr => Schnorr
  | _ => Ecdsa
  end.
End run.
Arguments Inner {_ _} Ext.
