(* ===== verification/InterpRefine.v ===== *)
(** * The iterator computes the reference evaluation

    The loop with its explicit stacks, its items and its fuel, against [interpret]. *)

From S2P Require Import Prelude Types Extension Property Ast Tokens Context ScriptNum Script Lex Interp.

(** ** A reference evaluator for the interpreter

    [ev] evaluates a Miniscript by recursion, without the stack of partially evaluated
    nodes: it returns the constraints in the order they are met and the stack that is
    left.  [interpret] is the verdict on a whole input.  The iterator of [Interp.v] is
    shown to compute it, with fuel linear in the size of the Miniscript. *)

Section ev.
Context `{Signatures} `{LockTimes} {Ext : Type} `{!EvalExt Ext}.
Notation Ms := (Miniscript BitcoinKey Ext).
Notation C := (SatisfiedConstraint Ext).
Context (env : Env).

(** The constraints met so far, and the stack or how the evaluation failed. *)
Definition eval_result : Type := list C * result InterpError Stack.

Definition ebind (x : eval_result) (f : Stack → eval_result) : eval_result :=
  match x with
  | (cs, Ok stk) => let '(cs', r) := f stk in (cs ++ cs', r)
  | (cs, Err e) => (cs, Err e)
  | (cs, Panic) => (cs, Panic)
  end.

Definition eok (stk : Stack) : eval_result := ([], Ok stk).
Definition eerr (e : InterpError) : eval_result := ([], Err e).
Definition epanic : eval_result := ([], Panic).

Definition of_leaf (r : Stack * option (result InterpError C)) : eval_result :=
  match r with
  | (stk, None) => eok stk
  | (stk, Some (Ok c)) => ([c], Ok stk)
  | (_, Some (Err e)) => eerr e
  | (_, Some Panic) => epanic
  end.

Definition epop (stk : Stack) (k : Element → Stack → eval_result) : eval_result :=
  match stk with
  | e :: stk => k e stk
  | [] => eerr UnexpectedStackEnd
  end.

Definition epop_bool (stk : Stack) (k : bool → Stack → eval_result) : eval_result :=
  epop stk (λ e stk,
    match e with
    | Satisfied => k true stk
    | Dissatisfied => k false stk
    | Push _ => eerr UnexpectedStackElementPush
    end).

(** [multi]: the keys in the order they are tried, the last one first. *)
Fixpoint multi_eval (k n_sat : nat) (keys : list BitcoinKey) (stk : Stack) : eval_result :=
  if n_sat =? k then
    match stk with
    | Dissatisfied :: stk => eok (Satisfied :: stk)
    | _ => eerr MissingExtraZeroMultiSig
    end
  else
    match keys with
    | [] => eerr MultiSigEvaluationError
    | pk :: keys =>
        match evaluate_multi (verify_sig env) pk stk with
        | (stk, Some (Ok x)) => ebind ([x], Ok stk) (multi_eval k (S n_sat) keys)
        | (stk, None) => multi_eval k n_sat keys stk
        | r => of_leaf r
        end
    end.

Definition multi_first (k : nat) (subs : list BitcoinKey) (stk : Stack) : eval_result :=
  match rev subs with
  | [] => epanic
  | pk :: keys =>
      match evaluate_multi (verify_sig env) pk stk with
      | (stk, Some (Ok x)) => ebind ([x], Ok stk) (multi_eval k 1 keys)
      | (stk, None) => multi_eval k 0 keys stk
      | r => of_leaf r
      end
  end.

Definition multi_ev (k : nat) (subs : list BitcoinKey) (stk : Stack) : eval_result :=
  if length stk <? k + 1 then eerr InsufficientSignaturesMultiSig
  else
    match stk with
    | Dissatisfied :: _ =>
        if length (filter (λ sig, sig = Dissatisfied) (take (k + 1) stk)) =? k + 1
        then eok (Dissatisfied :: drop (k + 1) stk)
        else eerr MissingExtraZeroMultiSig
    | [] => eerr UnexpectedStackEnd
    | _ => multi_first k subs stk
    end.

Fixpoint multi_a_ev (k n_sat : nat) (keys : list BitcoinKey) (stk : Stack) : eval_result :=
  match keys with
  | [] => eok (push_bool (n_sat =? k) stk)
  | pk :: keys =>
      match evaluate_pk (verify_sig env) pk stk with
      | (_ :: stk, Some (Ok x)) => ebind ([x], Ok stk) (multi_a_ev k (S n_sat) keys)
      | ([], Some (Ok _)) => eerr UnexpectedStackEnd
      | (stk, None) => epop stk (λ _, multi_a_ev k n_sat keys)
      | r => of_leaf r
      end
  end.

Definition thresh_final (k n_sat : nat) (stk : Stack) : eval_result :=
  epop_bool stk (λ b stk,
    if b then if k =? 0 then epanic else eok (push_bool (n_sat =? k - 1) stk)
    else eok (push_bool (n_sat =? k) stk)).

Section thresh.
Context (evf : Ms → Stack → eval_result) (k : nat).
Fixpoint thresh_ev (n_sat : nat) (subs : list Ms) (stk : Stack) : eval_result :=
  match subs with
  | [] => thresh_final k n_sat stk
  | s :: subs =>
      epop_bool stk (λ b stk,
        ebind (evf s stk) (thresh_ev (if b then S n_sat else n_sat) subs))
  end.
End thresh.

Fixpoint ev (ms : Ms) (stk : Stack) : eval_result :=
  let '(MkMs t _ _) := ms in
  match t with
  | TTrue => eok (Satisfied :: stk)
  | TFalse => eok (Dissatisfied :: stk)
  | PkK pk => of_leaf (evaluate_pk (verify_sig env) pk stk)
  | PkH pk =>
      of_leaf (evaluate_pkh (verify_sig env) (to_pubkeyhash pk (env_sig_type env))
                 (env_sig_type env) stk)
  | RawPkH pkh => of_leaf (evaluate_pkh (verify_sig env) pkh (env_sig_type env) stk)
  | After n => of_leaf (evaluate_after n (lock_time env) stk)
  | Older n => of_leaf (evaluate_older n (age env) stk)
  | Sha256 hash => of_leaf (evaluate_sha256 hash stk)
  | Hash256 hash => of_leaf (evaluate_hash256 hash stk)
  | Hash160 hash => of_leaf (evaluate_hash160 hash stk)
  | Ripemd160 hash => of_leaf (evaluate_ripemd160 hash stk)
  | ExtT e =>
      match ext_evaluate e stk (txenv env) with
      | (stk, Ok true) => ([CExt e], Ok stk)
      | (stk, Ok false) => eok stk
      | (_, Err e) => eerr e
      | (_, Panic) => epanic
      end
  | Alt sub | Swap sub | Check sub => ev sub stk
  | DupIf sub =>
      epop_bool stk (λ b stk,
        if b then ebind (ev sub stk) (λ stk, eok (Satisfied :: stk))
        else eok (Dissatisfied :: stk))
  | ZeroNotEqual sub =>
      ebind (ev sub stk) (λ stk,
        epop stk (λ e stk, eok (push_bool (negb (bool_decide (e = Dissatisfied))) stk)))
  | Verify sub =>
      ebind (ev sub stk) (λ stk,
        epop stk (λ e stk, if bool_decide (e = Satisfied) then eok stk else eerr VerifyFailed))
  | NonZero sub =>
      match stk with
      | Dissatisfied :: _ => eok stk
      | _ :: _ => ev sub stk
      | [] => eerr UnexpectedStackEnd
      end
  | AndV l r => ebind (ev l stk) (ev r)
  | AndB l r =>
      ebind (ev l stk) (λ stk, epop_bool stk (λ a stk,
        ebind (ev r stk) (λ stk, epop stk (λ e stk,
          eok (push_bool (bool_decide (e = Satisfied) && a) stk)))))
  | OrB l r =>
      ebind (ev l stk) (λ stk, epop_bool stk (λ a stk,
        ebind (ev r stk) (λ stk, epop stk (λ e stk,
          eok (push_bool (negb (bool_decide (e = Dissatisfied)) || a) stk)))))
  | OrC l r =>
      ebind (ev l stk) (λ stk, epop_bool stk (λ a stk, if a then eok stk else ev r stk))
  | OrD l r =>
      ebind (ev l stk) (λ stk,
        epop_bool stk (λ a stk, if a then eok (Satisfied :: stk) else ev r stk))
  | AndOr a b c =>
      ebind (ev a stk) (λ stk, epop_bool stk (λ x stk, if x then ev b stk else ev c stk))
  | OrI l r => epop_bool stk (λ b stk, if b then ev l stk else ev r stk)
  | Thresh k subs =>
      match subs with
      | [] => epanic
      | s :: subs => ebind (ev s stk) (thresh_ev ev k 0 subs)
      end
  | MultiA k subs => multi_a_ev k 0 subs stk
  | Multi k subs => multi_ev k subs stk
  end.

(** After the loop: the item the end of [iter_next] returns, and then the verdict on the
    stack. *)
Definition script_verdict (stk : Stack) : result InterpError unit :=
  if bool_decide (stk = [Satisfied]) then Ok tt else Err ScriptSatisfactionError.

Definition finish (it : Iter Ext) : list C * result InterpError unit :=
  match loop_end env it with
  | (None, _) => ([], Ok tt)
  | (Some (Ok c), it) => ([c], script_verdict (stack it))
  | (Some (Err e), _) => ([], Err e)
  | (Some Panic, _) => ([], Panic)
  end.

(** The reference evaluation of an input. *)
Definition interpret (inner : Inner Ext) (stk : Stack) : list C * result InterpError unit :=
  let it := iter_custom inner stk in
  match inner with
  | InPublicKey _ _ => finish it
  | InScript ms _ | InCovScript _ ms =>
      match ev ms stk with
      | (cs, Ok stk) => let '(cs', r) := finish (with_stacks it [] stk) in (cs ++ cs', r)
      | (cs, Err e) => (cs, Err e)
      | (cs, Panic) => (cs, Panic)
      end
  end.

(** How often the loop pops a node at most, and the fuel for a Miniscript. *)
Definition visits (t : Terminal BitcoinKey Ext) : nat :=
  match t with
  | Multi _ pks => length pks + 2
  | MultiA _ pks => length pks + 1
  | Thresh _ subs => length subs + 1
  | _ => 3
  end.

Definition iter_cost (ms : Ms) : nat :=
  cata (λ ms costs, visits (node ms) + sum_list costs) ms.

Definition inner_fuel (inner : Inner Ext) : nat :=
  match inner with
  | InPublicKey _ _ => 2
  | InScript ms _ | InCovScript _ ms => iter_cost ms + 2
  end.
End ev.

(** ** The iterator computes the reference evaluation

    The loop with its explicit stacks, its items and its fuel, against [interpret]. *)

Section refine.
Context `{Signatures} `{LockTimes} {Ext : Type} `{!EvalExt Ext}.
Notation Ms := (Miniscript BitcoinKey Ext).
Notation C := (SatisfiedConstraint Ext).
Context (env : Env).
Implicit Types (it : Iter Ext) (st : list (NodeEvaluationState Ext)) (stk : Stack).

(** ** Fuel *)

Lemma iter_next_mono n m it r : n ≤ m → iter_next env n it = Some r → iter_next env m it = Some r.
Proof.
  revert m it. induction n as [|n IH]; intros m it Hle.
  - destruct m as [|m]; [done|]. cbn [iter_next]. by destruct (state it).
  - destruct m as [|m]; [lia|]. cbn [iter_next]. destruct (state it) as [|ns st]; [done|].
    destruct (eval_node env ns st (stack it)) as [[st' stk'] [x|]]; [done|]. apply IH. lia.
Qed.

Lemma next_constraint_mono n m it r :
  n ≤ m → next_constraint env n it = Some r → next_constraint env m it = Some r.
Proof.
  unfold next_constraint. destruct (has_errored it); [done|]. intros Hle.
  destruct (iter_next env n it) as [x|] eqn:Hn; [|done].
  by rewrite (iter_next_mono n m it x Hle Hn).
Qed.

Lemma collect_mono n m it r : n ≤ m → collect env n it = Some r → collect env m it = Some r.
Proof.
  revert m it r. induction n as [|n IH]; intros m it r Hle; [done|].
  destruct m as [|m]; [lia|]. cbn [collect].
  destruct (next_constraint env n it) as [x|] eqn:Hn; [|done].
  rewrite (next_constraint_mono n m it x) by (done || lia).
  destruct x as [[[c|e|]|] it']; [|done..].
  destruct (collect env n it') as [x|] eqn:Hc; [|done].
  by rewrite (IH m it' x) by (done || lia).
Qed.

(** ** One turn of the loop

    [runs n it st stk out]: with fuel [n], the iteration from these stacks yields [out]. *)
Definition runs (n : nat) it st stk (out : list C * result InterpError unit) : Prop :=
  collect env n (with_stacks it st stk) = Some out.

Definition turned (n : nat) it (t : turn (Ext := Ext)) (out : list C * result InterpError unit) : Prop :=
  match t with
  | (st, stk, None) => runs n it st stk out
  | (st, stk, Some (Ok c)) => ∃ cs r, runs n it st stk (cs, r) ∧ out = (c :: cs, r)
  | (_, _, Some (Err e)) => out = ([], Err e)
  | (_, _, Some Panic) => out = ([], Panic)
  end.

Lemma collect_pos n it out : collect env n it = Some out → ∃ m, n = S m.
Proof. destruct n; [done|eauto]. Qed.

Lemma collect_S n it :
  collect env (S n) it =
  match next_constraint env n it with
  | None => None
  | Some (None, _) => Some ([], Ok tt)
  | Some (Some (Ok c), it) =>
      match collect env n it with Some (cs, r) => Some (c :: cs, r) | None => None end
  | Some (Some (Err e), _) => Some ([], Err e)
  | Some (Some Panic, _) => Some ([], Panic)
  end.
Proof. done. Qed.

Lemma next_constraint_S n it ns st stk :
  has_errored it = false →
  next_constraint env (S n) (with_stacks it (ns :: st) stk) =
  match eval_node env ns st stk with
  | (st, stk, None) => next_constraint env n (with_stacks it st stk)
  | (st, stk, Some (Err e)) =>
      Some (Some (Err e), MkIter (public_key it) st stk (cov it) true)
  | (st, stk, Some r) => Some (Some r, with_stacks it st stk)
  end.
Proof.
  intros He. unfold next_constraint, with_stacks. cbn. rewrite He.
  by destruct (eval_node env ns st stk) as [[st' stk'] [[c|e|]|]].
Qed.

Lemma runs_turn n it ns st stk out :
  has_errored it = false → 1 ≤ n → turned n it (eval_node env ns st stk) out →
  runs (S n) it (ns :: st) stk out.
Proof.
  intros He Hn. destruct n as [|n]; [lia|]. unfold runs, turned.
  rewrite (collect_S (S n)), next_constraint_S by done.
  destruct (eval_node env ns st stk) as [[st' stk'] [[c|e|]|]].
  - intros (cs & r & Hr & ->). by rewrite Hr.
  - by intros ->.
  - by intros ->.
  - unfold runs. rewrite collect_S.
    destruct (next_constraint env n _) as [x|] eqn:Hx; [|done].
    destruct x as [[[c|e|]|] it']; try done.
    destruct (collect env n it') as [x|] eqn:Hc; [|done].
    by rewrite (collect_mono n (S n) it' x) by (done || lia).
Qed.

(** ** From a turn to the evaluation *)

Definition after (n : nat) it st (x : eval_result (Ext := Ext)) (out : list C * result InterpError unit) : Prop :=
  match x with
  | (cs, Ok stk) => ∃ cs' r, runs n it st stk (cs', r) ∧ out = (cs ++ cs', r)
  | (cs, Err e) => out = (cs, Err e)
  | (cs, Panic) => out = (cs, Panic)
  end.

Lemma after_bind n m it st st' x f out :
  after n it st (ebind x f) out →
  (∀ stk out', after n it st (f stk) out' → runs m it st' stk out') →
  after m it st' x out.
Proof.
  intros Hx Hf. destruct x as [cs [stk|e|]]; cbn in *; [|done..].
  specialize (Hf stk). destruct (f stk) as [cs' r]. cbn in Hx. destruct r as [stk'|e|]; cbn in *.
  - destruct Hx as (cs'' & r & Hr & ->). exists (cs' ++ cs''), r.
    split; [|by rewrite app_assoc]. apply Hf. eauto.
  - subst. exists cs', (Err e). by split; [apply Hf|].
  - subst. exists cs', Panic. by split; [apply Hf|].
Qed.

Lemma after_ok n it st stk out : after n it st (eok stk) out → runs n it st stk out.
Proof. by intros (cs & r & Hr & ->). Qed.

Lemma turned_leaf n it st r out : after n it st (of_leaf r) out → turned n it (leaf st r) out.
Proof.
  destruct r as [stk [[c|e|]|]]; cbn; [|done..|].
  - intros (cs & r & ? & ->). eauto.
  - by intros (cs & r & ? & ->).
Qed.

Lemma turned_goon n it st stk out : runs n it st stk out → turned n it (goon st stk) out.
Proof. done. Qed.

Lemma turned_pop_bool n it st stk k k' out m :
  after m it st (epop_bool stk k') out →
  (∀ b stk', after m it st (k' b stk') out → turned n it (k b stk') out) →
  turned n it (pop_bool st stk k) out.
Proof. destruct stk as [|[| |b] stk]; cbn; eauto. Qed.

Lemma turned_pop_any n it st st' stk k k' out m :
  after m it st (epop stk k') out →
  (∀ e stk', after m it st (k' e stk') out → turned n it (k e stk') out) →
  turned n it (pop_any st' stk k) out.
Proof. destruct stk as [|e stk]; cbn; eauto. Qed.

Lemma runs_mono n m it st stk out : n ≤ m → runs n it st stk out → runs m it st stk out.
Proof. apply collect_mono. Qed.

Lemma runs_turn' n m it ns st stk out :
  has_errored it = false → 1 ≤ n → S n ≤ m → turned n it (eval_node env ns st stk) out →
  runs m it (ns :: st) stk out.
Proof. intros. eapply runs_mono; [|by apply runs_turn with (n := n)]. lia. Qed.

(** What is proved of a Miniscript, by induction: from its node the iteration goes on the
    way the evaluation does. *)
Definition evals (ms : Ms) : Prop :=
  ∀ n it st stk out, has_errored it = false → 1 ≤ n →
    after n it st (ev env ms stk) out →
    runs (n + iter_cost ms) it (MkNode ms 0 0 :: st) stk out.

Lemma iter_cost_unfold (t : Terminal BitcoinKey Ext) mty mext :
  iter_cost (MkMs t mty mext) = visits t + sum_list (map iter_cost (children t)).
Proof. unfold iter_cost. by rewrite cata_unfold. Qed.

(** A child on top of a state. *)
Lemma evals_child s n n' m it st st' stk f out :
  evals s → has_errored it = false → 1 ≤ n' → n' + iter_cost s ≤ m →
  after n it st (ebind (ev env s stk) f) out →
  (∀ stk out', after n it st (f stk) out' → runs n' it st' stk out') →
  runs m it (MkNode s 0 0 :: st') stk out.
Proof.
  intros Hs He Hn Hm Hx Hf. eapply runs_mono; [exact Hm|]. apply Hs; [done..|].
  by eapply after_bind.
Qed.

Lemma after_mono n m it st x out : n ≤ m → after n it st x out → after m it st x out.
Proof.
  intros Hle. destruct x as [cs [stk|e|]]; cbn; [|done..].
  intros (cs' & r & Hr & ->). exists cs', r. split; [by eapply runs_mono|done].
Qed.

(** A child whose evaluation is followed by another turn of its parent. *)
Lemma evals_then s ns n n' m it st stk f out :
  evals s → has_errored it = false → 1 ≤ n → 1 ≤ n' → S n' + iter_cost s ≤ m →
  after n it st (ebind (ev env s stk) f) out →
  (∀ stk out', after n it st (f stk) out' → turned n' it (eval_node env ns st stk) out') →
  runs m it (MkNode s 0 0 :: ns :: st) stk out.
Proof.
  intros Hs He Hn Hn' Hm Hx Hf. eapply runs_mono; [exact Hm|]. apply Hs; [done|lia|].
  eapply after_bind; [exact Hx|]. intros stk' out' Hout.
  apply runs_turn' with (n := n'); [done..|]. by apply Hf.
Qed.

Lemma evals_last s n m it st stk out :
  evals s → has_errored it = false → 1 ≤ n → n + iter_cost s ≤ m →
  after n it st (ev env s stk) out → runs m it (MkNode s 0 0 :: st) stk out.
Proof. intros Hs He Hn Hm Hx. eapply runs_mono; [exact Hm|]. by apply Hs. Qed.

(** *** Thresholds *)

Lemma turned_thresh_end n m it st stk k n_sat out :
  n ≤ m → after n it st (thresh_final k n_sat stk) out →
  turned m it (thresh_end k n_sat st stk) out.
Proof.
  intros Hle. unfold thresh_final, thresh_end. destruct stk as [|[| |b] stk]; cbn; [done| | |done].
  - destruct (k =? 0); [done|]. intros Hx%after_ok. by eapply runs_mono.
  - intros Hx%after_ok. by eapply runs_mono.
Qed.

Lemma runs_thresh k all mty mext n it st rest :
  has_errored it = false → 1 ≤ n → Forall evals rest →
  ∀ pre n_sat stk out, all = pre ++ rest → pre ≠ [] →
    after n it st (thresh_ev (ev env) k n_sat rest stk) out →
    runs (S n + length rest + sum_list (map iter_cost rest)) it
      (MkNode (MkMs (Thresh k all) mty mext) (length pre) n_sat :: st) stk out.
Proof.
  intros He Hn Hall. induction Hall as [|s rest Hs _ IH]; intros pre n_sat stk out Heq Hpre Hx.
  - rewrite app_nil_r in Heq. subst pre. apply runs_turn' with (n := n); [done|done|cbn; lia|].
    unfold eval_node. cbn [ns_node n_evaluated n_satisfied node]. rewrite Nat.eqb_refl.
    destruct all as [|a all]; [done|]. cbn [length Nat.eqb].
    eapply turned_thresh_end; [|exact Hx]; lia.
  - assert (length pre ≠ 0) as Hpre' by by destruct pre.
    apply runs_turn' with (n := n + 1 + length rest + sum_list (map iter_cost (s :: rest)));
      [done|lia|cbn; lia|].
    unfold eval_node. cbn [ns_node n_evaluated n_satisfied node].
    rewrite (proj2 (Nat.eqb_neq (length pre) 0)), (proj2 (Nat.eqb_neq (length pre) (length all)))
      by (done || (subst all; rewrite length_app; simpl; lia)).
    eapply turned_pop_bool; [exact Hx|]. intros b stk' Hx'.
    assert (all !! length pre = Some s) as -> by (subst all; by apply list_lookup_middle).
    apply turned_goon. unfold push_state. eapply runs_mono; [|apply Hs; [done| |]].
    3: { eapply after_bind; [exact Hx'|]. intros stk'' out' Hx''.
      rewrite <-(Nat.add_1_r (length pre)). change 1 with (length [s]). rewrite <-length_app.
      eapply IH; [by rewrite <-app_assoc|by destruct pre|exact Hx'']. }
    + cbn. lia.
    + lia.
Qed.

(** *** Multisigs *)

Lemma rev_lookup_next {A} (l pre keys : list A) pk :
  rev l = pre ++ pk :: keys → l !! (length l - length pre - 1) = Some pk.
Proof.
  intros Hr. apply (f_equal (@rev A)) in Hr. rewrite rev_involutive in Hr.
  rewrite rev_app_distr in Hr. cbn in Hr. rewrite <-app_assoc in Hr. subst l.
  apply list_lookup_middle. rewrite !length_app, !length_rev. cbn [length]. lia.
Qed.

Lemma turned_multi n m it st stk ms n_ev n_sat pk (f : nat → Stack → eval_result) out :
  (∀ n_sat stk out, after n it st (f n_sat stk) out →
     runs m it (MkNode ms (S n_ev) n_sat :: st) stk out) →
  after n it st
    match evaluate_multi (verify_sig env) pk stk with
    | (stk, Some (Ok x)) => ebind ([x], Ok stk) (f (S n_sat))
    | (stk, None) => f n_sat stk
    | r => of_leaf r
    end out →
  turned m it (multi_turn env ms n_ev n_sat (Some pk) st stk) out.
Proof.
  intros Hf. unfold multi_turn.
  destruct (evaluate_multi (verify_sig env) pk stk) as [stk' [[x|e|]|]]; [|done|done|apply Hf].
  intros Hx. unfold turned. assert (after m it (MkNode ms (S n_ev) (S n_sat) :: st) ([x], Ok stk') out) as Hy.
  { eapply after_bind; [exact Hx|]. intros. by apply Hf. }
  destruct Hy as (cs & r & Hr & ->). eauto.
Qed.

Lemma runs_multi k all mty mext n it st keys :
  has_errored it = false → 1 ≤ n →
  ∀ pre n_sat stk out, rev all = pre ++ keys → pre ≠ [] →
    after n it st (multi_eval env k n_sat keys stk) out →
    runs (S n + length keys) it (MkNode (MkMs (Multi k all) mty mext) (length pre) n_sat :: st) stk out.
Proof.
  intros He Hn. induction keys as [|pk keys IH]; intros pre n_sat stk out Heq Hpre Hx;
    [apply runs_turn' with (n := n)|apply runs_turn' with (n := n + S (length keys))];
    try (done || cbn; lia); unfold eval_node; cbn [ns_node n_evaluated n_satisfied node];
    rewrite (proj2 (Nat.eqb_neq (length pre) 0)) by (by destruct pre);
    unfold multi_next; cbn [multi_eval] in Hx.
  - assert (length pre = length all) as ->.
    { apply (f_equal length) in Heq. by rewrite length_rev, app_nil_r in Heq. }
    destruct (n_sat =? k); [|rewrite Nat.eqb_refl; done].
    destruct stk as [|[| |b] stk]; try done. apply after_ok in Hx. eapply runs_mono; [|exact Hx]. cbn; lia.
  - assert (length all = length pre + S (length keys)) as Hlen.
    { apply (f_equal length) in Heq. by rewrite length_rev, length_app in Heq. }
    destruct (n_sat =? k).
    { destruct stk as [|[| |b] stk]; try done. apply after_ok in Hx. eapply runs_mono; [|exact Hx]. cbn; lia. }
    rewrite (proj2 (Nat.eqb_neq (length pre) (length all))), (proj2 (Nat.ltb_ge _ _)) by lia.
    rewrite (rev_lookup_next all pre keys pk) by done.
    apply turned_multi with (n := n) (f := λ n_sat, multi_eval env k n_sat keys); [|exact Hx].
    intros n_sat' stk' out' Hx'.
    rewrite <-(Nat.add_1_r (length pre)). change 1 with (length [pk]). rewrite <-length_app.
    eapply runs_mono; [|eapply IH; [by rewrite <-app_assoc|by destruct pre|exact Hx']]. cbn; lia.
Qed.

Lemma turned_multi_start k all mty mext n it st stk out :
  has_errored it = false → 1 ≤ n → after n it st (multi_ev env k all stk) out →
  turned (n + length all) it (multi_start env (MkMs (Multi k all) mty mext) k all 0 st stk) out.
Proof.
  intros He Hn. unfold multi_ev, multi_start. destruct (length stk <? k + 1); [done|].
  assert (after n it st (multi_first env k all stk) out →
    turned (n + length all) it
      (multi_turn env (MkMs (Multi k all) mty mext) 0 0 (all !! (length all - 1)) st stk) out) as Hfirst.
  { unfold multi_first. destruct (rev all) as [|pk keys] eqn:Hr.
    { apply (f_equal (@rev BitcoinKey)) in Hr. rewrite rev_involutive in Hr. by subst all. }
    pose proof (rev_lookup_next all [] keys pk Hr) as Hk. cbn [length] in Hk.
    rewrite Nat.sub_0_r in Hk. rewrite Hk.
    apply turned_multi with (n := n) (f := λ n_sat, multi_eval env k n_sat keys).
    intros n_sat' stk' out' Hx'. change 1 with (length [pk]).
    eapply runs_mono; [|apply runs_multi with (keys := keys) (n := n); [done|done|done|done|exact Hx']].
    apply (f_equal length) in Hr. rewrite length_rev in Hr. cbn in *. lia. }
  destruct stk as [|[| |b] stk]; [done|exact Hfirst| |exact Hfirst].
  case_match; [|done]. intros Hx%after_ok. apply turned_goon. eapply runs_mono; [|exact Hx]. lia.
Qed.

Lemma runs_multi_a k all mty mext n it st keys :
  has_errored it = false → 1 ≤ n →
  ∀ pre n_sat stk out, all = pre ++ keys →
    after n it st (multi_a_ev env k n_sat keys stk) out →
    runs (S n + length keys) it (MkNode (MkMs (MultiA k all) mty mext) (length pre) n_sat :: st) stk out.
Proof.
  intros He Hn. induction keys as [|pk keys IH]; intros pre n_sat stk out Heq Hx;
    [apply runs_turn' with (n := n)|apply runs_turn' with (n := n + S (length keys))];
    try (done || cbn; lia); unfold eval_node; cbn [ns_node n_evaluated n_satisfied node];
    unfold multi_a_turn; cbn [multi_a_ev] in Hx.
  { rewrite app_nil_r in Heq. subst. rewrite Nat.eqb_refl. by apply after_ok in Hx. }
  assert (length all = length pre + S (length keys)) as Hlen by (subst; by rewrite length_app).
  rewrite (proj2 (Nat.eqb_neq (length pre) (length all))) by lia.
  assert (all !! length pre = Some pk) as -> by (subst; by apply list_lookup_middle).
  assert (∀ n_sat stk out, after n it st (multi_a_ev env k n_sat keys stk) out →
    runs (n + S (length keys)) it
      (MkNode (MkMs (MultiA k all) mty mext) (S (length pre)) n_sat :: st) stk out) as Hnext.
  { intros n_sat' stk' out' Hx'. rewrite <-(Nat.add_1_r (length pre)). change 1 with (length [pk]).
    rewrite <-length_app. eapply runs_mono; [|eapply IH; [|exact Hx']]; [lia|].
    by rewrite <-app_assoc. }
  destruct (evaluate_pk (verify_sig env) pk stk) as [stk' [[x|e|]|]];
    [|by destruct stk'|by destruct stk'|].
  - destruct stk' as [|e stk']; [done|]. unfold turned.
    assert (after (n + S (length keys)) it
      (MkNode (MkMs (MultiA k all) mty mext) (S (length pre)) (S n_sat) :: st) ([x], Ok stk') out) as Hy.
    { eapply after_bind; [exact Hx|]. intros. by apply Hnext. }
    destruct Hy as (cs & r & Hr & ->). eauto.
  - destruct stk' as [|e stk']; [done|]. apply turned_goon. by apply Hnext.
Qed.

(** *** Every node *)

(** Opens a node with one child less to run after its first turn. *)
Ltac open_node :=
  intros n it st stk out He Hn Hx; rewrite iter_cost_unfold; cbn [children visits map sum_list sum_list_with foldr] in *.

Ltac turn k := eapply (runs_turn' k); [assumption|lia|cbn; lia|];
  unfold eval_node, push_state; cbn [ns_node n_evaluated n_satisfied node fresh_node Nat.eqb andb].

Lemma evals_all ms : evals ms.
Proof.
  induction ms as [t mty mext IH] using Miniscript_tree_ind.
  destruct t; cbn [children] in IH; rewrite ?Forall_cons_iff in IH;
    repeat match goal with Hx : _ ∧ _ |- _ => destruct Hx end; open_node; cbn [ev] in Hx;
    try (turn n; by first [apply turned_leaf|apply after_ok in Hx]).
  - (* Alt *) turn (n + iter_cost sub). by apply (evals_last sub n).
  - turn (n + iter_cost sub). by apply (evals_last sub n).
  - turn (n + iter_cost sub). by apply (evals_last sub n).
  - (* DupIf *)
    turn (n + 1 + iter_cost sub). eapply turned_pop_bool; [exact Hx|]. intros [] stk' Hx'; cbn in Hx'.
    + apply turned_goon. eapply (evals_then sub _ n n); [done..|lia|exact Hx'|].
      intros stk'' out' Hx''. by apply after_ok in Hx''.
    + apply after_ok in Hx'. apply turned_goon. eapply runs_mono; [|exact Hx']. lia.
  - (* Verify *)
    turn (n + 1 + iter_cost sub). eapply (evals_then sub _ n n); [done..|lia|exact Hx|].
    intros stk' out' Hx'. eapply turned_pop_any; [exact Hx'|]. intros e stk'' Hx''. cbn in Hx''.
    case_bool_decide; [|done]. by apply after_ok in Hx''.
  - (* NonZero *)
    turn (n + iter_cost sub). destruct stk as [|[| |b] stk]; [done|by apply (evals_last sub n)| |by apply (evals_last sub n)].
    apply after_ok in Hx. apply turned_goon. eapply runs_mono; [|exact Hx]. lia.
  - (* ZeroNotEqual *)
    turn (n + 1 + iter_cost sub). eapply (evals_then sub _ n n); [done..|lia|exact Hx|].
    intros stk' out' Hx'. eapply turned_pop_any; [exact Hx'|]. intros e stk'' Hx''.
    by apply after_ok in Hx''.
  - (* AndV *)
    turn (n + iter_cost l + iter_cost r).
    eapply (evals_child l n (n + iter_cost r)); [done..|lia|lia|exact Hx|].
    intros stk' out' Hx'. by apply (evals_last r n).
  - (* AndB *)
    turn (n + 2 + iter_cost l + iter_cost r).
    eapply (evals_then l _ n (n + 1 + iter_cost r)); [done..|lia|lia|exact Hx|].
    intros stk' out' Hx'. eapply turned_pop_bool; [exact Hx'|]. intros a stk'' Hx''. cbn in Hx''.
    eapply (evals_then r _ n n); [done..|lia|exact Hx''|].
    intros stk3 out3 Hx3. eapply turned_pop_any; [exact Hx3|]. intros e stk4 Hx4.
    apply after_ok in Hx4. by destruct a.
  - (* AndOr *)
    turn (n + 1 + iter_cost a + iter_cost b + iter_cost c).
    eapply (evals_then a _ n (n + iter_cost b + iter_cost c)); [done..|lia|lia|exact Hx|].
    intros stk' out' Hx'. eapply turned_pop_bool; [exact Hx'|]. intros x stk'' Hx''. cbn in Hx''.
    apply turned_goon. destruct x; eapply (evals_last _ n); done || lia.
  - (* OrB *)
    turn (n + 2 + iter_cost l + iter_cost r).
    eapply (evals_then l _ n (n + 1 + iter_cost r)); [done..|lia|lia|exact Hx|].
    intros stk' out' Hx'. eapply turned_pop_bool; [exact Hx'|]. intros a stk'' Hx''. cbn in Hx''.
    eapply (evals_then r _ n n); [done..|lia|exact Hx''|].
    intros stk3 out3 Hx3. eapply turned_pop_any; [exact Hx3|]. intros e stk4 Hx4.
    apply after_ok in Hx4. by destruct a, e.
  - (* OrD *)
    turn (n + 1 + iter_cost l + iter_cost r).
    eapply (evals_then l _ n (n + iter_cost r)); [done..|lia|lia|exact Hx|].
    intros stk' out' Hx'. eapply turned_pop_bool; [exact Hx'|]. intros x stk'' Hx''. cbn in Hx''.
    destruct x; apply turned_goon; [|by apply (evals_last r n)].
    apply after_ok in Hx''. eapply runs_mono; [|exact Hx'']. lia.
  - (* OrC *)
    turn (n + 1 + iter_cost l + iter_cost r).
    eapply (evals_then l _ n (n + iter_cost r)); [done..|lia|lia|exact Hx|].
    intros stk' out' Hx'. eapply turned_pop_bool; [exact Hx'|]. intros x stk'' Hx''. cbn in Hx''.
    destruct x; apply turned_goon; [|by apply (evals_last r n)].
    apply after_ok in Hx''. eapply runs_mono; [|exact Hx'']. lia.
  - (* OrI *)
    turn (n + iter_cost l + iter_cost r). eapply turned_pop_bool; [exact Hx|].
    intros x stk' Hx'. cbn in Hx'. apply turned_goon. destruct x; eapply (evals_last _ n); done || lia.
  - (* Thresh *)
    turn (n + length subs + sum_list (map iter_cost subs)).
    destruct subs as [|s subs]; [done|]. cbn [lookup list_lookup]. apply turned_goon.
    rewrite Forall_cons_iff in IH. destruct IH as [Hs IH].
    eapply (evals_child s n (S n + length subs + sum_list (map iter_cost subs)));
      [done|done|lia|cbn; lia|exact Hx|].
    intros stk' out' Hx'. by apply (runs_thresh k (s :: subs) mty mext n it st subs) with (pre := [s]).
  - (* Multi *)
    turn (n + length pks). by apply turned_multi_start.
  - (* MultiA *)
    eapply runs_mono; [|by apply (runs_multi_a k pks mty mext n it st pks) with (pre := [])]. lia.
  - (* extension *)
    turn n. destruct (ext_evaluate e stk (txenv env)) as [stk' [[]|e'|]]; cbn in *; try done.
    by apply after_ok in Hx.
Qed.

(** ** Whole inputs *)

Lemma script_end_errored it : public_key it = None → cov it = None → state it = [] →
  has_errored it = false →
  collect env 1 it = Some ([], script_verdict (stack it)).
Proof.
  intros Hp Hc Hs He. cbn. unfold next_constraint. rewrite He. cbn. rewrite Hs.
  unfold loop_end. rewrite Hc, Hp. unfold script_end, script_verdict. by case_bool_decide.
Qed.

(** The item at the end of the loop leaves no key to check. *)
Lemma loop_end_item it c it' :
  state it = [] → (cov it = None ∨ public_key it = None) → loop_end env it = (Some (Ok c), it') →
  public_key it' = None ∧ cov it' = None ∧ state it' = [] ∧ has_errored it' = has_errored it.
Proof.
  intros Hs Hor. unfold loop_end, cov_end, pk_end, script_end.
  repeat case_match; intros; simplify_eq/=; naive_solver.
Qed.

Lemma finish_runs it :
  state it = [] → (cov it = None ∨ public_key it = None) → has_errored it = false →
  collect env 2 it = Some (finish env it).
Proof.
  intros Hs Hor He. rewrite collect_S. unfold next_constraint. rewrite He. cbn [iter_next].
  rewrite Hs. unfold finish. destruct (loop_end env it) as [[[c|e|]|] it'] eqn:Hl; try done.
  destruct (loop_end_item _ _ _ Hs Hor Hl) as (Hp & Hc & Hs' & He').
  by rewrite script_end_errored by congruence.
Qed.

Lemma collect_computes inner stk fuel :
  inner_fuel inner ≤ fuel →
  collect env fuel (iter_custom inner stk) = Some (interpret env inner stk).
Proof.
  intros Hf. apply (collect_mono (inner_fuel inner)); [done|]. clear Hf.
  assert (∀ ms it, state it = [MkNode ms 0 0] → (cov it = None ∨ public_key it = None) →
    has_errored it = false → stack it = stk →
    collect env (iter_cost ms + 2) it = Some
      match ev env ms stk with
      | (cs, Ok stk) => let '(cs', r) := finish env (with_stacks it [] stk) in (cs ++ cs', r)
      | (cs, Err e) => (cs, Err e)
      | (cs, Panic) => (cs, Panic)
      end) as Hms.
  { intros ms it Hs Hor He Hstk. destruct it as [pk st stk0 cv er]; cbn in *; subst.
    pose proof (evals_all ms 2 (MkIter pk [] stk cv false) [] stk) as Hev. unfold runs in Hev.
    cbn [with_stacks public_key cov has_errored] in Hev.
    rewrite (Nat.add_comm (iter_cost ms) 2). apply Hev; [done|lia|].
    destruct (ev env ms stk) as [cs [stk'|e|]]; [|done..]. unfold with_stacks; cbn.
    destruct (finish env (MkIter pk [] stk' cv false)) as [cs' r] eqn:Hfin.
    exists cs', r. split; [|done]. unfold runs, with_stacks.
    cbn [public_key cov has_errored]. rewrite <-Hfin. by apply finish_runs. }
  destruct inner as [pk t|ms t|pk ms]; cbn [inner_fuel].
  - apply finish_runs; auto.
  - apply Hms; auto.
  - apply Hms; auto.
Qed.

(** (C5) The iterator terminates and computes the reference evaluation: on every input,
    whatever the Miniscript and the witness, and with fuel linear in the size of the
    Miniscript, the items it yields and the way it ends are those of [interpret]. *)
Theorem collect_interpret inner stk fuel :
  inner_fuel inner ≤ fuel →
  collect env fuel (iter_custom inner stk) = Some (interpret env inner stk).
Proof. apply collect_computes. Qed.
End refine.
