(* ===== verification/InterpSound.v ===== *)
(** * What an accepted witness proves

    The constraints the interpreter reports were checked, and when it accepts they imply
    the meaning of the Miniscript, the one that lifting keeps. *)

From S2P Require Import Prelude Types Extension Property Ast Typing Resources Iter Tokens Context ScriptNum Script Encoding Lex PolicyNormal Lift LiftProps Interp InterpRefine.
From S2P Require Semantic.

Section sound.
Context `{Signatures} `{LockTimes} {Ext : Type} `{!Extension Ext} `{!EvalExt Ext}.
Notation Ms := (Miniscript BitcoinKey Ext).
Notation C := (SatisfiedConstraint Ext).
Context (env : Env) (ctx : ScriptContext).
Implicit Types (ms : Ms) (stk : Stack) (v : Semantic.Policy BitcoinKey → bool).

(** ** Constraints *)

Definition key_of (ks : KeySigPair) : BitcoinKey :=
  match ks with KsEcdsa pk _ => Fullkey pk | KsSchnorr pk _ => XOnlyKey pk end.

Definition same_unit (n m : N) : bool :=
  (is_block_height n && is_block_height m) || (is_block_time n && is_block_time m).

Definition hash_lock_opens (hash : HashLockType) (preimage : bytes) : Prop :=
  match hash with
  | HlSha256 h => sha256_hash preimage = h
  | HlHash256 h => hash256_hash preimage = h
  | HlHash160 h => hash160_hash preimage = h
  | HlRipemd160 h => ripemd160_hash preimage = h
  end.

(** What the interpreter has checked of a constraint it reports. *)
Definition valid (c : C) : Prop :=
  match c with
  | CPublicKey ks => verify_sig env ks = true
  | CPublicKeyHash keyhash ks =>
      verify_sig env ks = true ∧
      ∃ sl, hash160_hash sl = keyhash ∧
            bitcoin_key_from_slice sl (env_sig_type env) = Some (key_of ks)
  | CHashLock hash preimage => length preimage = 32 ∧ hash_lock_opens hash preimage
  | CRelativeTimelock n => (n ≤ age env)%N
  | CAbsoluteTimelock n => same_unit n (lock_time env) = true ∧ (n ≤ lock_time env)%N
  | CVerEq _ | COutputsPref _ | CExt _ => False
  end.

(** The valuation [v] of conditions grants the constraint. *)
Definition grants v (c : C) : Prop :=
  match c with
  | CPublicKey ks => v (Semantic.Key (key_of ks)) = true
  | CPublicKeyHash keyhash _ =>
      ∀ pk, to_pubkeyhash pk (env_sig_type env) = keyhash → v (Semantic.Key pk) = true
  | CHashLock (HlSha256 h) _ => v (Semantic.Sha256 h) = true
  | CHashLock (HlHash256 h) _ => v (Semantic.Hash256 h) = true
  | CHashLock (HlHash160 h) _ => v (Semantic.Hash160 h) = true
  | CHashLock (HlRipemd160 h) _ => v (Semantic.Ripemd160 h) = true
  | CRelativeTimelock n => v (Semantic.Older n) = true
  | CAbsoluteTimelock n => v (Semantic.After n) = true
  | CVerEq _ | COutputsPref _ | CExt _ => True
  end.

Definition supports v (cs : list C) : Prop := Forall (grants v) cs.

(** The constraints imply the Miniscript. *)
Definition met (cs : list C) ms : Prop := ∀ v, supports v cs → ms_eval v ms = true.

(** ** Triples

    [spec Q x]: the evaluation does not panic, what it reports is valid, and when it
    succeeds [Q] holds of what it reports and of the stack it leaves. *)
Definition elem_ok (e : Element) : Prop := e ≠ Push [].

Definition spec (Q : list C → Stack → Prop) (x : eval_result (Ext := Ext)) : Prop :=
  Forall valid x.1 ∧
  match x.2 with
  | Ok stk => Forall elem_ok stk ∧ Q x.1 stk
  | Err _ => True
  | Panic => False
  end.

Lemma spec_bind (Q R : list C → Stack → Prop) x f :
  spec Q x →
  (∀ cs stk, Q cs stk → Forall elem_ok stk → spec (λ cs' stk', R (cs ++ cs') stk') (f stk)) →
  spec R (ebind x f).
Proof.
  destruct x as [cs [stk|e|]]; intros [Hv Hq] Hf; cbn in *; [|done..].
  destruct Hq as [Hok HQ]. specialize (Hf cs stk HQ Hok).
  destruct (f stk) as [cs' r], Hf as [Hv' Hr]. split; [by apply Forall_app|exact Hr].
Qed.

Lemma spec_weaken (Q R : list C → Stack → Prop) x :
  spec Q x → (∀ cs stk, Q cs stk → R cs stk) → spec R x.
Proof. intros [Hv Hq] HR. split; [done|]. destruct x.2; naive_solver. Qed.

Lemma spec_ok (Q : list C → Stack → Prop) stk : Forall elem_ok stk → Q [] stk → spec Q (eok stk).
Proof. repeat split; [constructor|done..]. Qed.

Lemma spec_err Q e : spec Q (eerr e).
Proof. repeat split. constructor. Qed.

Lemma spec_pop Q stk k :
  Forall elem_ok stk →
  (∀ e stk', stk = e :: stk' → elem_ok e → Forall elem_ok stk' → spec Q (k e stk')) →
  spec Q (epop stk k).
Proof.
  destruct stk as [|e stk]; [intros; apply spec_err|].
  intros [He Hok]%Forall_cons_iff Hk. by apply Hk.
Qed.

Lemma spec_pop_bool Q stk k :
  Forall elem_ok stk →
  (∀ b stk', stk = push_bool b stk' → Forall elem_ok stk' → spec Q (k b stk')) →
  spec Q (epop_bool stk k).
Proof.
  intros Hok Hk. apply spec_pop; [done|]. intros [| |b] stk' -> _ Hok'; [..|apply spec_err].
  - by apply (Hk true).
  - by apply (Hk false).
Qed.

Lemma elem_ok_bool b stk : Forall elem_ok stk → Forall elem_ok (push_bool b stk).
Proof. by destruct b; constructor. Qed.

(** ** Fragments that read the stack *)

Lemma verify_sersig_spec pk sigser :
  sigser ≠ [] →
  match verify_sersig (verify_sig env) pk sigser with
  | Ok ks => verify_sig env ks = true ∧ key_of ks = pk
  | Err _ => True
  | Panic => False
  end.
Proof.
  intros Hne. destruct pk as [pk|pk]; cbn.
  - unfold elementssig_from_rawsig, split_last. destruct (rev sigser) as [|x l] eqn:Hr.
    { destruct Hne. rewrite <-(rev_involutive sigser). by rewrite Hr. }
    cbn. destruct (from_der (rev l)) as [sig|]; cbn; [|done]. by destruct (verify_sig env _) eqn:?.
  - destruct (schnorr_from_slice sigser) as [sig|]; cbn; [|done]. by destruct (verify_sig env _) eqn:?.
Qed.

(** A fragment that leaves a boolean, true only if [P] is met. *)
Definition leaves (P : list C → Prop) (cs : list C) stk : Prop :=
  ∃ b stk', stk = push_bool b stk' ∧ (b = true → P cs).

Lemma spec_leaf_true (P : list C → Prop) c stk :
  valid c → Forall elem_ok stk → P [c] → spec (leaves P) (of_leaf (Satisfied :: stk, Some (Ok c))).
Proof.
  intros Hc Hok HP. repeat split; cbn; [by constructor|by constructor|]. by exists true, stk.
Qed.

Lemma spec_leaf_false (P : list C → Prop) stk :
  Forall elem_ok stk → spec (leaves P) (of_leaf (Dissatisfied :: stk, None)).
Proof. intros Hok. apply spec_ok; [by constructor|]. by exists false, stk. Qed.

Lemma push_ok b stk : Forall elem_ok (Push b :: stk) → b ≠ [] ∧ Forall elem_ok stk.
Proof. intros [Hb Hok]%Forall_cons_iff. split; [|done]. intros ->. by apply Hb. Qed.

Lemma spec_pk (P : list C → Prop) pk stk :
  Forall elem_ok stk →
  (∀ ks, verify_sig env ks = true → key_of ks = pk → P [CPublicKey ks]) →
  spec (leaves P) (of_leaf (evaluate_pk (verify_sig env) pk stk)).
Proof.
  intros Hok HP. destruct stk as [|[| |sig] stk]; cbn [evaluate_pk].
  - apply spec_err.
  - apply spec_err.
  - apply spec_leaf_false. by inversion Hok.
  - apply push_ok in Hok as [Hne Hok]. pose proof (verify_sersig_spec pk sig Hne) as Hs.
    destruct (verify_sersig _ _ _) as [ks|e|]; [|apply spec_err|done].
    destruct Hs. by apply spec_leaf_true; auto.
Qed.

Lemma spec_pkh (P : list C → Prop) pkh stk :
  Forall elem_ok stk →
  (∀ ks, valid (CPublicKeyHash pkh ks) → P [CPublicKeyHash pkh ks]) →
  spec (leaves P) (of_leaf (evaluate_pkh (verify_sig env) pkh (env_sig_type env) stk)).
Proof.
  intros Hok HP. destruct stk as [|[| |pk] stk]; try apply spec_err. cbn [evaluate_pkh].
  apply push_ok in Hok as [Hne Hok]. case_bool_decide as Hh; [apply spec_err|].
  destruct (bitcoin_key_from_slice pk (env_sig_type env)) as [key|] eqn:Hkey; [|apply spec_err].
  destruct stk as [|[| |sig] stk]; [apply spec_err..| |].
  - apply spec_leaf_false. by inversion Hok.
  - apply push_ok in Hok as [Hne' Hok]. pose proof (verify_sersig_spec key sig Hne') as Hs.
    destruct (verify_sersig _ _ _) as [ks|e|]; [|apply spec_err|done].
    destruct Hs as [Hs Hks]. assert (valid (CPublicKeyHash pkh ks)) as Hv.
    { split; [done|]. exists pk. rewrite Hkey, Hks. done. }
    apply spec_leaf_true; auto.
Qed.

Lemma spec_hash (P : list C → Prop) matches lock stk :
  Forall elem_ok stk →
  (∀ p, matches p = true → hash_lock_opens lock p) →
  (∀ p, P [CHashLock lock p]) →
  spec (leaves P) (of_leaf (evaluate_hash matches lock stk)).
Proof.
  intros Hok Hm HP. destruct stk as [|[| |p] stk]; try apply spec_err. cbn [evaluate_hash].
  apply push_ok in Hok as [_ Hok]. destruct (Nat.eqb_spec (length p) 32) as [Hl|]; cbn [negb]; [|apply spec_err].
  destruct (matches p) eqn:Hp; [|by apply spec_leaf_false].
  apply spec_leaf_true; [|done..]. split; auto.
Qed.

Lemma spec_after (P : list C → Prop) n stk :
  Forall elem_ok stk → P [CAbsoluteTimelock n] →
  spec (leaves P) (of_leaf (evaluate_after n (lock_time env) stk)).
Proof.
  intros Hok HP. unfold evaluate_after. case_match eqn:Hu; [|apply spec_err].
  destruct (N.leb_spec n (lock_time env)); [|apply spec_err]. by apply spec_leaf_true.
Qed.

Lemma spec_older (P : list C → Prop) n stk :
  Forall elem_ok stk → P [CRelativeTimelock n] →
  spec (leaves P) (of_leaf (evaluate_older n (age env) stk)).
Proof.
  intros Hok HP. unfold evaluate_older.
  destruct (N.leb_spec n (age env)); [|apply spec_err]. by apply spec_leaf_true.
Qed.

(** ** Every node *)

(** What holds after a fragment, by its base type. *)
Definition post ms (cs : list C) stk : Prop :=
  match cb ms with
  | V => met cs ms
  | _ => leaves (λ cs, met cs ms) cs stk
  end.

Definition sound ms : Prop := ∀ stk, Forall elem_ok stk → spec (post ms) (ev env ms stk).

Lemma supports_app v cs cs' : supports v (cs ++ cs') ↔ supports v cs ∧ supports v cs'.
Proof. apply Forall_app. Qed.

Lemma met_app_l cs cs' ms : met cs ms → met (cs ++ cs') ms.
Proof. intros Hm v [Hv _]%supports_app. by apply Hm. Qed.
Lemma met_app_r cs cs' ms : met cs' ms → met (cs ++ cs') ms.
Proof. intros Hm v [_ Hv]%supports_app. by apply Hm. Qed.

(** The triple of a child that leaves a boolean, or does not. *)
Lemma sound_bool ms stk :
  sound ms → cb ms ≠ V → Forall elem_ok stk →
  spec (leaves (λ cs, met cs ms)) (ev env ms stk).
Proof.
  intros Hs Hb Hok. eapply spec_weaken; [by apply Hs|]. unfold post. by destruct (cb ms).
Qed.

Lemma sound_V ms stk :
  sound ms → cb ms = V → Forall elem_ok stk → spec (λ cs _, met cs ms) (ev env ms stk).
Proof. intros Hs Hb Hok. eapply spec_weaken; [by apply Hs|]. unfold post. by rewrite Hb. Qed.

(** A boolean child, its result popped at once. *)
Lemma spec_child_bool ms stk (R : list C → Stack → Prop) k :
  sound ms → cb ms ≠ V → Forall elem_ok stk →
  (∀ b cs stk', (b = true → met cs ms) → Forall elem_ok stk' →
     spec (λ cs' stk'', R (cs ++ cs') stk'') (k b stk')) →
  spec R (ebind (ev env ms stk) (λ stk, epop_bool stk k)).
Proof.
  intros Hs Hb Hok Hk. eapply spec_bind; [by apply sound_bool|].
  intros cs stk' (b & stk'' & -> & Hm) [_ Hok']%Forall_cons_iff.
  assert (epop_bool (push_bool b stk'') k = k b stk'') as -> by by destruct b. auto.
Qed.

Lemma spec_child_any ms stk (R : list C → Stack → Prop) k :
  sound ms → cb ms ≠ V → Forall elem_ok stk →
  (∀ b cs stk', (b = true → met cs ms) → Forall elem_ok stk' →
     spec (λ cs' stk'', R (cs ++ cs') stk'') (k (if b : bool then Satisfied else Dissatisfied) stk')) →
  spec R (ebind (ev env ms stk) (λ stk, epop stk k)).
Proof.
  intros Hs Hb Hok Hk. eapply spec_bind; [by apply sound_bool|].
  intros cs stk' (b & stk'' & -> & Hm) [_ Hok']%Forall_cons_iff. cbn. auto.
Qed.

(** The last child decides. *)
Lemma spec_child_last ms ms' cs0 stk :
  sound ms → cb ms = cb ms' → Forall elem_ok stk →
  (∀ cs, met cs ms → met (cs0 ++ cs) ms') →
  spec (λ cs stk, post ms' (cs0 ++ cs) stk) (ev env ms stk).
Proof.
  intros Hs Hb Hok Hm. eapply spec_weaken; [by apply Hs|]. intros cs stk'. unfold post, leaves.
  rewrite Hb. destruct (cb ms'); [naive_solver..|by apply Hm|naive_solver].
Qed.

Lemma post_bool (b : bool) ms cs stk :
  cb ms ≠ V → (b = true → met cs ms) → post ms cs (push_bool b stk).
Proof. intros Hb Hm. unfold post, leaves. destruct (cb ms); naive_solver. Qed.

Lemma is_satisfied (b : bool) :
  bool_decide ((if b then Satisfied else Dissatisfied) = Satisfied) = true → b = true.
Proof. by destruct b. Qed.

Lemma spec_done_bool (b : bool) ms cs0 stk :
  cb ms ≠ V → Forall elem_ok stk → (b = true → met cs0 ms) →
  spec (λ cs stk, post ms (cs0 ++ cs) stk) (eok (push_bool b stk)).
Proof.
  intros Hb Hok Hm. apply spec_ok; [by apply elem_ok_bool|]. rewrite app_nil_r.
  unfold post, leaves. destruct (cb ms); naive_solver.
Qed.

Lemma spec_done_V ms cs0 stk :
  cb ms = V → Forall elem_ok stk → met cs0 ms → spec (λ cs stk, post ms (cs0 ++ cs) stk) (eok stk).
Proof. intros Hb Hok Hm. apply spec_ok; [done|]. rewrite app_nil_r. unfold post. by rewrite Hb. Qed.

Lemma spec_post_nil ms x : spec (λ cs stk, post ms ([] ++ cs) stk) x → spec (post ms) x.
Proof. done. Qed.

(** *** Counting

    [at_least n cs bs]: the constraints [cs] imply [n] of the conditions [bs]. *)
Definition at_least (n : nat) (cs : list C) (bs : (Semantic.Policy BitcoinKey → bool) → list bool) : Prop :=
  ∀ v, supports v cs → n ≤ number (bs v).

Lemma at_least_app n cs cs' bs : at_least n cs bs → at_least n (cs ++ cs') bs.
Proof. intros Hn v [Hv _]%supports_app. by apply Hn. Qed.

Lemma at_least_snoc n (b : bool) cs bs c :
  at_least n cs bs → (b = true → ∀ v, supports v cs → c v = true) →
  at_least (if b then S n else n) cs (λ v, bs v ++ [c v]).
Proof.
  intros Hn Hb v Hv. rewrite number_app, number_one. specialize (Hn v Hv).
  destruct b; [rewrite Hb by done|]; cbn; lia.
Qed.

Lemma sound_thresh k all rest :
  1 ≤ k → Forall sound rest → Forall (λ s, cb s ≠ V) rest →
  ∀ pre s n_sat (b : bool) cs0 stk, all = pre ++ s :: rest →
    Forall elem_ok stk → at_least n_sat cs0 (λ v, map (ms_eval v) pre) → (b = true → met cs0 s) →
    spec (λ cs stk, leaves (λ cs, at_least k cs (λ v, map (ms_eval v) all)) (cs0 ++ cs) stk)
      (thresh_ev (ev env) k n_sat rest (push_bool b stk)).
Proof.
  intros Hk Hrest. induction Hrest as [|s' rest Hs' _ IH];
    intros HV pre s n_sat b cs0 stk -> Hok Hn Hb; cbn [thresh_ev].
  - assert (thresh_final k n_sat (push_bool b stk)
      = eok (push_bool (if b then n_sat =? k - 1 else n_sat =? k) stk)) as ->.
    { destruct b; cbn; [|done]. by rewrite (proj2 (Nat.eqb_neq k 0)) by lia. }
    apply spec_ok; [by apply elem_ok_bool|]. eexists _, _. split; [done|]. rewrite app_nil_r.
    intros Heq v Hv. rewrite map_app, number_app. cbn [map]. rewrite number_one. specialize (Hn v Hv).
    destruct b; apply Nat.eqb_eq in Heq; [rewrite Hb by done|destruct (ms_eval v s)]; cbn; lia.
  - apply Forall_cons_iff in HV as [HV' HV].
    assert (epop_bool (push_bool b stk) (λ b stk, ebind (ev env s' stk)
        (thresh_ev (ev env) k (if b : bool then S n_sat else n_sat) rest))
      = ebind (ev env s' stk) (thresh_ev (ev env) k (if b then S n_sat else n_sat) rest)) as ->
      by by destruct b.
    eapply spec_bind; [by apply sound_bool|].
    intros cs stk' (b' & stk'' & -> & Hm) [_ Hok']%Forall_cons_iff.
    eapply spec_weaken; [apply (IH HV (pre ++ [s]) s' _ b' (cs0 ++ cs)); [by rewrite <-app_assoc|done| |]|].
    + apply at_least_app. intros v Hv. rewrite map_app.
      by apply (at_least_snoc n_sat b cs0 (λ v, map (ms_eval v) pre) (λ v, ms_eval v s)).
    + intros Hb'. by apply met_app_r, Hm.
    + intros cs' stk3. by rewrite app_assoc.
Qed.

Lemma spec_multi_key cs0 stk pk (Q : list C → Stack → Prop) (f : bool → Stack → eval_result) :
  Forall elem_ok stk →
  (∀ ks stk', verify_sig env ks = true → key_of ks = pk → Forall elem_ok stk' →
     spec (λ cs, Q ((cs0 ++ [CPublicKey ks]) ++ cs)) (f true stk')) →
  spec (λ cs, Q (cs0 ++ cs)) (f false stk) →
  spec (λ cs, Q (cs0 ++ cs))
    match evaluate_multi (verify_sig env) pk stk with
    | (stk, Some (Ok x)) => ebind ([x], Ok stk) (f true)
    | (stk, None) => f false stk
    | r => of_leaf r
    end.
Proof.
  intros Hok Ht Hf. destruct stk as [|[| |sig] stk]; cbn [evaluate_multi]; try apply spec_err.
  pose proof Hok as Hok0. apply push_ok in Hok as [Hne Hok].
  pose proof (verify_sersig_spec pk sig Hne) as Hs.
  destruct (verify_sersig _ _ _) as [ks|e|]; [|exact Hf|done]. destruct Hs as [Hs Hks].
  eapply spec_bind with (Q := λ cs stk', cs = [CPublicKey ks] ∧ stk' = stk).
  { repeat split; cbn; [by constructor|done]. }
  intros cs stk' [-> ->] _. eapply spec_weaken; [by apply Ht|].
  intros cs' stk''. cbv beta. by rewrite <-app_assoc.
Qed.

Definition key_met (pk : BitcoinKey) v : bool := v (Semantic.Key pk).

Lemma grants_key ks pk v : key_of ks = pk → supports v [CPublicKey ks] → key_met pk v = true.
Proof. intros <- [Hv _]%Forall_cons_iff. exact Hv. Qed.

Lemma sound_multi_eval k all keys :
  ∀ pre n_sat cs0 stk, rev all = pre ++ keys → Forall elem_ok stk →
    at_least n_sat cs0 (λ v, map (λ pk, key_met pk v) pre) →
    spec (λ cs stk, leaves (λ cs, at_least k cs (λ v, map (λ pk, key_met pk v) all)) (cs0 ++ cs) stk)
      (multi_eval env k n_sat keys stk).
Proof.
  induction keys as [|pk keys IH]; intros pre n_sat cs0 stk Heq Hok Hn; cbn [multi_eval];
    (destruct (n_sat =? k) eqn:Hk;
     [destruct stk as [|[| |b] stk]; try apply spec_err; apply spec_ok;
      [by inversion Hok; constructor|];
      exists true, stk; split; [done|]; intros _; rewrite app_nil_r; intros v Hv;
      apply Nat.eqb_eq in Hk; specialize (Hn v Hv);
      rewrite <-number_rev, <-map_rev, Heq, map_app, number_app; lia|]).
  - apply spec_err.
  - apply (spec_multi_key cs0 stk pk _ (λ b, multi_eval env k (if b then S n_sat else n_sat) keys));
      [done| |].
    + intros ks stk' Hs Hks Hok'. apply (IH (pre ++ [pk])); [by rewrite <-app_assoc|done|].
      intros v [Hv Hc]%supports_app. rewrite map_app.
      apply (at_least_snoc n_sat true (cs0 ++ [CPublicKey ks]) (λ v, map (λ pk, key_met pk v) pre) (key_met pk));
        [by apply at_least_app| |by apply supports_app].
      intros _ v' [_ Hv']%supports_app. by eapply grants_key.
    + apply (IH (pre ++ [pk])); [by rewrite <-app_assoc|done|]. intros v Hv. rewrite map_app.
      by apply (at_least_snoc n_sat false cs0 (λ v, map (λ pk, key_met pk v) pre) (key_met pk)).
Qed.

Lemma sound_multi k all stk :
  1 ≤ length all → Forall elem_ok stk →
  spec (leaves (λ cs, at_least k cs (λ v, map (λ pk, key_met pk v) all))) (multi_ev env k all stk).
Proof.
  intros Hlen Hok. unfold multi_ev. case_match; [apply spec_err|].
  assert (spec (leaves (λ cs, at_least k cs (λ v, map (λ pk, key_met pk v) all))) (multi_first env k all stk)) as Hfirst.
  { unfold multi_first. destruct (rev all) as [|pk keys] eqn:Hr.
    { apply (f_equal length) in Hr. rewrite length_rev in Hr. cbn in Hr. lia. }
    apply (spec_multi_key [] stk pk _ (λ b, multi_eval env k (if b then 1 else 0) keys)); [done| |].
    - intros ks stk' Hs Hks Hok'. apply (sound_multi_eval k all keys [pk]); [done|done|].
      intros v Hv. cbn [map]. rewrite number_one, (grants_key ks pk) by done. lia.
    - apply (sound_multi_eval k all keys [pk] 0 []); [done|done|]. intros v Hv. lia. }
  destruct stk as [|[| |b] stk]; [apply spec_err|done| |done].
  case_match; [|apply spec_err]. apply spec_ok.
  - constructor; [done|]. by apply Forall_drop.
  - by eexists false, _.
Qed.

Lemma sound_multi_a k all keys :
  ∀ pre n_sat cs0 stk, all = pre ++ keys → Forall elem_ok stk →
    at_least n_sat cs0 (λ v, map (λ pk, key_met pk v) pre) →
    spec (λ cs stk, leaves (λ cs, at_least k cs (λ v, map (λ pk, key_met pk v) all)) (cs0 ++ cs) stk)
      (multi_a_ev env k n_sat keys stk).
Proof.
  induction keys as [|pk keys IH]; intros pre n_sat cs0 stk Heq Hok Hn; cbn [multi_a_ev].
  { rewrite app_nil_r in Heq. subst pre. apply spec_ok; [by apply elem_ok_bool|].
    eexists _, _. split; [done|]. rewrite app_nil_r. intros <-%Nat.eqb_eq. done. }
  assert (∀ (b : bool) cs1 stk', (b = true → ∀ v, supports v cs1 → key_met pk v = true) →
    Forall elem_ok stk' →
    spec (λ cs stk, leaves (λ cs, at_least k cs (λ v, map (λ pk, key_met pk v) all)) ((cs0 ++ cs1) ++ cs) stk)
      (multi_a_ev env k (if b then S n_sat else n_sat) keys stk')) as Hnext.
  { intros b cs1 stk' Hb Hok'. apply (IH (pre ++ [pk])); [by rewrite <-app_assoc|done|].
    intros v Hv. rewrite map_app.
    apply (at_least_snoc n_sat b (cs0 ++ cs1) (λ v, map (λ pk, key_met pk v) pre) (key_met pk));
      [by apply at_least_app| |done].
    intros -> v' [_ Hv']%supports_app. by apply Hb. }
  destruct stk as [|[| |sig] stk]; cbn [evaluate_pk]; [apply spec_err|destruct stk; apply spec_err|..].
  - cbn [epop]. specialize (Hnext false [] stk). rewrite app_nil_r in Hnext. apply Hnext; [done|].
    by inversion Hok.
  - apply push_ok in Hok as [Hne Hok]. pose proof (verify_sersig_spec pk sig Hne) as Hs.
    destruct (verify_sersig _ _ _) as [ks|e|]; [|destruct stk; apply spec_err|done].
    destruct Hs as [Hs Hks]. eapply spec_bind with (Q := λ cs stk', cs = [CPublicKey ks] ∧ stk' = stk).
    { repeat split; cbn; [by constructor|done]. }
    intros cs stk' [-> ->] _. eapply spec_weaken; [apply (Hnext true [CPublicKey ks] stk)|].
    + intros _ v Hv. by eapply grants_key.
    + done.
    + intros cs' stk''. cbv beta. by rewrite <-app_assoc.
Qed.

(** *** The induction *)

(** A leaf of base type B or K whose meaning is one condition. *)
Lemma sound_leaf t mty mext x :
  cb (MkMs t mty mext) ≠ V →
  spec (leaves (λ cs, met cs (MkMs t mty mext))) x → spec (post (MkMs t mty mext)) x.
Proof.
  intros Hb Hx. eapply spec_weaken; [exact Hx|]. intros cs stk' Hl. unfold post.
  by destruct (cb (MkMs t mty mext)).
Qed.

Lemma met_wrap cs ms ms' : (∀ v, ms_eval v ms = ms_eval v ms') → met cs ms → met cs ms'.
Proof. intros He Hm v Hv. rewrite <-He. by apply Hm. Qed.

Lemma sound_wrap ms ms' stk :
  sound ms → cb ms ≠ V → cb ms' ≠ V → (∀ v, ms_eval v ms = ms_eval v ms') →
  Forall elem_ok stk → spec (post ms') (ev env ms stk).
Proof.
  intros Hs Hb Hb' He Hok. eapply spec_weaken; [by apply sound_bool|].
  intros cs stk' (b & stk'' & -> & Hm). unfold post, leaves.
  destruct (cb ms'); [..|done|]; eexists b, stk''; (split; [done|]); intros Hbt; by eapply met_wrap, Hm.
Qed.

Lemma sound_all ms : well_typed ctx ms → all_nodes node_liftable ms → sound ms.
Proof.
  revert ms. apply (well_typed_ind' ctx (λ ms, all_nodes node_liftable ms → sound ms)).
  intros t mty mext Ht _ Hwt IH [Hl Hall]%all_nodes_inv. cbn [node children] in *.
  apply type_check_rule in Ht.
  assert (Forall sound (children t)) as IHs.
  { clear -IH Hall. rewrite list.Forall_forall in *. intros s Hs. auto. }
  clear IH Hall.
  pose proof (eq_refl : cb (MkMs t mty mext) = base (corr mty)) as Hb.
  destruct t; cbn [children corr_rule node_liftable] in *; rewrite ?Forall_cons_iff in IHs;
    repeat match goal with Hx : _ ∧ _ |- _ => destruct Hx end; intros stk Hok; try done;
    match goal with Hc : corr mty = _ |- _ => rewrite Hc in Hb end;
    cbn [base Correctness.from_true Correctness.from_false Correctness.from_pk_k Correctness.from_pk_h
      Correctness.from_time Correctness.from_hash Correctness.from_multi Correctness.from_multi_a] in Hb;
    cbn [ev]; try (apply sound_wrap; [done|congruence|congruence|done|done]);
    try (apply sound_leaf; [congruence|];
      first [ apply spec_after | apply spec_older | apply spec_hash; [done|by intros ? ?%bool_decide_eq_true| intros p]
            | apply spec_pk; [done|intros ks _ Hk] | apply spec_pkh; [done|intros ks Hk]];
      try done; intros v [Hv _]%Forall_cons_iff; try exact Hv).
  - apply sound_leaf; [congruence|]. apply spec_ok; [by constructor|]. exists true, stk. by split.
  - apply sound_leaf; [congruence|]. apply spec_ok; [by constructor|]. exists false, stk. by split.
  - (* PkK *) by eapply grants_key; [|constructor].
  - (* PkH *) by apply Hv.
  - (* DupIf *)
    apply spec_pop_bool; [done|]. intros [] stk' _ Hok'.
    + eapply spec_bind; [by apply sound_V|]. intros cs stk'' Hm Hok''.
      apply (spec_done_bool true); [congruence|done|]. intros _. by eapply met_wrap, Hm.
    + apply (spec_done_bool false _ []); [congruence|done|done].
  - (* Verify *)
    apply spec_child_any; [done|congruence|done|]. intros b cs stk' Hm Hok'.
    destruct b; [|apply spec_err]. apply spec_done_V; [done..|]. by apply Hm.
  - (* NonZero *)
    destruct stk as [|[| |b] stk]; [apply spec_err|by apply sound_wrap; (done || congruence)| |
      by apply sound_wrap; (done || congruence)].
    apply (spec_done_bool false _ []); [congruence|by inversion Hok|done].
  - (* ZeroNotEqual *)
    apply spec_child_any; [done|congruence|done|]. intros b cs stk' Hm Hok'.
    apply spec_done_bool; [congruence|done|]. by destruct b; intros ?; [apply Hm|].
  - (* AndV *)
    eapply spec_bind; [by apply sound_V|]. intros cs stk' Hm Hok'.
    apply spec_child_last; [done|congruence|done|]. intros cs' Hm' v [Hv Hv']%supports_app. cbn.
    by rewrite (Hm v), (Hm' v).
  - (* AndB *)
    apply spec_child_bool; [done|congruence|done|]. intros a cs stk' Hm Hok'.
    apply spec_child_any; [done|congruence|done|]. intros b cs' stk'' Hm' Hok''.
    apply spec_ok; [by apply elem_ok_bool|]. apply post_bool; [congruence|]. rewrite app_nil_r.
    intros [Hb' ->]%andb_prop v [Hv Hv']%supports_app. cbn.
    rewrite (Hm eq_refl v), (Hm' (is_satisfied _ Hb') v); done.
  - (* AndOr *)
    apply spec_child_bool; [done|congruence|done|]. intros x cs stk' Hm Hok'.
    destruct x; apply spec_child_last; try (done || congruence);
      intros cs' Hm' v [Hv Hv']%supports_app; cbn; rewrite (Hm' v) by done.
    + by rewrite (Hm eq_refl v).
    + by rewrite orb_true_r.
  - (* OrB *)
    apply spec_child_bool; [done|congruence|done|]. intros a cs stk' Hm Hok'.
    apply spec_child_any; [done|congruence|done|]. intros b cs' stk'' Hm' Hok''.
    apply spec_ok; [by apply elem_ok_bool|]. apply post_bool; [congruence|]. rewrite app_nil_r.
    intros Hab v [Hv Hv']%supports_app. cbn. destruct a; [by rewrite (Hm eq_refl v)|].
    destruct b; [|done]. by rewrite (Hm' eq_refl v), orb_true_r.
  - (* OrD *)
    apply spec_child_bool; [done|congruence|done|]. intros [] cs stk' Hm Hok'.
    + apply (spec_done_bool true); [congruence|done|]. intros _ v Hv. cbn. by rewrite (Hm eq_refl v).
    + apply spec_child_last; [done|congruence|done|]. intros cs' Hm' v [_ Hv]%supports_app. cbn.
      by rewrite (Hm' v), orb_true_r.
  - (* OrC *)
    apply spec_child_bool; [done|congruence|done|]. intros [] cs stk' Hm Hok'.
    + apply spec_done_V; [done|done|]. intros v Hv. cbn. by rewrite (Hm eq_refl v).
    + apply spec_child_last; [done|congruence|done|]. intros cs' Hm' v [_ Hv]%supports_app. cbn.
      by rewrite (Hm' v), orb_true_r.
  - (* OrI *)
    apply spec_pop_bool; [done|]. intros [] stk' _ Hok';
      (apply spec_post_nil, spec_child_last; [done|congruence|done|]);
      intros cs' Hm' v Hv; cbn; by rewrite (Hm' v), ?orb_true_r.
  - (* Thresh *)
    apply sound_leaf; [congruence|]. destruct subs as [|s subs]; [cbn in *; lia|].
    match goal with Hx : thresh_children_ok _ |- _ => apply thresh_children_cons in Hx as [(Hs & _) Hsubs] end.
    apply Forall_cons_iff in IHs as [IHs IHss].
    eapply spec_bind; [apply sound_bool; [done|congruence|done]|].
    intros cs stk' (b & stk'' & -> & Hm) [_ Hok']%Forall_cons_iff.
    eapply spec_weaken; [apply (sound_thresh k (s :: subs) subs) with (pre := []) (s := s) (n_sat := 0); try done; try lia|].
    + eapply Forall_impl; [|exact Hsubs]. intros s' (Hw & _). cbv beta. congruence.
    + intros v Hv. lia.
    + intros cs' stk3 (b' & stk4 & -> & Hk). exists b', stk4. split; [done|]. intros Hb' v Hv. cbn [ms_eval].
      apply Nat.leb_le. by apply Hk.
  - (* Multi *)
    apply sound_leaf; [congruence|]. eapply spec_weaken; [apply (sound_multi k); [lia|done]|].
    intros cs stk' (b & stk'' & -> & Hk). exists b, stk''. split; [done|]. intros Hb' v Hv. cbn [ms_eval].
    apply Nat.leb_le. by apply Hk.
  - (* MultiA *)
    apply sound_leaf; [congruence|].
    eapply spec_weaken; [apply (sound_multi_a k pks pks [] 0 [] stk); [done|done|]; intros v Hv; lia|].
    intros cs stk' (b & stk'' & -> & Hk). exists b, stk''. split; [done|]. intros Hb' v Hv. cbn [ms_eval].
    apply Nat.leb_le. by apply Hk.
Qed.

(** ** Accepted inputs *)

Lemma element_of_ok w : elem_ok (element_of w).
Proof. unfold elem_ok, element_of. case_bool_decide; [done|]. by destruct w. Qed.

Lemma Stack_of_ok witness : Forall elem_ok (Stack_of witness).
Proof.
  apply Forall_rev, Forall_fmap, Forall_forall. intros w _. apply element_of_ok.
Qed.

(** (C2) What the interpreter accepts is met: on any witness for a well-typed Miniscript
    of type B without raw key hashes and without extensions (the evaluation of [csfs]
    panics on an empty witness), the iteration ends without a panic, every
    constraint it yields was checked against the transaction (signatures verify,
    preimages hash to the lock, lock times have passed), and when it ends without an
    error the constraints imply the Miniscript, hence the policy it lifts to. *)
Theorem accepted_sound ms t witness fuel :
  well_typed ctx ms → cb ms = B → all_nodes node_liftable ms →
  inner_fuel (InScript ms t) ≤ fuel →
  match collect env fuel (iter_custom (InScript ms t) (Stack_of witness)) with
  | Some (cs, Ok _) =>
      Forall valid cs ∧
      ∀ v, supports v cs → ms_eval v ms = true ∧ ∀ p, lift ctx ms = Ok p → eval v p = true
  | Some (cs, Err _) => Forall valid cs
  | Some (_, Panic) | None => False
  end.
Proof.
  intros Hwt Hb Hl Hf. rewrite collect_computes by done. cbn [interpret].
  pose proof (sound_all ms Hwt Hl (Stack_of witness) (Stack_of_ok witness)) as [Hv Hp].
  destruct (ev env ms (Stack_of witness)) as [cs [stk|e|]]; cbn in *; [|done..].
  unfold finish, loop_end, script_end; cbn. destruct Hp as [_ Hp]. unfold post in Hp. rewrite Hb in Hp.
  case_bool_decide as Hs; cbn; rewrite app_nil_r; [|done]. split; [done|]. intros v Hsup. subst stk.
  destruct Hp as (b & stk' & Hpush & Hm). assert (b = true) as -> by by destruct b.
  specialize (Hm eq_refl v Hsup). split; [done|]. intros p Hlift. by rewrite (lift_meaning ctx _ _ _ Hlift).
Qed.
End sound.
