(* ===== verification/Satisfy.v ===== *)
(** * Satisfactions: [src/miniscript/satisfy.rs]

    The [Satisfier] trait as a record of the lookups the core fragments use, witnesses
    and satisfactions, and the algorithms that build them: the non-malleable
    [satisfy] and the malleable [satisfy_mall], which share [satisfy_helper] and
    [dissatisfy_helper] and differ in how they choose between satisfactions. *)

From S2P Require Import Prelude Types Extension Property Ast Tokens Context ScriptNum Script Lex Interp.

(** Taproot leaf hashes, and the length of a compact size integer. *)
Class LeafHashes `{BitcoinKeys} `{!ScriptBuilder} : Type := {
  TapLeafHash : Type;
  TapLeafHash_from_script : Script → TapLeafHash;
  varint_len : nat → nat;
}.

Section satisfier.
Context {Pk : Type} `{MiniscriptKey Pk} `{BitcoinKeys} `{!ScriptBuilder} `{!LeafHashes} `{!Signatures}.

(** A [Preimage32] is an array of 32 bytes. *)
Definition Preimage32 : Type := hash_n 32.

Record Satisfier : Type := MkSatisfier {
  lookup_ecdsa_sig : Pk → option ElementsSig;
  lookup_tap_key_spend_sig : option SchnorrSig;
  lookup_tap_leaf_script_sig : Pk → TapLeafHash → option SchnorrSig;
  lookup_raw_pkh_pk : hash_n 20 → option PublicKey;
  lookup_raw_pkh_x_only_pk : hash_n 20 → option XOnlyPublicKey;
  lookup_raw_pkh_ecdsa_sig : hash_n 20 → option (PublicKey * ElementsSig);
  lookup_raw_pkh_tap_leaf_script_sig : hash_n 20 * TapLeafHash → option (XOnlyPublicKey * SchnorrSig);
  lookup_sha256 : Sha256T → option Preimage32;
  lookup_hash256 : Hash256T → option Preimage32;
  lookup_ripemd160 : Ripemd160T → option Preimage32;
  lookup_hash160 : Hash160T → option Preimage32;
  check_older : N → bool;
  check_after : N → bool;
  (** the items of the signature hash, for covenants *)
  lookup_nversion : option N;
  lookup_hashprevouts : option (hash_n 32);
  lookup_hashsequence : option (hash_n 32);
  lookup_hashissuances : option (hash_n 32);
  lookup_outpoint : option OutPoint;
  lookup_scriptcode : option Script;
  lookup_value : option Value;
  lookup_nsequence : option N;
  lookup_outputs : option (list TxOut);
  lookup_nlocktime : option N;
  lookup_sighashu32 : option N;
  (** what the other extensions look up *)
  lookup_tx : option Transaction;
  lookup_spent_utxos : option (list TxOut);
  lookup_curr_inp : option N;
  lookup_csfs_sig : XOnlyPublicKey → bytes → option SchnorrSignature;
  lookup_price_oracle_sig : XOnlyPublicKey → N → option (SchnorrSignature * Z * N);
}.

(** The satisfier [()]: the default methods of the trait. *)
Definition no_satisfier : Satisfier := {|
  lookup_tap_key_spend_sig := None;
  lookup_ecdsa_sig _ := None;
  lookup_tap_leaf_script_sig _ _ := None;
  lookup_raw_pkh_pk _ := None;
  lookup_raw_pkh_x_only_pk _ := None;
  lookup_raw_pkh_ecdsa_sig _ := None;
  lookup_raw_pkh_tap_leaf_script_sig _ := None;
  lookup_sha256 _ := None;
  lookup_hash256 _ := None;
  lookup_ripemd160 _ := None;
  lookup_hash160 _ := None;
  check_older _ := false;
  check_after _ := false;
  lookup_nversion := None;
  lookup_hashprevouts := None;
  lookup_hashsequence := None;
  lookup_hashissuances := None;
  lookup_outpoint := None;
  lookup_scriptcode := None;
  lookup_value := None;
  lookup_nsequence := None;
  lookup_outputs := None;
  lookup_nlocktime := None;
  lookup_sighashu32 := None;
  lookup_tx := None;
  lookup_spent_utxos := None;
  lookup_curr_inp := None;
  lookup_csfs_sig _ _ := None;
  lookup_price_oracle_sig _ _ := None;
|}.

(** [impl Satisfier for Sequence]: the type flag and the low 16 bits are compared. *)
Definition SEQUENCE_LOCKTIME_MASK : N := 0x0000ffff.
Definition SEQUENCE_LOCKTIME_TYPE_FLAG : N := 0x00400000.

Definition sequence_check_older `{LockTimes} (self n : N) : bool :=
  if negb (is_relative_lock_time self) then false
  else
    let mask := N.lor SEQUENCE_LOCKTIME_MASK SEQUENCE_LOCKTIME_TYPE_FLAG in
    let masked_n := N.land n mask in
    let masked_seq := N.land self mask in
    if (masked_n <? SEQUENCE_LOCKTIME_TYPE_FLAG)%N && (SEQUENCE_LOCKTIME_TYPE_FLAG <=? masked_seq)%N
    then false
    else (masked_n <=? masked_seq)%N.

(** [impl Satisfier for LockTime] *)
Definition locktime_check_after `{LockTimes} (self n : N) : bool :=
  if (is_block_height n && is_block_height self) || (is_block_time n && is_block_time self)
  then (n <=? self)%N
  else false.

Definition first_some {A} (x y : option A) : option A :=
  match x with Some a => Some a | None => y end.

(** [impl_tuple_satisfier!]: the first satisfier that knows the answer gives it. *)
Definition tuple_satisfier (a b : Satisfier) : Satisfier := {|
  lookup_tap_key_spend_sig := first_some (lookup_tap_key_spend_sig a) (lookup_tap_key_spend_sig b);
  lookup_ecdsa_sig k := first_some (lookup_ecdsa_sig a k) (lookup_ecdsa_sig b k);
  lookup_tap_leaf_script_sig k h :=
    first_some (lookup_tap_leaf_script_sig a k h) (lookup_tap_leaf_script_sig b k h);
  lookup_raw_pkh_pk h := first_some (lookup_raw_pkh_pk a h) (lookup_raw_pkh_pk b h);
  lookup_raw_pkh_x_only_pk h :=
    first_some (lookup_raw_pkh_x_only_pk a h) (lookup_raw_pkh_x_only_pk b h);
  lookup_raw_pkh_ecdsa_sig h :=
    first_some (lookup_raw_pkh_ecdsa_sig a h) (lookup_raw_pkh_ecdsa_sig b h);
  lookup_raw_pkh_tap_leaf_script_sig h :=
    first_some (lookup_raw_pkh_tap_leaf_script_sig a h) (lookup_raw_pkh_tap_leaf_script_sig b h);
  lookup_sha256 h := first_some (lookup_sha256 a h) (lookup_sha256 b h);
  lookup_hash256 h := first_some (lookup_hash256 a h) (lookup_hash256 b h);
  lookup_ripemd160 h := first_some (lookup_ripemd160 a h) (lookup_ripemd160 b h);
  lookup_hash160 h := first_some (lookup_hash160 a h) (lookup_hash160 b h);
  check_older n := check_older a n || check_older b n;
  check_after n := check_after a n || check_after b n;
  lookup_nversion := first_some (lookup_nversion a) (lookup_nversion b);
  lookup_hashprevouts := first_some (lookup_hashprevouts a) (lookup_hashprevouts b);
  lookup_hashsequence := first_some (lookup_hashsequence a) (lookup_hashsequence b);
  lookup_hashissuances := first_some (lookup_hashissuances a) (lookup_hashissuances b);
  lookup_outpoint := first_some (lookup_outpoint a) (lookup_outpoint b);
  lookup_scriptcode := first_some (lookup_scriptcode a) (lookup_scriptcode b);
  lookup_value := first_some (lookup_value a) (lookup_value b);
  lookup_nsequence := first_some (lookup_nsequence a) (lookup_nsequence b);
  lookup_outputs := first_some (lookup_outputs a) (lookup_outputs b);
  lookup_nlocktime := first_some (lookup_nlocktime a) (lookup_nlocktime b);
  lookup_sighashu32 := first_some (lookup_sighashu32 a) (lookup_sighashu32 b);
  lookup_tx := first_some (lookup_tx a) (lookup_tx b);
  lookup_spent_utxos := first_some (lookup_spent_utxos a) (lookup_spent_utxos b);
  lookup_curr_inp := first_some (lookup_curr_inp a) (lookup_curr_inp b);
  lookup_csfs_sig pk msg := first_some (lookup_csfs_sig a pk msg) (lookup_csfs_sig b pk msg);
  lookup_price_oracle_sig pk time :=
    first_some (lookup_price_oracle_sig a pk time) (lookup_price_oracle_sig b pk time);
|}.
End satisfier.
Arguments Satisfier Pk {_ _ _ _ _}.

(** ** Witnesses *)

(** The variant [Witness::Stack] is [WStack] here. *)
Inductive Witness : Type :=
  | WStack (stack : list bytes)
  | Unavailable
  | Impossible.

#[export] Instance Witness_eq_dec : EqDecision Witness.
Proof. solve_decision. Defined.

Record Satisfaction : Type := MkSatisfaction {
  wit : Witness;
  has_sig : bool;
}.

#[export] Instance Satisfaction_eq_dec : EqDecision Satisfaction.
Proof. solve_decision. Defined.

Definition hash_dissatisfaction : Witness := WStack [repeat x00 32].
Definition wempty : Witness := WStack [].
Definition push_1 : Witness := WStack [[x01]].
Definition push_0 : Witness := WStack [[]].

Definition wcombine (one two : Witness) : Witness :=
  match one, two with
  | Impossible, _ | _, Impossible => Impossible
  | Unavailable, _ | _, Unavailable => Unavailable
  | WStack a, WStack b => WStack (a ++ b)
  end.

(** [Satisfaction::combine] *)
Definition sat_combine (one two : Satisfaction) : Satisfaction :=
  MkSatisfaction (wcombine (wit one) (wit two)) (has_sig one || has_sig two).

Definition sat_impossible : Satisfaction := MkSatisfaction Impossible false.
Definition sat_empty : Satisfaction := MkSatisfaction wempty false.

Section witness.
Context `{BitcoinKeys} `{!ScriptBuilder} `{!LeafHashes}.

(** [witness_size] of [src/util.rs] *)
Definition witness_size (w : list bytes) : nat := sum_list (map length w) + varint_len (length w).

(** [impl Ord for Witness] *)
Definition witness_cmp (self other : Witness) : comparison :=
  match self, other with
  | WStack v1, WStack v2 => Nat.compare (witness_size v1) (witness_size v2)
  | WStack _, _ => Lt
  | _, WStack _ => Gt
  | Impossible, Unavailable => Lt
  | Unavailable, Impossible => Gt
  | Impossible, Impossible => Eq
  | Unavailable, Unavailable => Eq
  end.

(** [cmp::min] *)
Definition witness_min (a b : Witness) : Witness :=
  match witness_cmp a b with Gt => b | _ => a end.

Definition minimum (sat1 sat2 : Satisfaction) : Satisfaction :=
  match wit sat1, wit sat2 with
  | Impossible, _ => sat2
  | _, Impossible => sat1
  | _, _ =>
      match has_sig sat1, has_sig sat2 with
      | false, false => MkSatisfaction Unavailable false
      | false, true => MkSatisfaction (wit sat1) false
      | true, false => MkSatisfaction (wit sat2) false
      | true, true => MkSatisfaction (witness_min (wit sat1) (wit sat2)) true
      end
  end.

Definition minimum_mall (sat1 sat2 : Satisfaction) : Satisfaction :=
  match wit sat1, wit sat2 with
  | Impossible, _ | Unavailable, _ => sat2
  | _, Impossible | _, Unavailable => sat1
  | _, _ =>
      MkSatisfaction (witness_min (wit sat1) (wit sat2)) (has_sig sat1 && has_sig sat2)
  end.

(** ** Thresholds *)

Definition i64_MAX : Z := 2 ^ 63 - 1.
Definition i64_MIN : Z := - 2 ^ 63.

Definition stack_weight (sat dissat : Satisfaction) : Z :=
  match wit sat, wit dissat with
  | Unavailable, _ | Impossible, _ => i64_MAX
  | _, Unavailable | _, Impossible => i64_MIN
  | WStack s, WStack d => Z.of_nat (witness_size s) - Z.of_nat (witness_size d)
  end.

(** A sort key [(bool, bool, i64)] in lexicographic order. *)
Definition SortKey : Type := bool * bool * Z.

Definition bool_cmp (a b : bool) : comparison :=
  match a, b with false, true => Lt | true, false => Gt | _, _ => Eq end.

Definition key_le (a b : SortKey) : bool :=
  match bool_cmp a.1.1 b.1.1 with
  | Lt => true
  | Gt => false
  | Eq => match bool_cmp a.1.2 b.1.2 with
          | Lt => true
          | Gt => false
          | Eq => (a.2 <=? b.2)%Z
          end
  end.

(** [sort_by_key], a stable sort. *)
Fixpoint insert_by_key {A} (key : A → SortKey) (x : A) (l : list A) : list A :=
  match l with
  | [] => [x]
  | y :: l' => if key_le (key x) (key y) then x :: l else y :: insert_by_key key x l'
  end.

Definition sort_by_key {A} (key : A → SortKey) (l : list A) : list A :=
  foldr (insert_by_key key) [] l.

(** The key of an index; an index out of range would panic, and does not occur. *)
Definition key_at (f : Satisfaction → Satisfaction → SortKey) (sats dissats : list Satisfaction)
    (i : nat) : SortKey :=
  match sats !! i, dissats !! i with
  | Some s, Some d => f s d
  | _, _ => (true, true, i64_MAX)
  end.

Definition thresh_key (s d : Satisfaction) : SortKey :=
  (bool_decide (wit s = Impossible), has_sig s, stack_weight s d).

Definition thresh_mall_key (s d : Satisfaction) : SortKey := (false, false, stack_weight s d).

Definition swap_step (sat_indices : list nat) (acc : list Satisfaction * list Satisfaction) (i : nat)
    : result Error (list Satisfaction * list Satisfaction) :=
  let '(sats, ret_stack) := acc in
  let? j := unwrap (sat_indices !! i) in
  let? s := unwrap (sats !! j) in
  let? r := unwrap (ret_stack !! j) in
  Ok (<[j := r]> sats, <[j := s]> ret_stack).

(** [for i in 0..k { mem::swap(&mut ret_stack[..], &mut sats[..]) }] *)
Definition swap_all (sat_indices : list nat) (k : nat) (sats ret_stack : list Satisfaction)
    : result Error (list Satisfaction * list Satisfaction) :=
  try_fold (swap_step sat_indices) (sats, ret_stack) (seq 0 k).

Definition flatten (ret_stack : list Satisfaction) : Satisfaction :=
  MkSatisfaction (fold_left (λ acc next, wcombine (wit next) acc) ret_stack wempty)
    (existsb has_sig ret_stack).

Definition assert_ {A} (b : bool) (k : result Error A) : result Error A := if b then k else Panic.

(** The threshold functions get the (dis)satisfactions of the children, which the source
    computes by calling the helpers with the same functions. *)
Definition thresh (k : nat) (sats dissats : list Satisfaction) : result Error Satisfaction :=
  let sat_indices := sort_by_key (key_at thresh_key sats dissats) (seq 0 (length sats)) in
  let? (sats, ret_stack) := swap_all sat_indices k sats dissats in
  assert_ (0 <? k) (
    let? last := unwrap (sat_indices !! (k - 1)) in
    let? last := unwrap (sats !! last) in
    if bool_decide (wit last = Impossible) then Ok (MkSatisfaction Impossible false)
    else
      let? left_over :=
        if k <? length sat_indices then
          let? i := unwrap (sat_indices !! k) in
          let? s := unwrap (sats !! i) in
          Ok (negb (has_sig s) && negb (bool_decide (wit s = Impossible)))
        else Ok false in
      if left_over : bool then
        assert_ (forallb (λ sat, negb (has_sig sat)) ret_stack)
          (Ok (MkSatisfaction Unavailable false))
      else Ok (flatten ret_stack)).

Definition thresh_mall (k : nat) (sats dissats : list Satisfaction) : result Error Satisfaction :=
  let sat_indices := sort_by_key (key_at thresh_mall_key sats dissats) (seq 0 (length sats)) in
  let? (_, ret_stack) := swap_all sat_indices k sats dissats in
  Ok (flatten ret_stack).
End witness.

(** ** Fragments *)

Section fragments.
Context {Pk : Type} `{MiniscriptKey Pk} `{BitcoinKeys} `{!ToPublicKey Pk} `{!ScriptBuilder}.
Context `{!LeafHashes} `{!Signatures} (ctx : ScriptContext) (stfr : Satisfier Pk).
Context (leaf_hash : TapLeafHash).

Definition signature (pk : Pk) : Witness :=
  match sig_type ctx with
  | Ecdsa => match lookup_ecdsa_sig stfr pk with
             | Some sig => WStack [elementssig_to_rawsig sig]
             | None => Impossible
             end
  | Schnorr => match lookup_tap_leaf_script_sig stfr pk leaf_hash with
               | Some sig => WStack [schnorr_to_vec sig]
               | None => Impossible
               end
  end.

Definition pkh_public_key (pkh : hash_n 20) : Witness :=
  match sig_type ctx with
  | Ecdsa => match lookup_raw_pkh_pk stfr pkh with
             | Some pk => WStack [pubkey_bytes pk]
             | None => Unavailable
             end
  | Schnorr => match lookup_raw_pkh_x_only_pk stfr pkh with
               | Some pk => WStack [xonly_serialize pk]
               | None => Unavailable
               end
  end.

Definition pkh_signature (pkh : hash_n 20) : Witness :=
  match sig_type ctx with
  | Ecdsa => match lookup_raw_pkh_ecdsa_sig stfr pkh with
             | Some (pk, sig) => WStack [elementssig_to_rawsig sig; pubkey_bytes pk]
             | None => Impossible
             end
  | Schnorr => match lookup_raw_pkh_tap_leaf_script_sig stfr (pkh, leaf_hash) with
               | Some (pk, sig) => WStack [schnorr_to_vec sig; xonly_serialize pk]
               | None => Impossible
               end
  end.

(** The four preimage lookups. *)
Definition preimage_witness (p : option Preimage32) : Witness :=
  match p with Some pre => WStack [hash_bytes pre] | None => Unavailable end.

Definition pk_bytes (pk : Pk) : bytes :=
  match sig_type ctx with
  | Ecdsa => pubkey_bytes (to_public_key pk)
  | Schnorr => xonly_serialize (to_x_only_pubkey pk)
  end.

(** The satisfaction of a time lock. *)
Definition time_witness (root_has_sig met : bool) : Witness :=
  if met then wempty else if root_has_sig then Impossible else Unavailable.

(** *** [multi] *)

(** The signatures of the keys that have one, in order. *)
Fixpoint collect_sigs (keys : list Pk) : result Error (list (list bytes)) :=
  match keys with
  | [] => Ok []
  | pk :: keys =>
      match signature pk with
      | WStack sig => let? sigs := collect_sigs keys in Ok (sig :: sigs)
      | Impossible => collect_sigs keys
      | Unavailable => Panic
      end
  end.

(** [max_by_key(|&(_, v)| v.len())]: the last of the longest. *)
Definition max_idx (sigs : list (list bytes)) : option nat :=
  fst <$> fold_left (λ best '(i, v),
    match best with
    | Some (_, len) => if len <=? length v then Some (i, length v) else best
    | None => Some (i, length v)
    end) (zip (seq 0 (length sigs)) sigs) (None : option (nat * nat)).

Definition throw_away (sigs : list (list bytes)) (_ : nat) : result Error (list (list bytes)) :=
  let? max_idx := unwrap (max_idx sigs) in
  Ok (<[max_idx := []]> sigs).

Definition satisfy_multi (k : nat) (keys : list Pk) : result Error Satisfaction :=
  let? sigs := collect_sigs keys in
  let sig_count := length sigs in
  if sig_count <? k then Ok sat_impossible
  else
    let? sigs := try_fold throw_away sigs (seq 0 (sig_count - k)) in
    Ok (MkSatisfaction (fold_left (λ acc sig, wcombine acc (WStack sig)) sigs push_0) true).

(** *** [multi_a] *)

(** The loop over the keys from the last: the signatures so far and their number. *)
Fixpoint multi_a_sigs (k i : nat) (keys : list Pk) (sig_count : nat) (sigs : list (list bytes))
    : result Error (nat * list (list bytes)) :=
  match keys with
  | [] => Ok (sig_count, sigs)
  | pk :: keys =>
      match signature pk with
      | WStack sig =>
          let sigs := <[i := sig]> sigs in
          let sig_count := S sig_count in
          if sig_count =? k then Ok (sig_count, sigs)
          else multi_a_sigs k (S i) keys sig_count sigs
      | Impossible => multi_a_sigs k (S i) keys sig_count sigs
      | Unavailable => Panic
      end
  end.

Definition satisfy_multi_a (k : nat) (keys : list Pk) : result Error Satisfaction :=
  let? (sig_count, sigs) := multi_a_sigs k 0 (rev keys) 0 (repeat [[]] (length keys)) in
  if sig_count <? k then Ok sat_impossible
  else Ok (MkSatisfaction (fold_left (λ acc sig, wcombine acc (WStack sig)) sigs wempty) true).
End fragments.

(** ** [satisfy_helper] and [dissatisfy_helper] *)

(** [ParseableExt::satisfy] and [dissatisfy]. *)
Class SatisfyExt (Ext : Type) `{BitcoinKeys} `{!ScriptBuilder} `{!LeafHashes} `{!Signatures} : Type := {
  ext_satisfy : ∀ {Pk} `{MiniscriptKey Pk}, Ext → Satisfier Pk → result Error Satisfaction;
  ext_dissatisfy : ∀ {Pk} `{MiniscriptKey Pk}, Ext → Satisfier Pk → result Error Satisfaction;
}.

#[export] Instance NoExt_SatisfyExt `{BitcoinKeys} `{!ScriptBuilder} `{!LeafHashes} `{!Signatures} :
  SatisfyExt NoExt := {|
  ext_satisfy _ _ (e : NoExt) := match e with end;
  ext_dissatisfy _ _ (e : NoExt) := match e with end;
|}.

Section satisfy.
Context {Pk : Type} `{MiniscriptKey Pk} `{BitcoinKeys} `{!ToPublicKey Pk} `{!ScriptBuilder}.
Context `{!LeafHashes} `{!Signatures} {Ext : Type} `{!SatisfyExt Ext}.
Context (ctx : ScriptContext) (stfr : Satisfier Pk).
Implicit Types ms : Miniscript Pk Ext.

Section helper.
Context (root_has_sig : bool) (leaf_hash : TapLeafHash).
Context (min_fn : Satisfaction → Satisfaction → Satisfaction).
Context (thresh_fn : nat → list Satisfaction → list Satisfaction → result Error Satisfaction).

Definition ok_sat (w : Witness) (b : bool) : result Error Satisfaction := Ok (MkSatisfaction w b).

Fixpoint satisfy_helper ms : result Error Satisfaction :=
  let '(MkMs t _ _) := ms in
  match t with
  | PkK pk => ok_sat (signature ctx stfr leaf_hash pk) true
  | PkH pk =>
      ok_sat (wcombine (signature ctx stfr leaf_hash pk) (WStack [pk_bytes ctx pk])) true
  | RawPkH pkh => ok_sat (pkh_signature ctx stfr leaf_hash pkh) true
  | After t => ok_sat (time_witness root_has_sig (check_after stfr t)) false
  | Older t => ok_sat (time_witness root_has_sig (check_older stfr t)) false
  | Ripemd160 h => ok_sat (preimage_witness (lookup_ripemd160 stfr h)) false
  | Hash160 h => ok_sat (preimage_witness (lookup_hash160 stfr h)) false
  | Sha256 h => ok_sat (preimage_witness (lookup_sha256 stfr h)) false
  | Hash256 h => ok_sat (preimage_witness (lookup_hash256 stfr h)) false
  | TTrue => ok_sat wempty false
  | TFalse => ok_sat Impossible false
  | Alt sub | Swap sub | Check sub | Verify sub | NonZero sub | ZeroNotEqual sub =>
      satisfy_helper sub
  | DupIf sub =>
      let? sat := satisfy_helper sub in
      ok_sat (wcombine (wit sat) push_1) (has_sig sat)
  | AndV l r | AndB l r =>
      let? l_sat := satisfy_helper l in
      let? r_sat := satisfy_helper r in
      ok_sat (wcombine (wit r_sat) (wit l_sat)) (has_sig l_sat || has_sig r_sat)
  | AndOr a b c =>
      let? a_sat := satisfy_helper a in
      let? a_nsat := dissatisfy_helper a in
      let? b_sat := satisfy_helper b in
      let? c_sat := satisfy_helper c in
      Ok (min_fn
            (MkSatisfaction (wcombine (wit b_sat) (wit a_sat)) (has_sig a_sat || has_sig b_sat))
            (MkSatisfaction (wcombine (wit c_sat) (wit a_nsat)) (has_sig a_nsat || has_sig c_sat)))
  | OrB l r =>
      let? l_sat := satisfy_helper l in
      let? r_sat := satisfy_helper r in
      let? l_nsat := dissatisfy_helper l in
      let? r_nsat := dissatisfy_helper r in
      assert_ (negb (has_sig l_nsat)) (assert_ (negb (has_sig r_nsat))
        (Ok (min_fn
               (MkSatisfaction (wcombine (wit r_sat) (wit l_nsat)) (has_sig r_sat))
               (MkSatisfaction (wcombine (wit r_nsat) (wit l_sat)) (has_sig l_sat)))))
  | OrD l r | OrC l r =>
      let? l_sat := satisfy_helper l in
      let? r_sat := satisfy_helper r in
      let? l_nsat := dissatisfy_helper l in
      assert_ (negb (has_sig l_nsat))
        (Ok (min_fn l_sat
               (MkSatisfaction (wcombine (wit r_sat) (wit l_nsat)) (has_sig r_sat))))
  | OrI l r =>
      let? l_sat := satisfy_helper l in
      let? r_sat := satisfy_helper r in
      Ok (min_fn
            (MkSatisfaction (wcombine (wit l_sat) push_1) (has_sig l_sat))
            (MkSatisfaction (wcombine (wit r_sat) push_0) (has_sig r_sat)))
  | Thresh k subs =>
      let? sats := try_map satisfy_helper subs in
      let? dissats := try_map dissatisfy_helper subs in
      thresh_fn k sats dissats
  | Multi k keys => satisfy_multi ctx stfr leaf_hash k keys
  | MultiA k keys => satisfy_multi_a ctx stfr leaf_hash k keys
  | ExtT e => ext_satisfy e stfr
  end
with dissatisfy_helper (ms : Miniscript Pk Ext) : result Error Satisfaction :=
  let '(MkMs t _ _) := ms in
  match t with
  | PkK _ => ok_sat push_0 false
  | PkH pk => ok_sat (wcombine push_0 (WStack [pk_bytes ctx pk])) false
  | RawPkH pkh => ok_sat (wcombine push_0 (pkh_public_key ctx stfr pkh)) false
  | TFalse => ok_sat wempty false
  | TTrue | Older _ | After _ => ok_sat Impossible false
  | Sha256 _ | Hash256 _ | Ripemd160 _ | Hash160 _ => ok_sat hash_dissatisfaction false
  | Alt sub | Swap sub | Check sub | ZeroNotEqual sub => dissatisfy_helper sub
  | DupIf _ | NonZero _ => ok_sat push_0 false
  | Verify _ => ok_sat Impossible false
  | AndV v other =>
      let? vsat := satisfy_helper v in
      let? odissat := dissatisfy_helper other in
      ok_sat (wcombine (wit odissat) (wit vsat)) (has_sig vsat || has_sig odissat)
  | AndB l r | OrB l r | OrD l r | AndOr l _ r =>
      let? lnsat := dissatisfy_helper l in
      let? rnsat := dissatisfy_helper r in
      ok_sat (wcombine (wit rnsat) (wit lnsat)) (has_sig rnsat || has_sig lnsat)
  | OrC _ _ => ok_sat Impossible false
  | OrI l r =>
      let? lnsat := dissatisfy_helper l in
      let dissat_1 := MkSatisfaction (wcombine (wit lnsat) push_1) (has_sig lnsat) in
      let? rnsat := dissatisfy_helper r in
      let dissat_2 := MkSatisfaction (wcombine (wit rnsat) push_0) (has_sig rnsat) in
      Ok (minimum_mall dissat_1 dissat_2)
  | Thresh _ subs =>
      let? nsats := try_map (λ sub,
        let? nsat := dissatisfy_helper sub in
        assert_ (negb (has_sig nsat)) (Ok nsat)) subs in
      ok_sat (fold_left (λ acc nsat, wcombine (wit nsat) acc) nsats wempty) false
  | Multi k _ => ok_sat (WStack (repeat [] (k + 1))) false
  | MultiA _ pks => ok_sat (WStack (repeat [] (length pks))) false
  | ExtT e => ext_dissatisfy e stfr
  end.
End helper.

Definition satisfy (root_has_sig : bool) (leaf_hash : TapLeafHash) ms : result Error Satisfaction :=
  satisfy_helper root_has_sig leaf_hash minimum thresh ms.

Definition satisfy_mall (root_has_sig : bool) (leaf_hash : TapLeafHash) ms : result Error Satisfaction :=
  satisfy_helper root_has_sig leaf_hash minimum_mall thresh_mall ms.
End satisfy.

(** ** [Miniscript::satisfy] of [src/miniscript/mod.rs] *)

Section ms_satisfy.
Context {Pk : Type} `{MiniscriptKey Pk} `{BitcoinKeys} `{!ToPublicKey Pk} `{!ScriptBuilder}.
Context `{!LeafHashes} `{!Signatures} {Ext : Type} `{!Extension Ext} `{!ParseableExt Ext} `{!SatisfyExt Ext}.
Context (ctx : ScriptContext) (stfr : Satisfier Pk).
Implicit Types ms : Miniscript Pk Ext.

(** [witness_to_scriptsig] of [src/util.rs] *)
Definition witness_to_scriptsig (witness : list bytes) : Script :=
  into_script (fold_left (λ b wit,
    match read_scriptint wit with
    | Ok n => push_int b n
    | _ => push_slice b wit
    end) witness builder_new).

(** [Ctx::check_witness] *)
Definition check_witness (witness : list bytes) : result ScriptContextError unit :=
  match ctx with
  | Legacy =>
      if gtN (length (script_bytes (witness_to_scriptsig witness))) MAX_SCRIPTSIG_SIZE
      then Err MaxScriptSigSizeExceeded else Ok tt
  | Segwitv0 => segwitv0_check_witness witness
  | Tap => tap_check_witness witness
  | BareCtx | NoChecks => Ok tt
  end.

Definition finish_satisfy (sat : Satisfaction) : result Error (list bytes) :=
  match wit sat with
  | WStack stack => let? _ := map_err ContextError (check_witness stack) in Ok stack
  | Unavailable | Impossible => Err CouldNotSatisfy
  end.

Definition ms_satisfy ms : result Error (list bytes) :=
  let? script := encode ctx ms in
  let leaf_hash := TapLeafHash_from_script script in
  let? sat := satisfy ctx stfr (safe (mall (ty ms))) leaf_hash ms in
  finish_satisfy sat.

Definition ms_satisfy_malleable ms : result Error (list bytes) :=
  let? script := encode ctx ms in
  let leaf_hash := TapLeafHash_from_script script in
  let? sat := satisfy_mall ctx stfr (safe (mall (ty ms))) leaf_hash ms in
  finish_satisfy sat.
End ms_satisfy.

(** ** Translating keys: [real_translate_pk] and [to_no_checks_ms]

    [src/miniscript/astelem.rs], [src/miniscript/mod.rs] and
    [src/interpreter/inner.rs]: the interpreter evaluates a Miniscript over its own key
    type, obtained from the one that was parsed. *)

(** [Translator]: what happens to the keys and hashes of a Miniscript. *)
Record Translator (P Q E : Type) `{MiniscriptKey P} `{MiniscriptKey Q} : Type := MkTranslator {
  tr_pk : P → result E Q;
  tr_sha256 : Sha256T (Pk := P) → result E (Sha256T (Pk := Q));
  tr_hash256 : Hash256T (Pk := P) → result E (Hash256T (Pk := Q));
  tr_ripemd160 : Ripemd160T (Pk := P) → result E (Ripemd160T (Pk := Q));
  tr_hash160 : Hash160T (Pk := P) → result E (Hash160T (Pk := Q));
}.
Arguments tr_pk {P Q E _ _}.
Arguments tr_sha256 {P Q E _ _}.
Arguments tr_hash256 {P Q E _ _}.
Arguments tr_ripemd160 {P Q E _ _}.
Arguments tr_hash160 {P Q E _ _}.

Section translate.
Context {P Q E : Type} `{MiniscriptKey P} `{MiniscriptKey Q} {Ext : Type}.
Context (t : Translator P Q E).

(** The types are copied: they do not depend on the keys. *)
Fixpoint real_translate_pk (ms : Miniscript P Ext) : result E (Miniscript Q Ext) :=
  let '(MkMs node ty ext) := ms in
  let wrap (f : Miniscript Q Ext → Terminal Q Ext) sub :=
    let? sub := real_translate_pk sub in Ok (f sub) in
  let pair (f : Miniscript Q Ext → Miniscript Q Ext → Terminal Q Ext) l r :=
    let? l := real_translate_pk l in let? r := real_translate_pk r in Ok (f l r) in
  let? inner :=
    match node with
    | PkK p => let? p := tr_pk t p in Ok (PkK p)
    | PkH p => let? p := tr_pk t p in Ok (PkH p)
    | RawPkH p => Ok (RawPkH p)
    | After n => Ok (After n)
    | Older n => Ok (Older n)
    | Sha256 x => let? x := tr_sha256 t x in Ok (Sha256 x)
    | Hash256 x => let? x := tr_hash256 t x in Ok (Hash256 x)
    | Ripemd160 x => let? x := tr_ripemd160 t x in Ok (Ripemd160 x)
    | Hash160 x => let? x := tr_hash160 t x in Ok (Hash160 x)
    | TTrue => Ok TTrue
    | TFalse => Ok TFalse
    | Alt sub => wrap Alt sub
    | Swap sub => wrap Swap sub
    | Check sub => wrap Check sub
    | DupIf sub => wrap DupIf sub
    | Verify sub => wrap Verify sub
    | NonZero sub => wrap NonZero sub
    | ZeroNotEqual sub => wrap ZeroNotEqual sub
    | AndV l r => pair AndV l r
    | AndB l r => pair AndB l r
    | AndOr a b c =>
        let? a := real_translate_pk a in
        let? b := real_translate_pk b in
        let? c := real_translate_pk c in
        Ok (AndOr a b c)
    | OrB l r => pair OrB l r
    | OrD l r => pair OrD l r
    | OrC l r => pair OrC l r
    | OrI l r => pair OrI l r
    | Thresh k subs => let? subs := try_map real_translate_pk subs in Ok (Thresh k subs)
    | Multi k keys => let? keys := try_map (tr_pk t) keys in Ok (Multi k keys)
    | MultiA k keys => let? keys := try_map (tr_pk t) keys in Ok (MultiA k keys)
    | ExtT e => Ok (ExtT e)
    end in
  Ok (MkMs inner ty ext).
End translate.

(** ** Translations that cannot fail *)

Section total.
Context {P Q E : Type} `{MiniscriptKey P} `{MiniscriptKey Q} {Ext : Type}.
Context (pk : P → Q) (sha256 : Sha256T (Pk := P) → Sha256T (Pk := Q)).
Context (hash256 : Hash256T (Pk := P) → Hash256T (Pk := Q)).
Context (ripemd160 : Ripemd160T (Pk := P) → Ripemd160T (Pk := Q)).
Context (hash160 : Hash160T (Pk := P) → Hash160T (Pk := Q)).

Definition total_translator : Translator P Q E := {|
  tr_pk p := Ok (pk p);
  tr_sha256 h := Ok (sha256 h);
  tr_hash256 h := Ok (hash256 h);
  tr_ripemd160 h := Ok (ripemd160 h);
  tr_hash160 h := Ok (hash160 h);
|}.

Fixpoint map_pk (ms : Miniscript P Ext) : Miniscript Q Ext :=
  let '(MkMs node ty ext) := ms in
  MkMs
    match node with
    | PkK p => PkK (pk p)
    | PkH p => PkH (pk p)
    | RawPkH p => RawPkH p
    | After n => After n
    | Older n => Older n
    | Sha256 x => Sha256 (sha256 x)
    | Hash256 x => Hash256 (hash256 x)
    | Ripemd160 x => Ripemd160 (ripemd160 x)
    | Hash160 x => Hash160 (hash160 x)
    | TTrue => TTrue
    | TFalse => TFalse
    | Alt s => Alt (map_pk s)
    | Swap s => Swap (map_pk s)
    | Check s => Check (map_pk s)
    | DupIf s => DupIf (map_pk s)
    | Verify s => Verify (map_pk s)
    | NonZero s => NonZero (map_pk s)
    | ZeroNotEqual s => ZeroNotEqual (map_pk s)
    | AndV l r => AndV (map_pk l) (map_pk r)
    | AndB l r => AndB (map_pk l) (map_pk r)
    | AndOr a b c => AndOr (map_pk a) (map_pk b) (map_pk c)
    | OrB l r => OrB (map_pk l) (map_pk r)
    | OrD l r => OrD (map_pk l) (map_pk r)
    | OrC l r => OrC (map_pk l) (map_pk r)
    | OrI l r => OrI (map_pk l) (map_pk r)
    | Thresh k subs => Thresh k (map map_pk subs)
    | Multi k keys => Multi k (map pk keys)
    | MultiA k keys => MultiA k (map pk keys)
    | ExtT e => ExtT e
    end ty ext.

Lemma try_map_total {A B} (f : A → result E B) (g : A → B) l :
  Forall (λ x, f x = Ok (g x)) l → try_map f l = Ok (map g l).
Proof. induction 1 as [|x l Hx _ IH]; [done|]. cbn. by rewrite Hx, IH. Qed.

Lemma translate_total ms : real_translate_pk total_translator ms = Ok (map_pk ms).
Proof.
  induction ms as [t mty mext IH] using Miniscript_tree_ind.
  destruct t; cbn [children] in IH; rewrite ?Forall_cons_iff in IH; cbn [real_translate_pk map_pk];
    repeat match goal with Hx : _ ∧ _ |- _ => destruct Hx as [-> Hx] end; try done.
  - by rewrite (try_map_total _ map_pk).
  - rewrite (try_map_total _ pk); [done|]. by apply Forall_forall.
  - rewrite (try_map_total _ pk); [done|]. by apply Forall_forall.
Qed.
End total.

(** ** [to_no_checks_ms]

    The keys of a script are full keys or, under Tapscript, x-only keys; their hash types
    are the hashes themselves. *)
Section no_checks.
Context {Pk : Type} `{MiniscriptKey Pk} `{BitcoinKeys} `{!ToPublicKey Pk} `{!Signatures}.
Context {Ext : Type} (ctx : ScriptContext).

Definition no_checks_key (k : Pk) : BitcoinKey :=
  match sig_type ctx with
  | Ecdsa => Fullkey (to_public_key k)
  | Schnorr => XOnlyKey (to_x_only_pubkey k)
  end.

Definition no_checks_translator : Translator Pk BitcoinKey unit :=
  total_translator (Q := BitcoinKey) no_checks_key to_sha256 to_hash256 to_ripemd160 to_hash160.

(** [.expect("Translation should succeed")] *)
Definition to_no_checks_ms (ms : Miniscript Pk Ext) : result Error (Miniscript BitcoinKey Ext) :=
  match real_translate_pk no_checks_translator ms with
  | Ok ms => Ok ms
  | Err _ | Panic => Panic
  end.

Definition no_checks (ms : Miniscript Pk Ext) : Miniscript BitcoinKey Ext :=
  map_pk (Q := BitcoinKey) no_checks_key to_sha256 to_hash256 to_ripemd160 to_hash160 ms.

Lemma to_no_checks_total ms : to_no_checks_ms ms = Ok (no_checks ms).
Proof. unfold to_no_checks_ms, no_checks_translator. by rewrite translate_total. Qed.
End no_checks.
