(* ===== verification/Choice.v ===== *)
(** * Choosing between satisfactions

    What the correctness of a satisfaction needs of the functions that choose one: the
    minimum of two is one of the two, and a threshold takes the satisfactions of exactly
    [k] children and the dissatisfactions of the others.  The malleable and the
    non-malleable functions are instances. *)

From S2P Require Import Prelude Types Extension Property Ast Tokens Context ScriptNum Script Lex Interp Satisfy.

(** ** Sorting *)

Section sort.
Context {A : Type} (key : A → SortKey).

Lemma insert_by_key_perm x l : insert_by_key key x l ≡ₚ x :: l.
Proof.
  induction l as [|y l IH]; cbn; [done|]. destruct (key_le (key x) (key y)); [done|].
  rewrite IH. constructor.
Qed.

Lemma sort_by_key_perm l : sort_by_key key l ≡ₚ l.
Proof. induction l as [|x l IH]; cbn; [done|]. by rewrite insert_by_key_perm, IH. Qed.

Lemma key_le_total a b : key_le a b = false → key_le b a = true.
Proof.
  destruct a as [[[] []] z], b as [[[] []] z']; unfold key_le; cbn; try done;
    rewrite Z.leb_gt, Z.leb_le; lia.
Qed.

Lemma key_le_trans a b c : key_le a b = true → key_le b c = true → key_le a c = true.
Proof.
  destruct a as [[[] []] z], b as [[[] []] z'], c as [[[] []] z'']; unfold key_le; cbn; try done;
    rewrite !Z.leb_le; lia.
Qed.

(** The result is sorted: every element is at most those after it. *)
Fixpoint sorted_by_key (l : list A) : Prop :=
  match l with
  | [] => True
  | x :: l => Forall (λ y, key_le (key x) (key y) = true) l ∧ sorted_by_key l
  end.

Lemma insert_by_key_sorted x l : sorted_by_key l → sorted_by_key (insert_by_key key x l).
Proof.
  induction l as [|y l IH]; cbn; [done|]. intros [Hy Hl].
  destruct (key_le (key x) (key y)) eqn:Hxy; cbn.
  - split; [|done]. constructor; [done|]. eapply Forall_impl; [|exact Hy].
    intros z. by apply key_le_trans.
  - split; [|auto]. rewrite insert_by_key_perm. constructor; [|done]. by apply key_le_total.
Qed.

Lemma sort_by_key_sorted l : sorted_by_key (sort_by_key key l).
Proof. induction l; cbn; [done|]. by apply insert_by_key_sorted. Qed.

Lemma sorted_lookup l i j x y :
  sorted_by_key l → i < j → l !! i = Some x → l !! j = Some y → key_le (key x) (key y) = true.
Proof.
  revert i j. induction l as [|z l IH]; intros i j; [done|]. intros [Hz Hl] Hij Hi Hj.
  destruct j as [|j]; [lia|]. cbn in Hj. destruct i as [|i]; cbn in Hi.
  - injection Hi as <-. by eapply Forall_lookup_1 in Hz.
  - eapply IH; [done| |done|done]. lia.
Qed.
End sort.

(** ** Picking *)

(** [picked k sats dissats ws]: the witnesses [ws] of the children, [k] of them
    satisfactions and the others dissatisfactions. *)
Inductive picked : nat → list Satisfaction → list Satisfaction → list (list bytes) → Prop :=
  | picked_nil : picked 0 [] [] []
  | picked_sat k s d w sats dissats ws :
      wit s = WStack w → picked k sats dissats ws →
      picked (S k) (s :: sats) (d :: dissats) (w :: ws)
  | picked_dissat k s d w sats dissats ws :
      wit d = WStack w → picked k sats dissats ws →
      picked k (s :: sats) (d :: dissats) (w :: ws).

(** What the two choosing functions promise. *)
Class Chooses (min_fn : Satisfaction → Satisfaction → Satisfaction)
    (thresh_fn : nat → list Satisfaction → list Satisfaction → result Error Satisfaction) : Prop := {
  min_picks s1 s2 w :
    wit (min_fn s1 s2) = WStack w → wit s1 = WStack w ∨ wit s2 = WStack w;
  thresh_picks k sats dissats s w :
    length sats = length dissats → thresh_fn k sats dissats = Ok s → wit s = WStack w →
    ∃ ws, picked k sats dissats ws ∧ w = concat (rev ws);
}.

Lemma wcombine_stack a b w :
  wcombine a b = WStack w ↔ ∃ wa wb, a = WStack wa ∧ b = WStack wb ∧ w = wa ++ wb.
Proof. destruct a, b; cbn; naive_solver. Qed.

(** ** The swaps of a threshold *)

(** The sum of the swapped positions. *)
Definition pick (p : nat → bool) (n : nat) (xs ys : list Satisfaction) : list Satisfaction :=
  imap (λ j '(x, y), if p (n + j) : bool then x else y) (zip xs ys).

Lemma pick_lookup p xs ys j x y :
  xs !! j = Some x → ys !! j = Some y → pick p 0 xs ys !! j = Some (if p j then x else y).
Proof.
  intros Hx Hy. unfold pick. rewrite list_lookup_imap.
  assert (zip xs ys !! j = Some (x, y)) as -> by (apply lookup_zip_with_Some; eauto). done.
Qed.

Lemma pick_length p n xs ys : length xs = length ys → length (pick p n xs ys) = length xs.
Proof. intros Hl. unfold pick. rewrite length_imap, length_zip. lia. Qed.

Lemma pick_cons p n x y xs ys :
  pick p n (x :: xs) (y :: ys) = (if p n then x else y) :: pick p (S n) xs ys.
Proof.
  unfold pick. cbn. rewrite Nat.add_0_r. f_equal. apply imap_ext.
  intros j [a b] _. cbn. by rewrite <-Nat.add_succ_comm.
Qed.

Definition in_first (idx : list nat) (k j : nat) : bool := bool_decide (j ∈ take k idx).

Lemma swap_all_pick idx k sats dissats :
  length sats = length dissats → NoDup idx → Forall (λ j, j < length sats) idx → k ≤ length idx →
  swap_all idx k sats dissats =
  Ok (pick (in_first idx k) 0 dissats sats, pick (in_first idx k) 0 sats dissats).
Proof.
  intros Hlen Hnd Hin. unfold swap_all. induction k as [|k IH]; intros Hk.
  - cbn. f_equal. unfold pick, in_first.
    assert (∀ xs ys : list Satisfaction, length xs = length ys →
      imap (λ j '(x, y), if bool_decide (0 + j ∈ take 0 idx) then x else y) (zip xs ys) = ys) as Hid.
    { intros xs ys Hl. apply list_eq. intros j. rewrite list_lookup_imap.
      destruct (ys !! j) as [y|] eqn:Hy.
      - assert (is_Some (xs !! j)) as [x Hx].
        { apply lookup_lt_is_Some. apply lookup_lt_Some in Hy. lia. }
        assert (zip xs ys !! j = Some (x, y)) as -> by (apply lookup_zip_with_Some; eauto). done.
      - apply lookup_ge_None in Hy. rewrite lookup_ge_None_2; [done|]. rewrite length_zip. lia. }
    by rewrite !Hid.
  - rewrite seq_S, try_fold_app, IH by lia. cbn [result_bind try_fold swap_step Nat.add].
    destruct (lookup_lt_is_Some_2 idx k) as [j Hj]; [lia|]. rewrite Hj. cbn [unwrap result_bind].
    assert (j < length sats) as Hjl by (by eapply Forall_lookup_1 in Hin).
    destruct (lookup_lt_is_Some_2 sats j) as [s Hs]; [done|].
    destruct (lookup_lt_is_Some_2 dissats j) as [d Hd]; [lia|].
    assert (in_first idx k j = false) as Hout.
    { apply bool_decide_eq_false. intros (i & Hi & Hlt)%elem_of_take.
      pose proof (NoDup_lookup _ _ _ _ Hnd Hi Hj). lia. }
    rewrite (pick_lookup _ dissats sats j d s), (pick_lookup _ sats dissats j s d), Hout by done.
    cbn [unwrap result_bind].
    assert (∀ xs ys x y, length xs = length ys → xs !! j = Some x → ys !! j = Some y →
      <[j := x]> (pick (in_first idx k) 0 xs ys) = pick (in_first idx (S k)) 0 xs ys) as Hins.
    { intros xs ys x y Hl Hx Hy. apply list_eq. intros i. unfold pick.
      rewrite list_lookup_imap. destruct (decide (i = j)) as [->|Hne].
      - rewrite list_lookup_insert_eq.
        + assert (zip xs ys !! j = Some (x, y)) as -> by (apply lookup_zip_with_Some; eauto).
          cbn. unfold in_first. rewrite bool_decide_eq_true_2; [done|].
          rewrite (take_S_r _ _ j) by done. apply elem_of_app. right. by left.
        + rewrite length_imap, length_zip. apply lookup_lt_Some in Hx, Hy. lia.
      - rewrite list_lookup_insert_ne, list_lookup_imap by done.
        destruct (zip xs ys !! i) as [[a b]|]; [|done]. cbn. unfold in_first.
        rewrite (take_S_r idx k j) by done.
        assert (bool_decide (i ∈ take k idx) = bool_decide (i ∈ take k idx ++ [j])) as -> by
          (apply bool_decide_ext; rewrite elem_of_app, list_elem_of_singleton; naive_solver).
        done. }
    by rewrite (Hins dissats sats d s), (Hins sats dissats s d) by done.
Qed.

(** ** Flattening *)

Lemma fold_combine_stack ret acc w :
  fold_left (λ acc next, wcombine (wit next) acc) ret acc = WStack w ↔
  ∃ ws w0, acc = WStack w0 ∧ Forall2 (λ s w, wit s = WStack w) ret ws ∧ w = concat (rev ws) ++ w0.
Proof.
  revert acc. induction ret as [|s ret IH]; intros acc; cbn [fold_left].
  - split.
    + intros ->. exists [], w. by repeat split.
    + intros (ws & w0 & -> & Hws & ->). by inversion Hws.
  - rewrite IH. split.
    + intros (ws & w0 & Hacc & Hws & ->). apply wcombine_stack in Hacc as (wa & wb & Hs & -> & ->).
      exists (wa :: ws), wb. split_and!; [done|by constructor|].
      cbn [rev]. rewrite concat_app. cbn. by rewrite app_nil_r, <-app_assoc.
    + intros (ws & w0 & -> & Hws & ->). inversion Hws as [|? wa ? ws' Hs Hws']; subst.
      exists ws', (wa ++ w0). rewrite Hs. split_and!; [done|done|].
      cbn [rev]. rewrite concat_app. cbn. by rewrite app_nil_r, <-app_assoc.
Qed.

Lemma flatten_stack ret w :
  wit (flatten ret) = WStack w →
  ∃ ws, Forall2 (λ s w, wit s = WStack w) ret ws ∧ w = concat (rev ws).
Proof.
  intros (ws & w0 & [= <-] & Hws & ->)%fold_combine_stack. exists ws. by rewrite app_nil_r.
Qed.

Definition count_true (p : nat → bool) (l : list nat) : nat := length (filter (λ j, p j = true) l).

Lemma picked_pick p sats dissats : length sats = length dissats →
  ∀ n ws, Forall2 (λ s w, wit s = WStack w) (pick p n sats dissats) ws →
  picked (count_true p (seq n (length sats))) sats dissats ws.
Proof.
  revert dissats. induction sats as [|s sats IH]; intros [|d dissats] Hlen n ws Hws; try done.
  - inversion Hws. constructor.
  - rewrite pick_cons in Hws. inversion Hws as [|? w ? ws' Hw Hws']; subst.
    cbn [length seq]. unfold count_true. rewrite filter_cons.
    injection Hlen as Hlen. specialize (IH _ Hlen _ _ Hws'). destruct (p n) eqn:Hp.
    + rewrite decide_True by done. cbn. by apply picked_sat.
    + rewrite decide_False by done. by apply picked_dissat.
Qed.

Lemma count_first idx n k : idx ≡ₚ seq 0 n → k ≤ n → count_true (in_first idx k) (seq 0 n) = k.
Proof.
  intros Hp Hk. unfold count_true.
  assert (NoDup idx) as Hnd by (rewrite Hp; apply NoDup_seq).
  assert (filter (λ j, in_first idx k j = true) (seq 0 n) ≡ₚ take k idx) as ->.
  - apply NoDup_Permutation.
    + apply list.NoDup_filter, NoDup_seq.
    + rewrite <-(take_drop k idx) in Hnd. by apply list.NoDup_app in Hnd as (? & _ & _).
    + intros j. rewrite list_elem_of_filter. unfold in_first. rewrite bool_decide_eq_true, <-Hp.
      split; [by intros [? _]|]. intros Hj. split; [done|].
      rewrite <-(take_drop k idx). apply elem_of_app. by left.
  - rewrite length_take, Hp, length_seq. lia.
Qed.

Lemma swap_all_inv idx k sats dissats r :
  length sats = length dissats → idx ≡ₚ seq 0 (length sats) →
  swap_all idx k sats dissats = Ok r →
  k ≤ length sats ∧
  r = (pick (in_first idx k) 0 dissats sats, pick (in_first idx k) 0 sats dissats).
Proof.
  intros Hlen Hp Hr. assert (length idx = length sats) as Hl by (by rewrite Hp, length_seq).
  assert (k ≤ length sats) as Hk.
  { destruct (decide (k ≤ length sats)) as [|Hgt]; [done|]. exfalso. revert Hr. unfold swap_all.
    assert (k = length sats + S (k - length sats - 1)) as -> by lia.
    rewrite seq_app, try_fold_app. cbn [seq]. intros (acc & _ & Hr)%bind_Ok.
    cbn [try_fold] in Hr. apply bind_Ok in Hr as (acc' & Hr & _). destruct acc as [a b].
    unfold swap_step in Hr. rewrite lookup_ge_None_2 in Hr by (cbn; lia). done. }
  split; [done|]. rewrite swap_all_pick in Hr.
  - by injection Hr as <-.
  - done.
  - rewrite Hp. apply NoDup_seq.
  - rewrite Hp. apply Forall_seq. lia.
  - lia.
Qed.

Lemma flatten_picked idx k sats dissats w :
  length sats = length dissats → idx ≡ₚ seq 0 (length sats) → k ≤ length sats →
  wit (flatten (pick (in_first idx k) 0 sats dissats)) = WStack w →
  ∃ ws, picked k sats dissats ws ∧ w = concat (rev ws).
Proof.
  intros Hlen Hp Hk (ws & Hws & ->)%flatten_stack. exists ws. split; [|done].
  rewrite <-(count_first idx (length sats) k) by done. by apply picked_pick.
Qed.

Section instances.
Context `{BitcoinKeys} `{!ScriptBuilder} `{!LeafHashes}.

Lemma witness_min_or a b : witness_min a b = a ∨ witness_min a b = b.
Proof. unfold witness_min. destruct (witness_cmp a b); auto. Qed.

#[export] Instance Chooses_mall : Chooses minimum_mall thresh_mall.
Proof.
  split.
  - intros s1 s2 w. unfold minimum_mall. destruct (wit s1) eqn:Hw1, (wit s2) eqn:Hw2; cbn; rewrite ?Hw1, ?Hw2; try (by auto).
    destruct (witness_min_or (WStack stack) (WStack stack0)) as [->| ->]; auto.
  - intros k sats dissats s w Hlen Hs Hw. unfold thresh_mall in Hs.
    apply bind_Ok in Hs as ([sats' ret] & Hr & [= <-]).
    apply swap_all_inv in Hr as (Hk & [= -> ->]); [|done|apply sort_by_key_perm].
    eapply flatten_picked; [done|apply sort_by_key_perm|done|done].
Qed.

#[export] Instance Chooses_nonmall : Chooses minimum thresh.
Proof.
  split.
  - intros s1 s2 w. unfold minimum. destruct (wit s1) eqn:Hw1, (wit s2) eqn:Hw2; rewrite ?Hw1, ?Hw2; try (by auto);
      destruct (has_sig s1), (has_sig s2); cbn; try (by auto).
    all: match goal with |- witness_min ?a ?b = _ → _ =>
           destruct (witness_min_or a b) as [->| ->]; auto end.
  - intros k sats dissats s w Hlen Hs Hw. unfold thresh in Hs.
    apply bind_Ok in Hs as ([sats' ret] & Hr & Hs).
    apply swap_all_inv in Hr as (Hk & [= -> ->]); [|done|apply sort_by_key_perm].
    unfold assert_ in Hs. case_match; [|done].
    apply bind_Ok in Hs as (i & _ & Hs). apply bind_Ok in Hs as (lst & _ & Hs).
    case_bool_decide; [by injection Hs as <-|].
    apply bind_Ok in Hs as (b & _ & Hs). destruct b.
    + case_match; [|done]. by injection Hs as <-.
    + injection Hs as <-. eapply flatten_picked; [done|apply sort_by_key_perm|done|done].
Qed.
End instances.
