(* ===== verification/SatShape.v ===== *)
(** * The shape of satisfactions

    What the witnesses of the multisig fragments consist of, and how the input type of a
    fragment shows in its witness: fragments of input zero need none, and the witness of
    a nonzero fragment ends in a nonempty element.  The laws of signatures and keys that
    the satisfier and the interpreter rely on are stated here. *)

From S2P Require Import Prelude Types Extension Property Ast Typing Resources Tokens Context ScriptNum Script Encoding Lex Interp Satisfy Choice.

(** Serialized signatures and keys are parsed back and are neither empty nor [[1]]; the
    hash of a key is that of its serialization. *)
Class SignaturesOk `{Signatures} : Prop := {
  from_der_serialize s : from_der (serialize_der s) = Some s;
  serialize_der_length s : 8 ≤ length (serialize_der s);
  sighash_from_as t : sighash_from_u32 (Byte.to_N (sighash_as_u8 t)) = t;
  schnorr_from_to s : schnorr_from_slice (schnorr_to_vec s) = Some s;
  schnorr_length s : 2 ≤ length (schnorr_to_vec s);
  PublicKey_from_bytes k : PublicKey_from_slice (pubkey_bytes k) = Some k;
  PublicKey_length k : 33 ≤ length (pubkey_bytes k);
  XOnly_from_serialize k : XOnly_from_slice (xonly_serialize k) = Some k;
  XOnly_length k : 2 ≤ length (xonly_serialize k);
  PublicKey_pubkeyhash k : PublicKey_to_pubkeyhash k Ecdsa = hash160_hash (pubkey_bytes k);
  XOnly_pubkeyhash k : XOnly_to_pubkeyhash k Schnorr = hash160_hash (xonly_serialize k);
}.

Lemma PublicKey_long `{SignaturesOk} k : 2 ≤ length (pubkey_bytes k).
Proof. pose proof (PublicKey_length k). lia. Qed.

Section shape.
Context {Pk : Type} `{MiniscriptKey Pk} `{BitcoinKeys} `{!ToPublicKey Pk} `{!ScriptBuilder}.
Context `{!LeafHashes} `{!Signatures} `{!SignaturesOk} {Ext : Type} `{!SatisfyExt Ext} `{!Extension Ext} `{LockTimes}.
Context (ctx : ScriptContext) (stfr : Satisfier Pk) (leaf_hash : TapLeafHash).

Lemma signature_Stack pk v :
  signature ctx stfr leaf_hash pk = WStack v → ∃ b, v = [b] ∧ 2 ≤ length b.
Proof.
  unfold signature, elementssig_to_rawsig. destruct (sig_type ctx).
  - destruct (lookup_ecdsa_sig stfr pk) as [s|]; [|done]. intros [= <-]. eexists. split; [done|].
    pose proof (serialize_der_length s.1). rewrite length_app. cbn. lia.
  - destruct (lookup_tap_leaf_script_sig stfr pk leaf_hash) as [s|]; [|done]. intros [= <-].
    eexists. split; [done|]. apply schnorr_length.
Qed.

Lemma signature_not_Unavailable pk : signature ctx stfr leaf_hash pk ≠ Unavailable.
Proof. unfold signature. repeat case_match; done. Qed.

Lemma pk_bytes_length pk : 2 ≤ length (pk_bytes ctx pk).
Proof. unfold pk_bytes. case_match; [apply PublicKey_long|apply XOnly_length]. Qed.

(** ** [multi] *)

(** A key of a multisig with its signature, if it has one and it is kept. *)
Definition signs (pk : Pk) (b : bytes) : Prop := signature ctx stfr leaf_hash pk = WStack [b].

(** The witness of [k] of the keys, in order. *)
Definition multi_witness (k : nat) (keys : list Pk) (w : list bytes) : Prop :=
  ∃ cs : list (Pk * bytes),
    map fst cs `sublist_of` keys ∧ length cs = k ∧ Forall (λ c, signs c.1 c.2) cs ∧
    w = [] :: map snd cs.

(** The slots while signatures are thrown away. *)
Definition slot (c : Pk * bytes * bool) : list bytes := if c.2 then [c.1.2] else [].
Definition kept (l : list (Pk * bytes * bool)) : list (Pk * bytes) :=
  map fst (filter (λ c, c.2 = true) l).

Lemma collect_sigs_spec keys sigs :
  collect_sigs ctx stfr leaf_hash keys = Ok sigs →
  ∃ cs, map fst cs `sublist_of` keys ∧ Forall (λ c, signs c.1 c.2) cs ∧ sigs = map (λ c, [c.2]) cs.
Proof.
  revert sigs. induction keys as [|pk keys IH]; intros sigs; cbn [collect_sigs].
  { intros [= <-]. exists []. split_and!; constructor. }
  destruct (signature ctx stfr leaf_hash pk) as [v| |] eqn:Hs; [|done|].
  - intros (sigs' & Hc & [= <-])%bind_Ok. destruct (IH _ Hc) as (cs & Hsub & Hall & ->).
    destruct (signature_Stack _ _ Hs) as (b & -> & _).
    exists ((pk, b) :: cs). cbn. split_and!; [by apply sublist_skip|by constructor|done].
  - intros Hc. destruct (IH _ Hc) as (cs & Hsub & Hall & ->).
    exists cs. split_and!; [by apply sublist_cons|done|done].
Qed.

(** The index found holds a longest slot. *)
Lemma max_idx_spec (l : list (list bytes)) :
  l ≠ [] → ∃ i v, max_idx l = Some i ∧ l !! i = Some v ∧ Forall (λ u, length u ≤ length v) l.
Proof.
  intros Hl. unfold max_idx.
  assert (∃ i v, fold_left (λ best '(i, v),
      match best with
      | Some (_, len) => if len <=? length v then Some (i, length v) else best
      | None => Some (i, length v)
      end) (zip (seq 0 (length l)) l) None = Some (i, length v) ∧ l !! i = Some v ∧
      Forall (λ u, length u ≤ length v) l) as (i & v & -> & Hi & Hv).
  { induction l as [|u l IH] using rev_ind; [done|].
    rewrite length_app, Nat.add_1_r, seq_S, Nat.add_0_l.
    rewrite zip_with_app by (by rewrite length_seq). rewrite fold_left_app. cbn [zip_with fold_left].
    destruct l as [|u0 l0].
    - exists 0, u. split_and!; [done|done|]. by repeat constructor.
    - destruct IH as (i & v & -> & Hi & Hv); [done|].
      destruct (length v <=? length u) eqn:Hle.
      + exists (length (u0 :: l0)), u. split_and!; [done|by rewrite lookup_app_r, Nat.sub_diag by lia|].
        apply Nat.leb_le in Hle. apply Forall_app. split; [|by repeat constructor].
        eapply Forall_impl; [|exact Hv]. cbn. lia.
      + apply Nat.leb_gt in Hle. exists i, v. split_and!; [done|by apply lookup_app_l_Some|].
        apply Forall_app. split; [done|]. repeat constructor. lia. }
  by exists i, v.
Qed.

Lemma kept_cons c l : kept (c :: l) = if c.2 : bool then c.1 :: kept l else kept l.
Proof. unfold kept. rewrite filter_cons. by destruct c as [c []]. Qed.

Lemma kept_nil l : Forall (λ c, slot c = []) l → kept l = [].
Proof.
  induction 1 as [|[c []] l Hc _ IH]; [done|done|]. by rewrite kept_cons.
Qed.

Lemma kept_app l l' : kept (l ++ l') = kept l ++ kept l'.
Proof. unfold kept. by rewrite list.filter_app, map_app. Qed.

Lemma kept_snoc_clear l1 c l2 :
  c.2 = true → length (kept (l1 ++ (c.1, false) :: l2)) = length (kept (l1 ++ c :: l2)) - 1 ∧
  kept (l1 ++ (c.1, false) :: l2) `sublist_of` kept (l1 ++ c :: l2).
Proof.
  destruct c as [c b]. cbn. intros ->. rewrite !kept_app, !kept_cons. cbn [fst snd].
  rewrite !length_app. cbn [length]. split; [lia|]. apply sublist_app; [done|]. by apply sublist_cons.
Qed.

Lemma throw_away_spec l i sigs :
  0 < length (kept l) → throw_away (map slot l) i = Ok sigs →
  ∃ l', sigs = map slot l' ∧ length (kept l') = length (kept l) - 1 ∧ kept l' `sublist_of` kept l.
Proof.
  intros Hk. unfold throw_away.
  destruct (max_idx_spec (map slot l)) as (j & v & -> & Hj & Hv).
  { destruct l; [cbn in Hk; lia|done]. }
  cbn. intros [= <-]. apply list_lookup_fmap_Some_1 in Hj as (c & -> & Hc).
  assert (c.2 = true) as Hct.
  { destruct c as [[pk b] [|]]; [done|]. exfalso. rewrite kept_nil in Hk; [cbn in Hk; lia|].
    apply Forall_map in Hv. eapply Forall_impl; [|exact Hv].
    intros [[pk' b'] [|]]; cbn; [lia|done]. }
  clear Hv. apply list_elem_of_split_length in Hc as (l1 & l2 & -> & ->). rewrite map_app. cbn [map].
  rewrite <-(length_map slot l1), list_insert_middle.
  exists (l1 ++ (c.1, false) :: l2). rewrite map_app. split; [done|]. by apply kept_snoc_clear.
Qed.

Lemma throw_all_spec n l sigs :
  n ≤ length (kept l) → try_fold throw_away (map slot l) (seq 0 n) = Ok sigs →
  ∃ l', sigs = map slot l' ∧ length (kept l') = length (kept l) - n ∧ kept l' `sublist_of` kept l.
Proof.
  revert sigs. induction n as [|n IH]; intros sigs Hn.
  { intros [= <-]. exists l. split_and!; [done|lia|done]. }
  rewrite seq_S, try_fold_app. intros (sigs' & Ha & Hb)%bind_Ok.
  destruct (IH sigs') as (l' & -> & Hl & Hsub); [lia|done|].
  cbn [try_fold] in Hb. apply bind_Ok in Hb as (sigs'' & Hb & [= <-]).
  apply throw_away_spec in Hb as (l'' & -> & Hl' & Hsub'); [|lia].
  exists l''. split_and!; [done|lia|by etrans].
Qed.

Lemma concat_slots l : concat (map slot l) = map snd (kept l).
Proof.
  induction l as [|[[pk b] []] l IH]; [done|..]; cbn [map concat]; by rewrite IH, kept_cons.
Qed.

Lemma fold_push_stack sigs acc :
  fold_left (λ acc sig, wcombine acc (WStack sig)) sigs (WStack acc) = WStack (acc ++ concat sigs).
Proof.
  revert acc. induction sigs as [|v sigs IH]; intros acc; cbn [fold_left concat].
  - by rewrite app_nil_r.
  - cbn [wcombine]. by rewrite IH, app_assoc.
Qed.

Lemma satisfy_multi_witness k keys s w :
  satisfy_multi ctx stfr leaf_hash k keys = Ok s → wit s = WStack w → multi_witness k keys w.
Proof.
  unfold satisfy_multi. intros (sigs & Hc & Hs)%bind_Ok.
  destruct (collect_sigs_spec _ _ Hc) as (cs & Hsub & Hall & ->).
  rewrite length_map in Hs. destruct (Nat.ltb_spec (length cs) k) as [|Hk]; [by injection Hs as <-|].
  apply bind_Ok in Hs as (sigs & Ht & [= <-]). cbn.
  assert (map (λ c, [c.2]) cs = map slot (map (λ c, (c, true)) cs)) as Heq by (by rewrite map_map).
  assert (kept (map (λ c, (c, true)) cs) = cs) as Hkept.
  { clear. induction cs as [|c cs IH]; [done|]. cbn [map]. by rewrite kept_cons, IH. }
  rewrite Heq in Ht. apply throw_all_spec in Ht as (l & -> & Hl & Hsub'); [|rewrite Hkept; lia].
  rewrite Hkept in *. unfold push_0. rewrite fold_push_stack, concat_slots. intros [= <-].
  exists (kept l). split_and!; [|lia| |done].
  - etrans; [|exact Hsub]. by apply sublist_map.
  - by eapply sublist_Forall.
Qed.

(** ** [multi_a] *)

Fixpoint count_some (l : list (option bytes)) : nat :=
  match l with [] => 0 | o :: l => (if o then 1 else 0) + count_some l end.

Lemma count_some_app l l' : count_some (l ++ l') = count_some l + count_some l'.
Proof. induction l as [|o l IH]; [done|]. cbn. rewrite IH. lia. Qed.
Lemma count_some_rev l : count_some (rev l) = count_some l.
Proof. induction l as [|o l IH]; [done|]. cbn. rewrite count_some_app, IH. cbn. lia. Qed.
Lemma count_some_none n : count_some (repeat None n) = 0.
Proof. by induction n. Qed.

(** The signature of each key, if it has one and it is used. *)
Definition multi_a_witness (k : nat) (keys : list Pk) (w : list bytes) : Prop :=
  ∃ vals : list (option bytes),
    Forall2 (λ pk o, ∀ b, o = Some b → signs pk b) keys vals ∧
    count_some vals = k ∧
    w = rev (map (default []) vals).

Lemma multi_a_sigs_spec k keys : ∀ pre cnt cnt' sigs,
  multi_a_sigs ctx stfr leaf_hash k (length pre) keys cnt (pre ++ repeat [[]] (length keys)) = Ok (cnt', sigs) →
  cnt < k →
  ∃ vals, Forall2 (λ pk o, ∀ b, o = Some b → signs pk b) keys vals ∧
    sigs = pre ++ map (λ o, [default [] o]) vals ∧
    cnt' = cnt + count_some vals ∧ cnt' ≤ k.
Proof.
  induction keys as [|pk keys IH]; intros pre cnt cnt' sigs; cbn [multi_a_sigs length repeat].
  { intros [= <- <-] Hlt. exists []. split_and!; [constructor|done|cbn; lia|lia]. }
  assert (∀ v o cnt0, v = [default [] o] → (∀ b, o = Some b → signs pk b) → cnt0 < k →
    multi_a_sigs ctx stfr leaf_hash k (S (length pre)) keys cnt0
      (pre ++ v :: repeat [[]] (length keys)) = Ok (cnt', sigs) →
    cnt0 = cnt + (if o then 1 else 0) →
    ∃ vals, Forall2 (λ pk o, ∀ b, o = Some b → signs pk b) (pk :: keys) vals ∧
      sigs = pre ++ map (λ o, [default [] o]) vals ∧
      cnt' = cnt + count_some vals ∧ cnt' ≤ k) as Hstep.
  { intros v o cnt0 -> Ho Hlt Hm Hcnt. rewrite (cons_middle _ pre), app_assoc in Hm.
    rewrite <-Nat.add_1_r in Hm. change 1 with (length [[default [] o]]) in Hm.
    rewrite <-length_app in Hm. apply IH in Hm as (vals & Hf & -> & -> & Hle); [|done].
    exists (o :: vals). split_and!; [by constructor|by rewrite <-app_assoc| |done].
    cbn. lia. }
  destruct (signature ctx stfr leaf_hash pk) as [v| |] eqn:Hs; [|done|].
  - destruct (signature_Stack _ _ Hs) as (b & -> & _). rewrite list_insert_middle.
    case_match eqn:Hk; intros Hm Hlt.
    + injection Hm as <- <-. apply Nat.eqb_eq in Hk.
      exists (Some b :: repeat None (length keys)). split_and!.
      * constructor; [by intros ? [= <-]|]. apply Forall2_same_length_lookup_2; [by rewrite repeat_length|].
        intros i x y _ Hy b' ->. apply list_elem_of_lookup_2, list_elem_of_In, repeat_spec in Hy. done.
      * cbn. f_equal. f_equal. by rewrite map_repeat.
      * cbn. rewrite count_some_none. lia.
      * lia.
    + apply (Hstep [b] (Some b) (S cnt)); [done|by intros ? [= <-]|apply Nat.eqb_neq in Hk; lia|done|lia].
  - intros Hm Hlt. apply (Hstep [[]] None cnt); [done|done|done|done|lia].
Qed.

Lemma satisfy_multi_a_witness k keys s w :
  1 ≤ k → satisfy_multi_a ctx stfr leaf_hash k keys = Ok s → wit s = WStack w → multi_a_witness k keys w.
Proof.
  intros Hk. unfold satisfy_multi_a. intros ([cnt sigs] & Hm & Hs)%bind_Ok.
  rewrite <-(length_rev keys) in Hm. apply (multi_a_sigs_spec k (rev keys) []) in Hm
    as (vals & Hf & -> & -> & Hle); [|lia]. cbn [app] in *.
  destruct (Nat.ltb_spec (0 + count_some vals) k); [by injection Hs as <-|].
  injection Hs as <-. cbn [wit]. unfold wempty. rewrite fold_push_stack. intros [= <-].
  exists (rev vals). split_and!.
  - rewrite <-(rev_involutive keys), (rev_reverse vals), (rev_reverse (rev keys)).
    by apply Forall2_reverse.
  - rewrite count_some_rev. lia.
  - rewrite map_rev, rev_involutive. cbn. clear. induction vals as [|o vals IH]; [done|]. cbn. by rewrite IH.
Qed.

(** ** Input types *)

Context (root_has_sig : bool) (min_fn : Satisfaction → Satisfaction → Satisfaction).
Context (thresh_fn : nat → list Satisfaction → list Satisfaction → result Error Satisfaction).
Context `{!Chooses min_fn thresh_fn}.
Implicit Types ms : Miniscript Pk Ext.
Notation S_ := (satisfy_helper ctx stfr root_has_sig leaf_hash min_fn thresh_fn).
Notation D_ := (dissatisfy_helper ctx stfr root_has_sig leaf_hash min_fn thresh_fn).

(** The helper returns a witness. *)
(** A witness that was found. *)
Definition found (r : result Error Satisfaction) (w : list bytes) : Prop :=
  ∃ s, r = Ok s ∧ wit s = WStack w.

Definition sat_with ms (w : list bytes) : Prop := ∃ s, S_ ms = Ok s ∧ wit s = WStack w.
Definition dissat_with ms (w : list bytes) : Prop := ∃ s, D_ ms = Ok s ∧ wit s = WStack w.

(** [picks k subs ws]: witnesses of the children, [k] of them of satisfactions. *)
Inductive picks : nat → list (Miniscript Pk Ext) → list (list bytes) → Prop :=
  | picks_nil : picks 0 [] []
  | picks_sat k s w subs ws : sat_with s w → picks k subs ws → picks (S k) (s :: subs) (w :: ws)
  | picks_dissat k s w subs ws : dissat_with s w → picks k subs ws → picks k (s :: subs) (w :: ws).

Lemma picked_picks k subs sats dissats ws :
  Forall2 (λ s r, S_ s = Ok r) subs sats → Forall2 (λ s r, D_ s = Ok r) subs dissats →
  picked k sats dissats ws → picks k subs ws.
Proof.
  intros Ha Hb Hp. revert subs Ha Hb.
  induction Hp as [|k s d w sats dissats ws Hw Hp IH|k s d w sats dissats ws Hw Hp IH];
    intros subs Ha Hb; inversion Ha; subst; inversion Hb; subst; constructor; try (by eexists); auto.
Qed.

Definition ends_nonempty (w : list bytes) : Prop := ∃ w' e, w = w' ++ [e] ∧ e ≠ [].

Lemma ends_nonempty_app w w' : ends_nonempty w' → ends_nonempty (w ++ w').
Proof. intros (w0 & e & -> & He). exists (w ++ w0), e. by rewrite app_assoc. Qed.

(** Takes a successful computation of a satisfaction apart, down to the witnesses of the
    children. *)
Ltac inv_sat :=
  unfold ok_sat, assert_, wempty, push_0, push_1, hash_dissatisfaction in *;
  repeat match goal with
  | H : result_bind _ _ = Ok _ |- _ => apply bind_Ok in H; destruct H as (? & ? & H)
  | H : (if ?b then _ else Panic) = Ok _ |- _ => destruct b eqn:?; [|discriminate H]
  | H : Ok _ = Ok _ |- _ => injection H as H; subst
  | H : wit (min_fn _ _) = WStack _ |- _ => apply min_picks in H; destruct H as [H|H]
  | H : wit (minimum_mall _ _) = WStack _ |- _ =>
      apply (min_picks (thresh_fn := thresh_mall)) in H; destruct H as [H|H]
  | H : wit (MkSatisfaction _ _) = _ |- _ => cbn [wit] in H
  | H : wcombine _ _ = WStack _ |- _ =>
      apply wcombine_stack in H; destruct H as (? & ? & ? & ? & H); subst
  | H : WStack _ = WStack _ |- _ => injection H as H; subst
  | H : Impossible = _ |- _ => discriminate H
  | H : Unavailable = _ |- _ => discriminate H
  end.

(** A choice satisfies: one of two conjunctions. *)
Lemma sat_inv ms w : sat_with ms w →
  match node ms with
  | PkK pk => ∃ b, w = [b] ∧ signs pk b
  | PkH pk => ∃ b, w = [b; pk_bytes ctx pk] ∧ signs pk b
  | RawPkH h => pkh_signature ctx stfr leaf_hash h = WStack w
  | After n => check_after stfr n = true ∧ w = []
  | Older n => check_older stfr n = true ∧ w = []
  | Sha256 h => ∃ p, lookup_sha256 stfr h = Some p ∧ w = [hash_bytes p]
  | Hash256 h => ∃ p, lookup_hash256 stfr h = Some p ∧ w = [hash_bytes p]
  | Ripemd160 h => ∃ p, lookup_ripemd160 stfr h = Some p ∧ w = [hash_bytes p]
  | Hash160 h => ∃ p, lookup_hash160 stfr h = Some p ∧ w = [hash_bytes p]
  | TTrue => w = []
  | TFalse => False
  | Alt s | Swap s | Check s | Verify s | NonZero s | ZeroNotEqual s => sat_with s w
  | DupIf s => ∃ w', sat_with s w' ∧ w = w' ++ [[x01]]
  | AndV l r | AndB l r => ∃ wl wr, sat_with l wl ∧ sat_with r wr ∧ w = wr ++ wl
  | AndOr a b c =>
      (∃ wa wb, sat_with a wa ∧ sat_with b wb ∧ w = wb ++ wa) ∨
      (∃ wa wc, dissat_with a wa ∧ sat_with c wc ∧ w = wc ++ wa)
  | OrB l r =>
      (∃ wl wr, dissat_with l wl ∧ sat_with r wr ∧ w = wr ++ wl) ∨
      (∃ wl wr, sat_with l wl ∧ dissat_with r wr ∧ w = wr ++ wl)
  | OrD l r | OrC l r =>
      sat_with l w ∨ (∃ wl wr, dissat_with l wl ∧ sat_with r wr ∧ w = wr ++ wl)
  | OrI l r => (∃ w', sat_with l w' ∧ w = w' ++ [[x01]]) ∨ (∃ w', sat_with r w' ∧ w = w' ++ [[]])
  | Thresh k subs =>
      ∃ ws, picks k subs ws ∧ w = concat (rev ws)
  | Multi k keys => multi_witness k keys w
  | MultiA k keys => 1 ≤ k → multi_a_witness k keys w
  | ExtT e => found (ext_satisfy e stfr) w
  end.
Proof.
  intros (s & Hs & Hw). destruct ms as [t mty mext]. cbn [node].
  destruct t; cbn [satisfy_helper] in Hs; try (by eexists); inv_sat; try done;
    unfold signs, time_witness, preimage_witness, sat_with, dissat_with in *.
  - destruct (signature_Stack _ _ Hw) as (b & -> & _). eauto.
  - match goal with Hx : signature _ _ _ _ = _ |- _ => destruct (signature_Stack _ _ Hx) as (b & -> & _) end.
    eauto.
  - destruct (check_after stfr t); [by injection Hw as <-|by case_match].
  - destruct (check_older stfr t); [by injection Hw as <-|by case_match].
  - destruct (lookup_sha256 stfr h); naive_solver.
  - destruct (lookup_hash256 stfr h); naive_solver.
  - destruct (lookup_ripemd160 stfr h); naive_solver.
  - destruct (lookup_hash160 stfr h); naive_solver.
  - eauto 10.
  - eauto 10.
  - eauto 10.
  - left. eauto 10.
  - right. eauto 10.
  - left. eauto 10.
  - right. eauto 10.
  - left. eauto 10.
  - right. eauto 10.
  - left. eauto 10.
  - right. eauto 10.
  - left. eauto 10.
  - right. eauto 10.
  - match goal with
    | Ha : try_map _ _ = Ok ?sats, Hb : try_map _ _ = Ok ?dissats, _ : thresh_fn _ ?sats ?dissats = _ |- _ =>
        change (try_map S_ subs = Ok sats) in Ha; change (try_map D_ subs = Ok dissats) in Hb;
        apply try_map_Ok in Ha, Hb;
        destruct (thresh_picks k sats dissats s w) as (ws & Hp & ->);
          [by rewrite <-(Forall2_length Ha), <-(Forall2_length Hb)|done|done|];
        exists ws; split; [by eapply picked_picks|done]
    end.
  - by eapply satisfy_multi_witness.
  - intros Hk. by eapply satisfy_multi_a_witness.
Qed.

Lemma dissat_inv ms w : dissat_with ms w →
  match node ms with
  | PkK _ | DupIf _ | NonZero _ => w = [[]]
  | PkH pk => w = [[]; pk_bytes ctx pk]
  | RawPkH h => ∃ v, pkh_public_key ctx stfr h = WStack v ∧ w = [] :: v
  | TFalse => w = []
  | TTrue | After _ | Older _ | Verify _ | OrC _ _ => False
  | Sha256 _ | Hash256 _ | Ripemd160 _ | Hash160 _ => w = [repeat x00 32]
  | Alt s | Swap s | Check s | ZeroNotEqual s => dissat_with s w
  | AndV l r => ∃ wl wr, sat_with l wl ∧ dissat_with r wr ∧ w = wr ++ wl
  | AndB l r | OrB l r | OrD l r | AndOr l _ r =>
      ∃ wl wr, dissat_with l wl ∧ dissat_with r wr ∧ w = wr ++ wl
  | OrI l r =>
      (∃ w', dissat_with l w' ∧ w = w' ++ [[x01]]) ∨ (∃ w', dissat_with r w' ∧ w = w' ++ [[]])
  | Thresh _ subs => ∃ ws, Forall2 dissat_with subs ws ∧ w = concat (rev ws)
  | Multi k _ => w = repeat [] (k + 1)
  | MultiA _ keys => w = repeat [] (length keys)
  | ExtT e => found (ext_dissatisfy e stfr) w
  end.
Proof.
  intros (s & Hs & Hw). destruct ms as [t mty mext]. cbn [node].
  destruct t; cbn [dissatisfy_helper] in Hs; try (by eexists); inv_sat; try done;
    unfold sat_with, dissat_with in *; simplify_list_eq; try (by eauto 10).
  - destruct (pkh_public_key ctx stfr h); naive_solver.
  - match goal with Hx : try_map _ _ = _ |- _ => apply try_map_Ok in Hx; rename Hx into Ha end.
    apply fold_combine_stack in Hw as (ws & w0 & [= <-] & Hws & ->). rewrite app_nil_r.
    exists ws. split; [|done]. revert ws Hws. induction Ha as [|s' r subs rs Hr _ IH]; intros ws Hws.
    + inversion Hws. constructor.
    + inversion Hws; subst. constructor; [|by apply IH]. inv_sat. eauto.
Qed.

(** A fragment of input zero has empty witnesses only; the witness of a satisfaction of a
    nonzero fragment ends in a nonempty element. *)
Definition zero_ok ms : Prop :=
  ci ms = Zero → (∀ w, sat_with ms w → w = []) ∧ (∀ w, dissat_with ms w → w = []).
Definition nonzero_ok ms : Prop :=
  is_nonzero (ci ms) = true → ∀ w, sat_with ms w → ends_nonempty w.

Lemma ends_nonempty_one w e : e ≠ [] → ends_nonempty (w ++ [e]).
Proof. intros He. by exists w, e. Qed.

Lemma long_nonempty (b : bytes) : 2 ≤ length b → b ≠ [].
Proof. destruct b; [cbn; lia|done]. Qed.

Lemma hash_nonempty (h : hash_n 32) : hash_bytes h ≠ [].
Proof. pose proof (hash_len h) as Hl. apply Nat.eqb_eq in Hl. by destruct (hash_bytes h). Qed.

Lemma picks_nil_all k subs ws :
  Forall zero_ok subs → Forall (λ s, ci s = Zero) subs → picks k subs ws → concat (rev ws) = [].
Proof.
  intros Hf Hz Hp. assert (Forall (λ w, w = []) ws) as Hws.
  { induction Hp as [|k s w subs ws Hw _ IH|k s w subs ws Hw _ IH]; [constructor|..];
      apply Forall_cons_iff in Hf as [Hs Hf], Hz as [Hz' Hz]; destruct (Hs Hz'); constructor; auto. }
  clear -Hws. induction Hws as [|w ws -> _ IH]; [done|]. cbn [rev]. by rewrite concat_app, IH.
Qed.

Lemma and_input_Zero a b : Correctness.and_input a b = Zero → a = Zero ∧ b = Zero.
Proof. by destruct a, b. Qed.
Lemma or_b_input_Zero a b : Correctness.or_b_input a b = Zero → a = Zero ∧ b = Zero.
Proof. by destruct a, b. Qed.
Lemma or_dc_input_Zero a b : Correctness.or_dc_input a b = Zero → a = Zero ∧ b = Zero.
Proof. by destruct a, b. Qed.
Lemma and_or_input_Zero a b c : Correctness.and_or_input a b c = Zero → a = Zero ∧ b = Zero ∧ c = Zero.
Proof. by destruct a, b, c. Qed.
Lemma and_input_nonzero a b :
  is_nonzero (Correctness.and_input a b) = true → is_nonzero a = true ∨ (a = Zero ∧ is_nonzero b = true).
Proof. destruct a, b; cbn; auto. Qed.

Lemma thresh_args_Zero (cs : list Types.Correctness) : thresh_args cs = 0 → Forall (λ c, input c = Zero) cs.
Proof.
  induction cs as [|c cs IH]; [constructor|]. rewrite thresh_args_cons. intros Hz.
  constructor; [destruct (input c); cbn in *; (done || lia)|]. apply IH. lia.
Qed.

Lemma multi_witness_ends k keys w : 1 ≤ k → multi_witness k keys w → ends_nonempty w.
Proof.
  intros Hk (cs & _ & Hlen & Hall & ->). destruct cs as [|c cs] using rev_ind; [cbn in Hlen; lia|].
  rewrite map_app. apply (ends_nonempty_one ([] :: map snd cs)).
  apply Forall_app in Hall as [_ [Hc _]%Forall_cons_iff].
  destruct (signature_Stack _ _ Hc) as (b & [= ->] & Hb). by apply long_nonempty.
Qed.

Lemma dissats_nil_all subs ws :
  Forall zero_ok subs → Forall (λ s, ci s = Zero) subs → Forall2 dissat_with subs ws →
  concat (rev ws) = [].
Proof.
  intros Hf Hz Hp. apply (picks_nil_all 0 subs); [done..|]. clear Hf Hz.
  induction Hp; by constructor.
Qed.

(** The input type of a node, from the rule for it. *)
Ltac input_rule t Ht Hi :=
  apply type_check_rule in Ht;
  destruct t; cbn [children corr_rule] in *; rewrite ?Forall_cons_iff in *;
  repeat match goal with Hx : _ ∧ _ |- _ => destruct Hx end; try done;
  match goal with Hc : corr _ = _ |- _ => rewrite Hc in Hi end;
  cbn [input Correctness.from_true Correctness.from_false Correctness.from_pk_k Correctness.from_pk_h
    Correctness.from_time Correctness.from_hash Correctness.from_multi Correctness.from_multi_a] in Hi.

(** Every witness of the children is empty, hence so is the fragment's. *)
Ltac nil_children :=
  split; intros w Hw; first [apply sat_inv in Hw|apply dissat_inv in Hw]; cbn [node] in Hw;
  repeat match goal with Hx : zero_ok ?s, Hc : ci ?s = Zero |- _ => destruct (Hx Hc); clear Hx end;
  repeat match goal with
  | Hx : _ ∨ _ |- _ => destruct Hx
  | Hx : _ ∧ _ |- _ => destruct Hx
  | Hx : ∃ _, _ |- _ => destruct Hx
  | Hs : ∀ w, sat_with ?s w → w = [], Hx : sat_with ?s _ |- _ => apply Hs in Hx; subst
  | Hs : ∀ w, dissat_with ?s w → w = [], Hx : dissat_with ?s _ |- _ => apply Hs in Hx; subst
  end; (done || (subst; done)).

(** What the input type of an extension promises of its witnesses. *)
Record ext_shape (e : Ext) : Prop := {
  ext_zero_sat w : input (corr_prop e) = Zero → found (ext_satisfy e stfr) w → w = [];
  ext_zero_dissat w : input (corr_prop e) = Zero → found (ext_dissatisfy e stfr) w → w = [];
  ext_nonzero w : is_nonzero (input (corr_prop e)) = true →
    found (ext_satisfy e stfr) w → ends_nonempty w;
}.

Definition node_ext_shape (t : Terminal Pk Ext) : Prop :=
  match t with ExtT e => ext_shape e | _ => True end.

Lemma zero_ok_all ms : all_nodes node_ext_shape ms → well_typed ctx ms → zero_ok ms.
Proof.
  intros Hext Hwt. revert ms Hwt Hext.
  apply (well_typed_ind' ctx (λ ms, all_nodes node_ext_shape ms → zero_ok ms)).
  intros t mty mext Ht _ _ IHs [Hext Hall]%all_nodes_inv. cbn [node children] in *.
  assert (Forall zero_ok (children t)) as IHs'.
  { clear -IHs Hall. rewrite list.Forall_forall in *. intros s Hs. auto. }
  clear IHs Hall. rename IHs' into IHs.
  pose proof (eq_refl : ci (MkMs t mty mext) = input (corr mty)) as Hi.
  unfold zero_ok at 1. input_rule t Ht Hi; rewrite Hi; intros Hz; try done.
  1-6: nil_children.
  - by rewrite Hz in *.
  - nil_children.
  - apply and_input_Zero in Hz as []. nil_children.
  - apply and_input_Zero in Hz as []. nil_children.
  - apply and_or_input_Zero in Hz as (? & ? & ?). nil_children.
  - apply or_b_input_Zero in Hz as []. nil_children.
  - apply or_dc_input_Zero in Hz as []. nil_children.
  - apply or_dc_input_Zero in Hz as []. nil_children.
  - unfold Correctness.or_i_input in Hz. by repeat case_match.
  - assert (Forall (λ s, ci s = Zero) subs) as Hzs.
    { destruct (thresh_args _) as [|[|]] eqn:Ha; try done. apply thresh_args_Zero in Ha.
      by apply Forall_map in Ha. }
    split; intros w Hw; first [apply sat_inv in Hw|apply dissat_inv in Hw]; cbn [node] in Hw.
    + destruct Hw as (ws & Hp & ->). by eapply picks_nil_all.
    + destruct Hw as (ws & Hp & ->). by eapply dissats_nil_all.
  - split; intros w Hw; first [apply sat_inv in Hw|apply dissat_inv in Hw]; cbn [node] in Hw;
      [by eapply ext_zero_sat|by eapply ext_zero_dissat].
Qed.

Lemma pkh_signature_ends h w : pkh_signature ctx stfr leaf_hash h = WStack w → ends_nonempty w.
Proof.
  unfold pkh_signature. repeat case_match; intros; simplify_eq.
  - apply (ends_nonempty_one [_]), long_nonempty, PublicKey_long.
  - apply (ends_nonempty_one [_]), long_nonempty, XOnly_length.
Qed.

Lemma nonzero_ok_all ms : all_nodes node_ext_shape ms → well_typed ctx ms → nonzero_ok ms.
Proof.
  intros Hext Hwt. revert ms Hwt Hext.
  apply (well_typed_ind' ctx (λ ms, all_nodes node_ext_shape ms → nonzero_ok ms)).
  intros t mty mext Ht _ Hwt IH [Hext Hall]%all_nodes_inv. cbn [node children] in *.
  assert (Forall (λ s, zero_ok s ∧ nonzero_ok s) (children t)) as [Hzs IHs]%Forall_and_inv.
  { rewrite list.Forall_forall in *. intros s Hs. split; [|by auto].
    apply zero_ok_all; auto. }
  clear Hwt IH Hall. pose proof (eq_refl : ci (MkMs t mty mext) = input (corr mty)) as Hi.
  unfold nonzero_ok at 1. input_rule t Ht Hi; rewrite Hi; intros Hn w Hw; try done;
    apply sat_inv in Hw; cbn [node] in Hw; try (by eauto);
    try (destruct Hw as (p & _ & ->); apply (ends_nonempty_one []), hash_nonempty).
  - destruct Hw as (b & -> & Hs). destruct (signature_Stack _ _ Hs) as (b' & [= <-] & Hb).
    by apply (ends_nonempty_one []), long_nonempty.
  - destruct Hw as (b & -> & Hs). apply (ends_nonempty_one [b]), long_nonempty, pk_bytes_length.
  - by eapply pkh_signature_ends.
  - destruct Hw as (w' & _ & ->). by apply ends_nonempty_one.
  - destruct Hw as (wl & wr & Hl & Hr & ->). apply and_input_nonzero in Hn as [Hn|[Hz Hn]].
    + apply ends_nonempty_app. eauto.
    + match goal with Hx : zero_ok l |- _ => destruct (Hx Hz) as [Hx' _]; rewrite (Hx' wl Hl) end.
      rewrite app_nil_r. eauto.
  - destruct Hw as (wl & wr & Hl & Hr & ->). apply and_input_nonzero in Hn as [Hn|[Hz Hn]].
    + apply ends_nonempty_app. eauto.
    + match goal with Hx : zero_ok l |- _ => destruct (Hx Hz) as [Hx' _]; rewrite (Hx' wl Hl) end.
      rewrite app_nil_r. eauto.
  - by destruct (ci a), (ci b), (ci c).
  - by destruct (ci l), (ci r).
  - by destruct (ci l), (ci r).
  - by destruct (ci l), (ci r).
  - by destruct (ci l), (ci r).
  - by repeat case_match.
  - by eapply multi_witness_ends.
  - by eapply ext_nonzero.
Qed.
End shape.
