(* ===== verification/SatAccept.v ===== *)
(** * The interpreter accepts what the satisfier makes

    Satisfactions and dissatisfactions of a fragment, evaluated on top of any stack,
    leave what a fragment of its type leaves.  The satisfier and the transaction the
    interpreter is given must agree: the signatures found verify, the preimages hash to
    the locks and the lock times that are offered have passed. *)

From S2P Require Import Prelude Types Extension Property Ast Typing Resources Tokens Context ScriptNum Script Encoding Lex Interp InterpRefine InterpSound Satisfy Choice SatShape.

Section accept.
Context {Pk : Type} `{MiniscriptKey Pk} `{BitcoinKeys} `{!ToPublicKey Pk} `{!ScriptBuilder}.
Context `{!LeafHashes} `{!Signatures} `{!SignaturesOk} {Ext : Type} `{!SatisfyExt Ext} `{!Extension Ext}.
Context `{!EvalExt Ext} `{LockTimes}.
Context (env : Env) (ctx : ScriptContext) (stfr : Satisfier Pk) (leaf_hash : TapLeafHash).
Implicit Types (stk : Stack) (w : list bytes).

(** The satisfier only offers what the transaction makes good. *)
Record SatisfierOk : Prop := {
  ok_sig_type : env_sig_type env = sig_type ctx;
  ok_ecdsa pk s : lookup_ecdsa_sig stfr pk = Some s →
    verify_sig env (KsEcdsa (to_public_key pk) s) = true;
  ok_schnorr pk s : lookup_tap_leaf_script_sig stfr pk leaf_hash = Some s →
    verify_sig env (KsSchnorr (to_x_only_pubkey pk) s) = true;
  ok_raw_pk h k : lookup_raw_pkh_pk stfr h = Some k → hash160_hash (pubkey_bytes k) = h;
  ok_raw_x_only h k : lookup_raw_pkh_x_only_pk stfr h = Some k →
    hash160_hash (xonly_serialize k) = h;
  ok_raw_ecdsa h k s : lookup_raw_pkh_ecdsa_sig stfr h = Some (k, s) →
    hash160_hash (pubkey_bytes k) = h ∧ verify_sig env (KsEcdsa k s) = true;
  ok_raw_schnorr h k s : lookup_raw_pkh_tap_leaf_script_sig stfr (h, leaf_hash) = Some (k, s) →
    hash160_hash (xonly_serialize k) = h ∧ verify_sig env (KsSchnorr k s) = true;
  ok_sha256 h p : lookup_sha256 stfr h = Some p → sha256_hash (hash_bytes p) = to_sha256 h;
  ok_hash256 h p : lookup_hash256 stfr h = Some p → hash256_hash (hash_bytes p) = to_hash256 h;
  ok_ripemd160 h p : lookup_ripemd160 stfr h = Some p → ripemd160_hash (hash_bytes p) = to_ripemd160 h;
  ok_hash160 h p : lookup_hash160 stfr h = Some p → hash160_hash (hash_bytes p) = to_hash160 h;
  ok_after n : check_after stfr n = true → same_unit n (lock_time env) = true ∧ (n ≤ lock_time env)%N;
  ok_older n : check_older stfr n = true → (n ≤ age env)%N;
}.
Context (ok : SatisfierOk).

(** The 32 zero bytes that dissatisfy a hash lock do not open it. *)
Definition node_not_zero (t : Terminal Pk Ext) : Prop :=
  match t with
  | Sha256 h => sha256_hash (repeat x00 32) ≠ to_sha256 h
  | Hash256 h => hash256_hash (repeat x00 32) ≠ to_hash256 h
  | Ripemd160 h => ripemd160_hash (repeat x00 32) ≠ to_ripemd160 h
  | Hash160 h => hash160_hash (repeat x00 32) ≠ to_hash160 h
  | _ => True
  end.

(** What the satisfier finds for an extension, its evaluation accepts, and what it offers
    against it is rejected, without a trace of the witness. *)
Record ext_accepted (e : Ext) : Prop := {
  ext_has_shape : ext_shape stfr e;
  ext_base_B : base (corr_prop e) = B;
  ext_accepts w stk : found (ext_satisfy e stfr) w →
    ext_evaluate e (Stack_of w ++ stk) (txenv env) = (Satisfied :: stk, Ok true);
  ext_rejects w stk : found (ext_dissatisfy e stfr) w →
    ext_evaluate e (Stack_of w ++ stk) (txenv env) = (Dissatisfied :: stk, Ok false);
}.

Definition node_ext_accepted (t : Terminal Pk Ext) : Prop :=
  match t with ExtT e => ext_accepted e | _ => True end.

Lemma ext_accepted_shape ms : all_nodes node_ext_accepted ms → all_nodes (node_ext_shape stfr) ms.
Proof. apply all_nodes_impl. intros []; try done. by intros []. Qed.

(** ** Runs *)

Definition runs (x : eval_result (Ext := Ext)) stk : Prop := ∃ cs, x = (cs, Ok stk).

Lemma runs_ok stk : runs (eok stk) stk.
Proof. by exists []. Qed.

Lemma runs_bind x f stk stk' : runs x stk → runs (f stk) stk' → runs (ebind x f) stk'.
Proof. intros [cs ->] [cs' Hf]. exists (cs ++ cs'). cbn. by rewrite Hf. Qed.

(** What a fragment leaves: nothing but the rest of the stack under [V], and else its
    result on top. *)
Definition leave ms (b : bool) stk : Stack :=
  match cb (Pk := Pk) (Ext := Ext) ms with V => stk | _ => push_bool b stk end.

Lemma leave_bool ms b stk : cb ms ≠ V → leave ms b stk = push_bool b stk.
Proof. unfold leave. by destruct (cb ms). Qed.
Lemma leave_V ms b stk : cb ms = V → leave ms b stk = stk.
Proof. unfold leave. by intros ->. Qed.

Lemma leave_eq ms ms' b stk : cb ms = cb ms' → leave ms b stk = leave ms' b stk.
Proof. unfold leave. by intros ->. Qed.

(** A result that is popped at once. *)
Lemma runs_pop_bool x b stk stk' (k : bool → Stack → eval_result) :
  runs x (push_bool b stk) → runs (k b stk) stk' → runs (ebind x (λ stk, epop_bool stk k)) stk'.
Proof. intros Hx Hk. eapply runs_bind; [exact Hx|]. by destruct b. Qed.

Lemma runs_pop x e stk stk' (k : Element → Stack → eval_result) :
  runs x (e :: stk) → runs (k e stk) stk' → runs (ebind x (λ stk, epop stk k)) stk'.
Proof. intros Hx Hk. by eapply runs_bind. Qed.

(** ** Witnesses as stacks *)

Lemma Stack_of_app w w' : Stack_of (w ++ w') = Stack_of w' ++ Stack_of w.
Proof. unfold Stack_of. by rewrite map_app, rev_app_distr. Qed.

Lemma Stack_of_snoc w b : Stack_of (w ++ [b]) = element_of b :: Stack_of w.
Proof. by rewrite Stack_of_app. Qed.

Lemma Stack_of_concat ws : Stack_of (concat (rev ws)) = concat (map Stack_of ws).
Proof.
  induction ws as [|w ws IH]; [done|]. cbn [rev map concat].
  rewrite concat_app, Stack_of_app, IH. cbn [concat]. by rewrite app_nil_r.
Qed.

Lemma element_of_push b : 2 ≤ length b → element_of b = Push b.
Proof.
  intros Hb. unfold element_of. rewrite bool_decide_eq_false_2 by (intros ->; cbn in Hb; lia).
  destruct b; [cbn in Hb; lia|done].
Qed.

Lemma element_of_hash {n} (h : hash_n n) : 2 ≤ n → element_of (hash_bytes h) = Push (hash_bytes h).
Proof. intros Hn. apply element_of_push. pose proof (hash_len h) as Hl. apply Nat.eqb_eq in Hl. lia. Qed.

(** ** Keys *)

Notation key := (no_checks_key ctx).

Lemma elementssig_round_trip s : elementssig_from_rawsig (elementssig_to_rawsig s) = Ok s.
Proof.
  unfold elementssig_from_rawsig, elementssig_to_rawsig, split_last. rewrite rev_unit. cbn.
  rewrite rev_involutive, from_der_serialize, sighash_from_as. by destruct s.
Qed.

Lemma signs_verifies pk b :
  signs ctx stfr leaf_hash pk b →
  2 ≤ length b ∧ ∃ ks, verify_sersig (verify_sig env) (key pk) b = Ok ks.
Proof.
  intros Hs. split; [by destruct (signature_Stack _ _ _ _ _ Hs) as (? & [= <-] & Hb)|].
  unfold signs, signature, no_checks_key in *. destruct (sig_type ctx).
  - destruct (lookup_ecdsa_sig stfr pk) as [s|] eqn:Hl; [|done]. injection Hs as <-. cbn.
    rewrite elementssig_round_trip. cbn. rewrite (ok_ecdsa ok) by done. eauto.
  - destruct (lookup_tap_leaf_script_sig stfr pk leaf_hash) as [s|] eqn:Hl; [|done]. injection Hs as <-. cbn.
    rewrite schnorr_from_to. cbn. rewrite (ok_schnorr ok) by done. eauto.
Qed.

Lemma runs_pk_sat pk b stk :
  signs ctx stfr leaf_hash pk b →
  runs (of_leaf (evaluate_pk (verify_sig env) (key pk) (element_of b :: stk))) (Satisfied :: stk).
Proof.
  intros (Hb & ks & Hks)%signs_verifies. rewrite element_of_push by done. cbn. rewrite Hks. by eexists.
Qed.

Lemma pkh_of_key pk :
  hash160_hash (pk_bytes ctx pk) = to_pubkeyhash (key pk) (env_sig_type env) ∧
  bitcoin_key_from_slice (pk_bytes ctx pk) (env_sig_type env) = Some (key pk).
Proof.
  rewrite (ok_sig_type ok). unfold pk_bytes, no_checks_key. destruct (sig_type ctx); cbn.
  - by rewrite PublicKey_pubkeyhash, PublicKey_from_bytes.
  - by rewrite XOnly_pubkeyhash, XOnly_from_serialize.
Qed.

(** A key hash: the key, and then a signature of it or an empty element. *)
Lemma runs_pkh sl k h e b stk :
  2 ≤ length sl → hash160_hash sl = h → bitcoin_key_from_slice sl (env_sig_type env) = Some k →
  match e with
  | Push s => b = true ∧ ∃ ks, verify_sersig (verify_sig env) k s = Ok ks
  | Dissatisfied => b = false
  | Satisfied => False
  end →
  runs (of_leaf (evaluate_pkh (verify_sig env) h (env_sig_type env) (element_of sl :: e :: stk)))
    (push_bool b stk).
Proof.
  intros Hl Hh Hk He. rewrite element_of_push by done. cbn. rewrite bool_decide_eq_false_2 by auto.
  rewrite Hk. destruct e as [| |s]; [done| |].
  - subst b. by exists [].
  - destruct He as (-> & ks & ->). by eexists.
Qed.

Lemma runs_pk_dissat pk stk :
  runs (of_leaf (evaluate_pk (verify_sig env) pk (Dissatisfied :: stk))) (Dissatisfied :: stk).
Proof. by exists []. Qed.

Lemma runs_pkh_sat pk b stk :
  signs ctx stfr leaf_hash pk b →
  runs (of_leaf (evaluate_pkh (verify_sig env) (to_pubkeyhash (key pk) (env_sig_type env))
    (env_sig_type env) (Stack_of [b; pk_bytes ctx pk] ++ stk))) (Satisfied :: stk).
Proof.
  intros (Hb & ks & Hks)%signs_verifies. destruct (pkh_of_key pk) as [Hh Hk]. cbn.
  apply (runs_pkh _ _ _ _ true _ (pk_bytes_length _ _) Hh Hk). rewrite element_of_push by done. eauto.
Qed.

Lemma runs_pkh_dissat pk stk :
  runs (of_leaf (evaluate_pkh (verify_sig env) (to_pubkeyhash (key pk) (env_sig_type env))
    (env_sig_type env) (Stack_of [[]; pk_bytes ctx pk] ++ stk))) (Dissatisfied :: stk).
Proof.
  destruct (pkh_of_key pk) as [Hh Hk]. by apply (runs_pkh _ _ _ _ false _ (pk_bytes_length _ _) Hh Hk).
Qed.

Lemma runs_raw_pkh_sat h w stk :
  pkh_signature ctx stfr leaf_hash h = WStack w →
  runs (of_leaf (evaluate_pkh (verify_sig env) h (env_sig_type env) (Stack_of w ++ stk)))
    (Satisfied :: stk).
Proof.
  unfold pkh_signature. destruct (sig_type ctx) eqn:Hst.
  - destruct (lookup_raw_pkh_ecdsa_sig stfr h) as [[k s]|] eqn:Hl; [|done]. intros [= <-].
    apply (ok_raw_ecdsa ok) in Hl as [Hh Hv].
    apply (runs_pkh _ (Fullkey k) _ _ true _ (PublicKey_long _) Hh).
    { rewrite (ok_sig_type ok), Hst. cbn. by rewrite PublicKey_from_bytes. }
    rewrite element_of_push.
    + split; [done|]. eexists. cbn. rewrite elementssig_round_trip. cbn. by rewrite Hv.
    + unfold elementssig_to_rawsig. pose proof (serialize_der_length s.1). rewrite length_app. cbn. lia.
  - destruct (lookup_raw_pkh_tap_leaf_script_sig stfr _) as [[k s]|] eqn:Hl; [|done]. intros [= <-].
    apply (ok_raw_schnorr ok) in Hl as [Hh Hv].
    apply (runs_pkh _ (XOnlyKey k) _ _ true _ (XOnly_length _) Hh).
    { rewrite (ok_sig_type ok), Hst. cbn. by rewrite XOnly_from_serialize. }
    rewrite element_of_push by apply schnorr_length.
    split; [done|]. eexists. cbn. rewrite schnorr_from_to. cbn. by rewrite Hv.
Qed.

Lemma runs_raw_pkh_dissat h v stk :
  pkh_public_key ctx stfr h = WStack v →
  runs (of_leaf (evaluate_pkh (verify_sig env) h (env_sig_type env) (Stack_of ([] :: v) ++ stk)))
    (Dissatisfied :: stk).
Proof.
  unfold pkh_public_key. destruct (sig_type ctx) eqn:Hst.
  - destruct (lookup_raw_pkh_pk stfr h) as [k|] eqn:Hl; [|done]. intros [= <-].
    apply (ok_raw_pk ok) in Hl as Hh.
    apply (runs_pkh _ (Fullkey k) _ _ false _ (PublicKey_long _) Hh); [|done].
    rewrite (ok_sig_type ok), Hst. cbn. by rewrite PublicKey_from_bytes.
  - destruct (lookup_raw_pkh_x_only_pk stfr h) as [k|] eqn:Hl; [|done]. intros [= <-].
    apply (ok_raw_x_only ok) in Hl as Hh.
    apply (runs_pkh _ (XOnlyKey k) _ _ false _ (XOnly_length _) Hh); [|done].
    rewrite (ok_sig_type ok), Hst. cbn. by rewrite XOnly_from_serialize.
Qed.

(** ** Hash locks *)

Lemma runs_hash matches lock p stk :
  length p = 32 →
  runs (of_leaf (evaluate_hash (Ext := Ext) matches lock (Stack_of [p] ++ stk)))
    (push_bool (matches p) stk).
Proof.
  intros Hp. cbn. rewrite element_of_push by lia. cbn. rewrite Hp. cbn.
  destruct (matches p); cbn; by eexists.
Qed.

Lemma hash_length (p : hash_n 32) : length (hash_bytes p) = 32.
Proof. apply Nat.eqb_eq, hash_len. Qed.
Lemma runs_preimage matches lock (p : hash_n 32) stk :
  matches (hash_bytes p) = true →
  runs (of_leaf (evaluate_hash (Ext := Ext) matches lock (Stack_of [hash_bytes p] ++ stk)))
    (Satisfied :: stk).
Proof. intros Hp. pose proof (runs_hash matches lock _ stk (hash_length p)) as Hr. by rewrite Hp in Hr. Qed.

Lemma runs_zero_preimage matches lock stk :
  matches (repeat x00 32) = false →
  runs (of_leaf (evaluate_hash (Ext := Ext) matches lock (Stack_of [repeat x00 32] ++ stk)))
    (Dissatisfied :: stk).
Proof. intros Hp. pose proof (runs_hash matches lock (repeat x00 32) stk eq_refl) as Hr. by rewrite Hp in Hr. Qed.

(** ** Multisignatures *)

Lemma signs_no_panic pk b : 2 ≤ length b → verify_sersig (verify_sig env) pk b ≠ Panic.
Proof. intros Hb Hp. pose proof (verify_sersig_spec env pk b) as Hs. rewrite Hp in Hs.
  apply Hs. destruct b; [cbn in Hb; lia|done].
Qed.

(** The greedy matching of signatures to keys finds a signature for every key it is meant
    for, whatever other keys it verifies under. *)
Lemma runs_multi_eval k keys : ∀ cs n stk,
  map fst cs `sublist_of` keys → n + length cs = k →
  Forall (λ c, signs ctx stfr leaf_hash c.1 c.2) cs →
  runs (multi_eval env k n (map key keys) (map (λ c, Push c.2) cs ++ Dissatisfied :: stk))
    (Satisfied :: stk).
Proof.
  induction keys as [|pk keys IH]; intros cs n stk Hsub Hn Hcs; cbn [map multi_eval].
  - apply sublist_nil_r, map_eq_nil in Hsub as ->. cbn in Hn.
    rewrite Nat.add_0_r in Hn. subst k. rewrite Nat.eqb_refl. apply runs_ok.
  - destruct cs as [|[pk' b] cs]; cbn [map app length] in *.
    { rewrite Nat.add_0_r in Hn. subst k. rewrite Nat.eqb_refl. apply runs_ok. }
    rewrite (proj2 (Nat.eqb_neq n k)) by lia. apply Forall_cons_iff in Hcs as [Hb Hcs].
    cbn in Hb. destruct (signs_verifies _ _ Hb) as (Hl & ks & Hks). cbn [evaluate_multi snd].
    destruct (verify_sersig (verify_sig env) (key pk) b) as [ks'|e|] eqn:Hv.
    + eapply runs_bind; [by eexists|]. apply IH; [|lia|done].
      apply sublist_cons_r in Hsub as [Hsub|(l & [= Hpk <-] & Hsub)]; [|done].
      etrans; [|exact Hsub]. by apply sublist_cons.
    + apply (IH ((pk', b) :: cs)); [|cbn; lia|by constructor].
      apply sublist_cons_r in Hsub as [Hsub|(l & [= Hpk <-] & Hsub)]; [done|]. cbn in Hks. congruence.
    + by apply signs_no_panic in Hv.
Qed.

Lemma multi_first_eval k subs stk :
  1 ≤ k → subs ≠ [] → multi_first (Ext := Ext) env k subs stk = multi_eval env k 0 (rev subs) stk.
Proof.
  intros Hk Hs. unfold multi_first. destruct (rev subs) as [|pk keys] eqn:Hr.
  { destruct Hs. rewrite <-(rev_involutive subs). by rewrite Hr. }
  cbn [multi_eval]. by rewrite (proj2 (Nat.eqb_neq 0 k)) by lia.
Qed.

Lemma runs_multi_sat k keys w stk :
  1 ≤ k → multi_witness ctx stfr leaf_hash k keys w →
  runs (multi_ev env k (map key keys) (Stack_of w ++ stk)) (Satisfied :: stk).
Proof.
  intros Hk (cs & Hsub & Hlen & Hcs & ->).
  assert (Stack_of ([] :: map snd cs) ++ stk = map (λ c, Push c.2) (rev cs) ++ Dissatisfied :: stk) as ->.
  { unfold Stack_of. cbn [map rev]. rewrite <-app_assoc, map_rev, map_map. cbn.
    f_equal. f_equal. apply map_ext_in. intros c Hc%list_elem_of_In.
    apply element_of_push. rewrite list.Forall_forall in Hcs.
    by destruct (signs_verifies _ _ (Hcs c Hc)). }
  apply Forall_rev in Hcs as Hrcs. unfold multi_ev.
  rewrite (proj2 (Nat.ltb_ge _ _)); [|rewrite length_app, length_map, length_rev; cbn; lia].
  rewrite multi_first_eval; [|done|].
  2:{ intros Hnil%map_eq_nil. rewrite Hnil in Hsub. apply sublist_nil_r, map_eq_nil in Hsub as ->. cbn in Hlen. lia. }
  rewrite <-map_rev. assert (map fst (rev cs) `sublist_of` rev keys) as Hsub'.
  { rewrite map_rev. by apply sublist_rev. }
  pose proof (runs_multi_eval k (rev keys) (rev cs) 0 stk Hsub') as Hr.
  rewrite length_rev in Hr. specialize (Hr Hlen Hrcs).
  destruct (rev cs) as [|c l] eqn:Hrev; [|exact Hr].
  apply (f_equal length) in Hrev. rewrite length_rev in Hrev. cbn in Hrev. lia.
Qed.

Lemma Stack_of_empties n : Stack_of (repeat [] n) = repeat Dissatisfied n.
Proof. unfold Stack_of. by rewrite map_repeat, rev_repeat. Qed.

Lemma runs_multi_dissat k keys stk :
  runs (multi_ev env k keys (Stack_of (repeat [] (k + 1)) ++ stk)) (Dissatisfied :: stk).
Proof.
  rewrite Stack_of_empties. unfold multi_ev. rewrite length_app, repeat_length.
  rewrite (proj2 (Nat.ltb_ge _ _)) by lia.
  assert (take (k + 1) (repeat Dissatisfied (k + 1) ++ stk) = repeat Dissatisfied (k + 1)) as ->
    by (apply take_app_length'; by rewrite repeat_length).
  assert (drop (k + 1) (repeat Dissatisfied (k + 1) ++ stk) = stk) as ->
    by (apply drop_app_length'; by rewrite repeat_length).
  assert (∀ n, length (filter (λ sig, sig = Dissatisfied) (repeat Dissatisfied n)) = n) as ->.
  { induction n as [|n IH]; [done|]. cbn [repeat]. rewrite filter_cons_True by done. cbn [length]. by rewrite IH. }
  rewrite Nat.eqb_refl, (Nat.add_comm k 1). cbn. apply runs_ok.
Qed.

Lemma accepts_multi_a k keys : ∀ vals n stk,
  Forall2 (λ pk o, ∀ b, o = Some b → signs ctx stfr leaf_hash pk b) keys vals →
  runs (multi_a_ev env k n (map key keys) (map (λ o, element_of (default [] o)) vals ++ stk))
    (push_bool (n + count_some vals =? k) stk).
Proof.
  induction keys as [|pk keys IH]; intros vals n stk Hf; inversion Hf as [|? o ? vals' Ho Hf']; subst;
    cbn [map multi_a_ev app count_some].
  - rewrite Nat.add_0_r. apply runs_ok.
  - destruct o as [b|].
    + destruct (signs_verifies _ _ (Ho b eq_refl)) as (Hl & ks & Hks).
      change (default [] (Some b)) with b.
      rewrite element_of_push by done. cbn [evaluate_pk]. rewrite Hks.
      eapply runs_bind; [by eexists|]. rewrite Nat.add_assoc, Nat.add_1_r. by apply IH.
    + cbn. by apply IH.
Qed.

Lemma runs_multi_a_sat k keys w stk :
  multi_a_witness ctx stfr leaf_hash k keys w →
  runs (multi_a_ev env k 0 (map key keys) (Stack_of w ++ stk)) (Satisfied :: stk).
Proof.
  intros (vals & Hf & Hc & ->). unfold Stack_of. rewrite <-map_rev, rev_involutive, map_map.
  pose proof (accepts_multi_a k keys vals 0 stk Hf) as Hr. by rewrite Nat.add_0_l, Hc, Nat.eqb_refl in Hr.
Qed.

Lemma runs_multi_a_dissat k keys stk :
  1 ≤ k →
  runs (multi_a_ev env k 0 (map key keys) (Stack_of (repeat [] (length keys)) ++ stk)) (Dissatisfied :: stk).
Proof.
  intros Hk. rewrite Stack_of_empties.
  pose proof (accepts_multi_a k keys (repeat None (length keys)) 0 stk) as Hr.
  rewrite map_repeat, count_some_none in Hr. cbn [Nat.add] in Hr.
  destruct k as [|k]; [lia|]. apply Hr. clear. induction keys; by constructor.
Qed.
(** ** Every node *)

Context (root_has_sig : bool) (min_fn : Satisfaction → Satisfaction → Satisfaction).
Context (thresh_fn : nat → list Satisfaction → list Satisfaction → result Error Satisfaction).
Context `{!Chooses min_fn thresh_fn}.
Implicit Types ms : Miniscript Pk Ext.
Notation sat_with := (sat_with ctx stfr leaf_hash root_has_sig min_fn thresh_fn).
Notation dissat_with := (dissat_with ctx stfr leaf_hash root_has_sig min_fn thresh_fn).
Notation picks := (picks ctx stfr leaf_hash root_has_sig min_fn thresh_fn).
Notation nc := (no_checks (Ext := Ext) ctx).

Definition sat_runs ms : Prop :=
  ∀ w stk, sat_with ms w → runs (ev env (nc ms) (Stack_of w ++ stk)) (leave ms true stk).
Definition dissat_runs ms : Prop :=
  ∀ w stk, dissat_with ms w →
    cb ms ≠ V ∧ runs (ev env (nc ms) (Stack_of w ++ stk)) (push_bool false stk).

Lemma sat_runs_bool ms w stk :
  sat_runs ms → cb ms ≠ V → sat_with ms w →
  runs (ev env (nc ms) (Stack_of w ++ stk)) (push_bool true stk).
Proof. intros Hr Hb Hw. rewrite <-(leave_bool ms) by done. by apply Hr. Qed.

Lemma sat_runs_V ms w stk :
  sat_runs ms → cb ms = V → sat_with ms w → runs (ev env (nc ms) (Stack_of w ++ stk)) stk.
Proof. intros Hr Hb Hw. rewrite <-(leave_V ms true stk) at 2 by done. by apply Hr. Qed.

Lemma dissat_runs_bool ms w stk :
  dissat_runs ms → dissat_with ms w → runs (ev env (nc ms) (Stack_of w ++ stk)) (push_bool false stk).
Proof. intros Hr Hw. by apply Hr. Qed.

Lemma dissat_picks subs ws : Forall2 dissat_with subs ws → picks 0 subs ws.
Proof. induction 1; by constructor. Qed.

(** The children of a threshold after the first one. *)
Lemma accepts_thresh k rest j ws :
  1 ≤ k → Forall (λ s, cb s ≠ V) rest → Forall sat_runs rest → Forall dissat_runs rest →
  picks j rest ws →
  ∀ n (b : bool) stk,
    runs (thresh_ev (ev env) k n (map nc rest) (push_bool b (concat (map Stack_of ws) ++ stk)))
      (push_bool ((if b then S n else n) + j =? k) stk).
Proof.
  intros Hk HV Hs Hd Hp.
  assert (∀ j s w rest ws (b : bool),
    (∀ stk, runs (ev env (nc s) (Stack_of w ++ stk)) (push_bool b stk)) →
    (∀ n (b : bool) stk,
      runs (thresh_ev (ev env) k n (map nc rest) (push_bool b (concat (map Stack_of ws) ++ stk)))
        (push_bool ((if b then S n else n) + j =? k) stk)) →
    ∀ n (b' : bool) stk,
      runs (thresh_ev (ev env) k n (map nc (s :: rest))
              (push_bool b' (concat (map Stack_of (w :: ws)) ++ stk)))
        (push_bool ((if b' then S n else n) + (if b then S j else j) =? k) stk)) as Hstep.
  { clear. intros j s w rest ws b Hw IH n b' stk. cbn [map thresh_ev concat]. rewrite <-app_assoc.
    specialize (IH (if b' then S n else n) b stk).
    replace ((if b' then S n else n) + (if b then S j else j))
      with ((if b then S (if b' then S n else n) else if b' then S n else n) + j) by (destruct b; lia).
    destruct b'; (eapply runs_bind; [apply Hw|exact IH]). }
  induction Hp as [|j s w rest ws Hw Hp IH|j s w rest ws Hw Hp IH]; intros n b stk.
  - rewrite Nat.add_0_r. destruct b; [|apply runs_ok]. destruct k as [|k]; [lia|]. cbn.
    rewrite Nat.sub_0_r. apply runs_ok.
  - apply Forall_cons_iff in HV as [? ?], Hs as [? ?], Hd as [? ?].
    apply (Hstep j s w rest ws true); [intros; by apply sat_runs_bool|by apply IH].
  - apply Forall_cons_iff in HV as [? ?], Hs as [? ?], Hd as [? ?].
    apply (Hstep j s w rest ws false); [intros; by apply dissat_runs_bool|by apply IH].
Qed.

Lemma runs_thresh_all k subs j ws stk :
  1 ≤ k → subs ≠ [] → Forall (λ s, cb s ≠ V) subs → Forall sat_runs subs → Forall dissat_runs subs →
  picks j subs ws →
  runs
    match map nc subs with
    | [] => epanic
    | s :: subs => ebind (ev env s (Stack_of (concat (rev ws)) ++ stk)) (thresh_ev (ev env) k 0 subs)
    end (push_bool (j =? k) stk).
Proof.
  intros Hk Hne HV Hs Hd Hp. rewrite Stack_of_concat.
  destruct Hp as [|j s w rest ws Hw Hp|j s w rest ws Hw Hp]; [done|..]; cbn [map concat];
    rewrite <-app_assoc; apply Forall_cons_iff in HV as [? ?], Hs as [? ?], Hd as [? ?].
  - eapply runs_bind; [by apply sat_runs_bool|]. by apply (accepts_thresh k rest j ws) with (n := 0) (b := true).
  - eapply runs_bind; [by apply dissat_runs_bool|]. by apply (accepts_thresh k rest j ws) with (n := 0) (b := false).
Qed.
Lemma runs_thresh_node k subs j ws stk :
  1 ≤ k → k ≤ length subs → thresh_children_ok subs →
  Forall (λ s, sat_runs s ∧ dissat_runs s) subs → picks j subs ws →
  runs
    match map nc subs with
    | [] => epanic
    | s :: subs => ebind (ev env s (Stack_of (concat (rev ws)) ++ stk)) (thresh_ev (ev env) k 0 subs)
    end (push_bool (j =? k) stk).
Proof.
  intros Hk Hlen Hok [Hs Hd]%Forall_and_inv Hp. destruct subs as [|s subs]; [cbn in Hlen; lia|].
  apply thresh_children_cons in Hok as [(Hb & _) Hws]. apply runs_thresh_all; try done.
  constructor; [congruence|]. eapply Forall_impl; [|exact Hws]. intros s' (Hb' & _). cbv beta. congruence.
Qed.

Lemma runs_nonzero ms w stk (Q : Stack) :
  ends_nonempty w → runs (ev env (nc ms) (Stack_of w ++ stk)) Q →
  runs match Stack_of w ++ stk with
       | Dissatisfied :: _ => eok (Stack_of w ++ stk)
       | _ :: _ => ev env (nc ms) (Stack_of w ++ stk)
       | [] => eerr UnexpectedStackEnd
       end Q.
Proof.
  intros (w' & e & -> & He). rewrite Stack_of_snoc. cbn [app].
  assert (element_of e ≠ Dissatisfied) as Hne.
  { unfold element_of. case_bool_decide; [done|]. by destruct e. }
  by destruct (element_of e).
Qed.

Lemma sat_dissat_runs ms :
  well_typed ctx ms → all_nodes node_ext_accepted ms → all_nodes node_not_zero ms →
  sat_runs ms ∧ dissat_runs ms.
Proof.
  revert ms. apply (well_typed_ind' ctx (λ ms,
    all_nodes node_ext_accepted ms → all_nodes node_not_zero ms → sat_runs ms ∧ dissat_runs ms)).
  intros t mty mext Ht _ Hwt IH [Hext Hexts]%all_nodes_inv [Hnz Hall]%all_nodes_inv.
  cbn [node children] in *.
  apply type_check_rule in Ht.
  assert (Forall (λ s, sat_runs s ∧ dissat_runs s) (children t)) as IHs.
  { clear -IH Hexts Hall. rewrite list.Forall_forall in *. intros s Hs. auto. }
  assert (Forall (nonzero_ok ctx stfr leaf_hash root_has_sig min_fn thresh_fn) (children t)) as Hnon.
  { rewrite list.Forall_forall in *. intros s Hs. apply nonzero_ok_all; [done| |by auto].
    by apply ext_accepted_shape, Hexts. }
  clear IH Hall Hexts Hwt.
  pose proof (eq_refl : cb (MkMs t mty mext) = base (corr mty)) as Hb.
  destruct t; cbn [children corr_rule node_not_zero] in *; rewrite ?Forall_cons_iff in IHs, Hnon;
    repeat match goal with Hx : _ ∧ _ |- _ => destruct Hx end; try done;
    match goal with Hc : corr mty = _ |- _ => rewrite Hc in Hb end;
    cbn [base Correctness.from_true Correctness.from_false Correctness.from_pk_k Correctness.from_pk_h
      Correctness.from_time Correctness.from_hash Correctness.from_multi Correctness.from_multi_a] in Hb;
    (split; intros w stk Hw; first [apply sat_inv in Hw|apply dissat_inv in Hw]; cbn [node] in Hw;
      cbn [no_checks map_pk ev]; try done; try (split; [congruence|]));
    rewrite ?leave_bool by congruence; rewrite ?leave_V by congruence;
    try (by apply sat_runs_bool; (done || congruence)); try (by apply dissat_runs_bool).
  - subst w. apply runs_ok.
  - subst w. apply runs_ok.
  - destruct Hw as (b & -> & Hs). by apply runs_pk_sat.
  - subst w. apply runs_pk_dissat.
  - destruct Hw as (b & -> & Hs). by apply runs_pkh_sat.
  - subst w. apply runs_pkh_dissat.
  - by apply runs_raw_pkh_sat.
  - destruct Hw as (v & Hv & ->). by apply runs_raw_pkh_dissat.
  - destruct Hw as [[Hu Hle%N.leb_le]%(ok_after ok) ->]. unfold evaluate_after.
    unfold same_unit in Hu. rewrite Hu, Hle. by eexists.
  - destruct Hw as [Hle%(ok_older ok)%N.leb_le ->]. unfold evaluate_older. rewrite Hle. by eexists.
  - destruct Hw as (p & Hp & ->). by apply runs_preimage, bool_decide_eq_true_2, (ok_sha256 ok).
  - subst w. by apply runs_zero_preimage, bool_decide_eq_false_2.
  - destruct Hw as (p & Hp & ->). by apply runs_preimage, bool_decide_eq_true_2, (ok_hash256 ok).
  - subst w. by apply runs_zero_preimage, bool_decide_eq_false_2.
  - destruct Hw as (p & Hp & ->). by apply runs_preimage, bool_decide_eq_true_2, (ok_ripemd160 ok).
  - subst w. by apply runs_zero_preimage, bool_decide_eq_false_2.
  - destruct Hw as (p & Hp & ->). by apply runs_preimage, bool_decide_eq_true_2, (ok_hash160 ok).
  - subst w. by apply runs_zero_preimage, bool_decide_eq_false_2.
  - (* DupIf *) destruct Hw as (w' & Hw & ->). rewrite Stack_of_snoc. cbn.
    eapply runs_bind; [by apply sat_runs_V|apply runs_ok].
  - subst w. apply runs_ok.
  - (* Verify *) eapply runs_pop; [apply sat_runs_bool; (done || congruence)|apply runs_ok].
  - (* NonZero *) apply runs_nonzero; [naive_solver|]. apply sat_runs_bool; (done || congruence).
  - subst w. apply runs_ok.
  - (* ZeroNotEqual *) eapply runs_pop; [apply sat_runs_bool; (done || congruence)|apply runs_ok].
  - eapply runs_pop; [by apply dissat_runs_bool|apply runs_ok].
  - (* AndV *) destruct Hw as (wl & wr & Hl & Hr & ->). rewrite Stack_of_app, <-app_assoc.
    eapply runs_bind; [by apply sat_runs_V|]. rewrite (leave_eq _ r) by congruence. auto.
  - destruct Hw as (wl & wr & Hl & Hr & ->). rewrite Stack_of_app, <-app_assoc.
    match goal with Hd : dissat_runs r |- _ => destruct (Hd wr stk Hr) as [Hbr Hrun] end.
    split; [congruence|]. eapply runs_bind; [by apply sat_runs_V|]. done.
  - (* AndB *) destruct Hw as (wl & wr & Hl & Hr & ->). rewrite Stack_of_app, <-app_assoc.
    eapply runs_pop_bool; [apply sat_runs_bool; (done || congruence)|].
    eapply runs_pop; [apply sat_runs_bool; (done || congruence)|apply runs_ok].
  - destruct Hw as (wl & wr & Hl & Hr & ->). rewrite Stack_of_app, <-app_assoc.
    eapply runs_pop_bool; [by apply dissat_runs_bool|].
    eapply runs_pop; [by apply dissat_runs_bool|apply runs_ok].
  - (* AndOr *) destruct Hw as [(wa & wb & Ha & Hw & ->)|(wa & wc & Ha & Hw & ->)];
      rewrite Stack_of_app, <-app_assoc.
    + eapply runs_pop_bool; [apply sat_runs_bool; (done || congruence)|]. cbv beta iota.
      rewrite (leave_eq _ b) by congruence. auto.
    + eapply runs_pop_bool; [by apply dissat_runs_bool|]. cbv beta iota.
      rewrite (leave_eq _ c) by congruence. auto.
  - destruct Hw as (wl & wr & Hl & Hr & ->). rewrite Stack_of_app, <-app_assoc.
    match goal with Hd : dissat_runs c |- _ => destruct (Hd wr stk Hr) as [Hbr Hrun] end.
    split; [congruence|]. by eapply runs_pop_bool; [apply dissat_runs_bool|].
  - (* OrB *) destruct Hw as [(wl & wr & Hl & Hr & ->)|(wl & wr & Hl & Hr & ->)];
      rewrite Stack_of_app, <-app_assoc.
    + eapply runs_pop_bool; [by apply dissat_runs_bool|].
      eapply runs_pop; [apply sat_runs_bool; (done || congruence)|apply runs_ok].
    + eapply runs_pop_bool; [apply sat_runs_bool; (done || congruence)|].
      eapply runs_pop; [by apply dissat_runs_bool|apply runs_ok].
  - destruct Hw as (wl & wr & Hl & Hr & ->). rewrite Stack_of_app, <-app_assoc.
    eapply runs_pop_bool; [by apply dissat_runs_bool|].
    eapply runs_pop; [by apply dissat_runs_bool|apply runs_ok].
  - (* OrD *) destruct Hw as [Hw|(wl & wr & Hl & Hr & ->)].
    + eapply runs_pop_bool; [apply sat_runs_bool; (done || congruence)|apply runs_ok].
    + rewrite Stack_of_app, <-app_assoc. eapply runs_pop_bool; [by apply dissat_runs_bool|].
      apply sat_runs_bool; (done || congruence).
  - destruct Hw as (wl & wr & Hl & Hr & ->). rewrite Stack_of_app, <-app_assoc.
    eapply runs_pop_bool; [by apply dissat_runs_bool|]. by apply dissat_runs_bool.
  - (* OrC *) destruct Hw as [Hw|(wl & wr & Hl & Hr & ->)].
    + eapply runs_pop_bool; [apply sat_runs_bool; (done || congruence)|apply runs_ok].
    + rewrite Stack_of_app, <-app_assoc. eapply runs_pop_bool; [by apply dissat_runs_bool|].
      by apply sat_runs_V.
  - (* OrI *) destruct Hw as [(w' & Hw & ->)|(w' & Hw & ->)]; rewrite Stack_of_snoc.
    + rewrite (leave_eq _ l) by congruence. match goal with Hs : sat_runs l |- _ => by apply (Hs w') end.
    + rewrite (leave_eq _ r) by congruence. match goal with Hs : sat_runs r |- _ => by apply (Hs w') end.
  - destruct Hw as [(w' & Hw & ->)|(w' & Hw & ->)]; rewrite Stack_of_snoc.
    + match goal with Hd : dissat_runs l |- _ => destruct (Hd w' stk Hw) as [Hbr Hrun] end.
      split; [congruence|exact Hrun].
    + match goal with Hd : dissat_runs r |- _ => destruct (Hd w' stk Hw) as [Hbr Hrun] end.
      split; [congruence|exact Hrun].
  - (* Thresh *) destruct Hw as (ws & Hp & ->).
    rewrite <-(Nat.eqb_refl k). by apply runs_thresh_node.
  - destruct Hw as (ws & Hp%dissat_picks & ->).
    assert (false = (0 =? k)) as -> by (destruct k; [lia|done]). by apply runs_thresh_node.
  - by apply runs_multi_sat.
  - subst w. apply runs_multi_dissat.
  - apply runs_multi_a_sat. auto.
  - subst w. by apply runs_multi_a_dissat.
  - destruct Hext as [_ HB Hacc _]. rewrite leave_bool by congruence. rewrite Hacc by done. by eexists.
  - destruct Hext as [_ HB _ Hrej]. split; [congruence|]. rewrite Hrej by done. apply runs_ok.
Qed.
End accept.

(** ** The round trip *)

Section round_trip.
Context {Pk : Type} `{MiniscriptKey Pk} `{BitcoinKeys} `{!ToPublicKey Pk} `{!ScriptBuilder}.
Context `{!LeafHashes} `{!Signatures} `{!SignaturesOk} {Ext : Type} `{!SatisfyExt Ext} `{!Extension Ext}.
Context `{!ParseableExt Ext} `{!EvalExt Ext} `{LockTimes}.
Context (env : Env) (ctx : ScriptContext) (stfr : Satisfier Pk).

Lemma finish_satisfy_Ok sat w : finish_satisfy ctx sat = Ok w → wit sat = WStack w.
Proof.
  unfold finish_satisfy. destruct (wit sat); [|done..]. by intros (_ & _ & [= ->])%bind_Ok.
Qed.

(** A satisfaction on its own leaves [[Satisfied]]. *)
Lemma sat_with_interpret leaf_hash root_has_sig min_fn thresh_fn `{!Chooses min_fn thresh_fn} ms w t :
  SatisfierOk env ctx stfr leaf_hash → well_typed ctx ms → cb ms = B →
  all_nodes (node_ext_accepted env stfr) ms →
  all_nodes node_not_zero ms → sat_with ctx stfr leaf_hash root_has_sig min_fn thresh_fn ms w →
  ∃ cs, interpret env (InScript (no_checks ctx ms) t) (Stack_of w) = (cs, Ok tt).
Proof.
  intros ok Hwt Hb Hext Hnz Hw.
  destruct (sat_dissat_runs env ctx stfr leaf_hash ok root_has_sig min_fn thresh_fn ms Hwt Hext Hnz) as [Hr _].
  destruct (Hr w [] Hw) as [cs Hev]. rewrite app_nil_r in Hev. unfold leave in Hev. rewrite Hb in Hev.
  eexists. cbn. rewrite Hev. cbn. reflexivity.
Qed.

(** (C1) What the satisfier makes, the interpreter accepts: when [satisfy] or
    [satisfy_malleable] returns a witness for a well-typed Miniscript of type B, no hash lock
    of which is the hash of 32 zero bytes (what a dissatisfaction shows), and the
    satisfier only offers what the transaction makes good (signatures that verify,
    preimages of the locks, lock times that have passed, extensions whose evaluation
    accepts what is found for them), the iteration over the
    Miniscript with its keys translated ends without an error, for both the
    non-malleable and the malleable choice among satisfactions. *)
Theorem satisfied_accepted (malleable : bool) ms w :
  well_typed ctx ms → cb ms = B → all_nodes node_not_zero ms →
  all_nodes (node_ext_accepted env stfr) ms →
  (∀ script, encode ctx ms = Ok script →
     SatisfierOk env ctx stfr (TapLeafHash_from_script script)) →
  (if malleable then ms_satisfy_malleable ctx stfr ms else ms_satisfy ctx stfr ms) = Ok w →
  ∃ ms', to_no_checks_ms ctx ms = Ok ms' ∧
    ∀ t fuel, inner_fuel (InScript ms' t) ≤ fuel →
      ∃ cs, collect env fuel (iter_custom (InScript ms' t) (Stack_of w)) = Some (cs, Ok tt).
Proof.
  intros Hwt Hb Hnz Hext Hok Hs. exists (no_checks ctx ms). split; [apply to_no_checks_total|].
  intros t fuel Hfuel. rewrite collect_computes by done.
  assert (∃ script, encode ctx ms = Ok script) as [script Henc].
  { destruct malleable; apply bind_Ok in Hs as (script & Henc & _); eauto. }
  specialize (Hok script Henc). assert (∃ cs,
    interpret env (InScript (no_checks ctx ms) t) (Stack_of w) = (cs, Ok tt)) as [cs ->]; [|eauto].
  destruct malleable; unfold ms_satisfy, ms_satisfy_malleable in Hs; rewrite Henc in Hs; cbn in Hs;
    apply bind_Ok in Hs as (sat & Hsat & Hw%finish_satisfy_Ok).
  - eapply (sat_with_interpret (TapLeafHash_from_script script) _ minimum_mall thresh_mall);
      try done. by eexists.
  - eapply (sat_with_interpret (TapLeafHash_from_script script) _ minimum thresh); try done. by eexists.
Qed.
End round_trip.
