(* ===== verification/SatTotal.v ===== *)
(** * The satisfier finds what there is to find

    The assertions of the satisfier hold and its unwraps succeed: a fragment that is
    typed as dissatisfiable has a dissatisfaction without signatures.  The malleable
    satisfier is complete: it returns a witness exactly when the conditions that the
    lookups grant imply the Miniscript. *)

From S2P Require Import Prelude Types Extension Property Ast Typing Tokens Context ScriptNum Script Encoding Lex PolicyNormal Lift LiftProps Interp Satisfy Choice SatShape.
From S2P Require Semantic.

Definition is_stack (w : Witness) : bool := match w with WStack _ => true | _ => false end.

Lemma is_stack_true w : is_stack w = true ↔ ∃ v, w = WStack v.
Proof. destruct w; cbn; naive_solver. Qed.

Lemma is_stack_wcombine a b : is_stack (wcombine a b) = is_stack a && is_stack b.
Proof. by destruct a, b. Qed.

Lemma is_stack_fold_combine ret acc :
  is_stack (fold_left (λ acc next, wcombine (wit next) acc) ret acc)
  = is_stack acc && forallb (λ s, is_stack (wit s)) ret.
Proof.
  revert acc. induction ret as [|s ret IH]; intros acc; cbn [fold_left forallb].
  - by rewrite andb_true_r.
  - rewrite IH, is_stack_wcombine. by destruct (is_stack acc), (is_stack (wit s)).
Qed.

(** A dissatisfaction a third party can make too: it exists and contains no signature. *)
Definition clean (d : Satisfaction) : Prop := has_sig d = false ∧ is_stack (wit d) = true.

(** The choosing function of thresholds succeeds. *)
Class ChoosesTotal (thresh_fn : nat → list Satisfaction → list Satisfaction → result Error Satisfaction) : Prop :=
  thresh_total k sats dissats :
    1 ≤ k ≤ length sats → length sats = length dissats → Forall clean dissats →
    ∃ s, thresh_fn k sats dissats = Ok s.

Section choose.
Context `{BitcoinKeys} `{!ScriptBuilder} `{!LeafHashes}.

Lemma sorted_indices key n :
  let idx := sort_by_key key (seq 0 n) in
  idx ≡ₚ seq 0 n ∧ NoDup idx ∧ Forall (λ j, j < n) idx ∧ length idx = n.
Proof.
  pose proof (sort_by_key_perm key (seq 0 n)) as Hp. cbv zeta. split_and!; [done|..]; rewrite Hp.
  - apply NoDup_seq.
  - apply Forall_seq. lia.
  - apply length_seq.
Qed.

#[export] Instance ChoosesTotal_mall : ChoosesTotal thresh_mall.
Proof.
  intros k sats dissats Hk Hlen _. unfold thresh_mall.
  destruct (sorted_indices (key_at thresh_mall_key sats dissats) (length sats)) as (Hp & Hnd & Hin & Hl).
  rewrite swap_all_pick by (done || lia). cbn. eauto.
Qed.

(** An index before one whose key is that of an honest choice without signatures is such
    an index too. *)
Lemma key_le_clean s d s' d' :
  key_le (thresh_key s d) (thresh_key s' d') = true →
  has_sig s' = false → wit s' ≠ Impossible → has_sig s = false.
Proof.
  intros Hle Hs Hw. unfold key_le, thresh_key in Hle. cbn in Hle.
  rewrite Hs, (bool_decide_eq_false_2 _ Hw) in Hle.
  destruct (bool_decide (wit s = Impossible)); [done|]. by destruct (has_sig s).
Qed.

Lemma in_first_lookup idx k j : in_first idx k j = true → ∃ i, i < k ∧ idx !! i = Some j.
Proof. intros (i & Hi & Hlt)%bool_decide_eq_true%elem_of_take. eauto. Qed.

Lemma pick_elem p xs ys x :
  x ∈ pick p 0 xs ys →
  ∃ j a b, xs !! j = Some a ∧ ys !! j = Some b ∧ x = if p j then a else b.
Proof.
  intros (j & Hj)%list_elem_of_lookup. unfold pick in Hj. rewrite list_lookup_imap in Hj.
  destruct (zip xs ys !! j) as [[a b]|] eqn:Hz; [|done]. injection Hj as <-.
  apply lookup_zip_with_Some in Hz as (a' & b' & [= -> ->] & Ha & Hb). by exists j, a', b'.
Qed.

#[export] Instance ChoosesTotal_nonmall : ChoosesTotal thresh.
Proof.
  intros k sats dissats Hk Hlen Hd. unfold thresh.
  set (idx := sort_by_key (key_at thresh_key sats dissats) (seq 0 (length sats))).
  destruct (sorted_indices (key_at thresh_key sats dissats) (length sats)) as (Hp & Hnd & Hin & Hl).
  fold idx in Hp, Hnd, Hin, Hl. rewrite swap_all_pick by (done || lia). cbn [result_bind].
  unfold assert_ at 1. rewrite (proj2 (Nat.ltb_lt 0 k)) by lia.
  assert (∀ i, i < length sats → ∃ j s d, idx !! i = Some j ∧ sats !! j = Some s ∧ dissats !! j = Some d ∧ clean d)
    as Hat.
  { intros i Hi. destruct (lookup_lt_is_Some_2 idx i) as [j Hj]; [lia|].
    assert (j < length sats) by (by eapply Forall_lookup_1 in Hin).
    destruct (lookup_lt_is_Some_2 sats j) as [s Hs]; [done|].
    destruct (lookup_lt_is_Some_2 dissats j) as [d Hdj]; [lia|].
    exists j, s, d. split_and!; [done..|]. by eapply Forall_lookup_1 in Hd. }
  destruct (Hat (k - 1)) as (j & s & d & Hj & Hs & Hdj & Hc); [lia|].
  rewrite Hj. cbn [unwrap result_bind]. rewrite (pick_lookup _ dissats sats j d s) by done. cbn [unwrap result_bind].
  assert (in_first idx k j = true) as ->.
  { apply bool_decide_eq_true, elem_of_take. exists (k - 1). split; [done|lia]. }
  rewrite bool_decide_eq_false_2 by (intros He; destruct Hc as [_ Hw]; by rewrite He in Hw).
  rewrite Hl. destruct (Nat.ltb_spec k (length sats)) as [Hlt|]; cbn [result_bind]; [|eauto].
  destruct (Hat k) as (j' & s' & d' & Hj' & Hs' & Hdj' & Hc'); [lia|].
  rewrite Hj'. cbn [unwrap result_bind]. rewrite (pick_lookup _ dissats sats j' d' s') by done. cbn [unwrap result_bind].
  assert (in_first idx k j' = false) as ->.
  { destruct (in_first idx k j') eqn:Hf; [|done]. apply in_first_lookup in Hf as (i & Hi & Hij).
    pose proof (NoDup_lookup _ _ _ _ Hnd Hij Hj'). lia. }
  destruct (negb (has_sig s') && negb (bool_decide (wit s' = Impossible))) eqn:Hno; [|eauto].
  apply andb_prop in Hno as [Hns%negb_true_iff Hni%negb_true_iff%bool_decide_eq_false].
  unfold assert_. rewrite (proj2 (forallb_forall _ _)); [eauto|].
  intros x (i & a & b & Ha & Hb & ->)%list_elem_of_In%pick_elem. apply negb_true_iff.
  destruct (in_first idx k i) eqn:Hf; [|by eapply Forall_lookup_1 in Hd as [? _]].
  apply in_first_lookup in Hf as (m & Hm & Hmi).
  pose proof (sorted_lookup (key_at thresh_key sats dissats) idx m k i j'
    (sort_by_key_sorted _ _) Hm Hmi Hj') as Hle.
  unfold key_at in Hle. rewrite Ha, Hb, Hs', Hdj' in Hle. by apply (key_le_clean a b s' d').
Qed.
End choose.

Section total.
Context {Pk : Type} `{MiniscriptKey Pk} `{BitcoinKeys} `{!ToPublicKey Pk} `{!ScriptBuilder}.
Context `{!LeafHashes} `{!Signatures} `{!SignaturesOk} {Ext : Type} `{!SatisfyExt Ext} `{!Extension Ext} `{LockTimes}.
Context (ctx : ScriptContext) (stfr : Satisfier Pk) (leaf_hash : TapLeafHash).

(** What the satisfier has: the conditions its lookups grant. *)
Definition offers (p : Semantic.Policy Pk) : bool :=
  match p with
  | Semantic.Key pk => is_stack (signature ctx stfr leaf_hash pk)
  | Semantic.After n => check_after stfr n
  | Semantic.Older n => check_older stfr n
  | Semantic.Sha256 h => bool_decide (is_Some (lookup_sha256 stfr h))
  | Semantic.Hash256 h => bool_decide (is_Some (lookup_hash256 stfr h))
  | Semantic.Ripemd160 h => bool_decide (is_Some (lookup_ripemd160 stfr h))
  | Semantic.Hash160 h => bool_decide (is_Some (lookup_hash160 stfr h))
  | _ => false
  end.

Definition offered (keys : list Pk) : nat := number (map (λ pk, offers (Semantic.Key pk)) keys).

Lemma offered_cons pk keys : offered (pk :: keys) = (if offers (Semantic.Key pk) then 1 else 0) + offered keys.
Proof. unfold offered. cbn [map]. apply number_cons. Qed.

Lemma offered_rev keys : offered (rev keys) = offered keys.
Proof. unfold offered. by rewrite map_rev, number_rev. Qed.

(** ** Multisignatures *)

Lemma collect_sigs_total keys :
  ∃ sigs, collect_sigs ctx stfr leaf_hash keys = Ok sigs ∧ length sigs = offered keys.
Proof.
  induction keys as [|pk keys (sigs & IH & Hl)]; [by exists []|]. rewrite offered_cons. cbn [collect_sigs offers].
  pose proof (signature_not_Unavailable ctx stfr leaf_hash pk).
  destruct (signature ctx stfr leaf_hash pk) as [v| |]; [|done|]; rewrite IH; cbn.
  - eexists. split; [done|]. cbn. by rewrite Hl.
  - eauto.
Qed.

Lemma throw_all_total n sigs :
  (sigs ≠ [] ∨ n = 0) → ∃ sigs', try_fold throw_away sigs (seq 0 n) = Ok sigs'.
Proof.
  intros [Hne| ->]; [|by eexists].
  assert (∃ sigs', try_fold throw_away sigs (seq 0 n) = Ok sigs' ∧ sigs' ≠ []) as (? & ? & _); [|eauto].
  induction n as [|n (sigs' & IH & Hne')]; [by exists sigs|].
  rewrite seq_S, try_fold_app, IH. cbn [result_bind try_fold]. unfold throw_away.
  destruct (max_idx_spec sigs' Hne') as (i & v & -> & _). cbn. eexists. split; [done|].
  intros Hnil%(f_equal length). rewrite length_insert in Hnil. by destruct sigs'.
Qed.

Lemma satisfy_multi_total k keys :
  1 ≤ k →
  ∃ s, satisfy_multi ctx stfr leaf_hash k keys = Ok s ∧ is_stack (wit s) = (k <=? offered keys).
Proof.
  intros Hk. unfold satisfy_multi. destruct (collect_sigs_total keys) as (sigs & -> & Hl). cbn [result_bind].
  rewrite Hl. destruct (Nat.ltb_spec (offered keys) k).
  - eexists. split; [done|]. cbn. symmetry. apply Nat.leb_gt. lia.
  - destruct (throw_all_total (offered keys - k) sigs) as [sigs' ->].
    { destruct sigs; [cbn in Hl; lia|by left]. }
    cbn [result_bind]. eexists. split; [done|]. cbn [wit]. unfold push_0. rewrite fold_push_stack.
    symmetry. apply Nat.leb_le. lia.
Qed.

Lemma multi_a_sigs_total k keys : ∀ i cnt sigs,
  ∃ cnt' sigs', multi_a_sigs ctx stfr leaf_hash k i keys cnt sigs = Ok (cnt', sigs') ∧
    (cnt < k → (k <=? cnt') = (k <=? cnt + offered keys)).
Proof.
  induction keys as [|pk keys IH]; intros i cnt sigs; cbn [multi_a_sigs].
  { eexists _, _. split; [done|]. intros _. unfold offered. by rewrite Nat.add_0_r. }
  rewrite offered_cons. cbn [offers]. pose proof (signature_not_Unavailable ctx stfr leaf_hash pk).
  destruct (signature ctx stfr leaf_hash pk) as [v| |]; [|done|]; cbn [is_stack].
  - destruct (S cnt =? k) eqn:Hk.
    + eexists _, _. split; [done|]. intros _. apply Nat.eqb_eq in Hk. subst k.
      rewrite !(proj2 (Nat.leb_le _ _)); [done|lia..].
    + destruct (IH (S i) (S cnt) (<[i:=v]> sigs)) as (cnt' & sigs' & -> & Hc).
      eexists _, _. split; [done|]. intros Hlt. apply Nat.eqb_neq in Hk. rewrite Hc by lia. f_equal. lia.
  - destruct (IH (S i) cnt sigs) as (cnt' & sigs' & -> & Hc). by eexists _, _.
Qed.

Lemma satisfy_multi_a_total k keys :
  1 ≤ k →
  ∃ s, satisfy_multi_a ctx stfr leaf_hash k keys = Ok s ∧ is_stack (wit s) = (k <=? offered keys).
Proof.
  intros Hk. unfold satisfy_multi_a.
  destruct (multi_a_sigs_total k (rev keys) 0 0 (repeat [[]] (length keys))) as (cnt & sigs & -> & Hc).
  cbn [result_bind]. rewrite offered_rev, Nat.add_0_l in Hc. rewrite <-Hc by lia.
  destruct (Nat.ltb_spec cnt k).
  - eexists. split; [done|]. cbn. symmetry. apply Nat.leb_gt. lia.
  - eexists. split; [done|]. cbn [wit]. unfold wempty. rewrite fold_push_stack. symmetry. by apply Nat.leb_le.
Qed.
(** ** Every node *)

Context (root_has_sig : bool) (min_fn : Satisfaction → Satisfaction → Satisfaction).
Context (thresh_fn : nat → list Satisfaction → list Satisfaction → result Error Satisfaction).
Context `{!ChoosesTotal thresh_fn}.
Implicit Types ms : Miniscript Pk Ext.
Notation S_ := (satisfy_helper ctx stfr root_has_sig leaf_hash min_fn thresh_fn).
Notation D_ := (dissatisfy_helper ctx stfr root_has_sig leaf_hash min_fn thresh_fn).

Definition helpers_ok ms : Prop :=
  ∃ s d, S_ ms = Ok s ∧ D_ ms = Ok d ∧ (cd ms = true → clean d).

Lemma clean_push d w : clean d → clean (MkSatisfaction (wcombine (wit d) (WStack w)) (has_sig d)).
Proof. intros [Hb Hw]. split; [done|]. cbn. by rewrite is_stack_wcombine, Hw. Qed.

Lemma clean_minimum_mall d1 d2 : clean d1 ∨ clean d2 → clean (minimum_mall d1 d2).
Proof.
  destruct d1 as [[] b1], d2 as [[] b2]; intros [[? ?]|[? ?]]; cbn in *; subst; try done;
    (split; [by destruct b1 || done|]); cbn.
  all: match goal with |- context[witness_min ?a ?b] => by destruct (witness_min_or a b) as [->| ->] end.
Qed.

Lemma thresh_dissats subs :
  Forall helpers_ok subs → Forall (λ s, cd s = true) subs →
  ∃ dissats,
    try_map D_ subs = Ok dissats ∧ Forall clean dissats ∧
    try_map (λ sub, let? nsat := D_ sub in assert_ (negb (has_sig nsat)) (Ok nsat)) subs = Ok dissats.
Proof.
  intros Hall Hcd. induction Hall as [|s subs (? & d & _ & Hd & Hc) _ IH]; [by exists []|].
  apply Forall_cons_iff in Hcd as [Hs Hcd]. destruct (IH Hcd) as (ds & Hds & Hcs & Hds').
  exists (d :: ds). destruct (Hc Hs) as [Hns Hw]. cbn. rewrite Hd. cbn. rewrite Hns, Hds, Hds'. cbn.
  split_and!; [done|by constructor|done].
Qed.

Lemma helpers_thresh k subs :
  1 ≤ k ≤ length subs → Forall helpers_ok subs → Forall (λ s, cd s = true) subs →
  (∃ s, (let? sats := try_map S_ subs in let? dissats := try_map D_ subs in thresh_fn k sats dissats) = Ok s) ∧
  ∃ nsats,
    try_map (λ sub, let? nsat := D_ sub in assert_ (negb (has_sig nsat)) (Ok nsat)) subs = Ok nsats ∧
    is_stack (fold_left (λ acc nsat, wcombine (wit nsat) acc) nsats wempty) = true.
Proof.
  intros Hk Hall Hcd. destruct (thresh_dissats subs Hall Hcd) as (ds & Hds & Hcs & Hds').
  split.
  - destruct (try_map_all S_ (λ _ _, True) subs) as (sats & Hsats & Hf).
    { eapply Forall_impl; [|exact Hall]. intros s (r & _ & Hr & _). eauto. }
    rewrite Hsats, Hds. cbn [result_bind]. apply Forall2_length in Hf. apply try_map_Ok, Forall2_length in Hds.
    apply thresh_total; [lia|lia|done].
  - exists ds. split; [done|]. rewrite is_stack_fold_combine. cbn. apply forallb_forall.
    intros d Hd%list_elem_of_In. rewrite list.Forall_forall in Hcs. by apply Hcs.
Qed.
(** *** Equations of the mutually recursive cases *)

Lemma sat_AndOr a b c mty mext :
  S_ (MkMs (AndOr a b c) mty mext) =
  let? a_sat := S_ a in
  let? a_nsat := D_ a in
  let? b_sat := S_ b in
  let? c_sat := S_ c in
  Ok (min_fn
        (MkSatisfaction (wcombine (wit b_sat) (wit a_sat)) (has_sig a_sat || has_sig b_sat))
        (MkSatisfaction (wcombine (wit c_sat) (wit a_nsat)) (has_sig a_nsat || has_sig c_sat))).
Proof. done. Qed.

Lemma sat_OrB l r mty mext :
  S_ (MkMs (OrB l r) mty mext) =
  let? l_sat := S_ l in
  let? r_sat := S_ r in
  let? l_nsat := D_ l in
  let? r_nsat := D_ r in
  assert_ (negb (has_sig l_nsat)) (assert_ (negb (has_sig r_nsat))
    (Ok (min_fn
           (MkSatisfaction (wcombine (wit r_sat) (wit l_nsat)) (has_sig r_sat))
           (MkSatisfaction (wcombine (wit r_nsat) (wit l_sat)) (has_sig l_sat))))).
Proof. done. Qed.

Definition or_d_sat l r : result Error Satisfaction :=
  let? l_sat := S_ l in
  let? r_sat := S_ r in
  let? l_nsat := D_ l in
  assert_ (negb (has_sig l_nsat))
    (Ok (min_fn l_sat
           (MkSatisfaction (wcombine (wit r_sat) (wit l_nsat)) (has_sig r_sat)))).

Lemma sat_OrD l r mty mext : S_ (MkMs (OrD l r) mty mext) = or_d_sat l r.
Proof. done. Qed.
Lemma sat_OrC l r mty mext : S_ (MkMs (OrC l r) mty mext) = or_d_sat l r.
Proof. done. Qed.

Lemma dissat_AndV l r mty mext :
  D_ (MkMs (AndV l r) mty mext) =
  let? vsat := S_ l in
  let? odissat := D_ r in
  ok_sat (wcombine (wit odissat) (wit vsat)) (has_sig vsat || has_sig odissat).
Proof. done. Qed.

Lemma sat_Thresh k subs mty mext :
  S_ (MkMs (Thresh k subs) mty mext) =
  let? sats := try_map S_ subs in
  let? dissats := try_map D_ subs in
  thresh_fn k sats dissats.
Proof. done. Qed.

Lemma thresh_children_dissat (subs : list (Miniscript Pk Ext)) : thresh_children_ok subs → Forall (λ s, cd s = true) subs.
Proof.
  destruct subs as [|s subs]; [constructor|]. intros [(_ & _ & Hs) Hss]%thresh_children_cons.
  constructor; [done|]. by eapply Forall_impl; [|exact Hss]; intros s' (_ & _ & Hd).
Qed.

(** A combination of clean dissatisfactions is clean. *)
Ltac clean_children :=
  unfold clean in *;
  repeat match goal with
  | Hc : ?P → _ ∧ _, Hd : ?P |- _ => destruct (Hc Hd); clear Hc
  | Hc : _ = false ∧ _ |- _ => destruct Hc
  end; cbn [wit has_sig]; rewrite ?is_stack_wcombine;
  repeat match goal with Hb : _ = (_ : bool) |- _ => rewrite ?Hb; clear Hb end; done.

(** Computes the helpers from those of the children. *)
Ltac compute_helpers :=
  repeat match goal with
  | Hx : helpers_ok _ |- _ => destruct Hx as (? & ? & ? & ? & ?)
  | Hc : true = true → clean _ |- _ => destruct (Hc eq_refl); clear Hc
  | Hd : cd ?s = true, Hc : cd ?s = true → clean _ |- _ => destruct (Hc Hd); clear Hc
  end;
  rewrite ?dissat_AndV, ?sat_Thresh, ?sat_AndOr, ?sat_OrB, ?sat_OrD, ?sat_OrC; unfold or_d_sat; cbn [satisfy_helper dissatisfy_helper];
  repeat match goal with
  | Hs : satisfy_helper _ _ _ _ _ _ _ = Ok _ |- _ => rewrite !Hs; clear Hs
  | Hs : dissatisfy_helper _ _ _ _ _ _ _ = Ok _ |- _ => rewrite !Hs; clear Hs
  end; cbn [result_bind]; unfold assert_;
  repeat match goal with Hs : has_sig ?s = false |- _ => progress rewrite ?Hs end;
  cbn [negb result_bind].

Lemma helpers_ok_all ms : well_typed ctx ms → all_nodes node_liftable ms → helpers_ok ms.
Proof.
  revert ms. apply (well_typed_ind' ctx (λ ms, all_nodes node_liftable ms → helpers_ok ms)).
  intros t mty mext Ht _ _ IH [Hl Hall]%all_nodes_inv. cbn [node children] in *.
  apply type_check_rule in Ht.
  assert (Forall helpers_ok (children t)) as IHs.
  { clear -IH Hall. rewrite list.Forall_forall in *. intros s Hs. auto. }
  clear IH Hall. pose proof (eq_refl : cd (MkMs t mty mext) = dissatisfiable (corr mty)) as Hcd.
  unfold helpers_ok.
  destruct t; cbn [children corr_rule node_liftable] in *; rewrite ?Forall_cons_iff in IHs;
    repeat match goal with Hx : _ ∧ _ |- _ => destruct Hx end; try done;
    match goal with Hc : corr mty = _ |- _ => rewrite Hc in Hcd end;
    cbn [dissatisfiable Correctness.from_true Correctness.from_false Correctness.from_pk_k Correctness.from_pk_h
      Correctness.from_time Correctness.from_hash Correctness.from_multi Correctness.from_multi_a] in Hcd;
    rewrite Hcd.
  all: compute_helpers; try (eexists _, _; split_and!; [reflexivity|reflexivity|done || by intros _]).
  - eexists _, _. split_and!; [reflexivity..|]. intros [? ?]%andb_prop. clean_children.
  - eexists _, _. split_and!; [reflexivity..|]. intros ?. clean_children.
  - eexists _, _. split_and!; [reflexivity..|]. intros ?. clean_children.
  - eexists _, _. split_and!; [reflexivity..|]. intros ?. clean_children.
  - eexists _, _. split_and!; [reflexivity..|]. intros [Hd|Hd]%orb_prop; apply clean_minimum_mall;
      [left|right]; apply clean_push; auto.
  - match goal with Hx : thresh_children_ok _ |- _ => apply thresh_children_dissat in Hx as Hds end.
    destruct (helpers_thresh k subs) as [[s Hs] (nsats & Hn & Hw)]; [done..|]. exists s.
    unfold assert_ in Hn. rewrite Hs, Hn. cbn. by eexists.
  - destruct (satisfy_multi_total k pks) as (s & -> & _); [done|]. eexists _, _. by split_and!.
  - destruct (satisfy_multi_a_total k pks) as (s & -> & _); [done|]. eexists _, _. by split_and!.
Qed.
End total.

(** ** Completeness of the malleable satisfier *)

Section thresh_mall.
Context `{BitcoinKeys} `{!ScriptBuilder} `{!LeafHashes}.
Implicit Types (sats dissats : list Satisfaction).

Lemma is_stack_minimum_mall a b :
  is_stack (wit (minimum_mall a b)) = is_stack (wit a) || is_stack (wit b).
Proof.
  destruct a as [[] ?], b as [[] ?]; cbn; try done.
  match goal with |- context[witness_min ?a ?b] => by destruct (witness_min_or a b) as [->| ->] end.
Qed.

(** The sort key of a satisfaction that exists is below the one of those that do not. *)
Definition small (s : Satisfaction) : Prop :=
  ∀ v, wit s = WStack v → (Z.of_nat (witness_size v) < i64_MAX)%Z.

Lemma key_le_stack s d s' d' :
  small s' → is_stack (wit d) = true → is_stack (wit d') = true →
  key_le (thresh_mall_key s d) (thresh_mall_key s' d') = true →
  is_stack (wit s') = true → is_stack (wit s) = true.
Proof.
  intros Hs (v & Hd)%is_stack_true (v' & Hd')%is_stack_true Hle (w & Hw)%is_stack_true.
  specialize (Hs w Hw). unfold key_le, thresh_mall_key in Hle. cbn in Hle. unfold stack_weight in Hle.
  rewrite Hd, Hd', Hw in Hle. destruct (wit s); [done|..]; apply Z.leb_le in Hle; lia.
Qed.

Definition found sats (j : nat) : bool :=
  match sats !! j with Some s => is_stack (wit s) | None => false end.

Lemma number_found sats :
  number (map (λ s, is_stack (wit s)) sats) = number (map (found sats) (seq 0 (length sats))).
Proof.
  f_equal. apply list_eq. intros i. rewrite !list_lookup_fmap. unfold found.
  destruct (sats !! i) as [s|] eqn:Hi; cbn.
  - rewrite lookup_seq_lt by (by eapply lookup_lt_Some). cbn. by rewrite Hi.
  - apply lookup_ge_None in Hi. by rewrite lookup_seq_ge by done.
Qed.

Lemma picked_number k sats dissats ws :
  picked k sats dissats ws → k ≤ number (map (λ s, is_stack (wit s)) sats).
Proof.
  induction 1 as [|k s d w sats dissats ws Hs _ IH|k s d w sats dissats ws _ _ IH]; [done|..];
    cbn [map]; rewrite number_cons; [rewrite Hs; cbn|]; lia.
Qed.

Lemma thresh_mall_stack k sats dissats s :
  length sats = length dissats → Forall clean dissats → Forall small sats →
  thresh_mall k sats dissats = Ok s →
  is_stack (wit s) = (k <=? number (map (λ s, is_stack (wit s)) sats)).
Proof.
  intros Hlen Hd Hsm Hs. unfold thresh_mall in Hs.
  set (idx := sort_by_key (key_at thresh_mall_key sats dissats) (seq 0 (length sats))) in *.
  destruct (sorted_indices (key_at thresh_mall_key sats dissats) (length sats)) as (Hp & Hnd & Hin & Hl).
  fold idx in Hp, Hnd, Hin, Hl. apply bind_Ok in Hs as ([sats' ret] & Hr & [= <-]).
  apply swap_all_inv in Hr as (Hk & [= -> ->]); [|done|done].
  destruct (Nat.leb_spec k (number (map (λ s, is_stack (wit s)) sats))) as [Hge|Hlt].
  - unfold flatten. cbn [wit]. rewrite is_stack_fold_combine. cbn [is_stack andb].
    apply forallb_forall. intros x (j & a & b & Ha & Hb & ->)%list_elem_of_In%pick_elem.
    destruct (in_first idx k j) eqn:Hf; [|eapply Forall_lookup_1 in Hd as [_ ?]; [|done]; done].
    apply in_first_lookup in Hf as (m & Hm & Hmj).
    destruct (is_stack (wit a)) eqn:Hst; [done|]. exfalso.
    assert (number (map (found sats) idx) ≤ m) as Hno.
    { rewrite <-(take_drop m idx), map_app, number_app.
      assert (number (map (found sats) (drop m idx)) = 0) as ->.
      { assert (∀ i, i ∈ drop m idx → found sats i = false) as Hno.
        { intros i (n & Hn)%list_elem_of_lookup. rewrite lookup_drop in Hn.
          destruct (found sats i) eqn:Hfi; [|done]. unfold found in Hfi.
          destruct (sats !! i) as [a'|] eqn:Ha'; [|done].
          destruct (lookup_lt_is_Some_2 dissats i) as [b' Hb']; [apply lookup_lt_Some in Ha'; lia|].
          destruct (decide (n = 0)) as [->|Hn0]; [rewrite Nat.add_0_r in Hn; congruence|].
          pose proof (sorted_lookup (key_at thresh_mall_key sats dissats) idx m (m + n) j i
            (sort_by_key_sorted _ _) ltac:(lia) Hmj Hn) as Hle.
          unfold key_at in Hle. rewrite Ha, Hb, Ha', Hb' in Hle.
          assert (is_stack (wit a) = true); [|congruence].
          eapply (key_le_stack a b a' b'); [by eapply Forall_lookup_1 in Hsm| | |done|done].
          - by eapply Forall_lookup_1 in Hd as [_ ?].
          - by eapply Forall_lookup_1 in Hd as [_ ?]. }
        clear -Hno. induction (drop m idx) as [|i l IH]; [done|]. cbn [map].
        rewrite number_cons, (Hno i), IH; [done| |by left]. intros i' Hi'. apply Hno. by right. }
      pose proof (number_le (map (found sats) (take m idx))) as Hle.
      rewrite length_map, length_take in Hle. lia. }
    rewrite number_found in Hge. rewrite <-(number_perm _ _ (Permutation_map (found sats) Hp)) in Hge. lia.
  - destruct (is_stack _) eqn:Hst; [|done]. apply is_stack_true in Hst as [w Hw].
    apply flatten_picked in Hw as (ws & Hpk%picked_number & _); [lia|done..].
Qed.
End thresh_mall.

Section complete.
Context {Pk : Type} `{MiniscriptKey Pk} `{BitcoinKeys} `{!ToPublicKey Pk} `{!ScriptBuilder}.
Context `{!LeafHashes} `{!Signatures} `{!SignaturesOk} {Ext : Type} `{!SatisfyExt Ext} `{!Extension Ext} `{LockTimes}.
Context (ctx : ScriptContext) (stfr : Satisfier Pk) (leaf_hash : TapLeafHash) (root_has_sig : bool).
Implicit Types ms : Miniscript Pk Ext.
Notation S_ := (satisfy_helper ctx stfr root_has_sig leaf_hash minimum_mall thresh_mall).
Notation D_ := (dissatisfy_helper ctx stfr root_has_sig leaf_hash minimum_mall thresh_mall).
Notation offers := (offers ctx stfr leaf_hash).

(** The witnesses of the fragments of a Miniscript fit in memory. *)
Inductive fits : Miniscript Pk Ext → Prop :=
  | fits_node t mty mext :
      (∀ s, S_ (MkMs t mty mext) = Ok s → small s) → Forall fits (children t) →
      fits (MkMs t mty mext).

Definition complete ms : Prop :=
  ∃ s d, S_ ms = Ok s ∧ D_ ms = Ok d ∧ (cd ms = true → clean d) ∧
    small s ∧ is_stack (wit s) = ms_eval offers ms.

Lemma complete_thresh k subs s :
  Forall complete subs → Forall (λ s, cd s = true) subs →
  (let? sats := try_map S_ subs in let? dissats := try_map D_ subs in thresh_mall k sats dissats) = Ok s →
  is_stack (wit s) = (k <=? number (map (ms_eval offers) subs)).
Proof.
  intros Hall Hcd (sats & Hsats & (dissats & Hds & Hs)%bind_Ok)%bind_Ok.
  apply try_map_Ok in Hsats, Hds.
  assert (Forall clean dissats ∧ Forall small sats ∧
    map (λ s, is_stack (wit s)) sats = map (ms_eval offers) subs) as (Hc & Hsm & Heq).
  { clear Hs. revert sats dissats Hsats Hds.
    induction Hall as [|ms subs (s' & d' & Hs' & Hd' & Hc & Hsm & He) _ IH]; intros sats dissats Hsats Hds;
      inversion Hsats as [|? s0 ? sats' Hs0 Hsats']; inversion Hds as [|? d0 ? ds' Hd0 Hds']; subst; [done|].
    apply Forall_cons_iff in Hcd as [Hcd Hcds].
    destruct (IH Hcds _ _ Hsats' Hds') as (? & ? & Heq).
    rewrite Hs' in Hs0. rewrite Hd' in Hd0. injection Hs0 as <-. injection Hd0 as <-.
    split_and!; [by constructor; auto|by constructor|]. cbn [map]. by rewrite He, Heq. }
  rewrite <-Heq. apply (thresh_mall_stack k sats dissats); [|done..].
  by rewrite <-(Forall2_length Hsats), <-(Forall2_length Hds).
Qed.

Lemma is_stack_preimage p : is_stack (preimage_witness p) = bool_decide (is_Some p).
Proof. by destruct p. Qed.

Lemma is_stack_time b : is_stack (time_witness root_has_sig b) = b.
Proof. unfold time_witness. by destruct b, root_has_sig. Qed.

(** Computes whether there is a witness from whether the children have one. *)
Ltac compute_stack :=
  repeat match goal with
  | Hs : satisfy_helper _ _ _ _ _ _ _ = Ok _ |- _ => rewrite !Hs; clear Hs
  | Hs : dissatisfy_helper _ _ _ _ _ _ _ = Ok _ |- _ => rewrite !Hs; clear Hs
  | Hc : clean _ |- _ => destruct Hc
  end; cbn [result_bind];
  repeat match goal with Hn : has_sig _ = false |- _ => rewrite !Hn; clear Hn end;
  unfold assert_, ok_sat; cbn [negb]; intros [= <-]; cbn [wit];
  rewrite ?is_stack_minimum_mall; cbn [wit];
  rewrite ?is_stack_wcombine, ?is_stack_preimage, ?is_stack_time;
  repeat match goal with Hw : is_stack _ = _ |- _ => rewrite ?Hw; clear Hw end;
  cbn [is_stack push_0 push_1]; rewrite ?andb_true_r; try done;
  repeat match goal with |- context[ms_eval ?v ?s] => destruct (ms_eval v s) end.

Lemma complete_all ms : well_typed ctx ms → all_nodes node_liftable ms → fits ms → complete ms.
Proof.
  revert ms. apply (well_typed_ind' ctx (λ ms, all_nodes node_liftable ms → fits ms → complete ms)).
  intros t mty mext Ht Hty Hwt IH Hal Hfit.
  destruct (helpers_ok_all ctx stfr leaf_hash root_has_sig minimum_mall thresh_mall (MkMs t mty mext))
    as (s & d & Hs & Hd & Hcd); [by constructor| done|].
  apply all_nodes_inv in Hal as [Hl Hall]. inversion Hfit as [? ? ? Hsm Hfits]; subst. cbn [node children] in *.
  apply type_check_rule in Ht.
  assert (Forall complete (children t)) as IHs.
  { clear -IH Hall Hfits. rewrite list.Forall_forall in *. intros s Hs. auto. }
  clear IH Hall Hfits Hwt Hfit.
  exists s, d. split_and!; [done|done|done|auto|]. clear Hd Hcd Hsm.
  revert Hs. destruct t; cbn [children corr_rule node_liftable] in *; rewrite ?Forall_cons_iff in IHs;
    repeat match goal with Hx : _ ∧ _ |- _ => destruct Hx end; try done;
    repeat match goal with
    | Hx : complete _ |- _ => destruct Hx as (? & ? & ? & ? & ? & ? & ?)
    | Hd : cd ?s = true, Hc : cd ?s = true → clean _ |- _ => destruct (Hc Hd); clear Hc
    end;
    rewrite ?dissat_AndV, ?sat_Thresh, ?sat_AndOr, ?sat_OrB, ?sat_OrD, ?sat_OrC; unfold or_d_sat;
    cbn [satisfy_helper ms_eval].
  all: try by compute_stack.
  - intros Hs. eapply complete_thresh; [done|by apply thresh_children_dissat|done].
  - destruct (satisfy_multi_total ctx stfr leaf_hash k pks) as (s' & -> & He); [done|]. by intros [= <-].
  - destruct (satisfy_multi_a_total ctx stfr leaf_hash k pks) as (s' & -> & He); [done|]. by intros [= <-].
Qed.
End complete.

(** ** What the satisfiers promise *)

Section promises.
Context {Pk : Type} `{MiniscriptKey Pk} `{BitcoinKeys} `{!ToPublicKey Pk} `{!ScriptBuilder}.
Context `{!LeafHashes} `{!Signatures} `{!SignaturesOk} {Ext : Type} `{!SatisfyExt Ext} `{!Extension Ext} `{LockTimes}.
Context (ctx : ScriptContext) (stfr : Satisfier Pk) (leaf_hash : TapLeafHash) (root_has_sig : bool).
Implicit Types ms : Miniscript Pk Ext.
Notation offers := (offers ctx stfr leaf_hash).

Section sat_offers.
Context (min_fn : Satisfaction → Satisfaction → Satisfaction).
Context (thresh_fn : nat → list Satisfaction → list Satisfaction → result Error Satisfaction).
Context `{!Chooses min_fn thresh_fn}.
Notation sat_with := (sat_with ctx stfr leaf_hash root_has_sig min_fn thresh_fn).
Notation picks := (picks ctx stfr leaf_hash root_has_sig min_fn thresh_fn).

Lemma signs_offers pk b : signs ctx stfr leaf_hash pk b → offers (Semantic.Key pk) = true.
Proof. unfold signs. cbn. by intros ->. Qed.

Lemma sublist_offered keys keys' : keys' `sublist_of` keys → offered ctx stfr leaf_hash keys' ≤ offered ctx stfr leaf_hash keys.
Proof. induction 1 as [|k ? ? _ IH|k ? ? _ IH]; rewrite ?offered_cons; try case_match; lia. Qed.

Lemma multi_witness_offered k keys w :
  multi_witness ctx stfr leaf_hash k keys w → k ≤ offered ctx stfr leaf_hash keys.
Proof.
  intros (cs & Hsub%sublist_offered & <- & Hcs & _). etrans; [|exact Hsub]. clear Hsub.
  induction Hcs as [|c cs Hc%signs_offers _ IH]; [done|]. cbn [map]. rewrite offered_cons, Hc. cbn. lia.
Qed.

Lemma multi_a_witness_offered k keys w :
  multi_a_witness ctx stfr leaf_hash k keys w → k ≤ offered ctx stfr leaf_hash keys.
Proof.
  intros (vals & Hf & <- & _). induction Hf as [|pk o keys vals Ho _ IH]; [done|].
  rewrite offered_cons. cbn [count_some]. destruct o as [b|].
  - rewrite (signs_offers pk b) by auto. lia.
  - cbn. case_match; lia.
Qed.

Lemma picks_number k subs ws :
  Forall (λ s, ∀ w, sat_with s w → ms_eval offers s = true) subs → picks k subs ws →
  k ≤ number (map (ms_eval offers) subs).
Proof.
  intros Hall Hp. revert Hall. induction Hp as [|k s w subs ws Hw _ IH|k s w subs ws _ _ IH];
    [done|..]; intros [Hs Hall]%Forall_cons_iff; cbn [map]; rewrite number_cons; specialize (IH Hall).
  - rewrite (Hs w) by done. lia.
  - lia.
Qed.

(** A satisfaction only uses what the satisfier offers. *)
Lemma sat_with_offers ms w :
  well_typed ctx ms → all_nodes node_liftable ms → sat_with ms w → ms_eval offers ms = true.
Proof.
  intros Hwt Hl. revert w. revert ms Hwt Hl.
  apply (well_typed_ind' ctx (λ ms, all_nodes node_liftable ms → ∀ w, sat_with ms w → ms_eval offers ms = true)).
  intros t mty mext Ht _ _ IH [Hl Hall]%all_nodes_inv w Hw. apply sat_inv in Hw; [|exact _]. cbn [node children] in *.
  apply type_check_rule in Ht.
  assert (Forall (λ s, ∀ w, sat_with s w → ms_eval offers s = true) (children t)) as IHs.
  { clear -IH Hall. rewrite list.Forall_forall in *. intros s Hs. exact (IH s Hs (Hall s Hs)). }
  clear IH Hall.
  destruct t; cbn [children node_liftable corr_rule ms_eval] in *; try done; rewrite ?Forall_cons_iff in IHs;
    repeat match goal with
    | Hx : _ ∧ _ |- _ => destruct Hx
    | Hx : _ ∨ _ |- _ => destruct Hx
    | Hx : ∃ _, _ |- _ => destruct Hx
    | IHx : ∀ w, sat_with ?s w → _, Hx : sat_with ?s _ |- _ => apply IHx in Hx
    end;
    repeat match goal with Hx : ms_eval offers _ = true |- _ => rewrite Hx; clear Hx end;
    rewrite ?orb_true_r; try done; try (by eapply signs_offers);
    try (by apply bool_decide_eq_true; eexists).
  - apply Nat.leb_le. by eapply picks_number.
  - apply Nat.leb_le. by eapply multi_witness_offered.
  - apply Nat.leb_le. eapply multi_a_witness_offered; auto.
Qed.
End sat_offers.

(** (C4) The satisfiers do not panic and only use what is offered: for a well-typed
    Miniscript without raw key hashes and without extensions, the assertions that
    dissatisfactions contain no signature hold, every index is in range, and both [satisfy] and [satisfy_mall]
    return a satisfaction.  When it is a witness, the signatures, preimages and lock
    times the satisfier offers imply the Miniscript and the policy it lifts to. *)
Theorem satisfy_total (malleable : bool) ms :
  well_typed ctx ms → all_nodes node_liftable ms →
  ∃ s, (if malleable then satisfy_mall ctx stfr root_has_sig leaf_hash ms
        else satisfy ctx stfr root_has_sig leaf_hash ms) = Ok s ∧
    ∀ w, wit s = WStack w →
      ms_eval offers ms = true ∧ ∀ p, lift ctx ms = Ok p → eval offers p = true.
Proof.
  intros Hwt Hl. assert (∀ s w min_fn thresh_fn, Chooses min_fn thresh_fn →
    satisfy_helper ctx stfr root_has_sig leaf_hash min_fn thresh_fn ms = Ok s → wit s = WStack w →
    ms_eval offers ms = true ∧ ∀ p, lift ctx ms = Ok p → eval offers p = true) as Hmeans.
  { intros s w min_fn thresh_fn Hch Hs Hw.
    assert (ms_eval offers ms = true) as He by (eapply sat_with_offers; [done..|by eexists]).
    split; [done|]. intros p Hp. by rewrite (lift_meaning ctx _ _ _ Hp). }
  destruct malleable.
  - destruct (helpers_ok_all ctx stfr leaf_hash root_has_sig minimum_mall thresh_mall ms) as (s & _ & Hs & _);
      [done..|]. exists s. split; [done|]. intros w. by eapply Hmeans; [apply Chooses_mall|].
  - destruct (helpers_ok_all ctx stfr leaf_hash root_has_sig minimum thresh ms) as (s & _ & Hs & _);
      [done..|]. exists s. split; [done|]. intros w. by eapply Hmeans; [apply Chooses_nonmall|].
Qed.

(** (C3) The malleable satisfier is complete: for a well-typed Miniscript without raw
    key hashes and without extensions, whose witnesses have sizes below [i64::MAX], it
    returns a witness exactly when the
    conditions the satisfier offers imply the Miniscript, hence exactly when they imply
    the policy it lifts to; the sort of a threshold puts what exists first. *)
Theorem satisfy_mall_complete ms :
  well_typed ctx ms → all_nodes node_liftable ms → fits ctx stfr leaf_hash root_has_sig ms →
  ∃ s, satisfy_mall ctx stfr root_has_sig leaf_hash ms = Ok s ∧
    ((∃ w, wit s = WStack w) ↔ ms_eval offers ms = true) ∧
    ∀ p, lift ctx ms = Ok p → (∃ w, wit s = WStack w) ↔ eval offers p = true.
Proof.
  intros Hwt Hl Hf. destruct (complete_all ctx stfr leaf_hash root_has_sig ms Hwt Hl Hf)
    as (s & d & Hs & _ & _ & _ & He).
  assert ((∃ w, wit s = WStack w) ↔ ms_eval offers ms = true) as Hiff.
  { by rewrite <-is_stack_true, <-He. }
  exists s. split_and!; [done|done|]. intros p Hp. by rewrite (lift_meaning ctx _ _ _ Hp).
Qed.
End promises.
