(* ===== verification/SatSamples.v ===== *)
(** * The satisfier and the interpreter on samples

    A concrete model of signatures, hash functions and of the transaction that is
    checked, for which every law assumed holds, and the theorems on a sample script. *)

From S2P Require Import Prelude Types Extension Instances Property Ast Examples Typing Resources Iter Tokens Context ScriptNum Script Encoding Builder Lex PolicyNormal Lift LiftProps Interp InterpRefine InterpSound Satisfy Choice SatShape SatAccept SatTotal.
From S2P Require Semantic.
From stdpp Require Import strings.

(** ** Instances *)

(** The first byte decides a hash; a signature is the byte of the key it is made with. *)
Definition first_byte (b : bytes) : nat :=
  match b with x :: _ => N.to_nat (Byte.to_N x) | [] => 0 end.

Definition slice_of {A} (n : nat) (f : Byte.byte → A) (b : bytes) : option A :=
  match b with
  | x :: _ => if bool_decide (b = repeat x n) then Some (f x) else None
  | [] => None
  end.

(** An output is a value, an asset and a script; an input its issued amounts. *)
Record DemoTxOut : Type := MkDemoTxOut {
  demo_value : Confidential N Byte.byte;
  demo_asset : Confidential (hash_n 32) Byte.byte;
  demo_spk : bytes;
}.

Definition demo_serialize_value (v : Confidential N Byte.byte) : bytes :=
  match v with
  | Null => [Byte.x00]
  | Explicit n => Byte.x01 :: le_bytes 8 n
  | Commitment c => repeat c 33
  end.

Definition demo_Transactions : Transactions := {|
  Transaction := list (Confidential N Byte.byte * Confidential N Byte.byte) * list DemoTxOut;
  TxIn := Confidential N Byte.byte * Confidential N Byte.byte;
  TxOut := DemoTxOut;
  PedersenCommitment := Byte.byte;
  Generator := Byte.byte;
  OutPoint := Byte.byte;
  tx_input := fst;
  tx_output := snd;
  txout_value := demo_value;
  txout_asset := demo_asset;
  txout_script_pubkey := demo_spk;
  issuance_amount := fst;
  issuance_inflation_keys := snd;
  tx_version _ := 2%N;
  tx_lock_time _ := 2000%N;
  previous_output _ := Byte.x33;
  txin_sequence _ := 200%N;
  has_issuance i := negb (bool_decide (i = (Null, Null)));
  serialize_issuance i := demo_serialize_value i.1 ++ demo_serialize_value i.2;
  serialize_outpoint o := repeat o 36;
  serialize_txout o := demo_serialize_value (demo_value o) ++ demo_spk o;
  serialize_value := demo_serialize_value;
|}.

#[export] Instance demo_Signatures : Signatures := {|
  EcdsaSignature := Byte.byte;
  EcdsaSighashType := Byte.byte;
  SchnorrSig := Byte.byte;
  serialize_der s := Byte.x30 :: repeat s 7;
  from_der b := match b with
                | Byte.x30 :: s :: b => if bool_decide (b = repeat s 6) then Some s else None
                | _ => None
                end;
  sighash_as_u8 t := t;
  sighash_from_u32 := byte_of_N;
  schnorr_to_vec s := [Byte.x40; s];
  schnorr_from_slice b := match b with [Byte.x40; s] => Some s | _ => None end;
  PublicKey_from_slice b := first_some (slice_of 33 (λ x, (x, true)) b) (slice_of 65 (λ x, (x, false)) b);
  XOnly_from_slice := slice_of 32 id;
  PublicKey_to_pubkeyhash k _ := demo_hash (pubkey_bytes k);
  XOnly_to_pubkeyhash k _ := demo_hash (xonly_serialize k);
  XOnly_to_public_key k := (k, true);
  PublicKey_display _ := "key"%string;
  sha256_hash b := pad_hash 32 (first_byte b);
  hash256_hash b := pad_hash 32 (first_byte b);
  ripemd160_hash b := pad_hash 20 (first_byte b);
  hash160_hash := demo_hash;
  sighash_message b := pad_hash 32 (first_byte b);
  verify_ecdsa _ s k := bool_decide (s = k.1);
  SchnorrSignature := Byte.byte;
  schnorr_as_ref s := [Byte.x50; s];
  schnorr_signature_from_slice b := match b with [Byte.x50; s] => Some s | _ => None end;
  verify_schnorr s _ k := bool_decide (s = k);
  sig_transactions := demo_Transactions;
|}.

Lemma slice_of_repeat {A} n (f : Byte.byte → A) x : slice_of (S n) f (repeat x (S n)) = Some (f x).
Proof. cbn. by rewrite bool_decide_eq_true_2. Qed.

#[export] Instance demo_SignaturesOk : SignaturesOk.
Proof.
  split; try done.
  - intros s. cbn. by rewrite bool_decide_eq_true_2.
  - intros t. cbn. unfold byte_of_N. rewrite N.mod_small; [|by destruct t]. by rewrite Byte.of_to_N.
  - intros [x []]; cbn [PublicKey_from_slice demo_Signatures pubkey_bytes demo_BitcoinKeys fst snd].
    + by rewrite slice_of_repeat.
    + rewrite slice_of_repeat. cbn. rewrite bool_decide_eq_false_2; [done|].
      by intros Heq%(f_equal length).
  - intros [x []]; cbn; lia.
  - intros x. apply (slice_of_repeat 31).
  - intros x. cbn. lia.
Qed.

#[export] Instance demo_LeafHashes : LeafHashes := {|
  TapLeafHash := unit;
  TapLeafHash_from_script _ := tt;
  varint_len n := if n <? 253 then 1 else 3;
|}.

(** ** The sample *)

Definition preimage : hash_n 32 := pad_hash 32 7.

(** [and_v(v:thresh(2,pk(0),s:pk(1),s:pk(2)),or_d(multi(2,3,4,5),and_v(v:sha256(h),after(1000))))] *)
Definition ms_spend_built : Ms :=
  build Segwitv0 (AndV (wrap_v Segwitv0 (ms_thresh Segwitv0))
    (build Segwitv0 (OrD (build Segwitv0 (Multi 2 [Compressed 3; Compressed 4; Compressed 5]))
      (build Segwitv0 (AndV
        (wrap_v Segwitv0 (build Segwitv0 (Sha256 (Pk := DemoKey) preimage)))
        (build Segwitv0 (After 1000))))))).

Definition ms_spend : Ms := Eval vm_compute in ms_spend_built.

Lemma ms_spend_typed : well_typed Segwitv0 ms_spend.
Proof.
  assert (ms_spend = ms_spend_built) as -> by (vm_compute; reflexivity). unfold ms_spend_built. build_typed.
Qed.

(** A transaction with lock time 2000 and an input of age 200; its signatures are those
    of the keys they claim. *)
Definition demo_env : Env :=
  MkEnv (λ ks, match ks with
               | KsEcdsa pk s => bool_decide (s.1 = pk.1)
               | KsSchnorr pk s => bool_decide (s = pk)
               end) None 200 2000 Ecdsa.

(** Signatures of keys 0, 2, 3 and 5, the preimage and the lock times. *)
Definition demo_satisfier : Satisfier DemoKey := {|
  lookup_tap_key_spend_sig := None;
  lookup_ecdsa_sig k :=
    if bool_decide (key_index k ∈ [0; 2; 3; 5])
    then Some ((to_public_key k).1, Byte.x01) else None;
  lookup_tap_leaf_script_sig _ _ := None;
  lookup_raw_pkh_pk _ := None;
  lookup_raw_pkh_x_only_pk _ := None;
  lookup_raw_pkh_ecdsa_sig _ := None;
  lookup_raw_pkh_tap_leaf_script_sig _ := None;
  lookup_sha256 h := if bool_decide (h = preimage) then Some preimage else None;
  lookup_hash256 _ := None;
  lookup_ripemd160 _ := None;
  lookup_hash160 _ := None;
  check_older n := (n <=? 200)%N;
  check_after n := same_unit n 2000 && (n <=? 2000)%N;
  lookup_nversion := None;
  lookup_hashprevouts := None;
  lookup_hashsequence := None;
  lookup_hashissuances := None;
  lookup_outpoint := None;
  lookup_scriptcode := None;
  lookup_value := None;
  lookup_nsequence := None;
  lookup_outputs := None;
  lookup_nlocktime := None;
  lookup_sighashu32 := None;
  lookup_tx := None;
  lookup_spent_utxos := None;
  lookup_curr_inp := None;
  lookup_csfs_sig _ _ := None;
  lookup_price_oracle_sig _ _ := None;
|}.

Lemma demo_satisfier_ok : SatisfierOk demo_env Segwitv0 demo_satisfier tt.
Proof.
  split; try done.
  - intros k s. cbn. case_bool_decide; [|done]. intros [= <-]. by apply bool_decide_eq_true.
  - intros h p. cbn. case_bool_decide as Hh; [|done]. subst h. by intros [= <-].
  - intros n. cbn [check_after demo_satisfier]. intros [Hu Hn%N.leb_le]%andb_prop. done.
  - intros n. cbn. apply N.leb_le.
Qed.

(** The witnesses, their last element on top of the stack.  The malleable satisfier takes
    the shorter branch; the other one must take the branch without signatures, which a
    third party could switch to. *)
Definition sig (b : Byte.byte) : bytes := (Byte.x30 :: repeat b 7) ++ [Byte.x01].

Example ms_spend_malleable :
  ms_satisfy_malleable Segwitv0 demo_satisfier ms_spend =
  Ok [[]; sig Byte.x03; sig Byte.x05; sig Byte.x02; []; sig Byte.x00].
Proof. vm_compute. reflexivity. Qed.

Definition spend_witness : list bytes :=
  [hash_bytes preimage; []; []; []; sig Byte.x02; []; sig Byte.x00].

Example ms_spend_nonmalleable : ms_satisfy Segwitv0 demo_satisfier ms_spend = Ok spend_witness.
Proof. vm_compute. reflexivity. Qed.

(** The Miniscript the interpreter is given. *)
Definition spend_inner : Inner NoExt := InScript (no_checks Segwitv0 ms_spend) StWsh.

(** ** The theorems on the sample *)

Lemma collect_interpret_witness :
  inner_fuel spend_inner ≤ 60 ∧
  collect demo_env 60 (iter_custom spend_inner (Stack_of spend_witness))
  = Some (interpret demo_env spend_inner (Stack_of spend_witness)).
Proof.
  assert (inner_fuel spend_inner ≤ 60) as Hf by (apply Nat.leb_le; vm_compute; reflexivity).
  split; [exact Hf|]. exact (collect_interpret demo_env spend_inner (Stack_of spend_witness) 60 Hf).
Defined.

(** [and_v(v:pk(1),after(1000))] over the keys of the interpreter. *)
Definition key_1 : BitcoinKey := Fullkey (Byte.x01, true).
Definition ms_key : Miniscript BitcoinKey NoExt :=
  build Segwitv0 (AndV (build Segwitv0 (Verify (build Segwitv0 (Check (build Segwitv0 (PkK key_1))))))
                       (build Segwitv0 (After 1000))).

Lemma accepted_sound_witness :
  well_typed Segwitv0 ms_key ∧ cb ms_key = B ∧ all_nodes node_liftable ms_key ∧
  ∃ cs, collect demo_env 40 (iter_custom (InScript ms_key StWsh) (Stack_of [sig Byte.x01])) = Some (cs, Ok tt) ∧
    Forall (valid demo_env) cs ∧
    ∀ v, supports demo_env v cs →
      ms_eval v ms_key = true ∧ ∀ p, lift Segwitv0 ms_key = Ok p → eval v p = true.
Proof.
  assert (well_typed Segwitv0 ms_key) as Hwt by build_typed.
  assert (cb ms_key = B) as Hb by (vm_compute; reflexivity).
  assert (all_nodes node_liftable ms_key) as Hl by build_nodes.
  assert (inner_fuel (InScript ms_key StWsh) ≤ 40) as Hf by (apply Nat.leb_le; vm_compute; reflexivity).
  split_and!; [exact Hwt|exact Hb|exact Hl|].
  pose proof (accepted_sound demo_env Segwitv0 ms_key StWsh [sig Byte.x01] 40 Hwt Hb Hl Hf) as Hs.
  destruct (collect demo_env 40 (iter_custom (InScript ms_key StWsh) (Stack_of [sig Byte.x01])))
    as [[cs r]|] eqn:Hc; [|destruct Hs].
  assert (r = Ok tt) as ->.
  { assert ((λ x, x.2) <$> collect demo_env 40 (iter_custom (InScript ms_key StWsh) (Stack_of [sig Byte.x01]))
      = Some (Ok tt)) as Hr by (vm_compute; reflexivity). rewrite Hc in Hr. by injection Hr. }
  exists cs. split; [reflexivity|exact Hs].
Defined.

Lemma ms_spend_liftable : all_nodes node_liftable ms_spend.
Proof. build_nodes. Qed.
Lemma ms_spend_not_zero : all_nodes node_not_zero ms_spend.
Proof.
  repeat (apply all_nodes_node; [vm_compute; done|repeat apply Forall_cons_2; try apply Forall_nil_2]).
Qed.
Lemma ms_spend_B : cb ms_spend = B.
Proof. vm_compute. reflexivity. Qed.

Lemma satisfied_accepted_witness :
  well_typed Segwitv0 ms_spend ∧ cb ms_spend = B ∧
  ∃ ms', to_no_checks_ms Segwitv0 ms_spend = Ok ms' ∧
    ∀ t fuel, inner_fuel (InScript ms' t) ≤ fuel →
      ∃ cs, collect demo_env fuel (iter_custom (InScript ms' t) (Stack_of spend_witness)) = Some (cs, Ok tt).
Proof.
  split_and!; [exact ms_spend_typed|exact ms_spend_B|].
  apply (satisfied_accepted demo_env Segwitv0 demo_satisfier false ms_spend spend_witness).
  - exact ms_spend_typed.
  - exact ms_spend_B.
  - exact ms_spend_not_zero.
  - apply all_nodes_all. by intros [].
  - intros script _. exact demo_satisfier_ok.
  - exact ms_spend_nonmalleable.
Defined.

Lemma satisfy_total_witness :
  well_typed Segwitv0 ms_spend ∧ all_nodes node_liftable ms_spend ∧
  ∃ s, satisfy Segwitv0 demo_satisfier true tt ms_spend = Ok s ∧
    ∀ w, wit s = WStack w →
      ms_eval (offers Segwitv0 demo_satisfier tt) ms_spend = true ∧
      ∀ p, lift Segwitv0 ms_spend = Ok p → eval (offers Segwitv0 demo_satisfier tt) p = true.
Proof.
  split_and!; [exact ms_spend_typed|exact ms_spend_liftable|].
  exact (satisfy_total Segwitv0 demo_satisfier tt true false ms_spend ms_spend_typed ms_spend_liftable).
Defined.

(** The size of a satisfaction that was computed. *)
Definition small_b (r : result Error Satisfaction) : bool :=
  match r with
  | Ok (MkSatisfaction (WStack v) _) => Z.ltb (Z.of_nat (witness_size v)) i64_MAX
  | _ => true
  end.

Lemma small_b_small r s : small_b r = true → r = Ok s → small s.
Proof.
  intros Hr -> v Hv. destruct s as [w b]. cbn in Hv. subst w. cbn in Hr. by apply Z.ltb_lt.
Qed.

Lemma ms_spend_fits : fits Segwitv0 demo_satisfier tt true ms_spend.
Proof.
  unfold ms_spend.
  repeat (eapply fits_node; [intros s; apply small_b_small; vm_compute; reflexivity
         |repeat apply Forall_cons_2; try apply Forall_nil_2]).
Qed.

Lemma satisfy_mall_complete_witness :
  well_typed Segwitv0 ms_spend ∧ all_nodes node_liftable ms_spend ∧
  fits Segwitv0 demo_satisfier tt true ms_spend ∧
  ∃ s, satisfy_mall Segwitv0 demo_satisfier true tt ms_spend = Ok s ∧
    ((∃ w, wit s = WStack w) ↔ ms_eval (offers Segwitv0 demo_satisfier tt) ms_spend = true) ∧
    ∀ p, lift Segwitv0 ms_spend = Ok p →
      (∃ w, wit s = WStack w) ↔ eval (offers Segwitv0 demo_satisfier tt) p = true.
Proof.
  split_and!; [exact ms_spend_typed|exact ms_spend_liftable|exact ms_spend_fits|].
  exact (satisfy_mall_complete Segwitv0 demo_satisfier tt true ms_spend
    ms_spend_typed ms_spend_liftable ms_spend_fits).
Defined.
