(* ===== verification/IndexOps.v ===== *)
(** * Index expressions

    [src/src/extensions/index_ops.rs]: the indices of inputs and outputs a covenant
    computes, their script, their parser and their value.  A [usize] is a 64-bit [N].
    Arithmetic on it that overflows panics or wraps, as the program is compiled
    ([overflow_checks]); a division by zero panics in both cases. *)

From S2P Require Import Prelude Types Extension Property Ast Typing Resources Tokens Context ScriptNum Script Encoding Lex Lexing.
From S2P Require ExtraProps.
Import ExtraProps(script_num_size).

Inductive IdxExpr : Type :=
  | IdxConst (i : N)
  | CurrIdx
  | IdxAdd (x y : IdxExpr)
  | IdxSub (x y : IdxExpr)
  | IdxMul (x y : IdxExpr)
  | IdxDiv (x y : IdxExpr).

#[export] Instance IdxExpr_eq_dec : EqDecision IdxExpr.
Proof. solve_decision. Defined.

Fixpoint idx_script_size (self : IdxExpr) : nat :=
  match self with
  | IdxConst i => script_num_size i
  | CurrIdx => 1
  | IdxAdd x y | IdxSub x y => idx_script_size x + idx_script_size y + 1
  | IdxMul x y => idx_script_size x + idx_script_size y + 6
  | IdxDiv x y => idx_script_size x + idx_script_size y + 7
  end.

(** [i as i64] *)
Definition as_i64 (i : N) : Z :=
  if (i <? 2 ^ 63)%N then Z.of_N i else (Z.of_N i - 2 ^ 64)%Z.

Fixpoint idx_push_to_builder `{ScriptBuilder} (self : IdxExpr) (b : Builder) : Builder :=
  match self with
  | IdxConst i => push_int b (as_i64 i)
  | CurrIdx => push_opcode b OP_PUSHCURRENTINPUTINDEX
  | IdxAdd x y => push_opcode (idx_push_to_builder y (idx_push_to_builder x b)) OP_ADD
  | IdxSub x y => push_opcode (idx_push_to_builder y (idx_push_to_builder x b)) OP_SUB
  | IdxMul x y =>
      let b := push_opcode (idx_push_to_builder x b) OP_SCRIPTNUMTOLE64 in
      let b := push_opcode (idx_push_to_builder y b) OP_SCRIPTNUMTOLE64 in
      push_opcode (push_opcode (push_int (push_opcode b OP_MUL64) 1) OP_EQUALVERIFY) OP_LE64TOSCRIPTNUM
  | IdxDiv x y =>
      let b := push_opcode (idx_push_to_builder x b) OP_SCRIPTNUMTOLE64 in
      let b := push_opcode (idx_push_to_builder y b) OP_SCRIPTNUMTOLE64 in
      push_opcode (push_opcode (push_opcode (push_int (push_opcode b OP_DIV64) 1) OP_EQUALVERIFY)
        OP_NIP) OP_LE64TOSCRIPTNUM
  end.

(** ** Evaluation *)

(** Whether the program is compiled with overflow checks. *)
Class OverflowChecks : Type := overflow_checks : bool.

Section eval.
Context `{OverflowChecks}.

Definition usize_add (x y : N) : result EvalError N :=
  if (x + y <? 2 ^ 64)%N then Ok (x + y)%N
  else if overflow_checks then Panic else Ok ((x + y) mod 2 ^ 64)%N.

Definition usize_sub (x y : N) : result EvalError N :=
  if (y <=? x)%N then Ok (x - y)%N
  else if overflow_checks then Panic else Ok (x + 2 ^ 64 - y)%N.

Definition usize_mul (x y : N) : result EvalError N :=
  if (x * y <? 2 ^ 64)%N then Ok (x * y)%N
  else if overflow_checks then Panic else Ok ((x * y) mod 2 ^ 64)%N.

Definition usize_div (x y : N) : result EvalError N :=
  if (y =? 0)%N then Panic else Ok (x / y)%N.

Fixpoint idx_eval `{Transactions} (self : IdxExpr) (env : TxEnv) : result EvalError N :=
  let binary f x y :=
    let? x := idx_eval x env in
    let? y := idx_eval y env in
    f x y in
  match self with
  | IdxConst i => Ok i
  | CurrIdx => Ok (env_idx env)
  | IdxAdd x y => binary usize_add x y
  | IdxSub x y => binary usize_sub x y
  | IdxMul x y => binary usize_mul x y
  | IdxDiv x y => binary usize_div x y
  end.
End eval.

(** ** Parsing

    [IdxExpr::from_tokens(tokens, end_pos)] reads the tokens before [end_pos] from the
    last to the first; the model is given just those, in that order, and returns those
    before the expression.  Each call reads a token, so that as much fuel as there are
    tokens is enough ([idx_from_tokens_fuel]). *)
Fixpoint idx_from_tokens (fuel : nat) (ts : TokenIter) : option (IdxExpr * TokenIter) :=
  match fuel with
  | 0 => None
  | S fuel =>
      match ts with
      | TkNum i :: ts => Some (IdxConst i, ts)
      | TkCurrInp :: ts => Some (CurrIdx, ts)
      | TkAdd :: ts =>
          '(y, ts) ← idx_from_tokens fuel ts;
          '(x, ts) ← idx_from_tokens fuel ts;
          Some (IdxAdd x y, ts)
      | TkSub :: ts =>
          '(y, ts) ← idx_from_tokens fuel ts;
          '(x, ts) ← idx_from_tokens fuel ts;
          Some (IdxSub x y, ts)
      | TkLe64ToScriptNum :: TkVerify :: TkEqual :: TkNum 1 :: TkMul64 :: TkScriptNumToLe64 :: ts =>
          '(y, ts) ← idx_from_tokens fuel ts;
          match ts with
          | TkScriptNumToLe64 :: ts => '(x, ts) ← idx_from_tokens fuel ts; Some (IdxMul x y, ts)
          | _ => None
          end
      | TkLe64ToScriptNum :: TkNip :: TkVerify :: TkEqual :: TkNum 1 :: TkDiv64
          :: TkScriptNumToLe64 :: ts =>
          '(y, ts) ← idx_from_tokens fuel ts;
          match ts with
          | TkScriptNumToLe64 :: ts => '(x, ts) ← idx_from_tokens fuel ts; Some (IdxDiv x y, ts)
          | _ => None
          end
      | _ => None
      end
  end.

Definition idx_parse (ts : TokenIter) : option (IdxExpr * TokenIter) :=
  idx_from_tokens (length ts) ts.

(** ** Specification: instructions, tokens and ranges *)

Fixpoint idx_instrs (self : IdxExpr) : list Instruction :=
  match self with
  | IdxConst i => [num_instr i]
  | CurrIdx => [Op OP_PUSHCURRENTINPUTINDEX]
  | IdxAdd x y => idx_instrs x ++ idx_instrs y ++ [Op OP_ADD]
  | IdxSub x y => idx_instrs x ++ idx_instrs y ++ [Op OP_SUB]
  | IdxMul x y =>
      idx_instrs x ++ [Op OP_SCRIPTNUMTOLE64] ++ idx_instrs y
      ++ [Op OP_SCRIPTNUMTOLE64; Op OP_MUL64; num_instr 1; Op OP_EQUALVERIFY; Op OP_LE64TOSCRIPTNUM]
  | IdxDiv x y =>
      idx_instrs x ++ [Op OP_SCRIPTNUMTOLE64] ++ idx_instrs y
      ++ [Op OP_SCRIPTNUMTOLE64; Op OP_DIV64; num_instr 1; Op OP_EQUALVERIFY; Op OP_NIP;
          Op OP_LE64TOSCRIPTNUM]
  end.

Fixpoint idx_tokens (self : IdxExpr) : list Token :=
  match self with
  | IdxConst i => [TkNum i]
  | CurrIdx => [TkCurrInp]
  | IdxAdd x y => idx_tokens x ++ idx_tokens y ++ [TkAdd]
  | IdxSub x y => idx_tokens x ++ idx_tokens y ++ [TkSub]
  | IdxMul x y =>
      idx_tokens x ++ [TkScriptNumToLe64] ++ idx_tokens y
      ++ [TkScriptNumToLe64; TkMul64; TkNum 1; TkEqual; TkVerify; TkLe64ToScriptNum]
  | IdxDiv x y =>
      idx_tokens x ++ [TkScriptNumToLe64] ++ idx_tokens y
      ++ [TkScriptNumToLe64; TkDiv64; TkNum 1; TkEqual; TkVerify; TkNip; TkLe64ToScriptNum]
  end.

(** Every constant is below a bound. *)
Fixpoint idx_within (bound : N) (self : IdxExpr) : Prop :=
  match self with
  | IdxConst i => (i < bound)%N
  | CurrIdx => True
  | IdxAdd x y | IdxSub x y | IdxMul x y | IdxDiv x y => idx_within bound x ∧ idx_within bound y
  end.

Lemma idx_within_mono a b e : (a ≤ b)%N → idx_within a e → idx_within b e.
Proof. intros Hab. induction e; cbn; [lia|done|naive_solver..]. Qed.

(** ** The script *)

Section script.
Context `{ScriptBuilder} `{!ScriptBuilderOk}.

Lemma push_one b l : has_instrs b l → has_instrs (push_int b 1) (l ++ [num_instr 1]).
Proof. intros Hb. by apply (has_push_int b l 1). Qed.

(** Assemble the instructions of a chain of opcodes and small numbers. *)
Ltac push_ops := repeat first [eassumption | eapply has_push_opcode; [done|] | eapply push_one].

Lemma idx_push_instrs e b l :
  idx_within (2 ^ 63) e → has_instrs b l → has_instrs (idx_push_to_builder e b) (l ++ idx_instrs e).
Proof.
  revert b l. induction e as [i| |x IHx y IHy|x IHx y IHy|x IHx y IHy|x IHx y IHy];
    intros b l; cbn [idx_within idx_push_to_builder idx_instrs].
  - intros Hi Hb. unfold as_i64. rewrite (proj2 (N.ltb_lt _ _) Hi). by apply has_push_int.
  - intros _ Hb. by apply (has_push_opcode b l OP_PUSHCURRENTINPUTINDEX).
  - intros [Hx Hy] Hb. eapply has_instrs_eq.
    + push_ops. apply IHy; [done|]. by apply IHx.
    + by rewrite <-!app_assoc.
  - intros [Hx Hy] Hb. eapply has_instrs_eq.
    + push_ops. apply IHy; [done|]. by apply IHx.
    + by rewrite <-!app_assoc.
  - intros [Hx Hy] Hb. eapply has_instrs_eq.
    + push_ops. apply IHy; [done|]. push_ops. by apply IHx.
    + by rewrite <-!app_assoc.
  - intros [Hx Hy] Hb. eapply has_instrs_eq.
    + push_ops. apply IHy; [done|]. push_ops. by apply IHx.
    + by rewrite <-!app_assoc.
Qed.

Lemma idx_size e : idx_within (2 ^ 39) e → instrs_size (idx_instrs e) = idx_script_size e.
Proof.
  induction e; cbn [idx_within idx_instrs idx_script_size]; autorewrite with isize;
    [intros; by rewrite num_instr_size, Nat.add_0_r|done|..];
    intros [Hx Hy]; autorewrite with isize; rewrite IHe1, IHe2 by done; cbn; lia.
Qed.
End script.

Lemma idx_instrs_nonempty e : idx_instrs e ≠ [].
Proof. destruct e; cbn; try done; repeat apply app_ne_r; done. Qed.

(** ** The parser *)

Lemma idx_from_tokens_mono n m ts r :
  n ≤ m → idx_from_tokens n ts = Some r → idx_from_tokens m ts = Some r.
Proof.
  revert m ts r. induction n as [|n IH]; intros m ts r Hm; [done|].
  destruct m as [|m]; [lia|]. cbn [idx_from_tokens].
  assert (∀ ts r, idx_from_tokens n ts = Some r → idx_from_tokens m ts = Some r) as IH'
    by (intros; apply IH; [lia|done]). clear IH.
  repeat (match goal with |- context [match ?x with _ => _ end] => destruct x; try done end);
    intros ([y ts'] & Hy & Hr)%bind_Some; rewrite (IH' _ _ Hy); cbn;
    repeat (match type of Hr with context [match ?x with _ => _ end] =>
      match type of x with Token => destruct x; try done | list Token => destruct x; try done end end);
    apply bind_Some in Hr as ([x ts''] & Hx & Hr); by rewrite (IH' _ _ Hx).
Qed.

Lemma idx_tokens_length e : 1 ≤ length (idx_tokens e).
Proof. destruct e; cbn; rewrite ?length_app; cbn; lia. Qed.

Lemma idx_from_tokens_complete e ts fuel :
  length (idx_tokens e) ≤ fuel → idx_from_tokens fuel (rev (idx_tokens e) ++ ts) = Some (e, ts).
Proof.
  revert ts fuel. induction e as [i| |x IHx y IHy|x IHx y IHy|x IHx y IHy|x IHx y IHy];
    intros ts [|fuel]; cbn [idx_tokens length]; rewrite ?length_app; cbn [length]; try lia;
    intros Hf; try done; rewrite !rev_app_distr; cbn [rev app];
    rewrite <-!app_assoc; cbn [app idx_from_tokens]; rewrite IHy by lia; cbn [mbind option_bind];
    by rewrite IHx by lia.
Qed.

Lemma idx_from_tokens_sound fuel ts e ts' :
  idx_from_tokens fuel ts = Some (e, ts') → ts = rev (idx_tokens e) ++ ts'.
Proof.
  revert ts e ts'. induction fuel as [|fuel IH]; intros ts e ts'; [done|]. cbn [idx_from_tokens].
  repeat (match goal with |- context [match ?x with _ => _ end] => destruct x; try done end);
    try (intros [= <- <-]; done);
    intros ([y ts1] & Hy & Hr)%bind_Some; apply IH in Hy as ->;
    repeat (match type of Hr with context [match ?x with _ => _ end] =>
      match type of x with Token => destruct x; try done | list Token => destruct x; try done end end);
    apply bind_Some in Hr as ([x ts2] & Hx & Hr); apply IH in Hx as ->; injection Hr as <- <-;
    cbn [idx_tokens]; rewrite !rev_app_distr; cbn [rev app]; by rewrite <-!app_assoc.
Qed.

(** The parser reads back the tokens of an expression, and nothing but those. *)
Lemma idx_parse_complete e ts : idx_parse (rev (idx_tokens e) ++ ts) = Some (e, ts).
Proof. apply idx_from_tokens_complete. rewrite length_app, length_rev. lia. Qed.

Lemma idx_parse_sound ts e ts' : idx_parse ts = Some (e, ts') → ts = rev (idx_tokens e) ++ ts'.
Proof. apply idx_from_tokens_sound. Qed.

(** More fuel than [idx_parse] takes finds nothing more. *)
Lemma idx_from_tokens_fuel fuel ts :
  length ts ≤ fuel → idx_from_tokens fuel ts = idx_parse ts.
Proof.
  intros Hf. destruct (idx_from_tokens fuel ts) as [[e ts']|] eqn:Hp.
  - pose proof (idx_from_tokens_sound _ _ _ _ Hp) as ->. by rewrite idx_parse_complete.
  - destruct (idx_parse ts) as [[e ts']|] eqn:Hp'; [|done].
    rewrite <-Hp. by eapply idx_from_tokens_mono.
Qed.

(** ** Scripts and tokens *)

Section lex.
Context `{ScriptBuilder} `{!ScriptBuilderOk}.

(** The instructions are lexed to the tokens after any token but a [PICK], and do not
    end in one. *)
Definition lexes (l : list Instruction) (ts : list Token) : Prop :=
  ∀ ret, no_pick ret → lex_all l ret = Ok (rev ts ++ ret) ∧ no_pick (rev ts ++ ret).

Lemma lexes_app l1 l2 ts1 ts2 : lexes l1 ts1 → lexes l2 ts2 → lexes (l1 ++ l2) (ts1 ++ ts2).
Proof.
  intros Hl1 Hl2 ret Hr. destruct (Hl1 ret Hr) as [He1 Hr1]. destruct (Hl2 _ Hr1) as [He2 Hr2].
  unfold lex_all in *. rewrite fmap_app, try_fold_app, He1. cbn [result_bind].
  by rewrite He2, rev_app_distr, <-app_assoc.
Qed.

Lemma lexes_cons i ts1 l ts2 : lexes [i] ts1 → lexes l ts2 → lexes (i :: l) (ts1 ++ ts2).
Proof. apply (lexes_app [i]). Qed.

Lemma lexes_one i t :
  (∀ ret, no_pick ret → lex_instr ret (Ok i) = Ok (t :: ret)) → t ≠ TkPick → lexes [i] [t].
Proof.
  intros Hl Ht ret Hr. unfold lex_all. cbn [fmap list_fmap try_fold]. rewrite (Hl ret Hr).
  split; [done|].
  by intros [= ->].
Qed.

(** Opcodes that the lexer does not treat specially. *)
Lemma lexes_op op ts :
  op_tokens op = Some ts → no_pick (rev ts) → ts ≠ [] → lexes [Op op] ts.
Proof.
  intros Hop Hl Hne ret Hr. unfold lex_all. cbn [fmap list_fmap try_fold lex_instr map_err result_bind].
  assert (lex_op op ret = Ok (rev ts ++ ret)) as ->.
  { unfold lex_op. destruct op; try done; by rewrite Hop. }
  split; [done|]. destruct ts as [|t ts _] using rev_ind; [done|]. by rewrite rev_unit in *.
Qed.

Lemma lexes_num n : (n < 2 ^ 31)%N → lexes [num_instr n] [TkNum n].
Proof. intros Hn. apply lexes_one; [|done]. intros ret Hr. by apply lex_num. Qed.

Lemma idx_lexes e : idx_within (2 ^ 31) e → lexes (idx_instrs e) (idx_tokens e).
Proof.
  induction e as [i| |x IHx y IHy|x IHx y IHy|x IHx y IHy|x IHx y IHy]; cbn [idx_within].
  - apply lexes_num.
  - intros _. by apply lexes_op.
  - intros [Hx Hy]. repeat (apply lexes_app; [by auto|]). by apply lexes_op.
  - intros [Hx Hy]. repeat (apply lexes_app; [by auto|]). by apply lexes_op.
  - intros [Hx Hy]. cbn [idx_instrs idx_tokens]. apply lexes_app; [auto|].
    apply lexes_app; [by apply lexes_op|]. apply lexes_app; [auto|].
    apply (lexes_cons _ [_]); [by apply lexes_op|]. apply (lexes_cons _ [_]); [by apply lexes_op|].
    apply (lexes_cons _ [_]); [by apply lexes_num|]. apply (lexes_cons _ [_; _]); by apply lexes_op.
  - intros [Hx Hy]. cbn [idx_instrs idx_tokens]. apply lexes_app; [auto|].
    apply lexes_app; [by apply lexes_op|]. apply lexes_app; [auto|].
    apply (lexes_cons _ [_]); [by apply lexes_op|]. apply (lexes_cons _ [_]); [by apply lexes_op|].
    apply (lexes_cons _ [_]); [by apply lexes_num|]. apply (lexes_cons _ [_; _]); [by apply lexes_op|].
    apply (lexes_cons _ [_]); by apply lexes_op.
Qed.
End lex.

(** ** Values *)

(** Indices that fit a [usize] have a value, or the evaluation panics; it has no errors of
    its own. *)
Lemma idx_eval_no_err `{OverflowChecks} `{Transactions} e env :
  ∀ err, idx_eval e env ≠ Err err.
Proof.
  induction e; cbn; try done; intros err He; revert He;
    destruct (idx_eval e1 env) as [a|?|]; cbn; try done; try (by intros [= ->]; eapply IHe1);
    destruct (idx_eval e2 env) as [b|?|]; cbn; try done; try (by intros [= ->]; eapply IHe2);
    unfold usize_add, usize_sub, usize_mul, usize_div; by repeat case_match.
Qed.

Lemma idx_eval_bound `{OverflowChecks} `{Transactions} e env v :
  idx_within (2 ^ 64) e → (env_idx env < 2 ^ 64)%N → idx_eval e env = Ok v → (v < 2 ^ 64)%N.
Proof.
  intros Hw Henv. revert v. induction e as [i| |x IHx y IHy|x IHx y IHy|x IHx y IHy|x IHx y IHy];
    cbn [idx_within idx_eval] in *; intros v; [by intros [= <-]|by intros [= <-]|..];
    destruct Hw as [Hx Hy]; intros (a & Ha & (b & Hb & Hv)%bind_Ok)%bind_Ok;
    specialize (IHx Hx a Ha); specialize (IHy Hy b Hb);
    unfold usize_add, usize_sub, usize_mul, usize_div in Hv;
    repeat match type of Hv with
    | context [(?p <? ?q)%N] => destruct (N.ltb_spec p q)
    | context [(?p <=? ?q)%N] => destruct (N.leb_spec p q)
    | context [(?p =? ?q)%N] => destruct (N.eqb_spec p q)
    | context [overflow_checks] => destruct overflow_checks
    end; simplify_eq; try lia; try (by apply N.mod_lt).
  eapply N.le_lt_trans; [apply N.Div0.div_le_upper_bound|exact IHx]. nia.
Qed.
