(* ===== verification/Arith.v ===== *)
(** * Arithmetic on amounts

    [src/src/extensions/arith.rs]: expressions over the explicit amounts of a
    transaction, their comparison as a fragment of type B, evaluation and satisfaction,
    the script and its parser.  An [i64] is a [Z] between [i64_MIN] and [i64_MAX], a
    [u64] an [N].  [CovExtArgs] is the parameter of [src/src/extensions/param.rs]. *)

From S2P Require Import Prelude Types Extension Property Ast Tokens Context ScriptNum Script Lex Interp Satisfy IndexOps.
From S2P Require ExtraProps.
From stdpp Require Import strings.

(** ** Parameters of extensions *)

Inductive SpkInner : Type :=
  | SpkScript (s : bytes)
  | SpkHashed (h : hash_n 32).

Inductive CovExtArgs `{Signatures} : Type :=
  | XOnlyKeyArg (k : XOnlyPublicKey)
  | CsfsMsgArg (msg : bytes)
  | AssetArg (a : Asset)
  | ValueArg (v : Value)
  | ScriptArg (s : SpkInner).

(** ** Integers *)

(** [u64::to_le_bytes]; [u64::from_le_bytes] is [le_value]. *)
Definition u64_to_le_bytes (n : N) : bytes :=
  map (λ i, byte_of_N (N.shiftr n (8 * N.of_nat i))) (seq 0 8).

(** [as u64] and back *)
Definition as_u64 (z : Z) : N := Z.to_N (z mod 2 ^ 64).

Definition i64_to_le_bytes (z : Z) : bytes := u64_to_le_bytes (as_u64 z).
Definition i64_from_le_bytes (b : bytes) : Z := as_i64 (le_value b).

Definition in_i64 (z : Z) : bool := (i64_MIN <=? z)%Z && (z <=? i64_MAX)%Z.
Definition checked (z : Z) : option Z := if in_i64 z then Some z else None.

(** [i64::checked_div_euclid] and [i64::checked_rem_euclid]: the remainder is at least
    zero; [None] on a zero divisor and on the quotient that overflows. *)
Definition div_euclid (x y : Z) : Z := if (0 <? y)%Z then (x / y)%Z else (- (x / - y))%Z.
Definition checked_div_euclid (x y : Z) : option Z :=
  if (y =? 0)%Z then None else checked (div_euclid x y).
Definition checked_rem_euclid (x y : Z) : option Z :=
  if (y =? 0)%Z then None else
  if (x =? i64_MIN)%Z && (y =? -1)%Z then None else Some (x mod Z.abs y)%Z.

(** ** Expressions *)

Inductive ExprInner (T : Type) : Type :=
  | EConst (c : Z)
  | CurrInputIdx
  | EInput (i : IdxExpr)
  | EOutput (i : IdxExpr)
  | EInputIssue (i : IdxExpr)
  | EInputReIssue (i : IdxExpr)
  | EAdd (x y : Expr T)
  | ESub (x y : Expr T)
  | EMul (x y : Expr T)
  | EDiv (x y : Expr T)
  | EMod (x y : Expr T)
  | EBitAnd (x y : Expr T)
  | EBitOr (x y : Expr T)
  | EXor (x y : Expr T)
  | EInvert (x : Expr T)
  | ENegate (x : Expr T)
  | EPriceOracle1 (pk : T) (t : N)
  | EPriceOracle1W (pk : T) (t : N)
with Expr (T : Type) : Type :=
  | MkExpr (inner : ExprInner T) (script_size depth : nat).
Arguments EConst {T} c.
Arguments CurrInputIdx {T}.
Arguments EInput {T} i.
Arguments EOutput {T} i.
Arguments EInputIssue {T} i.
Arguments EInputReIssue {T} i.
Arguments EAdd {T} x y.
Arguments ESub {T} x y.
Arguments EMul {T} x y.
Arguments EDiv {T} x y.
Arguments EMod {T} x y.
Arguments EBitAnd {T} x y.
Arguments EBitOr {T} x y.
Arguments EXor {T} x y.
Arguments EInvert {T} x.
Arguments ENegate {T} x.
Arguments EPriceOracle1 {T} pk t.
Arguments EPriceOracle1W {T} pk t.
Arguments MkExpr {T} inner script_size depth.

Section expr.
Context {T : Type}.
Implicit Types (x y : Expr T) (e : ExprInner T).

Definition as_inner x : ExprInner T := let 'MkExpr e _ _ := x in e.
Definition expr_script_size x : nat := let 'MkExpr _ s _ := x in s.
Definition expr_depth x : nat := let 'MkExpr _ _ d := x in d.

(** [Expr::from_inner]: the cached size and depth. *)
Definition from_inner (e : ExprInner T) : Expr T :=
  let binary x y size := (expr_script_size x + expr_script_size y + size, expr_depth x `max` expr_depth y) in
  let '(script_size, depth) :=
    match e with
    | EConst _ => (8 + 1, 0)
    | CurrInputIdx => (4, 0)
    | EInput i => (idx_script_size i + 3, 0)
    | EOutput i => (idx_script_size i + 3, 0)
    | EInputIssue i => (idx_script_size i + 7, 0)
    | EInputReIssue i => (idx_script_size i + 7, 0)
    | EAdd x y | ESub x y | EMul x y => binary x y 3
    | EDiv x y | EMod x y => binary x y 4
    | EBitAnd x y | EBitOr x y | EXor x y => binary x y 1
    | EInvert x => (expr_script_size x + 1, expr_depth x + 1)
    | ENegate x => (expr_script_size x + 3, expr_depth x + 1)
    | EPriceOracle1 _ _ => (32 + 1 + (8 + 1) + 8, 0)
    | EPriceOracle1W _ _ => (32 + 1 + (8 + 1) + 11, 0)
    end in
  MkExpr e script_size depth.

(** *** [ExprIter]: the leaves, with a stack of expressions still to visit

    The last element of the vector comes first.  [expr_nodes] of the stack is enough
    fuel ([ExprIter_next_spec]). *)
Fixpoint ExprIter_next (fuel : nat) (stack : list (ExprInner T)) : option (ExprInner T) * list (ExprInner T) :=
  match fuel with
  | 0 => (None, stack)
  | S fuel =>
      match stack with
      | [] => (None, [])
      | expr :: stack =>
          match expr with
          | EAdd a b | ESub a b | EMul a b | EDiv a b | EMod a b
          | EBitAnd a b | EBitOr a b | EXor a b =>
              ExprIter_next fuel (as_inner a :: as_inner b :: stack)
          | EInvert a | ENegate a => ExprIter_next fuel (as_inner a :: stack)
          | _ => (Some expr, stack)
          end
      end
  end.

Fixpoint expr_nodes (x : Expr T) : nat :=
  let 'MkExpr e _ _ := x in
  match e with
  | EAdd a b | ESub a b | EMul a b | EDiv a b | EMod a b
  | EBitAnd a b | EBitOr a b | EXor a b => S (expr_nodes a + expr_nodes b)
  | EInvert a | ENegate a => S (expr_nodes a)
  | _ => 1
  end.
Definition inner_nodes (e : ExprInner T) : nat := expr_nodes (MkExpr e 0 0).
Definition stack_nodes (stack : list (ExprInner T)) : nat := sum_list (map inner_nodes stack).

(** [Iterator::any] on the leaves that are left. *)
Fixpoint iter_any (fuel : nat) (p : ExprInner T → bool) (stack : list (ExprInner T)) : bool :=
  match fuel with
  | 0 => false
  | S fuel' =>
      match ExprIter_next (S (stack_nodes stack)) stack with
      | (None, _) => false
      | (Some e, stack) => p e || iter_any fuel' p stack
      end
  end.

Definition is_oracle e : bool := match e with EPriceOracle1 _ _ => true | _ => false end.
Definition is_oracle_w e : bool := match e with EPriceOracle1W _ _ => true | _ => false end.

(** ** Comparisons *)

Inductive ArithInner : Type :=
  | AEq (x y : Expr T)
  | ALt (x y : Expr T)
  | ALeq (x y : Expr T)
  | AGt (x y : Expr T)
  | AGeq (x y : Expr T).

(** Only [Arith::new] makes one. *)
Record Arith : Type := MkArith { arith_expr : ArithInner }.

Inductive TypeError : Type := PriceOracle1WFirst | PriceOracle1Missing.

Definition arith_sides (a : ArithInner) : Expr T * Expr T :=
  match a with AEq x y | ALt x y | ALeq x y | AGt x y | AGeq x y => (x, y) end.

(** [Arith::new]: the price of an oracle leaves the altstack as it found it only when
    nothing was pushed before it ([price_oracle1]), else it is kept below
    ([price_oracle1_w]). *)
Definition Arith_new (expr : ArithInner) : result TypeError Arith :=
  let '(a, b) := arith_sides expr in
  let fuel := S (stack_nodes [as_inner a]) in
  let '(first, iter) := ExprIter_next fuel [as_inner a] in
  if match first with Some e => is_oracle_w e | None => false end then Err PriceOracle1WFirst
  else if iter_any fuel is_oracle iter then Err PriceOracle1Missing
  else if iter_any (S (stack_nodes [as_inner b])) is_oracle [as_inner b] then Err PriceOracle1Missing
  else Ok (MkArith expr).

Definition arith_depth (self : Arith) : nat :=
  let '(x, y) := arith_sides (arith_expr self) in expr_depth x `max` expr_depth y.
Definition arith_script_size (self : Arith) : nat :=
  let '(x, y) := arith_sides (arith_expr self) in expr_script_size x + expr_script_size y + 1.
End expr.
Arguments ArithInner T : clear implicits.
Arguments Arith T : clear implicits.

(** [impl Extension for Arith] *)
#[export] Instance Arith_Extension (T : Type) : Extension (Arith T) := {|
  corr_prop _ := MkCorr B Zero false true;
  mall_prop _ := MkMall DNone false true;
  extra_prop self := {|
    pk_cost := arith_script_size self;
    has_free_verify := false;
    ops := MkOps 0 (Some 0) (Some 0);
    stack_elem_count_sat := Some 0;
    stack_elem_count_dissat := Some 0;
    max_sat_size := Some (0, 0);
    max_dissat_size := Some (0, 0);
    timelock_info := TimelockInfo_default;
    exec_stack_elem_count_sat := Some (arith_depth self);
    exec_stack_elem_count_dissat := Some (arith_depth self);
  |};
  ext_script_size := arith_script_size;
  segwit_ctx_checks _ := Err (ExtensionError "Arith opcodes only available in Taproot");
  tap_ctx_checks _ := Ok tt;
|}.

(** ** Evaluation *)

(** Computations on the witness stack that can fail. *)
Definition eval_m `{Signatures} (A : Type) : Type := Stack → Stack * result EvalError A.

Definition m_ret `{Signatures} {A} (a : A) : eval_m A := λ s, (s, Ok a).
Definition m_lift `{Signatures} {A} (r : result EvalError A) : eval_m A := λ s, (s, r).
Definition m_bind `{Signatures} {A B} (x : eval_m A) (f : A → eval_m B) : eval_m B := λ s,
  match x s with
  | (s, Ok a) => f a s
  | (s, Err e) => (s, Err e)
  | (s, Panic) => (s, Panic)
  end.
Notation "'let!' x ':=' m 'in' k" := (m_bind m (λ x, k))
  (at level 10, x pattern, m at level 100, k at level 200) : ms_scope.

Section cov.
Context `{Signatures} `{OverflowChecks}.
Notation CovExpr := (Expr CovExtArgs).
Implicit Types (env : TxEnv).

(** [check_sig_price_oracle_1] of [src/src/extensions/mod.rs] *)
Definition check_sig_price_oracle_1 (sig : SchnorrSignature) (pk : XOnlyPublicKey)
    (timestamp price : N) : bool :=
  verify_schnorr sig (sha256_hash (u64_to_le_bytes timestamp ++ u64_to_le_bytes price)) pk.

Definition u64_from_le_bytes {E} (err : E) (b : bytes) : result E N :=
  if length b =? 8 then Ok (le_value b) else Err err.

(** [Stack::pop], with [ok_or]. *)
Definition m_pop (err : EvalError) : eval_m Element := λ s,
  match s with [] => ([], Err err) | x :: s => (s, Ok x) end.
(** [try_push], its error replaced. *)
Definition m_push (err : EvalError) (x : Element) : eval_m bytes :=
  m_lift (map_err (λ _, err) (try_push x)).

Definition eval_price_oracle (pk : CovExtArgs) (timestamp : N) : eval_m Z :=
  let! x_only_pk := match pk with XOnlyKeyArg pk => m_ret pk | _ => m_lift Panic end in
  let! price := m_pop MissingPrice in
  let! price := m_push Price8BytePush price in
  let! price_u64 := m_lift (u64_from_le_bytes Price8BytePush price) in
  let! time_signed := m_pop MissingTimestamp in
  let! time_signed := m_push Timstamp8BytePush time_signed in
  let! time_signed_u64 := m_lift (u64_from_le_bytes Timstamp8BytePush time_signed) in
  let! sig := m_pop MissingOracleSignature in
  let! schnorr_sig_sl := m_push MalformedSig sig in
  let! schnorr_sig := m_lift (ok_or MalformedSig (schnorr_signature_from_slice schnorr_sig_sl)) in
  if (timestamp <? time_signed_u64)%N then m_lift (Err TimestampInFuture)
  else if check_sig_price_oracle_1 schnorr_sig x_only_pk timestamp price_u64 then
    m_lift (ok_or PriceOverflow (checked (Z.of_N price_u64)))
  else m_lift (Err InvalidSignature).

(** The explicit amount [amount] finds in the entry [i] of a list; the index is in
    bounds after the test. *)
Definition explicit_at {A} (l : list A) (amount : A → Value) (oob : N → N → EvalError)
    (non_explicit : N → EvalError) (i : N) : result EvalError Z :=
  if (N.of_nat (length l) <=? i)%N then Err (oob i (N.of_nat (length l)))
  else
    let? entry := unwrap (l !! N.to_nat i) in
    ok_or (non_explicit i) (as_i64 <$> explicit (amount entry)).

(** The arms of [Expr::eval] that read the transaction. *)
Definition eval_leaf env (e : ExprInner CovExtArgs) : result EvalError Z :=
  match e with
  | EConst c => Ok c
  | CurrInputIdx => explicit_at (spent_utxos env) txout_value UtxoIndexOutOfBounds NonExplicitInput (env_idx env)
  | EInput i =>
      let? i := idx_eval i env in
      explicit_at (spent_utxos env) txout_value UtxoIndexOutOfBounds NonExplicitInput i
  | EOutput i =>
      let? i := idx_eval i env in
      explicit_at (tx_output (env_tx env)) txout_value OutputIndexOutOfBounds NonExplicitOutput i
  | EInputIssue i =>
      let? i := idx_eval i env in
      explicit_at (tx_input (env_tx env)) issuance_amount InputIndexOutOfBounds NonExplicitInputIssuance i
  | EInputReIssue i =>
      let? i := idx_eval i env in
      explicit_at (tx_input (env_tx env)) issuance_inflation_keys InputIndexOutOfBounds
        NonExplicitInputReIssuance i
  | _ => Panic
  end.

(** The arms of [Expr::eval] with two operands, on their values. *)
Definition eval_binary (e : ExprInner CovExtArgs) (x y : Z) : result EvalError Z :=
  match e with
  | EAdd _ _ => ok_or (AddOverflow x y) (checked (x + y))
  | ESub _ _ => ok_or (SubOverflow x y) (checked (x - y))
  | EMul _ _ => ok_or (MulOverflow x y) (checked (x * y))
  | EDiv _ _ => ok_or (DivOverflow x y) (checked_div_euclid x y)
  | EMod _ _ => ok_or (ModOverflow x y) (checked_rem_euclid x y)
  | EBitAnd _ _ => Ok (Z.land x y)
  | EBitOr _ _ => Ok (Z.lor x y)
  | EXor _ _ => Ok (Z.lxor x y)
  | _ => Panic
  end.

(** [Expr::eval] *)
Fixpoint expr_eval env (self : CovExpr) : eval_m Z :=
  let 'MkExpr e _ _ := self in
  match e with
  | EAdd x y | ESub x y | EMul x y | EDiv x y | EMod x y | EBitAnd x y | EBitOr x y | EXor x y =>
      let! x := expr_eval env x in
      let! y := expr_eval env y in
      m_lift (eval_binary e x y)
  | EInvert x => let! x := expr_eval env x in m_ret (Z.lnot x)
  | ENegate x => let! x := expr_eval env x in m_lift (ok_or (NegOverflow x) (checked (- x)))
  | EPriceOracle1 pk timestamp | EPriceOracle1W pk timestamp => eval_price_oracle pk timestamp
  | _ => m_lift (eval_leaf env e)
  end.

(** The comparisons of [Arith::eval]. *)
Definition arith_cmp (a : ArithInner CovExtArgs) (x y : Z) : bool :=
  match a with
  | AEq _ _ => (x =? y)%Z
  | ALt _ _ => (x <? y)%Z
  | ALeq _ _ => (x <=? y)%Z
  | AGt _ _ => (y <? x)%Z
  | AGeq _ _ => (y <=? x)%Z
  end.

(** [Arith::eval] *)
Definition arith_eval env (self : Arith CovExtArgs) : eval_m bool :=
  let '(x, y) := arith_sides (arith_expr self) in
  let! x := expr_eval env x in
  let! y := expr_eval env y in
  m_ret (arith_cmp (arith_expr self) x y).

(** [ParseableExt::evaluate] *)
Definition arith_evaluate (self : Arith CovExtArgs) (stack : Stack) (txenv : option TxEnv)
    : Stack * result InterpError bool :=
  match txenv with
  | None => (stack, Err (ArithError TxEnvNotPresent))
  | Some txenv =>
      match arith_eval txenv self stack with
      | (stack, Ok true) => (Satisfied :: stack, Ok true)
      | (stack, Ok false) => (Dissatisfied :: stack, Ok false)
      | (stack, Err e) => (stack, Err (ArithError e))
      | (stack, Panic) => (stack, Panic)
      end
  end.

#[global] Instance Arith_EvalExt : EvalExt (Arith CovExtArgs) := {|
  ext_evaluate := arith_evaluate;
|}.

(** ** Satisfaction *)

Section satisfy.
Context {Pk : Type} `{MiniscriptKey Pk} `{!ScriptBuilder} `{!LeafHashes}.
Implicit Types s : Satisfier Pk.

Definition satisfy_price_oracle s (pk : CovExtArgs) (time : N) : result EvalError (Z * Satisfaction) :=
  let? pk := match pk with XOnlyKeyArg pk => Ok pk | _ => Panic end in
  match lookup_price_oracle_sig s pk time with
  | Some (sig, price, time) =>
      let wit := WStack [schnorr_as_ref sig; u64_to_le_bytes time; i64_to_le_bytes price] in
      Ok (price, MkSatisfaction wit false)
  | None => Err MissingOracleSignature
  end.

(** The arms of [Expr::satisfy] that read the transaction. *)
Definition satisfy_leaf env (e : ExprInner CovExtArgs) : result EvalError (Z * Satisfaction) :=
  match e with
  | EConst c => Ok (c, sat_empty)
  | CurrInputIdx =>
      let? res := explicit_at (spent_utxos env) txout_value UtxoIndexOutOfBounds NonExplicitInput
                    (env_idx env) in
      Ok (res, sat_empty)
  | EInput i =>
      let? i := idx_eval i env in
      let? res := explicit_at (spent_utxos env) txout_value UtxoIndexOutOfBounds NonExplicitInput i in
      Ok (res, sat_empty)
  | EOutput i =>
      let? i := idx_eval i env in
      let? res := explicit_at (tx_output (env_tx env)) txout_value OutputIndexOutOfBounds
                    NonExplicitOutput i in
      Ok (res, sat_empty)
  | EInputIssue i =>
      let? i := idx_eval i env in
      let? res := explicit_at (tx_input (env_tx env)) issuance_amount InputIndexOutOfBounds
                    NonExplicitInputIssuance i in
      Ok (res, sat_empty)
  | EInputReIssue i =>
      let? i := idx_eval i env in
      let? res := explicit_at (tx_input (env_tx env)) issuance_inflation_keys InputIndexOutOfBounds
                    NonExplicitInputReIssuance i in
      Ok (res, sat_empty)
  | _ => Panic
  end.

(** The arms of [Expr::satisfy] with two operands, on their values. *)
Definition satisfy_binary (e : ExprInner CovExtArgs) (x y : Z) : result EvalError Z :=
  match e with
  | EAdd _ _ => ok_or (AddOverflow x y) (checked (x + y))
  | ESub _ _ => ok_or (SubOverflow x y) (checked (x - y))
  | EMul _ _ => ok_or (MulOverflow x y) (checked (x * y))
  | EDiv _ _ => ok_or (DivOverflow x y) (checked_div_euclid x y)
  | EMod _ _ => ok_or (ModOverflow x y) (checked_rem_euclid x y)
  | EBitAnd _ _ => Ok (Z.land x y)
  | EBitOr _ _ => Ok (Z.lor x y)
  | EXor _ _ => Ok (Z.lxor x y)
  | _ => Panic
  end.

(** [Expr::satisfy] *)
Fixpoint expr_satisfy env s (self : CovExpr) : result EvalError (Z * Satisfaction) :=
  let 'MkExpr e _ _ := self in
  match e with
  | EAdd x y | ESub x y | EMul x y | EDiv x y | EMod x y | EBitAnd x y | EBitOr x y | EXor x y =>
      let? (x, sat_x) := expr_satisfy env s x in
      let? (y, sat_y) := expr_satisfy env s y in
      let? res := satisfy_binary e x y in
      Ok (res, sat_combine sat_y sat_x)
  | EInvert x => let? (x, sat_x) := expr_satisfy env s x in Ok (Z.lnot x, sat_x)
  | ENegate x =>
      let? (x, sat_x) := expr_satisfy env s x in
      let? res := ok_or (NegOverflow x) (checked (- x)) in
      Ok (res, sat_x)
  | EPriceOracle1 pk time | EPriceOracle1W pk time => satisfy_price_oracle s pk time
  | _ => satisfy_leaf env e
  end.

(** The comparisons of [Arith::satisfy_helper]. *)
Definition satisfy_cmp (a : ArithInner CovExtArgs) (x y : Z) : bool :=
  match a with
  | AEq _ _ => (x =? y)%Z
  | ALt _ _ => (x <? y)%Z
  | ALeq _ _ => (x <=? y)%Z
  | AGt _ _ => (y <? x)%Z
  | AGeq _ _ => (y <=? x)%Z
  end.

(** [Arith::satisfy_helper] *)
Definition arith_satisfy_helper env s (self : Arith CovExtArgs) : result EvalError Satisfaction :=
  let '(a, b) := arith_sides (arith_expr self) in
  let? (a, sat_a) := expr_satisfy env s a in
  let? (b, sat_b) := expr_satisfy env s b in
  if satisfy_cmp (arith_expr self) a b then Ok (sat_combine sat_b sat_a) else Ok sat_impossible.

(** The transaction a satisfier knows of. *)
Definition satisfier_env s : option TxEnv :=
  match lookup_tx s, lookup_spent_utxos s, lookup_curr_inp s with
  | Some tx, Some utxos, Some curr_idx => TxEnv_new tx utxos curr_idx
  | _, _, _ => None
  end.

(** [ParseableExt::satisfy]: an error of the evaluation gives the empty witness. *)
Definition arith_satisfy (self : Arith CovExtArgs) s : result Error Satisfaction :=
  match satisfier_env s with
  | None => Ok sat_impossible
  | Some env =>
      match arith_satisfy_helper env s self with
      | Ok sat => Ok sat
      | Err _ => Ok sat_empty
      | Panic => Panic
      end
  end.
End satisfy.

#[global] Instance Arith_SatisfyExt `{!ScriptBuilder} `{!LeafHashes} : SatisfyExt (Arith CovExtArgs) := {|
  ext_satisfy _ _ self s := arith_satisfy self s;
  ext_dissatisfy _ _ _ _ := Ok sat_impossible;
|}.

(** ** The script *)

Section script.
Context `{!ScriptBuilder}.

(** [.push_int(1).push_opcode(OP_EQUALVERIFY)], after an operation that reports success. *)
Definition push_success (b : Builder) : Builder := push_opcode (push_int b 1) OP_EQUALVERIFY.

Definition push_opcodes (b : Builder) (ops : list opcode) : Builder := fold_left push_opcode ops b.

(** What follows the timestamp in both price oracles, up to the first [OP_FROMALTSTACK]. *)
Definition push_oracle_check (b : Builder) (t : N) (xpk : XOnlyPublicKey) : Builder :=
  let b := push_slice b (u64_to_le_bytes t) in
  let b := push_opcodes b [OP_GREATERTHANOREQUAL64; OP_VERIFY; OP_CAT; OP_SHA256] in
  push_opcodes (push_slice b (xonly_serialize xpk)) [OP_CHECKSIGFROMSTACKVERIFY; OP_FROMALTSTACK].

(** The opcodes after the operands, and the pushes of a leaf. *)
Definition push_operation (e : ExprInner CovExtArgs) (b : Builder) : result Error Builder :=
  match e with
  | EConst c => Ok (push_slice b (i64_to_le_bytes c))
  | CurrInputIdx => Ok (push_success (push_opcodes b [OP_PUSHCURRENTINPUTINDEX; OP_INSPECTINPUTVALUE]))
  | EInput i => Ok (push_success (push_opcode (idx_push_to_builder i b) OP_INSPECTINPUTVALUE))
  | EOutput i => Ok (push_success (push_opcode (idx_push_to_builder i b) OP_INSPECTOUTPUTVALUE))
  | EInputIssue i =>
      let b := push_opcodes (idx_push_to_builder i b) [OP_INSPECTINPUTISSUANCE; OP_DROP; OP_DROP] in
      Ok (push_opcodes (push_success b) [OP_NIP; OP_NIP])
  | EInputReIssue i =>
      Ok (push_success (push_opcodes (idx_push_to_builder i b)
        [OP_INSPECTINPUTISSUANCE; OP_DROP; OP_DROP; OP_DROP; OP_DROP]))
  | EAdd _ _ => Ok (push_success (push_opcode b OP_ADD64))
  | ESub _ _ => Ok (push_success (push_opcode b OP_SUB64))
  | EMul _ _ => Ok (push_success (push_opcode b OP_MUL64))
  | EDiv _ _ => Ok (push_opcode (push_success (push_opcode b OP_DIV64)) OP_NIP)
  | EMod _ _ => Ok (push_opcode (push_success (push_opcode b OP_DIV64)) OP_DROP)
  | EBitAnd _ _ => Ok (push_opcode b OP_AND)
  | EBitOr _ _ => Ok (push_opcode b OP_OR)
  | EXor _ _ => Ok (push_opcode b OP_XOR)
  | EInvert _ => Ok (push_opcode b OP_INVERT)
  | ENegate _ => Ok (push_success (push_opcode b OP_NEG64))
  | EPriceOracle1 pk t =>
      let? xpk := match pk with XOnlyKeyArg xpk => Ok xpk | _ => Panic end in
      Ok (push_oracle_check (push_opcodes b [OP_2DUP; OP_TOALTSTACK]) t xpk)
  | EPriceOracle1W pk t =>
      let? xpk := match pk with XOnlyKeyArg xpk => Ok xpk | _ => Panic end in
      let b := push_oracle_check (push_opcodes b [OP_TOALTSTACK; OP_2DUP; OP_TOALTSTACK]) t xpk in
      Ok (push_opcodes b [OP_FROMALTSTACK; OP_SWAP])
  end.

(** [Expr::push_to_builder]: the operands, then the operation. *)
Fixpoint expr_push_to_builder (self : CovExpr) (b : Builder) : result Error Builder :=
  let 'MkExpr e _ _ := self in
  match e with
  | EAdd x y | ESub x y | EMul x y | EDiv x y | EMod x y | EBitAnd x y | EBitOr x y | EXor x y =>
      let? b := expr_push_to_builder x b in
      let? b := expr_push_to_builder y b in
      push_operation e b
  | EInvert x | ENegate x => let? b := expr_push_to_builder x b in push_operation e b
  | _ => push_operation e b
  end.

Definition cmp_opcode (a : ArithInner CovExtArgs) : opcode :=
  match a with
  | AEq _ _ => OP_EQUAL
  | ALt _ _ => OP_LESSTHAN64
  | ALeq _ _ => OP_LESSTHANOREQUAL64
  | AGt _ _ => OP_GREATERTHAN64
  | AGeq _ _ => OP_GREATERTHANOREQUAL64
  end.

(** [Arith::push_to_builder] *)
Definition arith_push_to_builder (self : Arith CovExtArgs) (b : Builder) : result Error Builder :=
  let '(x, y) := arith_sides (arith_expr self) in
  let? b := expr_push_to_builder x b in
  let? b := expr_push_to_builder y b in
  Ok (push_opcode b (cmp_opcode (arith_expr self))).
End script.

(** ** Parsing

    As for indices, the tokens before [end_pos] from the last to the first.  The arms are
    those of the source and in its order: [arm] is
    [if let Some(&pat) = tks.get(e.checked_sub(n)?..e)], which ends the parser when fewer
    than [n] tokens are left.  The lexer makes a [TkBytes8] of eight bytes only; the source
    copies them to an array of that length, and nothing else is read here. *)
Fixpoint strip (pat ts : list Token) : option (list Token) :=
  match pat, ts with
  | [], _ => Some ts
  | p :: pat, t :: ts => if bool_decide (p = t) then strip pat ts else None
  | _ :: _, [] => None
  end.

Definition arm {A} (pat : list Token) (ts : TokenIter) (body : TokenIter → option A)
    (rest : option A) : option A :=
  if length ts <? length pat then None
  else match strip (rev pat) ts with Some ts => body ts | None => rest end.

Definition bytes8 (b : bytes) : option bytes := if length b =? 8 then Some b else None.

Definition parsed (e : ExprInner CovExtArgs) (ts : TokenIter) : option (CovExpr * TokenIter) :=
  Some (from_inner e, ts).

(** The ten tokens of the first price oracle, but for the time and the key they hold. *)
Definition oracle_tokens (ts : TokenIter) : option (bytes * bytes * TokenIter) :=
  ts ← strip [TkFromAltStack; TkCheckSigFromStackVerify] ts;
  match ts with
  | TkBytes32 xpk :: ts =>
      ts ← strip [TkSha256; TkCat; TkVerify; TkGeq64] ts;
      match ts with
      | TkBytes8 time :: ts => ts ← strip [TkToAltStack; TkDup2] ts; Some (time, xpk, ts)
      | _ => None
      end
  | _ => None
  end.

Definition parsed_oracle (f : CovExtArgs → N → ExprInner CovExtArgs) (time xpk : bytes)
    (ts : TokenIter) : option (CovExpr * TokenIter) :=
  time ← bytes8 time;
  xpk ← XOnly_from_slice xpk;
  parsed (f (XOnlyKeyArg xpk) (le_value time)) ts.

(** The two last arms: the second has two tokens after those of the first, and one
    before. *)
Definition oracle_arms (ts : TokenIter) : option (CovExpr * TokenIter) :=
  if length ts <? 10 then None else
  match oracle_tokens ts with
  | Some (time, xpk, ts) => parsed_oracle EPriceOracle1 time xpk ts
  | None =>
      if length ts <? 13 then None else
      ts ← strip [TkSwap; TkFromAltStack] ts;
      '(time, xpk, ts) ← oracle_tokens ts;
      ts ← strip [TkToAltStack] ts;
      parsed_oracle EPriceOracle1W time xpk ts
  end.

Definition idx_arm (f : IdxExpr → ExprInner CovExtArgs) (ts : TokenIter)
    : option (CovExpr * TokenIter) :=
  '(i, ts) ← idx_parse ts; parsed (f i) ts.

(** The operands of an operation, the last one first. *)
Definition read_unary (read : TokenIter → option (CovExpr * TokenIter))
    (f : CovExpr → ExprInner CovExtArgs) (ts : TokenIter) : option (CovExpr * TokenIter) :=
  '(x, ts) ← read ts; parsed (f x) ts.
Definition read_binary (read : TokenIter → option (CovExpr * TokenIter))
    (f : CovExpr → CovExpr → ExprInner CovExtArgs) (ts : TokenIter)
    : option (CovExpr * TokenIter) :=
  '(y, ts) ← read ts;
  '(x, ts) ← read ts;
  parsed (f x y) ts.

(** The arms that need more than one token. *)
Definition long_arms (read : TokenIter → option (CovExpr * TokenIter)) (ts : TokenIter)
    : option (CovExpr * TokenIter) :=
  let unary := read_unary read in
  let binary := read_binary read in
  arm [TkNeg64; TkNum 1; TkEqual; TkVerify] ts (unary ENegate) (
  arm [TkAdd64; TkNum 1; TkEqual; TkVerify] ts (binary EAdd) (
  arm [TkSub64; TkNum 1; TkEqual; TkVerify] ts (binary ESub) (
  arm [TkMul64; TkNum 1; TkEqual; TkVerify] ts (binary EMul) (
  arm [TkCurrInp; TkInpValue; TkNum 1; TkEqual; TkVerify] ts (parsed CurrInputIdx) (
  arm [TkDiv64; TkNum 1; TkEqual; TkVerify; TkNip] ts (binary EDiv) (
  arm [TkDiv64; TkNum 1; TkEqual; TkVerify; TkDrop] ts (binary EMod) (
  arm [TkInpValue; TkNum 1; TkEqual; TkVerify] ts (idx_arm EInput) (
  arm [TkOutValue; TkNum 1; TkEqual; TkVerify] ts (idx_arm EOutput) (
  arm [TkInpIssue; TkDrop; TkDrop; TkNum 1; TkEqual; TkVerify; TkNip; TkNip] ts
    (idx_arm EInputIssue) (
  arm [TkInpIssue; TkDrop; TkDrop; TkDrop; TkDrop; TkNum 1; TkEqual; TkVerify] ts
    (idx_arm EInputReIssue) (
  oracle_arms ts))))))))))).

(** [Expr::from_tokens]; each call reads a token. *)
Fixpoint expr_from_tokens (fuel : nat) (ts : TokenIter) : option (CovExpr * TokenIter) :=
  match fuel with
  | 0 => None
  | S fuel =>
      let read := expr_from_tokens fuel in
      match ts with
      | [] => None
      | TkBytes8 bytes :: ts => bytes ← bytes8 bytes; parsed (EConst (i64_from_le_bytes bytes)) ts
      | TkInvert :: ts => read_unary read EInvert ts
      | TkAnd :: ts => read_binary read EBitAnd ts
      | TkOr :: ts => read_binary read EBitOr ts
      | TkXor :: ts => read_binary read EXor ts
      | _ => long_arms read ts
      end
  end.
Definition expr_parse (ts : TokenIter) : option (CovExpr * TokenIter) :=
  expr_from_tokens (length ts) ts.

(** [Arith::from_tokens] *)
Definition arith_from_tokens (ts : TokenIter) : option (Arith CovExtArgs * TokenIter) :=
  match ts with
  | [] => None
  | last_opcode :: ts =>
      '(y, ts) ← expr_parse ts;
      '(x, ts) ← expr_parse ts;
      inner ← match last_opcode with
              | TkEqual => Some (AEq x y)
              | TkLe64 => Some (ALt x y)
              | TkLeq64 => Some (ALeq x y)
              | TkGe64 => Some (AGt x y)
              | TkGeq64 => Some (AGeq x y)
              | _ => None
              end;
      match Arith_new inner with Ok a => Some (a, ts) | _ => None end
  end.

#[global] Instance Arith_ParseableExt `{!ScriptBuilder} : ParseableExt (Arith CovExtArgs) := {|
  push_to_builder := arith_push_to_builder;
  from_token_iter ts :=
    match arith_from_tokens ts with Some (a, ts) => (Some a, ts) | None => (None, ts) end;
|}.

(** [impl Satisfier for TxEnv] *)
Definition txenv_satisfier {Pk} `{MiniscriptKey Pk} `{!ScriptBuilder} `{!LeafHashes} env : Satisfier Pk := {|
  lookup_tap_key_spend_sig := None;
  lookup_ecdsa_sig _ := None;
  lookup_tap_leaf_script_sig _ _ := None;
  lookup_raw_pkh_pk _ := None;
  lookup_raw_pkh_x_only_pk _ := None;
  lookup_raw_pkh_ecdsa_sig _ := None;
  lookup_raw_pkh_tap_leaf_script_sig _ := None;
  lookup_sha256 _ := None;
  lookup_hash256 _ := None;
  lookup_ripemd160 _ := None;
  lookup_hash160 _ := None;
  check_older _ := false;
  check_after _ := false;
  lookup_nversion := None;
  lookup_hashprevouts := None;
  lookup_hashsequence := None;
  lookup_hashissuances := None;
  lookup_outpoint := None;
  lookup_scriptcode := None;
  lookup_value := None;
  lookup_nsequence := None;
  lookup_outputs := None;
  lookup_nlocktime := None;
  lookup_sighashu32 := None;
  lookup_tx := Some (env_tx env);
  lookup_spent_utxos := Some (spent_utxos env);
  lookup_curr_inp := Some (env_idx env);
  lookup_csfs_sig _ _ := None;
  lookup_price_oracle_sig _ _ := None;
|}.
End cov.
