(* ===== verification/ArithProps.v ===== *)
(** * Arithmetic fragments: script, parser, values

    The script of an arithmetic fragment ([src/src/extensions/arith.rs]) is that of its
    specification, [Expr::from_tokens] reads back what the lexer makes of it, the values
    of an expression are 64-bit integers, and what [satisfy] finds [evaluate] accepts. *)

From S2P Require Import Prelude Types Extension Property Ast Typing Resources Tokens Context ScriptNum Script Encoding Lex DecodeLoop DecodeSound Lexing Interp Satisfy SatShape SatAccept IndexOps Arith.
From stdpp Require Import strings.

(** ** Integers *)

Lemma le_value_shifts n k m :
  le_value (map (λ i, byte_of_N (N.shiftr n (8 * N.of_nat i))) (seq k m)) =
  ((n / 256 ^ N.of_nat k) mod 256 ^ N.of_nat m)%N.
Proof.
  revert k. induction m as [|m IH]; intros k; cbn [seq map le_value]; [by rewrite N.mod_1_r|].
  rewrite IH, byte_of_N_to_N, N.shiftr_div_pow2, <-pow256.
  rewrite (Nat2N.inj_succ m), (Nat2N.inj_succ k), !N.pow_succ_r'.
  rewrite (N.mul_comm 256 (256 ^ N.of_nat k)), <-N.Div0.div_div.
  set (q := (n / 256 ^ N.of_nat k)%N). by rewrite N.Div0.mod_mul_r.
Qed.

Lemma u64_to_le_bytes_length n : length (u64_to_le_bytes n) = 8.
Proof. done. Qed.

Lemma u64_le_roundtrip n : (n < 2 ^ 64)%N → le_value (u64_to_le_bytes n) = n.
Proof.
  intros Hn. unfold u64_to_le_bytes. rewrite le_value_shifts. rewrite N.div_1_r.
  by apply N.mod_small.
Qed.

Lemma i64_to_le_bytes_length z : length (i64_to_le_bytes z) = 8.
Proof. done. Qed.

Lemma in_i64_spec z : in_i64 z = true ↔ (- 2 ^ 63 ≤ z < 2 ^ 63)%Z.
Proof. unfold in_i64, i64_MIN, i64_MAX. rewrite andb_true_iff, !Z.leb_le. lia. Qed.

Lemma as_i64_as_u64 z : in_i64 z = true → as_i64 (as_u64 z) = z.
Proof.
  rewrite in_i64_spec. intros Hz. unfold as_i64, as_u64.
  destruct (Z.neg_nonneg_cases z) as [Hneg|Hpos].
  - rewrite <-(Z.mod_add z 1), Z.mod_small by lia.
    destruct (N.ltb_spec (Z.to_N (z + 1 * 2 ^ 64)) (2 ^ 63)); lia.
  - rewrite Z.mod_small by lia. destruct (N.ltb_spec (Z.to_N z) (2 ^ 63)); lia.
Qed.

Lemma as_u64_lt z : (as_u64 z < 2 ^ 64)%N.
Proof. unfold as_u64. pose proof (Z.mod_pos_bound z (2 ^ 64)). lia. Qed.

Lemma as_i64_in n : (n < 2 ^ 64)%N → in_i64 (as_i64 n) = true.
Proof. intros Hn. rewrite in_i64_spec. unfold as_i64. destruct (N.ltb_spec n (2 ^ 63)); lia. Qed.

Lemma i64_le_roundtrip z : in_i64 z = true → i64_from_le_bytes (i64_to_le_bytes z) = z.
Proof.
  intros Hz. unfold i64_from_le_bytes, i64_to_le_bytes.
  rewrite u64_le_roundtrip by apply as_u64_lt. by apply as_i64_as_u64.
Qed.

Lemma checked_Some z v : checked z = Some v ↔ v = z ∧ in_i64 z = true.
Proof. unfold checked. case_match; naive_solver. Qed.

(** Bit operations stay in range: beyond bit 63 there are only copies of the sign. *)
Lemma in_i64_shiftr z : in_i64 z = true ↔ Z.shiftr z 63 = 0%Z ∨ Z.shiftr z 63 = (-1)%Z.
Proof.
  rewrite in_i64_spec, Z.shiftr_div_pow2 by done.
  pose proof (Z.div_mod z (2 ^ 63)). pose proof (Z.mod_pos_bound z (2 ^ 63)). lia.
Qed.

Lemma in_i64_bits f x y :
  (∀ a b, Z.shiftr (f a b) 63 = f (Z.shiftr a 63) (Z.shiftr b 63)) →
  (f 0 0 = 0 ∨ f 0 0 = -1)%Z → (f 0 (-1) = 0 ∨ f 0 (-1) = -1)%Z →
  (f (-1) 0 = 0 ∨ f (-1) 0 = -1)%Z → (f (-1) (-1) = 0 ∨ f (-1) (-1) = -1)%Z →
  in_i64 x = true → in_i64 y = true → in_i64 (f x y) = true.
Proof. rewrite !in_i64_shiftr. intros -> ? ? ? ? [-> | ->] [-> | ->]; done. Qed.

Lemma in_i64_lnot x : in_i64 x = true → in_i64 (Z.lnot x) = true.
Proof. rewrite !in_i64_spec. unfold Z.lnot. lia. Qed.

Lemma checked_div_euclid_in x y v : checked_div_euclid x y = Some v → in_i64 v = true.
Proof. unfold checked_div_euclid. case_match; [done|]. rewrite checked_Some. naive_solver. Qed.

Lemma checked_rem_euclid_in x y v :
  in_i64 y = true → checked_rem_euclid x y = Some v → in_i64 v = true.
Proof.
  unfold checked_rem_euclid. destruct (Z.eqb_spec y 0); [done|]. case_match; [done|].
  intros Hy [= <-]. rewrite in_i64_spec in *. pose proof (Z.mod_pos_bound x (Z.abs y)). lia.
Qed.

(** Euclidean division: the remainder is in [0, |y|). *)
Lemma div_euclid_spec x y :
  y ≠ 0%Z → (x = y * div_euclid x y + x mod Z.abs y ∧ 0 ≤ x mod Z.abs y < Z.abs y)%Z.
Proof.
  intros Hy. pose proof (Z.mod_pos_bound x (Z.abs y)). split; [|lia]. unfold div_euclid.
  destruct (Z.ltb_spec 0 y).
  - rewrite Z.abs_eq by lia. by apply Z.div_mod.
  - rewrite Z.abs_neq by lia. pose proof (Z.div_mod x (- y)). lia.
Qed.

(** ** Induction on expressions *)

Section induction.
Context {T : Type}.

Definition operands (e : ExprInner T) : list (Expr T) :=
  match e with
  | EAdd x y | ESub x y | EMul x y | EDiv x y | EMod x y | EBitAnd x y | EBitOr x y | EXor x y => [x; y]
  | EInvert x | ENegate x => [x]
  | _ => []
  end.

Lemma expr_ind' (P : Expr T → Prop) :
  (∀ e s d, Forall P (operands e) → P (MkExpr e s d)) → ∀ x, P x.
Proof.
  intros Hstep. fix IH 1. intros [e s d]. apply Hstep.
  destruct e; cbn [operands]; repeat (constructor; [apply IH|]); constructor.
Qed.

(** A predicate holds of every node. *)
Fixpoint expr_all (P : Expr T → Prop) (x : Expr T) : Prop :=
  let 'MkExpr e _ _ := x in
  P x ∧
  match e with
  | EAdd x y | ESub x y | EMul x y | EDiv x y | EMod x y | EBitAnd x y | EBitOr x y | EXor x y =>
      expr_all P x ∧ expr_all P y
  | EInvert x | ENegate x => expr_all P x
  | _ => True
  end.

Lemma expr_all_inv P x : expr_all P x ↔ P x ∧ Forall (expr_all P) (operands (as_inner x)).
Proof.
  destruct x as [e s d].
  destruct e; cbn [expr_all operands as_inner]; rewrite ?Forall_cons_iff; intuition constructor.
Qed.

Lemma expr_all_impl (P Q : Expr T → Prop) x :
  (∀ y, P y → Q y) → expr_all P x → expr_all Q x.
Proof.
  intros HPQ. revert x. apply (expr_ind' (λ x, expr_all P x → expr_all Q x)). intros e s d IH.
  rewrite !expr_all_inv. cbn [as_inner]. rewrite !list.Forall_forall in *. intuition.
Qed.
End induction.

(** ** Specification: instructions and tokens *)

Section spec.
Context `{Signatures}.
Notation CovExpr := (Expr CovExtArgs).

(** [push_int(1)] and [EQUALVERIFY] *)
Definition success_instrs : list Instruction := [num_instr 1; Op OP_EQUALVERIFY].
Definition success_tokens : list Token := [TkNum 1; TkEqual; TkVerify].

Definition arg_key (pk : CovExtArgs) : bytes :=
  match pk with XOnlyKeyArg k => xonly_serialize k | _ => [] end.

Definition oracle_instrs (pk : CovExtArgs) (t : N) : list Instruction :=
  [Op OP_2DUP; Op OP_TOALTSTACK; PushBytes (u64_to_le_bytes t); Op OP_GREATERTHANOREQUAL64;
   Op OP_VERIFY; Op OP_CAT; Op OP_SHA256; PushBytes (arg_key pk); Op OP_CHECKSIGFROMSTACKVERIFY;
   Op OP_FROMALTSTACK].
Definition oracle_toks (pk : CovExtArgs) (t : N) : list Token :=
  [TkDup2; TkToAltStack; TkBytes8 (u64_to_le_bytes t); TkGeq64; TkVerify; TkCat; TkSha256;
   TkBytes32 (arg_key pk); TkCheckSigFromStackVerify; TkFromAltStack].

(** What follows the operands. *)
Definition tail_instrs (e : ExprInner CovExtArgs) : list Instruction :=
  match e with
  | EConst c => [PushBytes (i64_to_le_bytes c)]
  | CurrInputIdx => [Op OP_PUSHCURRENTINPUTINDEX; Op OP_INSPECTINPUTVALUE] ++ success_instrs
  | EInput i => idx_instrs i ++ [Op OP_INSPECTINPUTVALUE] ++ success_instrs
  | EOutput i => idx_instrs i ++ [Op OP_INSPECTOUTPUTVALUE] ++ success_instrs
  | EInputIssue i =>
      idx_instrs i ++ [Op OP_INSPECTINPUTISSUANCE; Op OP_DROP; Op OP_DROP] ++ success_instrs
      ++ [Op OP_NIP; Op OP_NIP]
  | EInputReIssue i =>
      idx_instrs i ++ [Op OP_INSPECTINPUTISSUANCE; Op OP_DROP; Op OP_DROP; Op OP_DROP; Op OP_DROP]
      ++ success_instrs
  | EAdd _ _ => [Op OP_ADD64] ++ success_instrs
  | ESub _ _ => [Op OP_SUB64] ++ success_instrs
  | EMul _ _ => [Op OP_MUL64] ++ success_instrs
  | EDiv _ _ => [Op OP_DIV64] ++ success_instrs ++ [Op OP_NIP]
  | EMod _ _ => [Op OP_DIV64] ++ success_instrs ++ [Op OP_DROP]
  | EBitAnd _ _ => [Op OP_AND]
  | EBitOr _ _ => [Op OP_OR]
  | EXor _ _ => [Op OP_XOR]
  | EInvert _ => [Op OP_INVERT]
  | ENegate _ => [Op OP_NEG64] ++ success_instrs
  | EPriceOracle1 pk t => oracle_instrs pk t
  | EPriceOracle1W pk t => [Op OP_TOALTSTACK] ++ oracle_instrs pk t ++ [Op OP_FROMALTSTACK; Op OP_SWAP]
  end.

Definition tail_tokens (e : ExprInner CovExtArgs) : list Token :=
  match e with
  | EConst c => [TkBytes8 (i64_to_le_bytes c)]
  | CurrInputIdx => [TkCurrInp; TkInpValue] ++ success_tokens
  | EInput i => idx_tokens i ++ [TkInpValue] ++ success_tokens
  | EOutput i => idx_tokens i ++ [TkOutValue] ++ success_tokens
  | EInputIssue i => idx_tokens i ++ [TkInpIssue; TkDrop; TkDrop] ++ success_tokens ++ [TkNip; TkNip]
  | EInputReIssue i =>
      idx_tokens i ++ [TkInpIssue; TkDrop; TkDrop; TkDrop; TkDrop] ++ success_tokens
  | EAdd _ _ => [TkAdd64] ++ success_tokens
  | ESub _ _ => [TkSub64] ++ success_tokens
  | EMul _ _ => [TkMul64] ++ success_tokens
  | EDiv _ _ => [TkDiv64] ++ success_tokens ++ [TkNip]
  | EMod _ _ => [TkDiv64] ++ success_tokens ++ [TkDrop]
  | EBitAnd _ _ => [TkAnd]
  | EBitOr _ _ => [TkOr]
  | EXor _ _ => [TkXor]
  | EInvert _ => [TkInvert]
  | ENegate _ => [TkNeg64] ++ success_tokens
  | EPriceOracle1 pk t => oracle_toks pk t
  | EPriceOracle1W pk t => [TkToAltStack] ++ oracle_toks pk t ++ [TkFromAltStack; TkSwap]
  end.

(** The operands, then the rest. *)
Fixpoint expr_list {A} (tail : ExprInner CovExtArgs → list A) (x : CovExpr) : list A :=
  let 'MkExpr e _ _ := x in
  match e with
  | EAdd x y | ESub x y | EMul x y | EDiv x y | EMod x y | EBitAnd x y | EBitOr x y | EXor x y =>
      expr_list tail x ++ expr_list tail y ++ tail e
  | EInvert x | ENegate x => expr_list tail x ++ tail e
  | _ => tail e
  end.
Definition expr_instrs : CovExpr → list Instruction := expr_list tail_instrs.
Definition expr_tokens : CovExpr → list Token := expr_list tail_tokens.

Lemma expr_list_eq {A} (tail : ExprInner CovExtArgs → list A) e s d :
  expr_list tail (MkExpr e s d) = concat (map (expr_list tail) (operands e)) ++ tail e.
Proof. destruct e; cbn; rewrite ?app_nil_r, <-?app_assoc; done. Qed.

Definition arith_instrs (a : Arith CovExtArgs) : list Instruction :=
  let '(x, y) := arith_sides (arith_expr a) in
  expr_instrs x ++ expr_instrs y ++ [Op (cmp_opcode (arith_expr a))].

Definition cmp_token (a : ArithInner CovExtArgs) : Token :=
  match a with
  | AEq _ _ => TkEqual
  | ALt _ _ => TkLe64
  | ALeq _ _ => TkLeq64
  | AGt _ _ => TkGe64
  | AGeq _ _ => TkGeq64
  end.

Definition arith_tokens (a : Arith CovExtArgs) : list Token :=
  let '(x, y) := arith_sides (arith_expr a) in
  expr_tokens x ++ expr_tokens y ++ [cmp_token (arith_expr a)].

(** *** Expressions in range *)

Definition leaf_idx (e : ExprInner CovExtArgs) : option IdxExpr :=
  match e with
  | EInput i | EOutput i | EInputIssue i | EInputReIssue i => Some i
  | _ => None
  end.

(** Oracle keys are keys, and the constants of indices are below a bound. *)
Definition node_fits (bound : N) (x : CovExpr) : Prop :=
  match as_inner x with
  | EPriceOracle1 pk _ | EPriceOracle1W pk _ => ∃ k, pk = XOnlyKeyArg k
  | e => match leaf_idx e with Some i => idx_within bound i | None => True end
  end.
Definition fits (bound : N) : CovExpr → Prop := expr_all (node_fits bound).

Definition arith_all (P : CovExpr → Prop) (a : Arith CovExtArgs) : Prop :=
  expr_all P (arith_sides (arith_expr a)).1 ∧ expr_all P (arith_sides (arith_expr a)).2.

(** The cached size and depth are those [Expr::from_inner] computes. *)
Definition node_cached (x : CovExpr) : Prop := x = from_inner (as_inner x).
End spec.

(** x-only keys have 32 bytes, and a key that is read serializes to those it was read
    from. *)
Class XOnlySliceOk `{Signatures} : Prop := {
  xonly_slice_length k : length (xonly_serialize k) = 32;
  XOnly_from_slice_Some b k : XOnly_from_slice b = Some k → xonly_serialize k = b;
}.

(** ** The script *)

Section script.
Context `{Signatures} `{!ScriptBuilder} `{!ScriptBuilderOk} `{!XOnlySliceOk}.
Notation CovExpr := (Expr CovExtArgs).

Lemma push_opcodes_instrs b l ops :
  Forall (λ op, op ≠ OP_PUSHBYTES_0 ∧ op_named op) ops → has_instrs b l →
  has_instrs (push_opcodes b ops) (l ++ map Op ops).
Proof.
  revert b l. induction ops as [|op ops IH]; intros b l Hops Hb; cbn; [by rewrite app_nil_r|].
  apply Forall_cons_iff in Hops as [[Hop Hn] Hops]. eapply has_instrs_eq.
  { apply IH; [done|]. by apply has_push_opcode. }
  rewrite <-app_assoc. by destruct op.
Qed.

(** Assemble what was pushed. *)
Ltac push_chain :=
  repeat first
    [ eassumption | eapply has_push_opcode; [done|] | eapply push_one
    | eapply push_opcodes_instrs; [by repeat constructor|]
    | eapply has_push_slice; [|rewrite ?xonly_slice_length; cbn; lia..]
    | eapply idx_push_instrs; [eassumption|] ].

Lemma push_operation_instrs e s d b l :
  node_fits (2 ^ 63) (MkExpr e s d) → has_instrs b l →
  ∃ b', push_operation e b = Ok b' ∧ has_instrs b' (l ++ tail_instrs e).
Proof.
  intros Hfit Hb.
  destruct e; cbn [node_fits as_inner leaf_idx] in Hfit; cbn [push_operation];
    try (destruct Hfit as [k ->]; cbn [result_bind]);
    (eexists; split; [reflexivity|]); unfold push_oracle_check, push_success;
    (eapply has_instrs_eq; [push_chain|]); cbn; by rewrite <-?app_assoc.
Qed.

Lemma expr_push_eq e s d b :
  expr_push_to_builder (MkExpr e s d) b =
  let? b := try_fold (λ b x, expr_push_to_builder x b) b (operands e) in push_operation e b.
Proof.
  destruct e; cbn; try done;
    repeat match goal with |- context [expr_push_to_builder ?x ?b] =>
      destruct (expr_push_to_builder x b); cbn; try done end.
Qed.

Lemma expr_push_instrs x b l :
  fits (2 ^ 63) x → has_instrs b l →
  ∃ b', expr_push_to_builder x b = Ok b' ∧ has_instrs b' (l ++ expr_instrs x).
Proof.
  revert x b l. apply (expr_ind' (λ x, ∀ b l, fits (2 ^ 63) x → has_instrs b l →
    ∃ b', expr_push_to_builder x b = Ok b' ∧ has_instrs b' (l ++ expr_instrs x))).
  intros e s d IH b l [Hfit Hops]%expr_all_inv Hb. cbn [as_inner] in *.
  rewrite expr_push_eq. unfold expr_instrs. rewrite expr_list_eq, app_assoc.
  assert (∃ b', try_fold (λ b x, expr_push_to_builder x b) b (operands e) = Ok b' ∧
    has_instrs b' (l ++ concat (map expr_instrs (operands e)))) as (b' & -> & Hb').
  { clear Hfit. revert b l Hb Hops. induction IH as [|x xs Hx _ IHxs]; intros b l Hb Hops; cbn.
    - exists b. by rewrite app_nil_r.
    - apply Forall_cons_iff in Hops as [Hfx Hops]. destruct (Hx b l Hfx Hb) as (b1 & -> & Hb1).
      cbn. destruct (IHxs b1 _ Hb1 Hops) as (b2 & Hp & Hb2). exists b2. split; [done|].
      by rewrite app_assoc. }
  cbn. by eapply push_operation_instrs.
Qed.

Lemma arith_push_instrs a b l :
  arith_all (node_fits (2 ^ 63)) a → has_instrs b l →
  ∃ b', arith_push_to_builder a b = Ok b' ∧ has_instrs b' (l ++ arith_instrs a).
Proof.
  intros [Hx Hy] Hb. unfold arith_push_to_builder, arith_instrs.
  destruct (arith_sides (arith_expr a)) as [x y]. cbn [fst snd] in *.
  destruct (expr_push_instrs x b l Hx Hb) as (b1 & -> & Hb1). cbn.
  destruct (expr_push_instrs y b1 _ Hy Hb1) as (b2 & -> & Hb2). cbn.
  eexists. split; [done|]. eapply has_instrs_eq; [by apply has_push_opcode; [destruct (arith_expr a)|]|].
  rewrite <-!app_assoc. by destruct (arith_expr a).
Qed.

(** *** Its size *)

Lemma tail_size e s d :
  node_fits (2 ^ 39) (MkExpr e s d) →
  instrs_size (tail_instrs e) + sum_list (map expr_script_size (operands e)) =
  expr_script_size (from_inner e).
Proof.
  intros Hfit. destruct e; cbn [node_fits as_inner leaf_idx] in Hfit;
    try (destruct Hfit as [k ->]); unfold from_inner, tail_instrs, success_instrs, oracle_instrs;
    cbn [expr_script_size operands map sum_list arg_key];
    autorewrite with isize; rewrite ?idx_size by done;
    rewrite ?push_size by (rewrite ?xonly_slice_length; cbn; lia);
    rewrite ?xonly_slice_length; cbn; lia.
Qed.

Lemma expr_size x :
  fits (2 ^ 39) x → expr_all node_cached x → instrs_size (expr_instrs x) = expr_script_size x.
Proof.
  revert x. apply (expr_ind' (λ x, fits (2 ^ 39) x → expr_all node_cached x →
    instrs_size (expr_instrs x) = expr_script_size x)).
  intros e s d IH [Hfit Hops]%expr_all_inv [Hc Hcs]%expr_all_inv.
  unfold node_cached in Hc. cbn [as_inner] in *. rewrite Hc, <-(tail_size e s d) by done.
  rewrite <-Hc. unfold expr_instrs. rewrite expr_list_eq, instrs_size_app, Nat.add_comm. f_equal.
  clear Hc Hfit. induction IH as [|x xs Hx _ IHxs]; [done|].
  apply Forall_cons_iff in Hops as [? ?], Hcs as [? ?]. etrans; [apply instrs_size_app|]. cbn [map].
  change (sum_list (?n :: ?l)) with (n + sum_list l). f_equal; auto.
Qed.

Lemma arith_size a :
  arith_all (node_fits (2 ^ 39)) a → arith_all node_cached a →
  instrs_size (arith_instrs a) = arith_script_size a.
Proof.
  intros [Hx Hy] [Hcx Hcy]. unfold arith_instrs, arith_script_size.
  destruct (arith_sides (arith_expr a)) as [x y]. cbn [fst snd] in *.
  rewrite !instrs_size_app, !expr_size by done. cbn. lia.
Qed.
End script.

(** ** Lexing *)

Section lexing.
Context `{Signatures} `{!ScriptBuilder} `{!ScriptBuilderOk} `{!XOnlySliceOk}.
Notation CovExpr := (Expr CovExtArgs).

Lemma lexes_nil : lexes [] [].
Proof. intros ret Hr. done. Qed.

Lemma lexes_bytes8 b : length b = 8 → lexes [PushBytes b] [TkBytes8 b].
Proof.
  intros Hb. apply lexes_one; [|done]. intros ret Hr. cbn -[lex_push].
  rewrite lex_push_no_pick by done. by rewrite Hb.
Qed.

Lemma lexes_bytes32 b : length b = 32 → lexes [PushBytes b] [TkBytes32 b].
Proof.
  intros Hb. apply lexes_one; [|done]. intros ret Hr. cbn -[lex_push].
  rewrite lex_push_no_pick by done. by rewrite Hb.
Qed.

(** A [VERIFY] after a comparison, and the [CAT] after it. *)
Lemma lexes_geq_verify_cat :
  lexes [Op OP_GREATERTHANOREQUAL64; Op OP_VERIFY; Op OP_CAT] [TkGeq64; TkVerify; TkCat].
Proof. intros ret Hr. done. Qed.

(** Opcodes that are a token of their own. *)
Lemma lexes_ops ops ts :
  Forall2 (λ op t, op_tokens op = Some [t] ∧ t ≠ TkPick) ops ts → lexes (map Op ops) ts.
Proof.
  induction 1 as [|op t ops ts [Hop Ht] _ IH]; [apply lexes_nil|].
  apply (lexes_cons _ [t]); [|done]. apply lexes_op; [done| |done]. cbn. by intros [= ->].
Qed.

Lemma lexes_success : lexes success_instrs success_tokens.
Proof. apply (lexes_cons _ [_]); [by apply lexes_num|]. by apply lexes_op. Qed.

Lemma lexes_oracle k t : lexes (oracle_instrs (XOnlyKeyArg k) t) (oracle_toks (XOnlyKeyArg k) t).
Proof.
  apply (lexes_app (map Op [_; _]) _ [_; _]); [by apply lexes_ops; repeat constructor|].
  apply (lexes_cons _ [_]); [by apply lexes_bytes8|].
  apply (lexes_app [_; _; _] _ [_; _; _]); [apply lexes_geq_verify_cat|].
  apply (lexes_cons _ [_]); [by apply lexes_op|].
  apply (lexes_cons _ [_]); [by apply lexes_bytes32, xonly_slice_length|].
  by apply (lexes_ops [_; _]); repeat constructor.
Qed.

Lemma lexes_tail e s d :
  node_fits (2 ^ 31) (MkExpr e s d) → lexes (tail_instrs e) (tail_tokens e).
Proof.
  intros Hfit.
  assert (∀ ops ts, Forall2 (λ op t, op_tokens op = Some [t] ∧ t ≠ TkPick) ops ts →
    lexes (map Op ops ++ success_instrs) (ts ++ success_tokens)) as Hsucc.
  { intros ops ts Hops. by apply lexes_app; [apply lexes_ops|apply lexes_success]. }
  destruct e; cbn [node_fits as_inner leaf_idx] in Hfit; cbn [tail_instrs tail_tokens];
    try (destruct Hfit as [k ->]);
    try (apply lexes_app; [by apply idx_lexes|]).
  - by apply lexes_bytes8.
  - apply (Hsucc [_; _]); by repeat constructor.
  - apply (Hsucc [_]); by repeat constructor.
  - apply (Hsucc [_]); by repeat constructor.
  - rewrite !(app_assoc _ success_instrs), !(app_assoc _ success_tokens).
    apply lexes_app; [apply (Hsucc [_; _; _]); by repeat constructor|].
    apply (lexes_ops [_; _]); by repeat constructor.
  - apply (Hsucc [_; _; _; _; _]); by repeat constructor.
  - apply (Hsucc [_]); by repeat constructor.
  - apply (Hsucc [_]); by repeat constructor.
  - apply (Hsucc [_]); by repeat constructor.
  - rewrite !(app_assoc _ success_instrs), !(app_assoc _ success_tokens).
    apply lexes_app; [apply (Hsucc [_]); by repeat constructor|]. by apply lexes_op.
  - rewrite !(app_assoc _ success_instrs), !(app_assoc _ success_tokens).
    apply lexes_app; [apply (Hsucc [_]); by repeat constructor|]. by apply lexes_op.
  - by apply lexes_op.
  - by apply lexes_op.
  - by apply lexes_op.
  - by apply lexes_op.
  - apply (Hsucc [_]); by repeat constructor.
  - apply lexes_oracle.
  - apply (lexes_cons _ [_]); [by apply lexes_op|].
    apply lexes_app; [apply lexes_oracle|]. apply (lexes_ops [_; _]); by repeat constructor.
Qed.

Lemma lexes_expr x : fits (2 ^ 31) x → lexes (expr_instrs x) (expr_tokens x).
Proof.
  revert x. apply (expr_ind' (λ x, fits (2 ^ 31) x → lexes (expr_instrs x) (expr_tokens x))).
  intros e s d IH [Hfit Hops]%expr_all_inv. unfold expr_instrs, expr_tokens. rewrite !expr_list_eq.
  apply lexes_app; [|by eapply lexes_tail]. clear Hfit. cbn [as_inner] in Hops.
  induction IH as [|x xs Hx _ IHxs]; [apply lexes_nil|].
  apply Forall_cons_iff in Hops as [Hfx Hops]. cbn. apply lexes_app; [by apply Hx|by apply IHxs].
Qed.

Lemma lexes_arith a : arith_all (node_fits (2 ^ 31)) a → lexes (arith_instrs a) (arith_tokens a).
Proof.
  intros [Hx Hy]. unfold arith_instrs, arith_tokens.
  destruct (arith_sides (arith_expr a)) as [x y]. cbn [fst snd] in *.
  apply lexes_app; [by apply lexes_expr|]. apply lexes_app; [by apply lexes_expr|].
  by destruct (arith_expr a); apply lexes_op.
Qed.
End lexing.

(** ** Leaves *)

Section leaves.
Context {T : Type}.

Fixpoint expr_leaves (x : Expr T) : list (ExprInner T) :=
  let 'MkExpr e _ _ := x in
  match e with
  | EAdd x y | ESub x y | EMul x y | EDiv x y | EMod x y | EBitAnd x y | EBitOr x y | EXor x y =>
      expr_leaves x ++ expr_leaves y
  | EInvert x | ENegate x => expr_leaves x
  | _ => [e]
  end.
Definition inner_leaves (e : ExprInner T) : list (ExprInner T) := expr_leaves (MkExpr e 0 0).
Definition stack_leaves (stack : list (ExprInner T)) : list (ExprInner T) :=
  concat (map inner_leaves stack).

Lemma expr_leaves_inner x : expr_leaves x = inner_leaves (as_inner x).
Proof. by destruct x as [[]]. Qed.
Lemma expr_nodes_inner (x : Expr T) : expr_nodes x = inner_nodes (as_inner x).
Proof. by destruct x as [[]]. Qed.

Lemma stack_nodes_cons (e : ExprInner T) l : stack_nodes (e :: l) = inner_nodes e + stack_nodes l.
Proof. done. Qed.
Lemma stack_leaves_cons (e : ExprInner T) l : stack_leaves (e :: l) = inner_leaves e ++ stack_leaves l.
Proof. done. Qed.

(** The iterator walks the leaves from left to right, and its fuel is enough. *)
Lemma ExprIter_next_spec fuel (stack : list (ExprInner T)) :
  stack_nodes stack < fuel →
  match stack_leaves stack with
  | [] => ExprIter_next fuel stack = (None, [])
  | l :: ls => ∃ stack', ExprIter_next fuel stack = (Some l, stack') ∧ stack_leaves stack' = ls
  end.
Proof.
  revert stack. induction fuel as [|fuel IH]; intros stack Hf; [lia|].
  destruct stack as [|e stack]; [done|].
  rewrite stack_nodes_cons in Hf. rewrite stack_leaves_cons.
  assert (∀ a b, S (expr_nodes a + expr_nodes b) + stack_nodes stack < S fuel →
    match (expr_leaves a ++ expr_leaves b) ++ stack_leaves stack with
    | [] => ExprIter_next fuel (as_inner a :: as_inner b :: stack) = (None, [])
    | l :: ls => ∃ stack', ExprIter_next fuel (as_inner a :: as_inner b :: stack) = (Some l, stack')
        ∧ stack_leaves stack' = ls
    end) as Hbin.
  { intros a b Hn. rewrite !expr_nodes_inner in Hn. rewrite !expr_leaves_inner, <-app_assoc.
    apply (IH (as_inner a :: as_inner b :: stack)).  rewrite !stack_nodes_cons. lia. }
  assert (∀ a, S (expr_nodes a) + stack_nodes stack < S fuel →
    match expr_leaves a ++ stack_leaves stack with
    | [] => ExprIter_next fuel (as_inner a :: stack) = (None, [])
    | l :: ls => ∃ stack', ExprIter_next fuel (as_inner a :: stack) = (Some l, stack')
        ∧ stack_leaves stack' = ls
    end) as Hun.
  { intros a Hn. rewrite !expr_nodes_inner in Hn. rewrite !expr_leaves_inner.
    apply (IH (as_inner a :: stack)).  rewrite !stack_nodes_cons. lia. }
  destruct e; cbn [inner_leaves expr_leaves ExprIter_next app]; try (by eexists);
    try (by apply Hbin); by apply Hun.
Qed.

Lemma iter_any_spec fuel p (stack : list (ExprInner T)) :
  length (stack_leaves stack) < fuel → iter_any fuel p stack = existsb p (stack_leaves stack).
Proof.
  revert stack. induction fuel as [|fuel IH]; intros stack Hf; [lia|]. cbn [iter_any].
  pose proof (ExprIter_next_spec (S (stack_nodes stack)) stack ltac:(lia)) as Hn.
  destruct (stack_leaves stack) as [|l ls]; [by rewrite Hn|].
  destruct Hn as (stack' & -> & Hl). cbn in *. rewrite IH by (rewrite Hl; lia). by rewrite Hl.
Qed.

Lemma expr_leaves_nodes (x : Expr T) : length (expr_leaves x) ≤ expr_nodes x.
Proof.
  revert x. apply expr_ind'. intros e s d IH.
  destruct e; cbn [operands expr_leaves expr_nodes] in *; rewrite ?Forall_cons_iff in IH;
    rewrite ?length_app; cbn; lia.
Qed.

Lemma expr_leaves_nonempty (x : Expr T) : expr_leaves x ≠ [].
Proof.
  revert x. apply expr_ind'. intros e s d IH.
  destruct e; cbn [operands expr_leaves] in *; rewrite ?Forall_cons_iff in IH; try done;
    try (apply app_ne_l); naive_solver.
Qed.

(** What [Arith::new] checks: the first leaf is no [price_oracle1_w], and the others are
    no [price_oracle1]. *)
Definition oracles_ordered (a : ArithInner T) : bool :=
  let '(x, y) := arith_sides a in
  match expr_leaves x with
  | [] => false
  | l :: ls => negb (is_oracle_w l) && forallb (λ e, negb (is_oracle e)) (ls ++ expr_leaves y)
  end.

Lemma existsb_forallb_negb {A} (p : A → bool) l : existsb p l = negb (forallb (λ x, negb (p x)) l).
Proof. induction l as [|x l IH]; cbn; [done|]. rewrite IH. by destruct (p x). Qed.

Lemma Arith_new_spec (a : ArithInner T) :
  if oracles_ordered a then Arith_new a = Ok (MkArith a) else ∃ e, Arith_new a = Err e.
Proof.
  unfold oracles_ordered, Arith_new. destruct (arith_sides a) as [x y].
  pose proof (ExprIter_next_spec (S (stack_nodes [as_inner x])) [as_inner x] ltac:(lia)) as Hn.
  assert (∀ x : Expr T, stack_leaves [as_inner x] = expr_leaves x) as Hone
    by (intros z; unfold stack_leaves; cbn [map concat]; by rewrite app_nil_r, <-expr_leaves_inner).
  assert (∀ z : Expr T, length (expr_leaves z) ≤ stack_nodes [as_inner z]) as Hlen.
  { intros z. rewrite stack_nodes_cons, <-expr_nodes_inner. cbn. pose proof (expr_leaves_nodes z). lia. }
  rewrite Hone in Hn. pose proof (Hlen x) as Hx. pose proof (Hlen y) as Hy.
  destruct (expr_leaves x) as [|l ls] eqn:Hls; [by apply expr_leaves_nonempty in Hls|].
  destruct Hn as (stack' & -> & Hl).
  rewrite !iter_any_spec by (rewrite ?Hl, ?Hone; cbn in *; lia). rewrite Hl, Hone, forallb_app.
  rewrite !existsb_forallb_negb. destruct (is_oracle_w l); cbn; [by eexists|].
  destruct (forallb _ ls); cbn; [|by eexists]. destruct (forallb _ (expr_leaves y)); cbn; [done|by eexists].
Qed.

Lemma Arith_new_Ok (a : ArithInner T) r :
  Arith_new a = Ok r ↔ r = MkArith a ∧ oracles_ordered a = true.
Proof.
  pose proof (Arith_new_spec a) as Ha. destruct (oracles_ordered a); [rewrite Ha; naive_solver|].
  destruct Ha as [e ->]. naive_solver.
Qed.
End leaves.

(** ** Parsing *)

(** *** Tokens one by one *)

Lemma strip_Some pat ts ts' : strip pat ts = Some ts' ↔ ts = pat ++ ts'.
Proof.
  revert ts. induction pat as [|p pat IH]; intros ts; cbn; [naive_solver|].
  destruct ts as [|t ts]; [done|]. case_bool_decide as Hp; [subst; rewrite IH; naive_solver|].
  naive_solver.
Qed.

Lemma arm_Some {A} pat ts (body : TokenIter → option A) rest r :
  arm pat ts body rest = Some r →
  (∃ ts', ts = rev pat ++ ts' ∧ body ts' = Some r) ∨ rest = Some r.
Proof.
  unfold arm. case_match; [done|]. destruct (strip (rev pat) ts) as [ts'|] eqn:Hs; [|by right].
  apply strip_Some in Hs. left. by exists ts'.
Qed.

Lemma arm_hit {A} pat ts ts' (body : TokenIter → option A) rest :
  strip (rev pat) ts = Some ts' → arm pat ts body rest = body ts'.
Proof.
  unfold arm. intros Hs. rewrite Hs. apply strip_Some in Hs as ->.
  rewrite length_app, length_rev. by destruct (Nat.ltb_spec (length pat + length ts') (length pat)); [lia|].
Qed.

Lemma arm_miss {A} pat ts (body : TokenIter → option A) rest :
  length pat ≤ length ts → strip (rev pat) ts = None → arm pat ts body rest = rest.
Proof. unfold arm. intros Hl ->. by destruct (Nat.ltb_spec (length ts) (length pat)); [lia|]. Qed.

Lemma le_value_inj a b : length a = length b → le_value a = le_value b → a = b.
Proof.
  revert b. induction a as [|x a IH]; intros [|y b]; try done. cbn [length le_value].
  intros [= Hl] Hv. pose proof (Byte.to_N_bounded x). pose proof (Byte.to_N_bounded y).
  assert (Byte.to_N x = Byte.to_N y ∧ le_value a = le_value b) as [Hx Ha] by lia.
  f_equal; [|by apply IH]. apply (f_equal Byte.of_N) in Hx. rewrite !Byte.of_to_N in Hx. congruence.
Qed.

Lemma u64_to_le_value b : length b = 8 → u64_to_le_bytes (le_value b) = b.
Proof.
  intros Hb. apply le_value_inj; [done|]. apply u64_le_roundtrip.
  pose proof (le_value_lt b) as Hl. by rewrite Hb in Hl.
Qed.

Lemma as_u64_as_i64 n : (n < 2 ^ 64)%N → as_u64 (as_i64 n) = n.
Proof.
  intros Hn. unfold as_u64, as_i64. destruct (N.ltb_spec n (2 ^ 63)).
  - rewrite Z.mod_small; lia.
  - rewrite <-(Z.mod_add _ 1), Z.mod_small by lia. lia.
Qed.

Lemma i64_to_le_value b : length b = 8 → i64_to_le_bytes (i64_from_le_bytes b) = b.
Proof.
  intros Hb. unfold i64_to_le_bytes, i64_from_le_bytes. rewrite as_u64_as_i64; [by apply u64_to_le_value|].
  pose proof (le_value_lt b) as Hl. by rewrite Hb in Hl.
Qed.

Lemma bytes8_Some b b' : bytes8 b = Some b' ↔ b' = b ∧ length b = 8.
Proof. unfold bytes8. destruct (Nat.eqb_spec (length b) 8); naive_solver. Qed.
