(* ===== verification/ArithParse.v ===== *)
(** * The parser of arithmetic fragments

    [Expr::from_tokens] and [Arith::from_tokens] of [src/src/extensions/arith.rs] against
    the tokens of an expression: what is read has the tokens that were read, and the
    tokens of an expression are read back as that expression, or as one with the same
    value where two expressions have one script. *)

From S2P Require Import Prelude Types Extension Property Ast Typing Resources Tokens Context ScriptNum Script Encoding Lex DecodeLoop DecodeSound Lexing Interp SatShape IndexOps Arith ArithProps.
From stdpp Require Import strings.

#[local] Arguments u64_to_le_bytes : simpl never.
#[local] Arguments i64_to_le_bytes : simpl never.

Section parse.
Context `{Signatures} `{!XOnlySliceOk}.
Notation CovExpr := (Expr CovExtArgs).

Lemma expr_tokens_from_inner e :
  expr_tokens (from_inner e) = concat (map expr_tokens (operands e)) ++ tail_tokens e.
Proof.
  assert (∃ s d, from_inner e = MkExpr e s d) as (s & d & ->)
    by (unfold from_inner; destruct e; eauto).
  apply expr_list_eq.
Qed.

(** ** What is read has the tokens that were read *)

Lemma oracle_tokens_Some ts time xpk ts' :
  oracle_tokens ts = Some (time, xpk, ts') →
  ts = [TkFromAltStack; TkCheckSigFromStackVerify; TkBytes32 xpk; TkSha256; TkCat; TkVerify;
        TkGeq64; TkBytes8 time; TkToAltStack; TkDup2] ++ ts'.
Proof.
  unfold oracle_tokens. intros (ts1 & ->%strip_Some & Hr)%bind_Some.
  destruct ts1 as [|[] ts1]; try done. apply bind_Some in Hr as (ts2 & ->%strip_Some & Hr).
  destruct ts2 as [|[] ts2]; try done. apply bind_Some in Hr as (ts3 & ->%strip_Some & [= <- <- <-]).
  done.
Qed.

Lemma parsed_oracle_Some f time xpk ts r :
  parsed_oracle f time xpk ts = Some r →
  ∃ k, r = (from_inner (f (XOnlyKeyArg k) (le_value time)), ts) ∧
    u64_to_le_bytes (le_value time) = time ∧ xonly_serialize k = xpk.
Proof.
  unfold parsed_oracle. intros (t & [-> Ht]%bytes8_Some & (k & Hk & [= <-])%bind_Some)%bind_Some.
  exists k. split_and!; [done|by apply u64_to_le_value|by apply XOnly_from_slice_Some].
Qed.

Lemma oracle_arms_sound ts x ts' :
  oracle_arms ts = Some (x, ts') → ts = rev (expr_tokens x) ++ ts'.
Proof.
  unfold oracle_arms. case_match; [done|]. destruct (oracle_tokens ts) as [[[time xpk] ts1]|] eqn:Ho.
  - apply oracle_tokens_Some in Ho as ->.
    intros (k & [= -> ->] & Ht & Hk)%parsed_oracle_Some. rewrite expr_tokens_from_inner.
    cbn. by rewrite Ht, Hk.
  - case_match; [done|].
    intros (ts1 & ->%strip_Some & ([[time xpk] ts2] & ->%oracle_tokens_Some
      & (ts3 & ->%strip_Some & (k & [= -> ->] & Ht & Hk)%parsed_oracle_Some)%bind_Some)%bind_Some)%bind_Some.
    rewrite expr_tokens_from_inner. cbn. by rewrite Ht, Hk.
Qed.

Lemma idx_arm_Some f ts x ts' :
  idx_arm f ts = Some (x, ts') → ∃ i, x = from_inner (f i) ∧ ts = rev (idx_tokens i) ++ ts'.
Proof.
  intros ([i ts1] & Hi%idx_parse_sound & [= <- <-])%bind_Some. by exists i.
Qed.

(** *** One level of the parser, for a way to read operands *)

Section level.
Context (read : TokenIter → option (CovExpr * TokenIter)).

Definition read_sound : Prop :=
  ∀ ts x ts', read ts = Some (x, ts') → ts = rev (expr_tokens x) ++ ts'.

Lemma read_unary_sound f tail ts x ts' :
  read_sound → read_unary read f ts = Some (x, ts') →
  (∀ x, operands (f x) = [x] ∧ tail_tokens (f x) = tail) →
  rev tail ++ ts = rev (expr_tokens x) ++ ts'.
Proof.
  intros IH ([x1 ts1] & ->%IH & [= <- <-])%bind_Some Hf.
  rewrite expr_tokens_from_inner. destruct (Hf x1) as [-> ->]. cbn.
  by rewrite app_nil_r, rev_app_distr, app_assoc.
Qed.

Lemma read_binary_sound f tail ts x ts' :
  read_sound → read_binary read f ts = Some (x, ts') →
  (∀ x y, operands (f x y) = [x; y] ∧ tail_tokens (f x y) = tail) →
  rev tail ++ ts = rev (expr_tokens x) ++ ts'.
Proof.
  intros IH ([y1 ts1] & ->%IH & ([x1 ts2] & ->%IH & [= <- <-])%bind_Some)%bind_Some Hf.
  rewrite expr_tokens_from_inner. destruct (Hf x1 y1) as [-> ->]. cbn.
  by rewrite app_nil_r, !rev_app_distr, !app_assoc.
Qed.

Lemma idx_arm_sound f tail ts x ts' :
  idx_arm f ts = Some (x, ts') →
  (∀ i, operands (f i) = [] ∧ tail_tokens (f i) = idx_tokens i ++ tail) →
  rev tail ++ ts = rev (expr_tokens x) ++ ts'.
Proof.
  intros (i & -> & ->)%idx_arm_Some Hf.
  rewrite expr_tokens_from_inner. destruct (Hf i) as [-> ->]. cbn.
  by rewrite rev_app_distr, app_assoc.
Qed.

Lemma long_arms_sound ts x ts' :
  read_sound → long_arms read ts = Some (x, ts') → ts = rev (expr_tokens x) ++ ts'.
Proof.
  intros Hread. unfold long_arms.
  repeat (intros [(ts1 & -> & Hr)|Hr]%arm_Some;
    [first [ eapply read_unary_sound in Hr; [exact Hr|done|done]
           | eapply read_binary_sound in Hr; [exact Hr|done|done]
           | eapply idx_arm_sound in Hr; [exact Hr|done] | by injection Hr as <- <-]|revert Hr]).
  apply oracle_arms_sound.
Qed.
End level.

Lemma expr_from_tokens_sound fuel : read_sound (expr_from_tokens fuel).
Proof.
  induction fuel as [|fuel IH]; intros ts x ts'; [done|]. cbn [expr_from_tokens].
  destruct ts as [|t ts]; [done|].
  destruct t; try (by apply long_arms_sound); intros Hr.
  - apply bind_Some in Hr as (b' & [-> Hb]%bytes8_Some & [= <- <-]).
    rewrite expr_tokens_from_inner. cbn. by rewrite i64_to_le_value.
  - by apply (read_binary_sound _ _ [TkAnd]) in Hr.
  - by apply (read_binary_sound _ _ [TkOr]) in Hr.
  - by apply (read_binary_sound _ _ [TkXor]) in Hr.
  - by apply (read_unary_sound _ _ [TkInvert]) in Hr.
Qed.
(** ** The tokens of an expression are read back

    The script of the amount of input [curr_idx] is that of the amount of the current
    input, which is what the parser finds; the cached sizes are computed anew. *)
Definition canon_leaf (e : ExprInner CovExtArgs) : ExprInner CovExtArgs :=
  match e with EInput CurrIdx => CurrInputIdx | e => e end.

Fixpoint expr_canon (x : CovExpr) : CovExpr :=
  let 'MkExpr e _ _ := x in
  from_inner
    match e with
    | EAdd x y => EAdd (expr_canon x) (expr_canon y)
    | ESub x y => ESub (expr_canon x) (expr_canon y)
    | EMul x y => EMul (expr_canon x) (expr_canon y)
    | EDiv x y => EDiv (expr_canon x) (expr_canon y)
    | EMod x y => EMod (expr_canon x) (expr_canon y)
    | EBitAnd x y => EBitAnd (expr_canon x) (expr_canon y)
    | EBitOr x y => EBitOr (expr_canon x) (expr_canon y)
    | EXor x y => EXor (expr_canon x) (expr_canon y)
    | EInvert x => EInvert (expr_canon x)
    | ENegate x => ENegate (expr_canon x)
    | e => canon_leaf e
    end.

(** 64-bit constants and times, and oracle keys that are keys. *)
Definition node_readable (x : CovExpr) : Prop :=
  match as_inner x with
  | EConst c => in_i64 c = true
  | EPriceOracle1 pk t | EPriceOracle1W pk t => (∃ k, pk = XOnlyKeyArg k) ∧ (t < 2 ^ 64)%N
  | _ => True
  end.

(** Run the comparisons of an arm. *)
Ltac run_strip :=
  cbn [rev app strip];
  repeat first [ rewrite bool_decide_eq_true_2 by done | rewrite bool_decide_eq_false_2 by done
               | progress cbn [strip] ];
  reflexivity.
Ltac run_arms :=
  repeat (rewrite arm_miss; [|cbn [length app rev]; rewrite ?length_app, ?length_rev; cbn [length]; lia
    |run_strip]);
  try (erewrite arm_hit by run_strip).

Context `{!SignaturesOk}.

Lemma parsed_oracle_complete f k t ts :
  (t < 2 ^ 64)%N →
  parsed_oracle f (u64_to_le_bytes t) (xonly_serialize k) ts = parsed (f (XOnlyKeyArg k) t) ts.
Proof.
  intros Ht. unfold parsed_oracle. rewrite (proj2 (bytes8_Some _ _)) by done. cbn.
  by rewrite XOnly_from_serialize, u64_le_roundtrip by done.
Qed.

Lemma oracle_tokens_complete pk t ts :
  oracle_tokens (rev (oracle_toks pk t) ++ ts) = Some (u64_to_le_bytes t, arg_key pk, ts).
Proof.
  unfold oracle_tokens. cbn [oracle_toks rev app].
  repeat (erewrite (proj2 (strip_Some _ _ _)) by reflexivity; cbn). done.
Qed.

Lemma idx_tokens_head i :
  ∃ t l, rev (idx_tokens i) = t :: l ∧ (t = TkCurrInp → i = CurrIdx).
Proof.
  destruct i; cbn [idx_tokens]; rewrite ?rev_app_distr; cbn [rev app];
    (eexists _, _; split; [reflexivity|done]).
Qed.

Lemma idx_arm_complete f i t l ts :
  rev (idx_tokens i) = t :: l → idx_arm f (t :: l ++ ts) = parsed (f i) ts.
Proof. intros Hl. rewrite app_comm_cons, <-Hl. unfold idx_arm. by rewrite idx_parse_complete. Qed.

Lemma oracle_arms_complete pk t ts :
  node_readable (MkExpr (EPriceOracle1 pk t) 0 0) →
  oracle_arms (rev (oracle_toks pk t) ++ ts) = parsed (EPriceOracle1 pk t) ts.
Proof.
  intros [[k ->] Ht]. unfold oracle_arms. rewrite length_app, length_rev. cbn [oracle_toks length].
  destruct (Nat.ltb_spec (10 + length ts) 10); [lia|].
  rewrite (oracle_tokens_complete (XOnlyKeyArg k)). by apply parsed_oracle_complete.
Qed.

Lemma oracle_arms_w_complete pk t ts :
  node_readable (MkExpr (EPriceOracle1W pk t) 0 0) →
  oracle_arms (rev (tail_tokens (EPriceOracle1W pk t)) ++ ts) = parsed (EPriceOracle1W pk t) ts.
Proof.
  intros [[k ->] Ht]. cbn [tail_tokens]. rewrite !rev_app_distr, <-!app_assoc. cbn [rev app].
  unfold oracle_arms. cbn [length]. rewrite length_app, length_rev. cbn [oracle_toks length].
  destruct (Nat.ltb_spec (S (S (10 + S (length ts)))) 10); [lia|].
  assert (∀ l, oracle_tokens (TkSwap :: l) = None) as -> by done.
  destruct (Nat.ltb_spec (S (S (10 + S (length ts)))) 13); [lia|].
  erewrite (proj2 (strip_Some [TkSwap; TkFromAltStack] _ _)) by reflexivity. cbn [mbind option_bind].
  rewrite (oracle_tokens_complete (XOnlyKeyArg k)). cbn [mbind option_bind].
  erewrite (proj2 (strip_Some [TkToAltStack] _ _)) by reflexivity. cbn [mbind option_bind].
  by apply parsed_oracle_complete.
Qed.

(** The arm of each operation. *)
Lemma long_arms_tail read e s d ts :
  node_readable (MkExpr e s d) →
  match e with
  | EConst _ | EBitAnd _ _ | EBitOr _ _ | EXor _ _ | EInvert _ => True
  | EAdd _ _ => long_arms read (rev (tail_tokens e) ++ ts) = read_binary read EAdd ts
  | ESub _ _ => long_arms read (rev (tail_tokens e) ++ ts) = read_binary read ESub ts
  | EMul _ _ => long_arms read (rev (tail_tokens e) ++ ts) = read_binary read EMul ts
  | EDiv _ _ => long_arms read (rev (tail_tokens e) ++ ts) = read_binary read EDiv ts
  | EMod _ _ => long_arms read (rev (tail_tokens e) ++ ts) = read_binary read EMod ts
  | ENegate _ => long_arms read (rev (tail_tokens e) ++ ts) = read_unary read ENegate ts
  | _ => long_arms read (rev (tail_tokens e) ++ ts) = parsed (canon_leaf e) ts
  end.
Proof.
  intros Hr. destruct e; try done; unfold long_arms; cbv zeta.
  5: cbn [canon_leaf]; rewrite <-oracle_arms_complete by done; cbn [tail_tokens oracle_toks rev app]; by run_arms.
  5: cbn [canon_leaf]; rewrite <-oracle_arms_w_complete by done; cbn [tail_tokens oracle_toks rev app]; by run_arms.
  all: cbn [tail_tokens]; unfold success_tokens; rewrite rev_app_distr, <-app_assoc; cbn [rev app].
  all: destruct (idx_tokens_head i) as (t & l & Hl & Ht).
  2-4: rewrite Hl; cbn [app]; run_arms; by erewrite idx_arm_complete.
  destruct (decide (t = TkCurrInp)) as [->|Hne].
  - rewrite Ht in * by done. injection Hl as <-. cbn [idx_tokens rev app]. by run_arms.
  - rewrite Hl. cbn [app]. run_arms. erewrite idx_arm_complete by done. destruct i; try done.
    injection Hl as <- _. done.
Qed.

Definition one_token (e : ExprInner CovExtArgs) : bool :=
  match e with EConst _ | EBitAnd _ _ | EBitOr _ _ | EXor _ _ | EInvert _ => true | _ => false end.

Lemma level_long fuel e ts :
  one_token e = false →
  expr_from_tokens (S fuel) (rev (tail_tokens e) ++ ts) =
  long_arms (expr_from_tokens fuel) (rev (tail_tokens e) ++ ts).
Proof. destruct e; try done; intros _; cbn [tail_tokens]; by rewrite rev_app_distr. Qed.

(** The parser finds the last operation, and reads its operands. *)
Lemma expr_level fuel e s d ts :
  node_readable (MkExpr e s d) →
  Forall (λ x, ∀ ts, expr_from_tokens fuel (rev (expr_tokens x) ++ ts) = Some (expr_canon x, ts))
    (operands e) →
  expr_from_tokens (S fuel) (rev (expr_tokens (MkExpr e s d)) ++ ts) =
  Some (expr_canon (MkExpr e s d), ts).
Proof.
  intros Hr Hops. unfold expr_tokens. rewrite expr_list_eq, rev_app_distr, <-app_assoc.
  fold expr_tokens.
  assert (∀ f x y, operands e = [x; y] →
    read_binary (expr_from_tokens fuel) f (rev (concat (map expr_tokens (operands e))) ++ ts) =
    Some (from_inner (f (expr_canon x) (expr_canon y)), ts)) as Hbin.
  { intros f x y Ho. rewrite Ho in *. rewrite !Forall_cons_iff in Hops. destruct Hops as (Hx & Hy & _).
    cbn. rewrite app_nil_r, rev_app_distr, <-app_assoc. unfold read_binary.
    rewrite Hy. cbn. by rewrite Hx. }
  assert (∀ f x, operands e = [x] →
    read_unary (expr_from_tokens fuel) f (rev (concat (map expr_tokens (operands e))) ++ ts) =
    Some (from_inner (f (expr_canon x)), ts)) as Hun.
  { intros f x Ho. rewrite Ho in *. rewrite Forall_cons_iff in Hops. destruct Hops as [Hx _].
    cbn. rewrite app_nil_r. unfold read_unary. by rewrite Hx. }
  clear Hops. set (ts' := rev (concat _) ++ ts) in *.
  destruct (one_token e) eqn:Hone.
  - destruct e; try done; cbn [tail_tokens rev app expr_from_tokens expr_canon canon_leaf];
      [|by apply Hbin|by apply Hbin|by apply Hbin|by apply Hun].
    unfold node_readable in Hr. cbn [as_inner] in Hr.
    rewrite (proj2 (bytes8_Some _ _)) by done. cbn. by rewrite i64_le_roundtrip.
  - rewrite level_long by done. pose proof (long_arms_tail (expr_from_tokens fuel) e s d ts' Hr) as Ht.
    destruct e; try done; rewrite Ht; cbn [expr_canon];
      first [by apply Hbin | by apply Hun | done].
Qed.

(** Enough fuel: the parser reads an expression off the tokens that end in it. *)
Lemma expr_from_tokens_complete x ts fuel :
  expr_all node_readable x → length (expr_tokens x) ≤ fuel →
  expr_from_tokens fuel (rev (expr_tokens x) ++ ts) = Some (expr_canon x, ts).
Proof.
  revert x ts fuel. apply (expr_ind' (λ x, ∀ ts fuel, expr_all node_readable x →
    length (expr_tokens x) ≤ fuel →
    expr_from_tokens fuel (rev (expr_tokens x) ++ ts) = Some (expr_canon x, ts))).
  intros e s d IH ts fuel [Hr Hrs]%expr_all_inv. cbn [as_inner] in *.
  assert (1 ≤ length (tail_tokens e)) as Hlen.
  { destruct e; cbn [tail_tokens]; rewrite ?length_app; cbn; lia. }
  unfold expr_tokens at 1. rewrite expr_list_eq, length_app. fold expr_tokens.
  destruct fuel as [|fuel]; [lia|]. intros Hf. apply expr_level; [done|].
  rewrite list.Forall_forall in *. intros x Hx ts1. apply IH; [done|by apply Hrs|].
  assert (length (expr_tokens x) ≤ length (concat (map expr_tokens (operands e)))); [|lia].
  clear -Hx. induction Hx as [l|y l Hx IH]; cbn; rewrite length_app; lia.
Qed.

Lemma expr_parse_complete x ts :
  expr_all node_readable x → expr_parse (rev (expr_tokens x) ++ ts) = Some (expr_canon x, ts).
Proof.
  intros Hr. apply expr_from_tokens_complete; [done|]. rewrite length_app, length_rev. lia.
Qed.

(** ** Comparisons *)

Definition inner_canon (a : ArithInner CovExtArgs) : ArithInner CovExtArgs :=
  match a with
  | AEq x y => AEq (expr_canon x) (expr_canon y)
  | ALt x y => ALt (expr_canon x) (expr_canon y)
  | ALeq x y => ALeq (expr_canon x) (expr_canon y)
  | AGt x y => AGt (expr_canon x) (expr_canon y)
  | AGeq x y => AGeq (expr_canon x) (expr_canon y)
  end.
Definition arith_canon (a : Arith CovExtArgs) : Arith CovExtArgs := MkArith (inner_canon (arith_expr a)).

Lemma from_inner_eq {T} (e : ExprInner T) : ∃ s d, from_inner e = MkExpr e s d.
Proof. unfold from_inner. destruct e; eauto. Qed.

Lemma expr_leaves_canon x : expr_leaves (expr_canon x) = map canon_leaf (expr_leaves x).
Proof.
  revert x. apply (expr_ind' (λ x, expr_leaves (expr_canon x) = map canon_leaf (expr_leaves x))).
  intros e s d IH. cbn [expr_canon].
  match goal with |- context [from_inner ?e] => destruct (from_inner_eq e) as (s' & d' & ->) end.
  destruct e; cbn [operands expr_leaves] in *; rewrite ?Forall_cons_iff in IH;
    try (destruct IH as (-> & -> & _); by rewrite map_app); try (by destruct IH as [-> _]); try done.
  by destruct i.
Qed.

Lemma oracles_ordered_canon a : oracles_ordered (inner_canon a) = oracles_ordered a.
Proof.
  unfold oracles_ordered.
  assert (arith_sides (inner_canon a) =
    (expr_canon (arith_sides a).1, expr_canon (arith_sides a).2)) as -> by (by destruct a).
  destruct (arith_sides a) as [x y]. cbn [fst snd]. rewrite !expr_leaves_canon.
  assert (∀ e : ExprInner CovExtArgs, is_oracle (canon_leaf e) = is_oracle e) as Ho
    by (by intros [| |[]| | | | | | | | | | | | | | |]).
  assert (∀ e : ExprInner CovExtArgs, is_oracle_w (canon_leaf e) = is_oracle_w e) as Hw
    by (by intros [| |[]| | | | | | | | | | | | | | |]).
  destruct (expr_leaves x) as [|l ls]; [done|]. cbn [map]. rewrite Hw. f_equal.
  rewrite <-map_app. generalize (ls ++ expr_leaves y). intros l'. induction l'; [done|].
  cbn. rewrite Ho. by f_equal.
Qed.

(** An [Arith] is one [Arith::new] made. *)
Definition arith_valid (a : Arith CovExtArgs) : Prop := oracles_ordered (arith_expr a) = true.

Lemma arith_from_tokens_complete a ts :
  arith_valid a → arith_all node_readable a →
  arith_from_tokens (rev (arith_tokens a) ++ ts) = Some (arith_canon a, ts).
Proof.
  intros Hv [Hx Hy]. unfold arith_valid in Hv. rewrite <-oracles_ordered_canon in Hv.
  assert (Arith_new (inner_canon (arith_expr a)) = Ok (arith_canon a)) as Hnew by (by apply Arith_new_Ok).
  unfold arith_tokens, arith_all in *.
  destruct (arith_expr a) as [x y|x y|x y|x y|x y]; cbn [arith_sides fst snd cmp_token inner_canon] in *;
    rewrite !rev_app_distr, <-!app_assoc; cbn [rev app arith_from_tokens];
    rewrite expr_parse_complete by done; cbn [mbind option_bind];
    rewrite expr_parse_complete by done; cbn [mbind option_bind]; by rewrite Hnew.
Qed.

Lemma arith_from_tokens_sound ts a ts' :
  arith_from_tokens ts = Some (a, ts') → ts = rev (arith_tokens a) ++ ts' ∧ arith_valid a.
Proof.
  unfold arith_from_tokens. destruct ts as [|t ts]; [done|].
  intros ([y ts1] & ->%expr_from_tokens_sound & ([x ts2] & ->%expr_from_tokens_sound
    & (inner & Hi & Hr)%bind_Some)%bind_Some)%bind_Some.
  destruct (Arith_new inner) as [a'| |] eqn:Hnew; try done. injection Hr as <- <-.
  apply Arith_new_Ok in Hnew as [-> Hv]. split; [|done].
  destruct t; try done; injection Hi as <-; unfold arith_tokens; cbn [arith_expr arith_sides cmp_token];
    rewrite !rev_app_distr, <-!app_assoc; done.
Qed.
End parse.

(** ** The script interface of extensions *)

Section instances.
Context `{Signatures} `{!ScriptBuilder} `{!ScriptBuilderOk} `{!XOnlySliceOk}.

Lemma expr_instrs_nonempty x : expr_instrs x ≠ [].
Proof.
  destruct x as [e s d]. unfold expr_instrs. rewrite expr_list_eq. apply app_ne_r.
  destruct e; try done; cbn [tail_instrs]; repeat apply app_ne_r; done.
Qed.

(** The sizes are right but for an equality, which ends in an [EQUAL] that takes a VERIFY
    for free while the fragment says it does not. *)
Definition arith_measured (a : Arith CovExtArgs) : Prop :=
  arith_all (node_fits (2 ^ 39)) a ∧ arith_all node_cached a ∧ cmp_opcode (arith_expr a) ≠ OP_EQUAL.

Lemma arith_free_verify a : cmp_opcode (arith_expr a) ≠ OP_EQUAL → ends_free_verify (arith_instrs a) = false.
Proof.
  intros Ha. unfold arith_instrs. destruct (arith_sides (arith_expr a)) as [x y].
  unfold ends_free_verify. rewrite !rev_app_distr. cbn [rev app].
  apply bool_decide_eq_false_2. intros [op Hop]. by destruct (arith_expr a).
Qed.

#[global, refine] Instance Arith_ParseableExtOk : ParseableExtOk (Arith CovExtArgs) := {|
  ext_instrs := arith_instrs;
  ext_encodable := arith_all (node_fits (2 ^ 63));
  ext_measured := arith_measured;
|}.
Proof.
  - intros a b l. apply arith_push_instrs.
  - intros a (Hf & Hc & _). by apply arith_size.
  - intros a (_ & _ & Ha). by apply arith_free_verify.
  - intros a. unfold arith_instrs. destruct (arith_sides _). repeat apply app_ne_r. done.
Defined.

#[global] Instance Arith_ExtChecks : ExtChecks (Arith CovExtArgs).
Proof. by split. Qed.

#[global, refine] Instance Arith_ParseableExtTokens : ParseableExtTokens (Arith CovExtArgs) := {|
  ext_tokens := arith_tokens;
|}.
Proof.
  - intros a. unfold arith_tokens. destruct (arith_sides _). repeat apply app_ne_r. done.
  - intros ts a ts'. cbn. destruct (arith_from_tokens ts) as [[a' ts1]|] eqn:Ha; [|done].
    intros [= <- <-]. by apply arith_from_tokens_sound in Ha as [-> _].
  - intros ts ts'. cbn. destruct (arith_from_tokens ts) as [[a' ts1]|]; [done|]. by intros [= ->].
Defined.

#[global] Instance Arith_TypesOk : ExtensionTypesOk (Arith CovExtArgs).
Proof. intros a. constructor; done. Qed.

#[global] Instance Arith_ResourcesOk : ExtensionResourcesOk (Arith CovExtArgs).
Proof. intros a. constructor; done. Qed.
End instances.
