(* ===== verification/ArithEval.v ===== *)
(** * Values of arithmetic fragments

    [Expr::eval] and [Expr::satisfy] of [src/src/extensions/arith.rs]: the values are
    exact and 64-bit, both compute the same value, and the witness [satisfy] finds is
    consumed by [eval]; the script of a fragment is parsed back to one that evaluates the
    same. *)

From S2P Require Import Prelude Types Extension Property Ast Typing Resources Tokens Context ScriptNum Script Encoding Lex DecodeLoop DecodeSound Lexing Interp Satisfy SatShape SatAccept IndexOps Arith ArithProps ArithParse.
From stdpp Require Import strings.

#[local] Arguments u64_to_le_bytes : simpl never.
#[local] Arguments i64_to_le_bytes : simpl never.

(** ** Bounds *)

Section bounds.
Context `{Signatures} `{OverflowChecks}.
Notation CovExpr := (Expr CovExtArgs).
Implicit Types env : TxEnv.

(** Explicit amounts are 64-bit. *)
Definition value_fits (v : Value) : Prop :=
  match explicit v with Some n => (n < 2 ^ 64)%N | None => True end.

Record amounts_fit env : Prop := {
  utxos_fit : Forall (λ o, value_fits (txout_value o)) (spent_utxos env);
  outputs_fit : Forall (λ o, value_fits (txout_value o)) (tx_output (env_tx env));
  issuances_fit : Forall (λ i, value_fits (issuance_amount i)) (tx_input (env_tx env));
  reissuances_fit : Forall (λ i, value_fits (issuance_inflation_keys i)) (tx_input (env_tx env));
}.

Lemma explicit_at_in {A} (l : list A) amount oob ne i v :
  Forall (λ x, value_fits (amount x)) l → explicit_at l amount oob ne i = Ok v → in_i64 v = true.
Proof.
  intros Hl. unfold explicit_at. case_match; [done|]. unfold unwrap.
  destruct (l !! N.to_nat i) as [x|] eqn:Hx; [|done]. cbn.
  eapply Forall_lookup_1 in Hl; [|exact Hx]. cbn in Hl. unfold value_fits in Hl.
  destruct (explicit (amount x)) as [n|]; [|done]. cbn. intros [= <-]. by apply as_i64_in.
Qed.

Definition const_fits (x : CovExpr) : Prop :=
  match as_inner x with EConst c => in_i64 c = true | _ => True end.

Lemma eval_leaf_in env e s d v :
  amounts_fit env → const_fits (MkExpr e s d) → eval_leaf env e = Ok v → in_i64 v = true.
Proof.
  intros [Hu Ho Hi Hr]. destruct e; try done; unfold const_fits; cbn [as_inner eval_leaf].
  - by intros ? [= <-].
  - intros _. by apply explicit_at_in.
  - intros _ (j & _ & Hj)%bind_Ok. by eapply explicit_at_in in Hj.
  - intros _ (j & _ & Hj)%bind_Ok. by eapply explicit_at_in in Hj.
  - intros _ (j & _ & Hj)%bind_Ok. by eapply explicit_at_in in Hj.
  - intros _ (j & _ & Hj)%bind_Ok. by eapply explicit_at_in in Hj.
Qed.

Lemma ok_or_Ok {E A} (e : E) (o : option A) a : ok_or e o = Ok a ↔ o = Some a.
Proof. destruct o; naive_solver. Qed.

(** *** Exact values

    What an operation computes, in the integers: the Euclidean quotient and remainder
    (the quotient has to be an [i64] for the remainder too), and the bits. *)
Definition exact_value (e : ExprInner CovExtArgs) (a b v : Z) : Prop :=
  match e with
  | EAdd _ _ => v = (a + b)%Z
  | ESub _ _ => v = (a - b)%Z
  | EMul _ _ => v = (a * b)%Z
  | EDiv _ _ => ∃ r, (a = b * v + r ∧ 0 ≤ r < Z.abs b)%Z
  | EMod _ _ => ∃ q, in_i64 q = true ∧ (a = b * q + v ∧ 0 ≤ v < Z.abs b)%Z
  | EBitAnd _ _ => ∀ i, Z.testbit v i = Z.testbit a i && Z.testbit b i
  | EBitOr _ _ => ∀ i, Z.testbit v i = Z.testbit a i || Z.testbit b i
  | EXor _ _ => ∀ i, Z.testbit v i = xorb (Z.testbit a i) (Z.testbit b i)
  | _ => False
  end.

(** The explicit amount of an entry. *)
Definition amount_at {A} (l : list A) (amount : A → Value) (i : N) (v : Z) : Prop :=
  ∃ x n, l !! N.to_nat i = Some x ∧ explicit (amount x) = Some n ∧ v = Z.of_N n.

(** The amount of a leaf; an index is what [idx_eval] makes it. *)
Definition leaf_value env (e : ExprInner CovExtArgs) (v : Z) : Prop :=
  match e with
  | EConst c => v = c
  | CurrInputIdx => amount_at (spent_utxos env) txout_value (env_idx env) v
  | EInput i => ∃ n, idx_eval i env = Ok n ∧ amount_at (spent_utxos env) txout_value n v
  | EOutput i => ∃ n, idx_eval i env = Ok n ∧ amount_at (tx_output (env_tx env)) txout_value n v
  | EInputIssue i => ∃ n, idx_eval i env = Ok n ∧ amount_at (tx_input (env_tx env)) issuance_amount n v
  | EInputReIssue i =>
      ∃ n, idx_eval i env = Ok n ∧ amount_at (tx_input (env_tx env)) issuance_inflation_keys n v
  | _ => False
  end.

(** The price an oracle leaves on the stack: the price, a time that is not after the one
    asked for, and a signature of the price at the time asked for. *)
Definition oracle_value (pk : CovExtArgs) (t : N) (stk : Stack) (v : Z) (rest : Stack) : Prop :=
  ∃ k e1 e2 e3 price time sig_bytes sig,
    pk = XOnlyKeyArg k ∧ stk = e1 :: e2 :: e3 :: rest ∧
    try_push e1 = Ok price ∧ try_push e2 = Ok time ∧ try_push e3 = Ok sig_bytes ∧
    length price = 8 ∧ length time = 8 ∧ schnorr_signature_from_slice sig_bytes = Some sig ∧
    (le_value time ≤ t)%N ∧ check_sig_price_oracle_1 sig k t (le_value price) = true ∧
    (le_value price < 2 ^ 63)%N ∧ v = Z.of_N (le_value price).

(** The value of an expression over the stack, every intermediate value an [i64]. *)
Inductive computes env : CovExpr → Stack → Z → Stack → Prop :=
  | computes_leaf e s d stk v :
      leaf_value env e v → computes env (MkExpr e s d) stk v stk
  | computes_binary e s d x y stk stk1 stk2 a b v :
      operands e = [x; y] → computes env x stk a stk1 → computes env y stk1 b stk2 →
      exact_value e a b v → in_i64 v = true → computes env (MkExpr e s d) stk v stk2
  | computes_invert s d x stk stk1 a :
      computes env x stk a stk1 → computes env (MkExpr (EInvert x) s d) stk (- a - 1) stk1
  | computes_negate s d x stk stk1 a :
      computes env x stk a stk1 → in_i64 (- a) = true →
      computes env (MkExpr (ENegate x) s d) stk (- a) stk1
  | computes_oracle e s d pk t stk v rest :
      e = EPriceOracle1 pk t ∨ e = EPriceOracle1W pk t → oracle_value pk t stk v rest →
      computes env (MkExpr e s d) stk v rest.

Lemma eval_binary_in e x y v :
  in_i64 x = true → in_i64 y = true → eval_binary e x y = Ok v → in_i64 v = true.
Proof.
  intros Hx Hy. destruct e; cbn [eval_binary]; try done; rewrite ?ok_or_Ok, ?checked_Some.
  1-3: by intros [-> ?].
  - apply checked_div_euclid_in.
  - by apply checked_rem_euclid_in.
  - intros [= <-]. apply in_i64_bits; try done; auto. intros a b. apply Z.shiftr_land.
  - intros [= <-]. apply in_i64_bits; try done; auto. intros a b. apply Z.shiftr_lor.
  - intros [= <-]. apply in_i64_bits; try done; auto. intros a b. apply Z.shiftr_lxor.
Qed.
(** Inversion of a sequence that returned. *)
Lemma m_bind_Ok {A B} (x : eval_m A) (f : A → eval_m B) stk stk' b :
  m_bind x f stk = (stk', Ok b) ↔ ∃ a stk1, x stk = (stk1, Ok a) ∧ f a stk1 = (stk', Ok b).
Proof. unfold m_bind. destruct (x stk) as [stk1 [a|?|]]; naive_solver. Qed.

Lemma m_lift_Ok {A} (r : result EvalError A) stk stk' a :
  m_lift r stk = (stk', Ok a) ↔ stk' = stk ∧ r = Ok a.
Proof. unfold m_lift. naive_solver. Qed.

Lemma eval_price_oracle_in pk t stk stk' v :
  eval_price_oracle pk t stk = (stk', Ok v) → in_i64 v = true.
Proof.
  unfold eval_price_oracle.
  do 10 (intros (? & ? & _ & Hr)%m_bind_Ok; revert Hr). case_match; [done|]. case_match; [|done].
  rewrite m_lift_Ok, ok_or_Ok, checked_Some. by intros (_ & -> & ?).
Qed.

Lemma eval_in_i64 env x stk stk' v :
  amounts_fit env → expr_all const_fits x → expr_eval env x stk = (stk', Ok v) → in_i64 v = true.
Proof.
  intros Henv. revert x stk stk' v. apply (expr_ind' (λ x, ∀ stk stk' v, expr_all const_fits x →
    expr_eval env x stk = (stk', Ok v) → in_i64 v = true)).
  intros e s d IH stk stk' v [Hc Hcs]%expr_all_inv. cbn [as_inner] in Hcs.
  destruct e; cbn [operands] in *; rewrite ?Forall_cons_iff in IH, Hcs; cbn [expr_eval];
    try (intros [_ Hr]%m_lift_Ok; by eapply eval_leaf_in);
    try (by apply eval_price_oracle_in).
  1-8: destruct IH as (IHx & IHy & _), Hcs as (Hx & Hy & _);
    intros (a & stk1 & Ha & (b & stk2 & Hb & [_ Hr]%m_lift_Ok)%m_bind_Ok)%m_bind_Ok;
    by eapply eval_binary_in in Hr; [| |by eapply IHy]; eauto.
  - destruct IH as [IHx _], Hcs as [Hx _]. intros (a & stk1 & Ha & [_ [= <-]]%m_lift_Ok)%m_bind_Ok.
    apply in_i64_lnot. eauto.
  - destruct IH as [IHx _], Hcs as [Hx _]. intros (a & stk1 & Ha & [_ Hr]%m_lift_Ok)%m_bind_Ok.
    rewrite ok_or_Ok, checked_Some in Hr. by destruct Hr as [-> ?].
Qed.

(** *** The operations are exact *)

Lemma div_euclid_unique x y q r :
  (x = y * q + r ∧ 0 ≤ r < Z.abs y)%Z → q = div_euclid x y ∧ r = (x mod Z.abs y)%Z.
Proof.
  intros [Hx Hr]. assert (y ≠ 0)%Z as Hy by lia.
  pose proof (div_euclid_spec x y Hy) as [Hx' Hr']. set (q' := div_euclid x y) in *.
  assert (y * (q - q') = x mod Z.abs y - r)%Z as Hd by lia.
  assert (q = q') as -> by (destruct (Z.eq_dec q q'); [done|nia]). lia.
Qed.

Lemma rem_quotient_fits x y :
  in_i64 x = true → y ≠ 0%Z → (x =? i64_MIN)%Z && (y =? -1)%Z = false → in_i64 (div_euclid x y) = true.
Proof.
  rewrite !in_i64_spec. intros Hx Hy Hmin. pose proof (div_euclid_spec x y Hy) as [Hq Hr].
  unfold i64_MIN in Hmin. apply andb_false_iff in Hmin. rewrite !Z.eqb_neq in Hmin.
  set (q := div_euclid x y) in *. set (r := (x mod Z.abs y)%Z) in *.
  destruct (Z.eq_dec y 1%Z) as [->|]; [lia|]. destruct (Z.eq_dec y (-1)%Z) as [->|]; [lia|]. nia.
Qed.

Lemma eval_binary_exact e a b v :
  in_i64 a = true → in_i64 b = true → eval_binary e a b = Ok v ↔ exact_value e a b v ∧ in_i64 v = true.
Proof.
  intros Ha Hb.
  assert (eval_binary e a b = Ok v → in_i64 v = true) as Hin by exact (eval_binary_in e a b v Ha Hb).
  destruct e; cbn [eval_binary exact_value] in *; try (split; [done|by intros [[] _]]);
    rewrite ?ok_or_Ok, ?checked_Some in *; try (by split; intros [-> ?]).
  - unfold checked_div_euclid in *. destruct (Z.eqb_spec b 0) as [->|Hb0].
    { split; [done|]. intros [(r & _ & Hr) _]. simpl in Hr. lia. }
    rewrite checked_Some. pose proof (div_euclid_spec a b Hb0). split.
    + intros [-> Hv]. split; [by eexists|done].
    + intros [(r & Hr) Hv]. apply div_euclid_unique in Hr as [-> _]. done.
  - unfold checked_rem_euclid in *. destruct (Z.eqb_spec b 0) as [->|Hb0].
    { split; [done|]. intros [(q & _ & _ & Hr) _]. simpl in Hr. lia. }
    pose proof (div_euclid_spec a b Hb0). destruct ((a =? i64_MIN)%Z && (b =? -1)%Z) eqn:Hmin.
    + split; [done|]. intros [(q & Hq & He) _]. apply div_euclid_unique in He as [-> _].
      apply andb_true_iff in Hmin as [->%Z.eqb_eq ->%Z.eqb_eq]. done.
    + split.
      * intros Hv. split; [|by apply Hin]. injection Hv as <-.
        exists (div_euclid a b). by split; [apply rem_quotient_fits|].
      * intros [(q & Hq & He) _]. by apply div_euclid_unique in He as [_ ->].
  - split; [intros [= <-]; split; [apply Z.land_spec|by apply Hin]|].
    intros [Hv _]. f_equal. apply Z.bits_inj. intros i. by rewrite Z.land_spec, Hv.
  - split; [intros [= <-]; split; [apply Z.lor_spec|by apply Hin]|].
    intros [Hv _]. f_equal. apply Z.bits_inj. intros i. by rewrite Z.lor_spec, Hv.
  - split; [intros [= <-]; split; [apply Z.lxor_spec|by apply Hin]|].
    intros [Hv _]. f_equal. apply Z.bits_inj. intros i. by rewrite Z.lxor_spec, Hv.
Qed.

(** The amounts are those of real coins, at most [i64::MAX]. *)
Definition value_is_money (v : Value) : Prop :=
  match explicit v with Some n => (n < 2 ^ 63)%N | None => True end.

Record amounts_money env : Prop := {
  utxos_money : Forall (λ o, value_is_money (txout_value o)) (spent_utxos env);
  outputs_money : Forall (λ o, value_is_money (txout_value o)) (tx_output (env_tx env));
  issuances_money : Forall (λ i, value_is_money (issuance_amount i)) (tx_input (env_tx env));
  reissuances_money : Forall (λ i, value_is_money (issuance_inflation_keys i)) (tx_input (env_tx env));
}.

Lemma money_fits v : value_is_money v → value_fits v.
Proof. unfold value_is_money, value_fits. destruct (explicit v); lia. Qed.

Lemma amounts_money_fit env : amounts_money env → amounts_fit env.
Proof. intros [Hu Ho Hi Hr]. split; [revert Hu|revert Ho|revert Hi|revert Hr];
    (intros Hf; eapply Forall_impl; [exact Hf|]; intros; by apply money_fits). Qed.

Lemma explicit_at_exact {A} (l : list A) amount oob ne i v :
  Forall (λ x, value_is_money (amount x)) l →
  explicit_at l amount oob ne i = Ok v ↔ amount_at l amount i v.
Proof.
  intros Hl. unfold explicit_at, amount_at. destruct (N.leb_spec (N.of_nat (length l)) i) as [Hi|Hi].
  { split; [done|]. intros (x & n & Hx & _). apply lookup_lt_Some in Hx. lia. }
  destruct (l !! N.to_nat i) as [x|] eqn:Hx; cbn; [|split; [done|naive_solver]].
  eapply Forall_lookup_1 in Hl; [|exact Hx]. cbn in Hl. unfold value_is_money in Hl.
  destruct (explicit (amount x)) as [n|] eqn:Hn; cbn; [|split; [done|naive_solver congruence]].
  unfold as_i64. destruct (N.ltb_spec n (2 ^ 63)); [|lia]. naive_solver congruence.
Qed.

Lemma eval_leaf_exact env e v :
  amounts_money env → eval_leaf env e = Ok v ↔ leaf_value env e v.
Proof.
  intros [Hu Ho Hi Hr]. destruct e; cbn [eval_leaf leaf_value]; try (split; by intros []); try (split; done);
    rewrite ?bind_Ok; try (by apply explicit_at_exact); try naive_solver.
  all: split; intros (n & Hn & Hv); exists n; (split; [done|]); by eapply explicit_at_exact.
Qed.

Lemma m_pop_Ok err stk stk' e : m_pop err stk = (stk', Ok e) ↔ stk = e :: stk'.
Proof. destruct stk; cbn; naive_solver. Qed.

Lemma m_push_Ok err e stk stk' b : m_push err e stk = (stk', Ok b) ↔ stk' = stk ∧ try_push e = Ok b.
Proof. unfold m_push. rewrite m_lift_Ok, map_err_Ok. done. Qed.

Lemma u64_from_le_bytes_Ok {E} (err : E) b n :
  u64_from_le_bytes err b = Ok n ↔ length b = 8 ∧ n = le_value b.
Proof. unfold u64_from_le_bytes. destruct (Nat.eqb_spec (length b) 8); naive_solver. Qed.

Lemma eval_price_oracle_exact pk t stk v rest :
  eval_price_oracle pk t stk = (rest, Ok v) ↔ oracle_value pk t stk v rest.
Proof.
  unfold eval_price_oracle, oracle_value. split.
  - intros (k & s0 & Hk & (e1 & s1 & He1%m_pop_Ok & (price & s2 & [-> Hp]%m_push_Ok
      & (p & s3 & [-> [Hpl ->]%u64_from_le_bytes_Ok]%m_lift_Ok & (e2 & s4 & He2%m_pop_Ok
      & (time & s5 & [-> Ht]%m_push_Ok & (tm & s6 & [-> [Htl ->]%u64_from_le_bytes_Ok]%m_lift_Ok
      & (e3 & s7 & He3%m_pop_Ok & (sb & s8 & [-> Hs]%m_push_Ok
      & (sig & s9 & [-> Hsig%ok_or_Ok]%m_lift_Ok & Hr)%m_bind_Ok)%m_bind_Ok)%m_bind_Ok)%m_bind_Ok)
      %m_bind_Ok)%m_bind_Ok)%m_bind_Ok)%m_bind_Ok)%m_bind_Ok)%m_bind_Ok.
    destruct pk as [k'| | | |]; try done. injection Hk as <- <-.
    destruct (N.ltb_spec t (le_value time)); [done|].
    destruct (check_sig_price_oracle_1 sig k' t (le_value price)) eqn:Hc; [|done].
    apply m_lift_Ok in Hr as [-> [-> Hin%in_i64_spec]%ok_or_Ok%checked_Some].
    exists k', e1, e2, e3, price, time, sb, sig. subst. split_and!; done || lia.
  - intros (k & e1 & e2 & e3 & price & time & sb & sig & -> & -> & Hp & Ht & Hs & Hpl & Htl & Hsig & Hle & Hc & Hv & ->).
    unfold m_bind, m_ret, m_pop, m_push, m_lift, u64_from_le_bytes. rewrite Hp. cbn.
    rewrite Hpl. cbn. rewrite Ht. cbn. rewrite Htl. cbn. rewrite Hs. cbn. rewrite Hsig. cbn.
    destruct (N.ltb_spec t (le_value time)); [lia|]. rewrite Hc.
    unfold checked. by rewrite (proj2 (in_i64_spec _)) by lia.
Qed.

(** [eval] returns a value exactly when the expression has one. *)
Lemma expr_eval_computes env x stk stk' v :
  amounts_money env → expr_all const_fits x →
  expr_eval env x stk = (stk', Ok v) ↔ computes env x stk v stk'.
Proof.
  intros Henv. revert x stk stk' v. apply (expr_ind' (λ x, ∀ stk stk' v, expr_all const_fits x →
    expr_eval env x stk = (stk', Ok v) ↔ computes env x stk v stk')).
  intros e s d IH stk stk' v [Hc Hcs]%expr_all_inv. cbn [as_inner] in Hcs.
  pose proof (amounts_money_fit _ Henv) as Hfit. split.
  - destruct e; cbn [operands] in *; rewrite ?Forall_cons_iff in IH, Hcs; cbn [expr_eval];
      try (intros [-> Hr]%m_lift_Ok; by apply computes_leaf, eval_leaf_exact);
      try (intros Hr%eval_price_oracle_exact; by eapply computes_oracle; [auto|]).
    1-8: destruct IH as (IHx & IHy & _), Hcs as (Hx & Hy & _);
      intros (a & stk1 & Ha & (b & stk2 & Hb & [-> Hr]%m_lift_Ok)%m_bind_Ok)%m_bind_Ok;
      apply eval_binary_exact in Hr as [Hr Hv];
        [|exact (eval_in_i64 _ _ _ _ _ Hfit Hx Ha)|exact (eval_in_i64 _ _ _ _ _ Hfit Hy Hb)]; 
      eapply computes_binary; [reflexivity|by apply IHx|by apply IHy|done|done].
    + destruct IH as [IHx _], Hcs as [Hx _]. intros (a & stk1 & Ha & [-> [= <-]]%m_lift_Ok)%m_bind_Ok.
      replace (Z.lnot a) with (- a - 1)%Z by (unfold Z.lnot; lia). by apply computes_invert, IHx.
    + destruct IH as [IHx _], Hcs as [Hx _]. intros (a & stk1 & Ha & [-> Hr]%m_lift_Ok)%m_bind_Ok.
      rewrite ok_or_Ok, checked_Some in Hr. destruct Hr as [-> ?]. by apply computes_negate; [apply IHx|].
  - intros Hv. inversion Hv as [? ? ? ? ? Hl|? ? ? x y ? stk1 ? a b ? Hop Ha Hb Hr Hin|? ? x ? ? a Ha
      |? ? x ? ? a Ha Hin|? ? ? pk t ? ? ? He Ho]; subst.
    + destruct e; try (by destruct Hl); cbn [expr_eval]; apply m_lift_Ok; (split; [done|]); by apply eval_leaf_exact.
    + rewrite Hop in IH, Hcs. rewrite !Forall_cons_iff in IH, Hcs.
      destruct IH as (IHx & IHy & _), Hcs as (Hx & Hy & _). apply IHx in Ha; [|done]. apply IHy in Hb; [|done].
      assert (eval_binary e a b = Ok v) as Hev by (apply eval_binary_exact;
        [exact (eval_in_i64 _ _ _ _ _ Hfit Hx Ha)|exact (eval_in_i64 _ _ _ _ _ Hfit Hy Hb)|done]).
      destruct e; try done; injection Hop as -> ->; cbn [expr_eval]; unfold m_bind, m_lift; by rewrite Ha, Hb, Hev.
    + apply Forall_cons_iff in IH as [IHx _], Hcs as [Hx _]. apply IHx in Ha; [|done].
      cbn [expr_eval]. unfold m_bind, m_ret. rewrite Ha. by replace (- a - 1)%Z with (Z.lnot a) by (unfold Z.lnot; lia).
    + apply Forall_cons_iff in IH as [IHx _], Hcs as [Hx _]. apply IHx in Ha; [|done].
      cbn [expr_eval]. unfold m_bind, m_lift, checked. by rewrite Ha, Hin.
    + destruct He as [-> | ->]; cbn [expr_eval]; by apply eval_price_oracle_exact.
Qed.
End bounds.

(** ** Satisfactions are evaluated to what they were made for *)

Section agree.
Context `{Signatures} `{OverflowChecks} `{!ScriptBuilder} `{!LeafHashes}.
Context {Pk : Type} `{MiniscriptKey Pk}.
Notation CovExpr := (Expr CovExtArgs).
Implicit Types (env : TxEnv) (s : Satisfier Pk).

(** The two copies of the arms, of [eval] and of [satisfy], agree. *)
Lemma satisfy_leaf_eval env e :
  satisfy_leaf env e = let? res := eval_leaf env e in Ok (res, sat_empty).
Proof. destruct e; cbn; try done; by destruct (idx_eval i env). Qed.

Lemma satisfy_binary_eval e x y : satisfy_binary e x y = eval_binary e x y.
Proof. by destruct e. Qed.

Lemma satisfy_cmp_eval a x y : satisfy_cmp a x y = arith_cmp a x y.
Proof. by destruct a. Qed.

(** What the documentation asks of a price oracle: asked for a price after the time [t],
    it answers with a price, a time that is not before [t] and its signature of that time
    and price, which is the serialization of a signature. *)
Record OracleHonest s : Prop := {
  oracle_price pk t sig price time :
    lookup_price_oracle_sig s pk t = Some (sig, price, time) →
    (t ≤ time < 2 ^ 64)%N ∧ (0 ≤ price < 2 ^ 63)%Z ∧
    check_sig_price_oracle_1 sig pk time (Z.to_N price) = true;
  oracle_sig pk t sig price time :
    lookup_price_oracle_sig s pk t = Some (sig, price, time) →
    schnorr_signature_from_slice (schnorr_as_ref sig) = Some sig ∧ 2 ≤ length (schnorr_as_ref sig);
}.

(** Whether every oracle of an expression answers with the very time asked for. *)
Definition oracle_on_time s (e : ExprInner CovExtArgs) : bool :=
  match e with
  | EPriceOracle1 (XOnlyKeyArg pk) t | EPriceOracle1W (XOnlyKeyArg pk) t =>
      match lookup_price_oracle_sig s pk t with Some (_, _, time) => (time =? t)%N | None => true end
  | _ => true
  end.

Fixpoint expr_on_time s (x : CovExpr) : bool :=
  let 'MkExpr e _ _ := x in
  oracle_on_time s e &&
  match e with
  | EAdd x y | ESub x y | EMul x y | EDiv x y | EMod x y | EBitAnd x y | EBitOr x y | EXor x y =>
      expr_on_time s x && expr_on_time s y
  | EInvert x | ENegate x => expr_on_time s x
  | _ => true
  end.

Definition arith_on_time s (a : Arith CovExtArgs) : bool :=
  let '(x, y) := arith_sides (arith_expr a) in expr_on_time s x && expr_on_time s y.

(** What an evaluation answers to a witness with honest oracles. *)
Definition answers {A} (on_time : bool) (r : Stack * result EvalError A) (stk : Stack) (v : A) : Prop :=
  if on_time then r = (stk, Ok v) else r.2 = Err TimestampInFuture.

Lemma answers_bind {A B} b1 b2 (x : eval_m A) (f : A → eval_m B) stk stk1 stk2 a v :
  answers b1 (x stk) stk1 a → answers b2 (f a stk1) stk2 v →
  answers (b1 && b2) (m_bind x f stk) stk2 v.
Proof.
  unfold answers, m_bind. destruct b1; cbn.
  - by intros ->.
  - destruct (x stk) as [s' r]. cbn. by intros ->.
Qed.

Lemma satisfy_price_oracle_eval s pk t v sat w stk :
  OracleHonest s → satisfy_price_oracle s pk t = Ok (v, sat) → wit sat = WStack w →
  answers (oracle_on_time s (EPriceOracle1 pk t)) (eval_price_oracle pk t (Stack_of w ++ stk)) stk v.
Proof.
  intros Hok. unfold satisfy_price_oracle, oracle_on_time. destruct pk as [k| | | |]; try done. cbn.
  destruct (lookup_price_oracle_sig s k t) as [[[sig price] time]|] eqn:Ho; [|done].
  intros [= <- <-] [= <-]. destruct (oracle_price s Hok _ _ _ _ _ Ho) as ((Ht & Ht64) & Hp & Hsig).
  destruct (oracle_sig s Hok _ _ _ _ _ Ho) as [Hfrom Hlen].
  unfold Stack_of. cbn [map rev app].
  rewrite !element_of_push by (done || rewrite ?i64_to_le_bytes_length, ?u64_to_le_bytes_length; lia).
  unfold answers, eval_price_oracle, m_bind, m_ret, m_pop, m_push, m_lift, u64_from_le_bytes.
  cbn [try_push map_err length ok_or Nat.eqb].
  rewrite i64_to_le_bytes_length, u64_to_le_bytes_length. cbn [Nat.eqb]. rewrite Hfrom. cbn [ok_or].
  rewrite u64_le_roundtrip by lia.
  destruct (N.eqb_spec time t) as [->|Hlate].
  - destruct (N.ltb_spec t t); [lia|].
    assert (le_value (i64_to_le_bytes price) = Z.to_N price) as ->.
    { unfold i64_to_le_bytes. rewrite u64_le_roundtrip by apply as_u64_lt. unfold as_u64.
      rewrite Z.mod_small; lia. }
    rewrite Hsig. rewrite Z2N.id by lia. unfold checked. rewrite (proj2 (in_i64_spec _)) by lia. done.
  - destruct (N.ltb_spec t time); [done|lia].
Qed.

Lemma wcombine_Stack a b w :
  wcombine a b = WStack w → ∃ wa wb, a = WStack wa ∧ b = WStack wb ∧ w = wa ++ wb.
Proof. destruct a, b; naive_solver. Qed.

(** [satisfy] and [eval] walk an expression in the same order, so that each oracle finds
    its witness on top of the stack. *)
Lemma expr_satisfy_eval env s x v sat w stk :
  OracleHonest s → expr_satisfy env s x = Ok (v, sat) → wit sat = WStack w →
  answers (expr_on_time s x) (expr_eval env x (Stack_of w ++ stk)) stk v.
Proof.
  intros Hok. revert x v sat w stk. apply (expr_ind' (λ x, ∀ v sat w stk,
    expr_satisfy env s x = Ok (v, sat) → wit sat = WStack w →
    answers (expr_on_time s x) (expr_eval env x (Stack_of w ++ stk)) stk v)).
  intros e sz d IH v sat w stk.
  destruct e; cbn [operands] in *; rewrite ?Forall_cons_iff in IH; cbn [expr_satisfy expr_eval expr_on_time];
    try (rewrite satisfy_leaf_eval; intros (r & Hr & [= <- <-])%bind_Ok [= <-]; unfold m_lift; by rewrite Hr);
    try (rewrite andb_true_r; by apply satisfy_price_oracle_eval).
  1-8: destruct IH as (IHx & IHy & _);
    intros ([a sa] & Ha & ([b sb] & Hb & (r & Hr & [= <- <-])%bind_Ok)%bind_Ok)%bind_Ok
      (wb & wa & Hwb & Hwa & ->)%wcombine_Stack;
    rewrite satisfy_binary_eval in Hr; rewrite Stack_of_app, <-app_assoc; cbn [oracle_on_time andb];
    eapply answers_bind; [exact (IHx _ _ _ _ Ha Hwa)|];
    rewrite <-(andb_true_r (expr_on_time s y));
    eapply answers_bind; [exact (IHy _ _ _ _ Hb Hwb)|]; unfold m_lift; by rewrite Hr.
  - destruct IH as [IHx _]. intros ([a sa] & Ha & [= <- <-])%bind_Ok Hw. cbn [oracle_on_time andb].
    rewrite <-(andb_true_r (expr_on_time s x)). by eapply answers_bind; [exact (IHx _ _ _ _ Ha Hw)|].
  - destruct IH as [IHx _]. intros ([a sa] & Ha & (r & Hr & [= <- <-])%bind_Ok)%bind_Ok Hw.
    cbn [oracle_on_time andb]. rewrite <-(andb_true_r (expr_on_time s x)).
    eapply answers_bind; [exact (IHx _ _ _ _ Ha Hw)|]. unfold m_lift. by rewrite Hr.
Qed.

Lemma arith_helper_evaluate env s a sat w stk :
  OracleHonest s → arith_satisfy_helper env s a = Ok sat → wit sat = WStack w →
  if arith_on_time s a then arith_evaluate a (Stack_of w ++ stk) (Some env) = (Satisfied :: stk, Ok true)
  else (arith_evaluate a (Stack_of w ++ stk) (Some env)).2 = Err (ArithError TimestampInFuture).
Proof.
  intros Hok. unfold arith_satisfy_helper, arith_on_time, arith_evaluate, arith_eval.
  destruct (arith_sides (arith_expr a)) as [x y].
  intros ([b sb] & Hb & ([c sc] & Hc & Hr)%bind_Ok)%bind_Ok.
  rewrite satisfy_cmp_eval in Hr. destruct (arith_cmp (arith_expr a) b c) eqn:Hcmp; [|by injection Hr as <-].
  injection Hr as <-. intros (wc & wb & Hwc & Hwb & ->)%wcombine_Stack.
  rewrite Stack_of_app, <-app_assoc.
  assert (answers (expr_on_time s x && expr_on_time s y)
    (m_bind (expr_eval env x) (λ x, m_bind (expr_eval env y) (λ y, m_ret (arith_cmp (arith_expr a) x y)))
      (Stack_of wb ++ Stack_of wc ++ stk)) stk true) as Hans.
  { eapply answers_bind; [exact (expr_satisfy_eval _ _ _ _ _ _ _ Hok Hb Hwb)|].
    rewrite <-(andb_true_r (expr_on_time s y)).
    eapply answers_bind; [exact (expr_satisfy_eval _ _ _ _ _ _ _ Hok Hc Hwc)|]. unfold m_ret. by rewrite Hcmp. }
  unfold answers in Hans. destruct (expr_on_time s x && expr_on_time s y); [by rewrite Hans|].
  destruct (m_bind _ _ _) as [stk' r]. cbn in Hans. by rewrite Hans.
Qed.

(** *** Without oracles *)

Definition oracle_free (x : CovExpr) : Prop :=
  match as_inner x with EPriceOracle1 _ _ | EPriceOracle1W _ _ => False | _ => True end.

Lemma bind_fst {E A B} (r : result E A) (b : B) :
  (let? (v, _) := (let? x := r in Ok (x, b)) in Ok v) = r.
Proof. by destruct r. Qed.

(** Such an expression does not touch the stack, and needs no witness. *)
Lemma expr_eval_free env s x stk :
  expr_all oracle_free x →
  expr_eval env x stk = (stk, let? (v, _) := expr_satisfy env s x in Ok v) ∧
  ∀ v sat, expr_satisfy env s x = Ok (v, sat) → wit sat = wempty.
Proof.
  revert x stk. apply (expr_ind' (λ x, ∀ stk, expr_all oracle_free x →
    expr_eval env x stk = (stk, let? (v, _) := expr_satisfy env s x in Ok v) ∧
    ∀ v sat, expr_satisfy env s x = Ok (v, sat) → wit sat = wempty)).
  intros e sz d IH stk [Hf Hfs]%expr_all_inv. cbn [as_inner] in *. unfold oracle_free in Hf.
  destruct e; cbn [as_inner operands] in *; rewrite ?Forall_cons_iff in IH, Hfs; try done;
    cbn [expr_satisfy expr_eval];
    try (rewrite satisfy_leaf_eval; unfold m_lift;
      split; [by rewrite bind_fst|by intros v sat (? & _ & [= <- <-])%bind_Ok]);
    rewrite ?satisfy_binary_eval.
  1-8: destruct IH as (IHx & IHy & _), Hfs as (Hx & Hy & _);
    destruct (IHx stk Hx) as [Hex Hwx], (IHy stk Hy) as [Hey Hwy]; unfold m_bind; rewrite Hex;
    destruct (expr_satisfy env s x) as [[a sa]| |]; cbn [result_bind]; try done; rewrite Hey;
    destruct (expr_satisfy env s y) as [[b sb]| |]; cbn [result_bind]; try done; unfold m_lift;
    (split; [by rewrite bind_fst|]);
    intros v sat (r & _ & [= <- <-])%bind_Ok; cbn; by rewrite (Hwx _ _ eq_refl), (Hwy _ _ eq_refl).
  - destruct IH as [IHx _], Hfs as [Hx _]. destruct (IHx stk Hx) as [Hex Hwx]. unfold m_bind.
    rewrite Hex. destruct (expr_satisfy env s x) as [[a sa]| |]; cbn [result_bind]; try done. split; [done|].
    intros v sat [= <- <-]. by apply (Hwx a).
  - destruct IH as [IHx _], Hfs as [Hx _]. destruct (IHx stk Hx) as [Hex Hwx]. unfold m_bind.
    rewrite Hex. destruct (expr_satisfy env s x) as [[a sa]| |]; cbn [result_bind]; try done. unfold m_lift.
    split; [by rewrite bind_fst|].
    intros v sat (r & _ & [= <- <-])%bind_Ok. by apply (Hwx a).
Qed.

(** The satisfaction of a fragment without oracles: nothing is found for a false
    comparison, and otherwise the empty witness, which the interpreter takes when the
    comparison holds and refuses with the error of the evaluation when there is one. *)
Lemma arith_free_satisfy env s a stk sat :
  arith_all oracle_free a → satisfier_env s = Some env → arith_satisfy a s = Ok sat →
  (wit sat = Impossible ∧ arith_evaluate a stk (Some env) = (Dissatisfied :: stk, Ok false)) ∨
  (wit sat = WStack [] ∧ (arith_evaluate a stk (Some env) = (Satisfied :: stk, Ok true) ∨
     ∃ e, arith_evaluate a stk (Some env) = (stk, Err (ArithError e)))).
Proof.
  intros [Hx Hy] He. unfold arith_satisfy. rewrite He.
  unfold arith_satisfy_helper, arith_evaluate, arith_eval, m_bind.
  destruct (arith_sides (arith_expr a)) as [x y]. cbn [fst snd] in *.
  destruct (expr_eval_free env s x stk Hx) as [Hex Hwx], (expr_eval_free env s y stk Hy) as [Hey Hwy].
  rewrite Hex. destruct (expr_satisfy env s x) as [[b sb]|e|]; cbn; [|intros [= <-]; eauto|done].
  rewrite Hey. destruct (expr_satisfy env s y) as [[c sc]|e|]; cbn; [|intros [= <-]; eauto|done].
  rewrite satisfy_cmp_eval. unfold m_ret. destruct (arith_cmp (arith_expr a) b c); cbn; intros [= <-]; cbn; [|by left].
  rewrite (Hwx _ _ eq_refl), (Hwy _ _ eq_refl). right. split; [done|by left].
Qed.
End agree.

(** ** What is read back evaluates the same *)

Section canon.
Context `{Signatures} `{OverflowChecks}.
Notation CovExpr := (Expr CovExtArgs).

Lemma expr_eval_from_inner env e stk s d :
  expr_eval env (from_inner e) stk = expr_eval env (MkExpr e s d) stk.
Proof. destruct (from_inner_eq e) as (s' & d' & ->). by destruct e. Qed.

Lemma m_bind_ext {A B} (x y : eval_m A) (f g : A → eval_m B) stk :
  (∀ stk, x stk = y stk) → (∀ a stk, f a stk = g a stk) → m_bind x f stk = m_bind y g stk.
Proof. intros Hx Hf. unfold m_bind. rewrite Hx. destruct (y stk) as [stk' [a| |]]; [apply Hf|done..]. Qed.

Lemma expr_eval_canon env (x : CovExpr) stk : expr_eval env (expr_canon x) stk = expr_eval env x stk.
Proof.
  revert x stk. apply (expr_ind' (λ x, ∀ stk, expr_eval env (expr_canon x) stk = expr_eval env x stk)).
  intros e s d IH stk. cbn [expr_canon]. rewrite (expr_eval_from_inner env _ stk s d).
  destruct e; cbn [operands] in IH; rewrite ?Forall_cons_iff in IH; try done.
  2-9: destruct IH as (IHx & IHy & _); cbn [expr_eval]; apply m_bind_ext; [done|]; intros a stk1;
    apply m_bind_ext; done.
  - by destruct i.
  - destruct IH as [IHx _]. by apply m_bind_ext.
  - destruct IH as [IHx _]. by apply m_bind_ext.
Qed.

Lemma arith_evaluate_canon a stk txenv :
  arith_evaluate (arith_canon a) stk txenv = arith_evaluate a stk txenv.
Proof.
  unfold arith_evaluate. destruct txenv as [env|]; [|done].
  assert (arith_eval env (arith_canon a) stk = arith_eval env a stk) as ->; [|done].
  unfold arith_eval, arith_canon. cbn [arith_expr].
  destruct (arith_expr a); cbn [inner_canon arith_sides]; (apply m_bind_ext;
    [intros; apply expr_eval_canon|]); intros v stk1; (apply m_bind_ext; [intros; apply expr_eval_canon|]);
    done.
Qed.
End canon.

(** ** The theorems *)

Section theorems.
Context `{Signatures} `{OverflowChecks} `{!ScriptBuilder} `{!ScriptBuilderOk} `{!XOnlySliceOk} `{!SignaturesOk}.
Implicit Types a : Arith CovExtArgs.

(** (C37) The script of an arithmetic fragment is a script of it: encoded, lexed
    and parsed it is the fragment again, up to the two spellings of the amount of the
    current input and the cached sizes, and it evaluates the same on every stack and
    transaction.  The constants of indices are numbers a script can hold (below 2^31),
    and oracle parameters are keys. *)
Theorem arith_script_roundtrip a :
  arith_valid a → arith_all node_readable a → arith_all (node_fits (2 ^ 31)) a →
  ∃ b ts a', push_to_builder a builder_new = Ok b ∧ lex (into_script b) = Ok ts ∧
    from_token_iter (rev ts) = (Some a', []) ∧
    a' = arith_canon a ∧ ∀ stk txenv, ext_evaluate a' stk txenv = ext_evaluate a stk txenv.
Proof.
  intros Hv Hr Hf.
  assert (arith_all (node_fits (2 ^ 63)) a) as Hf63.
  { destruct Hf as [Hx Hy]. split; (eapply expr_all_impl; [|eassumption]); intros z Hz;
      unfold node_fits in *; destruct (as_inner z); try done; cbn [leaf_idx] in *;
      by (eapply idx_within_mono; [|exact Hz]). }
  destruct (arith_push_instrs a _ _ Hf63 has_new) as (b & Hb & Hi).
  exists b, (arith_tokens a), (arith_canon a). split_and!; [done| | |done|apply arith_evaluate_canon].
  - unfold lex. unfold has_instrs in Hi. rewrite Hi. cbn [app].
    destruct (lexes_arith a Hf []) as [Hl _]; [done|]. unfold lex_all in Hl. rewrite Hl. cbn.
    by rewrite app_nil_r, rev_involutive.
  - cbn. rewrite <-(app_nil_r (rev (arith_tokens a))). by rewrite arith_from_tokens_complete.
Qed.


Section satisfier.
Context `{!LeafHashes} {Pk : Type} `{MiniscriptKey Pk}.
Implicit Types s : Satisfier Pk.

(** (C36) How a satisfaction of an arithmetic fragment is received, with oracles that
    answer as documented (a time not before the one asked for, signed with the price):
    when every oracle signed the very time asked for, the witness [satisfy_helper] returns
    is consumed by [evaluate] from the top of any stack, element for element, and the
    fragment is true; when one signed a later time, as the documentation asks, [evaluate]
    refuses it as in the future. *)
Theorem arith_satisfaction_accepted env s a sat w stk :
  OracleHonest s → arith_satisfy_helper env s a = Ok sat → wit sat = WStack w →
  if arith_on_time s a
  then ext_evaluate a (Stack_of w ++ stk) (Some env) = (Satisfied :: stk, Ok true)
  else (ext_evaluate a (Stack_of w ++ stk) (Some env)).2 = Err (ArithError TimestampInFuture).
Proof. apply arith_helper_evaluate. Qed.

(** (C38) Where the evaluation has no error, a fragment without oracles is what the
    soundness of the satisfier asks of an extension: what is found is accepted and
    leaves no trace, and nothing is offered against it.  (On an error [satisfy] returns
    the empty witness, which the interpreter refuses.) *)
Theorem arith_ext_accepted (ienv : Env) env s a :
  arith_all oracle_free a → satisfier_env s = Some env → txenv ienv = Some env →
  (∀ stk e, (ext_evaluate a stk (Some env)).2 ≠ Err e) →
  ext_accepted ienv s a.
Proof.
  intros Hf Hs Ht Hne.
  assert (∀ w stk, found (ext_satisfy a s) w →
    w = [] ∧ ext_evaluate a stk (Some env) = (Satisfied :: stk, Ok true)) as Hacc.
  { intros w stk (sat & Hsat & Hw).
    destruct (arith_free_satisfy env s a stk sat Hf Hs Hsat) as [[Hi _]|(Hw' & [Hev|[e Hev]])];
      [congruence|..].
    - split; [congruence|done].
    - destruct (Hne stk (ArithError e)). by apply (f_equal snd) in Hev. }
  split.
  - split; [intros w _ Hw; by destruct (Hacc w [] Hw)|by intros w _ (? & [= <-] & ?)|done].
  - done.
  - intros w stk Hw. rewrite Ht. destruct (Hacc w stk Hw) as [-> Hev]. exact Hev.
  - by intros w stk (? & [= <-] & ?).
Qed.
End satisfier.
End theorems.
