(* ===== verification/ArithSamples.v ===== *)
(** * Arithmetic fragments on samples

    A transaction, fragments with and without price oracles, their scripts and
    evaluation, and the theorems of [ArithEval.v] on them. *)

From S2P Require Import Prelude Types Extension Instances Property Ast Examples Typing Resources Tokens Context ScriptNum Script Encoding Builder Lex Lexing Interp Satisfy SatShape SatAccept SatSamples IndexOps Arith ArithProps ArithParse ArithEval.
From stdpp Require Import strings.

#[export] Instance demo_OverflowChecks : OverflowChecks := true.

#[export] Instance demo_XOnlySliceOk : XOnlySliceOk.
Proof.
  split; [done|]. intros b k. cbn. unfold slice_of. destruct b as [|x b]; [done|].
  case_bool_decide as Hb; [|done]. by intros [= ->].
Qed.

Notation DemoArith := (Arith CovExtArgs).
Notation DemoExpr := (Expr CovExtArgs).

(** One input of 200, whose issued amounts are 7 and null; outputs of 150 and 50, and one
    that is blinded. *)
Definition demo_out (v : Confidential N Byte.byte) : DemoTxOut := MkDemoTxOut v Null [].
Definition demo_tx : Transaction :=
  ([(Explicit 7%N, Null)],
   [demo_out (Explicit 150%N); demo_out (Explicit 50%N); demo_out (Commitment Byte.x08)]).
Definition demo_txenv : TxEnv := MkTxEnv demo_tx [demo_out (Explicit 200%N)] 0.

Lemma demo_amounts_money : amounts_money demo_txenv.
Proof. split; repeat constructor. Qed.

(** *** Fragments *)

Definition const (z : Z) : DemoExpr := from_inner (EConst z).
Definition out_v (i : N) : DemoExpr := from_inner (EOutput (IdxConst i)).
Definition bin (f : DemoExpr → DemoExpr → ExprInner CovExtArgs) (x y : DemoExpr) : DemoExpr :=
  from_inner (f x y).
Definition oracle_key : CovExtArgs := XOnlyKeyArg Byte.x09.

(** [num64_gt(add(out_v(0),out_v(1)),div(inp_v(curr_idx),-3))] *)
Definition covenant : DemoArith :=
  MkArith (AGt (bin EAdd (out_v 0) (out_v 1)) (bin EDiv (from_inner (EInput CurrIdx)) (const (-3)))).

(** [num64_leq(mul(price_oracle1(K,1000),out_v(1)),price_oracle1_w(K,2000))] *)
Definition priced : DemoArith :=
  MkArith (ALeq (bin EMul (from_inner (EPriceOracle1 oracle_key 1000)) (out_v 1))
                (from_inner (EPriceOracle1W oracle_key 2000))).

Example covenant_new : Arith_new (arith_expr covenant) = Ok covenant.
Proof. reflexivity. Qed.
Example priced_new : Arith_new (arith_expr priced) = Ok priced.
Proof. reflexivity. Qed.
(** [price_oracle1_w] cannot come first. *)
Example w_first : Arith_new (AEq (from_inner (EPriceOracle1W oracle_key 1)) (const 0)) = Err PriceOracle1WFirst.
Proof. reflexivity. Qed.

(** *** Evaluation *)

(** 150 + 50 > 200 div -3 = -66, remainder 2 *)
Example covenant_true : arith_evaluate covenant [] (Some demo_txenv) = ([Satisfied], Ok true).
Proof. vm_compute. reflexivity. Qed.
Example euclid : (checked_div_euclid (-7) 2, checked_rem_euclid (-7) 2,
                  checked_div_euclid i64_MIN (-1), checked_rem_euclid i64_MIN (-1)) = (Some (-4), Some 1, None, None)%Z.
Proof. vm_compute. reflexivity. Qed.
(** The blinded output has no amount. *)
Example blinded :
  arith_evaluate (MkArith (AEq (out_v 2) (const 0))) [] (Some demo_txenv) = ([], Err (ArithError (NonExplicitOutput 2))).
Proof. vm_compute. reflexivity. Qed.
(** An issuance that is null is no explicit zero. *)
Example null_issuance :
  arith_evaluate (MkArith (AEq (from_inner (EInputReIssue CurrIdx)) (const 0))) [] (Some demo_txenv)
  = ([], Err (ArithError (NonExplicitInputReIssuance 0))).
Proof. vm_compute. reflexivity. Qed.

(** A satisfier with the transaction and oracle prices: 3 at the time asked for. *)
Definition arith_satisfier : Satisfier DemoKey :=
  let s := txenv_satisfier (Pk := DemoKey) demo_txenv in
  {|
  lookup_ecdsa_sig := lookup_ecdsa_sig s;
  lookup_tap_key_spend_sig := lookup_tap_key_spend_sig s;
  lookup_tap_leaf_script_sig := lookup_tap_leaf_script_sig s;
  lookup_raw_pkh_pk := lookup_raw_pkh_pk s;
  lookup_raw_pkh_x_only_pk := lookup_raw_pkh_x_only_pk s;
  lookup_raw_pkh_ecdsa_sig := lookup_raw_pkh_ecdsa_sig s;
  lookup_raw_pkh_tap_leaf_script_sig := lookup_raw_pkh_tap_leaf_script_sig s;
  lookup_sha256 := lookup_sha256 s;
  lookup_hash256 := lookup_hash256 s;
  lookup_ripemd160 := lookup_ripemd160 s;
  lookup_hash160 := lookup_hash160 s;
  check_older := check_older s;
  check_after := check_after s;
  lookup_nversion := lookup_nversion s;
  lookup_hashprevouts := lookup_hashprevouts s;
  lookup_hashsequence := lookup_hashsequence s;
  lookup_hashissuances := lookup_hashissuances s;
  lookup_outpoint := lookup_outpoint s;
  lookup_scriptcode := lookup_scriptcode s;
  lookup_value := lookup_value s;
  lookup_nsequence := lookup_nsequence s;
  lookup_outputs := lookup_outputs s;
  lookup_nlocktime := lookup_nlocktime s;
  lookup_sighashu32 := lookup_sighashu32 s;
  lookup_tx := lookup_tx s;
  lookup_spent_utxos := lookup_spent_utxos s;
  lookup_curr_inp := lookup_curr_inp s;
  lookup_csfs_sig := lookup_csfs_sig s;
  lookup_price_oracle_sig pk t :=
    if (t <? 2 ^ 64)%N then Some (pk, if (t =? 1000)%N then 3%Z else 160%Z, t) else None;
|}.

Lemma arith_satisfier_ok : OracleHonest arith_satisfier.
Proof.
  split; intros pk t s price time; cbn [lookup_price_oracle_sig arith_satisfier];
    destruct (N.ltb_spec t (2 ^ 64)) as [Ht|]; try done; intros [= <- <- <-].
  split; [by split|]. split; [by destruct (t =? 1000)%N|].
  unfold check_sig_price_oracle_1. cbn. by apply bool_decide_eq_true_2.
Qed.

(** Both oracles leave a signature, a time and a price; that of the expression that is
    evaluated first comes last, on top. *)
Definition priced_witness : list bytes :=
  [[Byte.x50; Byte.x09]; u64_to_le_bytes 2000; u64_to_le_bytes 160;
   [Byte.x50; Byte.x09]; u64_to_le_bytes 1000; u64_to_le_bytes 3].

Example priced_satisfy : arith_satisfy priced arith_satisfier = Ok (MkSatisfaction (WStack priced_witness) false).
Proof. vm_compute. reflexivity. Qed.

(** A transaction for which the evaluation has an error: [satisfy] still returns the
    empty witness, which is refused. *)
Example error_is_empty :
  let bad := MkArith (AEq (out_v 2) (const 0)) in
  arith_satisfy bad arith_satisfier = Ok sat_empty ∧
  ∃ e, arith_evaluate bad [] (Some demo_txenv) = ([], Err e).
Proof. split; [vm_compute; reflexivity|eexists; vm_compute; reflexivity]. Qed.

(** A time after the one of the script is refused, although the script asks for a
    signed time that is no earlier. *)
Example later_time :
  eval_price_oracle oracle_key 1000
    (Stack_of [[Byte.x50; Byte.x09]; u64_to_le_bytes 1001; u64_to_le_bytes 3])
  = ([], Err TimestampInFuture).
Proof. vm_compute. reflexivity. Qed.

(** ** The theorems on the samples *)

Lemma covenant_scriptable :
  arith_valid covenant ∧ arith_all node_readable covenant ∧ arith_all (node_fits (2 ^ 31)) covenant.
Proof. vm_compute. intuition congruence. Qed.

Lemma arith_script_roundtrip_witness :
  ∃ b ts a', push_to_builder covenant builder_new = Ok b ∧ lex (into_script b) = Ok ts ∧
    from_token_iter (rev ts) = (Some a', []) ∧
    a' = arith_canon covenant ∧ ∀ stk txenv, ext_evaluate a' stk txenv = ext_evaluate covenant stk txenv.
Proof.
  apply (arith_script_roundtrip covenant);
    [exact (proj1 covenant_scriptable)|exact (proj1 (proj2 covenant_scriptable))
    |exact (proj2 (proj2 covenant_scriptable))].
Defined.

(** The fragment read back takes the current input by its own name. *)
Example covenant_canon :
  arith_canon covenant =
  MkArith (AGt (bin EAdd (out_v 0) (out_v 1)) (bin EDiv (from_inner CurrInputIdx) (const (-3)))).
Proof. vm_compute. reflexivity. Qed.


Lemma arith_satisfaction_accepted_witness :
  arith_satisfy_helper demo_txenv arith_satisfier priced = Ok (MkSatisfaction (WStack priced_witness) false) ∧
  ext_evaluate priced (Stack_of priced_witness ++ [Satisfied]) (Some demo_txenv) = ([Satisfied; Satisfied], Ok true).
Proof.
  assert (arith_satisfy_helper demo_txenv arith_satisfier priced
    = Ok (MkSatisfaction (WStack priced_witness) false)) as Hs by (vm_compute; reflexivity).
  split; [exact Hs|].
  exact (arith_satisfaction_accepted demo_txenv arith_satisfier priced _ priced_witness [Satisfied]
    arith_satisfier_ok Hs eq_refl).
Defined.

(** The interpreter's environment, with the transaction. *)
Definition arith_ienv : Env := MkEnv (λ _, true) (Some demo_txenv) 200 2000 Schnorr.

Lemma arith_ext_accepted_witness : ext_accepted arith_ienv arith_satisfier covenant.
Proof.
  apply (arith_ext_accepted arith_ienv demo_txenv arith_satisfier covenant);
    [vm_compute; repeat split|reflexivity|reflexivity|].
  intros stk e. discriminate.
Defined.
