(* ===== verification/CompCost.v ===== *)
(** * Costs of the policy compiler: [src/policy/compiler.rs], first part

    The floating point operations the compiler uses, the cost of a fragment
    ([CompilerExtData], a [Property]) and its type checker, and the keys under which
    the compiler stores its candidates. *)

From S2P Require Import Prelude Types Extension Property Ast Tokens Context Lift.
From S2P Require Semantic Concrete.
Import Semantic(MiniscriptKeyEq).

(** ** Floating point numbers

    [f64] with the operations of the compiler, beside those of [F64].
    [f64_partial_cmp] is [None] when an argument is NaN. *)
Class F64Arith `{F64} : Type := {
  f64_add : f64 → f64 → f64;
  f64_sub : f64 → f64 → f64;
  f64_MAX : f64;
  f64_INFINITY : f64;
  f64_partial_cmp : f64 → f64 → option comparison;
}.

(** What IEEE 754 promises of comparison: equality is an equivalence of the numbers
    that are not NaN. *)
Class F64ArithOk `{F64Arith} : Prop := {
  f64_cmp_refl x : f64_partial_cmp x x = Some Eq ∨ f64_partial_cmp x x = None;
  f64_cmp_sym x y : f64_partial_cmp x y = Some Eq → f64_partial_cmp y x = Some Eq;
  f64_cmp_trans x y z :
    f64_partial_cmp x y = Some Eq → f64_partial_cmp y z = Some Eq → f64_partial_cmp x z = Some Eq;
}.

(** ** Errors *)

(** [CompilerError] *)
Inductive CompilerError : Type :=
  | TopLevelNonSafe
  | ImpossibleNonMalleableCompilation
  | LimitsExceeded
  | CompilerPolicyError (e : PolicyError).

(** Why a run of the compiler stops without a Miniscript: an error, the panic of
    [OrdF64::cmp] on NaN ("will panic if given NaN"), kept apart from the panics that
    the program takes for impossible, or the fuel of the model. *)
Inductive Stop : Type :=
  | StopErr (e : CompilerError)
  | StopNaN
  | StopFuel.

Section floats.
Context `{F64Arith}.

Abbreviation num := f64_of_usize.

Definition f64_le (x y : f64) : bool :=
  match f64_partial_cmp x y with Some (Lt | Eq) => true | _ => false end.
Definition f64_ge (x y : f64) : bool :=
  match f64_partial_cmp x y with Some (Gt | Eq) => true | _ => false end.
Definition f64_lt (x y : f64) : bool :=
  match f64_partial_cmp x y with Some Lt => true | _ => false end.

(** [OrdF64::cmp] *)
Definition OrdF64_cmp (x y : f64) : result Stop comparison :=
  match f64_partial_cmp x y with Some c => Ok c | None => Err StopNaN end.

(** The derived [Ord] of [Option<OrdF64>]: [None] is below every [Some]. *)
Definition prob_cmp (x y : option f64) : result Stop comparison :=
  match x, y with
  | Some x, Some y => OrdF64_cmp x y
  | None, None => Ok Eq
  | None, Some _ => Ok Lt
  | Some _, None => Ok Gt
  end.

(** The derived [PartialEq] of [Option<OrdF64>]. *)
Definition prob_eqb (x y : option f64) : bool :=
  match prob_cmp x y with Ok Eq => true | _ => false end.

(** [debug_assert_eq!] on probabilities. *)
Definition debug_assert_prob (x y : option f64) : result Stop unit :=
  match prob_cmp x y with
  | Ok Eq => Ok tt
  | Ok _ => Panic
  | Err e => Err e
  | Panic => Panic
  end.

(** ** [CompilerExtData] *)

Record CompilerExtData : Type := MkComp {
  branch_prob : option f64;
  sat_cost : f64;
  dissat_cost : option f64;
}.

Implicit Types (self l r a b c : CompilerExtData).

Definition from_true : CompilerExtData := MkComp None (num 0) None.
Definition from_false : CompilerExtData := MkComp None f64_MAX (Some (num 0)).

Definition from_pk_k (ctx : ScriptContext) : CompilerExtData :=
  MkComp None
    match sig_type ctx with
    | Ecdsa => num 73
    | Schnorr => f64_add (f64_add (num 1) (num 64)) (num 1)
    end (Some (num 1)).

Definition from_pk_h (ctx : ScriptContext) : CompilerExtData :=
  MkComp None
    match sig_type ctx with
    | Ecdsa => f64_add (num 73) (num 34)
    | Schnorr => f64_add (num 66) (num 33)
    end
    (Some (f64_add (num 1) match sig_type ctx with Ecdsa => num 34 | Schnorr => num 33 end)).

Definition from_multi (k n : nat) : CompilerExtData :=
  MkComp None (f64_add (num 1) (f64_mul (num 73) (num k))) (Some (f64_mul (num 1) (num (k + 1)))).

Definition from_multi_a (k n : nat) : CompilerExtData :=
  MkComp None (f64_add (f64_mul (num 66) (num k)) (num (n - k))) (Some (num n)).

Definition from_hash : CompilerExtData := MkComp None (num 33) (Some (num 33)).
Definition from_time (t : N) : CompilerExtData := MkComp None (num 0) None.

(** The wrappers that do not change the witness. *)
Definition cast_alt self : result ErrorKind CompilerExtData :=
  Ok (MkComp None (sat_cost self) (dissat_cost self)).
Definition cast_swap self : result ErrorKind CompilerExtData :=
  Ok (MkComp None (sat_cost self) (dissat_cost self)).
Definition cast_check self : result ErrorKind CompilerExtData :=
  Ok (MkComp None (sat_cost self) (dissat_cost self)).
Definition cast_zeronotequal self : result ErrorKind CompilerExtData :=
  Ok (MkComp None (sat_cost self) (dissat_cost self)).

Definition cast_dupif self : result ErrorKind CompilerExtData :=
  Ok (MkComp None (f64_add (num 2) (sat_cost self)) (Some (num 1))).
Definition cast_verify self : result ErrorKind CompilerExtData :=
  Ok (MkComp None (sat_cost self) None).
Definition cast_nonzero self : result ErrorKind CompilerExtData :=
  Ok (MkComp None (sat_cost self) (Some (num 1))).
Definition cast_true self : result ErrorKind CompilerExtData :=
  Ok (MkComp None (sat_cost self) None).
Definition cast_unlikely self : result ErrorKind CompilerExtData :=
  Ok (MkComp None (f64_add (num 2) (sat_cost self)) (Some (num 1))).
Definition cast_likely self : result ErrorKind CompilerExtData :=
  Ok (MkComp None (f64_add (num 1) (sat_cost self)) (Some (num 2))).

Definition and_b l r : result ErrorKind CompilerExtData :=
  Ok (MkComp None (f64_add (sat_cost l) (sat_cost r))
        match dissat_cost l, dissat_cost r with
        | Some l, Some r => Some (f64_add l r)
        | _, _ => None
        end).

Definition and_v l r : result ErrorKind CompilerExtData :=
  Ok (MkComp None (f64_add (sat_cost l) (sat_cost r)) None).

Definition or_b l r : result ErrorKind CompilerExtData :=
  let? lprob := unwrap (branch_prob l) in
  let? rprob := unwrap (branch_prob r) in
  let? rdis := unwrap (dissat_cost r) in
  let? ldis := unwrap (dissat_cost l) in
  Ok (MkComp None
        (f64_add (f64_mul lprob (f64_add (sat_cost l) rdis))
                 (f64_mul rprob (f64_add (sat_cost r) ldis)))
        (Some (f64_add ldis rdis))).

Definition or_d l r : result ErrorKind CompilerExtData :=
  let? lprob := unwrap (branch_prob l) in
  let? rprob := unwrap (branch_prob r) in
  let? ldis := unwrap (dissat_cost l) in
  Ok (MkComp None
        (f64_add (f64_mul lprob (sat_cost l)) (f64_mul rprob (f64_add (sat_cost r) ldis)))
        (option_map (f64_add ldis) (dissat_cost r))).

Definition or_c l r : result ErrorKind CompilerExtData :=
  let? lprob := unwrap (branch_prob l) in
  let? rprob := unwrap (branch_prob r) in
  let? ldis := unwrap (dissat_cost l) in
  Ok (MkComp None
        (f64_add (f64_mul lprob (sat_cost l)) (f64_mul rprob (f64_add (sat_cost r) ldis)))
        None).

Definition or_i l r : result ErrorKind CompilerExtData :=
  let? lprob := unwrap (branch_prob l) in
  let? rprob := unwrap (branch_prob r) in
  Ok (MkComp None
        (f64_add (f64_mul lprob (f64_add (num 2) (sat_cost l)))
                 (f64_mul rprob (f64_add (num 1) (sat_cost r))))
        match dissat_cost l, dissat_cost r with
        | Some ldis, Some rdis =>
            if f64_gt (f64_add (num 2) ldis) (f64_add (num 1) rdis)
            then Some (f64_add (num 1) rdis) else Some (f64_add (num 2) ldis)
        | Some ldis, None => Some (f64_add (num 2) ldis)
        | None, Some rdis => Some (f64_add (num 1) rdis)
        | None, None => None
        end).

(** The [debug_assert_eq!] on the probabilities of [a] and [b] is left out: both are
    set to the same weight by the only caller, and they differ only if it is NaN. *)
Definition and_or a b c : result ErrorKind CompilerExtData :=
  match dissat_cost a with
  | None => Err LeftNotDissatisfiable
  | Some adis =>
      let? aprob := unwrap (branch_prob a) in
      let? _ := unwrap (branch_prob b) in
      let? cprob := unwrap (branch_prob c) in
      Ok (MkComp None
            (f64_add (f64_mul aprob (f64_add (sat_cost a) (sat_cost b)))
                     (f64_mul cprob (f64_add adis (sat_cost c))))
            (option_map (f64_add adis) (dissat_cost c)))
  end.

Definition and_n a b : result ErrorKind CompilerExtData :=
  Ok (MkComp None (f64_add (sat_cost a) (sat_cost b)) (dissat_cost a)).

(** One turn of the loop over the children of a threshold: the sums of the costs. *)
Definition threshold_step (sub_ck : nat → result ErrorKind CompilerExtData)
    (acc : f64 * f64) (i : nat) : result ErrorKind (f64 * f64) :=
  let? sub := sub_ck i in
  let? dis := unwrap (dissat_cost sub) in
  Ok (f64_add acc.1 (sat_cost sub), f64_add acc.2 dis).

Definition threshold (k n : nat) (sub_ck : nat → result ErrorKind CompilerExtData)
    : result ErrorKind CompilerExtData :=
  let k_over_n := f64_div (num k) (num n) in
  let? sums := try_fold (threshold_step sub_ck) (num 0, num 0) (seq 0 n) in
  Ok (MkComp None
        (f64_add (f64_mul sums.1 k_over_n) (f64_mul sums.2 (f64_sub (num 1) k_over_n)))
        (Some sums.2)).

(** [cast_likely], [cast_unlikely] and [and_n] are overridden; the class derives them, so
    they are not among its fields. *)
#[export] Instance CompilerExtData_Property : Property CompilerExtData := {|
  pr_sanity_checks self := true;
  pr_from_true := from_true;
  pr_from_false := from_false;
  pr_from_pk_k := from_pk_k;
  pr_from_pk_h := from_pk_h;
  pr_from_multi := from_multi;
  pr_from_multi_a := from_multi_a;
  pr_from_sha256 := from_hash;
  pr_from_hash256 := from_hash;
  pr_from_ripemd160 := from_hash;
  pr_from_hash160 := from_hash;
  pr_from_after := from_time;
  pr_from_older := from_time;
  pr_cast_alt := cast_alt;
  pr_cast_swap := cast_swap;
  pr_cast_check := cast_check;
  pr_cast_dupif := cast_dupif;
  pr_cast_verify := cast_verify;
  pr_cast_nonzero := cast_nonzero;
  pr_cast_zeronotequal := cast_zeronotequal;
  pr_cast_true := cast_true;
  pr_and_b := and_b;
  pr_and_v := and_v;
  pr_or_b := or_b;
  pr_or_d := or_d;
  pr_or_c := or_c;
  pr_or_i := or_i;
  pr_and_or := and_or;
  pr_threshold := threshold;
|}.
End floats.

(** ** [CompilerExtData::type_check] *)

Section type_check.
Context {Pk : Type} `{MiniscriptKey Pk} `{LockTimes} `{F64Arith}.
Context (ctx : ScriptContext).

(** The dispatcher, with the data of the [n]th child as an argument. *)
Definition cost_check (get_child : nat → result ErrorKind CompilerExtData)
    (fragment : Terminal Pk NoExt) : result ErrorKind CompilerExtData :=
  let unary f := let? sub := get_child 0 in f sub in
  let binary f := let? l := get_child 0 in let? r := get_child 1 in f l r in
  match fragment with
  | TTrue => Ok pr_from_true
  | TFalse => Ok pr_from_false
  | PkK _ => Ok (pr_from_pk_k ctx)
  | PkH _ | RawPkH _ => Ok (pr_from_pk_h ctx)
  | Multi k pks =>
      let? _ := check_threshold k (length pks) in Ok (pr_from_multi k (length pks))
  | MultiA k pks =>
      let? _ := check_threshold k (length pks) in Ok (pr_from_multi_a k (length pks))
  | After t => if (t =? 0)%N then Err InvalidTime else Ok (pr_from_after t)
  | Older t =>
      if (t =? 0)%N || negb (is_relative_lock_time t) then Err InvalidTime
      else Ok (pr_from_older t)
  | Sha256 _ => Ok pr_from_sha256
  | Hash256 _ => Ok pr_from_hash256
  | Ripemd160 _ => Ok pr_from_ripemd160
  | Hash160 _ => Ok pr_from_hash160
  | Alt _ => unary pr_cast_alt
  | Swap _ => unary pr_cast_swap
  | Check _ => unary pr_cast_check
  | DupIf _ => unary pr_cast_dupif
  | Verify _ => unary pr_cast_verify
  | NonZero _ => unary pr_cast_nonzero
  | ZeroNotEqual _ => unary pr_cast_zeronotequal
  | AndB _ _ => binary pr_and_b
  | AndV _ _ => binary pr_and_v
  | OrB _ _ => binary pr_or_b
  | OrD _ _ => binary pr_or_d
  | OrC _ _ => binary pr_or_c
  | OrI _ _ => binary pr_or_i
  | AndOr _ _ _ =>
      let? a := get_child 0 in
      let? b := get_child 1 in
      let? c := get_child 2 in
      pr_and_or a b c
  | Thresh k subs =>
      let? _ := check_threshold k (length subs) in
      pr_threshold k (length subs) get_child
  | ExtT e => match e with end
  end.

(** A child the caller knows nothing about is checked in turn. *)
Definition cost_check_none : Miniscript Pk NoExt → result ErrorKind CompilerExtData :=
  cata (λ ms rs, cost_check (λ n, default Panic (rs !! n)) (node ms)).

Definition cost_type_check (child : nat → option CompilerExtData)
    (fragment : Terminal Pk NoExt) : result ErrorKind CompilerExtData :=
  cost_check (λ n,
    match child n with
    | Some d => Ok d
    | None => match children fragment !! n with Some sub => cost_check_none sub | None => Panic end
    end) fragment.

(** [return_none] *)
Definition return_none (n : nat) : option CompilerExtData := None.
End type_check.

(** ** [CompilationKey] *)

Section compilation_key.
Context `{F64Arith}.

Record CompilationKey : Type := MkKey {
  key_ty : MsType;
  expensive_verify : bool;
  dissat_prob : option f64;
}.

Implicit Types self other : CompilationKey.

Definition key_is_subtype self other : bool :=
  Type_is_subtype (key_ty self) (key_ty other)
  && Bool.eqb (expensive_verify self) (expensive_verify other)
  && prob_eqb (dissat_prob self) (dissat_prob other).

(** The derived orders: by the order of the variants, and lexicographic. *)
Definition Base_index (x : Base) : nat := match x with B => 0 | K => 1 | V => 2 | W => 3 end.
Definition Input_index (x : Input) : nat :=
  match x with Zero => 0 | One => 1 | Any => 2 | OneNonZero => 3 | AnyNonZero => 4 end.
Definition Dissat_index (x : Dissat) : nat := match x with DNone => 0 | Unique => 1 | Unknown => 2 end.
Definition bool_index (b : bool) : nat := if b then 1 else 0.

Fixpoint lex_cmp (xs ys : list nat) : comparison :=
  match xs, ys with
  | x :: xs, y :: ys => match Nat.compare x y with Eq => lex_cmp xs ys | c => c end
  | _, _ => Eq
  end.

Definition Type_fields (t : MsType) : list nat :=
  [Base_index (base (corr t)); Input_index (input (corr t));
   bool_index (dissatisfiable (corr t)); bool_index (unit_ (corr t));
   Dissat_index (dissat (mall t)); bool_index (safe (mall t)); bool_index (non_malleable (mall t))].

Definition key_cmp self other : result Stop comparison :=
  match lex_cmp (Type_fields (key_ty self) ++ [bool_index (expensive_verify self)])
                (Type_fields (key_ty other) ++ [bool_index (expensive_verify other)]) with
  | Eq => prob_cmp (dissat_prob self) (dissat_prob other)
  | c => Ok c
  end.
End compilation_key.
