(* ===== verification/Compiler.v ===== *)
(** * The policy compiler: [src/policy/compiler.rs], second part

    The search for the cheapest Miniscript of a policy: candidates
    ([AstElemExt]), casts and their closure, the recursion over the policy with its
    cache, and [Policy::compile] of [src/policy/concrete.rs].

    The maps the compiler keeps are association lists in the order of [BTreeMap].  The
    local copies whose [branch_prob] the source overwrites in place are not written back:
    every read follows a write by [compile_binary] or [compile_tern].  The functions that
    share the cache are computations of [M], a state monad over it. *)

From S2P Require Import Prelude Types Extension Property Ast Tokens Context Lift CompCost.
From S2P Require Semantic Concrete.
Import Semantic(MiniscriptKeyEq).

(** ** The state monad *)

Section monad.
Context {S : Type}.
Definition M (A : Type) : Type := S → result Stop (A * S).
Definition mret {A} (x : A) : M A := λ s, Ok (x, s).
Definition mbind {A B} (m : M A) (f : A → M B) : M B := λ s, let? r := m s in f r.1 r.2.
Definition mlift {A} (r : result Stop A) : M A := λ s, let? x := r in Ok (x, s).

Fixpoint mfold {A X} (f : A → X → M A) (a : A) (l : list X) : M A :=
  match l with
  | [] => mret a
  | x :: l => mbind (f a x) (λ a, mfold f a l)
  end.
End monad.
Arguments M : clear implicits.
Notation "'let!' x ':=' m 'in' k" := (mbind m (fun x => k))
  (at level 10, x pattern, m at level 100, k at level 200) : ms_scope.

(** [Result::expect]: an error is a panic. *)
Definition expect {E F A} (x : result E A) : result F A :=
  match x with Ok a => Ok a | _ => Panic end.

Section compiler.
Context {Pk : Type} `{MiniscriptKey Pk} `{!MiniscriptKeyEq Pk} `{LockTimes} `{F64Arith}.
Context (ctx : ScriptContext).
Notation policy := (Concrete.Policy Pk).
Notation ms_t := (Miniscript Pk NoExt).
Notation terminal_t := (Terminal Pk NoExt).
Notation num := f64_of_usize.
Implicit Types (sat_prob : f64) (dissat_prob : option f64).

(** ** [AstElemExt] *)

Record AstElemExt : Type := MkElem {
  elem_ms : ms_t;
  comp_ext_data : CompilerExtData;
}.

Definition cost_1d (self : AstElemExt) sat_prob dissat_prob : f64 :=
  f64_add
    (f64_add (num (pk_cost (ext (elem_ms self))))
             (f64_mul (sat_cost (comp_ext_data self)) sat_prob))
    match dissat_prob, dissat_cost (comp_ext_data self) with
    | Some prob, Some cost => f64_mul prob cost
    | Some _, None => f64_INFINITY
    | None, _ => num 0
    end.

Definition terminal (ast : terminal_t) : result Stop AstElemExt :=
  let? d := expect (cost_type_check ctx return_none ast) in
  let? ms := expect (from_ast ctx ast) in
  Ok (MkElem ms d).

(** [l.comp_ext_data.branch_prob = Some(weight)] *)
Definition set_branch_prob (weight : f64) (self : AstElemExt) : AstElemExt :=
  MkElem (elem_ms self)
    (MkComp (Some weight) (sat_cost (comp_ext_data self)) (dissat_cost (comp_ext_data self))).

(** [AstElemExt::binary] and [AstElemExt::ternary]: a node over children whose costs are
    looked up; a lookup beyond them is [unreachable!]. *)
Definition node_over (ast : terminal_t) (subs : list AstElemExt) : result ErrorKind AstElemExt :=
  let? mty := type_check ctx ast in
  let? mext := ext_type_check ctx ast in
  let? d := cost_check ctx (λ n, unwrap (comp_ext_data <$> subs !! n)) ast in
  Ok (MkElem (MkMs ast mty mext) d).

Definition binary (ast : terminal_t) (l r : AstElemExt) := node_over ast [l; r].
Definition ternary (ast : terminal_t) (a b c : AstElemExt) := node_over ast [a; b; c].

(** ** Casts *)

Record Cast : Type := MkCast {
  cast_node : ms_t → result ErrorKind terminal_t;
  ast_type : MsType → result ErrorKind MsType;
  ext_data : ExtData → result ErrorKind ExtData;
  cast_comp : CompilerExtData → result ErrorKind CompilerExtData;
}.

Definition cast (self : Cast) (ast : AstElemExt) : result ErrorKind AstElemExt :=
  let? mty := ast_type self (ty (elem_ms ast)) in
  let? mext := ext_data self (ext (elem_ms ast)) in
  let? t := cast_node self (elem_ms ast) in
  let? d := cast_comp self (comp_ext_data ast) in
  Ok (MkElem (MkMs t mty mext) d).

Definition all_casts : list Cast :=
  [MkCast (λ ms, Ok (Check ms)) pr_cast_check pr_cast_check pr_cast_check;
   MkCast (λ ms, Ok (DupIf ms)) pr_cast_dupif pr_cast_dupif pr_cast_dupif;
   MkCast (λ ms, let? f := expect (from_ast ctx TFalse) in Ok (OrI f ms))
     Property.cast_likely Property.cast_likely CompCost.cast_likely;
   MkCast (λ ms, let? f := expect (from_ast ctx TFalse) in Ok (OrI ms f))
     Property.cast_unlikely Property.cast_unlikely CompCost.cast_unlikely;
   MkCast (λ ms, Ok (Verify ms)) pr_cast_verify pr_cast_verify pr_cast_verify;
   MkCast (λ ms, Ok (NonZero ms)) pr_cast_nonzero pr_cast_nonzero pr_cast_nonzero;
   MkCast (λ ms, let? t := expect (from_ast ctx TTrue) in Ok (AndV ms t))
     pr_cast_true pr_cast_true pr_cast_true;
   MkCast (λ ms, Ok (Swap ms)) pr_cast_swap pr_cast_swap pr_cast_swap;
   MkCast (λ ms, Ok (Alt ms)) pr_cast_alt pr_cast_alt pr_cast_alt;
   MkCast (λ ms, Ok (ZeroNotEqual ms)) pr_cast_zeronotequal pr_cast_zeronotequal
     pr_cast_zeronotequal].

(** ** The map of candidates: [BTreeMap<CompilationKey, AstElemExt>] *)

Definition cmap : Type := list (CompilationKey * AstElemExt).

(** An equal key keeps its place and its key. *)
Fixpoint map_insert (key : CompilationKey) (elem : AstElemExt) (m : cmap) : result Stop cmap :=
  match m with
  | [] => Ok [(key, elem)]
  | (key', elem') :: m' =>
      let? c := key_cmp key key' in
      match c with
      | Lt => Ok ((key, elem) :: m)
      | Eq => Ok ((key', elem) :: m')
      | Gt => let? m' := map_insert key elem m' in Ok ((key', elem') :: m')
      end
  end.

Definition insert_elem (map : cmap) (elem : AstElemExt) sat_prob dissat_prob
    : result Stop (cmap * bool) :=
  if negb (non_malleable (mall (ty (elem_ms elem))))
     && is_ok (check_terminal_non_malleable ctx (node (elem_ms elem)))
  then Ok (map, false)
  else
    match check_local_validity ctx (elem_ms elem) with
    | Panic => Panic
    | Err _ => Ok (map, false)
    | Ok _ =>
        let elem_cost := cost_1d elem sat_prob dissat_prob in
        let elem_key :=
          MkKey (ty (elem_ms elem)) (has_free_verify (ext (elem_ms elem))) dissat_prob in
        let is_worse :=
          existsb (λ '(existing_key, existing_elem),
            key_is_subtype existing_key elem_key
            && f64_le (cost_1d existing_elem sat_prob dissat_prob) elem_cost) map in
        if is_worse then Ok (map, false)
        else
          let map := List.filter (λ '(existing_key, existing_elem),
            negb (key_is_subtype elem_key existing_key
                  && f64_ge (cost_1d existing_elem sat_prob dissat_prob) elem_cost)) map in
          let? map := map_insert elem_key elem map in
          Ok (map, true)
    end.

(** One cast of the element at the front of the queue. *)
Definition closure_step sat_prob dissat_prob (current : AstElemExt)
    (acc : cmap * list AstElemExt) (c : Cast) : result Stop (cmap * list AstElemExt) :=
  match cast c current with
  | Ok new_ext =>
      let? r := insert_elem acc.1 new_ext sat_prob dissat_prob in
      Ok (r.1, if r.2 : bool then acc.2 ++ [new_ext] else acc.2)
  | Err _ => Ok acc
  | Panic => Panic
  end.

Fixpoint closure_loop (fuel : nat) sat_prob dissat_prob (map : cmap)
    (cast_stack : list AstElemExt) : result Stop cmap :=
  match cast_stack with
  | [] => Ok map
  | current :: cast_stack =>
      match fuel with
      | 0 => Err StopFuel
      | S fuel =>
          let? acc := try_fold (closure_step sat_prob dissat_prob current)
                        (map, cast_stack) all_casts in
          closure_loop fuel sat_prob dissat_prob acc.1 acc.2
      end
  end.

Definition insert_elem_closure (cfuel : nat) (map : cmap) (astelem_ext : AstElemExt)
    sat_prob dissat_prob : result Stop cmap :=
  let? r := insert_elem map astelem_ext sat_prob dissat_prob in
  closure_loop cfuel sat_prob dissat_prob r.1 (if r.2 : bool then [astelem_ext] else []).

(** ** The cache

    A lookup in the source's [BTreeMap] compares with some of the keys, here with all of
    them: NaN is noticed at least when the source panics. *)

Definition cache_key : Type := policy * f64 * option f64.
Definition PolicyCache : Type := list (cache_key * cmap).

Definition cache_key_eqb (k1 k2 : cache_key) : result Stop bool :=
  let '(p1, s1, d1) := k1 in
  let '(p2, s2, d2) := k2 in
  if bool_decide (p1 = p2) then
    let? c := OrdF64_cmp s1 s2 in
    match c with
    | Eq => let? c := prob_cmp d1 d2 in Ok (match c with Eq => true | _ => false end)
    | _ => Ok false
    end
  else Ok false.

Fixpoint cache_get (key : cache_key) (c : PolicyCache) : result Stop (option cmap) :=
  match c with
  | [] => Ok None
  | (key', m) :: c =>
      let? b := cache_key_eqb key key' in
      if b : bool then Ok (Some m) else cache_get key c
  end.

Fixpoint cache_insert (key : cache_key) (m : cmap) (c : PolicyCache) : result Stop PolicyCache :=
  match c with
  | [] => Ok [(key, m)]
  | (key', m') :: c =>
      let? b := cache_key_eqb key key' in
      if b : bool then Ok ((key', m) :: c)
      else let? c := cache_insert key m c in Ok ((key', m') :: c)
  end.

Notation MC := (M PolicyCache).

(** ** The search *)

Section search.
(** The fuel of a cast closure, and [best_compilations] on other arguments. *)
Context (cfuel : nat) (rec : policy → f64 → option f64 → MC cmap).

Section at_policy.
Context (pol : policy) (sat_prob : f64) (dissat_prob : option f64).

Definition insert_cast (m : cmap) (c : Cast) (x : CompilationKey * AstElemExt) : MC cmap :=
  match cast c x.2 with
  | Ok new_ext => mlift (insert_elem_closure cfuel m new_ext sat_prob dissat_prob)
  | Err _ => mret m
  | Panic => mlift Panic
  end.

Definition insert_best_wrapped (map : cmap) (data : AstElemExt) : MC cmap :=
  let! map := mlift (insert_elem_closure cfuel map data sat_prob dissat_prob) in
  match dissat_prob with
  | None => mret map
  | Some _ =>
      mfold (λ m c,
        let! xs := rec pol sat_prob None in
        mfold (λ m x, insert_cast m c x) m xs) map all_casts
  end.

(** [insert_wrap!(AstElemExt::terminal(ast))] *)
Definition insert_terminal (ret : cmap) (ast : terminal_t) : MC cmap :=
  let! x := mlift (terminal ast) in insert_best_wrapped ret x.

Definition insert_candidate (ret : cmap) (x : result ErrorKind AstElemExt) : MC cmap :=
  match x with
  | Ok new_ext => insert_best_wrapped ret new_ext
  | Err _ => mret ret
  | Panic => mlift Panic
  end.

Definition compile_binary (ret left_comp right_comp : cmap) (weights : f64 * f64)
    (bin_func : ms_t → ms_t → terminal_t) : MC cmap :=
  mfold (λ ret l,
    mfold (λ ret r,
      insert_candidate ret
        (binary (bin_func (elem_ms l.2) (elem_ms r.2))
           (set_branch_prob weights.1 l.2) (set_branch_prob weights.2 r.2)))
      ret right_comp) ret left_comp.

Definition compile_tern (ret a_comp b_comp c_comp : cmap) (weights : f64 * f64) : MC cmap :=
  mfold (λ ret a,
    mfold (λ ret b,
      mfold (λ ret c,
        insert_candidate ret
          (ternary (AndOr (elem_ms a.2) (elem_ms b.2) (elem_ms c.2))
             (set_branch_prob weights.1 a.2) (set_branch_prob weights.1 b.2)
             (set_branch_prob weights.2 c.2)))
        ret c_comp) ret b_comp) ret a_comp.

(** [Iterator::min_by_key]: the first of the smallest. *)
Fixpoint min_cost (best : f64 * AstElemExt) (l : list (f64 * AstElemExt)) : result Stop AstElemExt :=
  match l with
  | [] => Ok best.2
  | y :: l =>
      let? c := OrdF64_cmp best.1 y.1 in
      match c with Gt => min_cost y l | _ => min_cost best l end
  end.

Definition min_by_cost sat_prob dissat_prob (l : list AstElemExt) : result Stop AstElemExt :=
  match map (λ x, (cost_1d x sat_prob dissat_prob, x)) l with
  | [] => Err (StopErr LimitsExceeded)
  | x :: l => min_cost x l
  end.
End at_policy.

Definition best (basic_type : Base) (pol : policy) sat_prob dissat_prob : MC AstElemExt :=
  let! m := rec pol sat_prob dissat_prob in
  mlift (min_by_cost sat_prob dissat_prob
    (map snd (List.filter (λ '(key, val),
       bool_decide (base (corr (key_ty key)) = basic_type)
       && unit_ (corr (key_ty key))
       && bool_decide (dissat (mall (ty (elem_ms val))) = Unique)
       && prob_eqb (CompCost.dissat_prob key) dissat_prob) m))).

Definition best_t (pol : policy) sat_prob dissat_prob : MC AstElemExt :=
  let! m := rec pol sat_prob dissat_prob in
  mlift (min_by_cost sat_prob dissat_prob
    (map snd (List.filter (λ '(key, val),
       bool_decide (base (corr (key_ty key)) = B)
       && prob_eqb (CompCost.dissat_prob key) dissat_prob) m))).

(** [subs[i]] *)
Definition index {A} (l : list A) (i : nat) : MC A := mlift (unwrap (l !! i)).

Definition unwrap_or_zero (p : option f64) : f64 := default (num 0) p.

Definition compile_and (pol : policy) (subs : list policy) sat_prob dissat_prob : MC cmap :=
  if negb (length subs =? 2) then mlift Panic
  else
    let! s0 := index subs 0 in
    let! s1 := index subs 1 in
    let! left_ := rec s0 sat_prob dissat_prob in
    let! right_ := rec s1 sat_prob dissat_prob in
    let! q_zero_right := rec s1 sat_prob None in
    let! q_zero_left := rec s0 sat_prob None in
    let one := (num 1, num 1) in
    let compile_binary := compile_binary pol sat_prob dissat_prob in
    let compile_tern := compile_tern pol sat_prob dissat_prob in
    let! ret := compile_binary [] left_ right_ one AndB in
    let! ret := compile_binary ret right_ left_ one AndB in
    let! ret := compile_binary ret left_ right_ one AndV in
    let! ret := compile_binary ret right_ left_ one AndV in
    let! zero := mlift (terminal TFalse) in
    let zero_comp :=
      [(MkKey pr_from_false (has_free_verify ExtraProps.from_false) dissat_prob, zero)] in
    let! ret := compile_tern ret left_ q_zero_right zero_comp (num 1, num 0) in
    compile_tern ret right_ q_zero_left zero_comp (num 1, num 0).

(** The and-or candidates of a disjunction, one branch of which is the conjunction [x],
    taken with probability [w]; [c] is the other branch. *)
Definition compile_and_or (pol : policy) (ret : cmap) (x : list policy) (c : policy) (w wc : f64)
    sat_prob dissat_prob : MC cmap :=
  let d := Some (f64_add (unwrap_or_zero dissat_prob) (f64_mul wc sat_prob)) in
  let! x0 := index x 0 in
  let! a1 := rec x0 (f64_mul w sat_prob) d in
  let! a2 := rec x0 (f64_mul w sat_prob) None in
  let! x1 := index x 1 in
  let! b1 := rec x1 (f64_mul w sat_prob) d in
  let! b2 := rec x1 (f64_mul w sat_prob) None in
  let! c := rec c (f64_mul wc sat_prob) dissat_prob in
  let! ret := compile_tern pol sat_prob dissat_prob ret a1 b2 c (w, wc) in
  compile_tern pol sat_prob dissat_prob ret b1 a2 c (w, wc).

(** The compilations of a branch under the dissatisfaction probabilities that the
    fragments for a disjunction need. *)
Definition compile_probs (p : policy) (sat : f64) (probs : list (option f64)) : MC (list cmap) :=
  mfold (λ comps d, let! l := rec p sat d in mret (comps ++ [l])) [] probs.

Definition compile_or (pol : policy) (subs : list (nat * policy)) sat_prob dissat_prob : MC cmap :=
  let! s0 := index subs 0 in
  let! s1 := index subs 1 in
  let total := num (s0.1 + s1.1) in
  let lw := f64_div (num s0.1) total in
  let rw := f64_div (num s1.1) total in
  let! ret :=
    match s0.2 with
    | Concrete.And x => compile_and_or pol [] x s1.2 lw rw sat_prob dissat_prob
    | _ => mret []
    end in
  let! ret :=
    match s1.2 with
    | Concrete.And x => compile_and_or pol ret x s0.2 rw lw sat_prob dissat_prob
    | _ => mret ret
    end in
  let dissat_probs (w : f64) :=
    [Some (f64_add (unwrap_or_zero dissat_prob) (f64_mul w sat_prob));
     Some (f64_mul w sat_prob); dissat_prob; None] in
  let! l_comp := compile_probs s0.2 (f64_mul lw sat_prob) (dissat_probs rw) in
  let! r_comp := compile_probs s1.2 (f64_mul rw sat_prob) (dissat_probs lw) in
  let go (ret : cmap) (l_first : bool) (i j : nat) (f : ms_t → ms_t → terminal_t) : MC cmap :=
    if l_first then
      let! l := index l_comp i in
      let! r := index r_comp j in
      compile_binary pol sat_prob dissat_prob ret l r (lw, rw) f
    else
      let! r := index r_comp i in
      let! l := index l_comp j in
      compile_binary pol sat_prob dissat_prob ret r l (rw, lw) f in
  let! ret := go ret true 0 0 OrB in
  let! ret := go ret false 0 0 OrB in
  let! ret := go ret true 0 2 OrD in
  let! ret := go ret false 0 2 OrD in
  let! ret := go ret true 1 3 OrC in
  let! ret := go ret false 1 3 OrC in
  let! ret := go ret true 2 3 OrI in
  let! ret := go ret false 2 3 OrI in
  let! ret := go ret true 3 2 OrI in
  go ret false 3 2 OrI.

(** The accumulators of the loop over the branches of a threshold. *)
Record ThreshAcc : Type := MkThreshAcc {
  best_es : list AstElemExt;
  best_ws : list AstElemExt;
  min_value : nat * f64;
}.

Definition thresh_step (sp : f64) (dp : option f64) (acc : ThreshAcc) (x : nat * policy)
    : MC ThreshAcc :=
  let! be := best B x.2 sp dp in
  let! bw := best W x.2 sp dp in
  let diff := f64_sub (cost_1d be sp dp) (cost_1d bw sp dp) in
  mret (MkThreshAcc (best_es acc ++ [be]) (best_ws acc ++ [bw])
          (if f64_lt diff (min_value acc).2 then (x.1, diff) else min_value acc)).

Definition enumerate {A} (l : list A) : list (nat * A) := zip (seq 0 (length l)) l.

(** The children of the threshold: the branch that gains most from being first, then
    the others as [W] fragments. *)
Definition thresh_children (acc : ThreshAcc) (n : nat) : result Stop (list AstElemExt) :=
  let? first := unwrap (best_es acc !! (min_value acc).1) in
  let? rest := try_map (λ i, unwrap (best_ws acc !! i))
                 (List.filter (λ i, negb (i =? (min_value acc).1)) (seq 0 n)) in
  Ok (first :: rest).

Definition key_vec (subs : list policy) : list Pk :=
  omap (λ s, match s with Concrete.Key pk => Some pk | _ => None end) subs.

Definition compile_thresh (pol : policy) (k : nat) (subs : list policy) sat_prob dissat_prob
    : MC cmap :=
  let n := length subs in
  let k_over_n := f64_div (num k) (num n) in
  let sp := f64_mul sat_prob k_over_n in
  let dp := Some (f64_add (unwrap_or_zero dissat_prob)
                    (f64_mul (f64_sub (num 1) k_over_n) sat_prob)) in
  let! acc := mfold (thresh_step sp dp) (MkThreshAcc [] [] (0, f64_INFINITY)) (enumerate subs) in
  let! sub_elems := mlift (thresh_children acc n) in
  let ast := Thresh k (map elem_ms sub_elems) in
  let! ms := mlift (expect (from_ast ctx ast)) in
  let! d := mlift (expect (threshold k n (λ i, unwrap (comp_ext_data <$> sub_elems !! i)))) in
  let! ret := insert_best_wrapped pol sat_prob dissat_prob [] (MkElem ms d) in
  let keys := key_vec subs in
  let multi_ok :=
    match sig_type ctx with
    | Schnorr => length keys =? n
    | Ecdsa => (length keys =? n) && (n <=? MAX_PUBKEYS_PER_MULTISIG)
    end in
  if multi_ok then
    insert_terminal pol sat_prob dissat_prob ret
      (match sig_type ctx with Schnorr => MultiA k keys | Ecdsa => Multi k keys end)
  else if k =? n then
    let! first := index subs 0 in
    rec (fold_left (λ acc p, Concrete.And [acc; p]) (drop 1 subs) first) sat_prob dissat_prob
  else mret ret.

Definition compile_policy (pol : policy) sat_prob dissat_prob : MC cmap :=
  let insert_terminal := insert_terminal pol sat_prob dissat_prob in
  match pol with
  | Concrete.Unsatisfiable => insert_terminal [] TFalse
  | Concrete.Trivial => insert_terminal [] TTrue
  | Concrete.Key pk =>
      let! ret := insert_terminal [] (PkH pk) in
      insert_terminal ret (PkK pk)
  | Concrete.After n => insert_terminal [] (After n)
  | Concrete.Older n => insert_terminal [] (Older n)
  | Concrete.Sha256 h => insert_terminal [] (Sha256 h)
  | Concrete.Hash256 h => insert_terminal [] (Hash256 h)
  | Concrete.Ripemd160 h => insert_terminal [] (Ripemd160 h)
  | Concrete.Hash160 h => insert_terminal [] (Hash160 h)
  | Concrete.And subs => compile_and pol subs sat_prob dissat_prob
  | Concrete.Or subs => compile_or pol subs sat_prob dissat_prob
  | Concrete.Threshold k subs => compile_thresh pol k subs sat_prob dissat_prob
  end.

(** The body of [best_compilations]. *)
Definition best_compilations_step (pol : policy) sat_prob dissat_prob : MC cmap := λ c,
  let key := (pol, sat_prob, dissat_prob) in
  let? hit := cache_get key c in
  match hit with
  | Some ret => Ok (ret, c)
  | None =>
      let? r := compile_policy pol sat_prob dissat_prob c in
      let '(ret, c) := r in
      let? _ := try_map (λ '(k, _), debug_assert_prob (CompCost.dissat_prob k) dissat_prob) ret in
      match ret with
      | [] => Err (StopErr LimitsExceeded)
      | _ => let? c := cache_insert key ret c in Ok (ret, c)
      end
  end.
End search.

Fixpoint best_compilations (cfuel fuel : nat) (pol : policy) sat_prob dissat_prob : MC cmap :=
  match fuel with
  | 0 => mlift (Err StopFuel)
  | S fuel => best_compilations_step cfuel (best_compilations cfuel fuel) pol sat_prob dissat_prob
  end.

Definition best_compilation (cfuel fuel : nat) (pol : policy) : result Stop ms_t :=
  let? r := best_t (best_compilations cfuel fuel) pol (num 1) None [] in
  let x := elem_ms r.1 in
  if negb (safe (mall (ty x))) then Err (StopErr TopLevelNonSafe)
  else if negb (non_malleable (mall (ty x))) then Err (StopErr ImpossibleNonMalleableCompilation)
  else Ok x.

(** [Policy::compile] *)
Definition compile (cfuel fuel : nat) (pol : policy) : result Stop ms_t :=
  let? _ := map_err (λ e, StopErr (CompilerPolicyError e)) (Concrete.is_valid pol) in
  let? sn := map_err (λ e, StopErr (CompilerPolicyError e)) (Concrete.is_safe_nonmalleable pol) in
  match sn with
  | (false, _) => Err (StopErr TopLevelNonSafe)
  | (_, false) => Err (StopErr ImpossibleNonMalleableCompilation)
  | _ => best_compilation cfuel fuel pol
  end.
End compiler.
