(* ===== verification/CompilerSteps.v ===== *)
(** * The policy compiler: the steps of the search

    The invariant of the cache, a Hoare logic for the computations that share it, and
    the insertion of candidates under it. *)

From S2P Require Import Prelude Types Extension Property Ast Typing Resources Iter Tokens Context ScriptNum Script Encoding Lift LiftProps ConcreteProps CompCost Compiler.
From S2P Require Correctness Malleability ExtraProps Semantic Concrete.
Import Semantic(MiniscriptKeyEq).
Import Concrete(branches).

(** ** The policy compiler: candidates and casts

    What the compiler maintains of every candidate: it is well typed, has the meaning
    of its policy, and its costs know a dissatisfaction exactly when its type promises
    one.  Casts keep all this, and the closure of a candidate under casts terminates,
    since every cast makes the script longer or turns it into a [V] fragment. *)

Section casts.
Context {Pk : Type} `{MiniscriptKey Pk} `{!MiniscriptKeyEq Pk} `{LockTimes} `{F64ArithOk}.
Context (ctx : ScriptContext).
Notation ms_t := (Miniscript Pk NoExt).
Notation elem := (AstElemExt (Pk := Pk)).
Notation meaning := ((Semantic.Policy Pk → bool) → bool).
Implicit Types (ms : ms_t) (e : elem) (f : meaning).

(** ** Candidates *)

(** The costs have a dissatisfaction when the type has one. *)
Definition typed e : Prop :=
  well_typed ctx (elem_ms e) ∧ all_nodes node_liftable (elem_ms e) ∧
  some (dissat_cost (comp_ext_data e)) = cd (elem_ms e).

Definition elem_ok f e : Prop := typed e ∧ ∀ v, ms_eval v (elem_ms e) = f v.

(** A result that is no panic, and [Q] of what it returns. *)
Definition no_panic {E A} (Q : A → Prop) (r : result E A) : Prop :=
  match r with Ok a => Q a | Err _ => True | Panic => False end.

Lemma no_panic_impl {E A} (Q R : A → Prop) (r : result E A) :
  (∀ a, Q a → R a) → no_panic Q r → no_panic R r.
Proof. destruct r; simpl; auto. Qed.

(** A node over typed children, once its costs are known. *)
Lemma typed_node ast mty mext d :
  type_check ctx ast = Ok mty → ext_type_check ctx ast = Ok mext →
  Forall (well_typed ctx) (children ast) → Forall (all_nodes node_liftable) (children ast) →
  node_liftable ast → some (dissat_cost d) = dissatisfiable (corr mty) →
  typed (MkElem (MkMs ast mty mext) d).
Proof. intros. split_and!; [by constructor..|done]. Qed.

(** The resource analysis accepts what the type checker accepts. *)
Lemma ext_type_check_total ast mty :
  Forall (well_typed ctx) (children ast) → type_check ctx (ast : Terminal Pk NoExt) = Ok mty →
  ∃ mext, ext_type_check ctx ast = Ok mext.
Proof.
  intros Hch Ht. destruct (ext_type_check_inv ctx ast mty) as (e & He & _); [|done|by exists e].
  eapply Forall_impl; [|exact Hch]. apply well_typed_ext_inv.
Qed.

(** *** Leaves *)

Definition leaf_ok (t : Terminal Pk NoExt) : Prop :=
  match t with
  | TTrue | TFalse | PkK _ | PkH _ | Sha256 _ | Hash256 _ | Ripemd160 _ | Hash160 _ => True
  | After n => n ≠ 0%N
  | Older n => n ≠ 0%N ∧ is_relative_lock_time n = true
  | Multi k pks | MultiA k pks => 1 ≤ k ≤ length pks
  | _ => False
  end.

Lemma terminal_typed t :
  leaf_ok t →
  ∃ e, terminal ctx t = Ok e ∧ typed e ∧ ∀ v, ms_eval v (elem_ms e) = ms_eval v (MkMs t (ty (elem_ms e)) (ext (elem_ms e))).
Proof.
  intros Hl.
  assert (∃ d mty, cost_type_check ctx return_none t = Ok d ∧ type_check ctx t = Ok mty ∧
                   some (dissat_cost d) = dissatisfiable (corr mty)) as (d & mty & Hd & Ht & Hs).
  { unfold cost_type_check, type_check, property_check.
    destruct t; cbn [leaf_ok cost_check] in *; try done; try (by eexists _, _);
      try (assert (check_threshold k (length pks) = Ok tt) as -> by (by apply check_threshold_Ok);
           by eexists _, _).
    - destruct (N.eqb_spec t 0); [done|]. by eexists _, _.
    - destruct Hl as [Hn ->]. destruct (N.eqb_spec t 0); [done|]. by eexists _, _. }
  assert (Forall (well_typed ctx) (children t)) as Hch by (by destruct t).
  destruct (ext_type_check_total t mty) as [mext He]; [done..|].
  unfold terminal, from_ast. rewrite Hd, Ht, He. cbn [expect result_bind].
  eexists. split; [done|]. split; [|done]. apply typed_node; try done; by destruct t.
Qed.

(** ** Casts *)

Lemma type_cast_true mty u :
  pr_cast_true mty = Ok u → pr_and_v mty (pr_from_true : MsType) = Ok u.
Proof.
  intros [Hc Hm]%pair_with_Ok. apply pair_with_Ok. cbn in *. split.
  - unfold Correctness.cast_true in Hc. unfold Correctness.and_v.
    destruct (corr mty) as [[] i d un]; try discriminate Hc; cbn in *. rewrite <-Hc. by destruct i.
  - unfold Malleability.cast_true in Hm. unfold Malleability.and_v. rewrite <-Hm. cbn.
    by destruct (mall mty) as [[] [] []].
Qed.

(** How far a candidate is from the bound on the length of scripts. *)
Definition cast_measure e : nat :=
  2 * pk_cost (ext (elem_ms e)) + (if bool_decide (cb (elem_ms e) = V) then 1 else 0).

(** The common part of the ten casts: the node has the types the cast computes. *)
Lemma cast_case f e ast d :
  elem_ok f e →
  Forall (well_typed ctx) (children ast) → Forall (all_nodes node_liftable) (children ast) →
  node_liftable ast → (∀ mty mext v, ms_eval v (MkMs ast mty mext) = ms_eval v (elem_ms e)) →
  (∀ mty mext, corr_rule ctx ast (corr mty) → ext_type_check ctx ast = Ok mext →
   some (dissat_cost d) = dissatisfiable (corr mty) ∧
   cast_measure e < cast_measure (MkElem (MkMs ast mty mext) d)) →
  no_panic (λ e', elem_ok f e' ∧ cast_measure e < cast_measure e')
    (let? mty := type_check ctx ast in
     let? mext := ext_type_check ctx ast in
     let? t := Ok ast in
     let? d := Ok d in
     Ok (MkElem (MkMs t mty mext) d)).
Proof.
  intros [_ Hf] Hch Hl Hn Hv Hr. pose proof (type_check_no_panic ctx ast) as Hp.
  destruct (type_check ctx ast) as [mty| |] eqn:Ht; [|done|done].
  destruct (ext_type_check_total ast mty) as [mext He]; [done..|]. rewrite He. cbn.
  destruct (Hr mty mext) as [Hd Hm]; [by apply type_check_rule|done|].
  split; [|done]. split; [by apply typed_node|]. intros v. cbn [elem_ms]. by rewrite Hv, Hf.
Qed.

Lemma false_typed : well_typed ctx (MkMs TFalse pr_from_false pr_from_false : ms_t).
Proof. by constructor. Qed.
Lemma true_typed : well_typed ctx (MkMs TTrue pr_from_true pr_from_true : ms_t).
Proof. by constructor. Qed.

Ltac solve_children :=
  repeat first [done | apply Forall_nil_2 | apply Forall_cons_2 | apply false_typed
               | apply true_typed | apply all_nodes_node].

Ltac solve_cast Hd :=
  let Hr := fresh in let Hext := fresh in
  intros ? ? Hr Hext; cbn in Hr, Hext; injection Hext as <-;
  unfold cast_measure, cb, cd in *; cbn;
  repeat match goal with
  | Hx : _ ∧ _ |- _ => destruct Hx
  | Hx : corr _ = _ |- _ => rewrite Hx; clear Hx; cbn
  | Hx : base _ = _ |- _ => rewrite Hx; clear Hx
  end; rewrite ?Hd; (split; [by rewrite ?orb_true_r|]); cbn; repeat case_bool_decide; try done; lia.

Lemma cast_ok f e c :
  c ∈ all_casts ctx → elem_ok f e →
  no_panic (λ e', elem_ok f e' ∧ cast_measure e < cast_measure e') (cast c e).
Proof.
  intros Hc He. pose proof He as [(Hwt & Hl & Hd) _].
  unfold all_casts in Hc. unfold cast.
  repeat (apply elem_of_cons in Hc as [->|Hc]); [..|by apply elem_of_nil in Hc];
    cbn [ast_type ext_data cast_node cast_comp].
  1,2,5,6,8,9,10:
    lazymatch goal with
    | |- context [result_bind (Ok ?t) _] => apply (cast_case f e t)
    end; try done; [solve_children..|solve_cast Hd].
  - apply (cast_case f e (OrI (MkMs TFalse pr_from_false pr_from_false) _)); try done;
      [solve_children..|solve_cast Hd].
  - apply (cast_case f e (OrI _ (MkMs TFalse pr_from_false pr_from_false))); try done;
      [solve_children..|intros; apply orb_false_r|solve_cast Hd].
  - destruct (pr_cast_true (ty (elem_ms e))) as [mty| |] eqn:Ht; [|done|].
    + pose proof (cast_case f e (AndV (elem_ms e) (MkMs TTrue pr_from_true pr_from_true))
                    (MkComp None (sat_cost (comp_ext_data e)) None)) as Hcase.
      change (type_check ctx _) with (pr_and_v (ty (elem_ms e)) (pr_from_true : MsType)) in Hcase.
      rewrite (type_cast_true _ _ Ht) in Hcase. apply Hcase; try done;
        [solve_children..|intros; apply andb_true_r|solve_cast Hd].
    + exfalso. revert Ht. cbn. unfold TypeProp.pair_with, Correctness.cast_true.
      by destruct (corr _) as [[] ? ? ?].
Qed.

(** ** The map of candidates *)

(** What the compiler's computations guarantee: no panic, [Q] of a result, and the fuel
    runs out only if [F]. *)
Definition runs {A} (F : Prop) (Q : A → Prop) (r : result Stop A) : Prop :=
  match r with
  | Ok a => Q a
  | Err StopFuel => F
  | Err _ => True
  | Panic => False
  end.

Lemma runs_impl {A} (F F' : Prop) (Q R : A → Prop) r :
  (F → F') → (∀ a, Q a → R a) → runs F Q r → runs F' R r.
Proof. destruct r as [|[]|]; simpl; auto. Qed.

Lemma stops_bind {A B} F (Q : A → Prop) (R : B → Prop) r (k : A → result Stop B) :
  runs F Q r → (∀ a, Q a → runs F R (k a)) → runs F R (let? a := r in k a).
Proof. destruct r as [|[]|]; simpl; auto. Qed.

Lemma runs_try_fold {A X} F (Q : A → Prop) (g : A → X → result Stop A) a l :
  Q a → (∀ a x, x ∈ l → Q a → runs F Q (g a x)) → runs F Q (try_fold g a l).
Proof.
  revert a. induction l as [|x l IH]; intros a Ha Hg; cbn [try_fold]; [done|].
  eapply stops_bind; [apply Hg; [by left|done]|]. intros a' Ha'. apply IH; [done|].
  intros ? ? ?. apply Hg. by right.
Qed.

(** The first probability is the second, or equal to it as a number. *)
Definition same_prob (d d' : option f64) : Prop := d = d' ∨ prob_cmp d d' = Ok Eq.

Lemma OrdF64_cmp_Ok x y c : OrdF64_cmp x y = Ok c ↔ f64_partial_cmp x y = Some c.
Proof. unfold OrdF64_cmp. destruct (f64_partial_cmp x y); naive_solver. Qed.

Lemma prob_cmp_trans d1 d2 d3 :
  prob_cmp d1 d2 = Ok Eq → prob_cmp d2 d3 = Ok Eq → prob_cmp d1 d3 = Ok Eq.
Proof.
  destruct d1, d2, d3; cbn; try done. rewrite !OrdF64_cmp_Ok. apply f64_cmp_trans.
Qed.
Lemma prob_cmp_sym d1 d2 : prob_cmp d1 d2 = Ok Eq → prob_cmp d2 d1 = Ok Eq.
Proof. destruct d1, d2; cbn; try done. rewrite !OrdF64_cmp_Ok. apply f64_cmp_sym. Qed.

Lemma prob_cmp_runs F d d' : runs F (λ _, True) (prob_cmp d d').
Proof. destruct d, d'; cbn; try done. unfold OrdF64_cmp. by case_match. Qed.

Lemma key_cmp_runs F k k' : runs F (λ _, True) (key_cmp k k').
Proof. unfold key_cmp. case_match; try done. apply prob_cmp_runs. Qed.

Definition in_map f (d : option f64) (x : CompilationKey * elem) : Prop :=
  elem_ok f x.2 ∧ check_local_validity ctx (elem_ms x.2) = Ok tt ∧
  key_ty x.1 = ty (elem_ms x.2) ∧ same_prob (dissat_prob x.1) d.

Definition map_ok f d (m : cmap (Pk := Pk)) : Prop := Forall (in_map f d) m.

Lemma lex_cmp_Eq xs ys : length xs = length ys → lex_cmp xs ys = Eq → xs = ys.
Proof.
  revert ys. induction xs as [|x xs IH]; intros [|y ys]; try done. intros [= Hl]. cbn [lex_cmp].
  destruct (Nat.compare_spec x y) as [->| |]; try done. intros Hc. f_equal. auto.
Qed.

Lemma Type_fields_inj t t' : Type_fields t = Type_fields t' → t = t'.
Proof.
  destruct t as [[b i d u] [ds sf nm]], t' as [[b' i' d' u'] [ds' sf' nm']].
  unfold Type_fields. cbn [corr mall base input dissatisfiable unit_ dissat safe non_malleable].
  intros [= Hb Hi Hd Hu Hds Hsf Hnm].
  assert (∀ x y, bool_index x = bool_index y → x = y) as Hbool by (by intros [] []).
  f_equal; f_equal; auto; clear Hd Hu Hsf Hnm Hbool.
  - by destruct b, b'.
  - by destruct i, i'.
  - by destruct ds, ds'.
Qed.

Lemma key_cmp_Eq k k' :
  key_cmp k k' = Ok Eq →
  key_ty k = key_ty k' ∧ prob_cmp (dissat_prob k) (dissat_prob k') = Ok Eq.
Proof.
  unfold key_cmp. destruct (lex_cmp _ _) eqn:Hl; try done. intros Hp. split; [|done].
  apply lex_cmp_Eq in Hl; [|done]. apply app_inj_2 in Hl as [Hl _]; [|done].
  by apply Type_fields_inj.
Qed.

Lemma map_insert_ok F f d k e m :
  in_map f d (k, e) → map_ok f d m → runs F (map_ok f d) (map_insert k e m).
Proof.
  intros Hke. induction 1 as [|[k' e'] m Hke' Hm IH]; cbn [map_insert]; [by apply Forall_singleton|].
  pose proof (key_cmp_runs F k k') as Hc.
  destruct (key_cmp k k') as [[]|[]|] eqn:Hk; cbn [result_bind runs] in *; try done.
  - apply key_cmp_Eq in Hk as [Ht Hp]. apply Forall_cons_2; [|done].
    destruct Hke as (? & ? & Hty & Hd), Hke' as (_ & _ & Hty' & Hd'). cbn [fst snd] in *.
    split; [done|]. split; [done|]. split; [cbn; congruence|done].
  - apply Forall_cons_2; [done|]. by apply Forall_cons_2.
  - eapply stops_bind; [exact IH|]. intros m' Hm'. by apply Forall_cons_2.
Qed.

Lemma check_keys_no_panic (pks : list Pk) c :
  check_x_only c pks ≠ Panic ∧ check_segwit_keys pks ≠ Panic.
Proof.
  induction pks as [|k l [IH1 IH2]]; [done|]. cbn [check_x_only check_segwit_keys]. split.
  - by destruct (is_x_only_key k).
  - unfold check_segwit_key. destruct (is_uncompressed k), (is_x_only_key k); try done.
Qed.

Ltac checks :=
  repeat first
    [ done | apply check_keys_no_panic
    | lazymatch goal with
      | |- (if ?b then _ else _) ≠ Panic => destruct b
      | |- result_bind _ _ ≠ Panic => apply bind_no_panic; [|intros ?]
      | |- match ?x with _ => _ end ≠ Panic => destruct x
      end ].

Lemma local_validity_no_panic ms : check_local_validity ctx ms ≠ Panic.
Proof.
  unfold check_local_validity, check_global_consensus_validity, check_global_policy_validity,
    check_local_consensus_validity, check_local_policy_validity.
  destruct ctx; unfold legacy_global_consensus, segwitv0_global_consensus, tap_global_consensus,
         bare_global_consensus, check_op_count, tap_local_consensus, legacy_local_policy,
         segwitv0_local_policy, max_satisfaction_size, max_satisfaction_witness_elements,
         check_segwit_key, ok_or, option_map; cbn [result_bind ctx_max_satisfaction_size];
    destruct (max_sat_size (ext ms)), (stack_elem_count_sat (ext ms)); cbn -[gtN Nat.ltb]; checks.
Qed.

Lemma Forall_list_filter {A} (P : A → Prop) (g : A → bool) l : Forall P l → Forall P (List.filter g l).
Proof. induction 1 as [|x l Hx _ IH]; cbn; [done|]. destruct (g x); auto. Qed.

Lemma insert_elem_ok F f d m e s :
  map_ok f d m → elem_ok f e →
  runs F (λ r, map_ok f d r.1 ∧ (r.2 = true → check_local_validity ctx (elem_ms e) = Ok tt))
    (insert_elem ctx m e s d).
Proof.
  intros Hm He. unfold insert_elem. case_match; [by split|].
  pose proof (local_validity_no_panic (elem_ms e)) as Hp.
  destruct (check_local_validity ctx (elem_ms e)) as [[]| |] eqn:Hv; [|by split|done].
  case_match; [by split|]. eapply stops_bind.
  - apply map_insert_ok; [|by apply Forall_list_filter]. split; [done|]. by repeat split; [..|left].
  - by intros m' Hm'.
Qed.

(** ** The closure under casts terminates *)

Section closure.
(** The bound on the length of a script. *)
Context (L : nat).
Hypothesis HL : ∀ ms, check_local_validity ctx ms = Ok tt → pk_cost (ext ms) ≤ L.

(** A candidate can be followed by at most [11 ^ (2 * L + 2)] others, each obtained by
    one of ten casts from one before it. *)
Definition closure_fuel : nat := 11 ^ (2 * L + 2).

Definition elem_weight e : nat := 11 ^ (2 * L + 2 - cast_measure e).
Definition queue_weight (q : list elem) : nat := sum_list (map elem_weight q).

Definition queued f e : Prop := elem_ok f e ∧ cast_measure e ≤ 2 * L + 1.

Lemma fits_measure e : check_local_validity ctx (elem_ms e) = Ok tt → cast_measure e ≤ 2 * L + 1.
Proof. intros Hc%HL. unfold cast_measure. case_bool_decide; lia. Qed.

Lemma queue_weight_app q q' : queue_weight (q ++ q') = queue_weight q + queue_weight q'.
Proof. unfold queue_weight. by rewrite map_app, sum_list_with_app. Qed.

Lemma queue_weight_cons e q : queue_weight (e :: q) = elem_weight e + queue_weight q.
Proof. done. Qed.

Lemma elem_weight_pos e : 0 < elem_weight e.
Proof. apply Nat.neq_0_lt_0, Nat.pow_nonzero. done. Qed.

Lemma queue_weight_one e : queue_weight [e] = elem_weight e.
Proof. unfold queue_weight. cbn [map sum_list sum_list_with foldr]. apply Nat.add_0_r. Qed.

Lemma weight_le e e' : cast_measure e < cast_measure e' → cast_measure e ≤ 2 * L + 1 →
  11 * elem_weight e' ≤ elem_weight e.
Proof.
  intros Hlt Hle. unfold elem_weight. rewrite <-Nat.pow_succ_r'. apply Nat.pow_le_mono_r; lia.
Qed.

(** The casts of the front of the queue add less than its weight. *)
Lemma closure_step_ok F f d s e casts m q :
  map_ok f d m → Forall (queued f) q → queued f e → Forall (λ c, c ∈ all_casts ctx) casts →
  runs F (λ r, map_ok f d r.1 ∧ Forall (queued f) r.2 ∧
               11 * queue_weight r.2 ≤ 11 * queue_weight q + length casts * elem_weight e)
    (try_fold (closure_step ctx s d e) (m, q) casts).
Proof.
  intros Hm Hq [He Hme]. revert m q Hm Hq. induction casts as [|c casts IH]; intros m q Hm Hq Hcs.
  { cbn [try_fold runs fst snd]. split; [done|]. split; [done|lia]. }
  apply Forall_cons_iff in Hcs as [Hc Hcs]. cbn [try_fold length].
  eapply (stops_bind _ (λ r, map_ok f d r.1 ∧ Forall (queued f) r.2 ∧
    11 * queue_weight r.2 ≤ 11 * queue_weight q + elem_weight e)).
  - unfold closure_step. pose proof (cast_ok f e c Hc He) as Hcast.
    destruct (cast c e) as [e'| |]; [|cbn [runs fst snd]; split; [done|]; split; [done|lia]|done].
    destruct Hcast as [He' Hlt]. eapply stops_bind; [by apply insert_elem_ok|].
    intros [m' b] [Hm' Hb]. cbn [fst snd runs] in *. split; [done|]. destruct b.
    + pose proof (fits_measure _ (Hb eq_refl)). rewrite queue_weight_app. split.
      * apply Forall_app. split; [done|]. by apply Forall_singleton.
      * pose proof (weight_le e e' Hlt Hme). rewrite queue_weight_one. lia.
    + split; [done|lia].
  - intros [m' q'] (Hm' & Hq' & Hw). cbn [fst snd] in *.
    eapply runs_impl; [| |by apply IH]; [done|].
    intros [m'' q''] (? & ? & ?). cbn [fst snd] in *. split; [done|]. split; [done|lia].
Qed.

Lemma closure_loop_ok F f d s fuel m q :
  map_ok f d m → Forall (queued f) q → (fuel < queue_weight q → F) →
  runs F (map_ok f d) (closure_loop ctx fuel s d m q).
Proof.
  revert m q. induction fuel as [|fuel IH]; intros m [|e q] Hm Hq HF; cbn [closure_loop]; try done.
  { apply HF. rewrite queue_weight_cons. pose proof (elem_weight_pos e). lia. }
  apply Forall_cons_iff in Hq as [He Hq].
  eapply stops_bind; [by apply (closure_step_ok F f); try done; apply list.Forall_forall|].
  intros [m' q'] (Hm' & Hq' & Hw). cbn [fst snd] in *. apply IH; [done..|].
  intros Hlt. apply HF. rewrite queue_weight_cons.
  pose proof (elem_weight_pos e). cbn [all_casts length] in Hw. lia.
Qed.

Lemma insert_elem_closure_ok (F : Prop) f d s cfuel m e :
  map_ok f d m → elem_ok f e → (cfuel < closure_fuel → F) →
  runs F (map_ok f d) (insert_elem_closure ctx cfuel m e s d).
Proof.
  intros Hm He HF. unfold insert_elem_closure. eapply stops_bind; [by apply insert_elem_ok|].
  intros [m' b] [Hm' Hb]. cbn [fst snd] in *. apply closure_loop_ok; [done| |].
  - destruct b; [|done]. apply Forall_singleton. split; [done|]. by apply fits_measure, Hb.
  - intros Hlt. apply HF. eapply Nat.lt_le_trans; [exact Hlt|]. destruct b; cbn; [|lia].
    unfold closure_fuel, elem_weight. rewrite Nat.add_0_r. apply Nat.pow_le_mono_r; lia.
Qed.
End closure.
End casts.

(** ** The policy compiler: the steps of the search

    The invariant of the cache, a Hoare logic for the computations that share it, and
    the insertion of candidates under it. *)

(** ** A unique dissatisfaction is a dissatisfaction *)

Section unique.
Context {Pk : Type} `{MiniscriptKey Pk} `{LockTimes}.

Definition uniquely (t : MsType) : Prop :=
  dissat (mall t) = Unique → dissatisfiable (corr t) = true.

Ltac use_unique :=
  repeat match goal with
  | Hx : ?P → _, Hy : ?P |- _ => specialize (Hx Hy)
  | Hx : dissatisfiable _ = true |- _ => rewrite Hx; clear Hx
  end; rewrite ?orb_true_r; first [done | congruence].

Lemma type_check_unique ctx (t : Terminal Pk NoExt) u :
  Forall (λ ms, uniquely (ty ms)) (children t) → type_check ctx t = Ok u → uniquely u.
Proof.
  intros Hch Ht. pose proof (type_check_rule _ _ _ Ht) as Hr. unfold uniquely, type_check, property_check in *.
  destruct t; cbn [children corr_rule] in Hch, Hr; rewrite ?Forall_cons_iff in Hch; destruct_and?;
    repeat match goal with Hx : corr u = _ |- _ => rewrite Hx; clear Hx end;
    try done; try (injection Ht as <-; done);
    try (case_match; [done|]; injection Ht as <-; done);
    apply pair_with_Ok in Ht as [_ Ht]; cbn in Ht; autounfold with rules in Ht;
    injection Ht as <-; cbn [dissat dissatisfiable]; unfold cd; intros Hd;
    repeat (case_match; try discriminate Hd); use_unique.
Qed.

Lemma well_typed_unique ctx (ms : Miniscript Pk NoExt) : well_typed ctx ms → uniquely (ty ms).
Proof.
  revert ms. apply well_typed_ind'. intros t mty mext Ht _ _ Hch. by eapply type_check_unique.
Qed.
End unique.

(** ** The search *)

Section search.
Context {Pk : Type} `{MiniscriptKey Pk} `{!MiniscriptKeyEq Pk} `{LockTimes} `{F64ArithOk}.
Context (ctx : ScriptContext).
Notation policy := (Concrete.Policy Pk).
Notation ms_t := (Miniscript Pk NoExt).
Notation elem := (AstElemExt (Pk := Pk)).
Notation MC := (M (PolicyCache (Pk := Pk))).
Notation meaning := ((Semantic.Policy Pk → bool) → bool).
Notation elem_ok := (elem_ok ctx).
Notation map_ok := (map_ok ctx).
Implicit Types (ms : ms_t) (e : elem) (f : meaning) (p : policy) (m : cmap (Pk := Pk)).

Definition meaning_of p : meaning := λ v, ceval v p.

(** *** Nodes over candidates *)

Definition compound (t : Terminal Pk NoExt) : Prop :=
  match t with
  | AndB _ _ | AndV _ _ | OrB _ _ | OrD _ _ | OrC _ _ | OrI _ _ | AndOr _ _ _ => True
  | _ => False
  end.

Definition weighted e : Prop := is_Some (branch_prob (comp_ext_data e)).

Lemma node_over_ok ast (subs : list elem) :
  compound ast → children ast = map elem_ms subs → Forall (typed ctx) subs → Forall weighted subs →
  no_panic (λ e', typed ctx e' ∧ ∃ mty mext, elem_ms e' = MkMs ast mty mext) (node_over ctx ast subs).
Proof.
  intros Hc Hch Hs Hw. unfold node_over.
  assert (Forall (well_typed ctx) (children ast) ∧ Forall (all_nodes node_liftable) (children ast)) as [Hwt Hl].
  { rewrite Hch. split; apply Forall_fmap; (eapply Forall_impl; [|exact Hs]); by intros e (? & ? & ?). }
  pose proof (type_check_no_panic ctx ast) as Hp.
  destruct (type_check ctx ast) as [mty| |] eqn:Ht; [|done|done].
  destruct (ext_type_check_total ctx ast mty) as [mext He]; [done..|]. rewrite He. cbn [result_bind].
  assert (no_panic (λ d, some (dissat_cost d) = dissatisfiable (corr mty))
            (cost_check ctx (λ n, unwrap (comp_ext_data <$> subs !! n)) ast)) as Hd.
  { apply type_check_rule in Ht. clear He Hwt Hl Hp.
    destruct ast; try done; cbn [children corr_rule] in *;
      repeat match goal with
      | Hx : _ = map elem_ms ?l |- _ => destruct l as [|[? [[] ? []]] ?]; cbn [map] in Hx; simplify_eq
      | Hx : Forall _ (_ :: _) |- _ => apply Forall_cons_iff in Hx as [? ?]
      | Hx : weighted _ |- _ => destruct Hx as [? ?]; simplify_eq/=
      | Hx : typed _ _ |- _ => destruct Hx as (_ & _ & Hx); cbn in Hx
      | Hx : _ ∧ _ |- _ => destruct Hx
      | Hx : corr _ = _ |- _ => rewrite Hx; clear Hx
      end; cbn; try done; try congruence;
      try (case_match; cbn); repeat match goal with Hx : _ = cd _ |- _ => rewrite <-Hx; clear Hx end;
      done. }
  destruct (cost_check _ _ _) as [d| |]; [|done|done]. cbn [result_bind no_panic] in *.
  split; [|by eexists _, _]. apply typed_node; try done; by destruct ast.
Qed.

(** *** Computations over the cache *)

Definition cached (x : cache_key (Pk := Pk) * cmap) : Prop :=
  map_ok (meaning_of x.1.1.1) x.1.2 x.2 ∧
  Forall (λ y, prob_cmp (dissat_prob y.1) x.1.2 = Ok Eq) x.2.

Definition cache_ok (c : PolicyCache (Pk := Pk)) : Prop := Forall cached c.

(** From a consistent cache, [mc] reaches a consistent one; [Q] holds of its result and
    the fuel runs out only if [F]. *)
Definition hoare {A} (F : Prop) (Q : A → Prop) (mc : MC A) : Prop :=
  ∀ c, cache_ok c → runs F (λ r, cache_ok r.2 ∧ Q r.1) (mc c).

Section rules.
Context {F : Prop}.

Lemma hoare_ret {A} (Q : A → Prop) a : Q a → hoare F Q (mret a).
Proof. by intros Ha c Hc. Qed.

Lemma hoare_lift {A} (Q : A → Prop) r : runs F Q r → hoare F Q (mlift r).
Proof. intros Hr c Hc. eapply stops_bind; [exact Hr|]. by intros a Ha. Qed.

Lemma hoare_bind {A B} (Q : A → Prop) (R : B → Prop) mc k :
  hoare F Q mc → (∀ a, Q a → hoare F R (k a)) → hoare F R (mbind mc k).
Proof.
  intros Hm Hk c Hc. eapply stops_bind; [by apply Hm|]. intros [a c'] [Hc' Ha]. by apply Hk.
Qed.

Lemma hoare_fold {A X} (Q : A → Prop) (g : A → X → MC A) l a :
  Q a → (∀ a x, x ∈ l → Q a → hoare F Q (g a x)) → hoare F Q (mfold g a l).
Proof.
  revert a. induction l as [|x l IH]; intros a Ha Hg; cbn [mfold]; [by apply hoare_ret|].
  eapply hoare_bind; [apply Hg; [by left|done]|]. intros a' Ha'. apply IH; [done|].
  intros ? ? ?. apply Hg. by right.
Qed.

Lemma hoare_consequence {A} (Q R : A → Prop) mc :
  (∀ a, Q a → R a) → hoare F Q mc → hoare F R mc.
Proof.
  intros HQR Hm c Hc. eapply runs_impl; [exact id| |by apply Hm]. intros [a c'] [? ?]. cbn. auto.
Qed.

Lemma hoare_index {A} (Q : A → Prop) l i x : l !! i = Some x → Q x → hoare F Q (index l i).
Proof. intros Hl Hx. apply hoare_lift. by rewrite Hl. Qed.

Lemma no_panic_hoare {A} (Q : A → Prop) (ret : cmap) (R : cmap → Prop) (r : result ErrorKind A) k :
  no_panic Q r → R ret → (∀ a, Q a → hoare F R (k a)) →
  hoare F R match r with Ok a => k a | Err _ => mret ret | Panic => mlift Panic end.
Proof. destruct r; cbn; intros Hr HR Hk; [by apply Hk|by apply hoare_ret|done]. Qed.
End rules.

(** *** The cache *)

Lemma cache_key_eqb_ok F p s d p' s' d' :
  runs F (λ b, b = true → p = p' ∧ prob_cmp d d' = Ok Eq) (cache_key_eqb (p, s, d) (p', s', d')).
Proof.
  unfold cache_key_eqb. case_bool_decide as Hp; [|done]. subst.
  unfold OrdF64_cmp. destruct (f64_partial_cmp s s') as [c|]; [|done]. cbn [result_bind].
  destruct c; [|done..]. pose proof (prob_cmp_runs F d d').
  destruct (prob_cmp d d') as [[]|[]|]; try done.
Qed.

Lemma strict_map_ok f d d' m :
  map_ok f d' m → Forall (λ y, prob_cmp (dissat_prob y.1) d' = Ok Eq) m →
  prob_cmp d d' = Ok Eq → map_ok f d m.
Proof.
  unfold CompilerSteps.map_ok. rewrite !list.Forall_forall. intros Hm Hs Hd y Hin.
  destruct (Hm y Hin) as (He & Hv & Ht & _). split; [done|]. split; [done|]. split; [done|].
  right. eapply prob_cmp_trans; [by apply Hs|]. by apply prob_cmp_sym.
Qed.

Lemma cache_get_ok F p s d c :
  cache_ok c →
  runs F (λ o, match o with Some m => map_ok (meaning_of p) d m | None => True end)
    (cache_get (p, s, d) c).
Proof.
  induction 1 as [|[[[p' s'] d'] m] c [Hm Hs] Hc IH]; cbn [cache_get]; [done|].
  eapply stops_bind; [apply cache_key_eqb_ok|]. intros b Hb. destruct b; [|done].
  destruct (Hb eq_refl) as [-> Hd]. by eapply strict_map_ok.
Qed.

Lemma cache_insert_ok F p s d m c :
  cache_ok c → cached ((p, s, d), m) → runs F cache_ok (cache_insert (p, s, d) m c).
Proof.
  intros Hc Hm. induction Hc as [|[[[p' s'] d'] m'] c Hm' Hc IH]; cbn [cache_insert].
  { by apply Forall_singleton. }
  eapply stops_bind; [apply cache_key_eqb_ok|]. intros b Hb. destruct b.
  - destruct (Hb eq_refl) as [-> Hd], Hm as [Hm Hs]. apply Forall_cons_2; [|done].
    cbn [fst snd] in *. split; cbn [fst snd].
    + eapply strict_map_ok; [exact Hm|exact Hs|by apply prob_cmp_sym].
    + eapply Forall_impl; [|exact Hs]. intros y Hy. eapply prob_cmp_trans; [exact Hy|exact Hd].
  - eapply stops_bind; [exact IH|]. intros c' Hc'. by apply Forall_cons_2.
Qed.

(** *** Policies the compiler accepts, and how deep its recursion is *)

(** The checks of [is_valid] on the shape of the nodes, and relative lock times that are
    relative lock times. *)
Inductive compilable : policy → Prop :=
  | compilable_node p :
      node_shape p → (∀ n, p = Concrete.Older n → is_relative_lock_time n = true) →
      Forall compilable (branches p) → compilable p.

Fixpoint rank_of p : nat :=
  match p with
  | Concrete.And subs => 1 + sum_list (map rank_of subs)
  | Concrete.Or subs => 1 + sum_list (map (λ '(_, sub), rank_of sub) subs)
  | Concrete.Threshold _ subs => 1 + sum_list (map (λ sub, S (rank_of sub)) subs)
  | _ => 1
  end.

(** The same policy is compiled again without a dissatisfaction. *)
Definition rank p (d : option f64) : nat := 2 * rank_of p + (if d then 1 else 0).

Lemma rank_branch p q : q ∈ branches p → rank_of q < rank_of p.
Proof.
  assert (∀ l, q ∈ l → rank_of q ≤ sum_list (map rank_of l)) as Hsum.
  { intros l. induction 1 as [x l|x y l _ IH]; cbn; lia. }
  intros Hq.
  destruct p; cbn [branches rank_of] in *; try (by apply elem_of_nil in Hq).
  - specialize (Hsum _ Hq). lia.
  - specialize (Hsum _ Hq). rewrite map_odds. lia.
  - assert (sum_list (map rank_of subs) ≤ sum_list (map (λ sub, S (rank_of sub)) subs)).
    { clear. induction subs; cbn; lia. }
    specialize (Hsum _ Hq). lia.
Qed.

Lemma rank_lt p q d d' : rank_of q < rank_of p → rank q d' < rank p d.
Proof. unfold rank. intros. destruct d, d'; lia. Qed.

Lemma compilable_inv p :
  compilable p → node_shape p ∧ (∀ n, p = Concrete.Older n → is_relative_lock_time n = true) ∧
  Forall compilable (branches p).
Proof. by inversion 1. Qed.

Lemma compilable_branch p q : compilable p → q ∈ branches p → compilable q.
Proof. intros [? _ _ Hb]. rewrite list.Forall_forall in Hb. auto. Qed.

(** *** One policy, given what its recursive calls return *)

Section at_policy.
(** The bound on the length of scripts, the fuel of the casts and what running out of
    fuel implies. *)
Context (L cfuel : nat) (F : Prop).
Hypothesis HL : ∀ ms, check_local_validity ctx ms = Ok tt → pk_cost (ext ms) ≤ L.
Hypothesis HF : cfuel < closure_fuel L → F.
Context (pol : policy) (s : f64) (d : option f64).
Context (rec : policy → f64 → option f64 → MC (cmap (Pk := Pk))).
Hypothesis Hpol : compilable pol.
Hypothesis Hrec : ∀ q s' d', compilable q → rank q d' < rank pol d →
  hoare F (map_ok (meaning_of q) d') (rec q s' d').

Notation goal_map := (map_ok (meaning_of pol) d).

Lemma map_ok_ext f f' d' m : (∀ v, f v = f' v) → map_ok f d' m → map_ok f' d' m.
Proof.
  intros Hf. unfold CompilerSteps.map_ok. apply Forall_impl. intros x [[Ht He] Hx].
  split; [|done]. split; [done|]. intros v. by rewrite He, Hf.
Qed.

Lemma rec_ok q s' d' :
  compilable q → rank_of q < rank_of pol → hoare F (map_ok (meaning_of q) d') (rec q s' d').
Proof. intros. apply Hrec; [done|by apply rank_lt]. Qed.

Lemma insert_cast_ok d' m c x :
  c ∈ all_casts ctx → goal_map m → in_map ctx (meaning_of pol) d' x →
  hoare F goal_map (insert_cast ctx cfuel s d m c x).
Proof.
  intros Hc Hm [Hx _]. unfold insert_cast. eapply no_panic_hoare; [by eapply cast_ok|done|].
  intros e [He _]. apply hoare_lift. by eapply insert_elem_closure_ok.
Qed.

Lemma insert_best_wrapped_ok ret e :
  goal_map ret → elem_ok (meaning_of pol) e →
  hoare F goal_map (insert_best_wrapped ctx cfuel rec pol s d ret e).
Proof.
  intros Hr He. unfold insert_best_wrapped.
  eapply hoare_bind; [apply hoare_lift; by eapply insert_elem_closure_ok|].
  intros m Hm. destruct d as [x|] eqn:Hd; [|by apply hoare_ret].
  apply hoare_fold; [done|]. intros m' c Hc Hm'.
  eapply hoare_bind; [apply Hrec; [done|unfold rank; lia]|]. intros xs Hxs.
  apply hoare_fold; [done|]. intros m'' y Hy Hm''. rewrite <-Hd in *.
  eapply insert_cast_ok; [done..|]. unfold CompilerSteps.map_ok in Hxs.
  rewrite list.Forall_forall in Hxs. by apply Hxs.
Qed.

Lemma insert_terminal_ok ret t :
  goal_map ret → leaf_ok t → (∀ mty mext v, ms_eval v (MkMs t mty mext) = meaning_of pol v) →
  hoare F goal_map (insert_terminal ctx cfuel rec pol s d ret t).
Proof.
  intros Hr Ht Hv. unfold insert_terminal. destruct (terminal_typed ctx t Ht) as (e & -> & He & Hev).
  eapply hoare_bind; [by apply (hoare_lift (λ e', e' = e))|]. intros ? ->.
  apply insert_best_wrapped_ok; [done|]. split; [done|]. intros v. by rewrite Hev, Hv.
Qed.

Lemma set_branch_prob_ok f w e : elem_ok f e → elem_ok f (set_branch_prob w e).
Proof. done. Qed.

Ltac foralls := repeat first [apply Forall_nil_2 | apply Forall_cons_2]; first [done | by eexists].

(** A binary fragment and the connective it stands for. *)
Definition joins (bin : ms_t → ms_t → Terminal Pk NoExt) (g : bool → bool → bool) : Prop :=
  ∀ a b, compound (bin a b) ∧ children (bin a b) = [a; b] ∧
         ∀ v mty mext, ms_eval v (MkMs (bin a b) mty mext) = g (ms_eval v a) (ms_eval v b).

Lemma compile_binary_ok f1 d1 f2 d2 bin g ret l r w :
  joins bin g → (∀ v, g (f1 v) (f2 v) = meaning_of pol v) →
  goal_map ret → map_ok f1 d1 l → map_ok f2 d2 r →
  hoare F goal_map (compile_binary ctx cfuel rec pol s d ret l r w bin).
Proof.
  intros Hb Hg Hret Hl Hr. unfold compile_binary.
  unfold CompilerSteps.map_ok in Hl, Hr. rewrite list.Forall_forall in Hl, Hr.
  apply hoare_fold; [done|]. intros m1 x Hx Hm1. apply hoare_fold; [done|]. intros m2 y Hy Hm2.
  destruct (Hl x Hx) as [[Hx1 Hx2] _], (Hr y Hy) as [[Hy1 Hy2] _].
  destruct (Hb (elem_ms x.2) (elem_ms y.2)) as (Hc & Hch & Hv).
  unfold insert_candidate, binary. eapply no_panic_hoare; [|done|].
  - apply node_over_ok; [done|exact Hch|foralls..].
  - intros e [He (mty & mext & Hms)]. apply insert_best_wrapped_ok; [done|]. split; [done|].
    intros v. by rewrite Hms, Hv, Hx2, Hy2, Hg.
Qed.

Lemma compile_tern_ok f1 d1 f2 d2 f3 ret a b c w :
  (∀ v, (f1 v && f2 v) || f3 v = meaning_of pol v) →
  goal_map ret → map_ok f1 d1 a → map_ok f2 d2 b →
  Forall (λ x, elem_ok f3 x.2) c →
  hoare F goal_map (compile_tern ctx cfuel rec pol s d ret a b c w).
Proof.
  intros Hg Hret Ha Hb Hc. unfold compile_tern.
  unfold CompilerSteps.map_ok in Ha, Hb. rewrite list.Forall_forall in Ha, Hb, Hc.
  apply hoare_fold; [done|]. intros m1 x Hx Hm1. apply hoare_fold; [done|]. intros m2 y Hy Hm2.
  apply hoare_fold; [done|]. intros m3 z Hz Hm3.
  destruct (Ha x Hx) as [[Hx1 Hx2] _], (Hb y Hy) as [[Hy1 Hy2] _], (Hc z Hz) as [Hz1 Hz2].
  unfold insert_candidate, ternary. eapply no_panic_hoare; [|done|].
  - apply node_over_ok; [done|done|foralls..].
  - intros e [He (mty & mext & Hms)]. apply insert_best_wrapped_ok; [done|]. split; [done|].
    intros v. rewrite Hms. cbn [ms_eval]. by rewrite Hx2, Hy2, Hz2, Hg.
Qed.
End at_policy.
End search.
