(* ===== verification/CompilerCorrect.v ===== *)
(** * The policy compiler is correct

    Whatever [compile] returns is well typed, of type [B], safe, non-malleable, within
    the limits of its context, and has the meaning of the policy; and on a valid policy
    the search ends, without a panic other than a comparison with NaN. *)

From S2P Require Import Prelude Types Extension Property Ast Typing Resources Iter Tokens Context ScriptNum Script Encoding PolicyNormal Lift LiftProps ConcreteProps CompCost Compiler CompilerSteps.
From S2P Require Correctness Malleability ExtraProps Semantic Concrete.
Import Semantic(MiniscriptKeyEq).
Import Concrete(branches).

Section cases.
Context {Pk : Type} `{MiniscriptKey Pk} `{!MiniscriptKeyEq Pk} `{LockTimes} `{F64ArithOk}.
Context (ctx : ScriptContext).
Notation policy := (Concrete.Policy Pk).
Notation ms_t := (Miniscript Pk NoExt).
Notation elem := (AstElemExt (Pk := Pk)).
Notation MC := (M (PolicyCache (Pk := Pk))).
Notation meaning := ((Semantic.Policy Pk → bool) → bool).
Notation elem_ok := (elem_ok ctx).
Notation map_ok := (map_ok ctx).
Implicit Types (ms : ms_t) (e : elem) (f : meaning) (p : policy) (m : cmap (Pk := Pk)).

Context (L cfuel : nat) (F : Prop).
Hypothesis HL : ∀ ms, check_local_validity ctx ms = Ok tt → pk_cost (ext ms) ≤ L.
Hypothesis HF : cfuel < closure_fuel L → F.
Context (pol : policy) (s : f64) (d : option f64).
Context (rec : policy → f64 → option f64 → MC (cmap (Pk := Pk))).
Hypothesis Hpol : compilable pol.
Hypothesis Hrec : ∀ q s' d', compilable q → rank q d' < rank pol d →
  hoare ctx F (map_ok (meaning_of q) d') (rec q s' d').

Notation goal_map := (map_ok (meaning_of pol) d).
Notation hoare := (hoare ctx F).

(** ** Conjunctions *)

Lemma joins_and_b : joins AndB andb. Proof. done. Qed.
Lemma joins_and_v : joins AndV andb. Proof. done. Qed.
Lemma joins_or_b : joins OrB orb. Proof. done. Qed.
Lemma joins_or_d : joins OrD orb. Proof. done. Qed.
Lemma joins_or_c : joins OrC orb. Proof. done. Qed.
Lemma joins_or_i : joins OrI orb. Proof. done. Qed.

(** Run the next recursive call, or the next insertion of candidates, and keep what it
    guarantees. *)
Ltac call_rec m := eapply hoare_bind; [eapply rec_ok; [eassumption|eassumption|eauto]|]; intros m ?.
Ltac call_index x := eapply hoare_bind; [by eapply (hoare_index ctx (λ y, y = x))|]; intros ? ->.
Ltac call_ret ret := eapply hoare_bind; [|intros ret ?].

(** The maps decide the meanings of the branches. *)
Ltac maps :=
  lazymatch goal with
  | |- CompilerSteps.map_ok _ _ _ _ => first [eassumption | apply Forall_nil_2]
  | |- Forall _ _ => eauto using Forall_nil_2, Forall_cons_2
  | |- _ => idtac
  end.
Ltac binary := eapply compile_binary_ok; maps; eauto using joins_and_b, joins_and_v.
Ltac ternary := eapply compile_tern_ok; maps; eauto.

Lemma compile_and_ok subs :
  pol = Concrete.And subs → hoare goal_map (compile_and ctx cfuel rec pol subs s d).
Proof.
  intros Hp. unfold compile_and. destruct (compilable_inv _ Hpol) as (Hshape & _ & Hb). rewrite Hp in Hshape, Hb. cbn in Hshape.
  destruct subs as [|p0 [|p1 [|? ?]]]; try discriminate Hshape.
  cbn [branches] in Hb. apply Forall_cons_iff in Hb as [Hc0 Hb]. apply Forall_cons_iff in Hb as [Hc1 _].
  assert (rank_of p0 < rank_of pol) as Hr0 by (rewrite Hp; apply rank_branch; by left).
  assert (rank_of p1 < rank_of pol) as Hr1 by (rewrite Hp; apply rank_branch; by right; left).
  assert (∀ v, meaning_of p0 v && meaning_of p1 v = meaning_of pol v) as Hv.
  { intros v. rewrite Hp. unfold meaning_of. cbn. by rewrite andb_true_r. }
  assert (∀ v, meaning_of p1 v && meaning_of p0 v = meaning_of pol v) as Hv'.
  { intros v. by rewrite andb_comm. }
  cbn [length Nat.eqb negb].
  call_index p0.
  call_index p1.
  call_rec l. call_rec r. call_rec zr. call_rec zl.
  call_ret m1. { binary. }
  call_ret m2. { binary. }
  call_ret m3. { binary. }
  call_ret m4. { binary. }
  destruct (terminal_typed ctx TFalse) as (z & -> & Hz & Hzv); [done|].
  eapply hoare_bind; [by apply (hoare_lift _ (λ e', e' = z))|]. intros ? ->.
  assert (elem_ok (λ _, false) z) as Hze by (split; [done|]; intros v; by rewrite Hzv).
  call_ret m5; (eapply compile_tern_ok with (f3 := λ _, false); maps; eauto);
    intros v; rewrite orb_false_r; auto.
Qed.

(** ** Disjunctions *)

Lemma compile_and_or_ok ret x c w wc :
  compilable (Concrete.And x) → compilable c →
  rank_of (Concrete.And x) < rank_of pol → rank_of c < rank_of pol →
  (∀ v, meaning_of (Concrete.And x) v || meaning_of c v = meaning_of pol v) → goal_map ret →
  hoare goal_map (compile_and_or ctx cfuel rec pol ret x c w wc s d).
Proof.
  intros Hx Hc Hrx Hrc Hv Hret. unfold compile_and_or. destruct (compilable_inv _ Hx) as (Hshape & _ & Hb). cbn in Hshape.
  destruct x as [|p0 [|p1 [|? ?]]]; try discriminate Hshape.
  cbn [branches] in Hb. apply Forall_cons_iff in Hb as [Hc0 Hb]. apply Forall_cons_iff in Hb as [Hc1 _].
  assert (rank_of p0 < rank_of pol) as Hr0 by (etrans; [apply rank_branch|exact Hrx]; by left).
  assert (rank_of p1 < rank_of pol) as Hr1 by (etrans; [apply rank_branch|exact Hrx]; by right; left).
  assert (∀ v, (meaning_of p0 v && meaning_of p1 v) || meaning_of c v = meaning_of pol v) as Hv0.
  { intros v. rewrite <-Hv. unfold meaning_of. cbn. by rewrite andb_true_r. }
  assert (∀ v, (meaning_of p1 v && meaning_of p0 v) || meaning_of c v = meaning_of pol v) as Hv1.
  { intros v. by rewrite <-Hv0, (andb_comm (meaning_of p0 v)). }
  call_index p0.
  call_rec a1. call_rec a2.
  call_index p1.
  call_rec b1. call_rec b2. call_rec mc.
  assert (Forall (λ x, elem_ok (meaning_of c) x.2) mc).
  { eapply Forall_impl; [|eassumption]. by intros ? [? _]. }
  call_ret m1; ternary.
Qed.

Lemma hoare_fold_prefix {A X} (P : list X → A → Prop) (g : A → X → MC A) l a :
  P [] a → (∀ l1 x l2 a, l = l1 ++ x :: l2 → P l1 a → hoare (P (l1 ++ [x])) (g a x)) →
  hoare (P l) (mfold g a l).
Proof.
  intros Ha Hg.
  assert (∀ l2 l1 a, l = l1 ++ l2 → P l1 a → hoare (P l) (mfold g a l2)) as Hall; [|by eapply (Hall l [])].
  induction l2 as [|x l2 IH]; intros l1 a1 Hl HP; cbn [mfold].
  - apply hoare_ret. by rewrite app_nil_r in Hl; subst.
  - eapply hoare_bind; [by eapply Hg|]. intros a2 Ha2. apply (IH (l1 ++ [x])); [|done].
    by rewrite <-app_assoc.
Qed.

Lemma compile_probs_ok p sat probs :
  compilable p → rank_of p < rank_of pol →
  hoare (Forall2 (λ d' m, map_ok (meaning_of p) d' m) probs) (compile_probs rec p sat probs).
Proof.
  intros Hc Hr. unfold compile_probs.
  apply (hoare_fold_prefix (λ l comps, Forall2 (λ d' m, map_ok (meaning_of p) d' m) l comps)); [constructor|].
  intros l1 d' l2 comps _ Hcomps. call_rec m. apply hoare_ret. by apply Forall2_app; [|repeat constructor].
Qed.

Lemma index_map_ok p (probs : list (option f64)) comps i :
  Forall2 (λ d' m, map_ok (meaning_of p) d' m) probs comps → i < length probs →
  hoare (λ m, ∃ d', map_ok (meaning_of p) d' m) (index comps i).
Proof.
  intros Hf Hi. apply lookup_lt_is_Some in Hi as [d' Hd].
  destruct (Forall2_lookup_l _ _ _ _ _ Hf Hd) as (m & Hm & Hok).
  eapply hoare_index; [exact Hm|]. by exists d'.
Qed.

Lemma compile_or_ok subs :
  pol = Concrete.Or subs → hoare goal_map (compile_or ctx cfuel rec pol subs s d).
Proof.
  intros Hp. unfold compile_or. destruct (compilable_inv _ Hpol) as (Hshape & _ & Hb). rewrite Hp in Hshape, Hb. cbn in Hshape.
  destruct subs as [|[w0 p0] [|[w1 p1] [|? ?]]]; try discriminate Hshape.
  cbn [branches map snd] in Hb. apply Forall_cons_iff in Hb as [Hc0 Hb]. apply Forall_cons_iff in Hb as [Hc1 _].
  assert (rank_of p0 < rank_of pol) as Hr0 by (rewrite Hp; apply rank_branch; by left).
  assert (rank_of p1 < rank_of pol) as Hr1 by (rewrite Hp; apply rank_branch; by right; left).
  assert (∀ v, meaning_of p0 v || meaning_of p1 v = meaning_of pol v) as Hv.
  { intros v. rewrite Hp. unfold meaning_of. cbn. by rewrite orb_false_r. }
  assert (∀ v, meaning_of p1 v || meaning_of p0 v = meaning_of pol v) as Hv'.
  { intros v. by rewrite orb_comm. }
  call_index (w0, p0).
  call_index (w1, p1).
  cbn [fst snd]. eapply (hoare_bind _ goal_map).
  { destruct p0; try (apply hoare_ret; by apply Forall_nil_2).
    eapply compile_and_or_ok; eauto. by apply Forall_nil_2. }
  intros m0 Hm0. eapply (hoare_bind _ goal_map).
  { destruct p1; try (by apply hoare_ret). by eapply compile_and_or_ok; eauto. }
  intros m1 Hm1. eapply hoare_bind; [by apply (compile_probs_ok p0)|]. intros ls Hls.
  eapply hoare_bind; [by apply (compile_probs_ok p1)|]. intros rs Hrs.
  assert (∀ i j g ret w, i < 4 → j < 4 → joins g orb → goal_map ret →
    hoare goal_map (let! l := index ls i in let! r := index rs j in
                    compile_binary ctx cfuel rec pol s d ret l r w g)) as Hlr.
  { intros. eapply hoare_bind; [by eapply index_map_ok|]. intros l [dl Hl].
    eapply hoare_bind; [by eapply index_map_ok|]. intros r [dr Hr]. binary. }
  assert (∀ i j g ret w, i < 4 → j < 4 → joins g orb → goal_map ret →
    hoare goal_map (let! r := index rs i in let! l := index ls j in
                    compile_binary ctx cfuel rec pol s d ret r l w g)) as Hrl.
  { intros. eapply hoare_bind; [by eapply index_map_ok|]. intros r [dr Hr].
    eapply hoare_bind; [by eapply index_map_ok|]. intros l [dl Hl]. binary. }
  do 9 (eapply hoare_bind;
    [first [apply Hlr | apply Hrl];
       [lia|lia|auto using joins_or_b, joins_or_d, joins_or_c, joins_or_i|eassumption]|];
    intros ? ?; cbv beta in *).
  apply Hrl; [lia|lia|apply joins_or_i|eassumption].
Qed.

(** ** Thresholds *)

Lemma min_by_cost_ok (P : elem → Prop) s' d' l : Forall P l → runs F P (min_by_cost s' d' l).
Proof.
  intros Hl. unfold min_by_cost.
  assert (Forall (λ x : f64 * elem, P x.2) (map (λ x, (cost_1d x s' d', x)) l)) as Hp by by apply Forall_fmap.
  destruct (map _ l) as [|x xs]; [done|]. clear Hl. revert x Hp.
  induction xs as [|y xs IH]; intros x Hp; cbn [min_cost].
  { by apply Forall_cons_iff in Hp as [? _]. }
  apply Forall_cons_iff in Hp as [Hx Hp]. pose proof Hp as [Hy Hxs]%Forall_cons_iff.
  unfold OrdF64_cmp. destruct (f64_partial_cmp x.1 y.1) as [[]|]; cbn [result_bind]; try done;
    apply IH; by apply Forall_cons_2.
Qed.

(** What [best] returns: a candidate of the base type that can be dissatisfied. *)
Definition chosen (bt : Base) p e : Prop :=
  elem_ok (meaning_of p) e ∧ cb (elem_ms e) = bt ∧ cu (elem_ms e) = true ∧ cd (elem_ms e) = true.

Lemma best_ok bt p s' d' :
  compilable p → rank_of p < rank_of pol → hoare (chosen bt p) (best rec bt p s' d').
Proof.
  intros Hc Hr. unfold best. call_rec m. apply hoare_lift, min_by_cost_ok. apply Forall_fmap.
  rewrite list.Forall_forall. intros [k e] Hin. apply list_elem_of_In, filter_In in Hin as [Hin Hb].
  bools. repeat match goal with Hx : bool_decide _ = true |- _ => apply bool_decide_eq_true in Hx end.
  match goal with Hx : map_ok _ _ m |- _ => unfold CompilerSteps.map_ok in Hx; rewrite list.Forall_forall in Hx;
    destruct (Hx (k, e)) as (He & _ & Ht & _); [by apply list_elem_of_In|] end.
  cbn [fst snd compose] in *. unfold chosen, cb, cu, cd. cbn [snd compose]. rewrite <-Ht.
  split; [done|]. split; [done|]. split; [done|]. rewrite Ht.
  destruct He as [(Hwt & _) _]. by apply (well_typed_unique ctx).
Qed.

(** The accumulators of the loop after the branches [ps]. *)
Record thresh_inv (ps : list policy) (acc : ThreshAcc) : Prop := {
  inv_es : Forall2 (chosen B) ps (best_es acc);
  inv_ws : Forall2 (chosen W) ps (best_ws acc);
  inv_min : (min_value acc).1 < Nat.max 1 (length ps);
}.

Lemma thresh_loop_ok sp dp subs a :
  Forall compilable subs → Forall (λ p, rank_of p < rank_of pol) subs →
  hoare (thresh_inv subs)
    (mfold (thresh_step rec sp dp) (MkThreshAcc [] [] (0, a)) (enumerate subs)).
Proof.
  intros Hc Hr.
  assert (map snd (enumerate subs) = subs) as Hsnd.
  { unfold enumerate. apply snd_zip. by rewrite length_seq. }
  eapply hoare_consequence; [|apply (hoare_fold_prefix (λ l, thresh_inv (map snd l)))].
  - intros acc. by rewrite Hsnd.
  - split; cbn; [constructor..|lia].
  - intros l1 [i p] l2 acc Hl [Hes Hws Hmin]. unfold thresh_step. cbn [fst snd].
    assert (p ∈ subs) as Hp.
    { rewrite <-Hsnd, Hl, map_app. apply elem_of_app. right. by left. }
    assert (i = length l1) as ->.
    { assert (enumerate subs !! length l1 = Some (i, p)) as Hi by (by rewrite Hl, list_lookup_middle).
      unfold enumerate in Hi. apply lookup_zip_with_Some in Hi as (? & ? & [= -> ->] & Hi & _).
      by apply lookup_seq in Hi as [-> _]. }
    rewrite list.Forall_forall in Hc, Hr.
    eapply hoare_bind; [by apply best_ok; auto|]. intros be Hbe.
    eapply hoare_bind; [by apply best_ok; auto|]. intros bw Hbw.
    apply hoare_ret. rewrite map_app. cbn [map snd].
    split; cbn [best_es best_ws min_value]; 
      [apply Forall2_app; [done|constructor; [done|constructor]]..|].
    rewrite length_map in Hmin. rewrite length_app, length_map. cbn. case_match; cbn; lia.
Qed.

(** *** The children *)

Lemma try_map_index {A} (l : list A) i n :
  i + n ≤ length l →
  try_map (E := Stop) (λ j, unwrap (l !! j)) (seq i n) = Ok (take n (drop i l)).
Proof.
  revert i. induction n as [|n IH]; intros i Hi; [done|]. cbn [seq try_map].
  destruct (lookup_lt_is_Some_2 l i) as [x Hx]; [lia|].
  rewrite Hx, IH by lia. cbn. by rewrite (drop_S l x i Hx).
Qed.

Lemma filter_other i j n :
  i < j ∨ j + n ≤ i → List.filter (λ k, negb (k =? i)) (seq j n) = seq j n.
Proof.
  revert j. induction n as [|n IH]; intros j Hj; [done|]. cbn [seq List.filter].
  destruct (Nat.eqb_spec j i); [lia|]. cbn [negb]. by rewrite IH by lia.
Qed.

Lemma filter_not_index i n :
  i < n → List.filter (λ k, negb (k =? i)) (seq 0 n) = seq 0 i ++ seq (S i) (n - S i).
Proof.
  intros Hi. replace n with (i + S (n - S i)) at 1 by lia.
  rewrite seq_app, filter_app. cbn [seq List.filter Nat.add].
  rewrite filter_other by lia. by rewrite Nat.eqb_refl, filter_other by lia.
Qed.

Lemma try_map_app {E A X} (g : A → result E X) l1 l2 :
  try_map g (l1 ++ l2) = let? a := try_map g l1 in let? b := try_map g l2 in Ok (a ++ b).
Proof.
  induction l1 as [|x l1 IH]; cbn [app try_map]; [by destruct (try_map g l2)|].
  destruct (g x); [|done..]. cbn [result_bind]. rewrite IH. destruct (try_map g l1); [|done..].
  cbn [result_bind]. by destruct (try_map g l2).
Qed.

(** The children: one [B] fragment and [W] fragments for the other branches. *)
Definition thresh_elems (subs : list policy) (els : list elem) : Prop :=
  ∃ p0 ps e0 es, els = e0 :: es ∧ chosen B p0 e0 ∧ Forall2 (chosen W) ps es ∧ p0 :: ps ≡ₚ subs.

Lemma thresh_children_ok subs acc :
  thresh_inv subs acc → 1 ≤ length subs →
  ∃ els, thresh_children acc (length subs) = Ok els ∧ thresh_elems subs els.
Proof.
  intros [Hes Hws Hmin] Hn. set (i := (min_value acc).1) in *.
  pose proof (Forall2_length Hes) as Hle. pose proof (Forall2_length Hws) as Hlw.
  destruct (lookup_lt_is_Some_2 subs i) as [p Hp]; [lia|].
  destruct (Forall2_lookup_l _ _ _ _ _ Hes Hp) as (e & He & Hce).
  unfold thresh_children. fold i. rewrite He. cbn [unwrap result_bind].
  rewrite filter_not_index by lia. rewrite try_map_app, !try_map_index by lia. cbn [result_bind].
  eexists. split; [done|].
  exists p, (take i subs ++ drop (S i) subs), e, (take i (best_ws acc) ++ drop (S i) (best_ws acc)).
  split; [|split; [done|]; split].
  - rewrite drop_0. do 2 f_equal. rewrite take_ge; [done|]. rewrite length_drop. lia.
  - apply Forall2_app; [by apply Forall2_take|by apply Forall2_drop].
  - rewrite <-(take_drop_middle subs i p Hp) at 3. by rewrite Permutation_middle.
Qed.

(** *** The threshold fragment *)

Lemma cost_fold_ok (els : list elem) i n acc :
  Forall (λ e, is_Some (dissat_cost (comp_ext_data e))) els → i + n ≤ length els →
  ∃ sums, try_fold (threshold_step (λ j, unwrap (comp_ext_data <$> els !! j))) acc (seq i n) = Ok sums.
Proof.
  intros Hd. revert i acc. induction n as [|n IH]; intros i acc Hi; cbn [seq try_fold]; [by eexists|].
  destruct (lookup_lt_is_Some_2 els i) as [e He]; [lia|].
  destruct (Forall_lookup_1 _ _ _ _ Hd He) as [x Hx].
  unfold threshold_step at 1. rewrite He. cbn [fmap option_fmap option_map unwrap result_bind].
  rewrite Hx. cbn [unwrap result_bind]. apply IH. lia.
Qed.

Lemma cost_threshold_ok k (els : list elem) :
  Forall (λ e, is_Some (dissat_cost (comp_ext_data e))) els →
  ∃ dat, threshold k (length els) (λ i, unwrap (comp_ext_data <$> els !! i)) = Ok dat ∧
         some (dissat_cost dat) = true.
Proof.
  intros Hd. unfold threshold. edestruct (cost_fold_ok els 0 (length els)) as [sums Hs]; [done|lia|].
  rewrite Hs. by eexists.
Qed.

Lemma thresh_type_ok k (l : list ms_t) :
  1 ≤ k ≤ length l → (∀ i ms, l !! i = Some ms → thresh_child_ok i (corr (ty ms))) →
  ∃ mty, type_check ctx (Thresh k l) = Ok mty.
Proof.
  intros Hk Hl. unfold type_check, property_check.
  assert (check_threshold k (length l) = Ok tt) as -> by (by apply check_threshold_Ok).
  cbn [result_bind].
  exists (MkType (MkCorr B (match thresh_args (corr <$> (ty <$> l)) with
                            | 0 => Zero | 1 => One | _ => Any end) true true)
           (thresh_mall k (mall <$> (ty <$> l)))).
  cbn [pr_threshold TypeProp.Type_Property]. rewrite <-(length_fmap ty l). apply type_threshold_Ok.
  - intros i t. apply lookup_children.
  - split; [|done]. intros i t (ms & -> & Hi)%list_lookup_fmap_Some_1. by apply Hl.
Qed.

Lemma chosen_map (bt : Base) ps es v :
  Forall2 (chosen bt) ps es → map (ms_eval v) (map elem_ms es) = map (ceval v) ps.
Proof. induction 1 as [|p e ps es [[_ He] _] _ IH]; cbn; [done|]. by rewrite He, IH. Qed.

(** A candidate [best] chose, without its policy. *)
Definition child_ok (bt : Base) e : Prop :=
  typed ctx e ∧ cb (elem_ms e) = bt ∧ cu (elem_ms e) = true ∧ cd (elem_ms e) = true.

Lemma chosen_child (bt : Base) ps es : Forall2 (chosen bt) ps es → Forall (child_ok bt) es.
Proof. induction 1 as [|p e ps es [[Ht _] He] _ IH]; by constructor. Qed.

Lemma thresh_typed k subs els :
  1 ≤ k ≤ length subs → thresh_elems subs els →
  ∃ ms dat, from_ast ctx (Thresh k (map elem_ms els)) = Ok ms ∧
    threshold k (length subs) (λ i, unwrap (comp_ext_data <$> els !! i)) = Ok dat ∧
    elem_ok (λ v, k <=? number (map (ceval v) subs)) (MkElem ms dat).
Proof.
  intros Hk (p0 & ps & e0 & es & -> & Hc0 & Hes & Hperm).
  pose proof (chosen_child B [p0] [e0]) as Hb.
  assert (child_ok B e0) as He0 by (destruct Hc0 as [[? _] ?]; by split).
  pose proof (chosen_child W ps es Hes) as Hws. clear Hb.
  assert (length (e0 :: es) = length subs) as Hlen.
  { rewrite <-Hperm. cbn. by rewrite (Forall2_length Hes). }
  assert (Forall (λ e, typed ctx e ∧ cd (elem_ms e) = true) (e0 :: es)) as Hall.
  { constructor; [by destruct He0 as (? & _ & _ & ?)|]. eapply Forall_impl; [|exact Hws].
    by intros e (? & _ & _ & ?). }
  destruct (thresh_type_ok k (map elem_ms (e0 :: es))) as [mty Ht].
  { by rewrite length_map, Hlen. }
  { intros i ms Hi. rewrite list_lookup_fmap in Hi. destruct i as [|i]; cbn in Hi.
    - injection Hi as <-. by destruct He0 as (_ & ? & ? & ?).
    - destruct (es !! i) as [e|] eqn:He; [|done]. injection Hi as <-.
      by destruct (Forall_lookup_1 _ _ _ _ Hws He) as (_ & ? & ? & ?). }
  assert (Forall (well_typed ctx) (map elem_ms (e0 :: es))) as Hwt.
  { apply Forall_fmap. eapply Forall_impl; [|exact Hall]. by intros e [(? & _ & _) _]. }
  destruct (ext_type_check_total ctx (Thresh k (map elem_ms (e0 :: es))) mty) as [mext He]; [done..|].
  destruct (cost_threshold_ok k (e0 :: es)) as (dat & Hdat & Hsome).
  { eapply Forall_impl; [|exact Hall]. intros e [(_ & _ & Hd) Hcd]. rewrite Hcd in Hd.
    by apply bool_decide_eq_true in Hd. }
  rewrite Hlen in Hdat. exists (MkMs (Thresh k (map elem_ms (e0 :: es))) mty mext), dat.
  split; [by unfold from_ast; rewrite Ht, He|]. split; [done|]. split.
  - apply typed_node; try done.
    + apply Forall_fmap. eapply Forall_impl; [|exact Hall]. by intros e [(_ & ? & _) _].
    + apply type_check_rule in Ht as (_ & _ & ->). done.
  - intros v. cbn [elem_ms ms_eval]. f_equal.
    rewrite <-(number_perm _ _ (Permutation_map (ceval v) Hperm)).
    cbn [map]. destruct Hc0 as [[_ ->] _]. by rewrite (chosen_map W ps es).
Qed.

(** *** Keys and conjunctions *)

Lemma key_vec_all subs :
  length (key_vec subs) = length subs → subs = map Concrete.Key (key_vec subs).
Proof.
  assert (∀ p l, key_vec (p :: l) = match p with Concrete.Key pk => pk :: key_vec l | _ => key_vec l end)
    as Hcons by (by intros []).
  assert (∀ l, length (key_vec l) ≤ length l) as Hle.
  { induction l as [|p l IH]; [done|]. rewrite Hcons. destruct p; cbn [length]; lia. }
  induction subs as [|p subs IH]; [done|]. pose proof (Hle subs). rewrite Hcons.
  destruct p; cbn [length map]; intros; try lia. f_equal. apply IH. lia.
Qed.

Lemma keys_meaning (ks : list Pk) v :
  map (ceval v) (map Concrete.Key ks) = map (λ pk, v (Semantic.Key pk)) ks.
Proof. by rewrite map_map. Qed.

(** The conjunction that the compiler builds of the branches of [thresh(n,..)]. *)
Definition and_chain (p : policy) (ps : list policy) : policy :=
  fold_left (λ acc p, Concrete.And [acc; p]) ps p.

Lemma and_chain_ok p ps :
  compilable p → Forall compilable ps →
  compilable (and_chain p ps) ∧
  (∀ v, ceval v (and_chain p ps) = forallb id (map (ceval v) (p :: ps))) ∧
  rank_of (and_chain p ps) ≤ sum_list (map (λ p, S (rank_of p)) (p :: ps)).
Proof.
  intros Hp Hps. revert p Hp. induction Hps as [|q ps Hq Hps IH]; intros p Hp; cbn [and_chain fold_left].
  { split; [done|]. split; [|cbn; lia]. intros v. cbn. by rewrite andb_true_r. }
  destruct (IH (Concrete.And [p; q])) as (Hc & Hv & Hr).
  { constructor; [done|done|]. apply Forall_cons_2; [done|]. by apply Forall_singleton. }
  split; [exact Hc|]. split.
  - intros v. unfold and_chain in Hv. rewrite Hv. cbn. by rewrite andb_true_r, andb_assoc.
  - unfold and_chain in Hr. cbn in *. lia.
Qed.

Lemma compile_thresh_ok k subs :
  pol = Concrete.Threshold k subs → hoare goal_map (compile_thresh ctx cfuel rec pol k subs s d).
Proof.
  intros Hp. unfold compile_thresh. destruct (compilable_inv _ Hpol) as (Hshape & _ & Hb).
  rewrite Hp in Hshape, Hb. cbn in Hshape. cbn [branches] in Hb.
  assert (Forall (λ p, rank_of p < rank_of pol) subs) as Hr.
  { apply list.Forall_forall. intros p Hin. rewrite Hp. by apply rank_branch. }
  assert (∀ v, (k <=? number (map (ceval v) subs)) = meaning_of pol v) as Hv by (intros v; by rewrite Hp).
  eapply hoare_bind; [by apply thresh_loop_ok|]. intros acc Hacc.
  destruct (thresh_children_ok subs acc Hacc) as (els & -> & Hels); [lia|].
  eapply hoare_bind; [by apply (hoare_lift ctx (λ l, l = els))|]. intros ? ->.
  destruct (thresh_typed k subs els Hshape Hels) as (ms & dat & -> & -> & [He Hev]).
  eapply hoare_bind; [by apply (hoare_lift ctx (λ x, x = ms))|]. intros ? ->.
  eapply hoare_bind; [by apply (hoare_lift ctx (λ x, x = dat))|]. intros ? ->.
  eapply hoare_bind.
  { eapply insert_best_wrapped_ok; eauto; [apply Forall_nil_2|]. split; [done|]. intros v. by rewrite Hev, Hv. }
  intros ret Hret. case_match eqn:Hmulti.
  - assert (length (key_vec subs) = length subs) as Hlen.
    { destruct (sig_type ctx); bools; by apply Nat.eqb_eq. }
    pose proof (key_vec_all subs Hlen) as Hsubs.
    eapply insert_terminal_ok; eauto.
    + rewrite <-Hlen in Hshape. by destruct (sig_type ctx).
    + intros mty mext v. rewrite <-Hv.
      assert (map (ceval v) subs = map (λ pk, v (Semantic.Key pk)) (key_vec subs)) as ->
        by (rewrite Hsubs at 1; apply keys_meaning).
      by destruct (sig_type ctx).
  - destruct (Nat.eqb_spec k (length subs)) as [Hk|]; [|by apply hoare_ret].
    destruct subs as [|p ps]; [cbn in *; lia|].
    call_index p. cbn [drop]. apply Forall_cons_iff in Hb as [Hcp Hcps].
    destruct (and_chain_ok p ps Hcp Hcps) as (Hc & Hcv & Hrank).
    eapply hoare_consequence; [|eapply rec_ok; [eassumption|exact Hc|]].
    + intros m. apply map_ok_ext. intros v. rewrite <-Hv. unfold meaning_of. rewrite Hcv, Hk, <-number_all.
      by rewrite length_map.
    + rewrite Hp. eapply Nat.le_lt_trans; [exact Hrank|]. cbn. lia.
Qed.

End cases.

(** ** Every policy *)

Section correct.
Context {Pk : Type} `{MiniscriptKey Pk} `{!MiniscriptKeyEq Pk} `{LockTimes} `{F64ArithOk}.
Context (ctx : ScriptContext).
Notation policy := (Concrete.Policy Pk).
Notation ms_t := (Miniscript Pk NoExt).
Notation MC := (M (PolicyCache (Pk := Pk))).
Notation map_ok := (map_ok ctx).
Implicit Types (ms : ms_t) (p : policy) (m : cmap (Pk := Pk)).
Context (L cfuel : nat).
Hypothesis HL : ∀ ms, check_local_validity ctx ms = Ok tt → pk_cost (ext ms) ≤ L.

Lemma compile_policy_ok (F : Prop) p s d (rec : policy → f64 → option f64 → MC (cmap (Pk := Pk))) :
  (cfuel < closure_fuel L → F) → compilable p →
  (∀ q s' d', compilable q → rank q d' < rank p d →
   hoare ctx F (map_ok (meaning_of q) d') (rec q s' d')) →
  hoare ctx F (map_ok (meaning_of p) d) (compile_policy ctx cfuel rec p s d).
Proof.
  intros HF Hp Hrec. destruct (compilable_inv _ Hp) as (Hshape & Holder & Hb). unfold compile_policy.
  destruct p as [| |pk|n|n|h|h|h|h|subs|subs|k subs].
  10: by eapply compile_and_ok; eauto.
  10: by eapply compile_or_ok; eauto.
  10: by eapply compile_thresh_ok; eauto.
  3: eapply hoare_bind; [|intros ret Hret].
  all: eapply insert_terminal_ok; eauto using Forall_nil_2; try apply Forall_nil_2; cbn in *; try lia.
  split; [lia|by apply Holder].
Qed.
Lemma hoare_weaken {A} (F F' : Prop) (Q : A → Prop) (mc : MC A) :
  (F → F') → hoare ctx F Q mc → hoare ctx F' Q mc.
Proof. intros HF Hm c Hc. eapply runs_impl; [exact HF| |by apply Hm]. done. Qed.

(** The assertion on the keys: each holds, or compares with NaN. *)
Lemma debug_asserts_ok F f d m :
  map_ok f d m →
  runs F (λ _, Forall (λ y, prob_cmp (dissat_prob y.1) d = Ok Eq) m)
    (try_map (λ '(k, _), debug_assert_prob (dissat_prob k) d) m).
Proof.
  induction 1 as [|[k e] m (_ & _ & _ & Hd) Hm IH]; cbn [try_map]; [by apply Forall_nil_2|].
  eapply (stops_bind _ (λ _, prob_cmp (dissat_prob k) d = Ok Eq)).
  - cbn [fst] in Hd. unfold debug_assert_prob.
    assert (prob_cmp (dissat_prob k) d = Ok Eq ∨ prob_cmp (dissat_prob k) d = Err StopNaN) as [-> | ->];
      [|done..].
    destruct Hd as [->|Hd]; [|by left]. destruct d as [x|]; [|by left]. cbn. unfold OrdF64_cmp.
    destruct (f64_cmp_refl x) as [-> | ->]; auto.
  - intros ? Hk. eapply stops_bind; [exact IH|]. intros ys Hys. by apply Forall_cons_2.
Qed.

Lemma best_compilations_ok fuel p s d :
  compilable p →
  hoare ctx (cfuel < closure_fuel L ∨ fuel ≤ rank p d) (map_ok (meaning_of p) d)
    (best_compilations ctx cfuel fuel p s d).
Proof.
  revert p s d. induction fuel as [|fuel IH]; intros p s d Hp c Hc; cbn [best_compilations].
  { cbn. right. unfold rank. lia. }
  unfold best_compilations_step. eapply stops_bind; [by apply (cache_get_ok ctx)|].
  intros [m|] Hhit; [by split|]. eapply stops_bind.
  { eapply (compile_policy_ok (cfuel < closure_fuel L ∨ S fuel ≤ rank p d)); [by left|exact Hp| |exact Hc].
    intros q s' d' Hq Hr. eapply hoare_weaken; [|by apply IH]. intros [?|?]; [by left|right; lia]. }
  intros [ret c'] [Hc' Hret]. cbn [fst snd] in *.
  eapply stops_bind; [by eapply debug_asserts_ok|]. intros ? Hs.
  destruct ret as [|x ret]; [done|]. eapply stops_bind; [by apply (cache_insert_ok ctx); [|split]|].
  intros c'' Hc''. by split.
Qed.

(** What [best_compilation] picks from. *)
Definition spends p ms : Prop :=
  well_typed ctx ms ∧ all_nodes node_liftable ms ∧ check_local_validity ctx ms = Ok tt ∧
  cb ms = B ∧ ∀ v, ms_eval v ms = ceval v p.

Lemma best_compilation_ok fuel p :
  compilable p →
  runs (cfuel < closure_fuel L ∨ fuel ≤ rank p None)
    (λ ms, spends p ms ∧ safe (mall (ty ms)) = true ∧ non_malleable (mall (ty ms)) = true)
    (best_compilation ctx cfuel fuel p).
Proof.
  intros Hp. unfold best_compilation.
  eapply (stops_bind _ (λ r, spends p (elem_ms r.1))).
  - eapply stops_bind; [by apply best_compilations_ok; [|apply Forall_nil_2]|].
    intros [m c] [_ Hm]. cbn [fst snd] in *.
    eapply (stops_bind _ (λ e, spends p (elem_ms e))); [|by intros e He].
    apply min_by_cost_ok with (P := λ e, spends p (elem_ms e)). apply Forall_fmap. rewrite list.Forall_forall. intros [k e] Hin.
    apply list_elem_of_In, filter_In in Hin as [Hin Hb]. bools.
    match goal with Hx : bool_decide _ = true |- _ => apply bool_decide_eq_true in Hx end.
    unfold CompilerSteps.map_ok in Hm. rewrite list.Forall_forall in Hm.
    destruct (Hm (k, e)) as ([(? & ? & _) ?] & ? & Ht & _); [by apply list_elem_of_In|].
    cbn [fst snd] in *. unfold spends, cb. cbn [compose snd]. by rewrite <-Ht.
  - intros [e c] He. cbn [fst] in *.
    destruct (safe _) eqn:Hs; [|done]. destruct (non_malleable _) eqn:Hn; [|done]. by cbn.
Qed.
End correct.

(** ** [Policy::compile] *)

Section compile.
Context {Pk : Type} `{MiniscriptKey Pk} `{!MiniscriptKeyEq Pk} `{LockTimes} `{F64ArithOk}.
Notation policy := (Concrete.Policy Pk).
Implicit Types (ms : Miniscript Pk NoExt) (p : policy).

(** Relative lock times below 2^31.  [is_valid] lets 2^31 itself pass. *)
Inductive relative_olders : policy → Prop :=
  | relative_olders_node p :
      (∀ n, p = Concrete.Older n → is_relative_lock_time n = true) →
      Forall relative_olders (branches p) → relative_olders p.

Lemma valid_compilable p : Concrete.is_valid p = Ok tt → relative_olders p → compilable p.
Proof.
  induction p as [p IH] using Concrete.Policy_tree_ind.
  intros (_ & _ & Hs & Hv)%is_valid_node Hr. inversion_clear Hr as [? Ho Hb]. constructor; [done..|].
  rewrite list.Forall_forall in *. auto.
Qed.

Lemma is_valid_no_panic p : Concrete.is_valid p ≠ Panic.
Proof.
  induction p as [p IH] using Concrete.Policy_tree_ind.
  assert (try_map Concrete.is_valid (branches p) ≠ Panic) as Hb.
  { apply try_map_no_panic. by rewrite list.Forall_forall in IH. }
  assert (∀ n, Concrete.check_time n ≠ Panic) as Ht.
  { intros n. unfold Concrete.check_time. by repeat case_match. }
  assert (Concrete.check_timelocks p ≠ Panic) as Htl by (unfold Concrete.check_timelocks; by case_match).
  assert (Concrete.check_duplicate_keys p ≠ Panic) as Hdk
    by (unfold Concrete.check_duplicate_keys; by case_match).
  destruct p; cbn [Concrete.is_valid branches] in *;
    (apply bind_no_panic; [exact Htl|intros _]; apply bind_no_panic; [exact Hdk|intros _]); try done.
  - destruct (negb _); [done|]. by apply bind_no_panic.
  - rewrite try_map_odds. destruct (negb _); [done|]. by apply bind_no_panic.
  - destruct (_ || _); [done|]. by apply bind_no_panic.
Qed.

Lemma is_safe_returns p : compilable p → ∃ x, Concrete.is_safe_nonmalleable p = Ok x.
Proof.
  induction p as [p IH] using Concrete.Policy_tree_ind. intros (Hs & _ & Hb)%compilable_inv.
  destruct (try_map_all Concrete.is_safe_nonmalleable (λ _ _, True) (branches p)) as (l & Hl & _).
  { rewrite list.Forall_forall in *. intros q Hq. destruct (IH q Hq (Hb q Hq)) as [x Hx]. by exists x. }
  destruct p; cbn [Concrete.is_safe_nonmalleable branches node_shape] in *;
    rewrite ?try_map_odds, ?Hl; cbn [result_bind]; try (by eexists).
  - destruct (fold_left _ l (true, false, true)) as [[? ?] ?]. by eexists.
  - destruct (fold_left _ l (0, 0)) as [? ?]. unfold Concrete.usize_sub.
    rewrite (proj2 (Nat.leb_le _ _)) by lia. by eexists.
Qed.

Context (ctx : ScriptContext).

(** The longest script of the context. *)
Definition script_bound : nat := N.to_nat (default 0%N (size_limit ctx)).

Lemma local_validity_bound ms :
  ctx ≠ NoChecks → check_local_validity ctx ms = Ok tt → pk_cost (ext ms) ≤ script_bound.
Proof.
  intros Hctx (Hs & _)%local_validity_Ok. unfold size_within, script_bound in *.
  destruct (size_limit ctx) as [l|] eqn:Hl; [cbn; lia|]. by destruct ctx.
Qed.

Lemma compile_runs cfuel fuel p :
  ctx ≠ NoChecks → relative_olders p →
  runs (cfuel < closure_fuel script_bound ∨ fuel ≤ rank p None)
    (λ ms, Concrete.is_valid p = Ok tt ∧ spends ctx p ms ∧
           safe (mall (ty ms)) = true ∧ non_malleable (mall (ty ms)) = true)
    (compile ctx cfuel fuel p).
Proof.
  intros Hctx Hr. unfold compile. pose proof (is_valid_no_panic p) as Hp.
  destruct (Concrete.is_valid p) as [[]| |] eqn:Hv; [|done|done]. cbn [map_err result_bind].
  pose proof (valid_compilable p Hv Hr) as Hc.
  destruct (is_safe_returns p Hc) as [[[] []] ->]; try done. cbn [map_err result_bind].
  eapply runs_impl; [exact id| |apply best_compilation_ok]; [|intros ms; by apply local_validity_bound|done].
  by intros ms (? & ? & ?).
Qed.

(** (C6) The policy compiler is correct: whatever [Policy::compile] returns, in any
    context with limits, is well typed, of type [B], safe, non-malleable and within the
    resource limits of the context, and it is satisfied under exactly the conditions
    under which the policy is met.  So lifting it yields a policy equivalent to the
    lifted input. *)
Theorem compile_correct cfuel fuel p ms :
  ctx ≠ NoChecks → relative_olders p → compile ctx cfuel fuel p = Ok ms →
  well_typed ctx ms ∧ base (corr (ty ms)) = B ∧
  safe (mall (ty ms)) = true ∧ non_malleable (mall (ty ms)) = true ∧
  check_local_validity ctx ms = Ok tt ∧
  (∀ v, ms_eval v ms = ceval v p) ∧
  (∀ q, lift ctx ms = Ok q → ∃ q', lift_concrete p = Ok q' ∧ ∀ v, eval v q = eval v q').
Proof.
  intros Hctx Hr Hc. pose proof (compile_runs cfuel fuel p Hctx Hr) as Hruns. rewrite Hc in Hruns.
  destruct Hruns as (Hv & (Hwt & _ & Hl & Hb & He) & Hs & Hn). split_and!; try done.
  intros q Hq. destruct (lift_concrete_valid p Hv) as (q' & Hq' & _ & He'). exists q'. split; [done|].
  intros v. by rewrite (lift_meaning ctx ms q v Hq), He, He'.
Qed.

(** (C7) The policy compiler terminates without failed assertions: in every context but
    the one without checks, for a policy whose [older] locks are relative lock times
    ([older(2^31)], which [is_valid] lets pass, panics), with the fuel named here,
    [Policy::compile] returns a Miniscript or a [CompilerError], or compares a cost or a
    probability that is NaN; no [expect], [unwrap], [assert_eq!], [debug_assert_eq!]
    or index of the search fails.  The closure of casts ends because every cast lengthens
    the script or makes it a [V] fragment, and no candidate exceeds the limits. *)
Theorem compile_total cfuel fuel p :
  ctx ≠ NoChecks → relative_olders p →
  closure_fuel script_bound ≤ cfuel → rank p None < fuel →
  match compile ctx cfuel fuel p with
  | Ok _ | Err (StopErr _) | Err StopNaN => True
  | Err StopFuel | Panic => False
  end.
Proof.
  intros Hctx Hr Hcf Hf. pose proof (compile_runs cfuel fuel p Hctx Hr) as Hruns.
  destruct (compile ctx cfuel fuel p) as [ms|[e| |]|]; cbn [runs] in Hruns; [done..| |done].
  destruct Hruns; lia.
Qed.
End compile.
