(* ===== verification/CompilerSamples.v ===== *)
(** * The policy compiler on samples

    IEEE 754 double precision numbers, from the specification of floating point numbers
    of the Standard Library, and the compiler run on policies with them. *)

From S2P Require Import Prelude Types Extension Instances Property Ast Examples Iter Tokens Context PolicyNormal PolicyEntails PolicyFilter Lift LiftProps ConcreteProps PolicySamples CompCost Compiler CompilerSteps CompilerCorrect.
From S2P Require Semantic Concrete.
From Stdlib Require Import SpecFloat.

(** 53 bits of precision, exponents below 1024. *)
Definition prec : Z := 53.
Definition emax : Z := 1024.

#[export] Instance ieee_F64 : F64 := {|
  f64 := spec_float;
  f64_zero := S754_zero false;
  f64_one := binary_normalize prec emax 1 0 false;
  f64_of_usize n := binary_normalize prec emax (Z.of_nat n) 0 false;
  f64_mul := SFmul prec emax;
  f64_div := SFdiv prec emax;
  f64_gt x y := SFltb y x;
|}.

#[export] Instance ieee_F64Arith : F64Arith := {|
  f64_add := SFadd prec emax;
  f64_sub := SFsub prec emax;
  f64_MAX := S754_finite false (2 ^ 53 - 1) 971;
  f64_INFINITY := S754_infinity false;
  f64_partial_cmp := SFcompare;
|}.

(** Two floats compare as equal when they are the same number, and the two zeros are. *)
Definition unsigned_zero (x : spec_float) : spec_float :=
  match x with S754_zero _ => S754_zero false | x => x end.

Lemma SFcompare_Eq x y :
  SFcompare x y = Some Eq ↔ x ≠ S754_nan ∧ unsigned_zero x = unsigned_zero y.
Proof.
  destruct x as [s|s| |s m e], y as [s'|s'| |s' m' e']; cbn;
    try (by destruct s; naive_solver); try (by destruct s, s'; naive_solver); try naive_solver.
  change (Pos.compare_cont Eq m m') with (Pos.compare m m').
  destruct s, s'; try naive_solver; destruct (Z.compare_spec e e'), (Pos.compare_spec m m');
    cbn; split; try done; naive_solver lia.
Qed.

#[export] Instance ieee_F64ArithOk : F64ArithOk.
Proof.
  split; unfold f64_partial_cmp; cbn.
  - intros x. assert (x = S754_nan ∨ x ≠ S754_nan) as [->|Hx] by (destruct x; auto); [by right|].
    left. by apply SFcompare_Eq.
  - intros x y [Hx Hxy]%SFcompare_Eq. apply SFcompare_Eq. split; [|done]. by intros ->; destruct x.
  - intros x y z [Hx Hxy]%SFcompare_Eq [_ Hyz]%SFcompare_Eq. apply SFcompare_Eq. by rewrite Hxy.
Qed.

Notation compile := (compile (Pk := DemoKey)).

(** [and(pk(0),older(10))] *)
Definition and_sample : Concrete.Policy DemoKey :=
  Concrete.And [Concrete.Key (Compressed 0); Concrete.Older 10].

(** [and_v(v:pk(0),older(10))] *)
Definition and_compiled_built : Ms :=
  build Segwitv0 (AndV (build Segwitv0 (Verify (pk Segwitv0 0))) (build Segwitv0 (Older 10))).

Lemma and_sample_compiles : compile Segwitv0 100 10 and_sample = Ok and_compiled_built.
Proof. vm_compute. reflexivity. Qed.

Lemma and_compiled_typed : well_typed Segwitv0 and_compiled_built.
Proof. build_typed. Qed.

Lemma and_sample_olders : relative_olders and_sample.
Proof.
  repeat (constructor; [intros n Hn; simplify_eq; try reflexivity|cbn [Concrete.branches and_sample]];
          repeat apply Forall_cons_2; try apply Forall_nil_2).
Qed.

Lemma compile_correct_witness :
  Segwitv0 ≠ NoChecks ∧ relative_olders and_sample ∧
  compile Segwitv0 100 10 and_sample = Ok and_compiled_built ∧
  base (corr (ty and_compiled_built)) = B ∧
  (∀ v, ms_eval v and_compiled_built = v (Semantic.Key (Compressed 0)) && v (Semantic.Older 10)).
Proof.
  split; [done|]. split; [exact and_sample_olders|]. split; [exact and_sample_compiles|].
  destruct (compile_correct Segwitv0 100 10 and_sample and_compiled_built) as (_ & Hb & _ & _ & _ & Hv & _);
    [done|exact and_sample_olders|exact and_sample_compiles|].
  split; [exact Hb|]. intros v. rewrite Hv. cbn. by rewrite andb_true_r.
Defined.

Lemma compile_total_witness :
  Segwitv0 ≠ NoChecks ∧ relative_olders and_sample ∧
  match compile Segwitv0 (closure_fuel (script_bound Segwitv0)) (S (rank and_sample None)) and_sample with
  | Ok _ | Err (StopErr _) | Err StopNaN => True
  | Err StopFuel | Panic => False
  end.
Proof.
  split; [done|]. split; [exact and_sample_olders|].
  exact (compile_total Segwitv0 (closure_fuel (script_bound Segwitv0)) (S (rank and_sample None)) and_sample
           ltac:(discriminate) and_sample_olders (le_n _) (le_n _)).
Defined.

(** ** Valid policies on which the compiler panics *)

(** The relative lock time 2^31 passes [is_valid], and is no relative lock time for the
    type checker: [and(pk(0),older(2147483648))]. *)
Lemma compile_older_panics :
  let p : Concrete.Policy DemoKey :=
    Concrete.And [Concrete.Key (Compressed 0); Concrete.Older (2 ^ 31)] in
  Concrete.is_valid p = Ok tt ∧ Concrete.is_safe_nonmalleable p = Ok (true, true) ∧
  compile Segwitv0 100 10 p = Panic.
Proof. split_and!; vm_compute; reflexivity. Qed.

(** Branches that both have odds 0 have the probability 0/0: [or(0@pk(0),0@pk(1))]. *)
Lemma compile_zero_odds :
  let p : Concrete.Policy DemoKey :=
    Concrete.Or [(0, Concrete.Key (Compressed 0)); (0, Concrete.Key (Compressed 1))] in
  Concrete.is_valid p = Ok tt ∧ compile Segwitv0 100 10 p = Err StopNaN.
Proof. split; vm_compute; reflexivity. Qed.

(** A branch that cannot be satisfied has no compilation before taproot, and the whole
    policy is reported to exceed the limits: [or(1@pk(0),1@UNSATISFIABLE)]. *)
Lemma compile_unsatisfiable_branch :
  let p : Concrete.Policy DemoKey :=
    Concrete.Or [(1, Concrete.Key (Compressed 0)); (1, Concrete.Unsatisfiable)] in
  Concrete.is_valid p = Ok tt ∧ compile Segwitv0 100 10 p = Err (StopErr LimitsExceeded).
Proof. split; vm_compute; reflexivity. Qed.
