(* ===== verification/Expression.v ===== *)
(** * Expression trees

    [src/src/expression.rs]: the function-like language [name(arg,...)] every text form
    is written in, its recursive descent parser [Tree::from_str], and the helpers that
    turn trees into data.  Strings are byte strings: the delimiters are ASCII, and
    [check_valid_chars] of the [bitcoin_miniscript] crate, a parameter, rejects a string
    with other characters before it is parsed. *)

From S2P Require Import Prelude Types Extension Property Ast Tokens.
From stdpp Require Import strings.
From Stdlib Require Import Ascii.

(** ** Strings *)

(** The slices [&s[..n]] and [&s[n..]]. *)
Fixpoint str_take (n : nat) (s : string) : string :=
  match n, s with
  | S n, String c s => String c (str_take n s)
  | _, _ => EmptyString
  end.

Fixpoint str_drop (n : nat) (s : string) : string :=
  match n, s with
  | S n, String _ s => str_drop n s
  | _, _ => s
  end.

Fixpoint str_forallb (p : ascii → bool) (s : string) : bool :=
  match s with
  | EmptyString => true
  | String c s => p c && str_forallb p s
  end.

Definition char_in (cs : string) (c : ascii) : bool :=
  negb (str_forallb (λ x, negb (Ascii.eqb x c)) cs).

(** The characters of a descriptor: [INPUT_CHARSET] of [descriptor/checksum.rs]. *)
Definition INPUT_CHARSET : string :=
  ("0123456789()[],'/*abcdefgh@:$%{}IJKLMNOPQRSTUVWXYZ&+-.;<=>?!^_|~ijklmnopqrstuvwxyzABCDEFGH`#"
   +:+ String (ascii_of_nat 34) "\ ")%string.

(** [bitcoin_miniscript::expression::check_valid_chars]. *)
Class ValidChars : Type := check_valid_chars : string → result Error unit.

(** It accepts what is written in the characters of a descriptor, and does not panic. *)
Class ValidCharsOk `{ValidChars} : Prop := {
  valid_charset : ∀ s, str_forallb (char_in INPUT_CHARSET) s = true → check_valid_chars s = Ok tt;
  valid_no_panic : ∀ s, check_valid_chars s ≠ Panic;
}.

(** ** Trees *)

Inductive Tree : Type := MkTree (name : string) (args : list Tree).

Definition name (t : Tree) : string := let 'MkTree n _ := t in n.
Definition args (t : Tree) : list Tree := let 'MkTree _ l := t in l.

Section induction.
Variable P : Tree → Prop.
Hypothesis Htree : ∀ n l, Forall P l → P (MkTree n l).

Fixpoint Tree_tree_ind (t : Tree) : P t.
Proof.
  destruct t as [n l]. apply Htree.
  induction l as [|a l IH]; constructor; [apply Tree_tree_ind|exact IH].
Qed.
End induction.

Inductive Found : Type :=
  | FNothing
  | FLBracket (n : nat)
  | FComma (n : nat)
  | FRBracket (n : nat).

(** [next_expr] with the delimiter ['(']: the loop, at index [n] of [sl] with [rest] to
    be read.  A key may be an expression [musig(...)] with brackets of its own. *)
Fixpoint next_round (sl : string) (n : nat) (rest : string) (key_ctx : bool)
    (key_lparan_count : Z) : Found :=
  match rest with
  | EmptyString => FNothing
  | String ch rest =>
      if Ascii.eqb ch "(" then
        if key_ctx then next_round sl (S n) rest key_ctx (key_lparan_count + 1)
        else if String.eqb (str_take n sl) "musig" then next_round sl (S n) rest true 1
        else FLBracket n
      else if Ascii.eqb ch "," then
        if negb key_ctx then FComma n else next_round sl (S n) rest key_ctx key_lparan_count
      else if Ascii.eqb ch ")" then
        if key_ctx then
          let key_lparan_count := (key_lparan_count - 1)%Z in
          next_round sl (S n) rest (negb (key_lparan_count =? 0)%Z) key_lparan_count
        else FRBracket n
      else next_round sl (S n) rest key_ctx key_lparan_count
  end.

(** The same with the delimiter ['{'], that of Taproot trees. *)
Fixpoint next_curly (n : nat) (rest : string) (new_count : Z) : Found :=
  match rest with
  | EmptyString => FNothing
  | String ch rest =>
      if Ascii.eqb ch "{" then FLBracket n
      else if Ascii.eqb ch "(" then next_curly (S n) rest (new_count + 1)
      else if Ascii.eqb ch "," then
        if (new_count =? 0)%Z then FComma n else next_curly (S n) rest new_count
      else if Ascii.eqb ch ")" then next_curly (S n) rest (new_count - 1)
      else if Ascii.eqb ch "}" then FRBracket n
      else next_curly (S n) rest new_count
  end.

Definition next_expr (sl : string) (delim : ascii) : result Error Found :=
  if Ascii.eqb delim "(" then Ok (next_round sl 0 sl false 0)
  else if Ascii.eqb delim "{" then Ok (next_curly 0 sl 0)
  else Panic.

Definition closing_delim (delim : ascii) : result Error ascii :=
  if Ascii.eqb delim "(" then Ok ")"%char
  else if Ascii.eqb delim "{" then Ok "}"%char
  else Panic.

(** [MAX_RECURSION_DEPTH] of [lib.rs]. *)
Definition MAX_RECURSION_DEPTH : nat := 402.

(** The loop over the arguments of a function call, [parse] the recursive call.  Every
    turn reads a character; [Panic] at the end of the fuel is not reached
    ([from_slice_no_panic]). *)
Fixpoint args_loop (parse : string → result Error (Tree * string)) (closing : ascii)
    (fuel : nat) (sl : string) : result Error (list Tree * string) :=
  match fuel with
  | 0 => Panic
  | S fuel =>
      let? (arg, new_sl) := parse sl in
      match new_sl with
      | EmptyString => Err (ExpectedChar closing)
      | String last_byte sl =>
          if Ascii.eqb last_byte "," then
            let? (l, sl) := args_loop parse closing fuel sl in
            Ok (arg :: l, sl)
          else if Ascii.eqb last_byte closing then Ok ([arg], sl)
          else Err (ExpectedChar closing)
      end
  end.

(** [Tree::from_slice_delim] at a depth of [MAX_RECURSION_DEPTH - levels]. *)
Fixpoint from_slice_delim (levels : nat) (sl : string) (delim : ascii)
    : result Error (Tree * string) :=
  match levels with
  | 0 => Err MaxRecursiveDepthExceeded
  | S levels =>
      let? found := next_expr sl delim in
      match found with
      | FNothing => Ok (MkTree sl [], EmptyString)
      | FComma n | FRBracket n => Ok (MkTree (str_take n sl) [], str_drop n sl)
      | FLBracket n =>
          let? closing := closing_delim delim in
          let? (l, rest) := args_loop (λ sl, from_slice_delim levels sl delim) closing
                              (S (String.length sl)) (str_drop (n + 1) sl) in
          Ok (MkTree (str_take n sl) l, rest)
      end
  end.

Definition from_slice (sl : string) : result Error (Tree * string) :=
  from_slice_delim MAX_RECURSION_DEPTH sl "(".

Definition errstr (s : string) : Error := UnexpectedStr s.

(** [Tree::from_str] *)
Definition Tree_from_str `{ValidChars} (s : string) : result Error Tree :=
  let? _ := check_valid_chars s in
  let? (top, rem) := from_slice s in
  match rem with
  | EmptyString => Ok top
  | _ => Err (errstr rem)
  end.

(** ** Numbers *)

Definition digit_value (c : ascii) : option N :=
  if (48 <=? N_of_ascii c)%N && (N_of_ascii c <=? 57)%N then Some (N_of_ascii c - 48)%N else None.

Fixpoint digits_value (acc : N) (s : string) : option N :=
  match s with
  | EmptyString => Some acc
  | String c s => d ← digit_value c; digits_value (10 * acc + d) s
  end.

Definition u32_max : N := 4294967295.

(** [u32::from_str]: digits, after an optional plus sign. *)
Definition u32_from_str (s : string) : option N :=
  let digits := match s with
                | String c s' => if Ascii.eqb c "+" then s' else s
                | EmptyString => s
                end in
  match digits with
  | EmptyString => None
  | _ => n ← digits_value 0 digits; if (n <=? u32_max)%N then Some n else None
  end.

(** [u32::fmt]: decimal digits without leading zeros. *)
Definition digit (d : N) : ascii := ascii_of_N (48 + d).

Fixpoint digits_of (fuel : nat) (n : N) (s : string) : string :=
  match fuel with
  | 0 => s
  | S fuel =>
      if (n <? 10)%N then String (digit n) s
      else digits_of fuel (n / 10) (String (digit (n mod 10)) s)
  end.

Definition num_to_string (n : N) : string := digits_of (S (N.to_nat (N.log2 n))) n EmptyString.

(** [parse_num]: no leading zeros, for a type whose [from_str] is given. *)
Definition parse_num {A} (from_str : string → option A) (s : string) : result Error A :=
  let? _ :=
    match s with
    | String ch (String ch1 _) =>
        let ch := if Ascii.eqb ch "-" then ch1 else ch in
        if (49 <=? N_of_ascii ch)%N && (N_of_ascii ch <=? 57)%N then Ok tt
        else Err (UnexpectedStr "Number must start with a digit 1-9")
    | _ => Ok tt
    end in
  ok_or (errstr s) (from_str s).

(** ** From trees to data *)

(** [Display] of the errors [parse_num] returns. *)
Definition display_unexpected (e : Error) : string :=
  match e with
  | UnexpectedStr s => ("unexpected «" +:+ s +:+ "»")%string
  | _ => EmptyString
  end.

(** [terminal]: an error of the conversion is printed, by [display]. *)
Definition terminal {E A} (display : E → string) (term : Tree) (convert : string → result E A)
    : result Error A :=
  match args term with
  | [] => map_err (λ e, UnexpectedStr (display e)) (convert (name term))
  | _ => Err (errstr (name term))
  end.

Definition unary {A B} (from_tree : Tree → result Error A) (term : Tree) (convert : A → B)
    : result Error B :=
  match args term with
  | [a] => let? l := from_tree a in Ok (convert l)
  | _ => Err (errstr (name term))
  end.

Definition binary {A B C} (from_tree_l : Tree → result Error A) (from_tree_r : Tree → result Error B)
    (term : Tree) (convert : A → B → C) : result Error C :=
  match args term with
  | [a; b] =>
      let? l := from_tree_l a in
      let? r := from_tree_r b in
      Ok (convert l r)
  | _ => Err (errstr (name term))
  end.
