(* ===== verification/ExpressionProps.v ===== *)
(** * The expression parser

    [Tree::from_str] never panics; the tree it returns is the whole string, character by
    character ([show]), so that parsing is lossless; and it returns every tree that can
    be written, up to the recursion limit.  Decimal numbers round trip. *)

From S2P Require Import Prelude Types Extension Property Ast Tokens Expression.
From stdpp Require Import strings.
From Stdlib Require Import Ascii.

#[local] Arguments String.append : simpl nomatch.

(** ** Strings *)

Lemma str_app_assoc (a b c : string) : (a +:+ b) +:+ c = a +:+ (b +:+ c).
Proof. induction a as [|x a IH]; cbn; [done|]. by rewrite IH. Qed.

Lemma str_app_nil_r (a : string) : a +:+ EmptyString = a.
Proof. induction a as [|x a IH]; cbn; [done|]. by rewrite IH. Qed.

Lemma str_length_app (a b : string) : String.length (a +:+ b) = String.length a + String.length b.
Proof. induction a as [|x a IH]; cbn; [done|]. by rewrite IH. Qed.

Lemma str_take_app (a b : string) : str_take (String.length a) (a +:+ b) = a.
Proof. induction a as [|x a IH]; cbn; [by destruct b|]. by rewrite IH. Qed.

Lemma str_drop_app (a b : string) : str_drop (String.length a) (a +:+ b) = b.
Proof. induction a as [|x a IH]; cbn; [by destruct b|]. done. Qed.

Lemma str_drop_app_S (a : string) c (b : string) :
  str_drop (String.length a + 1) (a +:+ String c b) = b.
Proof. induction a as [|x a IH]; cbn; [by destruct b|]. done. Qed.

Lemma str_forallb_app p (a b : string) :
  str_forallb p (a +:+ b) = str_forallb p a && str_forallb p b.
Proof. induction a as [|x a IH]; cbn; [done|]. by rewrite IH, andb_assoc. Qed.

Lemma str_forallb_impl (p q : ascii → bool) (s : string) :
  (∀ c, p c = true → q c = true) → str_forallb p s = true → str_forallb q s = true.
Proof.
  intros Hpq. induction s as [|c s IH]; cbn; [done|]. rewrite !andb_true_iff. naive_solver.
Qed.

(** ** The written form of a tree *)

(** [opening] and [closing] are the brackets of the delimiter. *)
Fixpoint show (opening closing : ascii) (t : Tree) : string :=
  let 'MkTree n l := t in
  match l with
  | [] => n
  | _ => n +:+ String opening
           (String.concat "," (map (show opening closing) l) +:+ String closing EmptyString)
  end.

Fixpoint depth (t : Tree) : nat :=
  let 'MkTree _ l := t in S (foldr Nat.max 0 (map depth l)).

(** A character that is not a delimiter, and the trees that can be written with them. *)
Definition plain_char (c : ascii) : bool := negb (char_in "(,)" c).
Definition plain (s : string) : bool := str_forallb plain_char s.

Fixpoint writable (t : Tree) : bool :=
  let 'MkTree n l := t in
  plain n && match l with [] => true | _ => negb (String.eqb n "musig") end && forallb writable l.

(** ** What the loop over the characters finds *)

Definition found_at (rest : string) (n : nat) (f : Found) (opening closing : ascii) : Prop :=
  match f with
  | FNothing => True
  | FLBracket m => ∃ p r, rest = p +:+ String opening r ∧ m = n + String.length p
  | FComma m => ∃ p r, rest = p +:+ String "," r ∧ m = n + String.length p
  | FRBracket m => ∃ p r, rest = p +:+ String closing r ∧ m = n + String.length p
  end.

Lemma found_at_S c rest n f o cl :
  found_at rest (S n) f o cl → found_at (String c rest) n f o cl.
Proof.
  destruct f; cbn; [done|..]; intros (p & r & -> & ->); exists (String c p), r; cbn; split; auto; lia.
Qed.

Lemma found_at_here c rest n o cl :
  (c = o → found_at (String c rest) n (FLBracket n) o cl) ∧
  (c = ","%char → found_at (String c rest) n (FComma n) o cl) ∧
  (c = cl → found_at (String c rest) n (FRBracket n) o cl).
Proof. split_and!; intros ->; exists EmptyString, rest; cbn; split; auto; lia. Qed.

Lemma next_round_found sl n rest k c : found_at rest n (next_round sl n rest k c) "(" ")".
Proof.
  revert n k c. induction rest as [|ch rest IH]; intros n k c; cbn [next_round]; [done|].
  destruct (found_at_here ch rest n "(" ")") as (Ho & Hc & Hr).
  repeat (case_match; simplify_eq); first
    [by apply Ho, Ascii.eqb_eq | by apply Hc, Ascii.eqb_eq | by apply Hr, Ascii.eqb_eq
    | apply found_at_S, IH].
Qed.

Lemma next_curly_found n rest c : found_at rest n (next_curly n rest c) "{" "}".
Proof.
  revert n c. induction rest as [|ch rest IH]; intros n c; cbn [next_curly]; [done|].
  destruct (found_at_here ch rest n "{" "}") as (Ho & Hc & Hr).
  repeat (case_match; simplify_eq); first
    [by apply Ho, Ascii.eqb_eq | by apply Hc, Ascii.eqb_eq | by apply Hr, Ascii.eqb_eq
    | apply found_at_S, IH].
Qed.

Definition delims (delim closing : ascii) : Prop :=
  (delim = "("%char ∧ closing = ")"%char) ∨ (delim = "{"%char ∧ closing = "}"%char).

Lemma next_expr_found sl delim closing :
  delims delim closing →
  ∃ f, next_expr sl delim = Ok f ∧ found_at sl 0 f delim closing ∧ closing_delim delim = Ok closing.
Proof.
  intros [[-> ->]|[-> ->]]; eexists; (split_and!; [reflexivity| |reflexivity]).
  - apply next_round_found.
  - apply next_curly_found.
Qed.

(** ** Parsing is lossless *)

Definition reads (levels : nat) (o cl : ascii) (t : Tree) (sl rest : string) : Prop :=
  sl = show o cl t +:+ rest ∧ depth t ≤ levels.

Lemma args_loop_sound parse o cl levels fuel sl l rest :
  cl ≠ ","%char →
  (∀ sl t rest, parse sl = Ok (t, rest) → reads levels o cl t sl rest) →
  args_loop parse cl fuel sl = Ok (l, rest) →
  sl = String.concat "," (map (show o cl) l) +:+ String cl rest ∧
  l ≠ [] ∧ Forall (λ t, depth t ≤ levels) l.
Proof.
  intros Hcl Hparse. revert sl l rest. induction fuel as [|fuel IH]; intros sl l rest; [done|].
  cbn [args_loop]. intros ([a new] & Ha & Hl)%bind_Ok.
  apply Hparse in Ha as [-> Hd]. destruct new as [|b sl']; [done|].
  destruct (Ascii.eqb_spec b ",") as [->|Hb].
  - apply bind_Ok in Hl as ([l' sl''] & (-> & Hne & Hds)%IH & [= <- <-]).
    split_and!; [|done|by constructor]. destruct l' as [|a' l']; [done|]. cbn.
    by rewrite !str_app_assoc.
  - destruct (Ascii.eqb_spec b cl) as [->|]; [|done]. injection Hl as [= <- <-].
    split_and!; [done..|]. by repeat constructor.
Qed.

Lemma depth_children n l m :
  Forall (λ t, depth t ≤ m) l → depth (MkTree n l) ≤ S m.
Proof. intros Hl. cbn. apply le_n_S. induction Hl as [|t l Ht _ IH]; cbn; lia. Qed.

Lemma depth_S t : 1 ≤ depth t.
Proof. destruct t; cbn; lia. Qed.

Lemma from_slice_delim_sound delim cl levels sl t rest :
  delims delim cl → from_slice_delim levels sl delim = Ok (t, rest) →
  reads levels delim cl t sl rest.
Proof.
  intros Hd. revert sl t rest. induction levels as [|levels IH]; intros sl t rest; [done|].
  cbn [from_slice_delim]. destruct (next_expr_found sl delim cl Hd) as (f & Hf & Hfound & Hcl).
  rewrite Hf, Hcl. cbn [result_bind].
  assert (∀ m c, (∃ p r, sl = p +:+ String c r ∧ m = String.length p) →
    reads (S levels) delim cl (MkTree (str_take m sl) []) sl (str_drop m sl)) as Hleaf.
  { intros m c (p & r & -> & ->). split; [|cbn; lia]. cbn. by rewrite str_take_app, str_drop_app. }
  destruct f as [|m|m|m]; cbn in Hfound.
  - intros [= <- <-]. split; [cbn; by rewrite str_app_nil_r|cbn; lia].
  - destruct Hfound as (p & r & -> & ->). rewrite str_take_app, str_drop_app_S.
    intros ([l sl'] & Hl & [= <- <-])%bind_Ok.
    eapply args_loop_sound in Hl as (-> & Hne & Hds); [| |exact IH].
    + split; [|by apply depth_children]. destruct l as [|a l]; [done|]. cbn.
      by rewrite str_app_assoc; cbn; rewrite str_app_assoc.
    + by destruct Hd as [[_ ->]|[_ ->]].
  - intros [= <- <-]. eapply Hleaf. exact Hfound.
  - intros [= <- <-]. eapply Hleaf. exact Hfound.
Qed.

(** ** Parsing never panics *)

Lemma args_loop_no_panic parse cl fuel sl :
  (∀ sl, parse sl ≠ Panic) →
  (∀ sl t rest, parse sl = Ok (t, rest) → String.length rest ≤ String.length sl) →
  String.length sl < fuel → args_loop parse cl fuel sl ≠ Panic.
Proof.
  intros Hp Hlen. revert sl. induction fuel as [|fuel IH]; intros sl Hf; [lia|]. cbn [args_loop].
  destruct (parse sl) as [[a new]|e|] eqn:Ha; cbn [result_bind]; [|done|by apply Hp in Ha].
  apply Hlen in Ha. destruct new as [|b sl']; [done|]. cbn in Ha.
  case_match; [|by case_match]. apply bind_no_panic; [apply IH; lia|by intros []].
Qed.

Lemma from_slice_delim_no_panic delim cl levels sl :
  delims delim cl → from_slice_delim levels sl delim ≠ Panic.
Proof.
  intros Hd. revert sl. induction levels as [|levels IH]; intros sl; [done|].
  cbn [from_slice_delim]. destruct (next_expr_found sl delim cl Hd) as (f & Hf & Hfound & Hcl).
  rewrite Hf, Hcl. cbn [result_bind]. destruct f; [done| |done..].
  apply bind_no_panic; [|by intros []]. apply args_loop_no_panic; [exact IH| |].
  - intros sl' t rest H%(from_slice_delim_sound _ cl); [|done]. destruct H as [-> _].
    rewrite str_length_app. lia.
  - cbn in Hfound. destruct Hfound as (p & r & -> & ->). rewrite str_drop_app_S, str_length_app. cbn. lia.
Qed.

Lemma Tree_from_str_no_panic `{ValidCharsOk} s : Tree_from_str s ≠ Panic.
Proof.
  unfold Tree_from_str. apply bind_no_panic; [apply valid_no_panic|]. intros _.
  apply bind_no_panic; [|by intros [? []]].
  apply (from_slice_delim_no_panic _ ")"). by left.
Qed.

(** ** Every writable tree is parsed *)

Definition starts_rest (rest : string) : Prop :=
  match rest with
  | EmptyString => True
  | String c _ => c = ","%char ∨ c = ")"%char
  end.

Lemma plain_char_neq c : plain_char c = true → c ≠ "("%char ∧ c ≠ ","%char ∧ c ≠ ")"%char.
Proof. intros Hc. split_and!; intros ->; done. Qed.

Lemma next_round_plain sl n s rest :
  plain s = true →
  next_round sl n (s +:+ rest) false 0 = next_round sl (n + String.length s) rest false 0.
Proof.
  revert n. induction s as [|c s IH]; intros n; cbn; [by rewrite Nat.add_0_r|].
  intros [(H1 & H2 & H3)%plain_char_neq Hs]%andb_true_iff.
  rewrite (proj2 (Ascii.eqb_neq _ _) H1), (proj2 (Ascii.eqb_neq _ _) H2),
    (proj2 (Ascii.eqb_neq _ _) H3), IH by done. f_equal. lia.
Qed.

Lemma next_expr_plain s rest :
  plain s = true → starts_rest rest →
  match next_expr (s +:+ rest) "(" with
  | Ok FNothing => rest = EmptyString
  | Ok (FComma n | FRBracket n) => n = String.length s
  | _ => False
  end.
Proof.
  intros Hs Hr. unfold next_expr. rewrite Ascii.eqb_refl, next_round_plain by done. cbn.
  destruct rest as [|c rest]; [done|]. by destruct Hr as [->| ->].
Qed.

Lemma next_expr_call s rest :
  plain s = true → s ≠ "musig"%string →
  next_expr (s +:+ String "(" rest) "(" = Ok (FLBracket (String.length s)).
Proof.
  intros Hs Hne. unfold next_expr. rewrite Ascii.eqb_refl, next_round_plain by done. cbn.
  rewrite str_take_app. by rewrite (proj2 (String.eqb_neq _ _) Hne).
Qed.

(** What the loop over the arguments reads, from what the recursive call reads. *)
Lemma args_loop_show parse fuel l rest :
  Forall (λ t, ∀ c r, c = ","%char ∨ c = ")"%char →
    parse (show "(" ")" t +:+ String c r) = Ok (t, String c r)) l →
  l ≠ [] → length l ≤ fuel →
  args_loop parse ")" fuel (String.concat "," (map (show "(" ")") l) +:+ String ")" rest)
  = Ok (l, rest).
Proof.
  intros Hl. revert fuel. induction Hl as [|t l Ht Hl IH]; intros [|fuel] Hne Hf; cbn in Hf;
    [done..|lia|]. cbn [args_loop]. destruct l as [|t' l].
  - cbn. rewrite Ht by auto. done.
  - cbn [map String.concat]. rewrite !str_app_assoc. cbn. rewrite Ht by auto. cbn.
    rewrite IH; [done|done|cbn in Hf |- *; lia].
Qed.

Lemma concat_length l :
  length l ≤ S (String.length (String.concat "," l)).
Proof.
  induction l as [|x l IH]; [cbn; lia|]. destruct l as [|y l]; [cbn; lia|].
  change (String.concat "," (x :: y :: l)) with (x +:+ "," +:+ String.concat "," (y :: l)).
  rewrite !str_length_app. cbn [length String.length] in IH |- *. lia.
Qed.

Lemma depth_le_children n l m : depth (MkTree n l) ≤ S m → Forall (λ t, depth t ≤ m) l.
Proof.
  cbn. intros Hd%le_S_n. induction l as [|t l IH]; constructor; cbn in Hd; [lia|].
  apply IH. lia.
Qed.

Lemma writable_inv n l :
  writable (MkTree n l) = true →
  plain n = true ∧ (l ≠ [] → n ≠ "musig"%string) ∧ Forall (λ t, writable t = true) l.
Proof.
  cbn. rewrite !andb_true_iff. intros [[Hn Hm] Hl]. split_and!; [done| |].
  - intros Hne. destruct l; [done|]. by apply negb_true_iff, String.eqb_neq in Hm.
  - apply Forall_forall. intros t Ht. eapply forallb_forall in Hl; [exact Hl|].
    by apply list_elem_of_In.
Qed.

Lemma from_slice_show levels t rest :
  writable t = true → depth t ≤ levels → starts_rest rest →
  from_slice_delim levels (show "(" ")" t +:+ rest) "(" = Ok (t, rest).
Proof.
  revert levels rest. induction t as [n l IH] using Tree_tree_ind.
  intros [|levels] rest Hw Hd Hr; [cbn in Hd; lia|].
  apply writable_inv in Hw as (Hn & Hm & Hl). destruct l as [|t l].
  - cbn [from_slice_delim show]. pose proof (next_expr_plain n rest Hn Hr) as Hf.
    destruct (next_expr _ _) as [[]| |]; cbn [result_bind]; try done; subst;
      rewrite ?str_app_nil_r, ?str_take_app, ?str_drop_app; done.
  - assert (show "(" ")" (MkTree n (t :: l)) +:+ rest
      = n +:+ String "(" (String.concat "," (map (show "(" ")") (t :: l)) +:+ String ")" rest)) as ->.
    { cbn [show]. rewrite str_app_assoc. cbn. by rewrite str_app_assoc. }
    cbn [from_slice_delim]. rewrite next_expr_call by auto. cbn [result_bind].
    rewrite str_take_app, str_drop_app_S. change (closing_delim "(") with (Ok (E := Error) ")"%char).
    cbn [result_bind]. rewrite args_loop_show; [done| |done|].
    + apply depth_le_children in Hd. rewrite Forall_forall in IH, Hl, Hd |- *.
      intros a Ha c r Hc. by apply IH; auto.
    + rewrite !str_length_app. cbn [String.length]. rewrite str_length_app.
      pose proof (concat_length (map (show "(" ")") (t :: l))) as Hlen.
      rewrite length_map in Hlen. lia.
Qed.

Lemma tree_from_str_reads `{ValidChars} s t :
  Tree_from_str s = Ok t → reads MAX_RECURSION_DEPTH "(" ")" t s EmptyString.
Proof.
  unfold Tree_from_str. intros (u & _ & Ht)%bind_Ok.
  apply bind_Ok in Ht as ([t' rem] & Hs & Ht). destruct rem; [|done]. injection Ht as ->.
  eapply from_slice_delim_sound; [by left|exact Hs].
Qed.

(** (C28) Parsing an expression never panics and loses nothing: the tree it returns,
    written out, is the string that was parsed, and its depth is within the limit. *)
Theorem tree_from_str_lossless `{ValidCharsOk} s :
  match Tree_from_str s with
  | Ok t => show "(" ")" t = s ∧ depth t ≤ MAX_RECURSION_DEPTH
  | Err _ => True
  | Panic => False
  end.
Proof.
  destruct (Tree_from_str s) as [t|e|] eqn:Ht; [|done|by apply Tree_from_str_no_panic in Ht].
  apply tree_from_str_reads in Ht as [-> Hd]. by rewrite str_app_nil_r.
Qed.

(** Every tree that can be written within the recursion limit is parsed back. *)
Lemma tree_from_str_show `{ValidCharsOk} t :
  writable t = true → depth t ≤ MAX_RECURSION_DEPTH →
  str_forallb (char_in INPUT_CHARSET) (show "(" ")" t) = true →
  Tree_from_str (show "(" ")" t) = Ok t.
Proof.
  intros Hw Hd Hv. unfold Tree_from_str, from_slice. rewrite valid_charset by done. cbn [result_bind].
  rewrite <-(str_app_nil_r (show _ _ t)). by rewrite from_slice_show.
Qed.

(** ** Numbers *)

Lemma digit_cases (P : N → Prop) :
  P 0%N → P 1%N → P 2%N → P 3%N → P 4%N → P 5%N → P 6%N → P 7%N → P 8%N → P 9%N →
  ∀ d, (d < 10)%N → P d.
Proof.
  intros ?????????? d Hd.
  assert (d = 0 ∨ d = 1 ∨ d = 2 ∨ d = 3 ∨ d = 4 ∨ d = 5 ∨ d = 6 ∨ d = 7 ∨ d = 8 ∨ d = 9)%N
    as Hc by lia.
  by repeat (destruct Hc as [->|Hc]; [assumption|]); subst.
Qed.

Lemma digit_value_digit d : (d < 10)%N → digit_value (digit d) = Some d.
Proof. revert d. by apply digit_cases. Qed.

Lemma digit_plain d : (d < 10)%N → plain_char (digit d) = true.
Proof. revert d. by apply digit_cases. Qed.

Lemma digit_charset d : (d < 10)%N → char_in INPUT_CHARSET (digit d) = true.
Proof. revert d. by apply digit_cases. Qed.

Lemma digits_of_value fuel n s :
  (n < 2 ^ N.of_nat fuel)%N → digits_value 0 (digits_of fuel n s) = digits_value n s.
Proof.
  revert n s. induction fuel as [|fuel IH]; intros n s Hn; [cbn in Hn |- *; f_equal; lia|].
  cbn [digits_of]. rewrite Nat2N.inj_succ, N.pow_succ_r' in Hn.
  destruct (N.ltb_spec n 10) as [H10|H10].
  - cbn [digits_value]. by rewrite digit_value_digit.
  - rewrite IH by (apply N.Div0.div_lt_upper_bound; lia). cbn [digits_value].
    rewrite digit_value_digit by (apply N.mod_lt; lia). cbn. f_equal.
    pose proof (N.div_mod' n 10). lia.
Qed.

Lemma digits_of_forallb p fuel n s :
  (∀ d, (d < 10)%N → p (digit d) = true) → str_forallb p s = true →
  str_forallb p (digits_of fuel n s) = true.
Proof.
  intros Hp. revert n s. induction fuel as [|fuel IH]; intros n s Hs; [done|]. cbn [digits_of].
  destruct (N.ltb_spec n 10); [cbn; by rewrite Hp|].
  apply IH. cbn. rewrite Hp; [done|]. apply N.mod_lt; lia.
Qed.

(** The first digit of a number other than zero is not zero. *)
Lemma digits_of_head fuel n s :
  n ≠ 0%N → (n < 2 ^ N.of_nat fuel)%N →
  ∃ d s', digits_of fuel n s = String (digit d) s' ∧ d ≠ 0%N ∧ (d < 10)%N.
Proof.
  revert n s. induction fuel as [|fuel IH]; intros n s Hz Hn; [cbn in Hn; lia|].
  cbn [digits_of]. rewrite Nat2N.inj_succ, N.pow_succ_r' in Hn.
  destruct (N.ltb_spec n 10) as [H10|H10]; [by exists n, s|].
  assert (1 ≤ n / 10)%N by (apply N.div_le_lower_bound; lia).
  apply IH; [lia|]. apply N.Div0.div_lt_upper_bound; lia.
Qed.

Lemma num_to_string_fuel n : (n < 2 ^ N.of_nat (S (N.to_nat (N.log2 n))))%N.
Proof.
  rewrite Nat2N.inj_succ, N2Nat.id. destruct (N.eq_dec n 0%N) as [->|Hn]; [done|].
  apply N.log2_spec. lia.
Qed.

Lemma num_to_string_value n : digits_value 0 (num_to_string n) = Some n.
Proof. unfold num_to_string. rewrite digits_of_value; [done|]. apply num_to_string_fuel. Qed.

Lemma num_to_string_plain n : plain (num_to_string n) = true.
Proof. apply digits_of_forallb; [apply digit_plain|done]. Qed.

Lemma num_to_string_charset n : str_forallb (char_in INPUT_CHARSET) (num_to_string n) = true.
Proof. apply digits_of_forallb; [apply digit_charset|done]. Qed.

Lemma num_to_string_head n :
  ∃ d s, num_to_string n = String (digit d) s ∧ (d < 10)%N ∧ (d = 0%N → s = EmptyString).
Proof.
  destruct (N.eq_dec n 0%N) as [->|Hn]; [by exists 0%N, EmptyString|].
  destruct (digits_of_head _ n EmptyString Hn (num_to_string_fuel n)) as (d & s & Hd & ? & ?).
  by exists d, s.
Qed.

Lemma u32_roundtrip n : (n ≤ u32_max)%N → u32_from_str (num_to_string n) = Some n.
Proof.
  intros Hn. unfold u32_from_str. pose proof (num_to_string_value n) as Hv.
  destruct (num_to_string_head n) as (d & s & Hd & H10 & _). rewrite Hd in Hv |- *.
  assert (Ascii.eqb (digit d) "+" = false) as ->.
  { revert d H10 Hd Hv. intros d H10 _ _. revert d H10. by apply digit_cases. }
  rewrite Hv. cbn. by rewrite (proj2 (N.leb_le _ _) Hn).
Qed.

(** A number is printed without leading zeros and read back. *)
Lemma parse_num_roundtrip n :
  (n ≤ u32_max)%N → parse_num u32_from_str (num_to_string n) = Ok n.
Proof.
  intros Hn. unfold parse_num. rewrite u32_roundtrip by done.
  destruct (num_to_string_head n) as (d & s & -> & H10 & Hz).
  destruct s as [|c s]; [done|].
  assert (d ≠ 0%N) as Hd by (intros ?%Hz; done). clear Hz.
  revert d H10 Hd. by apply (digit_cases (λ d, d ≠ 0%N → _)).
Qed.
