(* ===== verification/TextForm.v ===== *)
(** * The text form of Miniscripts

    [Display] and [FromTree] of [src/src/miniscript/astelem.rs], and [from_str_ext],
    [from_str_insane] and [FromStr] of [src/src/miniscript/mod.rs].  The text forms of
    keys, hashes and lock times come from other crates; those of the extensions are a
    class of their own. *)

From S2P Require Import Prelude Types Extension Property Ast Tokens Context Expression.
From stdpp Require Import strings.
From Stdlib Require Import Ascii.

(** ** What other crates print and parse *)

(** [FromStrKey]: errors are given by their printed text. *)
Class FromStrKey (Pk : Type) `{MiniscriptKey Pk} : Type := {
  pk_from_str : string → string + Pk;
  sha256_from_str : string → string + Sha256T;
  hash256_from_str : string → string + Hash256T;
  ripemd160_from_str : string → string + Ripemd160T;
  hash160_from_str : string → string + Hash160T;
  pkh_from_str : string → string + hash_n 20;
  sha256_to_string : Sha256T → string;
  hash256_to_string : Hash256T → string;
  ripemd160_to_string : Ripemd160T → string;
  hash160_to_string : Hash160T → string;
  pkh_to_string : hash_n 20 → string;
  abs_lock_time_to_string : N → string;
  sequence_to_string : N → string;
}.

(** [Display] and [Extension::from_name_tree] of an extension. *)
Class TextExt (Ext : Type) : Type := {
  ext_to_string : Ext → string;
  from_name_tree : string → list Tree → option Ext;
}.

#[export] Instance NoExt_TextExt : TextExt NoExt := {|
  ext_to_string (e : NoExt) := match e with end;
  from_name_tree _ _ := None;
|}.

Definition of_sum {E A} (x : E + A) : result E A :=
  match x with inl e => Err e | inr a => Ok a end.

(** [str::split(c)]: the pieces between the occurrences of [c], at least one. *)
Fixpoint split_char (c : ascii) (s : string) : list string :=
  match s with
  | EmptyString => [EmptyString]
  | String x s =>
      if Ascii.eqb x c then EmptyString :: split_char c s
      else match split_char c s with
           | [] => [String x EmptyString]
           | p :: ps => String x p :: ps
           end
  end.

Section text_form.
Context {Pk : Type} `{MiniscriptKey Pk} `{!FromStrKey Pk} `{LockTimes} `{EqDecision Pk}.
Context {Ext : Type} `{!Extension Ext} `{!TextExt Ext}.

(** ** Printing *)

Definition is_true (t : Terminal Pk Ext) : bool := match t with TTrue => true | _ => false end.
Definition is_false (t : Terminal Pk Ext) : bool := match t with TFalse => true | _ => false end.

Definition wrap_char (t : Terminal Pk Ext) : option (ascii * Miniscript Pk Ext) :=
  match t with
  | Alt sub => Some ("a"%char, sub)
  | Swap sub => Some ("s"%char, sub)
  | Check sub => Some ("c"%char, sub)
  | DupIf sub => Some ("d"%char, sub)
  | Verify sub => Some ("v"%char, sub)
  | NonZero sub => Some ("j"%char, sub)
  | ZeroNotEqual sub => Some ("n"%char, sub)
  | AndV sub r => if is_true (node r) then Some ("t"%char, sub) else None
  | OrI l r =>
      if is_false (node r) then Some ("u"%char, l)
      else if is_false (node l) then Some ("l"%char, r)
      else None
  | _ => None
  end.

Definition call (f : string) (arg : string) : string := f +:+ "(" +:+ arg +:+ ")".
Definition call2 (f a b : string) : string := f +:+ "(" +:+ a +:+ "," +:+ b +:+ ")".

(** [write!(f, "name({}", k)], then [",{}"] for each argument, then [")"]. *)
Definition call_k (f : string) (k : nat) (l : list string) : string :=
  f +:+ "(" +:+ num_to_string (N.of_nat k)
    +:+ foldr (λ s rest, "," +:+ s +:+ rest) ")" l.

(** The last arm of [Display]: a wrapper [ch] of [sub], which is printed as [printed]. *)
Definition display_prefix (ch : ascii) (sub : Miniscript Pk Ext) (printed : string) : string :=
  String ch
    (match wrap_char (node sub) with
     | None => ":" +:+ printed
     | Some (ch, ms) =>
         if Ascii.eqb ch "c" then
           match node ms with
           | PkK _ | PkH _ | RawPkH _ => ":" +:+ printed
           | _ => printed
           end
         else printed
     end).

Definition display_wrapper (ch : ascii) (sub : Miniscript Pk Ext) (printed : string) : string :=
  if Ascii.eqb ch "c" then
    match node sub with
    | PkK pk => call "pk" (key_to_string pk)
    | RawPkH h => call "expr_raw_pkh" (pkh_to_string h)
    | PkH pk => call "pkh" (key_to_string pk)
    | _ => display_prefix ch sub printed
    end
  else display_prefix ch sub printed.

(** [Display] for [Terminal]; a [Miniscript] is printed as its node.  The wrapper that
    [wrap_char] finds for a node is written in the arm of the node. *)
Fixpoint display (t : Terminal Pk Ext) : string :=
  match t with
  | PkK pk => call "pk_k" (key_to_string pk)
  | PkH pk => call "pk_h" (key_to_string pk)
  | RawPkH h => call "expr_raw_pk_h" (pkh_to_string h)
  | After n => call "after" (abs_lock_time_to_string n)
  | Older n => call "older" (sequence_to_string n)
  | Sha256 h => call "sha256" (sha256_to_string h)
  | Hash256 h => call "hash256" (hash256_to_string h)
  | Ripemd160 h => call "ripemd160" (ripemd160_to_string h)
  | Hash160 h => call "hash160" (hash160_to_string h)
  | TTrue => "1"
  | TFalse => "0"
  | ExtT e => ext_to_string e
  | AndV l r =>
      if is_true (node r) then display_wrapper "t" l (display_ms l)
      else call2 "and_v" (display_ms l) (display_ms r)
  | AndB l r => call2 "and_b" (display_ms l) (display_ms r)
  | AndOr a b c =>
      if is_false (node c) then call2 "and_n" (display_ms a) (display_ms b)
      else "andor(" +:+ display_ms a +:+ "," +:+ display_ms b +:+ "," +:+ display_ms c +:+ ")"
  | OrB l r => call2 "or_b" (display_ms l) (display_ms r)
  | OrD l r => call2 "or_d" (display_ms l) (display_ms r)
  | OrC l r => call2 "or_c" (display_ms l) (display_ms r)
  | OrI l r =>
      if negb (is_false (node l)) && negb (is_false (node r))
      then call2 "or_i" (display_ms l) (display_ms r)
      else if is_false (node r) then display_wrapper "u" l (display_ms l)
      else display_wrapper "l" r (display_ms r)
  | Thresh k subs => call_k "thresh" k (map display_ms subs)
  | Multi k keys => call_k "multi" k (map key_to_string keys)
  | MultiA k keys => call_k "multi_a" k (map key_to_string keys)
  | Alt sub => display_wrapper "a" sub (display_ms sub)
  | Swap sub => display_wrapper "s" sub (display_ms sub)
  | Check sub => display_wrapper "c" sub (display_ms sub)
  | DupIf sub => display_wrapper "d" sub (display_ms sub)
  | Verify sub => display_wrapper "v" sub (display_ms sub)
  | NonZero sub => display_wrapper "j" sub (display_ms sub)
  | ZeroNotEqual sub => display_wrapper "n" sub (display_ms sub)
  end
with display_ms (ms : Miniscript Pk Ext) : string :=
  let 'MkMs t _ _ := ms in display t.

(** ** Parsing *)

Context (ctx : ScriptContext).

(** The name of a tree is a fragment with wrappers, [wrap:name]; [pk] and [pkh] stand
    for [c:pk_k] and [c:pk_h]. *)
Definition split_name (top_name : string) : result Error (string * string) :=
  match split_char ":" top_name with
  | [] => Ok (EmptyString, EmptyString)
  | [name] =>
      if String.eqb name "pk" then Ok ("c"%string, "pk_k"%string)
      else if String.eqb name "pkh" then Ok ("c"%string, "pk_h"%string)
      else Ok (EmptyString, name)
  | [wrap; name] =>
      if String.eqb wrap "" then Err (UnexpectedStr top_name)
      else if String.eqb name "pk" then Ok (wrap +:+ "c", "pk_k"%string)
      else if String.eqb name "pkh" then Ok (wrap +:+ "c", "pk_h"%string)
      else Ok (wrap, name)
  | _ => Err (MultiColon top_name)
  end.

(** A fragment whose only argument is text. *)
Definition terminal_str {A} (term : Tree) (from_str : string → string + A)
    (convert : A → Terminal Pk Ext) : result Error (Terminal Pk Ext) :=
  let? x := terminal (λ e, e) term (λ s, of_sum (from_str s)) in Ok (convert x).

Definition terminal_u32 (term : Tree) : result Error N :=
  terminal display_unexpected term (parse_num u32_from_str).

Definition too_many (top_name : string) (n : nat) : Error :=
  UnexpectedStr (top_name +:+ "(" +:+ num_to_string (N.of_nat n)
                 +:+ " args) while parsing Miniscript").

(** The threshold of [thresh], [multi] and [multi_a], the first of [n] arguments. *)
Definition threshold_arg (n : nat) (a : Tree) (higher : string) : result Error nat :=
  let? k := terminal_u32 a in
  let k := N.to_nat k in
  if n - 1 <? k then Err (errstr higher) else Ok k.

Section fragment.
Variable ms_from_tree : Tree → result Error (Miniscript Pk Ext).

Definition from_false : result Error (Miniscript Pk Ext) := map_err TypeCheck (from_ast ctx TFalse).
Definition from_true : result Error (Miniscript Pk Ext) := map_err TypeCheck (from_ast ctx TTrue).

Definition keys_from_trees (l : list Tree) : result Error (list Pk) :=
  try_map (λ sub, terminal (λ e, e) sub (λ s, of_sum (pk_from_str s))) l.

(** The [match] on the name of the fragment and the number of its arguments. *)
Definition fragment (top : Tree) (frag_name : string) : result Error (Terminal Pk Ext) :=
  let named f := String.eqb frag_name f in
  match args top with
  | [] =>
      if named "1" then Ok TTrue
      else if named "0" then Ok TFalse
      else if named "thresh" || named "multi" || named "multi_a" then Err (errstr "no arguments given")
      else match from_name_tree frag_name [] with
           | Some e => Ok (ExtT e)
           | None => Err (too_many (name top) 0)
           end
  | a :: l =>
      let n := S (length l) in
      let one := n =? 1 in
      let two := n =? 2 in
      if named "expr_raw_pkh" && one then terminal_str a pkh_from_str RawPkH
      else if named "pk_k" && one then terminal_str a pk_from_str PkK
      else if named "pk_h" && one then terminal_str a pk_from_str PkH
      else if named "after" && one then let? x := terminal_u32 a in Ok (After x)
      else if named "older" && one then let? x := terminal_u32 a in Ok (Older x)
      else if named "sha256" && one then terminal_str a sha256_from_str Sha256
      else if named "hash256" && one then terminal_str a hash256_from_str Hash256
      else if named "ripemd160" && one then terminal_str a ripemd160_from_str Ripemd160
      else if named "hash160" && one then terminal_str a hash160_from_str Hash160
      else if named "and_v" && two then binary ms_from_tree ms_from_tree top AndV
      else if named "and_b" && two then binary ms_from_tree ms_from_tree top AndB
      else if named "and_n" && two then
        let? (x, y) := binary ms_from_tree ms_from_tree top pair in
        let? c := from_false in
        Ok (AndOr x y c)
      else if named "andor" && (n =? 3) then
        match l with
        | [b; c] =>
            let? a := ms_from_tree a in
            let? b := ms_from_tree b in
            let? c := ms_from_tree c in
            Ok (AndOr a b c)
        | _ => Panic
        end
      else if named "or_b" && two then binary ms_from_tree ms_from_tree top OrB
      else if named "or_d" && two then binary ms_from_tree ms_from_tree top OrD
      else if named "or_c" && two then binary ms_from_tree ms_from_tree top OrC
      else if named "or_i" && two then binary ms_from_tree ms_from_tree top OrI
      else if named "thresh" then
        let? k := threshold_arg n a "higher threshold than there are subexpressions" in
        if one then Err (errstr "empty thresholds not allowed in descriptors")
        else let? subs := try_map ms_from_tree l in Ok (Thresh k subs)
      else if named "multi" || named "multi_a" then
        let? k := threshold_arg n a "higher threshold than there were keys in multi" in
        let? pks := keys_from_trees l in
        if named "multi" then Ok (Multi k pks) else Ok (MultiA k pks)
      else match from_name_tree frag_name (a :: l) with
           | Some e => Ok (ExtT e)
           | None => Err (too_many (name top) n)
           end
  end.
End fragment.

(** One wrapper: the fragment so far is checked before it is wrapped. *)
Definition wrap_with (ms : Miniscript Pk Ext) (ch : ascii) : result Error (Terminal Pk Ext) :=
  if Ascii.eqb ch "a" then Ok (Alt ms)
  else if Ascii.eqb ch "s" then Ok (Swap ms)
  else if Ascii.eqb ch "c" then Ok (Check ms)
  else if Ascii.eqb ch "d" then Ok (DupIf ms)
  else if Ascii.eqb ch "v" then Ok (Verify ms)
  else if Ascii.eqb ch "j" then Ok (NonZero ms)
  else if Ascii.eqb ch "n" then Ok (ZeroNotEqual ms)
  else if Ascii.eqb ch "t" then let? r := from_true in Ok (AndV ms r)
  else if Ascii.eqb ch "u" then let? r := from_false in Ok (OrI ms r)
  else if Ascii.eqb ch "l" then
    if is_false (node ms) then Err LikelyFalse
    else let? l := from_false in Ok (OrI l ms)
  else Err (UnknownWrapper ch).

Definition apply_wrapper (unwrapped : Terminal Pk Ext) (ch : ascii) : result Error (Terminal Pk Ext) :=
  let? ms := map_err TypeCheck (from_ast ctx unwrapped) in
  let? _ := map_err ContextError (check_global_validity ctx ms) in
  wrap_with ms ch.

(** [from_tree] for [Terminal]; for [Miniscript] it is followed by type checking. *)
Fixpoint from_tree (top : Tree) : result Error (Terminal Pk Ext) :=
  let? (frag_wrap, frag_name) := split_name (name top) in
  let? unwrapped :=
    fragment (λ t, let? inner := from_tree t in map_err TypeCheck (from_ast ctx inner))
      top frag_name in
  let? unwrapped := try_fold apply_wrapper unwrapped (rev (String.list_ascii_of_string frag_wrap)) in
  let? ms := map_err TypeCheck (from_ast ctx unwrapped) in
  let? _ := map_err ContextError (check_global_validity ctx ms) in
  Ok (node ms).

Definition ms_from_tree (top : Tree) : result Error (Miniscript Pk Ext) :=
  let? inner := from_tree top in
  map_err TypeCheck (from_ast ctx inner).

(** [Miniscript::from_str_ext] *)
Definition from_str_ext `{ValidChars} (s : string) (ext : ExtParams)
    : result Error (Miniscript Pk Ext) :=
  let? top := Tree_from_str s in
  let? ms := ms_from_tree top in
  let? _ := map_err AnalysisErr (ext_check ctx ext ms) in
  if bool_decide (base (corr (ty ms)) = B) then Ok ms else Err NonTopLevel.

Definition from_str_insane `{ValidChars} (s : string) : result Error (Miniscript Pk Ext) :=
  from_str_ext s ExtParams_insane.

(** [FromStr] *)
Definition from_str `{ValidChars} (s : string) : result Error (Miniscript Pk Ext) :=
  let? ms := from_str_ext s ExtParams_sane in
  let? _ := map_err AnalysisErr (sanity_check ctx ms) in
  Ok ms.
End text_form.
