(* ===== verification/TextProps.v ===== *)
(** * What the text parser accepts

    A Miniscript read from a string is well typed and valid in its context, node by
    node, and parsing never panics. *)

From S2P Require Import Prelude Types Extension Property Ast Typing Resources Tokens Context Encoding Expression ExpressionProps TextForm.
From stdpp Require Import strings.
From Stdlib Require Import Ascii.

Section admitted.
Context {Pk : Type} `{MiniscriptKey Pk} `{LockTimes} {Ext : Type} `{!Extension Ext}.
Context (ctx : ScriptContext).

(** Every node is what [from_ast] builds and passes the global checks of the context. *)
Inductive admitted : Miniscript Pk Ext → Prop :=
  | admitted_node ms :
      from_ast ctx (node ms) = Ok ms → check_global_validity ctx ms = Ok tt →
      Forall admitted (children (node ms)) → admitted ms.

Lemma admitted_inv ms :
  admitted ms →
  from_ast ctx (node ms) = Ok ms ∧ check_global_validity ctx ms = Ok tt ∧
  Forall admitted (children (node ms)).
Proof. by destruct 1. Qed.

Lemma from_ast_Ok t ms :
  from_ast ctx t = Ok ms → node ms = t ∧ type_check ctx t = Ok (ty ms) ∧
                           ext_type_check ctx t = Ok (ext ms).
Proof. unfold from_ast. intros ?. by inv_ok. Qed.

(** Stronger than the generated induction principle: with the children's hypotheses. *)
Lemma admitted_tree_ind (P : Miniscript Pk Ext → Prop) :
  (∀ ms, from_ast ctx (node ms) = Ok ms → check_global_validity ctx ms = Ok tt →
     Forall admitted (children (node ms)) → Forall P (children (node ms)) → P ms) →
  ∀ ms, admitted ms → P ms.
Proof.
  intros Hstep ms. induction ms as [t a b IH] using Miniscript_tree_ind.
  intros (Hf & Hv & Hch)%admitted_inv. apply Hstep; [done..|]. cbn [node] in *.
  clear -IH Hch. induction Hch; inversion_clear IH; constructor; auto.
Qed.

Lemma admitted_well_typed ms : admitted ms → well_typed ctx ms.
Proof.
  revert ms. apply admitted_tree_ind. intros [t a b] Hf _ _ IH.
  apply from_ast_Ok in Hf as (_ & ? & ?). by constructor.
Qed.

Lemma admitted_nodes ms : admitted ms → all_nodes (node_allowed ctx) ms.
Proof.
  revert ms. apply admitted_tree_ind. intros [t a b] _ Hv _ IH.
  apply global_validity_Ok in Hv as [_ Hv]. by constructor.
Qed.

(** The constants [0] and [1] are admitted everywhere. *)
Lemma from_ast_false_admitted ms : from_ast ctx TFalse = Ok ms → admitted ms.
Proof.
  intros Hf. pose proof (from_ast_Ok _ _ Hf) as (Hn & _). constructor; rewrite ?Hn; [done| |by constructor].
  revert Hf. destruct ctx; vm_compute; by intros [= <-].
Qed.

Lemma from_ast_true_admitted ms : from_ast ctx TTrue = Ok ms → admitted ms.
Proof.
  intros Hf. pose proof (from_ast_Ok _ _ Hf) as (Hn & _). constructor; rewrite ?Hn; [done| |by constructor].
  revert Hf. destruct ctx; vm_compute; by intros [= <-].
Qed.
End admitted.

(** ** Parsing *)

Section parse.
Context {Pk : Type} `{MiniscriptKey Pk} `{!FromStrKey Pk} `{LockTimesOk} `{EqDecision Pk}.
Context {Ext : Type} `{!Extension Ext} `{!ExtensionResourcesOk Ext} `{!ExtChecks Ext} `{!TextExt Ext}.
Context (ctx : ScriptContext).

Definition fragment_ok (t : Terminal Pk Ext) : Prop := Forall (admitted ctx) (children t).

Lemma from_ast_returns (t : Terminal Pk Ext) :
  fragment_ok t → returns (λ ms, node ms = t) (map_err TypeCheck (from_ast ctx t)).
Proof.
  intros Hch. apply returns_map_err.
  pose proof (type_check_no_panic ctx t) as Hp.
  destruct (type_check ctx t) as [u|e|] eqn:Ht; [|by unfold from_ast; rewrite Ht|done].
  destruct (ext_type_check_inv ctx t u) as (e & He & _); [|done|].
  - eapply Forall_impl; [exact Hch|]. intros ms Hms%admitted_well_typed. by eapply well_typed_ext_inv.
  - unfold from_ast. rewrite Ht. cbn. by rewrite He.
Qed.

(** A fragment that is checked becomes an admitted Miniscript. *)
Lemma checked_returns {B} (Q : B → Prop) (t : Terminal Pk Ext) (k : Miniscript Pk Ext → result Error B) :
  fragment_ok t → (∀ ms, node ms = t → admitted ctx ms → returns Q (k ms)) →
  returns Q (let? ms := map_err TypeCheck (from_ast ctx t) in
             let? _ := map_err ContextError (check_global_validity ctx ms) in k ms).
Proof.
  intros Hch Hk. pose proof (from_ast_returns t Hch) as Hr.
  destruct (from_ast ctx t) as [ms| |] eqn:Hf; cbn in *; [|done..].
  pose proof (global_validity_no_panic ctx ms) as Hv.
  destruct (check_global_validity ctx ms) as [[]| |] eqn:Hv'; cbn; [|done..].
  apply Hk; [done|]. constructor; rewrite ?Hr; done.
Qed.

Lemma apply_wrapper_returns t ch :
  fragment_ok t → returns fragment_ok (apply_wrapper ctx t ch).
Proof.
  intros Hch. unfold apply_wrapper. apply checked_returns; [done|]. intros ms _ Hms.
  pose proof (from_ast_returns TFalse (List.Forall_nil _)) as Hfalse.
  pose proof (from_ast_returns TTrue (List.Forall_nil _)) as Htrue.
  unfold wrap_with, from_false, from_true.
  destruct (from_ast ctx TFalse) as [f| |] eqn:Hf; cbn in Hfalse; [|repeat case_match; done..].
  destruct (from_ast ctx TTrue) as [r| |] eqn:Hr; cbn in Htrue; [|repeat case_match; done..].
  apply from_ast_false_admitted in Hf. apply from_ast_true_admitted in Hr.
  repeat case_match; cbn; try done; repeat (apply Forall_cons_2; [done|]); by apply Forall_nil_2.
Qed.

Lemma terminal_returns {E A} (display : E → string) (term : Tree) (convert : string → result E A) :
  (∀ s, convert s ≠ Panic) → returns (λ _, True) (terminal display term convert).
Proof.
  intros Hc. unfold terminal. case_match; [|done]. apply returns_map_err, returns_no_panic, Hc.
Qed.

Lemma parse_num_no_panic {A} (p : string → option A) s : parse_num p s ≠ Panic.
Proof. unfold parse_num. destruct (p s), s as [|? [|]]; cbn; repeat case_match; done. Qed.

(** The numbers that are read fit in 32 bits. *)
Lemma u32_from_str_bound s n : u32_from_str s = Some n → (n <= u32_max)%N.
Proof.
  unfold u32_from_str. cbv zeta. case_match; [done|].
  destruct (digits_value 0 _) as [m|]; cbn; [|done]. destruct (N.leb_spec m u32_max); naive_solver.
Qed.

Lemma terminal_u32_returns term : returns (λ n, (n <= u32_max)%N) (terminal_u32 term).
Proof.
  unfold terminal_u32, terminal. case_match; [|done]. apply returns_map_err.
  unfold parse_num. destruct (u32_from_str (name term)) as [n|] eqn:Hn.
  - apply u32_from_str_bound in Hn. cbn. repeat case_match; done.
  - cbn. repeat case_match; done.
Qed.

Lemma threshold_arg_returns n a h : returns (λ k, (N.of_nat k <= u32_max)%N) (threshold_arg n a h).
Proof.
  eapply returns_bind; [apply terminal_u32_returns|]. intros k Hk. cbv zeta. case_match; [done|].
  cbn. by rewrite N2Nat.id.
Qed.

Lemma keys_returns l : returns (λ _, True) (keys_from_trees (Pk := Pk) l).
Proof.
  eapply returns_impl; [apply (returns_try_map _ (λ _, True))|done]. intros x _.
  apply terminal_returns. intros s. by destruct (pk_from_str s).
Qed.

(** What [fragment] makes of a tree, [P] holding of the children: the numbers are bounded,
    and only constants and extensions have no arguments. *)
Definition node_u32 (t : Terminal Pk Ext) : Prop :=
  match t with
  | After n | Older n => (n <= u32_max)%N
  | Thresh k _ | Multi k _ | MultiA k _ => (N.of_nat k <= u32_max)%N
  | _ => True
  end.

Definition made_of (P : Miniscript Pk Ext → Prop) (l : list Tree) (n : string)
    (t : Terminal Pk Ext) : Prop :=
  Forall P (children t) ∧ node_u32 t ∧
  match t with
  | TTrue | TFalse => True
  | ExtT e => from_name_tree n l = Some e
  | _ => l ≠ []
  end.

Section fragment.
Variables (p : Tree → result Error (Miniscript Pk Ext)) (P : Miniscript Pk Ext → Prop).
Hypothesis Hfalse : ∀ f, from_ast ctx TFalse = Ok f → P f.

Lemma terminal_str_returns {A} term (parser : string → string + A) (c : A → Terminal Pk Ext) l n :
  (∀ x, children (c x) = []) → (∀ x, made_of P l n (c x)) →
  returns (made_of P l n) (terminal_str term parser c).
Proof.
  intros Hc Hm. unfold terminal_str. eapply returns_bind; [|intros x _; apply Hm].
  apply terminal_returns. intros s. by destruct (parser s).
Qed.

Lemma binary_returns {C} (Q : C → Prop) top conv :
  (∀ t, t ∈ args top → returns P (p t)) →
  (∀ l r, P l → P r → Q (conv l r)) → returns Q (binary p p top conv).
Proof.
  intros Hp Hq. unfold binary. destruct (args top) as [|a [|b [|]]]; [done..| |done].
  eapply returns_bind; [apply Hp; by left|]. intros l Hl.
  eapply returns_bind; [apply Hp; right; by left|]. intros r Hr. cbn. by apply Hq.
Qed.

Ltac made := split; [by repeat (apply Forall_cons_2; [done|])|done].

Lemma fragment_returns top n :
  (∀ t, t ∈ args top → returns P (p t)) → returns (made_of P (args top) n) (fragment ctx p top n).
Proof.
  intros Hp. unfold fragment. destruct (args top) as [|a l] eqn:Hargs.
  { repeat case_match; try done; by split; [apply Forall_nil_2|]. }
  cbv zeta.
  assert (∀ conv : Miniscript Pk Ext → Miniscript Pk Ext → Terminal Pk Ext,
    (∀ x y, P x → P y → made_of P (a :: l) n (conv x y)) →
    returns (made_of P (a :: l) n) (binary p p top conv)) as Hbin.
  { intros conv Hc. apply binary_returns; [by rewrite Hargs|done]. }
  repeat match goal with
  | |- returns _ (if ?b then _ else _) => destruct b eqn:?
  | |- returns _ (terminal_str _ _ _) =>
      apply terminal_str_returns; [done|intros; split; [apply Forall_nil_2|done]]
  | |- returns _ (binary _ _ _ _) => apply Hbin; intros; made
  | |- returns _ (match from_name_tree _ _ with _ => _ end) =>
      destruct (from_name_tree _ _) eqn:?; [by split; [apply Forall_nil_2|]|done]
  end; try done.
  - eapply returns_bind; [apply terminal_u32_returns|]. intros x Hx. by split; [apply Forall_nil_2|].
  - eapply returns_bind; [apply terminal_u32_returns|]. intros x Hx. by split; [apply Forall_nil_2|].
  - eapply returns_bind.
    { apply (binary_returns (λ xy, P xy.1 ∧ P xy.2)); [by rewrite Hargs|done]. }
    intros [x y] [Hx Hy]. pose proof (from_ast_returns TFalse (List.Forall_nil _)) as Hf.
    unfold from_false. destruct (from_ast ctx TFalse) as [f| |] eqn:Ha; cbn in Hf |- *; [|done..].
    specialize (Hfalse f eq_refl). made.
  - bools. destruct l as [|b [|c [|]]]; try done.
    eapply returns_bind; [apply Hp; by left|]. intros x Hx.
    eapply returns_bind; [apply Hp; right; by left|]. intros y Hy.
    eapply returns_bind; [apply Hp; right; right; by left|]. intros z Hz. made.
  - eapply returns_bind; [apply threshold_arg_returns|]. intros k Hk. case_match; [done|].
    eapply returns_bind; [apply (returns_try_map _ P); intros; apply Hp; by right|].
    intros subs Hs. by split.
  - eapply returns_bind; [apply threshold_arg_returns|]. intros k Hk.
    eapply returns_bind; [apply keys_returns|]. intros ks _.
    case_match; (split; [apply Forall_nil_2|done]).
Qed.
End fragment.

Lemma split_name_no_panic n : split_name n ≠ Panic.
Proof. unfold split_name. repeat case_match; done. Qed.

Lemma from_tree_unfold top :
  from_tree (Pk := Pk) (Ext := Ext) ctx top =
  let? (frag_wrap, frag_name) := split_name (name top) in
  let? unwrapped := fragment ctx (ms_from_tree ctx) top frag_name in
  let? unwrapped := try_fold (apply_wrapper ctx) unwrapped
                      (rev (String.list_ascii_of_string frag_wrap)) in
  let? ms := map_err TypeCheck (from_ast ctx unwrapped) in
  let? _ := map_err ContextError (check_global_validity ctx ms) in
  Ok (node ms).
Proof. by destruct top. Qed.

Lemma ms_from_tree_returns top : returns (admitted ctx) (ms_from_tree (Pk := Pk) (Ext := Ext) ctx top).
Proof.
  induction top as [n l IH] using Tree_tree_ind. unfold ms_from_tree.
  eapply returns_bind with (P := λ t, ∃ ms, node ms = t ∧ admitted ctx ms).
  - rewrite from_tree_unfold.
    eapply returns_bind; [apply returns_no_panic, split_name_no_panic|]. intros [fw fn] _.
    eapply returns_bind.
    { apply fragment_returns; [apply from_ast_false_admitted|]. rewrite Forall_forall in IH. exact IH. }
    intros t (Ht & _). eapply returns_bind.
    { apply (returns_try_fold fragment_ok); [|exact Ht]. intros u ch _ Hu. by apply apply_wrapper_returns. }
    intros u Hu. apply checked_returns; [done|]. intros ms _ Hms. by exists ms.
  - intros t (ms & <- & Hms). pose proof (admitted_inv _ _ Hms) as (Hf & _). by rewrite Hf.
Qed.

Context `{ValidCharsOk}.

(** (C25) What is parsed from text is a Miniscript: parsing a string never panics, and
    the Miniscript it returns is well typed, every node of it is valid in the context, it
    has type B and passes the checks asked for. *)
Theorem from_str_ext_sound s p :
  match from_str_ext (Pk := Pk) (Ext := Ext) ctx s p with
  | Ok ms => well_typed ctx ms ∧ all_nodes (node_allowed ctx) ms ∧
             size_within ctx (ext ms) ∧
             ext_check ctx p ms = Ok tt ∧ base (corr (ty ms)) = B
  | Err _ => True
  | Panic => False
  end.
Proof.
  assert (returns (λ ms : Miniscript Pk Ext, admitted ctx ms ∧ ext_check ctx p ms = Ok tt ∧
    base (corr (ty ms)) = B) (from_str_ext ctx s p)) as Hr.
  { eapply returns_bind; [apply returns_no_panic, Tree_from_str_no_panic|]. intros top _.
    eapply returns_bind; [apply ms_from_tree_returns|]. intros ms Hms.
    destruct (ext_check ctx p ms) as [[]|e|] eqn:Hc; cbn; [| done|].
    - case_bool_decide; done.
    - revert Hc. unfold ext_check. by repeat case_match. }
  destruct (from_str_ext ctx s p) as [ms| |]; [|done..]. destruct Hr as (Hms & Hc & Hb).
  split_and!; [by apply admitted_well_typed|by apply admitted_nodes| |done..].
  apply admitted_inv in Hms as (_ & Hv & _). by apply global_validity_Ok in Hv as [? _].
Qed.
End parse.
