(* ===== verification/TextRoundTrip.v ===== *)
(** * Printing and parsing Miniscripts

    The printed form of a Miniscript, as a tree ([tree_of]), and the round trip: what
    [Display] writes is read back as the same Miniscript. *)

From S2P Require Import Prelude Types Extension Property Ast Typing Resources Tokens Iter Context Encoding Expression ExpressionProps TextForm TextProps.
From stdpp Require Import strings.
From Stdlib Require Import Ascii.

#[local] Arguments String.append : simpl nomatch.

(** ** What the other crates promise *)

(** Text without delimiters, in the characters of a descriptor. *)
Definition text_ok (s : string) : Prop :=
  plain s = true ∧ str_forallb (char_in INPUT_CHARSET) s = true.

(** Keys, hashes and lock times are printed as such text and read back. *)
Class FromStrKeyOk (Pk : Type) `{FromStrKey Pk} : Prop := {
  pk_roundtrip : ∀ k : Pk, pk_from_str (key_to_string k) = inr k;
  sha256_roundtrip : ∀ h, sha256_from_str (sha256_to_string h) = inr h;
  hash256_roundtrip : ∀ h, hash256_from_str (hash256_to_string h) = inr h;
  ripemd160_roundtrip : ∀ h, ripemd160_from_str (ripemd160_to_string h) = inr h;
  hash160_roundtrip : ∀ h, hash160_from_str (hash160_to_string h) = inr h;
  pk_text : ∀ k : Pk, text_ok (key_to_string k);
  sha256_text : ∀ h, text_ok (sha256_to_string h);
  hash256_text : ∀ h, text_ok (hash256_to_string h);
  ripemd160_text : ∀ h, text_ok (ripemd160_to_string h);
  hash160_text : ∀ h, text_ok (hash160_to_string h);
  abs_lock_time_decimal : ∀ n, abs_lock_time_to_string n = num_to_string n;
  sequence_decimal : ∀ n, sequence_to_string n = num_to_string n;
}.

(** The names of the fragments and of their aliases. *)
Definition reserved : list string :=
  ["pk"; "pkh"; "expr_raw_pkh"; "pk_k"; "pk_h"; "after"; "older"; "sha256"; "hash256"; "ripemd160";
   "hash160"; "1"; "0"; "and_v"; "and_b"; "and_n"; "andor"; "or_b"; "or_d"; "or_c"; "or_i";
   "thresh"; "multi"; "multi_a"; "musig"]%string.

Definition no_char (x : ascii) (s : string) : bool := str_forallb (λ c, negb (Ascii.eqb c x)) s.
Notation no_colon := (no_char ":").

Lemma split_char_none x s : no_char x s = true → split_char x s = [s].
Proof.
  induction s as [|c s IH]; [done|]. cbn. intros [Hc Hs]%andb_true_iff.
  apply negb_true_iff in Hc. by rewrite Hc, IH.
Qed.

Lemma split_char_one x w n :
  no_char x w = true → no_char x n = true → split_char x (w +:+ String x n) = [w; n].
Proof.
  intros Hw Hn. induction w as [|c w IH].
  - cbn. by rewrite Ascii.eqb_refl, split_char_none.
  - cbn in Hw |- *. apply andb_true_iff in Hw as [Hc Hw].
    apply negb_true_iff in Hc. by rewrite Hc, IH.
Qed.

(** Every name of a tree is in the characters of a descriptor. *)
Fixpoint charset_tree (t : Tree) : bool :=
  let 'MkTree n l := t in str_forallb (char_in INPUT_CHARSET) n && forallb charset_tree l.

(** An extension is printed as a call of a name of its own. *)
Class TextExtOk (Ext : Type) `{TextExt Ext} : Type := {
  ext_name : Ext → string;
  ext_args : Ext → list Tree;
  ext_printed : ∀ e, ext_to_string e = show "(" ")" (MkTree (ext_name e) (ext_args e));
  ext_parsed : ∀ e, from_name_tree (ext_name e) (ext_args e) = Some e;
  ext_name_own : ∀ e, ext_name e ∉ reserved ∧ no_colon (ext_name e) = true;
  ext_writable : ∀ e, writable (MkTree (ext_name e) (ext_args e)) = true ∧
                      charset_tree (MkTree (ext_name e) (ext_args e)) = true;
  (** it is not printed deeper than it was written *)
  ext_depth : ∀ n l e, from_name_tree n l = Some e →
    depth (MkTree (ext_name e) (ext_args e)) ≤ depth (MkTree n l);
}.

#[export] Instance NoExt_TextExtOk : TextExtOk NoExt.
Proof. unshelve econstructor; by intros []. Defined.

Section tree_of.
Context {Pk : Type} `{FromStrKeyOk Pk} {Ext : Type} `{TextExtOk Ext}.

(** ** The tree that is printed *)

Definition leaf (s : string) : Tree := MkTree s [].

(** The wrappers of a node, the name of what they wrap, and its arguments. *)
Definition parts_t : Type := string * string * list Tree.

Definition named (w n : string) : string :=
  match w with EmptyString => n | _ => w +:+ String ":" n end.

Definition tree_parts (p : parts_t) : Tree := let '(w, n, l) := p in MkTree (named w n) l.

Definition wrap_parts (ch : ascii) (p : parts_t) : parts_t :=
  let '(w, n, l) := p in (String ch w, n, l).

Definition fun_parts (n : string) (l : list Tree) : parts_t := (EmptyString, n, l).

Definition num_leaf (k : nat) : Tree := leaf (num_to_string (N.of_nat k)).

Fixpoint parts (t : Terminal Pk Ext) : parts_t :=
  match t with
  | PkK pk => fun_parts "pk_k" [leaf (key_to_string pk)]
  | PkH pk => fun_parts "pk_h" [leaf (key_to_string pk)]
  | RawPkH h => fun_parts "expr_raw_pk_h" [leaf (pkh_to_string h)]
  | After n => fun_parts "after" [leaf (abs_lock_time_to_string n)]
  | Older n => fun_parts "older" [leaf (sequence_to_string n)]
  | Sha256 h => fun_parts "sha256" [leaf (sha256_to_string h)]
  | Hash256 h => fun_parts "hash256" [leaf (hash256_to_string h)]
  | Ripemd160 h => fun_parts "ripemd160" [leaf (ripemd160_to_string h)]
  | Hash160 h => fun_parts "hash160" [leaf (hash160_to_string h)]
  | TTrue => fun_parts "1" []
  | TFalse => fun_parts "0" []
  | ExtT e => fun_parts (ext_name e) (ext_args e)
  | AndV l r =>
      if is_true (node r) then wrap_parts "t" (ms_parts l)
      else fun_parts "and_v" [tree_parts (ms_parts l); tree_parts (ms_parts r)]
  | AndB l r => fun_parts "and_b" [tree_parts (ms_parts l); tree_parts (ms_parts r)]
  | AndOr a b c =>
      if is_false (node c)
      then fun_parts "and_n" [tree_parts (ms_parts a); tree_parts (ms_parts b)]
      else fun_parts "andor"
             [tree_parts (ms_parts a); tree_parts (ms_parts b); tree_parts (ms_parts c)]
  | OrB l r => fun_parts "or_b" [tree_parts (ms_parts l); tree_parts (ms_parts r)]
  | OrD l r => fun_parts "or_d" [tree_parts (ms_parts l); tree_parts (ms_parts r)]
  | OrC l r => fun_parts "or_c" [tree_parts (ms_parts l); tree_parts (ms_parts r)]
  | OrI l r =>
      if is_false (node r) then wrap_parts "u" (ms_parts l)
      else if is_false (node l) then wrap_parts "l" (ms_parts r)
      else fun_parts "or_i" [tree_parts (ms_parts l); tree_parts (ms_parts r)]
  | Thresh k subs => fun_parts "thresh" (num_leaf k :: map (λ s, tree_parts (ms_parts s)) subs)
  | Multi k keys => fun_parts "multi" (num_leaf k :: map (λ x, leaf (key_to_string x)) keys)
  | MultiA k keys => fun_parts "multi_a" (num_leaf k :: map (λ x, leaf (key_to_string x)) keys)
  | Alt sub => wrap_parts "a" (ms_parts sub)
  | Swap sub => wrap_parts "s" (ms_parts sub)
  | Check sub =>
      match node sub with
      | PkK pk => fun_parts "pk" [leaf (key_to_string pk)]
      | PkH pk => fun_parts "pkh" [leaf (key_to_string pk)]
      | RawPkH h => fun_parts "expr_raw_pkh" [leaf (pkh_to_string h)]
      | _ => wrap_parts "c" (ms_parts sub)
      end
  | DupIf sub => wrap_parts "d" (ms_parts sub)
  | Verify sub => wrap_parts "v" (ms_parts sub)
  | NonZero sub => wrap_parts "j" (ms_parts sub)
  | ZeroNotEqual sub => wrap_parts "n" (ms_parts sub)
  end
with ms_parts (ms : Miniscript Pk Ext) : parts_t :=
  let 'MkMs t _ _ := ms in parts t.

Definition tree_of (ms : Miniscript Pk Ext) : Tree := tree_parts (ms_parts ms).

Lemma ms_parts_node ms : ms_parts ms = parts (node ms).
Proof. by destruct ms. Qed.

(** ** [Display] writes the tree *)

Notation show_rnd := (show "(" ")").

Lemma show_cons c n l : show_rnd (MkTree (String c n) l) = String c (show_rnd (MkTree n l)).
Proof. by destruct l. Qed.

Lemma show_call n l :
  l ≠ [] → show_rnd (MkTree n l) = n +:+ String "(" (String.concat "," (map show_rnd l) +:+ ")").
Proof. by destruct l. Qed.

(** A node has no wrappers when [wrap_char] finds none, or when it is an alias. *)
Definition alias_of (t : Terminal Pk Ext) : bool :=
  match t with
  | Check sub => match node sub with PkK _ | PkH _ | RawPkH _ => true | _ => false end
  | _ => false
  end.

Lemma parts_wrapped t :
  match wrap_char t with
  | Some (ch, sub) => if alias_of t then (parts t).1.1 = EmptyString
                      else parts t = wrap_parts ch (parts (node sub))
  | None => (parts t).1.1 = EmptyString
  end.
Proof.
  destruct t; cbn; try done; rewrite ?ms_parts_node; try done.
  - by destruct (node sub).
  - by destruct (is_true (node r)).
  - by destruct (is_false (node c)).
  - destruct (is_false (node r)); [done|]. by destruct (is_false (node l)).
Qed.

Definition raw_key (t : Terminal Pk Ext) : bool :=
  match t with PkK _ | PkH _ | RawPkH _ => true | _ => false end.

Lemma wrap_char_alias t ch sub :
  wrap_char t = Some (ch, sub) → alias_of t = Ascii.eqb ch "c" && raw_key (node sub).
Proof.
  destruct t; cbn; try done; try (by intros [= <- <-]).
  - by destruct (is_true _); intros [= <- <-].
  - by destruct (is_false _); [|destruct (is_false _)]; intros [= <- <-].
Qed.

(** The arm of [Display] for a wrapper that is not an alias. *)
Lemma display_wrapper_show ch sub :
  Ascii.eqb ch "c" && raw_key (node sub) = false →
  display_wrapper ch sub (show_rnd (tree_parts (parts (node sub))))
  = show_rnd (tree_parts (wrap_parts ch (parts (node sub)))).
Proof.
  intros Hch. unfold display_wrapper.
  assert (display_prefix ch sub (show_rnd (tree_parts (parts (node sub))))
    = show_rnd (tree_parts (wrap_parts ch (parts (node sub))))) as <-.
  2: { destruct (Ascii.eqb ch "c"); [|done]. by destruct (node sub). }
  unfold display_prefix. pose proof (parts_wrapped (node sub)) as Hp.
  assert ((parts (node sub)).1.1 = EmptyString →
    String ch (":" +:+ show_rnd (tree_parts (parts (node sub))))
    = show_rnd (tree_parts (wrap_parts ch (parts (node sub))))) as Hcolon.
  { destruct (parts (node sub)) as [[w n] l]. cbn [fst]. intros ->.
    cbn [tree_parts wrap_parts named String.append]. by rewrite !show_cons. }
  destruct (wrap_char (node sub)) as [[c ms]|] eqn:Hw; [|by rewrite <-Hcolon].
  rewrite (wrap_char_alias _ _ _ Hw) in Hp.
  assert (parts (node sub) = wrap_parts c (parts (node ms)) →
    String ch (show_rnd (tree_parts (parts (node sub))))
    = show_rnd (tree_parts (wrap_parts ch (parts (node sub))))) as Hplain.
  { intros ->. destruct (parts (node ms)) as [[w n] l].
    cbn [tree_parts wrap_parts named String.append]. by rewrite !show_cons. }
  destruct (Ascii.eqb c "c"), (node ms); cbn [andb raw_key] in Hp; auto.
Qed.

Lemma call_show n a : call n a = show_rnd (tree_parts (fun_parts n [leaf a])).
Proof. done. Qed.

Lemma call2_show n a b :
  call2 n (show_rnd a) (show_rnd b) = show_rnd (tree_parts (fun_parts n [a; b])).
Proof. unfold call2. cbn. by rewrite str_app_assoc. Qed.

Lemma call2_children n l r :
  display_ms l = show_rnd (tree_of l) → display_ms r = show_rnd (tree_of r) →
  call2 n (display_ms l) (display_ms r)
  = show_rnd (tree_parts (fun_parts n [tree_parts (ms_parts l); tree_parts (ms_parts r)])).
Proof. intros -> ->. apply call2_show. Qed.

Lemma concat_foldr s l :
  s +:+ foldr (λ s rest, "," +:+ s +:+ rest) ")" l = String.concat "," (s :: l) +:+ ")".
Proof.
  revert s. induction l as [|x l IH]; intros s; [done|]. cbn [foldr]. rewrite IH.
  change (String.concat "," (s :: x :: l)) with (s +:+ "," +:+ String.concat "," (x :: l)).
  by rewrite !str_app_assoc.
Qed.

Lemma call_k_show n k l :
  call_k n k (map show_rnd l) = show_rnd (tree_parts (fun_parts n (num_leaf k :: l))).
Proof.
  unfold call_k. rewrite concat_foldr. unfold tree_parts, fun_parts. cbn [named].
  by rewrite show_call.
Qed.

(** [Display] writes the tree of the node. *)
Lemma display_show ms : display_ms ms = show_rnd (tree_of ms).
Proof.
  induction ms as [t a b IH] using Miniscript_tree_ind. unfold tree_of. cbn [ms_parts display_ms].
  assert (∀ s ch, display_ms s = show_rnd (tree_of s) →
    Ascii.eqb ch "c" && raw_key (node s) = false →
    display_wrapper ch s (display_ms s) = show_rnd (tree_parts (wrap_parts ch (ms_parts s)))) as Hw.
  { intros s ch -> Hch. unfold tree_of. rewrite ms_parts_node. by apply display_wrapper_show. }
  unfold tree_of in IH.
  destruct t; cbn [children] in IH; cbn [display parts]; fold display_ms; fold ms_parts;
    repeat match goal with
    | H : Forall _ (_ :: _) |- _ => apply Forall_cons in H as [? H]
    end;
    try (rewrite call_show; done); try (by apply Hw);
    try (by apply call2_children); try done.
  - destruct (raw_key (node sub)) eqn:Hr.
    + destruct sub as [[] ? ?]; done.
    + rewrite Hw by done. by destruct sub as [[] ? ?].
  - destruct (is_true (node r)); [by apply Hw|]. by apply call2_children.
  - destruct (is_false (node c)); [by apply call2_children|].
    unfold tree_parts at 1, fun_parts. cbn [named]. rewrite show_call by done.
    cbn [map String.concat]. rewrite !str_app_assoc. cbn [String.append].
    by repeat match goal with H : display_ms _ = _ |- _ => rewrite <-H; clear H end.
  - destruct (is_false (node l)), (is_false (node r)); cbn [negb andb];
      solve [by apply Hw | by apply call2_children].
  - rewrite <-call_k_show, map_map. f_equal. clear -IH. induction IH; cbn; congruence.
  - by rewrite <-call_k_show, map_map.
  - by rewrite <-call_k_show, map_map.
  - apply ext_printed.
Qed.
End tree_of.

(** ** Parsing the tree of a Miniscript *)

Section parse.
Context {Pk : Type} `{FromStrKeyOk Pk} `{LockTimesOk} `{EqDecision Pk}.
Context {Ext : Type} `{!Extension Ext} `{!TextExt Ext} `{!TextExtOk Ext}.
Context (ctx : ScriptContext).
Notation ms_t := (Miniscript Pk Ext).

(** Numbers are parsed as [u32], and a bare key hash is not parsed back. *)
Definition node_printable (t : Terminal Pk Ext) : Prop :=
  match t with RawPkH _ => False | _ => node_u32 t end.

Definition expand (w n : string) : string * string :=
  if String.eqb n "pk" then (w +:+ "c", "pk_k"%string)
  else if String.eqb n "pkh" then (w +:+ "c", "pk_h"%string)
  else (w, n).

Lemma split_named w n :
  no_colon w = true → no_colon n = true → split_name (named w n) = Ok (expand w n).
Proof.
  intros Hw Hn. unfold split_name, expand. destruct w as [|c w].
  - cbn [named]. rewrite split_char_none by done. by repeat case_match.
  - cbn [named]. rewrite split_char_one by done. cbn [String.eqb]. by repeat case_match.
Qed.

(** What the parser makes of the parts of a node before its last check. *)
Definition reads_as (p : parts_t) (t : Terminal Pk Ext) : Prop :=
  let '(w, n, l) := p in
  no_colon w = true ∧ no_colon n = true ∧
  ∀ nm, (let? u := fragment ctx (ms_from_tree ctx) (MkTree nm l) (expand w n).2 in
         try_fold (apply_wrapper ctx) u (rev (String.list_ascii_of_string (expand w n).1))) = Ok t.

Lemma reads_as_tree ms :
  admitted ctx ms → reads_as (parts (node ms)) (node ms) → ms_from_tree ctx (tree_of ms) = Ok ms.
Proof.
  intros (Hf & Hv & _)%admitted_inv Hr. unfold tree_of. rewrite ms_parts_node.
  destruct (parts (node ms)) as [[w n] l]. destruct Hr as (Hw & Hn & Hr).
  unfold ms_from_tree. rewrite from_tree_unfold. cbn [tree_parts name].
  rewrite split_named by done. cbn [result_bind]. specialize (Hr (named w n)).
  destruct (expand w n) as [fw fn]. cbn [fst snd] in Hr.
  rewrite bind_Ok in Hr. destruct Hr as (u & Hu & Hfold). rewrite Hu. cbn [result_bind].
  rewrite Hfold. cbn [result_bind]. rewrite Hf. cbn. rewrite Hv. cbn. by rewrite Hf.
Qed.

Lemma list_ascii_app a b :
  String.list_ascii_of_string (a +:+ b)
  = String.list_ascii_of_string a ++ String.list_ascii_of_string b.
Proof. induction a as [|c a IH]; cbn; [done|]. by rewrite IH. Qed.

Lemma expand_cons ch w n :
  expand (String ch w) n = (String ch (expand w n).1, (expand w n).2).
Proof. unfold expand. by repeat case_match. Qed.

(** A wrapper around what is read. *)
Lemma reads_as_wrap ch (sub : ms_t) p t :
  reads_as p (node sub) → admitted ctx sub → no_colon (String ch EmptyString) = true →
  wrap_with ctx sub ch = Ok t → reads_as (wrap_parts ch p) t.
Proof.
  destruct p as [[w n] l]. intros (Hw & Hn & Hr) Hs Hc Ha. cbn [wrap_parts reads_as].
  split_and!; [|done|].
  - cbn in Hc |- *. rewrite andb_true_r in Hc. by rewrite Hc.
  - intros nm. specialize (Hr nm). rewrite expand_cons. cbn [fst snd].
    apply bind_Ok in Hr as (u & Hu & Hf). rewrite Hu. cbn [result_bind].
    cbn [String.list_ascii_of_string rev]. rewrite try_fold_app, Hf. cbn [result_bind try_fold].
    apply admitted_inv in Hs as (Hast & Hv & _). unfold apply_wrapper. rewrite Hast. cbn. rewrite Hv.
    cbn. by rewrite Ha.
Qed.


(** The constants under [t:], [u:], [l:] and in [and_n] are the ones the parser makes. *)
Lemma admitted_false ms : admitted ctx ms → is_false (node ms) = true → from_false ctx = Ok ms.
Proof.
  intros (Hf & _)%admitted_inv Hn. unfold from_false. by destruct (node ms); try done; rewrite Hf.
Qed.

Lemma admitted_true ms : admitted ctx ms → is_true (node ms) = true → from_true ctx = Ok ms.
Proof.
  intros (Hf & _)%admitted_inv Hn. unfold from_true. by destruct (node ms); try done; rewrite Hf.
Qed.

Lemma terminal_leaf {E A} (display : E → string) s (convert : string → result E A) a :
  convert s = Ok a → terminal display (leaf s) convert = Ok a.
Proof. intros Hc. unfold terminal. cbn. by rewrite Hc. Qed.

Lemma terminal_str_leaf {A} s (p : string → string + A) (c : A → Terminal Pk Ext) a :
  p s = inr a → terminal_str (leaf s) p c = Ok (c a).
Proof. intros Hp. unfold terminal_str. by rewrite (terminal_leaf _ _ _ a) by (by rewrite Hp). Qed.

Lemma terminal_u32_leaf n :
  (n <= u32_max)%N → terminal_u32 (leaf (num_to_string n)) = Ok n.
Proof. intros Hn. by apply terminal_leaf, parse_num_roundtrip. Qed.

Lemma threshold_arg_leaf k n h :
  (N.of_nat k <= u32_max)%N → k ≤ n → threshold_arg (S n) (num_leaf k) h = Ok k.
Proof.
  intros Hk Hn. unfold threshold_arg, num_leaf. rewrite terminal_u32_leaf by done. cbn [result_bind].
  rewrite Nat2N.id. cbv zeta. by rewrite (proj2 (Nat.ltb_ge _ _)) by lia.
Qed.

Lemma keys_leaves ks :
  keys_from_trees (map (λ x : Pk, leaf (key_to_string x)) ks) = Ok ks.
Proof.
  unfold keys_from_trees. apply try_map_Ok. induction ks as [|k ks IH]; cbn; constructor; [|done].
  apply terminal_leaf. by rewrite pk_roundtrip.
Qed.

Lemma read_children subs :
  Forall (λ ms, ms_from_tree (Ext := Ext) ctx (tree_of ms) = Ok ms) subs →
  try_map (ms_from_tree ctx) (map (λ s, tree_parts (ms_parts s)) subs) = Ok subs.
Proof. intros Hs. apply try_map_Ok. induction Hs; cbn; by constructor. Qed.

(** A function call without wrappers is read as what [fragment] makes of it. *)
Lemma reads_as_call n l t :
  no_colon n = true → String.eqb n "pk" = false → String.eqb n "pkh" = false →
  (∀ nm, fragment ctx (ms_from_tree ctx) (MkTree nm l) n = Ok t) → reads_as (fun_parts n l) t.
Proof.
  intros Hn Hpk Hpkh Hf. cbn. split_and!; [done|done|]. intros nm. unfold expand.
  rewrite Hpk, Hpkh. cbn. by rewrite Hf.
Qed.

(** The alias [pk] of [c:pk_k], and [pkh] of [c:pk_h]. *)
Lemma reads_as_alias n frag l (sub : ms_t) :
  admitted ctx sub → no_colon n = true → expand "" n = ("c"%string, frag) →
  (∀ nm, fragment ctx (ms_from_tree ctx) (MkTree nm l) frag = Ok (node sub)) →
  reads_as (fun_parts n l) (Check sub).
Proof.
  intros (Hast & Hv & _)%admitted_inv Hn He Hf. cbn [fun_parts reads_as]. split_and!; [done|done|].
  intros nm. rewrite He. cbn [fst snd]. rewrite Hf. cbn. unfold apply_wrapper. rewrite Hast. cbn.
  by rewrite Hv.
Qed.

Lemma admitted_threshold (ms : ms_t) k n :
  admitted ctx ms →
  match node ms with
  | Thresh k' subs => k' = k ∧ length subs = n
  | Multi k' pks | MultiA k' pks => k' = k ∧ length pks = n
  | _ => False
  end → 1 ≤ k ≤ n.
Proof.
  intros (Hf & _)%admitted_inv Hn. apply from_ast_Ok in Hf as (_ & Ht & _).
  unfold type_check, property_check in Ht.
  destruct (node ms); try done; destruct Hn as [-> <-]; apply bind_Ok in Ht as ([] & Hk & _);
    by eapply check_threshold_Ok.
Qed.

Lemma fragment_binary nm f (conv : ms_t → ms_t → Terminal Pk Ext) l r :
  ms_from_tree ctx (tree_of l) = Ok l → ms_from_tree ctx (tree_of r) = Ok r →
  fragment ctx (ms_from_tree ctx) (MkTree nm [tree_of l; tree_of r]) f
  = binary (ms_from_tree ctx) (ms_from_tree ctx) (MkTree nm [tree_of l; tree_of r]) conv →
  fragment ctx (ms_from_tree ctx) (MkTree nm [tree_of l; tree_of r]) f = Ok (conv l r).
Proof. intros Hl Hr ->. unfold binary. cbn [args]. rewrite Hl. cbn. by rewrite Hr. Qed.

Lemma reads_as_binary f (conv : ms_t → ms_t → Terminal Pk Ext) l r :
  no_colon f = true → String.eqb f "pk" = false → String.eqb f "pkh" = false →
  (∀ nm, fragment ctx (ms_from_tree ctx) (MkTree nm [tree_of l; tree_of r]) f
         = binary (ms_from_tree ctx) (ms_from_tree ctx) (MkTree nm [tree_of l; tree_of r]) conv) →
  ms_from_tree ctx (tree_of l) = Ok l → ms_from_tree ctx (tree_of r) = Ok r →
  reads_as (fun_parts f [tree_of l; tree_of r]) (conv l r).
Proof. intros ??? Hf ??. apply reads_as_call; [done..|]. intros nm. by apply fragment_binary. Qed.

(** The terms with text for an argument. *)
Lemma reads_as_text {A} n x s (p : string → string + A) (conv : A → Terminal Pk Ext) :
  no_colon n = true → String.eqb n "pk" = false → String.eqb n "pkh" = false →
  (∀ nm, fragment ctx (ms_from_tree ctx) (MkTree nm [leaf s]) n = terminal_str (leaf s) p conv) →
  p s = inr x → reads_as (fun_parts n [leaf s]) (conv x).
Proof. intros ??? Hf Hx. apply reads_as_call; [done..|]. intros nm. rewrite Hf. by apply terminal_str_leaf. Qed.

Lemma reads_as_number n x (conv : N → Terminal Pk Ext) :
  no_colon n = true → String.eqb n "pk" = false → String.eqb n "pkh" = false →
  (∀ nm, fragment ctx (ms_from_tree ctx) (MkTree nm [leaf (num_to_string x)]) n
         = let? y := terminal_u32 (leaf (num_to_string x)) in Ok (conv y)) →
  (x <= u32_max)%N → reads_as (fun_parts n [leaf (num_to_string x)]) (conv x).
Proof.
  intros ??? Hf Hx. apply reads_as_call; [done..|]. intros nm. rewrite Hf. by rewrite terminal_u32_leaf.
Qed.

(** Thresholds of keys and of Miniscripts. *)
Lemma reads_as_keys n h k ks (conv : nat → list Pk → Terminal Pk Ext) :
  no_colon n = true → String.eqb n "pk" = false → String.eqb n "pkh" = false →
  (∀ nm a l, fragment ctx (ms_from_tree ctx) (MkTree nm (a :: l)) n
     = let? k := threshold_arg (S (length l)) a h in
       let? ks := keys_from_trees l in Ok (conv k ks)) →
  (N.of_nat k <= u32_max)%N → k ≤ length ks →
  reads_as (fun_parts n (num_leaf k :: map (λ x, leaf (key_to_string x)) ks)) (conv k ks).
Proof.
  intros ??? Hf Hk Hn. apply reads_as_call; [done..|]. intros nm.
  rewrite Hf, length_map, threshold_arg_leaf by done. cbn [result_bind]. by rewrite keys_leaves.
Qed.

Lemma reads_as_thresh k subs :
  (N.of_nat k <= u32_max)%N → 1 ≤ k ≤ length subs →
  Forall (λ s, ms_from_tree (Ext := Ext) ctx (tree_of s) = Ok s) subs →
  reads_as (fun_parts "thresh" (num_leaf k :: map (λ s, tree_parts (ms_parts s)) subs))
    (Thresh k subs).
Proof.
  intros Hk Hn Hs. apply reads_as_call; [done..|]. intros nm.
  transitivity (let n := length (map (λ s, tree_parts (ms_parts s)) subs) in
    let? k := threshold_arg (S n) (num_leaf k) "higher threshold than there are subexpressions" in
    if S n =? 1 then Err (errstr "empty thresholds not allowed in descriptors")
    else let? l := try_map (ms_from_tree ctx) (map (λ s, tree_parts (ms_parts s)) subs) in
         Ok (Thresh (Pk := Pk) (Ext := Ext) k l)); [done|].
  cbv zeta. rewrite length_map, threshold_arg_leaf by (done || lia). cbn [result_bind].
  rewrite read_children by done. by destruct subs; [cbn in Hn; lia|].
Qed.

(** The rules with a constant, and [andor]. *)
Lemma wrap_with_t (l r : ms_t) :
  admitted ctx r → is_true (node r) = true → wrap_with ctx l "t" = Ok (AndV l r).
Proof.
  intros Hr Ht. transitivity (let? r := from_true ctx in Ok (AndV l r)); [done|].
  by rewrite (admitted_true r).
Qed.

Lemma wrap_with_u (l r : ms_t) :
  admitted ctx r → is_false (node r) = true → wrap_with ctx l "u" = Ok (OrI l r).
Proof.
  intros Hr Ht. transitivity (let? r := from_false ctx in Ok (OrI l r)); [done|].
  by rewrite (admitted_false r).
Qed.

Lemma wrap_with_l (l r : ms_t) :
  admitted ctx l → is_false (node l) = true → is_false (node r) = false →
  wrap_with ctx r "l" = Ok (OrI l r).
Proof.
  intros Hl Ht Hr. transitivity (if is_false (node r) then Err LikelyFalse
    else let? l := from_false ctx in Ok (OrI l r)); [done|].
  by rewrite Hr, (admitted_false l).
Qed.

Lemma reads_as_and_or (a b c : ms_t) :
  ms_from_tree ctx (tree_of a) = Ok a → ms_from_tree ctx (tree_of b) = Ok b →
  ms_from_tree ctx (tree_of c) = Ok c → admitted ctx c → reads_as (parts (AndOr a b c)) (AndOr a b c).
Proof.
  intros Ha Hb Hc Hadm. cbn [parts]. fold ms_parts. destruct (is_false (node c)) eqn:Hf.
  - apply reads_as_call; [done..|]. intros nm.
    transitivity (let? (x, y) := binary (ms_from_tree ctx) (ms_from_tree ctx)
                                   (MkTree nm [tree_of a; tree_of b]) pair in
                  let? f := from_false ctx in Ok (AndOr (Pk := Pk) (Ext := Ext) x y f)); [done|].
    rewrite (admitted_false c) by done. unfold binary. cbn [args]. rewrite Ha. cbn. by rewrite Hb.
  - apply reads_as_call; [done..|]. intros nm.
    transitivity (let? x := ms_from_tree ctx (tree_of a) in
                  let? y := ms_from_tree ctx (tree_of b) in
                  let? z := ms_from_tree ctx (tree_of c) in
                  Ok (AndOr (Pk := Pk) (Ext := Ext) x y z)); [done|].
    rewrite Ha. cbn [result_bind]. rewrite Hb. cbn [result_bind]. by rewrite Hc.
Qed.

Lemma reads_as_ext e : reads_as (parts (ExtT e)) (ExtT e).
Proof.
  destruct (ext_name_own e) as [Hown Hcolon].
  assert (∀ f, bool_decide (f ∈ reserved) = true → String.eqb (ext_name e) f = false) as Hf.
  { intros f Hf%bool_decide_eq_true. apply String.eqb_neq. intros <-. done. }
  cbn [parts]. apply reads_as_call; [done|by apply Hf..|]. intros nm.
  unfold fragment. cbv zeta. cbn [args].
  destruct (ext_args e) as [|a l] eqn:Hargs; rewrite !Hf by done; cbn [orb andb];
    rewrite <-Hargs, ext_parsed; done.
Qed.

Lemma parts_read ms :
  admitted ctx ms → all_nodes node_printable ms → reads_as (parts (node ms)) (node ms).
Proof.
  revert ms. apply (admitted_tree_ind ctx
    (λ ms, all_nodes node_printable ms → reads_as (parts (node ms)) (node ms))).
  intros ms Hf Hv Hch IH [Hp Hps]%all_nodes_inv.
  assert (admitted ctx ms) as Hms by by constructor.
  assert (Forall (λ s, admitted ctx s ∧ node_printable (node s) ∧
                       reads_as (parts (node s)) (node s) ∧
                       ms_from_tree ctx (tree_of s) = Ok s) (children (node ms))) as Hsubs.
  { rewrite Forall_forall in Hch, IH, Hps |- *. intros s Hs.
    destruct (all_nodes_inv _ _ (Hps s Hs)) as [? _]. split_and!; auto. apply reads_as_tree; auto. }
  clear IH Hps Hch Hf Hv.
  assert (∀ s, admitted ctx s → reads_as (parts (node s)) (node s) → ∀ ch t,
    no_colon (String ch EmptyString) = true → wrap_with ctx s ch = Ok t →
    reads_as (wrap_parts ch (ms_parts s)) t) as Hwrap.
  { intros s Hs Hr ch t Hc Hw. rewrite ms_parts_node. by eapply reads_as_wrap. }
  assert (∀ k n, (match node ms with
                  | Thresh k' subs => k' = k ∧ length subs = n
                  | Multi k' pks | MultiA k' pks => k' = k ∧ length pks = n
                  | _ => False
                  end) → 1 ≤ k ≤ n) as Hthr by (intros k n; by apply admitted_threshold).
  destruct (node ms) eqn:Hnode; cbn [children node_printable node_u32] in Hsubs, Hp; try done;
    try (by apply reads_as_call); try apply reads_as_ext;
    repeat match goal with
    | H : Forall _ (_ :: _) |- _ => apply Forall_cons in H as [(? & ? & ? & ?) H]
    end;
    try (by apply reads_as_and_or); cbn [parts]; fold ms_parts;
    try (by apply Hwrap); try (by apply reads_as_binary);
    rewrite ?abs_lock_time_decimal, ?sequence_decimal; try (by apply reads_as_number);
    try (by eapply reads_as_text; first [apply pk_roundtrip | apply sha256_roundtrip
           | apply hash256_roundtrip | apply ripemd160_roundtrip | apply hash160_roundtrip | done]).
  - pose proof (Hwrap sub ltac:(done) ltac:(done) "c"%char (Check sub) eq_refl eq_refl) as Hc.
    destruct (node sub) eqn:Hs; try done.
    + apply (reads_as_alias "pk" "pk_k"); [done..|]. intros nm. rewrite Hs.
      apply (terminal_str_leaf _ pk_from_str PkK), pk_roundtrip.
    + apply (reads_as_alias "pkh" "pk_h"); [done..|]. intros nm. rewrite Hs.
      apply (terminal_str_leaf _ pk_from_str PkH), pk_roundtrip.
  - destruct (is_true (node r)) eqn:Hr; [|by apply reads_as_binary].
    apply Hwrap; [done..|]. by apply wrap_with_t.
  - destruct (is_false (node r)) eqn:Hr; [|destruct (is_false (node l)) eqn:Hl].
    + apply Hwrap; [done..|]. by apply wrap_with_u.
    + apply Hwrap; [done..|]. by apply wrap_with_l.
    + by apply reads_as_binary.
  - apply reads_as_thresh; [done|by apply Hthr|].
    eapply Forall_impl; [exact Hsubs|]. by intros s (_ & _ & _ & ?).
  - eapply reads_as_keys; [done..| |by apply Hthr]. done.
  - eapply reads_as_keys; [done..| |by apply Hthr]. done.
Qed.

(** ** The tree can be written *)

Lemma named_not_musig w n : no_colon n = true → n ≠ "musig"%string → named w n ≠ "musig"%string.
Proof.
  intros Hn Hne. destruct w as [|c w]; [done|]. intros Hm.
  assert (no_colon (named (String c w) n) = true) as Hc by by rewrite Hm.
  unfold named, no_char in Hc. rewrite str_forallb_app in Hc. cbn in Hc.
  by rewrite andb_false_r in Hc.
Qed.

Definition text (s : string) : bool := plain s && str_forallb (char_in INPUT_CHARSET) s.

Definition writable_parts (p : parts_t) : Prop :=
  let '(w, n, l) := p in
  text w = true ∧ text n = true ∧ no_colon n = true ∧ n ≠ "musig"%string ∧
  Forall (λ t, writable t = true ∧ charset_tree t = true) l.

Lemma writable_parts_tree p :
  writable_parts p → writable (tree_parts p) = true ∧ charset_tree (tree_parts p) = true.
Proof.
  destruct p as [[w n] l]. cbn [writable_parts tree_parts writable charset_tree]. unfold text.
  rewrite !andb_true_iff. intros ((Hpw & Hcw) & (Hpn & Hcn) & Hn & Hm & Hl).
  assert (∀ q : ascii → bool, str_forallb q w = true → str_forallb q n = true → q ":"%char = true →
    str_forallb q (named w n) = true) as Hnamed.
  { intros q Hw Hqn Hq. destruct w; [done|]. unfold named. rewrite str_forallb_app. cbn in Hw |- *.
    by rewrite Hw, Hq, Hqn. }
  split_and!; try by apply Hnamed.
  - destruct l; [done|]. apply negb_true_iff, String.eqb_neq. by apply named_not_musig.
  - apply forallb_forall. intros t Ht%list_elem_of_In. rewrite Forall_forall in Hl. by apply Hl.
  - apply forallb_forall. intros t Ht%list_elem_of_In. rewrite Forall_forall in Hl. by apply Hl.
Qed.

Lemma writable_parts_wrap ch p :
  text (String ch EmptyString) = true → writable_parts p → writable_parts (wrap_parts ch p).
Proof.
  destruct p as [[w n] l]. intros Hch (Hw & H'). split; [|done]. unfold text, plain in *.
  cbn [str_forallb] in Hch |- *. rewrite !andb_true_r, andb_true_iff in Hch.
  apply andb_true_iff in Hw as [-> ->]. by destruct Hch as [-> ->].
Qed.

Lemma writable_leaf s :
  text_ok s → writable (leaf s) = true ∧ charset_tree (leaf s) = true.
Proof. intros [Hp Hc]. unfold leaf. cbn [writable charset_tree]. by rewrite Hp, Hc. Qed.

Lemma num_text n : text_ok (num_to_string n).
Proof. split; [apply num_to_string_plain|apply num_to_string_charset]. Qed.

Lemma writable_fun n l :
  text n = true → no_colon n = true → String.eqb n "musig" = false →
  Forall (λ t, writable t = true ∧ charset_tree t = true) l → writable_parts (fun_parts n l).
Proof. intros ?? Hm%String.eqb_neq ?. done. Qed.

Lemma writable_fun1 n s :
  text n = true → no_colon n = true → String.eqb n "musig" = false → text_ok s →
  writable_parts (fun_parts n [leaf s]).
Proof.
  intros. apply writable_fun; [done..|]. apply Forall_singleton. by apply writable_leaf.
Qed.

Lemma writable_keys n k (ks : list Pk) :
  text n = true → no_colon n = true → String.eqb n "musig" = false →
  writable_parts (fun_parts n (num_leaf k :: map (λ x, leaf (key_to_string x)) ks)).
Proof.
  intros. apply writable_fun; [done..|]. apply Forall_cons_2; [apply writable_leaf, num_text|].
  apply Forall_map, Forall_true. intros x. apply writable_leaf, pk_text.
Qed.

Lemma parts_writable ms :
  all_nodes node_printable ms → writable_parts (parts (Ext := Ext) (node ms)).
Proof.
  induction ms as [t a b IH] using Miniscript_tree_ind. intros [Hp Hps]%all_nodes_inv.
  cbn [node] in *.
  assert (Forall (λ m, node_printable (node m) ∧ writable_parts (ms_parts m)) (children t)) as Hsubs.
  { rewrite Forall_forall in IH, Hps |- *. intros m Hm. rewrite ms_parts_node.
    destruct (all_nodes_inv _ _ (Hps m Hm)) as [? _]. auto. }
  clear IH Hps. 
  assert (∀ n l, text n = true → no_colon n = true → String.eqb n "musig" = false →
    Forall (λ m, node_printable (node m) ∧ writable_parts (ms_parts m)) l →
    writable_parts (fun_parts n (map (λ m, tree_parts (ms_parts m)) l))) as Hfun.
  { intros n l ??? Hl. apply writable_fun; [done..|]. apply Forall_map.
    eapply Forall_impl; [exact Hl|]. intros m [_ ?]. by apply writable_parts_tree. }
  destruct t; cbn [children node_printable node_u32] in Hsubs, Hp; cbn [parts]; fold ms_parts; try done;
    try (apply writable_fun1; [done..|];
         first [apply pk_text | apply sha256_text | apply hash256_text | apply ripemd160_text
               | apply hash160_text | rewrite abs_lock_time_decimal; apply num_text
               | rewrite sequence_decimal; apply num_text]);
    try (by apply writable_keys);
    try (by apply (Hfun _ [_; _]));
    try (apply Forall_singleton in Hsubs as [? ?]; by apply writable_parts_wrap).
  - apply Forall_singleton in Hsubs as [Hn Hs].
    assert (writable_parts (wrap_parts "c" (ms_parts sub))) as Hc by by apply writable_parts_wrap.
    destruct (node sub); try done; apply writable_fun1, pk_text; done.
  - apply Forall_cons in Hsubs as [[Hn Hl] Hr].
    destruct (is_true (node r)); [by apply writable_parts_wrap|].
    apply (Hfun _ [l; r]); [done..|]. by apply Forall_cons_2.
  - destruct (is_false (node c)); [|by apply (Hfun _ [a0; b0; c])].
    apply (Hfun _ [a0; b0]); [done..|].
    apply Forall_cons in Hsubs as [? Hsubs]. apply Forall_cons in Hsubs as [? _].
    by repeat (apply Forall_cons_2; [done|]).
  - destruct (is_false (node r)); [|destruct (is_false (node l)); [|by apply (Hfun _ [l; r])]];
      apply Forall_cons in Hsubs as [[_ ?] Hsubs]; apply Forall_singleton in Hsubs as [_ ?];
      by apply writable_parts_wrap.
  - specialize (Hfun "thresh"%string subs). cbn in Hfun.
    apply writable_fun; [done..|]. apply Forall_cons_2; [apply writable_leaf, num_text|].
    apply Forall_map. eapply Forall_impl; [exact Hsubs|]. intros m [_ ?]. by apply writable_parts_tree.
  - destruct (ext_name_own e) as [Hown Hcolon]. pose proof (ext_writable e) as [Hw Hc].
    apply writable_inv in Hw as (Hpn & _ & Hl). cbn [charset_tree] in Hc. apply andb_true_iff in Hc as [Hcn Hcl].
    apply writable_fun; [by unfold text, plain in *; rewrite Hpn, Hcn|done| |].
    + apply String.eqb_neq. intros Hm. apply Hown. rewrite Hm. by apply (bool_decide_eq_true_1 _).
    + rewrite Forall_forall in Hl |- *. intros t Ht. split; [by apply Hl|].
      eapply forallb_forall in Hcl; [exact Hcl|]. by apply list_elem_of_In.
Qed.

Lemma concat_forallb q l :
  q ","%char = true → Forall (λ s, str_forallb q s = true) l →
  str_forallb q (String.concat "," l) = true.
Proof.
  intros Hq Hl. induction Hl as [|x l Hx Hl IH]; [done|]. destruct l as [|y l]; [done|].
  change (String.concat "," (x :: y :: l)) with (x +:+ String "," (String.concat "," (y :: l))).
  rewrite str_forallb_app, Hx. change (q ","%char && str_forallb q (String.concat "," (y :: l)) = true).
  by rewrite Hq, IH.
Qed.

Lemma show_charset t :
  charset_tree t = true → str_forallb (char_in INPUT_CHARSET) (show "(" ")" t) = true.
Proof.
  induction t as [n l IH] using Tree_tree_ind. cbn [charset_tree].
  intros [Hn Hl]%andb_true_iff. destruct l as [|t l]; [done|]. rewrite show_call by done.
  assert (∀ q : ascii → bool, q "("%char = true → q ")"%char = true → ∀ a b,
    str_forallb q a = true → str_forallb q b = true →
    str_forallb q (a +:+ String "(" (b +:+ ")")) = true) as Hcall.
  { intros q Ho Hc a b Ha Hb. rewrite str_forallb_app, Ha. cbn. rewrite Ho, str_forallb_app, Hb.
    cbn. by rewrite Hc. }
  apply Hcall; [done..|]. apply concat_forallb; [done|]. apply Forall_map.
  rewrite Forall_forall in IH |- *. intros a Ha. apply IH; [done|].
  eapply forallb_forall in Hl; [exact Hl|]. by apply list_elem_of_In.
Qed.

(** ** What is read is not deeper than what was written *)

Lemma depth_name n n' l : depth (MkTree n l) = depth (MkTree n' l).
Proof. done. Qed.

Lemma depth_wrap ch p : depth (tree_parts (wrap_parts ch p)) = depth (tree_parts p).
Proof. by destruct p as [[w n] l]. Qed.

Lemma depth_fun n l d : Forall (λ t, depth t ≤ d) l → depth (tree_parts (fun_parts n l)) ≤ S d.
Proof. apply depth_children. Qed.

(** A node over children of depth [d]; the leaves are at depth 2, the constants at 1. *)
Lemma depth_parts (t : Terminal Pk Ext) d :
  Forall (λ m, depth (tree_of m) ≤ d) (children t) →
  match t with
  | TTrue | TFalse => True
  | ExtT e => depth (MkTree (ext_name e) (ext_args e)) ≤ S d
  | _ => 1 ≤ d
  end → depth (tree_parts (parts t)) ≤ S d.
Proof.
  intros Hch Hd. unfold tree_of in Hch.
  destruct t; cbn [children] in Hch; cbn [parts]; fold ms_parts;
    repeat match goal with H : Forall _ (_ :: _) |- _ => apply Forall_cons in H as [? H] end;
    rewrite ?depth_wrap; try lia;
    try (by apply depth_fun; repeat (apply Forall_cons_2; [cbn; lia || done|]); apply Forall_nil_2);
    try (by apply depth_fun, Forall_cons_2; [|apply Forall_map]).
  - destruct (node sub); rewrite ?depth_wrap; try lia;
      by apply depth_fun, Forall_singleton.
  - destruct (is_true (node r)); rewrite ?depth_wrap; [lia|].
    by apply depth_fun; repeat (apply Forall_cons_2; [done|]).
  - destruct (is_false (node c));
      by apply depth_fun; repeat (apply Forall_cons_2; [done|]).
  - destruct (is_false (node r)), (is_false (node l)); rewrite ?depth_wrap; try lia;
      by apply depth_fun; repeat (apply Forall_cons_2; [done|]).
  - apply depth_fun, Forall_cons_2; [done|]. apply Forall_map, Forall_true. done.
  - apply depth_fun, Forall_cons_2; [done|]. apply Forall_map, Forall_true. done.
  - exact Hd.
Qed.

Context `{!ExtensionResourcesOk Ext} `{!ExtChecks Ext}.

(** The invariant of the parser: a Miniscript, or a fragment that is not checked yet, is
    printed within depth [d], and its numbers fit in 32 bits. *)
Definition small (d : nat) (ms : ms_t) : Prop :=
  admitted ctx ms ∧ depth (tree_of ms) ≤ d ∧ all_nodes node_u32 ms.

Definition small_fragment (d : nat) (t : Terminal Pk Ext) : Prop :=
  fragment_ok ctx t ∧ depth (tree_parts (parts t)) ≤ d ∧ node_u32 t ∧
  Forall (all_nodes node_u32) (children t).

Lemma small_checked d (ms : ms_t) : admitted ctx ms → small_fragment d (node ms) → small d ms.
Proof.
  intros Hms (_ & Hd & Hn & Hch). split_and!; [done|by unfold tree_of; rewrite ms_parts_node|].
  destruct ms. by constructor.
Qed.

Lemma small_wrapped d ch (sub : ms_t) t :
  small d sub → fragment_ok ctx t → parts t = wrap_parts ch (ms_parts sub) → node_u32 t →
  Forall (all_nodes node_u32) (children t) → small_fragment d t.
Proof.
  intros (_ & Hd & _) Hf Hp Hn Hch. split_and!; [done| |done|done]. rewrite Hp, depth_wrap. exact Hd.
Qed.

Lemma constant_u32 (t : Terminal Pk Ext) ms :
  from_ast ctx t = Ok ms → children t = [] → node_u32 t → all_nodes node_u32 ms.
Proof.
  intros (Hn & _)%from_ast_Ok Hch Hu. destruct ms as [t' a b]. cbn in Hn. subst t'.
  constructor; [done|]. by rewrite Hch.
Qed.

Lemma wrap_with_small d ms ch :
  small d ms → returns (small_fragment d) (wrap_with ctx ms ch).
Proof.
  intros Hms. pose proof Hms as (Hadm & Hd & Hu).
  assert (∀ t, children t = [ms] → node_u32 t → fragment_ok ctx t ∧ node_u32 t ∧
                Forall (all_nodes node_u32) (children t)) as Hone.
  { intros t Hc Ht. unfold fragment_ok. rewrite Hc. split_and!; [|done|]; by apply Forall_singleton. }
  pose proof (from_ast_returns ctx (Ext := Ext) TFalse (List.Forall_nil _)) as Hfalse.
  pose proof (from_ast_returns ctx (Ext := Ext) TTrue (List.Forall_nil _)) as Htrue.
  unfold wrap_with, from_false, from_true.
  destruct (from_ast ctx TFalse) as [f| |] eqn:Hf; cbn in Hfalse; [|repeat case_match; done..].
  destruct (from_ast ctx TTrue) as [r| |] eqn:Hr; cbn in Htrue; [|repeat case_match; done..].
  pose proof (constant_u32 _ _ Hf eq_refl I) as Hfu. pose proof (constant_u32 _ _ Hr eq_refl I) as Hru.
  apply from_ast_false_admitted in Hf. apply from_ast_true_admitted in Hr.
  assert (∀ a b, (a = ms ∧ (b = f ∨ b = r) ∨ b = ms ∧ a = f) →
    Forall (admitted ctx) [a; b] ∧ Forall (all_nodes node_u32) [a; b]) as Htwo.
  { intros a b Hab. split; repeat (apply Forall_cons_2); try apply Forall_nil_2; naive_solver. }
  repeat match goal with
  | |- returns _ (if ?b then _ else _) => destruct b eqn:?
  end; cbn [returns result_bind map_err]; try done;
    try (match goal with |- small_fragment _ ?t =>
           destruct (Hone t eq_refl I) as (? & ? & ?); by eapply small_wrapped end).
  - destruct (Hone (Check ms) eq_refl I) as (? & ? & ?). split_and!; [done| |done|done].
    cbn [parts]. fold ms_parts. unfold tree_of in Hd. rewrite ms_parts_node in Hd |- *.
    destruct (node ms); rewrite ?depth_wrap; try exact Hd; exact Hd.
  - destruct (Htwo ms r) as [??]; [naive_solver|].
    eapply (small_wrapped d "t" ms); [done..| |done|done]. cbn [parts]. by rewrite Htrue.
  - destruct (Htwo ms f) as [??]; [naive_solver|].
    eapply (small_wrapped d "u" ms); [done..| |done|done]. cbn [parts]. by rewrite Hfalse.
  - destruct (Htwo f ms) as [??]; [naive_solver|].
    eapply (small_wrapped d "l" ms); [done..| |done|done]. cbn [parts].
    rewrite Hfalse. by destruct (is_false (node ms)).
Qed.

Lemma made_of_small d l n t :
  made_of (small (Nat.max 1 d)) l n t → foldr Nat.max 0 (map depth l) = d → small_fragment (S d) t.
Proof.
  intros (Hch & Hn & Hl) Hd.
  assert (Forall (λ m, depth (tree_of m) ≤ Nat.max 1 d) (children t)) as Hdepth
    by (eapply Forall_impl; [exact Hch|]; by intros m (_ & ? & _)).
  split_and!; [|clear Hch|done|].
  - eapply Forall_impl; [exact Hch|]. by intros m [? _].
  - assert (l ≠ [] → 1 ≤ d) as Hne.
    { intros Hne. destruct l as [|a l]; [done|]. cbn in Hd. pose proof (depth_S a). lia. }
    destruct t; try (cbn; lia);
      try (rewrite Nat.max_r in Hdepth by auto; apply depth_parts; [done|by apply Hne]).
    apply ext_depth in Hl. cbn [parts]. unfold fun_parts. cbn [tree_parts named].
    etransitivity; [exact Hl|]. cbn. lia.
  - eapply Forall_impl; [exact Hch|]. by intros m (_ & _ & ?).
Qed.

Lemma ms_from_tree_small top :
  returns (small (depth top)) (ms_from_tree (Pk := Pk) (Ext := Ext) ctx top).
Proof.
  induction top as [n l IH] using Tree_tree_ind. set (d := foldr Nat.max 0 (map depth l)).
  assert (∀ t, t ∈ l → depth t ≤ d) as Hl.
  { apply Forall_forall, (depth_le_children n). done. }
  unfold ms_from_tree.
  eapply returns_bind with (P := λ t, ∃ ms, node ms = t ∧ small (S d) ms).
  - rewrite from_tree_unfold.
    eapply returns_bind; [apply returns_no_panic, split_name_no_panic|]. intros [fw fn] _.
    eapply returns_bind.
    { apply (fragment_returns ctx (ms_from_tree ctx) (small (Nat.max 1 d))).
      - intros f Hf. pose proof (from_ast_Ok _ _ _ Hf) as (Hn & _).
        split_and!; [by apply from_ast_false_admitted| |by eapply constant_u32].
        unfold tree_of. rewrite ms_parts_node, Hn. cbn. lia.
      - intros t Ht. rewrite Forall_forall in IH. eapply returns_impl; [by apply IH|].
        intros ms (? & ? & ?). split_and!; [done| |done]. specialize (Hl t Ht). lia. }
    intros t Ht%(made_of_small d); [|done]. eapply returns_bind.
    { apply (returns_try_fold (small_fragment (S d))); [|exact Ht]. intros u ch _ Hu.
      apply checked_returns; [apply Hu|]. intros ms <- Hms. apply wrap_with_small.
      by apply small_checked. }
    intros u Hu. apply checked_returns; [apply Hu|]. intros ms <- Hms. exists ms.
    split; [done|]. by apply small_checked.
  - intros t (ms & <- & Hms). pose proof (admitted_inv _ _ (proj1 Hms)) as (Hf & _). by rewrite Hf.
Qed.

(** ** The round trip *)

Context `{ValidCharsOk}.

Lemma subnodes_all_nodes (P : Terminal Pk Ext → Prop) (ms : ms_t) :
  Forall (λ m, P (node m)) (subnodes ms) → all_nodes P ms.
Proof.
  induction ms as [t a b IH] using Miniscript_tree_ind.
  rewrite preorder_unfold, branches_children. cbn [node].
  intros [Ht Hs]%Forall_cons. constructor; [exact Ht|].
  rewrite Forall_concat, Forall_fmap in Hs. rewrite Forall_forall in IH, Hs |- *.
  intros m Hm. apply IH; [done|]. by apply Hs.
Qed.

Lemma all_nodes_and (P Q R : Terminal Pk Ext → Prop) (ms : ms_t) :
  (∀ t, P t → Q t → R t) → all_nodes P ms → all_nodes Q ms → all_nodes R ms.
Proof.
  intros HR. induction ms as [t a b IH] using Miniscript_tree_ind.
  intros [Hp Hps]%all_nodes_inv [Hq Hqs]%all_nodes_inv. constructor; [by apply HR|].
  cbn [node] in *. rewrite Forall_forall in IH, Hps, Hqs |- *. auto.
Qed.

(** Printing and parsing again. *)
Lemma display_parse (ms : ms_t) p :
  admitted ctx ms → all_nodes node_printable ms → depth (tree_of ms) ≤ MAX_RECURSION_DEPTH →
  base (corr (ty ms)) = B → ext_check ctx p ms = Ok tt →
  from_str_ext ctx (display_ms ms) p = Ok ms.
Proof.
  intros Hms Hp Hd Hb Hc. unfold from_str_ext. rewrite display_show.
  pose proof (parts_writable ms Hp) as Hw%writable_parts_tree. rewrite <-ms_parts_node in Hw.
  destruct Hw as [Hw Hcs]. rewrite tree_from_str_show; [|done|done|by apply show_charset].
  cbn [result_bind]. rewrite reads_as_tree; [|done|by apply parts_read]. cbn [result_bind].
  rewrite Hc. cbn. by rewrite bool_decide_true.
Qed.

(** (C24) Printing is the inverse of parsing: if a string is parsed as a Miniscript, under
    parameters that do not admit bare key hashes, as the sane and the insane ones do not,
    then the string [Display] writes for this Miniscript is parsed as the same Miniscript. *)
Theorem from_str_display s p (ms : ms_t) :
  raw_pkh p = false → from_str_ext ctx s p = Ok ms → from_str_ext ctx (display_ms ms) p = Ok ms.
Proof.
  intros Hraw Hs.
  unfold from_str_ext in Hs. apply bind_Ok in Hs as (top & Htop & Hs).
  apply bind_Ok in Hs as (ms' & Hms & Hs). apply bind_Ok in Hs as ([] & Hc & Hs).
  apply map_err_Ok in Hc. case_bool_decide as Hb; [|done]. injection Hs as ->.
  destruct (returns_Ok _ _ _ (ms_from_tree_small top) Hms) as (Hadm & Hd & Hu).
  apply display_parse; [done| | |done|done].
  - pose proof Hc as Hnoraw. apply ext_check_Ok in Hnoraw as (_ & _ & _ & _ & _ & [Hr|Hr]); [congruence|].
    apply contains_raw_pkh_Forall in Hr.
    apply (subnodes_all_nodes (λ t, match t with RawPkH _ => False | _ => True end)) in Hr.
    apply (all_nodes_and _ _ node_printable) with (2 := Hr) (3 := Hu). by intros [].
  - etransitivity; [exact Hd|]. by apply tree_from_str_reads in Htop as [_ ?].
Qed.
End parse.
