(* ===== verification/PolicyText.v ===== *)
(** * The text form of policies

    [Display], [FromTree] and [FromStr] of [src/src/policy/semantic.rs] and of
    [src/src/policy/concrete.rs], one Module for each. *)

From S2P Require Import Prelude Types Extension Property Ast Tokens Expression TextForm.
From S2P Require Semantic Concrete.
From stdpp Require Import strings.
From Stdlib Require Import Ascii.

(** [write!] of the arguments: the first as it is, the others after a comma. *)
Definition comma_list (l : list string) : string :=
  match l with
  | [] => EmptyString
  | s :: l => s +:+ foldr (λ s rest, "," +:+ s +:+ rest) EmptyString l
  end.

(** The atoms both kinds of policies have, but for the lock times.  [frag_name] and the
    arguments of the tree are matched together; [None] leaves the match to the caller. *)
Section atoms.
Context {Pk : Type} `{MiniscriptKey Pk} `{!FromStrKey Pk} {P : Type}.
Context (key : Pk → P) (sha256 : Sha256T → P) (hash256 : Hash256T → P)
        (ripemd160 : Ripemd160T → P) (hash160 : Hash160T → P).

Definition text_arg {A} (term : Tree) (from_str : string → string + A) (convert : A → P)
    : result Error P :=
  let? x := terminal (λ e, e) term (λ s, of_sum (from_str s)) in Ok (convert x).

Definition key_atom (frag_name : string) (l : list Tree) : option (result Error P) :=
  match l with
  | [a] =>
      let named f := String.eqb frag_name f in
      if named "pk" then Some (text_arg a pk_from_str key)
      else if named "sha256" then Some (text_arg a sha256_from_str sha256)
      else if named "hash256" then Some (text_arg a hash256_from_str hash256)
      else if named "ripemd160" then Some (text_arg a ripemd160_from_str ripemd160)
      else if named "hash160" then Some (text_arg a hash160_from_str hash160)
      else None
  | _ => None
  end.
End atoms.

(** ** [policy/semantic.rs] *)
Module SemanticText.
Section text.
Import Semantic.
Context {Pk : Type} `{MiniscriptKey Pk} `{!FromStrKey Pk}.

Fixpoint display (p : Policy Pk) : string :=
  match p with
  | Unsatisfiable => "UNSATISFIABLE"
  | Trivial => "TRIVIAL"
  | Key pkh => call "pk" (key_to_string pkh)
  | After n => call "after" (abs_lock_time_to_string n)
  | Older n => call "older" (sequence_to_string n)
  | Sha256 h => call "sha256" (sha256_to_string h)
  | Hash256 h => call "hash256" (hash256_to_string h)
  | Ripemd160 h => call "ripemd160" (ripemd160_to_string h)
  | Hash160 h => call "hash160" (hash160_to_string h)
  | Threshold k subs =>
      (if k =? length subs then "and("
       else if k =? 1 then "or("
       else "thresh(" +:+ num_to_string (N.of_nat k) +:+ ",")
      +:+ comma_list (map display subs) +:+ ")"
  end.

Fixpoint from_tree (top : Tree) : result Error (Policy Pk) :=
  let 'MkTree name args := top in
  let named f := String.eqb name f in
  let nsubs := length args in
  match key_atom Key Sha256 Hash256 Ripemd160 Hash160 name args with
  | Some r => r
  | None =>
      if named "UNSATISFIABLE" && (nsubs =? 0) then Ok Unsatisfiable
      else if named "TRIVIAL" && (nsubs =? 0) then Ok Trivial
      else if named "and" then
        if nsubs <? 2 then Err (PolicyErr InsufficientArgsforAnd)
        else let? subs := try_map from_tree args in Ok (Threshold nsubs subs)
      else if named "or" then
        if nsubs <? 2 then Err (PolicyErr InsufficientArgsforOr)
        else let? subs := try_map from_tree args in Ok (Threshold 1 subs)
      else
        match args with
        | [a] =>
            if named "after" then let? x := terminal_u32 a in Ok (After x)
            else if named "older" then let? x := terminal_u32 a in Ok (Older x)
            else if named "thresh" then Err (errstr "thresh without args")
            else Err (errstr name)
        | a :: l =>
            if named "thresh" then
              match Expression.args a with
              | b :: _ => Err (errstr (Expression.name b))
              | [] =>
                  let? thresh := parse_num u32_from_str (Expression.name a) in
                  if (thresh <=? 1)%N || (N.of_nat nsubs - 1 <=? thresh)%N then
                    Err (errstr "Semantic Policy thresh cannot have k = 1 or k =n, use `and`/`or` instead")
                  else if (N.of_nat nsubs <=? thresh)%N then Err (errstr (Expression.name a))
                  else let? subs := try_map from_tree l in Ok (Threshold (N.to_nat thresh) subs)
              end
            else Err (errstr name)
        | [] =>
            if named "thresh" then Err (errstr "thresh without args") else Err (errstr name)
        end
  end.

Definition from_str `{ValidChars} (s : string) : result Error (Policy Pk) :=
  let? _ := check_valid_chars s in
  let? tree := Tree_from_str s in
  from_tree tree.
End text.
End SemanticText.

(** ** [policy/concrete.rs] *)
Module ConcreteText.
Section text.
Import Concrete.
Context {Pk : Type} `{MiniscriptKey Pk} `{!FromStrKey Pk} `{LockTimes}.

Fixpoint display (p : Policy Pk) : string :=
  match p with
  | Unsatisfiable => "UNSATISFIABLE"
  | Trivial => "TRIVIAL"
  | Key pk => call "pk" (key_to_string pk)
  | After n => call "after" (abs_lock_time_to_string n)
  | Older n => call "older" (sequence_to_string n)
  | Sha256 h => call "sha256" (sha256_to_string h)
  | Hash256 h => call "hash256" (hash256_to_string h)
  | Ripemd160 h => call "ripemd160" (ripemd160_to_string h)
  | Hash160 h => call "hash160" (hash160_to_string h)
  | And subs => "and(" +:+ comma_list (map display subs) +:+ ")"
  | Or subs =>
      "or(" +:+ comma_list (map (λ '(odds, sub), num_to_string (N.of_nat odds) +:+ "@" +:+ display sub) subs)
      +:+ ")"
  | Threshold k subs => call_k "thresh" k (map display subs)
  end.

(** The name of a tree with its odds, [x@y]. *)
Definition split_prob (top_name : string) (allow_prob : bool) : result Error (nat * string) :=
  match split_char "@" top_name with
  | [] => Ok (1, EmptyString)
  | [name] => Ok (1, name)
  | [prob; name] =>
      if negb allow_prob then Err (AtOutsideOr top_name)
      else let? frag_prob := parse_num u32_from_str prob in Ok (N.to_nat frag_prob, name)
  | _ => Err (MultiColon top_name)
  end.

Definition lock_time (a : Tree) (convert : N → Policy Pk) : result Error (Policy Pk) :=
  let? num := terminal_u32 a in
  if (2 ^ 31 <? num)%N then Err (PolicyErr TimeTooFar)
  else if (num =? 0)%N then Err (PolicyErr ZeroTime)
  else Ok (convert num).

Fixpoint from_tree_prob (top : Tree) (allow_prob : bool) : result Error (nat * Policy Pk) :=
  let 'MkTree name args := top in
  let? (frag_prob, frag_name) := split_prob name allow_prob in
  let named f := String.eqb frag_name f in
  let nsubs := length args in
  let from_tree arg := let? (_, p) := from_tree_prob arg false in Ok p in
  let? res :=
    match key_atom Key Sha256 Hash256 Ripemd160 Hash160 frag_name args with
    | Some r => r
    | None =>
        if named "UNSATISFIABLE" && (nsubs =? 0) then Ok Unsatisfiable
        else if named "TRIVIAL" && (nsubs =? 0) then Ok Trivial
        else if named "and" then
          if negb (nsubs =? 2) then Err (PolicyErr NonBinaryArgAnd)
          else let? subs := try_map from_tree args in Ok (And subs)
        else if named "or" then
          if negb (nsubs =? 2) then Err (PolicyErr NonBinaryArgOr)
          else let? subs := try_map (λ arg, from_tree_prob arg true) args in Ok (Or subs)
        else
          match args with
          | [] => if named "thresh" then Err (PolicyErr IncorrectThresh) else Err (errstr name)
          | a :: l =>
              if named "after" && (nsubs =? 1) then lock_time a After
              else if named "older" && (nsubs =? 1) then lock_time a Older
              else if named "thresh" then
                match Expression.args a with
                | _ :: _ => Err (PolicyErr IncorrectThresh)
                | [] =>
                    let? thresh := parse_num u32_from_str (Expression.name a) in
                    if (N.of_nat nsubs <=? thresh)%N || (thresh =? 0)%N
                    then Err (PolicyErr IncorrectThresh)
                    else let? subs := try_map from_tree l in Ok (Threshold (N.to_nat thresh) subs)
                end
              else Err (errstr name)
          end
    end in
  Ok (frag_prob, res).

Definition from_tree (top : Tree) : result Error (Policy Pk) :=
  let? (_, result) := from_tree_prob top false in Ok result.

Definition from_str `{ValidChars} (s : string) : result Error (Policy Pk) :=
  let? _ := check_valid_chars s in
  let? tree := Tree_from_str s in
  let? policy := from_tree tree in
  let? _ := map_err PolicyErr (check_timelocks policy) in
  Ok policy.
End text.
End ConcreteText.
