(* ===== verification/PolicyTextProps.v ===== *)
(** * Printing and parsing policies

    What is parsed from text is well formed, parsing never panics, and [Display] is the
    inverse of parsing, for abstract and for concrete policies. *)

From S2P Require Import Prelude Types Extension Property Ast Tokens Expression ExpressionProps TextForm TextProps TextRoundTrip PolicyText.
From S2P Require Semantic Concrete.
From stdpp Require Import strings.
From Stdlib Require Import Ascii.

#[local] Arguments String.append : simpl nomatch.

Lemma map_ext_Forall {A B} (f g : A → B) l : Forall (λ x, f x = g x) l → map f l = map g l.
Proof. induction 1; cbn; by f_equal. Qed.

(** ** Trees that can be written *)

Definition good_tree (t : Tree) : Prop := writable t = true ∧ charset_tree t = true.

Lemma good_call n l :
  text n = true → String.eqb n "musig" = false → Forall good_tree l → good_tree (MkTree n l).
Proof.
  intros [Hp Hc]%andb_true_iff Hm Hl. unfold good_tree. cbn [writable charset_tree].
  rewrite Hp, Hc, Hm. cbn [andb negb]. rewrite !(proj2 (forallb_forall _ _)); [by destruct l|..].
  - intros t Ht%list_elem_of_In. rewrite Forall_forall in Hl. by apply Hl.
  - intros t Ht%list_elem_of_In. rewrite Forall_forall in Hl. by apply Hl.
Qed.

Lemma good_leaf s : text_ok s → good_tree (leaf s).
Proof. apply writable_leaf. Qed.

Lemma good_call1 n s :
  text n = true → String.eqb n "musig" = false → text_ok s → good_tree (MkTree n [leaf s]).
Proof. intros. apply good_call; [done..|]. by apply Forall_singleton, good_leaf. Qed.

Lemma comma_list_concat l : comma_list l = String.concat "," l.
Proof.
  destruct l as [|s l]; [done|]. revert s. induction l as [|x l IH]; intros s; cbn.
  { by rewrite str_app_nil_r. }
  specialize (IH x). cbn in IH. by rewrite IH.
Qed.

Lemma comma_call n l : l ≠ [] →
  n +:+ String "(" (comma_list (map (show "(" ")") l) +:+ ")") = show "(" ")" (MkTree n l).
Proof. intros Hl. by rewrite comma_list_concat, show_call. Qed.

Lemma depth_args l : l ≠ [] → 1 ≤ foldr Nat.max 0 (map depth l).
Proof. destruct l as [|a l]; [done|]. intros _. cbn. pose proof (depth_S a). lia. Qed.

(** Reading back what is printed within the limits. *)
Lemma read_show `{ValidCharsOk} {A} (from_tree : Tree → result Error A) t a :
  good_tree t → depth t ≤ MAX_RECURSION_DEPTH → from_tree t = Ok a →
  (let? _ := check_valid_chars (show "(" ")" t) in
   let? tree := Tree_from_str (show "(" ")" t) in from_tree tree) = Ok a.
Proof.
  intros [Hw Hc] Hd Ha. rewrite valid_charset by by apply show_charset. cbn [result_bind].
  rewrite tree_from_str_show; [exact Ha|done|done|by apply show_charset].
Qed.

(** ** Atoms *)

Section atoms.
Context {Pk : Type} `{MiniscriptKey Pk} `{!FromStrKey Pk} {P : Type}.
Context (key : Pk → P) (sha256 : Sha256T → P) (hash256 : Hash256T → P)
        (ripemd160 : Ripemd160T → P) (hash160 : Hash160T → P).

Lemma text_arg_returns {A} (Q : P → Prop) term (p : string → string + A) conv :
  (∀ x, Q (conv x)) → returns Q (text_arg term p conv).
Proof.
  intros Hq. eapply returns_bind; [|intros x _; apply Hq].
  apply terminal_returns. intros s. by destruct (p s).
Qed.

Lemma key_atom_returns (Q : P → Prop) n l r :
  key_atom key sha256 hash256 ripemd160 hash160 n l = Some r →
  (∀ x, Q (key x)) → (∀ x, Q (sha256 x)) → (∀ x, Q (hash256 x)) → (∀ x, Q (ripemd160 x)) →
  (∀ x, Q (hash160 x)) → l ≠ [] ∧ returns Q r.
Proof.
  unfold key_atom. destruct l as [|a [|]]; [done| |done]. intros Hr ?????.
  repeat case_match; simplify_eq; (split; [done|]); by apply text_arg_returns.
Qed.

Lemma text_arg_leaf {A} s (p : string → string + A) (conv : A → P) x :
  p s = inr x → text_arg (leaf s) p conv = Ok (conv x).
Proof. intros Hp. unfold text_arg. by rewrite (terminal_leaf _ _ _ x) by (by rewrite Hp). Qed.
End atoms.

(** ** Abstract policies *)

Module SemanticTextProps.
Section text.
Import Semantic SemanticText.
Context {Pk : Type} `{FromStrKeyOk Pk}.
Implicit Types p : Policy Pk.

(** The policies a text can hold: a threshold has two branches at least. *)
Inductive readable : Policy Pk → Prop :=
  | readable_atom p :
      match p with
      | After n | Older n => (n <= u32_max)%N
      | Threshold _ _ => False
      | _ => True
      end → readable p
  | readable_threshold k subs :
      2 ≤ length subs → 1 ≤ k ≤ length subs →
      (k = length subs ∨ k = 1 ∨ (N.of_nat k <= u32_max)%N) →
      Forall readable subs → readable (Threshold k subs).

Fixpoint tree_of p : Tree :=
  match p with
  | Unsatisfiable => leaf "UNSATISFIABLE"
  | Trivial => leaf "TRIVIAL"
  | Key k => MkTree "pk" [leaf (key_to_string k)]
  | After n => MkTree "after" [leaf (abs_lock_time_to_string n)]
  | Older n => MkTree "older" [leaf (sequence_to_string n)]
  | Sha256 h => MkTree "sha256" [leaf (sha256_to_string h)]
  | Hash256 h => MkTree "hash256" [leaf (hash256_to_string h)]
  | Ripemd160 h => MkTree "ripemd160" [leaf (ripemd160_to_string h)]
  | Hash160 h => MkTree "hash160" [leaf (hash160_to_string h)]
  | Threshold k subs =>
      if k =? length subs then MkTree "and" (map tree_of subs)
      else if k =? 1 then MkTree "or" (map tree_of subs)
      else MkTree "thresh" (num_leaf k :: map tree_of subs)
  end.

Lemma readable_inv k subs :
  readable (Threshold k subs) →
  2 ≤ length subs ∧ 1 ≤ k ≤ length subs ∧
  (k = length subs ∨ k = 1 ∨ (N.of_nat k <= u32_max)%N) ∧ Forall readable subs.
Proof. inversion 1; naive_solver. Qed.

Lemma display_tree p : readable p → display p = show "(" ")" (tree_of p).
Proof.
  induction p as [p Hp|k subs IH] using Policy_tree_ind.
  { intros _. destruct p; try done. by destruct (Hp k subs). }
  intros (Hn & Hk & _ & Hsubs)%readable_inv. cbn [display tree_of].
  assert (map display subs = map (show "(" ")") (map tree_of subs)) as ->.
  { rewrite map_map. apply map_ext_in. intros s Hs%list_elem_of_In.
    rewrite Forall_forall in IH, Hsubs. auto. }
  assert (map tree_of subs ≠ []) as Hne by (destruct subs; cbn in Hn; [lia|done]).
  destruct (k =? length subs); [|destruct (k =? 1)]; try (by rewrite <-comma_call).
  rewrite show_call by done. rewrite comma_list_concat. cbn [String.append]. do 7 f_equal.
  destruct (map tree_of subs) as [|t l]; [done|]. cbn [map].
  change (String.concat "," (show "(" ")" (num_leaf k) :: show "(" ")" t :: map (show "(" ")") l))
    with (num_to_string (N.of_nat k) +:+ "," +:+ String.concat "," (map (show "(" ")") (t :: l))).
  by rewrite !str_app_assoc.
Qed.

Lemma tree_good p : readable p → good_tree (tree_of p).
Proof.
  induction p as [p Hp|k subs IH] using Policy_tree_ind.
  { intros _. destruct p; cbn [tree_of]; try done; try (by destruct (Hp k subs));
      (apply good_call1; [done..|]);
      rewrite ?abs_lock_time_decimal, ?sequence_decimal; try apply num_text.
    all: first [apply pk_text | apply sha256_text | apply hash256_text | apply ripemd160_text
               | apply hash160_text]. }
  intros (_ & _ & _ & Hsubs)%readable_inv. cbn [tree_of].
  assert (Forall good_tree (map tree_of subs)) as Hl.
  { apply Forall_map. rewrite Forall_forall in IH, Hsubs |- *. auto. }
  repeat case_match; apply good_call; try done.
  apply Forall_cons_2; [apply good_leaf, num_text|done].
Qed.

Lemma read_subs (f : Tree → result Error (Policy Pk)) subs :
  Forall (λ s, f (tree_of s) = Ok s) subs → try_map f (map tree_of subs) = Ok subs.
Proof. intros Hs. apply try_map_Ok. induction Hs; cbn; by constructor. Qed.

Lemma from_tree_of p : readable p → from_tree (tree_of p) = Ok p.
Proof.
  induction p as [p Hp|k subs IH] using Policy_tree_ind.
  - intros Hr. inversion Hr as [? Ha|]; subst; [|by destruct (Hp k subs)].
    destruct p; try done; cbn [tree_of].
    + by apply (text_arg_leaf _ pk_from_str), pk_roundtrip.
    + transitivity (let? x := terminal_u32 (leaf (abs_lock_time_to_string t)) in Ok (After x)); [done|].
      by rewrite abs_lock_time_decimal, terminal_u32_leaf.
    + transitivity (let? x := terminal_u32 (leaf (sequence_to_string t)) in Ok (Older x)); [done|].
      by rewrite sequence_decimal, terminal_u32_leaf.
    + by apply (text_arg_leaf _ sha256_from_str), sha256_roundtrip.
    + by apply (text_arg_leaf _ hash256_from_str), hash256_roundtrip.
    + by apply (text_arg_leaf _ ripemd160_from_str), ripemd160_roundtrip.
    + by apply (text_arg_leaf _ hash160_from_str), hash160_roundtrip.
  - intros (Hn & Hk & Hk32 & Hsubs)%readable_inv.
    assert (try_map from_tree (map tree_of subs) = Ok subs) as Hread.
    { apply read_subs. rewrite Forall_forall in IH, Hsubs |- *. auto. }
    destruct subs as [|s1 [|s2 subs]]; [cbn in Hn; lia..|]. set (l := s1 :: s2 :: subs) in *.
    cbn [tree_of]. destruct (Nat.eqb_spec k (length l)) as [->|Hkn];
      [|destruct (Nat.eqb_spec k 1) as [->|Hk1]].
    + transitivity (let nsubs := length (map tree_of l) in
        let? subs := try_map from_tree (map tree_of l) in Ok (Threshold nsubs subs)); [done|].
      cbv zeta. by rewrite Hread, length_map.
    + transitivity (let? subs := try_map from_tree (map tree_of l) in Ok (Threshold 1 subs)); [done|].
      by rewrite Hread.
    + transitivity (let nsubs := S (length (map tree_of l)) in
        let? thresh := parse_num u32_from_str (num_to_string (N.of_nat k)) in
        if (thresh <=? 1)%N || (N.of_nat nsubs - 1 <=? thresh)%N then
          Err (errstr "Semantic Policy thresh cannot have k = 1 or k =n, use `and`/`or` instead")
        else if (N.of_nat nsubs <=? thresh)%N then Err (errstr (num_to_string (N.of_nat k)))
        else let? subs := try_map from_tree (map tree_of l) in
             Ok (Threshold (N.to_nat thresh) subs)); [done|].
      destruct Hk32 as [|[|Hk32]]; [done..|]. cbv zeta.
      rewrite parse_num_roundtrip by done. cbn [result_bind]. rewrite length_map, Hread, Nat2N.id.
      rewrite (proj2 (N.leb_gt _ 1)), (proj2 (N.leb_gt _ _)), (proj2 (N.leb_gt _ _)) by lia. done.
Qed.

(** What is read is well formed, and is printed no deeper than it was written. *)
Definition read_ok (d : nat) p : Prop := readable p ∧ depth (tree_of p) ≤ d.

Lemma atom_read_ok d p :
  1 ≤ d → match p with Threshold _ _ => False | After n | Older n => (n <= u32_max)%N | _ => True end →
  read_ok (S d) p.
Proof.
  intros Hd Hp. split; [apply readable_atom; by destruct p|]. destruct p; cbn; done || lia.
Qed.

Lemma subs_read_ok d k subs :
  2 ≤ length subs → 1 ≤ k ≤ length subs → (k = length subs ∨ k = 1 ∨ (N.of_nat k <= u32_max)%N) →
  Forall (read_ok d) subs → 1 ≤ d → read_ok (S d) (Threshold k subs).
Proof.
  intros Hn Hk Hk32 Hs Hd. split.
  - apply readable_threshold; [done..|]. eapply Forall_impl; [exact Hs|]. by intros p [? _].
  - assert (Forall (λ t, depth t ≤ d) (map tree_of subs)) as Hl.
    { apply Forall_map. eapply Forall_impl; [exact Hs|]. by intros p [_ ?]. }
    cbn [tree_of]. repeat case_match; apply depth_children; [done..|]. by apply Forall_cons_2.
Qed.

Lemma parse_num_returns s : returns (λ n, (n <= u32_max)%N) (parse_num u32_from_str s).
Proof.
  unfold parse_num. destruct (u32_from_str s) as [n|] eqn:Hn.
  - apply u32_from_str_bound in Hn. cbn. repeat case_match; done.
  - cbn. repeat case_match; done.
Qed.

Lemma try_map_length {A B} (f : A → result Error B) l ys : try_map f l = Ok ys → length ys = length l.
Proof. intros Hl%try_map_Ok. symmetry. by eapply Forall2_length. Qed.

Lemma subs_returns (f : Tree → result Error (Policy Pk)) l d (k : list (Policy Pk) → Policy Pk) :
  Forall (λ t, returns (read_ok (depth t)) (f t)) l → Forall (λ t, depth t ≤ d) l →
  (∀ subs, length subs = length l → Forall (read_ok d) subs → read_ok (S d) (k subs)) →
  returns (read_ok (S d)) (let? subs := try_map f l in Ok (k subs)).
Proof.
  intros Hf Hd Hk.
  assert (returns (Forall (read_ok d)) (try_map f l)) as Hr.
  { apply returns_try_map. rewrite Forall_forall in Hf, Hd. intros t Ht.
    eapply returns_impl; [by apply Hf|]. intros p [? ?]. split; [done|]. specialize (Hd t Ht). lia. }
  destruct (try_map f l) as [subs| |] eqn:Hs; [|done..]. cbn in Hr |- *.
  apply Hk; [by eapply try_map_length|done].
Qed.

Lemma from_tree_returns t : returns (read_ok (depth t)) (from_tree (Pk := Pk) t).
Proof.
  induction t as [n l IH] using Tree_tree_ind.
  pose proof (depth_le_children n l _ (le_n _)) as Hl.
  pose proof (depth_args l) as Hd. change (depth (MkTree n l)) with (S (foldr Nat.max 0 (map depth l))) in *.
  set (d := foldr Nat.max 0 (map depth l)) in *. cbn [from_tree].
  destruct (key_atom _ _ _ _ _ n l) as [r|] eqn:Ha.
  { assert (l ≠ []) as Hne by (by destruct l).
    eapply (key_atom_returns _ _ _ _ _ (read_ok (S d))) in Ha as [_ Hr]; [exact Hr|..];
      intros x; apply atom_read_ok; auto. }
  destruct (_ && _); [by split; [apply readable_atom|cbn; lia]|].
  destruct (_ && _); [by split; [apply readable_atom|cbn; lia]|].
  destruct (String.eqb n "and").
  { destruct (Nat.ltb_spec (length l) 2) as [|Hl2]; [done|].
    assert (l ≠ []) as Hne by (intros ->; cbn in Hl2; lia). apply (subs_returns _ l); [done..|].
    intros subs Hlen Hs. apply subs_read_ok; [lia..|by left|done|by apply Hd]. }
  destruct (String.eqb n "or").
  { destruct (Nat.ltb_spec (length l) 2) as [|Hl2]; [done|].
    assert (l ≠ []) as Hne by (intros ->; cbn in Hl2; lia). apply (subs_returns _ l); [done..|].
    intros subs Hlen Hs. apply subs_read_ok; [lia..|by right; left|done|by apply Hd]. }
  destruct l as [|a [|b l]]; [by case_match| |].
  - repeat case_match; try done;
      (eapply returns_bind; [apply terminal_u32_returns|]; intros x Hx; apply atom_read_ok; auto).
  - case_match; [|done]. case_match; [|done].
    eapply returns_bind; [apply parse_num_returns|]. intros k Hk.
    destruct (N.leb_spec k 1); [done|]. destruct (N.leb_spec (N.of_nat (length (a :: b :: l)) - 1) k); [done|].
    destruct (N.leb_spec (N.of_nat (length (a :: b :: l))) k); [done|]. cbn [orb length] in *.
    inversion IH as [|? ? _ IH']; subst. inversion Hl as [|? ? _ Hl']; subst.
    apply (subs_returns _ (b :: l)); [done..|]. cbn [length]. intros subs Hlen Hs.
    apply subs_read_ok; [lia..|right; right; lia|done|by apply Hd].
Qed.

Context `{ValidCharsOk}.

(** (C27) Abstract policies as text: parsing never panics, and printing is its inverse.  A
    policy that is parsed from a string has at least two branches in every threshold,
    and the string [Display] writes for it is parsed as the same policy. *)
Theorem semantic_from_str_display s :
  match from_str (Pk := Pk) s with
  | Ok p => readable p ∧ from_str (display p) = Ok p
  | Err _ => True
  | Panic => False
  end.
Proof.
  destruct (from_str (Pk := Pk) s) as [p|e|] eqn:Hs; [|done|].
  - unfold from_str in Hs. apply bind_Ok in Hs as (_ & _ & Hs). apply bind_Ok in Hs as (t & Ht & Hs).
    destruct (returns_Ok _ _ _ (from_tree_returns t) Hs) as [Hp Hd]. split; [done|].
    rewrite display_tree by done. apply (read_show from_tree); [by apply tree_good| |by apply from_tree_of].
    apply tree_from_str_reads in Ht as [_ ?]. lia.
  - unfold from_str in Hs. apply bind_Panic in Hs as [Hs|(_ & _ & Hs)]; [by apply valid_no_panic in Hs|].
    apply bind_Panic in Hs as [Hs|(t & _ & Hs)]; [by apply Tree_from_str_no_panic in Hs|].
    pose proof (from_tree_returns t) as Hr. by rewrite Hs in Hr.
Qed.
End text.
End SemanticTextProps.

(** ** Concrete policies *)

Module ConcreteTextProps.
Section text.
Import Concrete ConcreteText.
Context {Pk : Type} `{FromStrKeyOk Pk} `{LockTimes}.
Implicit Types p : Policy Pk.

Definition node_readable p : Prop :=
  match p with
  | After n | Older n => (0 < n <= 2 ^ 31)%N
  | And subs => length subs = 2
  | Or subs => length subs = 2 ∧ Forall (λ '(odds, _), (N.of_nat odds <= u32_max)%N) subs
  | Threshold k subs => 1 ≤ k ≤ length subs ∧ (N.of_nat k <= u32_max)%N
  | _ => True
  end.

(** The policies a text can hold. *)
Inductive readable : Policy Pk → Prop :=
  | readable_node p : node_readable p → Forall readable (branches p) → readable p.

Lemma concrete_readable_inv p : readable p → node_readable p ∧ Forall readable (branches p).
Proof. by destruct 1. Qed.

Definition prob_tree (odds : nat) (t : Tree) : Tree :=
  MkTree (num_to_string (N.of_nat odds) +:+ String "@" (name t)) (args t).

Fixpoint tree_of p : Tree :=
  match p with
  | Unsatisfiable => leaf "UNSATISFIABLE"
  | Trivial => leaf "TRIVIAL"
  | Key k => MkTree "pk" [leaf (key_to_string k)]
  | After n => MkTree "after" [leaf (abs_lock_time_to_string n)]
  | Older n => MkTree "older" [leaf (sequence_to_string n)]
  | Sha256 h => MkTree "sha256" [leaf (sha256_to_string h)]
  | Hash256 h => MkTree "hash256" [leaf (hash256_to_string h)]
  | Ripemd160 h => MkTree "ripemd160" [leaf (ripemd160_to_string h)]
  | Hash160 h => MkTree "hash160" [leaf (hash160_to_string h)]
  | And subs => MkTree "and" (map tree_of subs)
  | Or subs => MkTree "or" (map (λ '(odds, sub), prob_tree odds (tree_of sub)) subs)
  | Threshold k subs => MkTree "thresh" (num_leaf k :: map tree_of subs)
  end.

Lemma show_prefix a n l : show "(" ")" (MkTree (a +:+ n) l) = a +:+ show "(" ")" (MkTree n l).
Proof. destruct l as [|t l]; [done|]. rewrite !show_call by done. by rewrite str_app_assoc. Qed.

Lemma show_prob odds t :
  show "(" ")" (prob_tree odds t) = num_to_string (N.of_nat odds) +:+ "@" +:+ show "(" ")" t.
Proof. destruct t as [n l]. unfold prob_tree. cbn [name args]. rewrite show_prefix. by destruct l. Qed.

Lemma concrete_display_tree p : readable p → display p = show "(" ")" (tree_of p).
Proof.
  induction p as [p IH] using Policy_tree_ind. intros [Hn Hb]%concrete_readable_inv.
  assert (Forall (λ s, display s = show "(" ")" (tree_of s)) (branches p)) as Hs.
  { rewrite Forall_forall in IH, Hb |- *. auto. }
  clear IH Hb. destruct p; try done; cbn [branches node_readable] in Hs, Hn; cbn [display tree_of].
  - assert (map display subs = map (show "(" ")") (map tree_of subs)) as ->.
    { rewrite map_map. by apply map_ext_Forall. }
    rewrite <-comma_call by by destruct subs. done.
  - assert (map (λ '(odds, sub), num_to_string (N.of_nat odds) +:+ "@" +:+ display sub) subs
      = map (show "(" ")") (map (λ '(odds, sub), prob_tree odds (tree_of sub)) subs)) as ->.
    { rewrite map_map. apply map_ext_Forall. apply Forall_map in Hs.
      eapply Forall_impl; [exact Hs|]. intros [odds s] Hd. cbn in Hd. by rewrite show_prob, <-Hd. }
    destruct Hn as [Hn _]. rewrite <-comma_call by by destruct subs. done.
  - assert (map display subs = map (show "(" ")") (map tree_of subs)) as ->.
    { rewrite map_map. by apply map_ext_Forall. }
    apply (call_k_show "thresh").
Qed.

Lemma prob_text odds n : text n = true → text (num_to_string (N.of_nat odds) +:+ String "@" n) = true.
Proof.
  destruct (num_text (N.of_nat odds)) as [Hp Hc]. intros [Hpn Hcn]%andb_true_iff.
  assert (∀ q : ascii → bool, q "@"%char = true → str_forallb q (num_to_string (N.of_nat odds)) = true →
    str_forallb q n = true → str_forallb q (num_to_string (N.of_nat odds) +:+ String "@" n) = true) as Hq.
  { intros q Hat Hnum Hqn. rewrite str_forallb_app, Hnum. cbn. by rewrite Hat, Hqn. }
  apply andb_true_iff. split; by apply Hq.
Qed.

Lemma prob_good odds t : good_tree t → good_tree (prob_tree odds t).
Proof.
  destruct t as [n l]. intros [Hw Hc]. unfold prob_tree. cbn [name args].
  apply writable_inv in Hw as (Hn & _ & Hl). cbn [charset_tree] in Hc.
  apply andb_true_iff in Hc as [Hcn Hcl]. apply good_call.
  - apply prob_text. apply andb_true_iff. by split.
  - destruct (num_to_string_head (N.of_nat odds)) as (d & s & -> & Hd & _).
    apply String.eqb_neq. cbn. intros [= Hm _]. revert d Hd Hm.
    by apply (digit_cases (λ d, digit d = "m"%char → False)).
  - rewrite Forall_forall in Hl |- *. intros t Ht. split; [by apply Hl|].
    eapply forallb_forall in Hcl; [exact Hcl|]. by apply list_elem_of_In.
Qed.

Lemma concrete_tree_good p : readable p → good_tree (tree_of p).
Proof.
  induction p as [p IH] using Policy_tree_ind. intros [_ Hb]%concrete_readable_inv.
  assert (Forall (λ s, good_tree (tree_of s)) (branches p)) as Hs.
  { rewrite Forall_forall in IH, Hb |- *. auto. }
  clear IH Hb. destruct p; try done; cbn [branches] in Hs; cbn [tree_of];
    try (apply good_call1; [done..|]; rewrite ?abs_lock_time_decimal, ?sequence_decimal;
         first [apply num_text | apply pk_text | apply sha256_text | apply hash256_text
               | apply ripemd160_text | apply hash160_text]);
    (apply good_call; [done..|]).
  - by apply Forall_map.
  - apply Forall_map. rewrite Forall_map in Hs. eapply Forall_impl; [exact Hs|]. intros [odds s].
    apply prob_good.
  - apply Forall_cons_2; [apply good_leaf, num_text|]. by apply Forall_map.
Qed.

(** *** Reading *)

Lemma num_no_at odds : no_char "@" (num_to_string odds) = true.
Proof. apply digits_of_forallb; [|done]. by apply digit_cases. Qed.

Lemma split_prob_plain n b : no_char "@" n = true → split_prob n b = Ok (1, n).
Proof. intros Hn. unfold split_prob. by rewrite split_char_none. Qed.

Lemma split_prob_odds odds n :
  (N.of_nat odds <= u32_max)%N → no_char "@" n = true →
  split_prob (num_to_string (N.of_nat odds) +:+ String "@" n) true = Ok (odds, n).
Proof.
  intros Ho Hn. unfold split_prob. rewrite split_char_one by (done || apply num_no_at). cbn [negb].
  rewrite parse_num_roundtrip by done. cbn. by rewrite Nat2N.id.
Qed.

(** The tree of a policy is read whatever its odds are. *)
Definition reads_as t p : Prop :=
  no_char "@" (name t) = true ∧
  ∀ nm b odds, split_prob nm b = Ok (odds, name t) →
    from_tree_prob (MkTree nm (args t)) b = Ok (odds, p).

Lemma reads_as_plain t p b : reads_as t p → from_tree_prob t b = Ok (1, p).
Proof. destruct t as [n l]. intros [Hn Hr]. by apply Hr, split_prob_plain. Qed.

Lemma reads_as_prob odds t p :
  (N.of_nat odds <= u32_max)%N → reads_as t p → from_tree_prob (prob_tree odds t) true = Ok (odds, p).
Proof. intros Ho [Hn Hr]. by apply Hr, split_prob_odds. Qed.

(** Reading the branches. *)
Lemma concrete_read_subs subs :
  Forall (λ s, reads_as (tree_of s) s) subs →
  try_map (λ arg, let? (_, p) := from_tree_prob arg false in Ok p) (map tree_of subs) = Ok subs.
Proof.
  intros Hs. apply try_map_Ok. induction Hs as [|s subs Hs _ IH]; cbn; constructor; [|done].
  by rewrite (reads_as_plain _ s).
Qed.

Lemma read_or_subs subs :
  Forall (λ '(odds, _), (N.of_nat odds <= u32_max)%N) subs →
  Forall (λ s, reads_as (tree_of s) s) (map snd subs) →
  try_map (λ arg, from_tree_prob arg true) (map (λ '(odds, sub), prob_tree odds (tree_of sub)) subs)
  = Ok subs.
Proof.
  intros Ho Hs%Forall_map. apply try_map_Ok. induction Hs as [|[o s] subs Hs _ IH]; cbn; constructor.
  - inversion_clear Ho. by apply reads_as_prob.
  - apply IH. by inversion_clear Ho.
Qed.

(** What follows the odds. *)
Lemma reads_as_intro t p :
  no_char "@" (name t) = true →
  (∀ nm odds b, split_prob nm b = Ok (odds, name t) →
     from_tree_prob (MkTree nm (args t)) b = let? res := Ok p in Ok (odds, res)) →
  reads_as t p.
Proof. intros Hn Hr. split; [done|]. intros nm b odds Hs. by rewrite (Hr nm odds b). Qed.

Lemma concrete_reads_as_text {A} n s (parser : string → string + A) (conv : A → Policy Pk) x :
  no_char "@" n = true →
  key_atom Key Sha256 Hash256 Ripemd160 Hash160 n [leaf s] = Some (text_arg (leaf s) parser conv) →
  parser s = inr x → reads_as (MkTree n [leaf s]) (conv x).
Proof.
  intros Hn Ha Hx. apply reads_as_intro; [done|]. intros nm odds b Hs. cbn [from_tree_prob name args] in *.
  rewrite Hs. cbn [result_bind]. rewrite Ha, (text_arg_leaf _ _ _ x) by done. done.
Qed.

Lemma lock_time_leaf n (conv : N → Policy Pk) :
  (0 < n <= 2 ^ 31)%N → lock_time (leaf (num_to_string n)) conv = Ok (conv n).
Proof.
  intros Hn. unfold lock_time. rewrite terminal_u32_leaf by (unfold u32_max; lia). cbn [result_bind].
  rewrite (proj2 (N.ltb_ge _ _)), (proj2 (N.eqb_neq _ _)) by lia. done.
Qed.

Lemma with_odds {E A} (odds : nat) (x : result E A) (a : A) :
  x = Ok a → (let? res := x in Ok (odds, res)) = Ok (odds, a).
Proof. by intros ->. Qed.

Lemma tree_reads p : readable p → reads_as (tree_of p) p.
Proof.
  induction p as [p IH] using Policy_tree_ind. intros [Hn Hb]%concrete_readable_inv.
  assert (Forall (λ s, reads_as (tree_of s) s) (branches p)) as Hs.
  { rewrite Forall_forall in IH, Hb |- *. auto. }
  clear IH Hb. destruct p; cbn [branches node_readable] in Hs, Hn; cbn [tree_of];
    try (by eapply concrete_reads_as_text;
         first [apply pk_roundtrip | apply sha256_roundtrip | apply hash256_roundtrip
               | apply ripemd160_roundtrip | apply hash160_roundtrip | done]);
    (apply reads_as_intro; [done|]; intros nm odds b Hsplit; cbn [from_tree_prob name args leaf] in *;
     rewrite Hsplit; cbn [result_bind]).
  - done.
  - done.
  - rewrite abs_lock_time_decimal. apply with_odds. by apply lock_time_leaf.
  - rewrite sequence_decimal. apply with_odds. by apply lock_time_leaf.
  - destruct subs as [|s1 [|s2 [|]]]; try done. apply with_odds.
    transitivity (let? subs := try_map (λ arg, let? (_, p) := from_tree_prob arg false in Ok p)
                                 (map tree_of [s1; s2]) in Ok (And subs)); [done|].
    by rewrite concrete_read_subs.
  - destruct Hn as [Hn Ho]. destruct subs as [|s1 [|s2 [|]]]; try done. apply with_odds.
    transitivity (let? subs := try_map (λ arg, from_tree_prob arg true)
                       (map (λ '(odds, sub), prob_tree odds (tree_of sub)) [s1; s2]) in
                  Ok (Or subs)); [done|].
    by rewrite read_or_subs.
  - destruct Hn as [Hk Hk32]. destruct subs as [|s1 subs]; [cbn in Hk; lia|]. apply with_odds.
    set (l := s1 :: subs) in *.
    transitivity (let? thresh := parse_num u32_from_str (num_to_string (N.of_nat k)) in
      if (N.of_nat (S (length (map tree_of l))) <=? thresh)%N || (thresh =? 0)%N
      then Err (PolicyErr IncorrectThresh)
      else let? subs := try_map (λ arg, let? (_, p) := from_tree_prob arg false in Ok p)
                          (map tree_of l) in Ok (Threshold (N.to_nat thresh) subs)); [done|].
    rewrite parse_num_roundtrip by done. cbn [result_bind]. rewrite concrete_read_subs, length_map, Nat2N.id by done.
    rewrite (proj2 (N.leb_gt _ _)), (proj2 (N.eqb_neq _ _)) by lia. done.
Qed.

(** *** What is read *)

Definition read_ok (d : nat) p : Prop := readable p ∧ depth (tree_of p) ≤ d.

Definition prob_ok (d : nat) (x : nat * Policy Pk) : Prop :=
  (N.of_nat x.1 <= u32_max)%N ∧ read_ok d x.2.

Lemma depth_prob odds t : depth (prob_tree odds t) = depth t.
Proof. by destruct t. Qed.

Lemma node_read_ok d p :
  1 ≤ d → node_readable p → Forall (read_ok d) (branches p) → read_ok (S d) p.
Proof.
  intros Hd Hn Hb. split; [constructor; [done|]; eapply Forall_impl; [exact Hb|]; by intros q [? _]|].
  assert (Forall (λ q, depth (tree_of q) ≤ d) (branches p)) as Hs
    by (eapply Forall_impl; [exact Hb|]; by intros q [_ ?]).
  clear Hb. destruct p; cbn [tree_of branches] in Hs |- *;
    try (apply depth_children, Forall_singleton; cbn; lia); try (cbn; lia);
    apply depth_children.
  - by apply Forall_map.
  - apply Forall_map. rewrite Forall_map in Hs. eapply Forall_impl; [exact Hs|]. intros [o q] Hq.
    by rewrite depth_prob.
  - apply Forall_cons_2; [cbn; lia|]. by apply Forall_map.
Qed.

Lemma concrete_atom_read_ok d p : 1 ≤ d → node_readable p → branches p = [] → read_ok (S d) p.
Proof. intros Hd Hn Hb. apply node_read_ok; [done..|]. rewrite Hb. apply Forall_nil_2. Qed.

Lemma split_prob_returns nm b :
  returns (λ x, (N.of_nat x.1 <= u32_max)%N) (split_prob nm b).
Proof.
  unfold split_prob. destruct (split_char "@" nm) as [|x [|y [|]]]; try (cbn; unfold u32_max; lia).
  destruct (negb b); [done|]. eapply returns_bind; [apply SemanticTextProps.parse_num_returns|].
  intros n Hn. cbn. by rewrite N2Nat.id.
Qed.

Lemma lock_time_returns d a (conv : N → Policy Pk) :
  (∀ n, (0 < n <= 2 ^ 31)%N → read_ok d (conv n)) → returns (read_ok d) (lock_time a conv).
Proof.
  intros Hc. eapply returns_bind; [apply terminal_u32_returns|]. intros n _.
  destruct (N.ltb_spec (2 ^ 31) n); [done|]. destruct (N.eqb_spec n 0%N); [done|]. apply Hc. lia.
Qed.

(** The branches, with or without odds. *)
Lemma concrete_subs_returns {A} (Q : A → Prop) (f : Tree → result Error A) l
    (P : Policy Pk → Prop) (k : list A → Policy Pk) :
  Forall (λ t, returns Q (f t)) l → (∀ subs, length subs = length l → Forall Q subs → P (k subs)) →
  returns P (let? subs := try_map f l in Ok (k subs)).
Proof.
  intros Hf Hk.
  assert (returns (Forall Q) (try_map f l)) as Hr.
  { apply returns_try_map. rewrite Forall_forall in Hf. auto. }
  destruct (try_map f l) as [subs| |] eqn:Hs; [|done..]. cbn in Hr |- *.
  apply Hk; [by eapply SemanticTextProps.try_map_length|done].
Qed.

Lemma from_tree_prob_returns t b : returns (prob_ok (depth t)) (from_tree_prob t b).
Proof.
  revert b. induction t as [n l IH] using Tree_tree_ind. intros b.
  pose proof (depth_args l) as Hd. change (depth (MkTree n l)) with (S (foldr Nat.max 0 (map depth l))).
  set (d := foldr Nat.max 0 (map depth l)) in *.
  assert (Forall (λ t, depth t ≤ d) l) as Hl by exact (depth_le_children n l _ (le_n _)).
  cbn [from_tree_prob].
  eapply returns_bind; [apply split_prob_returns|]. intros [odds f] Ho.
  eapply returns_bind with (P := read_ok (S d)); [|intros p Hp; by split].
  assert (Forall (λ t, ∀ b, returns (prob_ok d) (from_tree_prob t b)) l) as Hsubs.
  { rewrite Forall_forall in IH, Hl |- *. intros t Ht c. eapply returns_impl; [by apply IH|].
    intros p (? & ? & ?). split; [done|]. split; [done|]. specialize (Hl t Ht). lia. }
  assert (Forall (λ t, returns (read_ok d) (let? (_, p) := from_tree_prob t false in Ok p)) l) as Hplain.
  { eapply Forall_impl; [exact Hsubs|]. intros t Ht. eapply returns_bind; [apply Ht|].
    intros [o p] [_ Hp]. exact Hp. }
  clear IH Hl. destruct (key_atom _ _ _ _ _ f l) as [r|] eqn:Ha.
  { assert (l ≠ []) as Hne by (by destruct l).
    eapply (key_atom_returns _ _ _ _ _ (read_ok (S d))) in Ha as [_ Hr]; [exact Hr|..];
      intros x; apply concrete_atom_read_ok; auto; done. }
  destruct (_ && _); [by split; [constructor|cbn; lia]|].
  destruct (_ && _); [by split; [constructor|cbn; lia]|].
  destruct (String.eqb f "and").
  { destruct (Nat.eqb_spec (length l) 2) as [H2l|]; [|done]. cbn [negb].
    assert (l ≠ []) as Hne by (intros ->; done).
    eapply concrete_subs_returns; [exact Hplain|]. intros subs Hlen Hs.
    apply node_read_ok; [by apply Hd|cbn; lia|done]. }
  destruct (String.eqb f "or").
  { destruct (Nat.eqb_spec (length l) 2) as [H2l|]; [|done]. cbn [negb].
    assert (l ≠ []) as Hne by (intros ->; done).
    eapply (concrete_subs_returns (prob_ok d)); [|].
    { eapply Forall_impl; [exact Hsubs|]. intros t Ht. apply Ht. }
    intros subs Hlen Hs. apply node_read_ok; [by apply Hd| |].
    - split; [lia|]. eapply Forall_impl; [exact Hs|]. by intros [o q] [? _].
    - cbn [branches]. apply Forall_map. eapply Forall_impl; [exact Hs|]. by intros [o q] [_ ?]. }
  destruct l as [|a l]; [by case_match|].
  destruct (_ && _); [apply lock_time_returns; intros m Hm; apply concrete_atom_read_ok; [by apply Hd|done..]|].
  destruct (_ && _); [apply lock_time_returns; intros m Hm; apply concrete_atom_read_ok; [by apply Hd|done..]|].
  case_match; [|done]. case_match; [|done].
  eapply returns_bind; [apply SemanticTextProps.parse_num_returns|]. intros k Hk.
  destruct (N.leb_spec (N.of_nat (length (a :: l))) k) as [|Hlt]; [done|].
  destruct (N.eqb_spec k 0%N); [done|]. cbn [orb].
  inversion Hplain as [|? ? _ Hplain']; subst.
  eapply concrete_subs_returns; [exact Hplain'|]. intros subs Hlen Hs.
  apply node_read_ok; [by apply Hd| |done]. cbn [length node_readable] in Hlt |- *.
  rewrite N2Nat.id. split; [lia|exact Hk].
Qed.

Context `{ValidCharsOk}.

(** (C26) Concrete policies as text: parsing never panics, and printing is its inverse.  A
    policy that is parsed from a string has binary conjunctions and disjunctions, odds of
    32 bits, lock times from 1 to [2^31] inclusive (the documented bound is n < 2^31),
    thresholds that can be met and no conflict of time locks, and the string [Display]
    writes for it, with the odds of every branch, is parsed as the same policy. *)
Theorem concrete_from_str_display s :
  match from_str (Pk := Pk) s with
  | Ok p => readable p ∧ check_timelocks p = Ok tt ∧ from_str (display p) = Ok p
  | Err _ => True
  | Panic => False
  end.
Proof.
  unfold from_str at 1.
  pose proof (valid_no_panic s) as Hv. destruct (check_valid_chars s) as [u| |]; [|done..].
  pose proof (Tree_from_str_no_panic s) as Ht. cbn [result_bind].
  destruct (Tree_from_str s) as [t| |] eqn:Htree; [|done..]. cbn [result_bind].
  pose proof (from_tree_prob_returns t false) as Hr. unfold from_tree.
  destruct (from_tree_prob t false) as [[odds p]| |]; [|done..]. cbn [result_bind].
  destruct Hr as (_ & Hp & Hd). cbn [snd] in *.
  destruct (check_timelocks p) as [[]| |] eqn:Hc; cbn; [|done|revert Hc; unfold check_timelocks; by case_match].
  split_and!; [done..|]. unfold from_str. rewrite concrete_display_tree by done.
  apply tree_from_str_reads in Htree as [_ Hdt].
  assert (from_tree (tree_of p) = Ok p) as Hread.
  { unfold from_tree. by rewrite (reads_as_plain _ p) by by apply tree_reads. }
  pose proof (read_show from_tree _ p (concrete_tree_good p Hp) ltac:(lia) Hread) as Hs.
  apply bind_Ok in Hs as (w & Hw & Hs). apply bind_Ok in Hs as (t' & Ht' & Hs).
  rewrite Hw. cbn [result_bind]. rewrite Ht'. cbn [result_bind]. rewrite Hs. cbn [result_bind]. by rewrite Hc.
Qed.
End text.
End ConcreteTextProps.
