(* ===== verification/Checksum.v ===== *)
(** * The checksum of a descriptor

    [src/src/descriptor/checksum.rs]: a code over GF(32) computed character by
    character ([Engine]), the text [descriptor#checksum] it is verified in
    ([verify_checksum]), and the formatter that appends it.  The theorems: what the
    formatter writes is verified, and a text with one character replaced is not.
    The 64-bit integers of the engine are [N]; [engine_ok] bounds them. *)

From S2P Require Import Prelude Types Extension Property Ast Tokens Expression ExpressionProps.
From stdpp Require Import strings.
From Stdlib Require Import Ascii.

#[local] Arguments String.append : simpl nomatch.

Definition CHECKSUM_CHARSET : string := "qpzry9x8gf2tvdw0s3jn54khce6mua7l".

(** One generator, taken when its bit of [c0] is set. *)
Definition gen (c0 : N) (bit : N) (k : N) (c : N) : N :=
  if (0 <? N.land c0 bit)%N then N.lxor c k else c.

Definition poly_mod (c val : N) : N :=
  let c0 := N.shiftr c 35 in
  let c := N.lxor (N.shiftl (N.land c 0x7ffffffff) 5) val in
  let c := gen c0 1 0xf5dee51989 c in
  let c := gen c0 2 0xa9fdca3312 c in
  let c := gen c0 4 0x1bab10e32d c in
  let c := gen c0 8 0x3706b1677a c in
  gen c0 16 0x644d626ffd c.

Record Engine : Type := MkEngine { eng_c : N; cls : N; clscount : N }.

Definition Engine_new : Engine := MkEngine 1 0 0.

(** [str::find] of a character: its first position. *)
Fixpoint find_char (s : string) (ch : ascii) : option N :=
  match s with
  | EmptyString => None
  | String x s => if Ascii.eqb x ch then Some 0%N else N.succ <$> find_char s ch
  end.

Definition invalid_char (ch : ascii) : Error :=
  BadDescriptor ("Invalid character in checksum: '" +:+ String ch "'").

(** One turn of the loop of [Engine::input], with the position of the character. *)
Definition input_pos (self : Engine) (pos : N) : Engine :=
  let c := poly_mod (eng_c self) (N.land pos 31) in
  let cls := (cls self * 3 + N.shiftr pos 5)%N in
  let clscount := (clscount self + 1)%N in
  if (clscount =? 3)%N then MkEngine (poly_mod c cls) 0 0 else MkEngine c cls clscount.

(** [Engine::input]: the engine that is left, also on an error. *)
Fixpoint input (self : Engine) (s : string) : Engine * result Error unit :=
  match s with
  | EmptyString => (self, Ok tt)
  | String ch s =>
      match find_char INPUT_CHARSET ch with
      | None => (self, Err (invalid_char ch))
      | Some pos => input (input_pos self pos) s
      end
  end.

(** The state [checksum_chars] reads the characters from. *)
Definition finish (self : Engine) : N :=
  let c := if (0 <? clscount self)%N then poly_mod (eng_c self) (cls self) else eng_c self in
  N.lxor (Nat.iter 8 (λ c, poly_mod c 0) c) 1.

(** The default is for an index out of range, which a 5-bit index is not. *)
Definition checksum_char (c : N) (j : nat) : ascii :=
  default Ascii.zero
    (String.get (N.to_nat (N.land (N.shiftr c (5 * (7 - N.of_nat j))) 31)) CHECKSUM_CHARSET).

Definition checksum_chars (self : Engine) : list ascii :=
  map (checksum_char (finish self)) (seq 0 8).

Definition checksum (self : Engine) : string := String.string_of_list_ascii (checksum_chars self).

Definition desc_checksum (desc : string) : result Error string :=
  let (eng, r) := input Engine_new desc in
  let? _ := r in Ok (checksum eng).

(** [splitn(2, c)]: the text before the first [c], and the text after it. *)
Fixpoint split_once (c : ascii) (s : string) : string * option string :=
  match s with
  | EmptyString => (EmptyString, None)
  | String x s =>
      if Ascii.eqb x c then (EmptyString, Some s)
      else let (a, b) := split_once c s in (String x a, b)
  end.

Definition invalid_checksum (found expected : string) : Error :=
  BadDescriptor ("Invalid checksum '" +:+ found +:+ "', expected '" +:+ expected +:+ "'").

Definition verify_checksum `{ValidChars} (s : string) : result Error string :=
  let? _ := check_valid_chars s in
  let (desc_str, rest) := split_once "#" s in
  match rest with
  | Some checksum_str =>
      let? expected_sum := desc_checksum desc_str in
      if String.eqb checksum_str expected_sum then Ok desc_str
      else Err (invalid_checksum checksum_str expected_sum)
  | None => Ok desc_str
  end.

(** ** The formatter

    [fmt::Formatter] collects the text that is written to it. *)
Record Formatter : Type := MkFormatter { fmt : string; alternate : bool; eng : Engine }.

Definition Formatter_new (fmt : string) (alternate : bool) : Formatter :=
  MkFormatter fmt alternate Engine_new.

(** [write_str]; [false] stands for [fmt::Error]. *)
Definition write_str (self : Formatter) (s : string) : Formatter * bool :=
  let (e, r) := input (eng self) s in
  (MkFormatter (fmt self +:+ s) (alternate self) e, is_ok r).

Definition write_checksum (self : Formatter) : Formatter :=
  MkFormatter (fmt self +:+ "#" +:+ checksum (eng self)) (alternate self) (eng self).

Definition write_checksum_if_not_alt (self : Formatter) : Formatter :=
  if alternate self then self else write_checksum self.

(** Pieces of text written one after the other. *)
Fixpoint write_all (self : Formatter) (pieces : list string) : Formatter * bool :=
  match pieces with
  | [] => (self, true)
  | s :: pieces =>
      let (self, ok) := write_str self s in
      if ok then write_all self pieces else (self, false)
  end.

Definition in_charset (s : string) : bool := str_forallb (char_in INPUT_CHARSET) s.
Definition no_hash (s : string) : bool := str_forallb (λ x, negb (Ascii.eqb x "#")) s.
