(* ===== verification/ChecksumProps.v ===== *)
(** * What the checksum of a descriptor promises

    [poly_mod] is linear over GF(2) and injective, so that the states of two engines
    that once differ never meet again ([differ]): every replacement of one character is
    detected.  The engine reads a text in pieces, so that the formatter writes the
    checksum of all it has written. *)

From S2P Require Import Prelude Types Extension Property Ast Tokens Expression ExpressionProps Checksum.
From stdpp Require Import strings.
From Stdlib Require Import Ascii.

#[local] Arguments String.append : simpl nomatch.

(** ** [poly_mod] *)

Lemma lt_pow2_shiftr a n : (a < 2 ^ n)%N ↔ N.shiftr a n = 0%N.
Proof.
  rewrite N.shiftr_div_pow2. pose proof (N.pow_nonzero 2 n ltac:(done)). split.
  - apply N.div_small.
  - intros Hz. apply N.div_small_iff in Hz; [done|lia].
Qed.

Lemma lxor_lt a b n : (a < 2 ^ n → b < 2 ^ n → N.lxor a b < 2 ^ n)%N.
Proof. rewrite !lt_pow2_shiftr, N.shiftr_lxor. by intros -> ->. Qed.

Definition flag (c0 bit k : N) : N := if (0 <? N.land c0 bit)%N then k else 0%N.

(** The generators the high bits of the state select. *)
Definition tab (c0 : N) : N :=
  N.lxor (flag c0 1 0xf5dee51989) (N.lxor (flag c0 2 0xa9fdca3312)
    (N.lxor (flag c0 4 0x1bab10e32d) (N.lxor (flag c0 8 0x3706b1677a) (flag c0 16 0x644d626ffd)))).

Lemma gen_flag c0 bit k c : gen c0 bit k c = N.lxor c (flag c0 bit k).
Proof. unfold gen, flag. destruct (0 <? _)%N; [done|by rewrite N.lxor_0_r]. Qed.

Lemma poly_mod_tab c v :
  poly_mod c v = N.lxor (N.shiftl (N.land c 0x7ffffffff) 5) (N.lxor v (tab (N.shiftr c 35))).
Proof. unfold poly_mod, tab. cbv zeta. rewrite !gen_flag, !N.lxor_assoc. done. Qed.

Lemma flag_lxor a b i k :
  flag (N.lxor a b) (2 ^ i) k = N.lxor (flag a (2 ^ i) k) (flag b (2 ^ i) k).
Proof.
  assert (∀ x, (0 <? N.land x (2 ^ i))%N = N.testbit x i) as Hbit.
  { intros x. pose proof (N.pow_nonzero 2 i ltac:(done)).
    replace (N.land x (2 ^ i)) with (if N.testbit x i then 2 ^ i else 0)%N.
    - destruct (N.testbit x i); [apply N.ltb_lt; lia|done].
    - apply N.bits_inj. intros j. rewrite N.land_spec, N.pow2_bits_eqb.
      destruct (N.eqb_spec i j) as [->|Hj].
      + destruct (N.testbit x j); [by rewrite N.pow2_bits_true|done].
      + rewrite andb_false_r. destruct (N.testbit x i); [by rewrite N.pow2_bits_false|done]. }
  unfold flag. rewrite !Hbit, N.lxor_spec.
  destruct (N.testbit a i), (N.testbit b i); cbn [xorb];
    by rewrite ?N.lxor_nilpotent, ?N.lxor_0_r, ?N.lxor_0_l.
Qed.

Lemma lxor_swap a b c d : N.lxor (N.lxor a b) (N.lxor c d) = N.lxor (N.lxor a c) (N.lxor b d).
Proof. rewrite !N.lxor_assoc. f_equal. by rewrite <-!N.lxor_assoc, (N.lxor_comm b c). Qed.

Lemma tab_lxor a b : tab (N.lxor a b) = N.lxor (tab a) (tab b).
Proof.
  unfold tab.
  pose proof (flag_lxor a b 0) as H0. pose proof (flag_lxor a b 1) as H1.
  pose proof (flag_lxor a b 2) as H2. pose proof (flag_lxor a b 3) as H3.
  pose proof (flag_lxor a b 4) as H4. cbn [N.pow Pos.pow Pos.iter Pos.mul] in *.
  rewrite H0, H1, H2, H3, H4. by rewrite !(lxor_swap _ _ (flag b _ _) _).
Qed.

Lemma poly_mod_lxor a b v w :
  poly_mod (N.lxor a b) (N.lxor v w) = N.lxor (poly_mod a v) (poly_mod b w).
Proof.
  rewrite !poly_mod_tab, N.shiftr_lxor, tab_lxor.
  replace (N.land (N.lxor a b) 0x7ffffffff)
    with (N.lxor (N.land a 0x7ffffffff) (N.land b 0x7ffffffff)).
  - rewrite N.shiftl_lxor, (lxor_swap v w), lxor_swap. done.
  - apply N.bits_inj. intros i. rewrite N.lxor_spec, !N.land_spec, N.lxor_spec.
    by destruct (N.testbit a i), (N.testbit b i), (N.testbit _ i).
Qed.

Lemma flag_lt c0 bit k : (k < 2 ^ 40 → flag c0 bit k < 2 ^ 40)%N.
Proof. unfold flag. by destruct (0 <? _)%N. Qed.

Lemma poly_mod_lt c v : (v < 32 → poly_mod c v < 2 ^ 40)%N.
Proof.
  intros Hv. rewrite poly_mod_tab. repeat apply lxor_lt; try (by apply flag_lt); [|lia].
  change 0x7ffffffff%N with (N.ones 35). rewrite N.land_ones, N.shiftl_mul_pow2.
  pose proof (N.mod_lt c (2 ^ 35) ltac:(done)). lia.
Qed.

(** The digits of base 32 of the generators differ at their lowest position. *)
Lemma tab_low n : (n < 32)%N → N.land (tab n) 31 = 0%N → n = 0%N.
Proof.
  intros Hn.
  assert (forallb (λ i, let i := N.of_nat i in (i =? 0) || negb (N.land (tab i) 31 =? 0))%N
    (seq 0 32) = true) as Hall by by vm_compute.
  rewrite forallb_forall in Hall. specialize (Hall (N.to_nat n)). cbv zeta in Hall.
  rewrite N2Nat.id in Hall. intros Hz. rewrite Hz in Hall.
  assert (In (N.to_nat n) (seq 0 32)) as Hin by (apply in_seq; lia). specialize (Hall Hin).
  by destruct (N.eqb_spec n 0).
Qed.

Lemma low_shiftl a : N.land (N.shiftl a 5) 31 = 0%N.
Proof.
  change 31%N with (N.ones 5). rewrite N.land_ones, N.shiftl_mul_pow2. by apply N.Div0.mod_mul.
Qed.

Lemma land_lxor a b m : N.land (N.lxor a b) m = N.lxor (N.land a m) (N.land b m).
Proof.
  apply N.bits_inj. intros i. rewrite N.lxor_spec, !N.land_spec, N.lxor_spec.
  by destruct (N.testbit a i), (N.testbit b i), (N.testbit m i).
Qed.

Lemma poly_mod_zero c : (c < 2 ^ 40)%N → poly_mod c 0 = 0%N → c = 0%N.
Proof.
  intros Hc Hz. rewrite poly_mod_tab, N.lxor_0_l in Hz.
  assert (N.shiftr c 35 < 32)%N as Hhi.
  { rewrite N.shiftr_div_pow2. apply N.Div0.div_lt_upper_bound. lia. }
  assert (N.shiftr c 35 = 0%N) as Hc0.
  { apply tab_low; [done|]. apply (f_equal (λ x, N.land x 31)) in Hz.
    by rewrite land_lxor, low_shiftl, N.lxor_0_l in Hz. }
  rewrite Hc0 in Hz. change (tab 0) with 0%N in Hz. rewrite N.lxor_0_r in Hz.
  apply lt_pow2_shiftr in Hc0. change 0x7ffffffff%N with (N.ones 35) in Hz.
  rewrite N.land_ones, N.mod_small, N.shiftl_mul_pow2 in Hz by done. lia.
Qed.

(** ** States *)

Definition engine_ok (e : Engine) : Prop :=
  (eng_c e < 2 ^ 40 ∧ clscount e < 3 ∧ cls e < 3 ^ clscount e)%N.

Definition valid_pos (pos : N) : Prop := (pos < 96)%N.

Lemma find_char_lt s ch pos : find_char s ch = Some pos → (pos < N.of_nat (String.length s))%N.
Proof.
  revert pos. induction s as [|x s IH]; cbn; [done|]. intros pos.
  destruct (Ascii.eqb x ch); [intros [= <-]; lia|].
  destruct (find_char s ch) as [p|]; cbn; [|done]. intros [= <-]. specialize (IH p eq_refl). lia.
Qed.

Lemma find_char_inj s a b pos : find_char s a = Some pos → find_char s b = Some pos → a = b.
Proof.
  revert pos. induction s as [|x s IH]; cbn; [done|]. intros pos.
  destruct (Ascii.eqb_spec x a), (Ascii.eqb_spec x b); subst; try done;
    destruct (find_char s a), (find_char s b); cbn; intros; simplify_eq; try lia.
  eapply IH; [done|]. f_equal. lia.
Qed.

Lemma find_char_is_Some s a : char_in s a = true ↔ is_Some (find_char s a).
Proof.
  unfold char_in. induction s as [|x s IH]; cbn.
  - split; [done|by intros []].
  - destruct (Ascii.eqb x a); cbn; [by split|]. by rewrite IH, fmap_is_Some.
Qed.

Lemma charset_pos ch : char_in INPUT_CHARSET ch = true →
  ∃ pos, find_char INPUT_CHARSET ch = Some pos ∧ valid_pos pos.
Proof.
  intros [pos Hp]%find_char_is_Some. exists pos. split; [done|].
  pose proof (find_char_lt _ _ _ Hp) as Hl. unfold valid_pos.
  change (String.length INPUT_CHARSET) with 95 in Hl. lia.
Qed.

Lemma low_lt pos : (N.land pos 31 < 32)%N.
Proof. change 31%N with (N.ones 5). rewrite N.land_ones. by apply N.mod_lt. Qed.

Lemma high_lt pos : valid_pos pos → (N.shiftr pos 5 < 3)%N.
Proof. intros Hp. rewrite N.shiftr_div_pow2. by apply N.Div0.div_lt_upper_bound. Qed.

Lemma input_pos_ok e pos : engine_ok e → valid_pos pos → engine_ok (input_pos e pos).
Proof.
  intros (Hc & Hn & Hcls) Hp. pose proof (poly_mod_lt (eng_c e) _ (low_lt pos)) as Hc'.
  pose proof (high_lt pos Hp) as Hh. unfold input_pos.
  assert (clscount e = 0 ∨ clscount e = 1 ∨ clscount e = 2)%N as Hcnt by lia.
  destruct (N.eqb_spec (clscount e + 1) 3) as [He|He]; (split_and!; cbn [eng_c clscount cls]);
    try done; try lia.
  - apply poly_mod_lt. destruct_or! Hcnt; rewrite Hcnt in *; lia.
  - destruct_or! Hcnt; rewrite Hcnt in *; [lia..|done].
Qed.

Lemma Engine_new_ok : engine_ok Engine_new.
Proof. done. Qed.

(** ** Two engines that differ *)

Lemma lxor_neq a b : a ≠ b ↔ N.lxor a b ≠ 0%N.
Proof. rewrite (not_iff_compat (N.lxor_eq_0_iff a b)). done. Qed.

Lemma poly_mod_neq a b v : (a < 2 ^ 40 → b < 2 ^ 40 → a ≠ b → poly_mod a v ≠ poly_mod b v)%N.
Proof.
  intros Ha Hb Hab. apply lxor_neq. rewrite <-poly_mod_lxor, N.lxor_nilpotent. intros Hz.
  apply lxor_neq in Hab. apply Hab, poly_mod_zero; [by apply lxor_lt|done].
Qed.

Lemma poly_mod_small d v : (d < 2 ^ 35)%N → poly_mod d v = N.lxor (N.shiftl d 5) v.
Proof.
  intros Hd. rewrite poly_mod_tab. pose proof Hd as ->%lt_pow2_shiftr.
  change (tab 0) with 0%N. change 0x7ffffffff%N with (N.ones 35).
  by rewrite N.lxor_0_r, N.land_ones, N.mod_small.
Qed.

(** The registers and group values of two engines whose texts part in a group, after [n]
    characters of it: the registers differ, or the group values do and the registers
    only in their lowest digits. *)
Definition apart (n c1 g1 c2 g2 : N) : Prop :=
  (g1 = g2 ∧ c1 ≠ c2) ∨ (g1 ≠ g2 ∧ N.lxor c1 c2 < 2 ^ (5 * n))%N.

Lemma apart_close n c1 g1 c2 g2 :
  (n ≤ 3 → c1 < 2 ^ 40 → c2 < 2 ^ 40 → g1 < 32 → g2 < 32 → apart n c1 g1 c2 g2 →
  poly_mod c1 g1 ≠ poly_mod c2 g2)%N.
Proof.
  intros Hn Hc1 Hc2 Hg1 Hg2 [[-> Hc]|[Hg Hd]]; [by apply poly_mod_neq|].
  apply lxor_neq. rewrite <-poly_mod_lxor.
  assert (N.lxor c1 c2 < 2 ^ 35)%N as Hd'.
  { eapply N.lt_le_trans; [exact Hd|]. apply N.pow_le_mono_r; lia. }
  rewrite poly_mod_small by done. intros Hz. apply (f_equal (λ x, N.land x 31)) in Hz.
  rewrite land_lxor, low_shiftl, N.lxor_0_l in Hz. change 31%N with (N.ones 5) in Hz.
  rewrite N.land_ones, N.mod_small in Hz by (by apply lxor_lt). by apply lxor_neq in Hg.
Qed.

Lemma apart_step n c1 g1 c2 g2 v h :
  (n < 3 → c1 < 2 ^ 40 → c2 < 2 ^ 40 → apart n c1 g1 c2 g2 →
  apart (n + 1) (poly_mod c1 v) (g1 * 3 + h) (poly_mod c2 v) (g2 * 3 + h))%N.
Proof.
  intros Hn Hc1 Hc2 [[-> Hc]|[Hg Hd]]; [left; split; [done|by apply poly_mod_neq]|].
  right. split; [lia|]. rewrite <-poly_mod_lxor, N.lxor_nilpotent.
  assert (N.lxor c1 c2 < 2 ^ 35)%N as Hd'.
  { eapply N.lt_le_trans; [exact Hd|]. apply N.pow_le_mono_r; lia. }
  rewrite poly_mod_small, N.lxor_0_r, N.shiftl_mul_pow2 by done.
  replace (5 * (n + 1))%N with (5 * n + 5)%N by lia. rewrite N.pow_add_r.
  apply N.mul_lt_mono_pos_r; [done|exact Hd].
Qed.

Lemma apart_start n c g p q :
  valid_pos p → valid_pos q → p ≠ q →
  apart (n + 1) (poly_mod c (N.land p 31)) (g * 3 + N.shiftr p 5)
    (poly_mod c (N.land q 31)) (g * 3 + N.shiftr q 5).
Proof.
  intros Hp Hq Hpq. unfold apart.
  assert (N.lxor (poly_mod c (N.land p 31)) (poly_mod c (N.land q 31))
          = N.lxor (N.land p 31) (N.land q 31)) as Hd.
  { by rewrite <-poly_mod_lxor, N.lxor_nilpotent, poly_mod_small. }
  destruct (decide (N.shiftr p 5 = N.shiftr q 5)) as [He|He].
  - left. split; [by rewrite He|]. apply lxor_neq. rewrite Hd. apply (proj1 (lxor_neq _ _)). intros Hl. apply Hpq.
    revert He Hl. change 31%N with (N.ones 5). rewrite !N.land_ones, !N.shiftr_div_pow2.
    intros He Hl. rewrite (N.div_mod p (2 ^ 5)), (N.div_mod q (2 ^ 5)), He, Hl by done. done.
  - right. split; [lia|]. rewrite Hd. eapply N.lt_le_trans.
    + apply (lxor_lt _ _ 5); apply low_lt.
    + apply N.pow_le_mono_r; lia.
Qed.

(** The engines have read as many characters of a group and have parted. *)
Definition differ (e1 e2 : Engine) : Prop :=
  engine_ok e1 ∧ engine_ok e2 ∧ clscount e1 = clscount e2 ∧
  apart (clscount e1) (eng_c e1) (cls e1) (eng_c e2) (cls e2).

Lemma cls_lt n g : (n ≤ 3 → g < 3 ^ n → g < 32)%N.
Proof.
  intros Hn Hg. eapply N.lt_le_trans; [exact Hg|].
  transitivity (3 ^ 3)%N; [by apply N.pow_le_mono_r|done].
Qed.

(** The registers after the character that may complete the group. *)
Lemma input_pos_differ_close e1 e2 p q :
  engine_ok e1 → engine_ok e2 → clscount e1 = clscount e2 → valid_pos p → valid_pos q →
  apart (clscount e1 + 1) (poly_mod (eng_c e1) (N.land p 31)) (cls e1 * 3 + N.shiftr p 5)
    (poly_mod (eng_c e2) (N.land q 31)) (cls e2 * 3 + N.shiftr q 5) →
  differ (input_pos e1 p) (input_pos e2 q).
Proof.
  intros H1 H2 Hn Hp Hq Ha.
  split_and!; [by apply input_pos_ok..| |]; unfold input_pos; rewrite <-Hn.
  - by destruct (_ =? 3)%N.
  - destruct (N.eqb_spec (clscount e1 + 1) 3) as [He|He]; cbn [eng_c cls clscount]; [|done].
    destruct H1 as (_ & _ & Hg1), H2 as (_ & _ & Hg2). rewrite Hn in Hg1.
    rewrite Hn in He. replace (clscount e2) with 2%N in * by lia. rewrite Hn in Ha.
    pose proof (high_lt p Hp). pose proof (high_lt q Hq).
    left. split; [done|]. apply (apart_close (2 + 1)); try done.
    all: intros; try (apply poly_mod_lt, low_lt); lia.
Qed.

Lemma input_pos_differ e1 e2 p : differ e1 e2 → valid_pos p → differ (input_pos e1 p) (input_pos e2 p).
Proof.
  intros (H1 & H2 & Hn & Ha) Hp. apply input_pos_differ_close; try done.
  destruct H1 as (Hc1 & Hn1 & _), H2 as (Hc2 & _ & _). by apply apart_step.
Qed.

Lemma input_pos_parts e p q :
  engine_ok e → valid_pos p → valid_pos q → p ≠ q → differ (input_pos e p) (input_pos e q).
Proof. intros He Hp Hq Hpq. apply input_pos_differ_close; try done. by apply apart_start. Qed.

(** ** Texts *)

#[local] Arguments find_char : simpl never.
#[local] Arguments INPUT_CHARSET : simpl never.

Lemma input_charset e s :
  in_charset s = true → engine_ok e → ∃ e', input e s = (e', Ok tt) ∧ engine_ok e'.
Proof.
  revert e. induction s as [|ch s IH]; cbn; intros e; [eauto|].
  intros [(pos & Hpos & Hv)%charset_pos Hs]%andb_prop He. rewrite Hpos.
  apply IH; [done|by apply input_pos_ok].
Qed.

Lemma input_differ e1 e2 s :
  in_charset s = true → differ e1 e2 → differ (input e1 s).1 (input e2 s).1.
Proof.
  revert e1 e2. induction s as [|ch s IH]; cbn; intros e1 e2; [done|].
  intros [(pos & Hpos & Hv)%charset_pos Hs]%andb_prop He. rewrite Hpos.
  apply IH; [done|by apply input_pos_differ].
Qed.

Lemma input_app e s t :
  input e (s +:+ t) =
  match input e s with (e', Ok _) => input e' t | (e', Err x) => (e', Err x) | (e', Panic) => (e', Panic) end.
Proof.
  revert e. induction s as [|ch s IH]; intros e; cbn; [done|].
  destruct (find_char INPUT_CHARSET ch); [apply IH|done].
Qed.

Lemma in_charset_app s t : in_charset (s +:+ t) = in_charset s && in_charset t.
Proof. apply str_forallb_app. Qed.

(** *** The characters of the checksum *)

Lemma shiftl8 a b n : (a < 2 ^ 40 → b < 2 ^ 40 → a ≠ b →
  Nat.iter n (λ c, poly_mod c 0) a ≠ Nat.iter n (λ c, poly_mod c 0) b ∧
  Nat.iter n (λ c, poly_mod c 0) a < 2 ^ 40 ∧ Nat.iter n (λ c, poly_mod c 0) b < 2 ^ 40)%N.
Proof.
  intros Ha Hb Hab. induction n as [|n (IH & Ha' & Hb')]; [done|]. cbn [Nat.iter nat_rect].
  split_and!; [by apply poly_mod_neq|by apply poly_mod_lt..].
Qed.

Lemma finish_differ e1 e2 :
  differ e1 e2 → (finish e1 ≠ finish e2 ∧ finish e1 < 2 ^ 40 ∧ finish e2 < 2 ^ 40)%N.
Proof.
  intros ((Hc1 & Hn1 & Hg1) & (Hc2 & Hn2 & Hg2) & Hn & Ha). unfold finish. cbv zeta.
  rewrite <-Hn in *.
  destruct (shiftl8 (if 0 <? clscount e1 then poly_mod (eng_c e1) (cls e1) else eng_c e1)%N
    (if 0 <? clscount e1 then poly_mod (eng_c e2) (cls e2) else eng_c e2)%N 8) as (Hd & Hb1 & Hb2).
  - destruct (0 <? _)%N; [|done]. apply poly_mod_lt, (cls_lt (clscount e1)); [lia|done].
  - destruct (0 <? _)%N; [|done]. apply poly_mod_lt, (cls_lt (clscount e1)); [lia|done].
  - destruct (N.ltb_spec 0 (clscount e1)).
    + apply (apart_close (clscount e1)); try done; [lia|by apply (cls_lt (clscount e1)); [lia|]..].
    + assert (clscount e1 = 0)%N as H0 by lia. rewrite H0 in *.
      destruct Ha as [[_ Hc]|[Hg _]]; [done|]. cbn in Hg1, Hg2. lia.
  - split_and!; [|by apply lxor_lt..]. intros He. apply Hd.
    apply (f_equal (λ x, N.lxor x 1)) in He.
    by rewrite !N.lxor_assoc, N.lxor_nilpotent, !N.lxor_0_r in He.
Qed.

Lemma charset_get_inj i j :
  (i < 32 → j < 32 →
   default Ascii.zero (String.get (N.to_nat i) CHECKSUM_CHARSET)
   = default Ascii.zero (String.get (N.to_nat j) CHECKSUM_CHARSET) → i = j)%N.
Proof.
  intros Hi Hj He.
  assert (forallb (λ a, forallb (λ b, (a =? b) || negb (Ascii.eqb
    (default Ascii.zero (String.get a CHECKSUM_CHARSET))
    (default Ascii.zero (String.get b CHECKSUM_CHARSET)))) (seq 0 32)) (seq 0 32) = true) as Hall
    by by vm_compute.
  rewrite forallb_forall in Hall. specialize (Hall (N.to_nat i) ltac:(apply in_seq; lia)).
  rewrite forallb_forall in Hall. specialize (Hall (N.to_nat j) ltac:(apply in_seq; lia)).
  rewrite He, Ascii.eqb_refl, orb_false_r in Hall. apply Nat.eqb_eq in Hall. lia.
Qed.

Lemma digits_eq a b : (a < 2 ^ 40 → b < 2 ^ 40)%N →
  (∀ j, j < 8 → N.land (N.shiftr a (5 * (7 - N.of_nat j))) 31
                = N.land (N.shiftr b (5 * (7 - N.of_nat j))) 31) →
  (a < 2 ^ 40)%N → a = b.
Proof.
  intros Hb Hd Ha. specialize (Hb Ha). apply N.bits_inj. intros i.
  destruct (N.lt_ge_cases i 40) as [Hi|Hi].
  - pose proof (N.div_mod i 5 ltac:(done)) as Hq. pose proof (N.mod_lt i 5 ltac:(done)) as Hr.
    assert (i / 5 < 8)%N as Hq8 by (apply N.Div0.div_lt_upper_bound; lia).
    specialize (Hd (7 - N.to_nat (i / 5)) ltac:(lia)).
    replace (7 - N.of_nat (7 - N.to_nat (i / 5)))%N with (i / 5)%N in Hd by lia.
    apply (f_equal (λ x, N.testbit x (i `mod` 5))) in Hd.
    rewrite !N.land_spec, !N.shiftr_spec' in Hd. change 31%N with (N.ones 5) in Hd.
    rewrite N.ones_spec_low, !andb_true_r in Hd by done.
    by replace (i `mod` 5 + 5 * (i / 5))%N with i in Hd by lia.
  - assert (∀ x, x < 2 ^ 40 → N.testbit x i = false)%N as Hhigh.
    { intros x Hx. destruct (N.eq_0_gt_0_cases x) as [->|Hx0]; [apply N.bits_0|].
      apply N.bits_above_log2. apply N.log2_lt_pow2 in Hx; lia. }
    by rewrite !Hhigh.
Qed.

Lemma checksum_differ e1 e2 : differ e1 e2 → checksum e1 ≠ checksum e2.
Proof.
  intros (Hd & Hb1 & Hb2)%finish_differ Heq. apply Hd, digits_eq; [done| |done]. intros j Hj.
  apply charset_get_inj; [apply low_lt..|].
  assert (checksum_chars e1 = checksum_chars e2) as Hchars.
  { apply (f_equal String.list_ascii_of_string) in Heq. unfold checksum in Heq.
    by rewrite !String.list_ascii_of_string_of_list_ascii in Heq. }
  apply (f_equal (λ l, l !! j)) in Hchars. unfold checksum_chars in Hchars.
  rewrite !list_lookup_fmap, lookup_seq_lt in Hchars by done. cbn in Hchars. by injection Hchars.
Qed.

Lemma checksum_charset e : in_charset (checksum e) = true.
Proof.
  unfold checksum, checksum_chars, checksum_char. cbn [map seq String.string_of_list_ascii].
  assert (∀ i, (i < 32)%N → char_in INPUT_CHARSET
    (default Ascii.zero (String.get (N.to_nat i) CHECKSUM_CHARSET)) = true) as Hc.
  { intros i Hi.
    assert (forallb (λ a, char_in INPUT_CHARSET (default Ascii.zero (String.get a CHECKSUM_CHARSET)))
      (seq 0 32) = true) as Hall by by vm_compute.
    rewrite forallb_forall in Hall. apply Hall, in_seq. lia. }
  unfold in_charset. cbn [str_forallb]. rewrite !Hc by apply low_lt. done.
Qed.

Lemma split_once_hash s t : no_hash s = true → split_once "#" (s +:+ String "#" t) = (s, Some t).
Proof.
  unfold no_hash. induction s as [|x s IH]; cbn; [done|].
  intros [Hx%negb_true_iff Hs]%andb_prop. by rewrite Hx, IH.
Qed.

Lemma desc_checksum_charset s :
  in_charset s = true → desc_checksum s = Ok (checksum (input Engine_new s).1).
Proof.
  intros Hs. destruct (input_charset Engine_new s Hs Engine_new_ok) as (e & He & _).
  unfold desc_checksum. by rewrite He.
Qed.

(** A text that is followed by a [#] and eight characters of its own, or other, checksum. *)
Lemma verify_with `{ValidCharsOk} s sum :
  in_charset s = true → no_hash s = true → in_charset sum = true →
  verify_checksum (s +:+ String "#" sum) =
    if String.eqb sum (checksum (input Engine_new s).1) then Ok s
    else Err (invalid_checksum sum (checksum (input Engine_new s).1)).
Proof.
  intros Hs Hh Hsum. unfold verify_checksum.
  rewrite valid_charset by (change (in_charset (s +:+ String "#" sum) = true);
    rewrite in_charset_app, Hs; unfold in_charset in *; cbn [str_forallb]; by rewrite Hsum).
  cbn [result_bind]. by rewrite split_once_hash, desc_checksum_charset.
Qed.

Definition concat_all (pieces : list string) : string := foldr String.append EmptyString pieces.

Lemma write_all_input f pieces f' :
  write_all f pieces = (f', true) →
  fmt f' = fmt f +:+ concat_all pieces ∧ alternate f' = alternate f ∧
  input (eng f) (concat_all pieces) = (eng f', Ok tt).
Proof.
  revert f. induction pieces as [|s pieces IH]; intros f; cbn.
  - intros [= <-]. by rewrite str_app_nil_r.
  - unfold write_str. rewrite input_app. destruct (input (eng f) s) as [e [[]|x|]] eqn:He; cbn; try done.
    intros (-> & -> & Hi)%IH. cbn in *. by rewrite str_app_assoc.
Qed.

Lemma input_in_charset e s e' : input e s = (e', Ok tt) → in_charset s = true.
Proof.
  revert e. induction s as [|ch s IH]; intros e; [done|].
  cbn. destruct (find_char INPUT_CHARSET ch) eqn:Hf; [|done]. intros Hi%IH.
  unfold in_charset in *. cbn [str_forallb]. rewrite Hi, andb_true_r.
  apply find_char_is_Some. by eexists.
Qed.

(** (C30) A text without # that the formatter has written, piece by piece and without an
    error, is verified together with the checksum it appends, and handed back without
    it. *)
Theorem formatter_verifies `{ValidCharsOk} pieces f :
  write_all (Formatter_new EmptyString false) pieces = (f, true) →
  no_hash (concat_all pieces) = true →
  verify_checksum (fmt (write_checksum_if_not_alt f)) = Ok (concat_all pieces).
Proof.
  intros (Hf & Ha & Hi)%write_all_input Hh. cbn in *.
  unfold write_checksum_if_not_alt, write_checksum. rewrite Ha. cbn [fmt]. rewrite Hf.
  pose proof (input_in_charset _ _ _ Hi) as Hc.
  cbn [String.append]. rewrite verify_with by (done || apply checksum_charset).
  by rewrite Hi, String.eqb_refl.
Qed.

(** (C29) A replaced character is detected: a text that carries the checksum of a text that
    differs from it in one character is refused. *)
Theorem substitution_detected `{ValidCharsOk} pre a b post :
  in_charset (pre +:+ String a post) = true → no_hash (pre +:+ String a post) = true →
  char_in INPUT_CHARSET b = true → a ≠ b →
  ∃ sum expected, desc_checksum (pre +:+ String b post) = Ok sum ∧
    verify_checksum (pre +:+ String a post +:+ String "#" sum) = Err (invalid_checksum sum expected).
Proof.
  rewrite in_charset_app. intros [Hpre [Ha Hpost]%andb_prop]%andb_prop Hh Hb Hab.
  assert (in_charset (pre +:+ String a post) = true) as Hsa.
  { rewrite in_charset_app, Hpre. unfold in_charset. cbn. by rewrite Ha. }
  assert (in_charset (pre +:+ String b post) = true) as Hsb.
  { rewrite in_charset_app, Hpre. unfold in_charset. cbn. by rewrite Hb. }
  exists (checksum (input Engine_new (pre +:+ String b post)).1).
  exists (checksum (input Engine_new (pre +:+ String a post)).1).
  split; [by apply desc_checksum_charset|].
  rewrite <-str_app_assoc, verify_with by (done || apply checksum_charset).
  destruct (String.eqb_spec (checksum (input Engine_new (pre +:+ String b post)).1)
    (checksum (input Engine_new (pre +:+ String a post)).1)) as [He|]; [|done].
  exfalso. revert He. apply checksum_differ. rewrite !input_app.
  destruct (input_charset _ _ Hpre Engine_new_ok) as (e & -> & He). cbn.
  apply charset_pos in Ha as (p & Hp & Hvp), Hb as (q & Hq & Hvq). rewrite Hp, Hq.
  apply input_differ; [done|]. apply input_pos_parts; try done. intros ->. apply Hab.
  by eapply find_char_inj.
Qed.
