(* ===== verification/TextSamples.v ===== *)
(** * Sample text

    Keys and hashes that are printed as numbers, the witness of the round trip, and what
    happens to a bare key hash. *)

From S2P Require Import Prelude Types Extension Instances Property Ast Examples Resources Encoding Tokens Context Expression ExpressionProps TextForm TextProps TextRoundTrip PolicyText PolicyTextProps Checksum ChecksumProps.
From S2P Require Semantic Concrete.
From stdpp Require Import strings.
From Stdlib Require Import Ascii.

#[local] Arguments String.append : simpl nomatch.

(** A key is written [K] and a number, a hash as a number. *)
Inductive TextKey : Type := TKey (n : N).

#[export] Instance TextKey_eq_dec : EqDecision TextKey.
Proof. solve_decision. Defined.

#[export] Instance TextKey_MiniscriptKey : MiniscriptKey TextKey := {|
  Sha256T := N; Hash256T := N; Ripemd160T := N; Hash160T := N;
  is_uncompressed _ := false;
  is_x_only_key _ := false;
  key_to_string '(TKey n) := String "K" (num_to_string n);
|}.

Definition num_from_str (s : string) : string + N :=
  match digits_value 0 s with Some n => inr n | None => inl "not a number"%string end.

Definition zero_hash : hash_n 20 := MkHash (n := 20) (repeat x00 20) eq_refl.

#[export] Instance TextKey_FromStrKey : FromStrKey TextKey := {|
  pk_from_str s :=
    match s with
    | String c s =>
        if Ascii.eqb c "K" then
          match num_from_str s with inr n => inr (TKey n) | inl e => inl e end
        else inl "not a key"%string
    | EmptyString => inl "not a key"%string
    end;
  sha256_from_str := num_from_str;
  hash256_from_str := num_from_str;
  ripemd160_from_str := num_from_str;
  hash160_from_str := num_from_str;
  pkh_from_str _ := inr zero_hash;
  sha256_to_string := num_to_string;
  hash256_to_string := num_to_string;
  ripemd160_to_string := num_to_string;
  hash160_to_string := num_to_string;
  pkh_to_string _ := "0"%string;
  abs_lock_time_to_string := num_to_string;
  sequence_to_string := num_to_string;
|}.

Lemma num_from_to n : num_from_str (num_to_string n) = inr n.
Proof. unfold num_from_str. by rewrite num_to_string_value. Qed.

#[export] Instance TextKey_FromStrKeyOk : FromStrKeyOk TextKey.
Proof.
  split; try done; try (intros; apply num_from_to); try (intros; apply num_text).
  - intros [n]. cbn [pk_from_str key_to_string TextKey_FromStrKey TextKey_MiniscriptKey].
    rewrite Ascii.eqb_refl. by rewrite num_from_to.
  - intros [n]. destruct (num_text n) as [Hp Hc]. cbn [key_to_string TextKey_MiniscriptKey]. split.
    + change (plain_char "K" && plain (num_to_string n) = true). by rewrite Hp.
    + change (char_in INPUT_CHARSET "K" && str_forallb (char_in INPUT_CHARSET) (num_to_string n) = true).
      by rewrite Hc.
Qed.

#[export] Instance demo_ValidChars : ValidChars :=
  λ s, if str_forallb (char_in INPUT_CHARSET) s then Ok tt else Err (BtcError s).

#[export] Instance demo_ValidCharsOk : ValidCharsOk.
Proof. split; unfold check_valid_chars, demo_ValidChars; [by intros s ->|intros s; by case_match]. Qed.

(** ** A script with aliases, wrappers, a constant and a time lock *)

Definition sample_text : string :=
  "andor(pk(K1),or_d(pk(K3),and_v(v:pkh(K4),older(144))),and_v(vc:pk_k(K2),after(1000)))".

Definition sample_parsed (s : string) : result Error (Miniscript TextKey NoExt) :=
  from_str_ext Segwitv0 s ExtParams_sane.

(** [Display] prefers the alias. *)
Lemma sample_display :
  (let? ms := sample_parsed sample_text in Ok (display_ms ms))
  = Ok "andor(pk(K1),or_d(pk(K3),and_v(v:pkh(K4),older(144))),and_v(v:pk(K2),after(1000)))"%string.
Proof. vm_compute. reflexivity. Qed.

Lemma from_str_display_witness :
  match sample_parsed sample_text with
  | Ok ms => sample_parsed (display_ms ms) = Ok ms
  | _ => False
  end.
Proof.
  assert (is_ok (sample_parsed sample_text) = true) as Hok by (vm_compute; reflexivity).
  destruct (sample_parsed sample_text) as [ms| |] eqn:Hs; [|discriminate Hok..].
  exact (from_str_display Segwitv0 sample_text ExtParams_sane ms eq_refl Hs).
Defined.

Lemma tree_from_str_lossless_witness :
  match Tree_from_str sample_text with
  | Ok t => show "(" ")" t = sample_text ∧ depth t ≤ MAX_RECURSION_DEPTH
  | _ => False
  end.
Proof.
  pose proof (tree_from_str_lossless sample_text) as Hl.
  assert (is_ok (Tree_from_str sample_text) = true) as Hok by (vm_compute; reflexivity).
  destruct (Tree_from_str sample_text); [exact Hl|discriminate Hok..].
Defined.

Lemma from_str_ext_sound_witness :
  match sample_parsed sample_text with
  | Ok ms => well_typed Segwitv0 ms ∧ all_nodes (node_allowed Segwitv0) ms ∧
             size_within Segwitv0 (ext ms) ∧
             ext_check Segwitv0 ExtParams_sane ms = Ok tt ∧ base (corr (ty ms)) = B
  | _ => False
  end.
Proof.
  pose proof (from_str_ext_sound (Pk := TextKey) (Ext := NoExt) Segwitv0 sample_text ExtParams_sane) as Hs.
  assert (is_ok (sample_parsed sample_text) = true) as Hok by (vm_compute; reflexivity).
  unfold sample_parsed in *. destruct (from_str_ext Segwitv0 sample_text ExtParams_sane);
    [exact Hs|discriminate Hok..].
Defined.

(** A bare key hash under [c:] is printed as [expr_raw_pkh], which is parsed without the
    [c:]: the result is of type K, and not accepted at the top. *)
Definition raw_ms : Miniscript TextKey NoExt :=
  build Segwitv0 (Check (build Segwitv0 (RawPkH zero_hash))).

Lemma raw_pkh_display :
  base (corr (ty raw_ms)) = B ∧
  ext_check Segwitv0 ExtParams_allow_all raw_ms = Ok tt ∧
  from_str_ext Segwitv0 (display_ms raw_ms) ExtParams_allow_all = Err NonTopLevel.
Proof. split_and!; vm_compute; reflexivity. Qed.

(** ** Policies *)

Definition sample_semantic : string :=
  "or(and(pk(K1),thresh(2,pk(K2),sha256(5),older(12))),after(100))".

Lemma semantic_from_str_display_witness :
  match SemanticText.from_str (Pk := TextKey) sample_semantic with
  | Ok p => SemanticTextProps.readable p ∧ SemanticText.from_str (SemanticText.display p) = Ok p
  | _ => False
  end.
Proof.
  pose proof (SemanticTextProps.semantic_from_str_display (Pk := TextKey) sample_semantic) as Hs.
  assert (is_ok (SemanticText.from_str (Pk := TextKey) sample_semantic) = true) as Hok
    by (vm_compute; reflexivity).
  destruct (SemanticText.from_str sample_semantic); [exact Hs|discriminate Hok..].
Defined.

Definition sample_concrete : string :=
  "or(3@and(pk(K1),older(10)),thresh(2,pk(K2),hash160(7),after(5)))".

(** The odds are printed, those that were left out too. *)
Lemma sample_concrete_display :
  (let? p := ConcreteText.from_str (Pk := TextKey) sample_concrete in Ok (ConcreteText.display p))
  = Ok "or(3@and(pk(K1),older(10)),1@thresh(2,pk(K2),hash160(7),after(5)))"%string.
Proof. vm_compute. reflexivity. Qed.

Lemma concrete_from_str_display_witness :
  match ConcreteText.from_str (Pk := TextKey) sample_concrete with
  | Ok p => ConcreteTextProps.readable p ∧ Concrete.check_timelocks p = Ok tt ∧
            ConcreteText.from_str (ConcreteText.display p) = Ok p
  | _ => False
  end.
Proof.
  pose proof (ConcreteTextProps.concrete_from_str_display (Pk := TextKey) sample_concrete) as Hs.
  assert (is_ok (ConcreteText.from_str (Pk := TextKey) sample_concrete) = true) as Hok
    by (vm_compute; reflexivity).
  destruct (ConcreteText.from_str sample_concrete); [exact Hs|discriminate Hok..].
Defined.

(** Two [@] in a name are reported as two colons. *)
Lemma multi_at_colon :
  ConcreteText.from_str (Pk := TextKey) "or(1@2@pk(K1),pk(K2))" = Err (MultiColon "1@2@pk").
Proof. vm_compute. reflexivity. Qed.

(** ** Checksums: a descriptor of the test vectors *)

Definition sample_desc : string :=
  "elwpkh(tprv8ZgxMBicQKsPdpkqS7Eair4YxjcuuvDPNYmKX3sCniCf16tHEVrjjiSXEkFRnUH77yXc6ZcwHHcLNfjdi5qUvw3VDfgYiH5mNsj5izuiu2N/1/2/*)".

Lemma sample_checksum : desc_checksum sample_desc = Ok "hkvr2vkj"%string.
Proof. vm_compute. reflexivity. Qed.

Definition sample_formatter : Formatter :=
  (write_all (Formatter_new EmptyString false) ["elwpkh("%string; "K1"%string; ")"%string]).1.

Lemma formatter_verifies_witness :
  verify_checksum (fmt (write_checksum_if_not_alt sample_formatter)) = Ok "elwpkh(K1)"%string.
Proof.
  apply (formatter_verifies ["elwpkh("%string; "K1"%string; ")"%string] sample_formatter);
    vm_compute; reflexivity.
Defined.

Lemma substitution_detected_witness :
  ∃ sum expected, desc_checksum "elwpkh(K1)" = Ok sum ∧
    verify_checksum ("elwpkh(K2)#" +:+ sum) = Err (invalid_checksum sum expected).
Proof.
  apply (substitution_detected "elwpkh(K" "2"%char "1"%char ")"); [vm_compute; reflexivity..|].
  intros He. discriminate He.
Defined.
