(* ===== verification/ScriptPubkey.v ===== *)
(** * Script templates and the keys of the crate

    The script types of an output as the [elements] crate makes and recognizes them, the
    conversion between scripts and bytes, and the keys [bitcoin::PublicKey] and
    [XOnlyPublicKey] as Miniscript keys: interfaces with the documented behaviour as
    laws.  [is_v1_p2tr] of [src/src/util.rs] and [ParseableKey] of
    [src/src/miniscript/decode.rs] are defined on them. *)

From S2P Require Import Prelude Types Extension Property Ast Tokens Context ScriptNum Script Encoding Lex Decode DecodeLoop DecodeSound Interp Satisfy SatShape.

(** ** Scripts as bytes, and the templates of the [elements] crate *)

Class ScriptTemplates `{Signatures} `{!ScriptBuilder} : Type := {
  #[global] Script_eq_dec :: EqDecision Script;
  script_new : Script;
  script_from : bytes → Script;
  new_p2pkh : hash_n 20 → Script;
  new_v0_wpkh : hash_n 20 → Script;
  new_v0_wsh : hash_n 32 → Script;
  new_p2sh : hash_n 20 → Script;
  to_v0_p2wsh : Script → Script;
  to_p2sh : Script → Script;
  (** [Address::p2pkh(pk, ..).script_pubkey()] and [Address::p2wpkh(pk, ..).script_pubkey()] *)
  address_p2pkh : PublicKey → Script;
  address_p2wpkh : PublicKey → Script;
  is_p2pk : Script → bool;
  is_p2pkh : Script → bool;
  is_v0_p2wpkh : Script → bool;
  is_v0_p2wsh : Script → bool;
  is_p2sh : Script → bool;
  (** the consensus encoding of a script, and [EcdsaSighashType::as_u32] *)
  serialize_script : Script → bytes;
  sighash_as_u32 : EcdsaSighashType → N;
  (** the field [compressed] of a key, and [key.inner.serialize()] *)
  compressed : PublicKey → bool;
  secp_serialize : PublicKey → bytes;
  ControlBlock : Type;
  ControlBlock_from_slice : bytes → option ControlBlock;
  verify_taproot_commitment : ControlBlock → XOnlyPublicKey → Script → bool;
}.

(** The bytes [prefix], [n] bytes, [suffix]. *)
Definition template (prefix : bytes) (n : nat) (suffix : bytes) (b : bytes) : bool :=
  (length b =? length prefix + n + length suffix)
  && bool_decide (take (length prefix) b = prefix)
  && bool_decide (drop (length prefix + n) b = suffix).

Definition p2pkh_prefix : bytes := [Byte.x76; Byte.xa9; Byte.x14].
Definition p2pkh_suffix : bytes := [Byte.x88; Byte.xac].

Class ScriptTemplatesOk `{ScriptTemplates} : Prop := {
  (** a script is its bytes *)
  script_bytes_inj s1 s2 : script_bytes s1 = script_bytes s2 → s1 = s2;
  script_from_bytes b : script_bytes (script_from b) = b;
  script_new_bytes : script_bytes script_new = [];
  script_bytes_instrs s l : instructions_minimal s = Ok <$> l → script_bytes s = instrs_bytes l;
  new_p2pkh_bytes h : script_bytes (new_p2pkh h) = p2pkh_prefix ++ hash_bytes h ++ p2pkh_suffix;
  new_v0_wpkh_bytes h : script_bytes (new_v0_wpkh h) = [Byte.x00; Byte.x14] ++ hash_bytes h;
  new_v0_wsh_bytes h : script_bytes (new_v0_wsh h) = [Byte.x00; Byte.x20] ++ hash_bytes h;
  new_p2sh_bytes h : script_bytes (new_p2sh h) = [Byte.xa9; Byte.x14] ++ hash_bytes h ++ [Byte.x87];
  to_v0_p2wsh_hash s : to_v0_p2wsh s = new_v0_wsh (sha256_hash (script_bytes s));
  to_p2sh_hash s : to_p2sh s = new_p2sh (hash160_hash (script_bytes s));
  address_p2pkh_hash k : address_p2pkh k = new_p2pkh (hash160_hash (pubkey_bytes k));
  address_p2wpkh_hash k : address_p2wpkh k = new_v0_wpkh (hash160_hash (pubkey_bytes k));
  is_p2pk_template s : is_p2pk s =
    template [Byte.x21] 33 [Byte.xac] (script_bytes s) || template [Byte.x41] 65 [Byte.xac] (script_bytes s);
  is_p2pkh_template s : is_p2pkh s = template p2pkh_prefix 20 p2pkh_suffix (script_bytes s);
  is_v0_p2wpkh_template s : is_v0_p2wpkh s = template [Byte.x00; Byte.x14] 20 [] (script_bytes s);
  is_v0_p2wsh_template s : is_v0_p2wsh s = template [Byte.x00; Byte.x20] 32 [] (script_bytes s);
  is_p2sh_template s : is_p2sh s = template [Byte.xa9; Byte.x14] 20 [Byte.x87] (script_bytes s);
  serialize_der_short s : length (serialize_der s) ≤ 72;
  compressed_length k : length (pubkey_bytes k) = if compressed k then 33 else 65;
  PublicKey_of_slice b k : PublicKey_from_slice b = Some k → pubkey_bytes k = b;
  XOnly_of_slice b k : XOnly_from_slice b = Some k → xonly_serialize k = b;
  xonly_serialize_length k : length (xonly_serialize k) = 32;
  serialize_script_short s : length (script_bytes s) < 253 →
    serialize_script s = byte_of_N (N.of_nat (length (script_bytes s))) :: script_bytes s;
  sighash_as_u32_u8 t : sighash_as_u32 t = Byte.to_N (sighash_as_u8 t);
  serialize_outpoint_length o : length (serialize_outpoint o) = 36;
  serialize_value_length v :
    match v with
    | Null => serialize_value v = [Byte.x00]
    | Explicit _ => length (serialize_value v) = 9
    | Commitment _ => length (serialize_value v) = 33
    end;
  pubkey_hash_hash k : pubkey_hash k = hash160_hash (pubkey_bytes k);
  PubkeyHash_hash_hash b : PubkeyHash_hash b = hash160_hash b;
  (** numbers have at most four bytes *)
  read_scriptint_long b v : read_scriptint b = Ok v → length b ≤ 4;
}.

(** [is_v1_p2tr]: OP_PUSHNUM_1 and OP_PUSHBYTES_32. *)
Definition is_v1_p2tr `{ScriptBuilder} (script : Script) : bool :=
  let b := script_bytes script in
  (length b =? 34) && bool_decide (b !! 0 = Some Byte.x51) && bool_decide (b !! 1 = Some Byte.x20).

(** ** The keys of the crate

    [impl MiniscriptKey] and [impl ToPublicKey] for them are in [bitcoin_miniscript]:
    their hash types are the hashes. *)
Class ScriptKeys `{Signatures} : Type := {
  #[global] full_key :: MiniscriptKey PublicKey;
  #[global] full_to_public_key :: ToPublicKey PublicKey;
  #[global] xonly_key :: MiniscriptKey XOnlyPublicKey;
  #[global] xonly_to_public_key :: ToPublicKey XOnlyPublicKey;
  full_sha256 : hash_n 32 → Sha256T (Pk := PublicKey);
  full_hash256 : hash_n 32 → Hash256T (Pk := PublicKey);
  full_ripemd160 : hash_n 20 → Ripemd160T (Pk := PublicKey);
  full_hash160 : hash_n 20 → Hash160T (Pk := PublicKey);
  xonly_sha256 : hash_n 32 → Sha256T (Pk := XOnlyPublicKey);
  xonly_hash256 : hash_n 32 → Hash256T (Pk := XOnlyPublicKey);
  xonly_ripemd160 : hash_n 20 → Ripemd160T (Pk := XOnlyPublicKey);
  xonly_hash160 : hash_n 20 → Hash160T (Pk := XOnlyPublicKey);
  #[global] PublicKey_eq_dec :: EqDecision PublicKey;
  #[global] XOnlyPublicKey_eq_dec :: EqDecision XOnlyPublicKey;
}.

Section keys.
Context `{Signatures} `{!ScriptKeys}.

#[global] Instance PublicKey_ParseableKey : ParseableKey PublicKey := {|
  from_slice sl := ok_or FullKeyParseError (PublicKey_from_slice sl);
  of_sha256 := full_sha256;
  of_hash256 := full_hash256;
  of_ripemd160 := full_ripemd160;
  of_hash160 := full_hash160;
|}.

#[global] Instance XOnlyPublicKey_ParseableKey : ParseableKey XOnlyPublicKey := {|
  from_slice sl := ok_or XonlyKeyParseError (XOnly_from_slice sl);
  of_sha256 := xonly_sha256;
  of_hash256 := xonly_hash256;
  of_ripemd160 := xonly_ripemd160;
  of_hash160 := xonly_hash160;
|}.
End keys.

Class ScriptKeysOk `{ScriptTemplates} `{!ScriptKeys} : Prop := {
  full_public_key (k : PublicKey) : to_public_key k = k;
  full_uncompressed (k : PublicKey) : is_uncompressed k = negb (compressed k);
  full_x_only (k : PublicKey) : is_x_only_key k = false;
  full_sha256_to h : to_sha256 (Pk := PublicKey) (full_sha256 h) = h;
  full_hash256_to h : to_hash256 (Pk := PublicKey) (full_hash256 h) = h;
  full_ripemd160_to h : to_ripemd160 (Pk := PublicKey) (full_ripemd160 h) = h;
  full_hash160_to h : to_hash160 (Pk := PublicKey) (full_hash160 h) = h;
  to_full_sha256 h : full_sha256 (to_sha256 (Pk := PublicKey) h) = h;
  to_full_hash256 h : full_hash256 (to_hash256 (Pk := PublicKey) h) = h;
  to_full_ripemd160 h : full_ripemd160 (to_ripemd160 (Pk := PublicKey) h) = h;
  to_full_hash160 h : full_hash160 (to_hash160 (Pk := PublicKey) h) = h;
  xonly_x_only_key (k : XOnlyPublicKey) : to_x_only_pubkey k = k;
  xonly_uncompressed (k : XOnlyPublicKey) : is_uncompressed k = false;
  xonly_compressed (k : XOnlyPublicKey) : compressed (to_public_key k) = true;
  xonly_sha256_to h : to_sha256 (Pk := XOnlyPublicKey) (xonly_sha256 h) = h;
  xonly_hash256_to h : to_hash256 (Pk := XOnlyPublicKey) (xonly_hash256 h) = h;
  xonly_ripemd160_to h : to_ripemd160 (Pk := XOnlyPublicKey) (xonly_ripemd160 h) = h;
  xonly_hash160_to h : to_hash160 (Pk := XOnlyPublicKey) (xonly_hash160 h) = h;
  to_xonly_sha256 h : xonly_sha256 (to_sha256 (Pk := XOnlyPublicKey) h) = h;
  to_xonly_hash256 h : xonly_hash256 (to_hash256 (Pk := XOnlyPublicKey) h) = h;
  to_xonly_ripemd160 h : xonly_ripemd160 (to_ripemd160 (Pk := XOnlyPublicKey) h) = h;
  to_xonly_hash160 h : xonly_hash160 (to_hash160 (Pk := XOnlyPublicKey) h) = h;
}.

Section keys_ok.
Context `{ScriptTemplates} `{!ScriptTemplatesOk} `{!ScriptKeys} `{!ScriptKeysOk}.

#[global] Instance PublicKey_ToPublicKeyOk : ToPublicKeyOk PublicKey.
Proof.
  split.
  - intros k. rewrite full_public_key, compressed_length, full_uncompressed. by destruct (compressed k).
  - intros k. apply xonly_serialize_length.
Qed.

#[global] Instance PublicKey_ParseableKeyOk ctx : sig_type ctx = Ecdsa → ParseableKeyOk ctx PublicKey.
Proof.
  intros Hc. split; cbn [from_slice of_sha256 of_hash256 of_ripemd160 of_hash160 PublicKey_ParseableKey].
  - intros b k. destruct (PublicKey_from_slice b) as [k'|] eqn:Hb; [|done]. intros [= <-].
    unfold key_push. rewrite Hc, full_public_key. by apply PublicKey_of_slice.
  - intros b. by destruct (PublicKey_from_slice b).
  - apply full_sha256_to.
  - apply full_hash256_to.
  - apply full_ripemd160_to.
  - apply full_hash160_to.
  - apply to_full_sha256.
  - apply to_full_hash256.
  - apply to_full_ripemd160.
  - apply to_full_hash160.
Qed.

#[global] Instance XOnly_ToPublicKeyOk : ToPublicKeyOk XOnlyPublicKey.
Proof.
  split.
  - intros k. by rewrite compressed_length, xonly_compressed, xonly_uncompressed.
  - intros k. apply xonly_serialize_length.
Qed.

#[global] Instance XOnly_ParseableKeyOk ctx : sig_type ctx = Schnorr → ParseableKeyOk ctx XOnlyPublicKey.
Proof.
  intros Hc. split; cbn [from_slice of_sha256 of_hash256 of_ripemd160 of_hash160 XOnlyPublicKey_ParseableKey].
  - intros b k. destruct (XOnly_from_slice b) as [k'|] eqn:Hb; [|done]. intros [= <-].
    unfold key_push. rewrite Hc, xonly_x_only_key. by apply XOnly_of_slice.
  - intros b. by destruct (XOnly_from_slice b).
  - apply xonly_sha256_to.
  - apply xonly_hash256_to.
  - apply xonly_ripemd160_to.
  - apply xonly_hash160_to.
  - apply to_xonly_sha256.
  - apply to_xonly_hash256.
  - apply to_xonly_ripemd160.
  - apply to_xonly_hash160.
Qed.
End keys_ok.
