(* ===== verification/CsfsCov.v ===== *)
(** * Covenant descriptors: [src/src/descriptor/csfs_cov/]

    A covenant descriptor is a key and a Miniscript: its script runs the Miniscript and
    then checks that the twelve elements below its result are a signature, the sighash
    type and the items of the signature hash, signed with the key.  Modelled are the
    pieces of the script ([script_internals.rs]), the descriptor with its encoding, its
    parser and its satisfactions ([cov.rs]) and the satisfier of a transaction
    ([satisfy.rs]). *)

From S2P Require Import Prelude Types Extension Property Ast Iter Tokens Context ScriptNum Script Encoding Lex Decode DecodeLoop DecodeSound Parse Interp Satisfy SatShape ScriptPubkey.

(** ** [CovOperations] of [script_internals.rs] *)

Section internals.
Context `{ScriptBuilder}.

Definition chk_size (b : Builder) (len : N) : Builder :=
  push_opcode (push_int (push_opcode b OP_SIZE) (Z.of_N len)) OP_EQUALVERIFY.

(** A confidential amount: nine bytes when it begins with 1, else 33. *)
Definition chk_amt (b : Builder) : Builder :=
  let b := push_opcode b OP_DUP in
  let b := push_opcode (push_int b 1) OP_LEFT in
  let b := push_opcode (push_int b 1) OP_EQUAL in
  let b := push_opcode (push_int (push_opcode (push_opcode b OP_IF) OP_SIZE) 9) OP_EQUALVERIFY in
  push_opcode (push_opcode (push_int (push_opcode (push_opcode b OP_ELSE) OP_SIZE) 33) OP_EQUALVERIFY)
    OP_ENDIF.

Definition post_codesep_script (b : Builder) : Builder :=
  push_opcode (push_opcode b OP_CHECKSIGVERIFY) OP_CHECKSIGFROMSTACK.

(** [push_opcode(OP_CAT).push_opcode(OP_SWAP)] *)
Definition cat_swap (b : Builder) : Builder := push_opcode (push_opcode b OP_CAT) OP_SWAP.

Definition verify_cov (b : Builder) (key : PublicKey) : Builder :=
  let b := push_verify b in
  let b := push_opcode (push_int b 11) OP_PICK in
  let b := push_opcode (push_int b 11) OP_PICK in
  let b := push_opcode (push_int b 1) OP_LEFT in
  let b := push_opcode b OP_CAT in
  let b := push_opcode b OP_TOALTSTACK in
  let b := push_opcode (chk_size b 4) OP_SWAP in
  let b := cat_swap (chk_size b 32) in
  let b := cat_swap (chk_size b 32) in
  let b := cat_swap (chk_size b 32) in
  let b := cat_swap (chk_size b 36) in
  let b := cat_swap (chk_size b 3) in
  let b := cat_swap (chk_amt b) in
  let b := cat_swap (chk_size b 4) in
  let b := cat_swap (chk_size b 32) in
  let b := cat_swap (chk_size b 4) in
  let b := push_opcode (chk_size b 4) OP_CAT in
  let b := push_opcode b OP_SHA256 in
  let b := push_opcode (push_key b key) OP_DUP in
  let b := push_opcode (push_opcode b OP_FROMALTSTACK) OP_SWAP in
  let b := push_opcode b OP_CODESEPARATOR in
  post_codesep_script b.
End internals.

Definition COV_SCRIPT_SIZE : nat := 120.
Definition COV_SCRIPT_OPCODE_COST : N := 74.

(** ** [LegacyCSFSCov] *)

Record LegacyCSFSCov (Pk Ext : Type) `{MiniscriptKey Pk} : Type := MkCov {
  cov_pk : Pk;
  cov_ms : Miniscript Pk Ext;
}.
Arguments MkCov {Pk Ext _}.
Arguments cov_pk {Pk Ext _}.
Arguments cov_ms {Pk Ext _}.

Section cov.
Context {Pk : Type} `{MiniscriptKey Pk} `{EqDecision Pk} `{Signatures} `{!ToPublicKey Pk} `{!ScriptBuilder}.
Context `{!LeafHashes} `{!ScriptTemplates} {Ext : Type} `{!Extension Ext} `{!ParseableExt Ext} `{!SatisfyExt Ext}.
Implicit Types (ms : Miniscript Pk Ext) (self : LegacyCSFSCov Pk Ext).

(** The byte that a Miniscript saves whose last opcode merges with VERIFY. *)
Definition free_verify ms : nat := if has_free_verify (ext ms) then 1 else 0.

(** [LegacyCSFSCov::new] *)
Definition cov_new (pk : Pk) ms : result Error (LegacyCSFSCov Pk Ext) :=
  let? ms_op_count := ok_or ImpossibleSatisfactionErr (ExtraProps.op_count (ops (ext ms))) in
  let total_ops := (N.of_nat ms_op_count + COV_SCRIPT_OPCODE_COST - N.of_nat (free_verify ms))%N in
  if (MAX_OPS_PER_SCRIPT <? total_ops)%N then Err ImpossibleSatisfactionErr
  else
    let ss := COV_SCRIPT_SIZE - free_verify ms in
    let? size := script_size Segwitv0 ms in
    if gtN (size + ss) MAX_SCRIPT_SIZE then Err ScriptSizeTooLarge else Ok (MkCov pk ms).

Definition cov_encode self : result Error Script :=
  let? b := push_astelem Segwitv0 (cov_ms self) builder_new in
  Ok (into_script (verify_cov b (to_public_key (cov_pk self)))).

Definition cov_script_code : Script := into_script (post_codesep_script builder_new).

Definition cov_sanity_check self : result Error unit :=
  let? _ := map_err AnalysisErr (sanity_check Segwitv0 (cov_ms self)) in
  let ss := COV_SCRIPT_SIZE - free_verify (cov_ms self) in
  let? size := script_size Segwitv0 (cov_ms self) in
  if gtN (size + ss) MAX_STANDARD_P2WSH_SCRIPT_SIZE then Err ScriptSizeTooLarge else Ok tt.

(** *** Satisfactions *)

(** [serialize] of a [u32], and [hash256_arr]: the double hash of the encodings. *)
Definition serialize_u32 (n : N) : bytes := le_bytes 4 n.
Definition hash256_arr (outs : list TxOut) : hash_n 32 := hash256_hash (concat (map serialize_txout outs)).

Definition sighash_item {A} (i : nat) (o : option A) : result Error A :=
  ok_or (CovErr (MissingSighashItem i)) o.

(** The first twelve elements of the witness. *)
Definition cov_items self (s : Satisfier Pk) : result Error (list bytes) :=
  let? n_version := sighash_item 1 (lookup_nversion s) in
  let? hash_prevouts := sighash_item 1 (lookup_hashprevouts s) in
  let? hash_sequence := sighash_item 3 (lookup_hashsequence s) in
  let? hash_issuances := sighash_item 3 (lookup_hashissuances s) in
  let? outpoint := sighash_item 4 (lookup_outpoint s) in
  let? script_code := sighash_item 5 (lookup_scriptcode s) in
  let? value := sighash_item 6 (lookup_value s) in
  let? n_sequence := sighash_item 7 (lookup_nsequence s) in
  let? outputs := sighash_item 8 (lookup_outputs s) in
  let hash_outputs := hash256_arr outputs in
  let? n_locktime := sighash_item 9 (lookup_nlocktime s) in
  let? sighash_ty := sighash_item 10 (lookup_sighashu32 s) in
  let? (sig, hash_ty) := ok_or (CovErr MissingCovSignature) (lookup_ecdsa_sig s (cov_pk self)) in
  if negb (sighash_ty =? sighash_as_u32 hash_ty)%N then Err (CovErr CovenantSighashTypeMismatch)
  else
    Ok [serialize_der sig;
        serialize_u32 sighash_ty;
        serialize_u32 n_locktime;
        hash_bytes hash_outputs;
        serialize_u32 n_sequence;
        serialize_value value;
        serialize_script script_code;
        serialize_outpoint outpoint;
        hash_bytes hash_issuances;
        hash_bytes hash_sequence;
        hash_bytes hash_prevouts;
        serialize_u32 n_version].

(** [LegacyCSFSCov::satisfy] *)
Definition cov_satisfy self (s : Satisfier Pk) (allow_mall : bool) : result Error (list bytes) :=
  let? wit := cov_items self s in
  let? ms_wit := if negb allow_mall then ms_satisfy Segwitv0 s (cov_ms self)
                 else ms_satisfy_malleable Segwitv0 s (cov_ms self) in
  Ok (wit ++ ms_wit).

(** [get_satisfaction] and [get_satisfaction_mall] *)
Definition cov_get_satisfaction self (s : Satisfier Pk) (allow_mall : bool)
    : result Error (list bytes * Script) :=
  let? witness := cov_satisfy self s allow_mall in
  let? script := cov_encode self in
  Ok (witness ++ [script_bytes script], script_new).

Definition cov_script_pubkey self : result Error Script :=
  let? script := cov_encode self in Ok (to_v0_p2wsh script).

Definition cov_max_satisfaction_weight self : result Error nat :=
  let? size := script_size Segwitv0 (cov_ms self) in
  let script_size := size + 58 - free_verify (cov_ms self) in
  let? elems := max_satisfaction_witness_elements (cov_ms self) in
  let max_sat_elems := elems + 12 in
  let? sat := max_satisfaction_size Segwitv0 (cov_ms self) in
  let max_sat_size := sat + 275 in
  Ok (4 + varint_len script_size + script_size + varint_len max_sat_elems + max_sat_size).
End cov.

(** ** Parsing a covenant script *)

Section parse.
Context `{Signatures} `{!ScriptBuilder} `{!ScriptKeys} `{LockTimes}.
Context {Ext : Type} `{!Extension Ext} `{!ParseableExt Ext}.

(** The tokens of [verify_cov], in the order of the script: those after the key, those
    before it. *)
Definition size_toks (len : N) : list Token := [TkSize; TkNum len; TkEqual; TkVerify].
Definition amt_toks : list Token :=
  [TkDup; TkNum 1; TkLeft; TkNum 1; TkEqual; TkIf] ++ size_toks 9 ++ [TkElse] ++ size_toks 33 ++ [TkEndIf].
Definition cov_toks_before : list Token :=
  [TkVerify; TkNum 11; TkPick; TkNum 11; TkPick; TkNum 1; TkLeft; TkCat; TkToAltStack]
  ++ size_toks 4 ++ [TkSwap]
  ++ size_toks 32 ++ [TkCat; TkSwap]
  ++ size_toks 32 ++ [TkCat; TkSwap]
  ++ size_toks 32 ++ [TkCat; TkSwap]
  ++ size_toks 36 ++ [TkCat; TkSwap]
  ++ size_toks 3 ++ [TkCat; TkSwap]
  ++ amt_toks ++ [TkCat; TkSwap]
  ++ size_toks 4 ++ [TkCat; TkSwap]
  ++ size_toks 32 ++ [TkCat; TkSwap]
  ++ size_toks 4 ++ [TkCat; TkSwap]
  ++ size_toks 4 ++ [TkCat; TkSha256].
Definition cov_toks_after : list Token :=
  [TkDup; TkFromAltStack; TkSwap; TkCodeSep; TkCheckSig; TkVerify; TkCheckSigFromStack].

(** [check_cov_script]: the tokens are read from the end; the first one decides
    between the two arms of [match_token!]. *)
Definition check_cov_script (tokens : TokenIter) : result Error (PublicKey * TokenIter) :=
  match tokens with
  | [] => Err UnexpectedStart
  | TkCheckSigFromStack :: _ =>
      let? tokens := match_tokens (rev cov_toks_after) tokens in
      match tokens with
      | TkBytes33 pk :: tokens =>
          let? tokens := match_tokens (rev cov_toks_before) tokens in
          let? pk := ok_or BadPubkeySlice (PublicKey_from_slice pk) in
          Ok (pk, tokens)
      | tokens => Err (unexpected tokens)
      end
  | _ => Err (CovErr BadCovDescriptor)
  end.

(** [None] is the decoder out of fuel. *)
Definition parse_cov_components (script : Script) : option (result Error (PublicKey * Miniscript PublicKey Ext)) :=
  match (let? tokens := lex script in check_cov_script (TokenIter_new tokens)) with
  | Ok (pk, iter) =>
      match parse (Pk := PublicKey) Segwitv0 iter with
      | Some r =>
          Some (
            let? (ms, iter) := r in
            let? _ := map_err ContextError (check_global_validity Segwitv0 ms) in
            if negb (bool_decide (base (corr (ty ms)) = B)) then Err NonTopLevel
            else
              match next_token iter with
              | (Some leading, _) => Err (Trailing leading)
              | (None, _) => Ok (pk, ms)
              end)
      | None => None
      end
  | Err e => Some (Err e)
  | Panic => Some Panic
  end.

Definition cov_parse_insane (script : Script) : option (result Error (LegacyCSFSCov PublicKey Ext)) :=
  match parse_cov_components script with
  | Some r => Some (let? (pk, ms) := r in cov_new pk ms)
  | None => None
  end.

Definition cov_parse (script : Script) : option (result Error (LegacyCSFSCov PublicKey Ext)) :=
  match cov_parse_insane script with
  | Some r =>
      Some (let? cov := r in
            let? _ := map_err AnalysisErr (sanity_check Segwitv0 (cov_ms cov)) in
            Ok cov)
  | None => None
  end.
End parse.
