(* ===== verification/TxData.v ===== *)
(** * What a transaction input is: [from_txdata] of [src/src/interpreter/inner.rs]

    From the spent output, the scriptSig and the witness: the key or the Miniscript that
    is executed, the stack it is executed on, and the script code that is signed. *)

From S2P Require Import Prelude Types Extension Property Ast Iter Tokens Context ScriptNum Script Encoding Lex Decode DecodeLoop DecodeSound Parse Interp Satisfy SatShape ScriptPubkey CsfsCov.

(** ** Stack elements of a script: [Element::from_instruction] of [stack.rs] *)

Section elements.
Context `{Signatures} `{!ScriptBuilder}.

Definition from_instruction (ins : result ScriptError Instruction) : result InterpError Element :=
  match ins with
  | Ok (PushBytes v) => Ok (element_of v)
  | Ok (Op OP_PUSHNUM_1) => Ok Satisfied
  | Panic => Panic
  | _ => Err ExpectedPush
  end.

(** The elements a scriptSig pushes, the last one on top. *)
Definition script_sig_stack (script_sig : Script) : result InterpError Stack :=
  let? elems := try_map from_instruction (instructions_minimal script_sig) in
  Ok (rev elems).

End elements.

Section from_txdata.
Context `{Signatures} `{!ScriptBuilder} `{!LeafHashes} `{!ScriptTemplates} `{!ScriptKeys} `{LockTimes}.
Context {Ext : Type} `{!Extension Ext} `{!ParseableExt Ext}.

Definition pk_from_slice (slice : bytes) (require_compressed : bool) : result InterpError PublicKey :=
  match PublicKey_from_slice slice with
  | Some pk => if require_compressed && negb (compressed pk) then Err UncompressedPubkey else Ok pk
  | None => Err PubkeyParseError
  end.

Definition pk_from_stack_elem (elem : Element) (require_compressed : bool) : result InterpError PublicKey :=
  match elem with
  | Push slice => pk_from_slice slice require_compressed
  | _ => Err PubkeyParseError
  end.

(** The decoder has enough fuel ([parse_terminates]). *)
Definition fueled {A} (r : option (result Error A)) : result InterpError A :=
  match r with Some r => map_err MiniscriptErr r | None => Panic end.

Definition script_from_stack_elem {K : Type} `{MiniscriptKey K} `{!EqDecision K} `{!ParseableKey K}
    (ctx : ScriptContext) (elem : Element) : result InterpError (Miniscript K Ext) :=
  match elem with
  | Push sl => fueled (parse_with_ext ctx (script_from sl) ExtParams_allow_all)
  | Satisfied => map_err (λ e, MiniscriptErr (TypeCheck e)) (from_ast ctx TTrue)
  | Dissatisfied => map_err (λ e, MiniscriptErr (TypeCheck e)) (from_ast ctx TFalse)
  end.

(** [Miniscript::encode], which panics where the model of it does. *)
Definition encoded {K : Type} `{MiniscriptKey K} `{!ToPublicKey K} (ctx : ScriptContext)
    (ms : Miniscript K Ext) : result InterpError Script :=
  map_err MiniscriptErr (encode ctx ms).
Definition no_checks_of {K : Type} `{MiniscriptKey K} `{!ToPublicKey K} (ctx : ScriptContext)
    (ms : Miniscript K Ext) : result InterpError (Miniscript BitcoinKey Ext) :=
  map_err MiniscriptErr (to_no_checks_ms ctx ms).

(** [.ok()?] forgets the error of a script that is no covenant. *)
Definition cov_components_from_stackelem (elem : Element)
    : result InterpError (option (BitcoinKey * Miniscript BitcoinKey Ext)) :=
  match elem with
  | Push sl =>
      match fueled (parse_cov_components (script_from sl)) with
      | Ok (pk, ms) => let? ms := no_checks_of Segwitv0 ms in Ok (Some (Fullkey pk, ms))
      | Err _ => Ok None
      | Panic => Panic
      end
  | _ => Ok None
  end.

(** ** The types of outputs

    One definition per branch; [stk] is the stack of the branch, whose top is the key or
    the script that opens the hash. *)

Definition txdata : Type := Inner Ext * Stack * option Script.

Definition txdata_p2pk (spk : Script) (ssig_stack wit_stack : Stack) : result InterpError txdata :=
  match wit_stack with
  | _ :: _ => Err NonEmptyWitness
  | [] =>
      let b := script_bytes spk in
      let? pk := pk_from_slice (take (length b - 2) (drop 1 b)) false in
      Ok (InPublicKey (Fullkey pk) PtPk, ssig_stack, Some spk)
  end.

Definition txdata_p2pkh (spk : Script) (ssig_stack wit_stack : Stack) : result InterpError txdata :=
  match wit_stack, ssig_stack with
  | _ :: _, _ => Err NonEmptyWitness
  | [], elem :: ssig_stack =>
      let? pk := pk_from_stack_elem elem false in
      if bool_decide (spk = new_p2pkh (PublicKey_to_pubkeyhash pk Ecdsa))
      then Ok (InPublicKey (Fullkey pk) PtPkh, ssig_stack, Some spk)
      else Err IncorrectPubkeyHash
  | [], [] => Err UnexpectedStackEnd
  end.

Definition txdata_p2wpkh (spk : Script) (ssig_stack wit_stack : Stack) : result InterpError txdata :=
  match ssig_stack, wit_stack with
  | _ :: _, _ => Err NonEmptyScriptSig
  | [], elem :: wit_stack =>
      let? pk := pk_from_stack_elem elem true in
      let hash160 := PublicKey_to_pubkeyhash pk Ecdsa in
      if bool_decide (spk = new_v0_wpkh hash160)
      then Ok (InPublicKey (Fullkey pk) PtWpkh, wit_stack, Some (new_p2pkh hash160))
      else Err IncorrectWPubkeyHash
  | [], [] => Err UnexpectedStackEnd
  end.

Definition txdata_p2wsh (spk : Script) (ssig_stack wit_stack : Stack) : result InterpError txdata :=
  match ssig_stack, wit_stack with
  | _ :: _, _ => Err NonEmptyScriptSig
  | [], elem :: wit_stack =>
      let? cov := cov_components_from_stackelem elem in
      match cov with
      | Some (pk, ms) =>
          let script_code := into_script (post_codesep_script builder_new) in
          Ok (InCovScript pk ms, wit_stack, Some script_code)
      | None =>
          let? miniscript := script_from_stack_elem (K := PublicKey) Segwitv0 elem in
          let? script := encoded Segwitv0 miniscript in
          let? miniscript := no_checks_of Segwitv0 miniscript in
          let scripthash := sha256_hash (script_bytes script) in
          if bool_decide (spk = new_v0_wsh scripthash)
          then Ok (InScript miniscript StWsh, wit_stack, Some script)
          else Err IncorrectWScriptHash
      end
  | [], [] => Err UnexpectedStackEnd
  end.

(** Whether the witness ends in an annex. *)
Definition TAPROOT_ANNEX_PREFIX : Byte.byte := Byte.x50.
Definition has_annex (wit_stack : Stack) : bool :=
  match wit_stack with
  | Push (x :: _) :: _ => bool_decide (x = TAPROOT_ANNEX_PREFIX)
  | _ => false
  end && (2 <=? length wit_stack).

Definition txdata_p2tr (spk : Script) (ssig_stack wit_stack : Stack) : result InterpError txdata :=
  match ssig_stack with
  | _ :: _ => Err NonEmptyScriptSig
  | [] =>
      let? output_key := ok_or XOnlyPublicKeyParseError (XOnly_from_slice (drop 2 (script_bytes spk))) in
      if has_annex wit_stack then Err TapAnnexUnsupported
      else
        match wit_stack with
        | [] => Err UnexpectedStackEnd
        | [_] => Ok (InPublicKey (XOnlyKey output_key) PtTr, wit_stack, None)
        | ctrl_blk :: tap_script :: wit_stack =>
            let? ctrl_blk := as_push ctrl_blk in
            let? ctrl_blk := ok_or ControlBlockParse (ControlBlock_from_slice ctrl_blk) in
            let? tap_script := script_from_stack_elem (K := XOnlyPublicKey) Tap tap_script in
            let? ms := no_checks_of Tap tap_script in
            let? tap_script := encoded Tap tap_script in
            if verify_taproot_commitment ctrl_blk output_key tap_script
            then Ok (InScript ms StTr, wit_stack, Some tap_script)
            else Err ControlBlockVerificationError
        end
  end.

(** A key or a script of a witness program in a P2SH output. *)
Definition txdata_sh_wpkh (slice : bytes) (ssig_stack wit_stack : Stack) : result InterpError txdata :=
  match wit_stack with
  | elem :: wit_stack =>
      match ssig_stack with
      | _ :: _ => Err NonEmptyScriptSig
      | [] =>
          let? pk := pk_from_stack_elem elem true in
          let hash160 := PublicKey_to_pubkeyhash pk Ecdsa in
          if bool_decide (slice = script_bytes (new_v0_wpkh hash160))
          then Ok (InPublicKey (Fullkey pk) PtShWpkh, wit_stack, Some (new_p2pkh hash160))
          else Err IncorrectWScriptHash
      end
  | [] => Err UnexpectedStackEnd
  end.

Definition txdata_sh_wsh (slice : bytes) (ssig_stack wit_stack : Stack) : result InterpError txdata :=
  match wit_stack with
  | elem :: wit_stack =>
      match ssig_stack with
      | _ :: _ => Err NonEmptyScriptSig
      | [] =>
          let? miniscript := script_from_stack_elem (K := PublicKey) Segwitv0 elem in
          let? script := encoded Segwitv0 miniscript in
          let? miniscript := no_checks_of Segwitv0 miniscript in
          let scripthash := sha256_hash (script_bytes script) in
          if bool_decide (slice = script_bytes (new_v0_wsh scripthash))
          then Ok (InScript miniscript StShWsh, wit_stack, Some script)
          else Err IncorrectWScriptHash
      end
  | [] => Err UnexpectedStackEnd
  end.

(** Any other redeem script. *)
Definition txdata_sh_script (spk : Script) (elem : Element) (ssig_stack wit_stack : Stack)
    : result InterpError txdata :=
  let? miniscript := script_from_stack_elem (K := PublicKey) Legacy elem in
  let? script := encoded Legacy miniscript in
  let? miniscript := no_checks_of Legacy miniscript in
  match wit_stack with
  | _ :: _ => Err NonEmptyWitness
  | [] =>
      let scripthash := hash160_hash (script_bytes script) in
      if bool_decide (spk = new_p2sh scripthash)
      then Ok (InScript miniscript StSh, ssig_stack, Some script)
      else Err IncorrectScriptHash
  end.

(** The bytes [0] and [n] of a witness program of [n] bytes. *)
Definition is_program (n : Byte.byte) (len : nat) (slice : bytes) : bool :=
  (length slice =? len) && bool_decide (slice !! 0 = Some Byte.x00) && bool_decide (slice !! 1 = Some n).

Definition txdata_p2sh (spk : Script) (ssig_stack wit_stack : Stack) : result InterpError txdata :=
  match ssig_stack with
  | elem :: ssig_stack =>
      match elem with
      | Push slice =>
          let scripthash := hash160_hash slice in
          if negb (bool_decide (spk = new_p2sh scripthash)) then Err IncorrectScriptHash
          else if is_program Byte.x14 22 slice then txdata_sh_wpkh slice ssig_stack wit_stack
          else if is_program Byte.x20 34 slice then txdata_sh_wsh slice ssig_stack wit_stack
          else txdata_sh_script spk elem ssig_stack wit_stack
      | _ => txdata_sh_script spk elem ssig_stack wit_stack
      end
  | [] => Err UnexpectedStackEnd
  end.

Definition txdata_bare (spk : Script) (ssig_stack wit_stack : Stack) : result InterpError txdata :=
  match wit_stack with
  | [] =>
      let? miniscript := fueled (parse_with_ext (Pk := PublicKey) BareCtx spk ExtParams_allow_all) in
      let? miniscript := no_checks_of BareCtx miniscript in
      Ok (InScript miniscript StBare, ssig_stack, Some spk)
  | _ :: _ => Err NonEmptyWitness
  end.

(** [from_txdata] *)
Definition from_txdata (spk script_sig : Script) (witness : list bytes) : result InterpError txdata :=
  let? ssig_stack := script_sig_stack script_sig in
  let wit_stack := Stack_of witness in
  if is_p2pk spk then txdata_p2pk spk ssig_stack wit_stack
  else if is_p2pkh spk then txdata_p2pkh spk ssig_stack wit_stack
  else if is_v0_p2wpkh spk then txdata_p2wpkh spk ssig_stack wit_stack
  else if is_v0_p2wsh spk then txdata_p2wsh spk ssig_stack wit_stack
  else if is_v1_p2tr spk then txdata_p2tr spk ssig_stack wit_stack
  else if is_p2sh spk then txdata_p2sh spk ssig_stack wit_stack
  else txdata_bare spk ssig_stack wit_stack.
End from_txdata.
