(* ===== verification/Outputs.v ===== *)
(** * Descriptors before Taproot: [src/src/descriptor/] [sortedmulti.rs], [bare.rs],
      [segwitv0.rs] and [sh.rs]

    A descriptor is a key or a Miniscript with the kind of output that holds it.  The
    structures with a single field are their field; the two functions
    [get_satisfaction] and [get_satisfaction_mall] are one with a flag. *)

From S2P Require Import Prelude Types Extension Property Ast Iter Tokens Context ScriptNum Script Encoding Lex Lift Interp Satisfy ScriptPubkey.
From S2P Require Semantic.
From stdpp Require Import strings.
From S2P Require ExtraProps.

(** ** [SortedMultiVec] *)

Record SortedMultiVec (Pk : Type) : Type := MkSmv {
  smv_k : nat;
  smv_pks : list Pk;
}.
Arguments MkSmv {Pk}.
Arguments smv_k {Pk}.
Arguments smv_pks {Pk}.

(** The lexicographic order of byte arrays. *)
Fixpoint bytes_cmp (a b : bytes) : comparison :=
  match a, b with
  | [], [] => Eq
  | [], _ => Lt
  | _, [] => Gt
  | x :: a, y :: b =>
      match N.compare (Byte.to_N x) (Byte.to_N y) with Eq => bytes_cmp a b | c => c end
  end.

Section sortedmulti.
Context {Pk : Type} `{MiniscriptKey Pk} `{EqDecision Pk} `{Signatures} `{!ToPublicKey Pk} `{!ScriptBuilder}.
Context `{!LeafHashes} `{!ScriptTemplates} `{LockTimes}.
Context (ctx : ScriptContext).
Implicit Types self : SortedMultiVec Pk.

(** [SortedMultiVec::new] *)
Definition smv_new (k : nat) (pks : list Pk) : result Error (SortedMultiVec Pk) :=
  if MAX_PUBKEYS_PER_MULTISIG <? length pks then Err (BadDescriptor "Too many public keys")
  else
    let term : Terminal Pk NoExt := Multi k pks in
    let? ms := map_err TypeCheck (from_ast ctx term) in
    let? _ := map_err ContextError (check_local_validity ctx ms) in
    Ok (MkSmv k pks).

(** [.expect("Must typecheck")] *)
Definition multi_node (k : nat) (pks : list Pk) : result Error (Miniscript Pk NoExt) :=
  match from_ast ctx (Multi k pks) with Ok ms => Ok ms | _ => Panic end.

Definition smv_sanity_check self : result Error unit :=
  let? ms := multi_node (smv_k self) (smv_pks self) in
  map_err AnalysisErr (sanity_check ctx ms).

(** [SortedMultiVec::sorted_node]: its keys. *)
Definition key_cmp (a b : Pk) : comparison :=
  bytes_cmp (secp_serialize (to_public_key a)) (secp_serialize (to_public_key b)).
Definition sorted_pks self : list Pk := ExtraProps.sort_by key_cmp (smv_pks self).

Definition smv_encode self : result Error Script :=
  let? b := push_multi ctx builder_new (smv_k self) (sorted_pks self) in Ok (into_script b).

Definition smv_satisfy self (satisfier : Satisfier Pk) : result Error (list bytes) :=
  let? ms := multi_node (smv_k self) (sorted_pks self) in
  ms_satisfy ctx satisfier ms.

Definition smv_script_size self : result Error nat :=
  let? pks := sum_pk_len ctx (smv_pks self) in
  Ok (ExtraProps.script_num_size (N.of_nat (smv_k self)) + 1
      + ExtraProps.script_num_size (N.of_nat (length (smv_pks self))) + pks).

Definition smv_max_satisfaction_witness_elements self : nat := 2 + smv_k self.
Definition smv_max_satisfaction_size self : nat := 1 + 73 * smv_k self.

Definition smv_lift self : Semantic.Policy Pk :=
  Semantic.Threshold (smv_k self) (map Semantic.Key (smv_pks self)).
End sortedmulti.

(** ** Descriptors of one key: [Pkh] and [Wpkh] *)

Section single_key.
Context {Pk : Type} `{MiniscriptKey Pk} `{EqDecision Pk} `{Signatures} `{!ToPublicKey Pk} `{!ScriptBuilder}.
Context `{!LeafHashes} `{!ScriptTemplates}.
Implicit Types (pk : Pk) (satisfier : Satisfier Pk).

Definition pkh_max_weight_to_satisfy pk : result Error nat :=
  let? len := pk_len BareCtx pk in
  let scriptsig_size := 73 + len in
  let scriptsig_varint_diff := varint_len scriptsig_size - varint_len 0 in
  Ok (4 * (scriptsig_varint_diff + scriptsig_size)).

Definition pkh_max_satisfaction_weight pk : result Error nat :=
  let? len := pk_len BareCtx pk in Ok (4 * (1 + 73 + len)).

Definition pkh_script_pubkey pk : Script := address_p2pkh (to_public_key pk).

Definition pkh_get_satisfaction pk satisfier : result Error (list bytes * Script) :=
  match lookup_ecdsa_sig satisfier pk with
  | Some sig =>
      let sig_vec := elementssig_to_rawsig sig in
      let script_sig := into_script (push_key (push_slice builder_new sig_vec) (to_public_key pk)) in
      Ok ([], script_sig)
  | None => Err (MissingSig (pubkey_bytes (to_public_key pk)))
  end.

(** [Wpkh::new] *)
Definition wpkh_new pk : result Error Pk :=
  if is_uncompressed pk then Err (ContextError (CompressedOnly (key_to_string pk))) else Ok pk.

Definition wpkh_sanity_check pk : result Error unit :=
  if is_uncompressed pk then Err (ContextError (CompressedOnly (key_to_string pk))) else Ok tt.

Definition wpkh_max_weight_to_satisfy pk : result Error nat :=
  let? len := pk_len Segwitv0 pk in
  let stack_items_size := 73 + len in
  let stack_varint_diff := varint_len 2 - varint_len 0 in
  Ok (stack_varint_diff + stack_items_size).

Definition wpkh_max_satisfaction_weight pk : result Error nat :=
  let? len := pk_len Segwitv0 pk in Ok (4 + 1 + 73 + len).

Definition wpkh_script_pubkey pk : Script := address_p2wpkh (to_public_key pk).
Definition wpkh_ecdsa_sighash_script_code pk : Script := address_p2pkh (to_public_key pk).

Definition wpkh_get_satisfaction pk satisfier : result Error (list bytes * Script) :=
  match lookup_ecdsa_sig satisfier pk with
  | Some sig => Ok ([elementssig_to_rawsig sig; pubkey_bytes (to_public_key pk)], script_new)
  | None => Err (MissingSig (pubkey_bytes (to_public_key pk)))
  end.
End single_key.

(** ** Descriptors of Miniscripts *)

(** [WshInner] and [ShInner]. *)
Inductive Wsh (Pk : Type) `{MiniscriptKey Pk} : Type :=
  | WshSortedMulti (smv : SortedMultiVec Pk)
  | WshMs (ms : Miniscript Pk NoExt).
Arguments WshSortedMulti {Pk _}.
Arguments WshMs {Pk _}.

Inductive Sh (Pk : Type) `{MiniscriptKey Pk} : Type :=
  | ShWsh (wsh : Wsh Pk)
  | ShWpkh (pk : Pk)
  | ShSortedMulti (smv : SortedMultiVec Pk)
  | ShMs (ms : Miniscript Pk NoExt).
Arguments ShWsh {Pk _}.
Arguments ShWpkh {Pk _}.
Arguments ShSortedMulti {Pk _}.
Arguments ShMs {Pk _}.

Section outputs.
Context {Pk : Type} `{MiniscriptKey Pk} `{EqDecision Pk} `{Signatures} `{!ToPublicKey Pk} `{!ScriptBuilder}.
Context `{!LeafHashes} `{!ScriptTemplates} `{LockTimes}.
Implicit Types (ms : Miniscript Pk NoExt) (satisfier : Satisfier Pk) (wsh : Wsh Pk) (sh : Sh Pk).

(** [satisfy], or [satisfy_malleable]. *)
Definition ms_satisfy_as (ctx : ScriptContext) (allow_mall : bool) satisfier ms : result Error (list bytes) :=
  if allow_mall then ms_satisfy_malleable ctx satisfier ms else ms_satisfy ctx satisfier ms.

(** *** [Bare] *)

Definition bare_new ms : result Error (Miniscript Pk NoExt) :=
  let? _ := top_level_checks BareCtx ms in Ok ms.

Definition bare_sanity_check ms : result Error unit := map_err AnalysisErr (sanity_check BareCtx ms).

Definition bare_max_weight_to_satisfy ms : result Error nat :=
  let? scriptsig_size := max_satisfaction_size BareCtx ms in
  let scriptsig_varint_diff := varint_len scriptsig_size - varint_len 0 in
  Ok (4 * (scriptsig_varint_diff + scriptsig_size)).

Definition bare_max_satisfaction_weight ms : result Error nat :=
  let? scriptsig_len := max_satisfaction_size BareCtx ms in
  Ok (4 * (varint_len scriptsig_len + scriptsig_len)).

Definition bare_script_pubkey ms : result Error Script := encode BareCtx ms.

Definition bare_get_satisfaction (allow_mall : bool) ms satisfier : result Error (list bytes * Script) :=
  let? wit := ms_satisfy_as BareCtx allow_mall satisfier ms in
  Ok ([], witness_to_scriptsig wit).

(** *** [Wsh] *)

Definition wsh_new ms : result Error (Wsh Pk) :=
  let? _ := top_level_checks Segwitv0 ms in Ok (WshMs ms).

Definition wsh_new_sortedmulti (k : nat) (pks : list Pk) : result Error (Wsh Pk) :=
  let? smv := smv_new Segwitv0 k pks in Ok (WshSortedMulti smv).

Definition wsh_sanity_check wsh : result Error unit :=
  match wsh with
  | WshSortedMulti smv => smv_sanity_check Segwitv0 smv
  | WshMs ms => map_err AnalysisErr (sanity_check Segwitv0 ms)
  end.

(** The size of the script, the number of elements and the size of a satisfaction. *)
Definition wsh_sizes wsh : result Error (nat * nat * nat) :=
  match wsh with
  | WshSortedMulti smv =>
      let? size := smv_script_size Segwitv0 smv in
      Ok (size, smv_max_satisfaction_witness_elements smv, smv_max_satisfaction_size smv)
  | WshMs ms =>
      let? size := script_size Segwitv0 ms in
      let? max_sat_elems := max_satisfaction_witness_elements ms in
      let? max_sat_size := max_satisfaction_size Segwitv0 ms in
      Ok (size, max_sat_elems, max_sat_size)
  end.

Definition wsh_max_weight_to_satisfy wsh : result Error nat :=
  let? (redeem_script_size, max_sat_elems, max_sat_size) := wsh_sizes wsh in
  let stack_varint_diff := varint_len max_sat_elems - varint_len 0 in
  Ok (stack_varint_diff + varint_len redeem_script_size + redeem_script_size + max_sat_size).

Definition wsh_max_satisfaction_weight wsh : result Error nat :=
  let? (script_size, max_sat_elems, max_sat_size) := wsh_sizes wsh in
  Ok (4 + varint_len script_size + script_size + varint_len max_sat_elems + max_sat_size).

Definition wsh_inner_script wsh : result Error Script :=
  match wsh with
  | WshSortedMulti smv => smv_encode Segwitv0 smv
  | WshMs ms => encode Segwitv0 ms
  end.

Definition wsh_script_pubkey wsh : result Error Script :=
  let? script := wsh_inner_script wsh in Ok (to_v0_p2wsh script).

Definition wsh_ecdsa_sighash_script_code wsh : result Error Script := wsh_inner_script wsh.

(** Sorted multisigs are satisfied without malleability in either case. *)
Definition wsh_get_satisfaction (allow_mall : bool) wsh satisfier : result Error (list bytes * Script) :=
  let? witness := match wsh with
                  | WshSortedMulti smv => smv_satisfy Segwitv0 smv satisfier
                  | WshMs ms => ms_satisfy_as Segwitv0 allow_mall satisfier ms
                  end in
  let? witness_script := wsh_inner_script wsh in
  Ok (witness ++ [script_bytes witness_script], script_new).

(** *** [Sh] *)

Definition sh_new ms : result Error (Sh Pk) :=
  let? _ := top_level_checks Legacy ms in Ok (ShMs ms).

Definition sh_new_sortedmulti (k : nat) (pks : list Pk) : result Error (Sh Pk) :=
  let? smv := smv_new Legacy k pks in Ok (ShSortedMulti smv).

Definition sh_new_wsh ms : result Error (Sh Pk) := let? wsh := wsh_new ms in Ok (ShWsh wsh).
Definition sh_new_with_wsh wsh : Sh Pk := ShWsh wsh.
Definition sh_new_wsh_sortedmulti (k : nat) (pks : list Pk) : result Error (Sh Pk) :=
  let? wsh := wsh_new_sortedmulti k pks in Ok (ShWsh wsh).
Definition sh_new_wpkh (pk : Pk) : result Error (Sh Pk) := let? pk := wpkh_new pk in Ok (ShWpkh pk).
Definition sh_new_with_wpkh (wpkh : Pk) : Sh Pk := ShWpkh wpkh.

Definition sh_sanity_check sh : result Error unit :=
  match sh with
  | ShWsh wsh => wsh_sanity_check wsh
  | ShWpkh wpkh => wpkh_sanity_check wpkh
  | ShSortedMulti smv => smv_sanity_check Legacy smv
  | ShMs ms => map_err AnalysisErr (sanity_check Legacy ms)
  end.

Definition sh_max_weight_to_satisfy sh : result Error nat :=
  let? (scriptsig_size, witness_size) :=
    match sh with
    | ShWsh wsh =>
        let scriptsig_size := 1 + 1 + 1 + 32 in
        let? witness_size := wsh_max_weight_to_satisfy wsh in
        Ok (scriptsig_size, witness_size)
    | ShSortedMulti smv =>
        let? ss := smv_script_size Legacy smv in
        let ps := push_opcode_size ss in
        Ok (ps + ss + smv_max_satisfaction_size smv, 0)
    | ShWpkh wpkh =>
        let scriptsig_size := 1 + 1 + 1 + 20 in
        let? witness_size := wpkh_max_weight_to_satisfy wpkh in
        Ok (scriptsig_size, witness_size)
    | ShMs ms =>
        let? ss := script_size Legacy ms in
        let ps := push_opcode_size ss in
        let? sat := max_satisfaction_size Legacy ms in
        Ok (ps + ss + sat, 0)
    end in
  let scriptsig_varint_diff := varint_len scriptsig_size - varint_len 0 in
  Ok (4 * (scriptsig_varint_diff + scriptsig_size) + witness_size).

Definition sh_max_satisfaction_weight sh : result Error nat :=
  match sh with
  | ShWsh wsh => let? w := wsh_max_satisfaction_weight wsh in Ok (4 * 35 + w)
  | ShSortedMulti smv =>
      let? ss := smv_script_size Legacy smv in
      let ps := push_opcode_size ss in
      let scriptsig_len := ps + ss + smv_max_satisfaction_size smv in
      Ok (4 * (varint_len scriptsig_len + scriptsig_len))
  | ShWpkh wpkh => let? w := wpkh_max_satisfaction_weight wpkh in Ok (4 * 23 + w)
  | ShMs ms =>
      let? ss := script_size Legacy ms in
      let ps := push_opcode_size ss in
      let? sat := max_satisfaction_size Legacy ms in
      let scriptsig_len := ps + ss + sat in
      Ok (4 * (varint_len scriptsig_len + scriptsig_len))
  end.

Definition sh_script_pubkey sh : result Error Script :=
  match sh with
  | ShWsh wsh => let? spk := wsh_script_pubkey wsh in Ok (to_p2sh spk)
  | ShWpkh wpkh => Ok (to_p2sh (wpkh_script_pubkey wpkh))
  | ShSortedMulti smv => let? script := smv_encode Legacy smv in Ok (to_p2sh script)
  | ShMs ms => let? script := encode Legacy ms in Ok (to_p2sh script)
  end.

Definition sh_inner_script sh : result Error Script :=
  match sh with
  | ShWsh wsh => wsh_inner_script wsh
  | ShWpkh wpkh => Ok (wpkh_script_pubkey wpkh)
  | ShSortedMulti smv => smv_encode Legacy smv
  | ShMs ms => encode Legacy ms
  end.

Definition sh_ecdsa_sighash_script_code sh : result Error Script :=
  match sh with
  | ShWsh wsh => wsh_ecdsa_sighash_script_code wsh
  | ShSortedMulti smv => smv_encode Legacy smv
  | ShWpkh wpkh => Ok (wpkh_ecdsa_sighash_script_code wpkh)
  | ShMs ms => encode Legacy ms
  end.

Definition push_script (script : Script) : Script := into_script (push_slice builder_new (script_bytes script)).

Definition sh_unsigned_script_sig sh : result Error Script :=
  match sh with
  | ShWsh wsh => let? witness_script := wsh_inner_script wsh in Ok (push_script (to_v0_p2wsh witness_script))
  | ShWpkh wpkh => Ok (push_script (wpkh_script_pubkey wpkh))
  | ShSortedMulti _ | ShMs _ => Ok script_new
  end.

Definition sh_get_satisfaction (allow_mall : bool) sh satisfier : result Error (list bytes * Script) :=
  let? script_sig := sh_unsigned_script_sig sh in
  match sh with
  | ShWsh wsh =>
      let? (witness, _) := wsh_get_satisfaction allow_mall wsh satisfier in Ok (witness, script_sig)
  | ShWpkh wpkh =>
      let? (witness, _) := wpkh_get_satisfaction wpkh satisfier in Ok (witness, script_sig)
  | ShSortedMulti smv =>
      let? script_witness := smv_satisfy Legacy smv satisfier in
      let? script := smv_encode Legacy smv in
      Ok ([], witness_to_scriptsig (script_witness ++ [script_bytes script]))
  | ShMs ms =>
      let? script_witness := ms_satisfy_as Legacy allow_mall satisfier ms in
      let? script := encode Legacy ms in
      Ok ([], witness_to_scriptsig (script_witness ++ [script_bytes script]))
  end.
End outputs.

(** ** Keys of a descriptor *)

Section keys.
Context {Pk : Type} `{MiniscriptKey Pk} {Ext : Type}.

(** [real_for_each_key] *)
Fixpoint real_for_each_key (pred : Pk → bool) (ms : Miniscript Pk Ext) : bool :=
  let '(MkMs t _ _) := ms in
  match t with
  | PkK p => pred p
  | PkH p => pred p
  | RawPkH _ | After _ | Older _ | Sha256 _ | Hash256 _ | Ripemd160 _ | Hash160 _ | TTrue | TFalse => true
  | Alt sub | Swap sub | Check sub | DupIf sub | Verify sub | NonZero sub | ZeroNotEqual sub =>
      real_for_each_key pred sub
  | AndV l r | AndB l r | OrB l r | OrD l r | OrC l r | OrI l r =>
      real_for_each_key pred l && real_for_each_key pred r
  | AndOr a b c => real_for_each_key pred a && real_for_each_key pred b && real_for_each_key pred c
  | Thresh _ subs => forallb (real_for_each_key pred) subs
  | Multi _ keys | MultiA _ keys => forallb pred keys
  | ExtT _ => true
  end.

(** [for_any_key], the default method of the trait. *)
Definition ms_for_any_key (pred : Pk → bool) (ms : Miniscript Pk Ext) : bool :=
  negb (real_for_each_key (λ pk, negb (pred pk)) ms).

Definition smv_for_each_key (pred : Pk → bool) (smv : SortedMultiVec Pk) : bool := forallb pred (smv_pks smv).
End keys.

Section translate.
Context {P Q E : Type} `{MiniscriptKey P} `{MiniscriptKey Q} `{LockTimes} (t : Translator P Q E).

Definition smv_translate_pk (smv : SortedMultiVec P) : result E (SortedMultiVec Q) :=
  let? pks := try_map (tr_pk t) (smv_pks smv) in Ok (MkSmv (smv_k smv) pks).

(** [.expect("Translation cannot fail inside Bare")] *)
Definition bare_translate_pk (ms : Miniscript P NoExt) : result E (Miniscript Q NoExt) :=
  let? ms := real_translate_pk t ms in
  match bare_new ms with Ok ms => Ok ms | _ => Panic end.

(** [.expect("Uncompressed keys in Wpkh")] *)
Definition wpkh_translate_pk (pk : P) : result E Q :=
  let? pk := tr_pk t pk in
  match wpkh_new pk with Ok pk => Ok pk | _ => Panic end.

Definition wsh_translate_pk (wsh : Wsh P) : result E (Wsh Q) :=
  match wsh with
  | WshSortedMulti smv => let? smv := smv_translate_pk smv in Ok (WshSortedMulti smv)
  | WshMs ms => let? ms := real_translate_pk t ms in Ok (WshMs ms)
  end.

Definition sh_translate_pk (sh : Sh P) : result E (Sh Q) :=
  match sh with
  | ShWsh wsh => let? wsh := wsh_translate_pk wsh in Ok (ShWsh wsh)
  | ShWpkh wpkh => let? pk := wpkh_translate_pk wpkh in Ok (ShWpkh pk)
  | ShSortedMulti smv => let? smv := smv_translate_pk smv in Ok (ShSortedMulti smv)
  | ShMs ms => let? ms := real_translate_pk t ms in Ok (ShMs ms)
  end.
End translate.
