(* ===== verification/Taproot.v ===== *)
(** * Taproot descriptors: [src/src/descriptor/tr.rs]

    An internal key and a tree of Miniscripts: the walk over the leaves, the cached
    spending information, the weights, and the choice of the cheapest leaf that the
    satisfier can satisfy.  The Taproot builder of the [elements] crate is a class. *)

From S2P Require Import Prelude Types Extension Property Ast Iter Tokens Context ScriptNum Script Encoding Lex Lift Interp Satisfy ScriptPubkey Outputs.
From S2P Require Semantic PolicyNormal.

(** ** The builder of the [elements] crate *)

(** [TaprootBuilder], [TaprootSpendInfo] and [ControlBlock], for the default version of
    leaves. *)
Class TaprootApi `{ScriptTemplates} : Type := {
  TaprootBuilder : Type;
  TaprootSpendInfo : Type;
  taproot_builder_new : TaprootBuilder;
  add_leaf : TaprootBuilder → nat → Script → option TaprootBuilder;
  finalize : TaprootBuilder → XOnlyPublicKey → option TaprootSpendInfo;
  new_key_spend : XOnlyPublicKey → TaprootSpendInfo;
  output_key : TaprootSpendInfo → XOnlyPublicKey;
  control_block : TaprootSpendInfo → Script → option ControlBlock;
  control_block_serialize : ControlBlock → bytes;
}.

Definition TAPROOT_CONTROL_BASE_SIZE : nat := 33.
Definition TAPROOT_CONTROL_NODE_SIZE : nat := 32.
Definition TAPROOT_CONTROL_MAX_NODE_COUNT : nat := 128.

(** ** [TapTree] *)

Inductive TapTree (Pk Ext : Type) `{MiniscriptKey Pk} : Type :=
  | TapNode (l r : TapTree Pk Ext)
  | TapLeaf (ms : Miniscript Pk Ext).
Arguments TapNode {Pk Ext _}.
Arguments TapLeaf {Pk Ext _}.

Section tree.
Context {Pk : Type} `{MiniscriptKey Pk} {Ext : Type}.
Implicit Types t : TapTree Pk Ext.

Fixpoint taptree_height t : nat :=
  match t with
  | TapNode left_tree right_tree => 1 + Nat.max (taptree_height left_tree) (taptree_height right_tree)
  | TapLeaf _ => 0
  end.

(** [TapTreeIter]: a stack of trees with their depths; its [next] pops until it finds a
    leaf. *)
Definition TapTreeIter : Type := list (nat * TapTree Pk Ext).

Fixpoint TapTreeIter_next (fuel : nat) (stack : TapTreeIter) : option (nat * Miniscript Pk Ext) * TapTreeIter :=
  match fuel with
  | O => (None, stack)
  | S fuel =>
      match stack with
      | [] => (None, [])
      | (depth, TapNode l r) :: stack => TapTreeIter_next fuel ((depth + 1, l) :: (depth + 1, r) :: stack)
      | (depth, TapLeaf ms) :: stack => (Some (depth, ms), stack)
      end
  end.

(** The leaves of a loop over the iterator: [fuel] bounds the calls and each of them. *)
Fixpoint TapTreeIter_collect (calls fuel : nat) (stack : TapTreeIter) : list (nat * Miniscript Pk Ext) :=
  match calls with
  | O => []
  | S calls =>
      match TapTreeIter_next fuel stack with
      | (Some leaf, stack) => leaf :: TapTreeIter_collect calls fuel stack
      | (None, _) => []
      end
  end.

Fixpoint taptree_size t : nat :=
  match t with TapNode l r => 1 + taptree_size l + taptree_size r | TapLeaf _ => 1 end.

(** [TapTree::iter] *)
Definition taptree_iter t : list (nat * Miniscript Pk Ext) :=
  TapTreeIter_collect (taptree_size t) (taptree_size t) [(0, t)].
End tree.
Arguments TapTreeIter Pk {_} Ext.

(** ** [Tr] *)

Record Tr (Pk Ext : Type) `{MiniscriptKey Pk} `{TaprootApi} : Type := MkTr {
  internal_key : Pk;
  taptree : option (TapTree Pk Ext);
  (** the content of the mutex *)
  cached_spend_info : option TaprootSpendInfo;
}.
Arguments MkTr {Pk Ext _ _ _ _ _ _}.
Arguments internal_key {Pk Ext _ _ _ _ _ _}.
Arguments taptree {Pk Ext _ _ _ _ _ _}.
Arguments cached_spend_info {Pk Ext _ _ _ _ _ _}.

Section tr.
Context {Pk : Type} `{MiniscriptKey Pk} `{EqDecision Pk} `{Signatures} `{!ToPublicKey Pk} `{!ScriptBuilder}.
Context `{!ScriptTemplates} `{!TaprootApi} `{!LeafHashes} `{LockTimes}.
Context {Ext : Type} `{!Extension Ext} `{!ParseableExt Ext} `{!SatisfyExt Ext}.
Implicit Types (self : Tr Pk Ext) (ms : Miniscript Pk Ext) (satisfier : Satisfier Pk).

(** [Tr::new] *)
Definition tr_new (key : Pk) (tree : option (TapTree Pk Ext)) : result Error (Tr Pk Ext) :=
  let nodes := match tree with Some t => taptree_height t | None => 0 end in
  if nodes <=? TAPROOT_CONTROL_MAX_NODE_COUNT then Ok (MkTr key tree None)
  else Err MaxRecursiveDepthExceeded.

Definition iter_scripts self : list (nat * Miniscript Pk Ext) :=
  match taptree self with Some t => taptree_iter t | None => [] end.

(** [.expect("Computing spend data on a valid Tree should always succeed")] *)
Definition add_leaves (leaves : list (nat * Miniscript Pk Ext)) : result Error TaprootBuilder :=
  try_fold (λ builder '(depth, script),
    let? s := encode Tap script in
    match add_leaf builder depth s with Some builder => Ok builder | None => Panic end)
    taproot_builder_new leaves.

Definition compute_spend_info self : result Error TaprootSpendInfo :=
  let key := to_x_only_pubkey (internal_key self) in
  match taptree self with
  | None => Ok (new_key_spend key)
  | Some _ =>
      let? builder := add_leaves (iter_scripts self) in
      match finalize builder key with Some data => Ok data | None => Panic end
  end.

(** [Tr::spend_info], and the descriptor with its cache. *)
Definition spend_info self : result Error (TaprootSpendInfo * Tr Pk Ext) :=
  match cached_spend_info self with
  | Some data => Ok (data, self)
  | None =>
      let? data := compute_spend_info self in
      Ok (data, MkTr (internal_key self) (taptree self) (Some data))
  end.

Definition tr_sanity_check self : result Error unit :=
  let? _ := try_map (λ '(_, ms), map_err AnalysisErr (sanity_check Tap ms)) (iter_scripts self) in Ok tt.

(** *** Weights *)

Definition control_block_len (depth : nat) : nat := TAPROOT_CONTROL_BASE_SIZE + depth * TAPROOT_CONTROL_NODE_SIZE.

(** The maximum over the leaves that can be satisfied, of what [weight] gives for the
    number of elements and the size of a satisfaction, of the script and of the control
    block. *)
Definition max_over_leaves (weight : nat → nat → nat → nat → nat) (tree : TapTree Pk Ext) : result Error nat :=
  let? weights := try_map (λ '(depth, script),
    let? script_size := script_size Tap script in
    match max_satisfaction_witness_elements script, max_satisfaction_size Tap script with
    | Ok max_sat_elems, Ok max_sat_size =>
        Ok (Some (weight max_sat_elems max_sat_size script_size (control_block_len depth)))
    | Panic, _ | Ok _, Panic => Panic
    | _, _ => Ok None
    end) (taptree_iter tree) in
  match omap id weights with
  | [] => Err ImpossibleSatisfactionErr
  | w :: ws => Ok (fold_left Nat.max ws w)
  end.

Definition tr_max_weight_to_satisfy self : result Error nat :=
  match taptree self with
  | None =>
      let item_sig_size := 1 + 65 in
      let stack_varint_diff := varint_len 1 - varint_len 0 in
      Ok (stack_varint_diff + item_sig_size)
  | Some tree =>
      max_over_leaves (λ max_sat_elems max_sat_size script_size control_block_size,
        let stack_varint_diff := varint_len (max_sat_elems + 1) - varint_len 0 in
        stack_varint_diff + max_sat_size + varint_len script_size + script_size
        + varint_len control_block_size + control_block_size) tree
  end.

Definition tr_max_satisfaction_weight self : result Error nat :=
  match taptree self with
  | None => Ok (4 + 1 + 1 + 65)
  | Some tree =>
      max_over_leaves (λ max_sat_elems max_sat_size script_size control_block_size,
        4 + varint_len (max_sat_elems + 2) + max_sat_size + varint_len script_size + script_size
        + varint_len control_block_size + control_block_size) tree
  end.

(** *** Scripts and satisfactions *)

Definition tr_script_pubkey self : result Error Script :=
  let? (info, _) := spend_info self in
  Ok (into_script (push_slice (push_opcode builder_new OP_PUSHNUM_1) (xonly_serialize (output_key info)))).

(** One turn of the loop over the leaves; the witness found so far has its size. *)
Definition tap_step (info : TaprootSpendInfo) (allow_mall : bool) satisfier
    (min : option (list bytes * nat)) (leaf : nat * Miniscript Pk Ext)
    : result Error (option (list bytes * nat)) :=
  let '(depth, script) := leaf in
  match (if allow_mall then ms_satisfy_malleable Tap satisfier script else ms_satisfy Tap satisfier script) with
  | Panic => Panic
  | Err _ => Ok min
  | Ok wit =>
      let? size := script_size Tap script in
      let wit_size := witness_size wit + control_block_len depth + size + varint_len size in
      if match min with Some (_, min_wit_len) => min_wit_len <? wit_size | None => false end then Ok min
      else
        let? leaf_script := encode Tap script in
        match control_block info leaf_script with
        | None => Panic
        | Some control_block =>
            Ok (Some (wit ++ [script_bytes leaf_script] ++ [control_block_serialize control_block], wit_size))
        end
  end.

(** [best_tap_spend] *)
Definition best_tap_spend self satisfier (allow_mall : bool) : result Error (list bytes * Script) :=
  let? (info, _) := spend_info self in
  match lookup_tap_key_spend_sig satisfier with
  | Some sig => Ok ([schnorr_to_vec sig], script_new)
  | None =>
      let? min := try_fold (tap_step info allow_mall satisfier) None (iter_scripts self) in
      match min with
      | Some (wit, _) => Ok (wit, script_new)
      | None => Err CouldNotSatisfy
      end
  end.

(** *** Policies and keys *)

Fixpoint lift_helper (t : TapTree Pk Ext) : result Error (Semantic.Policy Pk) :=
  match t with
  | TapNode l r =>
      let? l := lift_helper l in
      let? r := lift_helper r in
      Ok (Semantic.Threshold 1 [l; r])
  | TapLeaf leaf => lift Tap leaf
  end.

Definition taptree_lift (t : TapTree Pk Ext) : result Error (Semantic.Policy Pk) :=
  let? pol := lift_helper t in Ok (Semantic.normalized pol).

Definition tr_lift self : result Error (Semantic.Policy Pk) :=
  match taptree self with
  | Some root =>
      let? root := taptree_lift root in
      Ok (Semantic.Threshold 1 [Semantic.Key (internal_key self); root])
  | None => Ok (Semantic.Key (internal_key self))
  end.

Definition tr_for_each_key (pred : Pk → bool) self : bool :=
  forallb (λ '(_, ms), real_for_each_key pred ms) (iter_scripts self) && pred (internal_key self).
End tr.

Section translate.
Context {P Q E : Type} `{MiniscriptKey P} `{MiniscriptKey Q} `{TaprootApi} {Ext : Type} (t : Translator P Q E).

Fixpoint translate_helper (tree : TapTree P Ext) : result E (TapTree Q Ext) :=
  match tree with
  | TapNode l r =>
      let? l := translate_helper l in
      let? r := translate_helper r in
      Ok (TapNode l r)
  | TapLeaf ms => let? ms := real_translate_pk t ms in Ok (TapLeaf ms)
  end.

Definition tr_translate_pk (self : Tr P Ext) : result E (Tr Q Ext) :=
  let? internal_key := tr_pk t (internal_key self) in
  let? tree := match taptree self with
               | Some tree => let? tree := translate_helper tree in Ok (Some tree)
               | None => Ok None
               end in
  Ok (MkTr internal_key tree None).
End translate.
