(* ===== verification/Descriptor.v ===== *)
(** * Descriptors: [src/src/descriptor/mod.rs], and lifting them ([src/src/policy/mod.rs])

    The enumeration of the kinds of outputs, whose operations dispatch to those of the
    kinds. *)

From S2P Require Import Prelude Types Extension Property Ast Iter Tokens Context ScriptNum Script Encoding Lex Lift Interp Satisfy ScriptPubkey CsfsCov Outputs Taproot.
From S2P Require Semantic.

(** The types of [DescriptorType]; those of pegins are not descriptors of this module. *)
Inductive DescriptorType : Type :=
  | TyBare | TySh | TyPkh | TyWpkh | TyWsh | TyShWsh | TyShWpkh | TyShSortedMulti
  | TyWshSortedMulti | TyShWshSortedMulti | TyLegacyPegin | TyPegin | TyCov | TyTr.

Inductive WitnessVersion : Type := V0 | V1.

(** [segwit_version] *)
Definition segwit_version (ty : DescriptorType) : option WitnessVersion :=
  match ty with
  | TyTr => Some V1
  | TyWpkh | TyShWpkh | TyWsh | TyShWsh | TyShWshSortedMulti | TyWshSortedMulti => Some V0
  | TyBare | TySh | TyPkh | TyShSortedMulti => None
  | TyLegacyPegin => Some V1
  | TyPegin => None
  | TyCov => None
  end.

Inductive Descriptor (Pk Ext : Type) `{MiniscriptKey Pk} `{TaprootApi} : Type :=
  | DBare (bare : Miniscript Pk NoExt)
  | DPkh (pkh : Pk)
  | DWpkh (wpkh : Pk)
  | DSh (sh : Sh Pk)
  | DWsh (wsh : Wsh Pk)
  | DTr (tr : Tr Pk NoExt)
  | DTrExt (tr : Tr Pk Ext)
  | DLegacyCSFSCov (cov : LegacyCSFSCov Pk Ext).
Arguments DBare {Pk Ext _ _ _ _ _ _}.
Arguments DPkh {Pk Ext _ _ _ _ _ _}.
Arguments DWpkh {Pk Ext _ _ _ _ _ _}.
Arguments DSh {Pk Ext _ _ _ _ _ _}.
Arguments DWsh {Pk Ext _ _ _ _ _ _}.
Arguments DTr {Pk Ext _ _ _ _ _ _}.
Arguments DTrExt {Pk Ext _ _ _ _ _ _}.
Arguments DLegacyCSFSCov {Pk Ext _ _ _ _ _ _}.

Section descriptor.
Context {Pk : Type} `{MiniscriptKey Pk} `{EqDecision Pk} `{Signatures} `{!ToPublicKey Pk} `{!ScriptBuilder}.
Context `{!ScriptTemplates} `{!TaprootApi} `{!LeafHashes} `{LockTimes}.
Context {Ext : Type} `{!Extension Ext} `{!ParseableExt Ext} `{!SatisfyExt Ext}.
Implicit Types (self : Descriptor Pk Ext) (ms : Miniscript Pk NoExt) (satisfier : Satisfier Pk).

(** ** Constructors *)

Definition expect {A E} (r : result E A) : result Error A := match r with Ok a => Ok a | _ => Panic end.

Definition new_pk (pk : Pk) : result Error (Descriptor Pk Ext) :=
  let? ms_pk := expect (from_ast BareCtx (PkK pk)) in
  let? ms := expect (from_ast BareCtx (Check ms_pk)) in
  let? bare := expect (bare_new ms) in
  Ok (DBare bare).

Definition new_pkh (pk : Pk) : Descriptor Pk Ext := DPkh pk.
Definition new_wpkh (pk : Pk) : result Error (Descriptor Pk Ext) := let? pk := wpkh_new pk in Ok (DWpkh pk).
Definition new_sh_wpkh (pk : Pk) : result Error (Descriptor Pk Ext) := let? sh := sh_new_wpkh pk in Ok (DSh sh).
Definition new_sh ms : result Error (Descriptor Pk Ext) := let? sh := sh_new ms in Ok (DSh sh).
Definition new_wsh ms : result Error (Descriptor Pk Ext) := let? wsh := wsh_new ms in Ok (DWsh wsh).
Definition new_sh_wsh ms : result Error (Descriptor Pk Ext) := let? sh := sh_new_wsh ms in Ok (DSh sh).
Definition new_bare ms : result Error (Descriptor Pk Ext) := let? bare := bare_new ms in Ok (DBare bare).
Definition new_sh_with_wpkh (wpkh : Pk) : Descriptor Pk Ext := DSh (sh_new_with_wpkh wpkh).
Definition new_sh_with_wsh (wsh : Wsh Pk) : Descriptor Pk Ext := DSh (sh_new_with_wsh wsh).
Definition new_sh_sortedmulti (k : nat) (pks : list Pk) : result Error (Descriptor Pk Ext) :=
  let? sh := sh_new_sortedmulti k pks in Ok (DSh sh).
Definition new_sh_wsh_sortedmulti (k : nat) (pks : list Pk) : result Error (Descriptor Pk Ext) :=
  let? sh := sh_new_wsh_sortedmulti k pks in Ok (DSh sh).
Definition new_wsh_sortedmulti (k : nat) (pks : list Pk) : result Error (Descriptor Pk Ext) :=
  let? wsh := wsh_new_sortedmulti k pks in Ok (DWsh wsh).
Definition new_tr (key : Pk) (script : option (TapTree Pk NoExt)) : result Error (Descriptor Pk Ext) :=
  let? tr := tr_new key script in Ok (DTr tr).
Definition new_tr_ext (key : Pk) (script : option (TapTree Pk Ext)) : result Error (Descriptor Pk Ext) :=
  let? tr := tr_new key script in Ok (DTrExt tr).
Definition new_cov_wsh (pk : Pk) (ms : Miniscript Pk Ext) : result Error (Descriptor Pk Ext) :=
  let? cov := cov_new pk ms in Ok (DLegacyCSFSCov cov).

Definition as_cov self : result Error (LegacyCSFSCov Pk Ext) :=
  match self with DLegacyCSFSCov cov => Ok cov | _ => Err (CovErr BadCovDescriptor) end.

(** ** Operations *)

Definition desc_type self : DescriptorType :=
  match self with
  | DBare _ => TyBare
  | DPkh _ => TyPkh
  | DWpkh _ => TyWpkh
  | DSh (ShWsh (WshSortedMulti _)) => TyShWshSortedMulti
  | DSh (ShWsh (WshMs _)) => TyShWsh
  | DSh (ShWpkh _) => TyShWpkh
  | DSh (ShSortedMulti _) => TyShSortedMulti
  | DSh (ShMs _) => TySh
  | DWsh (WshSortedMulti _) => TyWshSortedMulti
  | DWsh (WshMs _) => TyWsh
  | DLegacyCSFSCov _ => TyCov
  | DTr _ | DTrExt _ => TyTr
  end.

Definition desc_sanity_check self : result Error unit :=
  match self with
  | DBare bare => bare_sanity_check bare
  | DPkh _ => Ok tt
  | DWpkh wpkh => wpkh_sanity_check wpkh
  | DWsh wsh => wsh_sanity_check wsh
  | DSh sh => sh_sanity_check sh
  | DLegacyCSFSCov cov => cov_sanity_check cov
  | DTr tr => tr_sanity_check tr
  | DTrExt tr => tr_sanity_check tr
  end.

Definition max_weight_to_satisfy self : result Error nat :=
  match self with
  | DBare bare => bare_max_weight_to_satisfy bare
  | DPkh pkh => pkh_max_weight_to_satisfy pkh
  | DWpkh wpkh => wpkh_max_weight_to_satisfy wpkh
  | DWsh wsh => wsh_max_weight_to_satisfy wsh
  | DSh sh => sh_max_weight_to_satisfy sh
  | DTr tr => tr_max_weight_to_satisfy tr
  | DTrExt tr => tr_max_weight_to_satisfy tr
  | DLegacyCSFSCov csfs => cov_max_satisfaction_weight csfs
  end.

Definition max_satisfaction_weight self : result Error nat :=
  match self with
  | DBare bare => bare_max_satisfaction_weight bare
  | DPkh pkh => pkh_max_satisfaction_weight pkh
  | DWpkh wpkh => wpkh_max_satisfaction_weight wpkh
  | DWsh wsh => wsh_max_satisfaction_weight wsh
  | DSh sh => sh_max_satisfaction_weight sh
  | DLegacyCSFSCov cov => cov_max_satisfaction_weight cov
  | DTr tr => tr_max_satisfaction_weight tr
  | DTrExt tr => tr_max_satisfaction_weight tr
  end.

Definition script_pubkey self : result Error Script :=
  match self with
  | DBare bare => bare_script_pubkey bare
  | DPkh pkh => Ok (pkh_script_pubkey pkh)
  | DWpkh wpkh => Ok (wpkh_script_pubkey wpkh)
  | DWsh wsh => wsh_script_pubkey wsh
  | DSh sh => sh_script_pubkey sh
  | DLegacyCSFSCov cov => cov_script_pubkey cov
  | DTr tr => tr_script_pubkey tr
  | DTrExt tr => tr_script_pubkey tr
  end.

Definition unsigned_script_sig self : result Error Script :=
  match self with
  | DSh sh => sh_unsigned_script_sig sh
  | _ => Ok script_new
  end.

Definition explicit_script self : result Error Script :=
  match self with
  | DBare bare => bare_script_pubkey bare
  | DPkh pkh => Ok (pkh_script_pubkey pkh)
  | DWpkh wpkh => Ok (wpkh_script_pubkey wpkh)
  | DWsh wsh => wsh_inner_script wsh
  | DSh sh => sh_inner_script sh
  | DTr _ | DTrExt _ => Err TrNoScriptCode
  | DLegacyCSFSCov cov => cov_encode cov
  end.

Definition script_code self : result Error Script :=
  match self with
  | DBare bare => bare_script_pubkey bare
  | DPkh pkh => Ok (pkh_script_pubkey pkh)
  | DWpkh wpkh => Ok (wpkh_ecdsa_sighash_script_code wpkh)
  | DWsh wsh => wsh_ecdsa_sighash_script_code wsh
  | DSh sh => sh_ecdsa_sighash_script_code sh
  | DLegacyCSFSCov cov => cov_encode cov
  | DTr _ | DTrExt _ => Err TrNoScriptCode
  end.

(** [get_satisfaction], and [get_satisfaction_mall] *)
Definition get_satisfaction (allow_mall : bool) self satisfier : result Error (list bytes * Script) :=
  match self with
  | DBare bare => bare_get_satisfaction allow_mall bare satisfier
  | DPkh pkh => pkh_get_satisfaction pkh satisfier
  | DWpkh wpkh => wpkh_get_satisfaction wpkh satisfier
  | DWsh wsh => wsh_get_satisfaction allow_mall wsh satisfier
  | DSh sh => sh_get_satisfaction allow_mall sh satisfier
  | DLegacyCSFSCov cov => cov_get_satisfaction cov satisfier allow_mall
  | DTr tr => best_tap_spend tr satisfier allow_mall
  | DTrExt tr => best_tap_spend tr satisfier allow_mall
  end.

(** The fields of a [TxIn] that [Descriptor::satisfy] sets; an error leaves them. *)
Record TxInScripts : Type := MkTxIn {
  txin_script_witness : list bytes;
  txin_script_sig : Script;
}.

Definition desc_satisfy self (txin : TxInScripts) satisfier : TxInScripts * result Error unit :=
  match get_satisfaction false self satisfier with
  | Ok (witness, script_sig) => (MkTxIn witness script_sig, Ok tt)
  | Err e => (txin, Err e)
  | Panic => (txin, Panic)
  end.

(** [for_each_key]; that of a covenant descriptor asks for some key of its Miniscript. *)
Definition cov_for_each_key (pred : Pk → bool) (cov : LegacyCSFSCov Pk Ext) : bool :=
  pred (cov_pk cov) && ms_for_any_key pred (cov_ms cov).

Definition cov_for_any_key (pred : Pk → bool) (cov : LegacyCSFSCov Pk Ext) : bool :=
  negb (cov_for_each_key (λ pk, negb (pred pk)) cov).

Definition wsh_for_each_key (pred : Pk → bool) (wsh : Wsh Pk) : bool :=
  match wsh with
  | WshSortedMulti smv => smv_for_each_key pred smv
  | WshMs ms => real_for_each_key pred ms
  end.

Definition sh_for_each_key (pred : Pk → bool) (sh : Sh Pk) : bool :=
  match sh with
  | ShWsh wsh => wsh_for_each_key pred wsh
  | ShSortedMulti smv => smv_for_each_key pred smv
  | ShWpkh wpkh => pred wpkh
  | ShMs ms => real_for_each_key pred ms
  end.

Definition desc_for_each_key (pred : Pk → bool) self : bool :=
  match self with
  | DBare bare => real_for_each_key pred bare
  | DPkh pkh => pred pkh
  | DWpkh wpkh => pred wpkh
  | DWsh wsh => wsh_for_each_key pred wsh
  | DSh sh => sh_for_each_key pred sh
  | DLegacyCSFSCov cov => cov_for_any_key pred cov
  | DTr tr => tr_for_each_key pred tr
  | DTrExt tr => tr_for_each_key pred tr
  end.

(** ** Lifting *)

Definition wsh_lift (wsh : Wsh Pk) : result Error (Semantic.Policy Pk) :=
  match wsh with
  | WshSortedMulti smv => Ok (smv_lift smv)
  | WshMs ms => lift Segwitv0 ms
  end.

Definition sh_lift (sh : Sh Pk) : result Error (Semantic.Policy Pk) :=
  match sh with
  | ShWsh wsh => wsh_lift wsh
  | ShWpkh pk => Ok (Semantic.Key pk)
  | ShSortedMulti smv => Ok (smv_lift smv)
  | ShMs ms => lift Legacy ms
  end.

Definition desc_lift self : result Error (Semantic.Policy Pk) :=
  match self with
  | DBare bare => lift BareCtx bare
  | DPkh pkh => Ok (Semantic.Key pkh)
  | DWpkh wpkh => Ok (Semantic.Key wpkh)
  | DWsh wsh => wsh_lift wsh
  | DSh sh => sh_lift sh
  | DLegacyCSFSCov _ => Err (CovErr CovenantLift)
  | DTr tr => tr_lift tr
  | DTrExt tr => tr_lift tr
  end.
End descriptor.

Section translate.
Context {P Q E : Type} `{MiniscriptKey P} `{MiniscriptKey Q} `{TaprootApi} `{LockTimes} {Ext : Type}.
Context (t : Translator P Q E).

Definition cov_translate_pk (cov : LegacyCSFSCov P Ext) : result E (LegacyCSFSCov Q Ext) :=
  let? pk := tr_pk t (cov_pk cov) in
  let? ms := real_translate_pk t (cov_ms cov) in
  Ok (MkCov pk ms).

Definition desc_translate_pk (self : Descriptor P Ext) : result E (Descriptor Q Ext) :=
  match self with
  | DBare bare => let? bare := bare_translate_pk t bare in Ok (DBare bare)
  | DPkh pk => let? pk := tr_pk t pk in Ok (DPkh pk)
  | DWpkh pk => let? pk := wpkh_translate_pk t pk in Ok (DWpkh pk)
  | DSh sh => let? sh := sh_translate_pk t sh in Ok (DSh sh)
  | DWsh wsh => let? wsh := wsh_translate_pk t wsh in Ok (DWsh wsh)
  | DTr tr => let? tr := tr_translate_pk t tr in Ok (DTr tr)
  | DTrExt tr => let? tr := tr_translate_pk t tr in Ok (DTrExt tr)
  | DLegacyCSFSCov cov => let? cov := cov_translate_pk cov in Ok (DLegacyCSFSCov cov)
  end.
End translate.
