(* ===== verification/AsParsed.v ===== *)
(** * What a script is read back as

    The decoder reads keys of the type of the context and does not know the key behind a
    hash: a Miniscript over any keys is read back as its image [as_parsed], with the
    same script, and the interpreter does not see the difference. *)

From S2P Require Import Prelude Types Extension Property Ast Typing Resources Tokens Context ScriptNum Script Encoding Lex Decode DecodeLoop DecodeSound Lexing Parse DecodeComplete Interp InterpRefine Satisfy SatShape.
From S2P Require Correctness Malleability ExtraProps.

(** ** Key types *)

(** [key] gives the key that is read back, in a type whose keys are those of the
    context. *)
Class KeyView (ctx : ScriptContext) (Pk K : Type) `{ToPublicKey Pk} `{!MiniscriptKey K} `{!ToPublicKey K}
    `{!ParseableKey K} : Type := {
  key_view : Pk → K;
  view_push k : key_push ctx (key_view k) = key_push ctx k;
  view_key k :
    match sig_type ctx with
    | Ecdsa => to_public_key (key_view k) = to_public_key k
    | Schnorr => to_x_only_pubkey (key_view k) = to_x_only_pubkey k
    end;
  view_uncompressed k : is_uncompressed k = false → is_uncompressed (key_view k) = false;
  view_x_only k : sig_type ctx = Ecdsa → is_x_only_key k = false → is_x_only_key (key_view k) = false;
  view_parses k : from_slice (key_push ctx (key_view k)) = Ok (key_view k);
}.

Section as_parsed.
Context {Pk : Type} `{MiniscriptKey Pk} `{BitcoinKeys} `{!ToPublicKey Pk}.
Context {K : Type} `{!MiniscriptKey K} `{!ToPublicKey K} `{!ParseableKey K}.
Context (ctx : ScriptContext) `{!KeyView ctx Pk K} `{!ParseableKeyOk ctx K}.
Notation ms_t := (Miniscript Pk NoExt).
Notation key := (key_view (ctx := ctx)).

Fixpoint as_parsed (ms : ms_t) : Miniscript K NoExt :=
  let '(MkMs node ty ext) := ms in
  MkMs
    match node with
    | PkK p => PkK (key p)
    | PkH p => RawPkH (key_hash ctx p)
    | RawPkH h => RawPkH h
    | After n => After n
    | Older n => Older n
    | Sha256 x => Sha256 (of_sha256 (to_sha256 x))
    | Hash256 x => Hash256 (of_hash256 (to_hash256 x))
    | Ripemd160 x => Ripemd160 (of_ripemd160 (to_ripemd160 x))
    | Hash160 x => Hash160 (of_hash160 (to_hash160 x))
    | TTrue => TTrue
    | TFalse => TFalse
    | Alt s => Alt (as_parsed s)
    | Swap s => Swap (as_parsed s)
    | Check s => Check (as_parsed s)
    | DupIf s => DupIf (as_parsed s)
    | Verify s => Verify (as_parsed s)
    | NonZero s => NonZero (as_parsed s)
    | ZeroNotEqual s => ZeroNotEqual (as_parsed s)
    | AndV l r => AndV (as_parsed l) (as_parsed r)
    | AndB l r => AndB (as_parsed l) (as_parsed r)
    | AndOr a b c => AndOr (as_parsed a) (as_parsed b) (as_parsed c)
    | OrB l r => OrB (as_parsed l) (as_parsed r)
    | OrD l r => OrD (as_parsed l) (as_parsed r)
    | OrC l r => OrC (as_parsed l) (as_parsed r)
    | OrI l r => OrI (as_parsed l) (as_parsed r)
    | Thresh k subs => Thresh k (map as_parsed subs)
    | Multi k keys => Multi k (map key keys)
    | MultiA k keys => MultiA k (map key keys)
    | ExtT e => ExtT e
    end ty ext.

(** ** Types *)

Lemma as_parsed_ty ms : ty (as_parsed ms) = ty ms.
Proof. by destruct ms. Qed.
Lemma as_parsed_ext ms : ext (as_parsed ms) = ext ms.
Proof. by destruct ms. Qed.

Lemma children_as_parsed t mty mext :
  children (node (as_parsed (MkMs t mty mext))) = map as_parsed (children t).
Proof. by destruct t. Qed.

Lemma try_fold_eq {E S A} (f g : S → A → result E S) s l :
  (∀ s x, f s x = g s x) → try_fold f s l = try_fold g s l.
Proof.
  intros Hfg. revert s. induction l as [|x l IH]; intros s; [done|]. cbn. rewrite Hfg.
  destruct (g s x); cbn; [apply IH|done..].
Qed.

Lemma lookup_types {A} (get : ms_t → A) (get' : Miniscript K NoExt → A) subs i :
  (∀ s, get' (as_parsed s) = get s) →
  match map as_parsed subs !! i with Some s => Ok (E := ErrorKind) (get' s) | None => Panic end =
  match subs !! i with Some s => Ok (get s) | None => Panic end.
Proof. intros Hg. rewrite list_lookup_fmap. destruct (subs !! i) as [s|]; [|done]. cbn. by rewrite Hg. Qed.

Lemma type_check_as_parsed `{LockTimes} t mty mext :
  type_check ctx (node (as_parsed (MkMs t mty mext))) = type_check ctx t.
Proof.
  destruct t; try done; cbn -[check_threshold]; rewrite ?length_map, ?as_parsed_ty; try done.
  destruct (check_threshold k (length subs)) as [[]| |]; [|done..]. cbn -[TypeProp.threshold ExtraProps.threshold]. unfold TypeProp.threshold. f_equal.
  - unfold Correctness.threshold. f_equal. apply try_fold_eq. intros s i. unfold Correctness.threshold_step.
    by rewrite (lookup_types ty ty) by apply as_parsed_ty.
  - unfold Malleability.threshold. f_equal. apply try_fold_eq. intros s i. unfold Malleability.threshold_step.
    by rewrite (lookup_types ty ty) by apply as_parsed_ty.
Qed.

Lemma ext_type_check_as_parsed `{LockTimes} t mty mext :
  ext_type_check ctx (node (as_parsed (MkMs t mty mext))) = ext_type_check ctx t.
Proof.
  destruct t; try done; cbn -[check_threshold]; rewrite ?length_map, ?as_parsed_ext; try done.
  destruct (check_threshold k (length subs)) as [[]| |]; [|done..]. cbn -[TypeProp.threshold ExtraProps.threshold].
  unfold ExtraProps.threshold. f_equal. apply try_fold_eq. intros s i. unfold ExtraProps.threshold_step.
  by rewrite (lookup_types ext ext) by apply as_parsed_ext.
Qed.

Lemma well_typed_as_parsed `{LockTimes} ms : well_typed ctx ms → well_typed ctx (as_parsed ms).
Proof.
  revert ms. apply well_typed_ind'. intros t mty mext Ht Hx _ IH.
  rewrite <-(type_check_as_parsed t mty mext) in Ht. rewrite <-(ext_type_check_as_parsed t mty mext) in Hx.
  pose proof (children_as_parsed t mty mext) as Hch. cbn [as_parsed node] in *.
  constructor; [done..|]. rewrite Hch. by apply Forall_map.
Qed.

(** ** Nodes *)

Lemma all_nodes_as_parsed (P : Terminal Pk NoExt → Prop) (Q : Terminal K NoExt → Prop) ms :
  (∀ t mty mext, P t → Q (node (as_parsed (MkMs t mty mext)))) →
  all_nodes P ms → all_nodes Q (as_parsed ms).
Proof.
  intros HPQ. induction ms as [t mty mext IH] using Miniscript_tree_ind. intros [Ht Hch]%all_nodes_inv.
  pose proof (HPQ t mty mext Ht) as HQ. pose proof (children_as_parsed t mty mext) as Hcs.
  cbn [as_parsed node] in *. constructor; [done|]. rewrite Hcs, Forall_map. clear -IH Hch.
  induction IH; inversion_clear Hch; constructor; auto.
Qed.

(** As [node_canonical], hashes of keys included. *)
Definition node_nested (t : Terminal Pk NoExt) : Prop :=
  match t with
  | Check s | Verify s | ZeroNotEqual s => is_AndV s = false
  | AndB l _ => is_AndV l = false
  | AndV _ r => is_AndV r = false
  | MultiA k _ => (N.of_nat k <= 125000)%N
  | _ => True
  end.

Lemma is_AndV_as_parsed ms : is_AndV (as_parsed ms) = is_AndV ms.
Proof. by destruct ms as [[] ? ?]. Qed.

Lemma Forall_keys (P : Pk → Prop) (Q : K → Prop) keys :
  (∀ k, P k → Q (key k)) → Forall P keys → Forall Q (map key keys).
Proof. intros HPQ HP. apply Forall_map. by eapply Forall_impl. Qed.

Lemma node_allowed_as_parsed t mty mext :
  node_allowed ctx t → node_allowed ctx (node (as_parsed (MkMs t mty mext))).
Proof.
  intros Ha. assert (∀ keys, Forall (λ k, is_x_only_key k = false) keys → sig_type ctx = Ecdsa →
    Forall (λ k, is_x_only_key k = false) (map key keys)) as Hx.
  { intros keys Hks He. revert Hks. apply Forall_keys. intros k. by apply view_x_only. }
  assert (∀ keys, Forall (λ k, is_uncompressed k = false ∧ is_x_only_key k = false) keys → sig_type ctx = Ecdsa →
    Forall (λ k, is_uncompressed k = false ∧ is_x_only_key k = false) (map key keys)) as Hux.
  { intros keys Hks He. revert Hks. apply Forall_keys. intros k [Hu Hxk].
    split; [by apply view_uncompressed|by apply view_x_only]. }
  pose proof (view_uncompressed (ctx := ctx)) as Hu. pose proof (view_x_only (ctx := ctx)) as Hxk.
  destruct t; cbn [as_parsed node]; try (by revert Ha; unfold node_allowed; case ctx); revert Ha Hx Hux Hxk Hu;
    generalize (key : Pk → K); intros f; unfold node_allowed; case ctx; rewrite ?length_map; naive_solver.
Qed.

Lemma valid_as_parsed ms : valid ctx ms → valid ctx (as_parsed ms).
Proof.
  unfold valid. rewrite !global_validity_Ok, as_parsed_ext. intros [Hs Ha]. split; [done|].
  destruct ms as [t mty mext]. by apply node_allowed_as_parsed.
Qed.

(** ** The Miniscripts of scripts *)

(** What the round trip asks of a Miniscript over any keys. *)
Record script_ready `{LockTimes} (ms : ms_t) : Prop := {
  sr_typed : well_typed ctx ms;
  sr_base : base (corr (ty ms)) = B;
  sr_valid : valid ctx ms;
  sr_allowed : all_nodes (node_allowed ctx) ms;
  sr_nested : all_nodes node_nested ms;
  sr_readable : all_nodes node_readable ms;
}.

Lemma sr_signed `{LockTimes} (ms : ms_t) :
  ctx ≠ NoChecks → script_ready ms → all_nodes (node_signed ctx) ms.
Proof. intros Hctx Hr. by apply nodes_signed, (sr_allowed ms Hr). Qed.

Lemma all_nodes_both (P Q : Terminal Pk NoExt → Prop) ms :
  all_nodes P ms → all_nodes Q ms → all_nodes (λ t, P t ∧ Q t) ms.
Proof.
  induction ms as [t mty mext IH] using Miniscript_tree_ind.
  intros [HP HPc]%all_nodes_inv [HQ HQc]%all_nodes_inv. constructor; [done|]. cbn [node] in *.
  clear -IH HPc HQc. induction IH; inversion_clear HPc; inversion_clear HQc; constructor; auto.
Qed.

Lemma parses_as_parsed keys : Forall (key_parses ctx) (map key keys).
Proof. apply Forall_map, Forall_true. intros k. apply view_parses. Qed.

Lemma node_parses_as_parsed t mty mext : ctx ≠ NoChecks →
  node_allowed ctx t ∧ node_nested t → node_parses ctx (node (as_parsed (MkMs t mty mext))).
Proof.
  intros Hc [Ha Hn]. pose proof parses_as_parsed as Hk.
  destruct t; cbn [as_parsed node node_parses]; try done.
  - apply view_parses.
  - rewrite length_map. split_and!; [..|apply Hk]; revert Ha Hc; unfold node_allowed; case ctx; naive_solver.
  - split_and!; [|done|apply Hk]; revert Ha Hc; unfold node_allowed; case ctx; naive_solver.
Qed.

Lemma ready_as_parsed `{LockTimes} ms : ctx ≠ NoChecks → script_ready ms → ready ctx (as_parsed ms).
Proof.
  intros Hc [Hwt Hb Hv Ha Hn Hr]. split.
  - by apply well_typed_as_parsed.
  - by apply valid_as_parsed.
  - revert Ha. apply all_nodes_as_parsed. apply node_allowed_as_parsed.
  - revert Hn. apply all_nodes_as_parsed. intros [] ??; cbn; rewrite ?is_AndV_as_parsed; naive_solver.
  - pose proof (all_nodes_both _ _ _ Ha Hn) as Hand. revert Hand. apply all_nodes_as_parsed.
    intros t mty mext. by apply node_parses_as_parsed.
Qed.

Lemma readable_as_parsed ms : all_nodes node_readable ms → all_nodes node_readable (as_parsed ms).
Proof. apply all_nodes_as_parsed. intros [] ??; cbn; rewrite ?length_map; done. Qed.

(** ** The script is the same *)

Section script.
Context `{!ScriptBuilder}.

Lemma key_hash_view k : key_hash ctx (key k) = key_hash ctx k.
Proof. pose proof (view_key (ctx := ctx) k) as Hk. unfold key_hash. by destruct (sig_type ctx); rewrite Hk. Qed.

Lemma push_ms_key_view b k : push_ms_key ctx b (key k) = push_ms_key ctx b k.
Proof. pose proof (view_key (ctx := ctx) k) as Hk. unfold push_ms_key. by destruct (sig_type ctx); rewrite Hk. Qed.

Lemma push_multi_view b k keys : push_multi ctx b k (map key keys) = push_multi ctx b k keys.
Proof.
  unfold push_multi. case_bool_decide as Hc; [|done]. cbn [debug_assert result_bind].
  rewrite length_map. do 3 f_equal. generalize (push_int b (Z.of_nat k)).
  induction keys as [|k0 keys IH]; intros b'; [done|]. cbn. rewrite IH.
  pose proof (view_key (ctx := ctx) k0) as Hk. rewrite Hc in Hk. by rewrite Hk.
Qed.

Lemma push_multi_a_view b k keys : push_multi_a ctx b k (map key keys) = push_multi_a ctx b k keys.
Proof.
  unfold push_multi_a. case_bool_decide; [|done]. cbn [debug_assert result_bind].
  destruct keys as [|k0 keys]; [done|]. cbn. rewrite push_ms_key_view. do 4 f_equal.
  generalize (push_opcode (push_ms_key ctx b k0) OP_CHECKSIG).
  induction keys as [|k1 keys IH]; intros b'; [done|]. cbn. by rewrite IH, push_ms_key_view.
Qed.

Lemma result_bind_ext {E A B} (r : result E A) (f g : A → result E B) :
  (∀ a, f a = g a) → result_bind r f = result_bind r g.
Proof. destruct r; cbn; auto. Qed.

Lemma push_as_parsed ms : ctx ≠ NoChecks → all_nodes (node_allowed ctx) ms →
  ∀ b, push_astelem ctx (as_parsed ms) b = push_astelem ctx ms b.
Proof.
  intros Hc. induction ms as [t mty mext IH] using Miniscript_tree_ind. intros [Ha Hch]%all_nodes_inv b.
  cbn [node] in *.
  assert (Forall (λ s, ∀ b, push_astelem ctx (as_parsed s) b = push_astelem ctx s b) (children t)) as IH'.
  { clear -IH Hch. induction IH; inversion_clear Hch; constructor; auto. }
  clear IH Hch. destruct t; cbn [children] in IH'; rewrite ?Forall_cons_iff in IH';
    repeat match goal with Hx : _ ∧ _ |- _ => destruct Hx as [? Hx] end; cbn [as_parsed push_astelem];
    rewrite ?push_multi_view, ?push_multi_a_view, ?push_ms_key_view, ?of_sha256_to, ?of_hash256_to, ?of_ripemd160_to, ?of_hash160_to; try done;
    repeat first
      [ match goal with Hx : ∀ b, push_astelem ctx (as_parsed ?s) b = _ |- _ => rewrite Hx end
      | apply result_bind_ext; intros ? ]; try done.
  - unfold push_ms_key_hash, key_hash. by destruct (sig_type ctx).
  - destruct subs as [|s subs]; [done|]. cbn [map]. apply Forall_cons_iff in IH' as [Hs IH'].
    rewrite Hs. apply result_bind_ext. intros b'. f_equal. clear Ha. revert b'.
    induction IH' as [|s' subs Hs' _ IH]; intros b'; [done|]. cbn. rewrite Hs'.
    apply result_bind_ext. intros b''. apply IH.
Qed.

Lemma encode_as_parsed ms : ctx ≠ NoChecks → all_nodes (node_allowed ctx) ms →
  encode ctx (as_parsed ms) = encode ctx ms.
Proof. intros Hc Ha. unfold encode. by rewrite push_as_parsed. Qed.
End script.
End as_parsed.

(** ** The interpreter does not see the difference *)

Section evaluate.
Context {Pk : Type} `{MiniscriptKey Pk} `{Signatures} `{!ToPublicKey Pk} `{LockTimes} `{!EvalExt NoExt}.
Context {K : Type} `{!MiniscriptKey K} `{!ToPublicKey K} `{!ParseableKey K}.
Context (ctx : ScriptContext) `{!KeyView ctx Pk K} `{!ParseableKeyOk ctx K} (env : Env).
Notation ms_t := (Miniscript Pk NoExt).
Notation key := (key_view (ctx := ctx)).

Hypothesis sig_type_env : env_sig_type env = sig_type ctx.
Hypothesis pubkeyhash : ∀ k : Pk, to_pubkeyhash (no_checks_key ctx k) (sig_type ctx) = key_hash ctx k.

Lemma no_checks_key_view k : no_checks_key ctx (key k) = no_checks_key ctx k.
Proof. pose proof (view_key (ctx := ctx) k) as Hk. unfold no_checks_key. by destruct (sig_type ctx); rewrite Hk. Qed.

Lemma ebind_ext (x : eval_result (Ext := NoExt)) f g : (∀ stk, f stk = g stk) → ebind x f = ebind x g.
Proof. intros Hfg. destruct x as [cs [stk| |]]; cbn; [by rewrite Hfg|done..]. Qed.

Lemma epop_ext stk (f g : Element → Stack → eval_result (Ext := NoExt)) :
  (∀ e stk, f e stk = g e stk) → epop stk f = epop stk g.
Proof. intros Hfg. destruct stk; [done|apply Hfg]. Qed.

Lemma epop_bool_ext stk (f g : bool → Stack → eval_result (Ext := NoExt)) :
  (∀ b stk, f b stk = g b stk) → epop_bool stk f = epop_bool stk g.
Proof. intros Hfg. apply epop_ext. intros [] stk'; auto. Qed.

Lemma thresh_ev_ext {A} k (f g : A → Miniscript BitcoinKey NoExt) subs :
  Forall (λ s, ∀ stk, ev env (f s) stk = ev env (g s) stk) subs →
  ∀ n stk, thresh_ev (ev env) k n (map f subs) stk = thresh_ev (ev env) k n (map g subs) stk.
Proof.
  induction 1 as [|s subs Hs _ IH]; intros n stk; [done|]. cbn. apply epop_bool_ext. intros b stk'.
  rewrite Hs. by apply ebind_ext.
Qed.

Lemma map_no_checks_view keys : map (no_checks_key ctx) (map key keys) = map (no_checks_key ctx) keys.
Proof. rewrite map_map. apply map_ext, no_checks_key_view. Qed.

Lemma ev_as_parsed (ms : ms_t) stk :
  ev env (no_checks ctx (as_parsed ctx ms)) stk = ev env (no_checks ctx ms) stk.
Proof.
  revert stk. induction ms as [t mty mext IH] using Miniscript_tree_ind. intros stk.
  destruct t; cbn [children] in IH; rewrite ?Forall_cons_iff in IH;
    repeat match goal with Hx : _ ∧ _ |- _ => destruct Hx as [? Hx] end; unfold no_checks in *;
    cbn [as_parsed map_pk ev];
    rewrite ?no_checks_key_view, ?of_sha256_to, ?of_hash256_to, ?of_ripemd160_to, ?of_hash160_to; try done;
    repeat first
      [ match goal with Hx : ∀ stk, ev env (map_pk _ _ _ _ _ (as_parsed ctx ?s)) stk = _ |- _ => rewrite Hx end
      | apply ebind_ext; intros ? | apply epop_bool_ext; intros [] ? | apply epop_ext; intros ? ?
      | progress cbn iota ]; try done.
  - by rewrite sig_type_env, pubkeyhash.
  - rewrite map_map. destruct subs as [|s subs]; [done|]. apply Forall_cons_iff in IH as [Hs IH]. cbn [map].
    rewrite Hs. apply ebind_ext. intros stk'. by apply thresh_ev_ext.
  - by rewrite map_no_checks_view.
  - by rewrite map_no_checks_view.
Qed.
End evaluate.
