(* ===== verification/SpendStack.v ===== *)
(** * Witnesses as scriptSigs

    The elements of a satisfaction are empty, [[1]], or of five to 520 bytes: the push
    instructions that [witness_to_scriptsig] writes for them are read back, by
    [from_instruction], as the stack of the witness. *)

From S2P Require Import Prelude Types Extension Property Ast Typing Resources Iter Tokens Context ScriptNum Script Encoding Lex Decode DecodeLoop DecodeSound Parse Interp Satisfy Choice SatShape SatAccept ScriptPubkey CsfsCov TxData.

(** The elements of a witness. *)
Definition pushable (b : bytes) : Prop := b = [] ∨ b = [x01] ∨ 5 ≤ length b ≤ 520.

Section form.
Context {Pk : Type} `{MiniscriptKey Pk} `{Signatures} `{!ToPublicKey Pk} `{!ScriptBuilder}.
Context `{!LeafHashes} `{!SignaturesOk} `{!ScriptTemplates} `{!ScriptTemplatesOk} `{LockTimes}.
Context (ctx : ScriptContext) (stfr : Satisfier Pk) (leaf_hash : TapLeafHash).
Context (ecdsa : sig_type ctx = Ecdsa).

Lemma pushable_key k : pushable (pubkey_bytes k).
Proof. right. right. rewrite compressed_length. case_match; lia. Qed.

Lemma pushable_sig s : pushable (elementssig_to_rawsig s).
Proof.
  right. right. unfold elementssig_to_rawsig. rewrite length_app. cbn.
  pose proof (serialize_der_length s.1). pose proof (serialize_der_short s.1). lia.
Qed.

Lemma pushable_preimage (p : hash_n 32) : pushable (hash_bytes p).
Proof. right. right. rewrite hash_length. lia. Qed.

Lemma pushable_signs pk b : signs ctx stfr leaf_hash pk b → pushable b.
Proof.
  unfold signs, signature. rewrite ecdsa. destruct (lookup_ecdsa_sig stfr pk); [|done].
  intros [= <-]. apply pushable_sig.
Qed.

Lemma pushable_multi k keys w : multi_witness ctx stfr leaf_hash k keys w → Forall pushable w.
Proof.
  intros (cs & _ & _ & Hcs & ->). constructor; [by left|]. apply Forall_map.
  eapply Forall_impl; [|exact Hcs]. intros c. apply pushable_signs.
Qed.

Lemma pushable_multi_a k keys w : multi_a_witness ctx stfr leaf_hash k keys w → Forall pushable w.
Proof.
  intros (vals & Hf & _ & ->). apply Forall_rev, Forall_map.
  induction Hf as [|pk o keys vals Ho _ IH]; constructor; [|done].
  destruct o as [b|]; [by eapply pushable_signs, Ho|by left].
Qed.

Lemma pushable_repeat n : Forall pushable (repeat [] n).
Proof. induction n; constructor; [by left|done]. Qed.

Context (root_has_sig : bool) (min_fn : Satisfaction → Satisfaction → Satisfaction).
Context (thresh_fn : nat → list Satisfaction → list Satisfaction → result Error Satisfaction).
Context `{!Chooses min_fn thresh_fn}.
Implicit Types ms : Miniscript Pk NoExt.
Notation sat_with := (sat_with ctx stfr leaf_hash root_has_sig min_fn thresh_fn).
Notation dissat_with := (dissat_with ctx stfr leaf_hash root_has_sig min_fn thresh_fn).
Notation picks := (picks ctx stfr leaf_hash root_has_sig min_fn thresh_fn).

Definition witnesses_pushable ms : Prop :=
  (∀ w, sat_with ms w → Forall pushable w) ∧ (∀ w, dissat_with ms w → Forall pushable w).

Lemma pushable_concat ws : Forall (Forall pushable) ws → Forall pushable (concat (rev ws)).
Proof. intros Hw. by apply Forall_concat, Forall_rev. Qed.

Lemma picks_pushable subs k ws :
  Forall witnesses_pushable subs → picks k subs ws → Forall (Forall pushable) ws.
Proof.
  intros Hs Hp. revert Hs. induction Hp; intros Hs; inversion_clear Hs as [|?? [Ha Hb] Hs'];
    constructor; auto.
Qed.

Lemma dissats_pushable subs ws :
  Forall witnesses_pushable subs → Forall2 dissat_with subs ws → Forall (Forall pushable) ws.
Proof. intros Hs Hw. by eapply picks_pushable, dissat_picks. Qed.

Lemma raw_pkh_pushable h w : pkh_signature ctx stfr leaf_hash h = WStack w → Forall pushable w.
Proof.
  unfold pkh_signature. rewrite ecdsa. destruct (lookup_raw_pkh_ecdsa_sig stfr h) as [[k s]|]; [|done].
  intros [= <-]. constructor; [apply pushable_sig|]. constructor; [apply pushable_key|constructor].
Qed.

Lemma pkh_key_pushable h v : pkh_public_key ctx stfr h = WStack v → Forall pushable v.
Proof.
  unfold pkh_public_key. rewrite ecdsa. destruct (lookup_raw_pkh_pk stfr h); [|done].
  intros [= <-]. constructor; [apply pushable_key|constructor].
Qed.

Lemma pk_bytes_pushable pk : pushable (pk_bytes ctx pk).
Proof. unfold pk_bytes. rewrite ecdsa. apply pushable_key. Qed.

Lemma sat_pushable ms : well_typed ctx ms → witnesses_pushable ms.
Proof.
  revert ms. apply well_typed_ind'. intros t mty mext Ht _ _ IH. apply type_check_rule in Ht.
  assert (pushable []) as Hnil by (by left). assert (pushable [x01]) as Hone by (by right; left).
  assert (pushable (repeat x00 32)) as Hz by (right; right; cbn; lia).
  pose proof pushable_preimage. pose proof pushable_signs. pose proof pk_bytes_pushable.
  destruct t; cbn [children corr_rule] in *; rewrite ?Forall_cons_iff in IH;
    repeat match goal with Hx : _ ∧ _ |- _ => destruct Hx end; try done;
    (split; intros w Hw; first [apply sat_inv in Hw|apply dissat_inv in Hw]; cbn [node] in Hw;
     try (by destruct Hw));
    repeat match goal with
      | Hx : witnesses_pushable _ |- _ => destruct Hx as [? ?]
      | Hx : ∃ _, _ |- _ => destruct Hx as [? Hx]
      | Hx : _ ∧ _ |- _ => destruct Hx as [? Hx]
      | Hx : _ ∨ _ |- _ => destruct Hx as [Hx|Hx]
      end; subst; rewrite ?Forall_app, ?Forall_cons_iff; eauto 6.
  - by eapply raw_pkh_pushable.
  - split; [done|]. by eapply pkh_key_pushable.
  - by eapply pushable_concat, picks_pushable.
  - by eapply pushable_concat, dissats_pushable.
  - by eapply pushable_multi.
  - apply pushable_repeat.
  - eapply pushable_multi_a. eauto.
  - apply pushable_repeat.
Qed.
End form.

(** ** The scriptSig *)

Section script_sig.
Context `{Signatures} `{!ScriptBuilder} `{!ScriptBuilderOk} `{!ScriptTemplates} `{!ScriptTemplatesOk}.
Implicit Types w : list bytes.

Definition slot_instr (b : bytes) : Instruction :=
  if bool_decide (b = [x01]) then Op OP_PUSHNUM_1 else PushBytes b.

Lemma from_slot_instr b : from_instruction (Ok (slot_instr b)) = Ok (element_of b).
Proof. unfold slot_instr. case_bool_decide as Hb; cbn; [by subst|done]. Qed.

(** The instructions are read as the witness. *)
Lemma script_sig_stack_of s w :
  instructions_minimal s = Ok <$> map slot_instr w → script_sig_stack s = Ok (Stack_of w).
Proof.
  intros Hi. unfold script_sig_stack. rewrite Hi. unfold Stack_of.
  assert (∀ w, try_map from_instruction (Ok <$> map slot_instr w) = Ok (map element_of w)) as ->; [|done].
  clear. induction w as [|b w IH]; [done|]. cbn [map fmap list_fmap try_map].
  by rewrite from_slot_instr, IH.
Qed.

Lemma slot_instr_long b : 2 ≤ length b → slot_instr b = PushBytes b.
Proof. intros Hb. unfold slot_instr. rewrite bool_decide_eq_false_2; [done|]. intros ->. cbn in Hb. lia. Qed.

Lemma push_witness_element b l v :
  pushable v → has_instrs b l →
  has_instrs match read_scriptint v with Ok n => push_int b n | _ => push_slice b v end
    (l ++ [slot_instr v]).
Proof.
  intros Hv Hb. destruct Hv as [->|[->|Hv]].
  - pose proof (read_scriptint_build 0 eq_refl) as Hr. change (build_scriptint 0) with ([] : bytes) in Hr.
    rewrite Hr. by apply (has_push_int b l 0).
  - pose proof (read_scriptint_build 1 eq_refl) as Hr. change (build_scriptint 1) with [x01] in Hr.
    rewrite Hr. by apply (has_push_int b l 1).
  - rewrite slot_instr_long by lia. destruct (read_scriptint v) as [n| |] eqn:Hr.
    + apply read_scriptint_long in Hr. lia.
    + apply has_push_slice; [done|lia..].
    + apply has_push_slice; [done|lia..].
Qed.

Lemma witness_to_scriptsig_instrs w :
  Forall pushable w → instructions_minimal (witness_to_scriptsig w) = Ok <$> map slot_instr w.
Proof.
  intros Hw. unfold witness_to_scriptsig.
  change (map slot_instr w) with ([] ++ map slot_instr w). pose proof has_new as Hb.
  revert Hb. generalize builder_new, ([] : list Instruction).
  induction Hw as [|v w Hv _ IH]; intros b l Hb; cbn [fold_left map].
  - by rewrite app_nil_r.
  - rewrite cons_middle, app_assoc. apply IH. by apply push_witness_element.
Qed.

Lemma scriptsig_stack w : Forall pushable w → script_sig_stack (witness_to_scriptsig w) = Ok (Stack_of w).
Proof. intros Hw. by apply script_sig_stack_of, witness_to_scriptsig_instrs. Qed.

(** A script that is pushed. *)
Lemma push_slice_stack b :
  5 ≤ length b ≤ 520 → script_sig_stack (into_script (push_slice builder_new b)) = Ok [Push b].
Proof.
  intros Hb. assert (Stack_of [b] = [Push b]) as <- by (unfold Stack_of; cbn; by rewrite element_of_push by lia).
  apply script_sig_stack_of. cbn [map]. rewrite slot_instr_long by lia.
  apply (has_push_slice builder_new [] b has_new); lia.
Qed.

Lemma empty_script_stack : script_sig_stack script_new = Ok [].
Proof.
  assert (script_new = into_script builder_new) as ->.
  { apply script_bytes_inj. rewrite script_new_bytes. pose proof has_new as Hn.
    apply script_bytes_instrs in Hn. by rewrite Hn. }
  apply (script_sig_stack_of _ []). apply has_new.
Qed.

Lemma script_from_script s : script_from (script_bytes s) = s.
Proof. apply script_bytes_inj, script_from_bytes. Qed.
End script_sig.

(** ** The kinds of outputs are told apart

    [from_txdata] takes the branch of the output script: each template is recognized and
    taken for no other, by its length and its first bytes. *)

Lemma hash_n_length {n} (h : hash_n n) : length (hash_bytes h) = n.
Proof. apply Nat.eqb_eq, hash_len. Qed.

(** ** Templates *)

Lemma template_refl p n s mid : length mid = n → template p n s (p ++ mid ++ s) = true.
Proof.
  intros Hm. unfold template. rewrite !length_app, Hm.
  rewrite (proj2 (Nat.eqb_eq _ _)) by lia. rewrite take_app_length, bool_decide_eq_true_2 by done.
  rewrite app_assoc, drop_app_length' by (rewrite length_app; lia). by rewrite bool_decide_eq_true_2.
Qed.

Lemma template_length p n s b : length b ≠ length p + n + length s → template p n s b = false.
Proof. intros Hb. unfold template. by rewrite (proj2 (Nat.eqb_neq _ _)). Qed.

Lemma template_head x p n s y b : x ≠ y → template (x :: p) n s (y :: b) = false.
Proof.
  intros Hxy. unfold template. cbn [length take]. rewrite (bool_decide_eq_false_2 (_ :: _ = _)).
  - by rewrite andb_false_r.
  - congruence.
Qed.

Section templates.
Context `{Signatures} `{!ScriptBuilder} `{!ScriptBuilderOk} `{!LeafHashes} `{!ScriptTemplates} `{!ScriptTemplatesOk}.
Context `{!ScriptKeys} `{LockTimes} {Ext : Type} `{!Extension Ext} `{!ParseableExt Ext}.
Implicit Types (spk ssig : Script) (wit : list bytes) (ss : Stack).

(** Rewrites the recognizers of a script whose bytes are known. *)
Ltac templates :=
  rewrite ?is_p2pk_template, ?is_p2pkh_template, ?is_v0_p2wpkh_template, ?is_v0_p2wsh_template,
    ?is_p2sh_template.
Ltac not_template :=
  first [ rewrite template_length by (rewrite ?length_app, ?hash_n_length; cbn; lia)
        | rewrite template_head by done ].

Lemma txdata_p2pkh_branch h ssig wit ss :
  script_sig_stack ssig = Ok ss →
  from_txdata (Ext := Ext) (new_p2pkh h) ssig wit = txdata_p2pkh (new_p2pkh h) ss (Stack_of wit).
Proof.
  intros Hs. unfold from_txdata. rewrite Hs. cbn [result_bind]. templates. rewrite new_p2pkh_bytes.
  do 2 not_template. rewrite template_refl by apply hash_n_length. done.
Qed.

Lemma txdata_p2wpkh_branch h ssig wit ss :
  script_sig_stack ssig = Ok ss →
  from_txdata (Ext := Ext) (new_v0_wpkh h) ssig wit = txdata_p2wpkh (new_v0_wpkh h) ss (Stack_of wit).
Proof.
  intros Hs. unfold from_txdata. rewrite Hs. cbn [result_bind]. templates. rewrite new_v0_wpkh_bytes.
  do 3 not_template. rewrite <-(app_nil_r (hash_bytes h)), template_refl by apply hash_n_length. done.
Qed.

Lemma txdata_p2wsh_branch h ssig wit ss :
  script_sig_stack ssig = Ok ss →
  from_txdata (Ext := Ext) (new_v0_wsh h) ssig wit = txdata_p2wsh (new_v0_wsh h) ss (Stack_of wit).
Proof.
  intros Hs. unfold from_txdata. rewrite Hs. cbn [result_bind]. templates. rewrite new_v0_wsh_bytes.
  do 4 not_template. rewrite <-(app_nil_r (hash_bytes h)), template_refl by apply hash_n_length. done.
Qed.

Lemma txdata_p2sh_branch h ssig wit ss :
  script_sig_stack ssig = Ok ss →
  from_txdata (Ext := Ext) (new_p2sh h) ssig wit = txdata_p2sh (new_p2sh h) ss (Stack_of wit).
Proof.
  intros Hs. unfold from_txdata. rewrite Hs. cbn [result_bind]. templates. unfold is_v1_p2tr.
  rewrite new_p2sh_bytes. do 5 not_template. rewrite template_refl by apply hash_n_length.
  rewrite (proj2 (Nat.eqb_neq _ _)); [done|]. rewrite !length_app, hash_n_length. cbn. lia.
Qed.

(** A single key: the push of its 33 or 65 bytes. *)
Lemma txdata_p2pk_branch spk k ssig wit ss :
  script_bytes spk = byte_of_N (N.of_nat (length (pubkey_bytes k))) :: pubkey_bytes k ++ [Byte.xac] →
  script_sig_stack ssig = Ok ss →
  from_txdata (Ext := Ext) spk ssig wit = txdata_p2pk spk ss (Stack_of wit).
Proof.
  intros Hb Hs. unfold from_txdata. rewrite Hs. cbn [result_bind]. templates. rewrite Hb.
  pose proof (compressed_length k) as Hl. destruct (compressed k); rewrite Hl.
  - change (byte_of_N (N.of_nat 33) :: pubkey_bytes k ++ [Byte.xac])
      with ([Byte.x21] ++ pubkey_bytes k ++ [Byte.xac]). by rewrite template_refl.
  - change (byte_of_N (N.of_nat 65) :: pubkey_bytes k ++ [Byte.xac])
      with ([Byte.x41] ++ pubkey_bytes k ++ [Byte.xac]).
    rewrite (template_refl [Byte.x41]) by done. by rewrite orb_true_r.
Qed.

(** Anything that begins otherwise is a bare script. *)
Definition bare_head (b : bytes) : Prop :=
  match b with
  | [] => True
  | x :: b =>
      x ∉ [Byte.x21; Byte.x41; Byte.x76; Byte.x00; Byte.xa9] ∧ (x = Byte.x51 → head b ≠ Some Byte.x20)
  end.

Lemma txdata_bare_branch spk ssig wit ss :
  bare_head (script_bytes spk) → script_sig_stack ssig = Ok ss →
  from_txdata (Ext := Ext) spk ssig wit = txdata_bare spk ss (Stack_of wit).
Proof.
  intros Hb Hs. unfold from_txdata. rewrite Hs. cbn [result_bind]. templates. unfold is_v1_p2tr.
  destruct (script_bytes spk) as [|x b]; [by do 6 rewrite template_length by done|].
  cbn [bare_head] in Hb. destruct Hb as [Hx Htr]. rewrite !not_elem_of_cons in Hx. destruct Hx as (? & ? & ? & ? & ? & _).
  unfold p2pkh_prefix. rewrite !template_head by done. cbn [orb]. destruct (length (x :: b) =? 34); [|done].
  case_bool_decide as Hx0; [|done]. cbn in Hx0. injection Hx0 as ->.
  rewrite bool_decide_eq_false_2; [done|]. specialize (Htr eq_refl). by destruct b.
Qed.
End templates.
