(* ===== verification/SpendScript.v ===== *)
(** * Spending a script

    A Miniscript of a context before Taproot, satisfied: its script is read back as the
    image of the Miniscript, is no covenant and no witness program, and the interpreter
    accepts the satisfaction. *)

From S2P Require Import Prelude Types Extension Property Ast Typing Resources Iter Tokens Context ScriptNum Script Encoding Lex Decode DecodeLoop DecodeSound Lexing Parse DecodeComplete RoundTrip Interp InterpRefine Satisfy Choice SatShape SatAccept ScriptPubkey CsfsCov TxData Outputs AsParsed SpendStack.

(** ** Full keys *)

Section full_keys.
Context {Pk : Type} `{MiniscriptKey Pk} `{Signatures} `{!ToPublicKey Pk} `{!ToPublicKeyOk Pk}.
Context `{!ScriptBuilder} `{!LeafHashes} `{!SignaturesOk} `{!ScriptTemplates} `{!ScriptTemplatesOk}.
Context `{!ScriptKeys} `{!ScriptKeysOk}.
Context (ctx : ScriptContext).

Section full.
Context (ecdsa : sig_type ctx = Ecdsa).

#[local] Lemma key_push_full (k : Pk) : key_push ctx (to_public_key k) = key_push ctx k.
Proof. unfold key_push. by rewrite ecdsa, full_public_key. Qed.

#[local] Lemma view_key_full (k : Pk) :
  match sig_type ctx with
  | Ecdsa => to_public_key (to_public_key k) = to_public_key k
  | Schnorr => to_x_only_pubkey (to_public_key k) = to_x_only_pubkey k
  end.
Proof. rewrite ecdsa. apply full_public_key. Qed.

#[local] Lemma uncompressed_full (k : Pk) : is_uncompressed k = false → is_uncompressed (to_public_key k) = false.
Proof.
  intros Hk. pose proof (pubkey_bytes_length k) as Hl. rewrite Hk, compressed_length in Hl.
  rewrite full_uncompressed. by destruct (compressed (to_public_key k)).
Qed.

#[local] Lemma parses_full (k : Pk) :
  from_slice (key_push ctx (to_public_key k)) = Ok (to_public_key k).
Proof. unfold key_push. rewrite ecdsa, full_public_key. cbn. by rewrite PublicKey_from_bytes. Qed.

(** Before Taproot a key is read back as its full key. *)
Definition full_key_view : KeyView ctx Pk PublicKey := {|
  key_view := to_public_key;
  view_push := key_push_full;
  view_key := view_key_full;
  view_uncompressed := uncompressed_full;
  view_x_only k _ _ := full_x_only (to_public_key k);
  view_parses := parses_full;
|}.
End full.

Section xonly.
Context (schnorr : sig_type ctx = Schnorr).

#[local] Lemma key_push_xonly (k : Pk) : key_push ctx (to_x_only_pubkey k) = key_push ctx k.
Proof. unfold key_push. by rewrite schnorr, xonly_x_only_key. Qed.

#[local] Lemma view_key_xonly (k : Pk) :
  match sig_type ctx with
  | Ecdsa => to_public_key (to_x_only_pubkey k) = to_public_key k
  | Schnorr => to_x_only_pubkey (to_x_only_pubkey k) = to_x_only_pubkey k
  end.
Proof. rewrite schnorr. apply xonly_x_only_key. Qed.

#[local] Lemma view_x_only_xonly (k : Pk) :
  sig_type ctx = Ecdsa → is_x_only_key k = false → is_x_only_key (to_x_only_pubkey k) = false.
Proof. rewrite schnorr. done. Qed.

#[local] Lemma parses_xonly (k : Pk) :
  from_slice (key_push ctx (to_x_only_pubkey k)) = Ok (to_x_only_pubkey k).
Proof. unfold key_push. rewrite schnorr, xonly_x_only_key. cbn. by rewrite XOnly_from_serialize. Qed.

(** Under Tapscript it is read back as its x-only key. *)
Definition xonly_key_view : KeyView ctx Pk XOnlyPublicKey := {|
  key_view := to_x_only_pubkey;
  view_push := key_push_xonly;
  view_key := view_key_xonly;
  view_uncompressed k _ := xonly_uncompressed (to_x_only_pubkey k);
  view_x_only := view_x_only_xonly;
  view_parses := parses_xonly;
|}.
End xonly.
End full_keys.

(** ** Two facts about instructions *)

(** No push of an empty element is followed by another push, which would look like a
    witness program. *)
Section program.
Context {Pk : Type} `{MiniscriptKey Pk} `{BitcoinKeys} `{!ToPublicKey Pk} `{!ToPublicKeyOk Pk} `{LockTimes} `{!ScriptBuilder}.
Context (ctx : ScriptContext).
Implicit Types ms : Miniscript Pk NoExt.

Definition no_program (l : list Instruction) : Prop :=
  match l with PushBytes [] :: PushBytes _ :: _ => False | _ => True end.

Definition op_head (l : list Instruction) : Prop := match l with Op _ :: _ => True | _ => False end.

Definition program_free ms : Prop :=
  no_program (instrs ctx ms) ∧
  (cb ms = V → instrs ctx ms ≠ [PushBytes []]) ∧
  (cb ms = W → op_head (instrs ctx ms)).

Lemma no_program_app l1 l2 :
  no_program l1 → l1 ≠ [] → (l1 = [PushBytes []] → op_head l2) → no_program (l1 ++ l2).
Proof.
  intros Hl Hne Hop. destruct l1 as [|i1 [|i2 l1]]; [done| |by destruct i1 as [[]|], i2].
  destruct i1 as [[]|]; try done. specialize (Hop eq_refl). by destruct l2 as [|[] l2].
Qed.

Lemma op_head_app l1 l2 : op_head l1 → op_head (l1 ++ l2).
Proof. by destruct l1 as [|[]]. Qed.

Lemma no_program_op l1 op l2 : no_program l1 → no_program (l1 ++ Op op :: l2).
Proof. by destruct l1 as [|[[]|] [|[]]]. Qed.

Lemma add_verify_no_program l : no_program l → no_program (add_verify l) ∧ add_verify l ≠ [PushBytes []].
Proof.
  unfold add_verify. destruct (rev l) as [|i l'] eqn:Hr; [done|].
  assert (l = rev l' ++ [i]) as -> by (rewrite <-(rev_involutive l), Hr; done). clear Hr.
  intros Hl. destruct (instr_verify i) as [op|].
  - split; [|intros Heq%(f_equal list.last); by rewrite last_snoc in Heq]. apply no_program_op. clear -Hl.
    destruct (rev l') as [|[[|b0 b]|op'] [|[b'|?] ?]]; done.
  - split; [by apply no_program_op|]. intros Heq%(f_equal list.last). by rewrite last_snoc in Heq.
Qed.

Lemma app_singleton {A} (l1 l2 : list A) x : l1 ≠ [] → l2 ≠ [] → l1 ++ l2 ≠ [x].
Proof. destruct l1 as [|? [|]], l2; done. Qed.

Lemma build_scriptint_nonempty n : n ≠ 0%Z → build_scriptint n ≠ [].
Proof.
  intros Hn. unfold build_scriptint. rewrite (proj2 (Z.eqb_neq _ _)) by done.
  destruct (scriptint_loop _ _ _) as [v abs]. by case_match; destruct v.
Qed.

Lemma count_instr_push n : n ≠ 0 → count_instr n ≠ PushBytes [].
Proof.
  intros Hn. unfold count_instr, num_instr. rewrite (proj2 (N.eqb_neq _ _)) by lia.
  destruct (N.of_nat n <=? 16)%N; [done|]. intros [= Hb]. revert Hb. apply build_scriptint_nonempty. lia.
Qed.

Lemma no_program_first i l : i ≠ PushBytes [] → no_program (i :: l).
Proof. by destruct i as [[]|]. Qed.

Lemma instrs_program_free ms : well_typed ctx ms → program_free ms.
Proof.
  revert ms. apply well_typed_ind'. intros t mty mext Ht _ Hwt IH. apply type_check_rule in Ht.
  assert (Forall (λ s, program_free s ∧ instrs ctx s ≠ []) (children t)) as IH'.
  { clear -IH Hwt ToPublicKeyOk0. induction IH; inversion_clear Hwt; constructor; [|auto].
    split; [done|]. by apply instrs_nonempty. }
  clear IH Hwt. unfold program_free at 1. change (cb (MkMs t mty mext)) with (base (corr mty)).
  destruct t; cbn [children corr_rule instrs] in *; rewrite ?Forall_cons_iff in IH';
    repeat match goal with
      | Hx : _ ∧ _ |- _ => destruct Hx
      | Hx : program_free _ |- _ => destruct Hx as (? & ? & ?)
      end; try done;
    match goal with Hc : corr mty = _ |- _ => rewrite Hc; clear Hc end;
    cbn [base Correctness.from_true Correctness.from_false Correctness.from_pk_k Correctness.from_pk_h
      Correctness.from_time Correctness.from_hash Correctness.from_multi Correctness.from_multi_a];
    split_and!; try done; try (by apply no_program_op).
  - by destruct (key_push ctx pk).
  - by destruct (num_instr t) as [[]|].
  - by destruct (num_instr t) as [[]|].
  - by apply add_verify_no_program.
  - intros _. by apply add_verify_no_program.
  - apply no_program_app; [done..|]. intros Hl. naive_solver.
  - intros _. by apply app_singleton.
  - apply no_program_app; [done..|]. intros _. by apply op_head_app; auto.
  - intros _. by apply app_singleton.
  - apply no_program_app; [done..|]. intros _. by apply op_head_app; auto.
  - intros _. by apply app_singleton.
  - destruct subs as [|s subs]; [done|]. apply Forall_cons_iff in IH' as [[[Hp _] Hne] IH'].
    apply no_program_app; [done..|]. intros _. destruct subs as [|s' subs].
    + assert (k = 1) as -> by (cbn in *; lia). done.
    + apply Forall_cons_iff in IH' as [[(_ & _ & Hw) _] _].
      match goal with Hok : thresh_children_ok _ |- _ =>
        apply thresh_children_cons in Hok as [_ [[Hws _] _]%Forall_cons_iff] end.
      cbn [map concat]. rewrite <-!app_assoc. apply op_head_app. auto.
  - cbn [app]. apply no_program_first, count_instr_push. lia.
  - destruct pks as [|pk pks]; [done|]. cbn [app]. by destruct (key_push ctx pk).
Qed.

(** The opcodes of a script are named, and none is a push. *)
Definition instr_named (i : Instruction) : Prop :=
  match i with Op op => op_named op = true ∧ op ≠ OP_PUSHBYTES_0 | PushBytes _ => True end.

Lemma add_verify_named l : Forall instr_named l → Forall instr_named (add_verify l).
Proof.
  intros Hl. unfold add_verify. destruct (rev l) as [|i l'] eqn:Hr; [by repeat constructor|].
  assert (l = rev l' ++ [i]) as -> by (rewrite <-(rev_involutive l), Hr; done). clear Hr.
  apply Forall_app in Hl as [Hl Hi]. destruct (instr_verify i) as [op|] eqn:Hv.
  - apply Forall_app. split; [done|]. destruct i as [|[]]; simplify_eq/=; by repeat constructor.
  - rewrite !Forall_app. split; [done|by repeat constructor].
Qed.

Lemma num_instr_named n : instr_named (num_instr n).
Proof.
  unfold num_instr. destruct (n =? 0)%N; [done|]. destruct (n <=? 16)%N; [|done]. cbn. unfold pushnum.
  repeat case_match; done.
Qed.

Lemma concat_named {A} (f : A → list Instruction) l :
  Forall (λ x, Forall instr_named (f x)) l → Forall instr_named (concat (map f l)).
Proof. intros Hl. by apply Forall_concat, Forall_map. Qed.

Lemma pushes_named {A} (f : A → bytes) l : Forall instr_named (map (λ x, PushBytes (f x)) l).
Proof. apply Forall_map, Forall_true. done. Qed.

Lemma instrs_named ms : Forall instr_named (instrs ctx ms).
Proof.
  induction ms as [t mty mext IH] using Miniscript_tree_ind.
  pose proof num_instr_named as Hnum. assert (∀ n, instr_named (count_instr n)) as Hc by (intros; apply Hnum).
  assert (∀ b, instr_named (PushBytes b)) as Hb by done.
  assert (∀ op, op_named op = true → op ≠ OP_PUSHBYTES_0 → instr_named (Op op)) as Ho by done.
  destruct t; cbn [children instrs] in *; rewrite ?Forall_cons_iff in IH;
    repeat match goal with Hx : _ ∧ _ |- _ => destruct Hx end; unfold hash_instrs;
    try (by apply add_verify_named); rewrite ?Forall_app, ?Forall_cons_iff; auto 8 using Forall_nil_2.
  - destruct subs as [|s subs]; [done|]. apply Forall_cons_iff in IH as [Hs IH].
    rewrite !Forall_app, !Forall_cons_iff. split_and!; auto using Forall_nil_2.
    apply concat_named. eapply Forall_impl; [|exact IH]. cbv beta. intros s' Hs'. rewrite Forall_app. auto.
  - split_and!; auto using Forall_nil_2. apply pushes_named.
  - destruct pks as [|pk pks]; [done|]. rewrite !Forall_app, !Forall_cons_iff. split_and!; auto using Forall_nil_2.
    apply concat_named, Forall_true. intros k'. rewrite !Forall_cons_iff. auto.
  - destruct e.
Qed.

End program.

(** ** The first bytes of a script *)

Lemma named_first op : op_named op = true → op ≠ OP_PUSHBYTES_0 →
  byte_of_N (opcode_byte op) ∉ [Byte.x00; Byte.x01; Byte.x14; Byte.x20].
Proof. intros Hn Ho. rewrite !not_elem_of_cons. destruct op; try done; split_and!; try done; apply not_elem_of_nil. Qed.

Lemma byte_of_N_inj n m : (n < 256)%N → (m < 256)%N → byte_of_N n = byte_of_N m → n = m.
Proof.
  intros Hn Hm Heq%(f_equal Byte.to_N). rewrite !byte_of_N_to_N in Heq. by rewrite !N.mod_small in Heq by done.
Qed.

Lemma push_header_first n : n ≠ 0 → ∃ x l, push_header n = x :: l ∧ x ≠ Byte.x00.
Proof.
  intros Hn. unfold push_header.
  destruct (N.ltb_spec (N.of_nat n) 76).
  - do 2 eexists. split; [done|]. intros Hx. apply (byte_of_N_inj _ 0) in Hx; lia.
  - repeat case_match; by do 2 eexists.
Qed.

Lemma instrs_bytes_nonempty l : l ≠ [] → instrs_bytes l ≠ [].
Proof.
  destruct l as [|[[|x b]|op] l]; [done|done| |done]. intros _. unfold instrs_bytes. cbn [map concat instr_bytes].
  destruct (push_header_first (length (x :: b))) as (y & h & -> & _); [done|]. done.
Qed.

Lemma instrs_bytes_not_one l : Forall instr_named l → instrs_bytes l ≠ [x01].
Proof.
  destruct l as [|i l]; [done|]. intros [Hi _]%Forall_cons_iff. unfold instrs_bytes. cbn [map concat].
  destruct i as [[|x b]|op]; cbn [instr_bytes app].
  - done.
  - intros Heq%(f_equal length). rewrite !length_app in Heq.
    destruct (push_header_first (length (x :: b))) as (y & h & Hy & _); [done|]. rewrite Hy in Heq. cbn in Heq. lia.
  - intros [= Hx _]. destruct Hi as [Hn Ho]. apply (named_first op Hn Ho). rewrite Hx. (rewrite !elem_of_cons; auto).
Qed.

Lemma is_program_first n len x b : x ≠ Byte.x00 → is_program n len (x :: b) = false.
Proof.
  intros Hx. unfold is_program. rewrite (bool_decide_eq_false_2 ((x :: b) !! 0 = _)); [by rewrite andb_false_r|].
  cbn. congruence.
Qed.

Lemma is_program_second n len x y b : y ≠ n → is_program n len (x :: y :: b) = false.
Proof.
  intros Hy. unfold is_program. rewrite (bool_decide_eq_false_2 ((x :: y :: b) !! 1 = _)); [by rewrite andb_false_r|].
  cbn. congruence.
Qed.

Lemma instrs_no_program n len l :
  n = Byte.x14 ∨ n = Byte.x20 → 2 ≤ len → Forall instr_named l → no_program l →
  is_program n len (instrs_bytes l) = false.
Proof.
  intros Hn Hlen Hl Hp. destruct l as [|i l]; [by destruct len as [|[|len]]; [lia|lia|]|].
  apply Forall_cons_iff in Hl as [Hi Hl]. unfold instrs_bytes. cbn [map concat].
  destruct i as [[|x b]|op]; cbn [instr_bytes].
  - destruct l as [|j l]; [by destruct len as [|[|len]]; [lia|lia|]|].
    apply Forall_cons_iff in Hl as [Hj _]. destruct j as [|op]; [done|].
    apply is_program_second. intros Hx. destruct Hj as [Hm Ho]. apply (named_first op Hm Ho). rewrite Hx.
    destruct Hn as [->| ->]; rewrite !elem_of_cons; auto.
  - destruct (push_header_first (length (x :: b))) as (y & h & Hy & H0); [done|]. rewrite Hy.
    by apply is_program_first.
  - apply is_program_first. intros Hx. destruct Hi as [Hm Ho]. apply (named_first op Hm Ho). rewrite Hx.
    rewrite !elem_of_cons; auto.
Qed.

(** ** A satisfied Miniscript *)

Section spend.
Context {Pk : Type} `{MiniscriptKey Pk} `{EqDecision Pk} `{Signatures} `{!ToPublicKey Pk} `{!ToPublicKeyOk Pk}.
Context `{!ScriptBuilder} `{!ScriptBuilderOk} `{!LeafHashes} `{!SignaturesOk} `{!ScriptTemplates}.
Context `{!ScriptTemplatesOk} `{!ScriptKeys} `{!ScriptKeysOk} `{LockTimes}.
Context (env : Env) (stfr : Satisfier Pk).
Implicit Types ms : Miniscript Pk NoExt.

(** The interpreter ends without an error. *)
Definition accepts (inner : Inner NoExt) (stk : Stack) : Prop :=
  ∀ fuel, inner_fuel inner ≤ fuel →
    ∃ cs, collect env fuel (iter_custom inner stk) = Some (cs, Ok tt).

(** The script is read back as a Miniscript with that same script, and [w] satisfies it. *)
Definition read_back (K : Type) `{MiniscriptKey K} `{!EqDecision K} `{!ToPublicKey K} `{!ParseableKey K}
    (ctx : ScriptContext) (script : Script) (w : list bytes) : Prop :=
  ∃ ms' : Miniscript K NoExt,
    parse_with_ext ctx script ExtParams_allow_all = Some (Ok ms') ∧ encode ctx ms' = Ok script ∧
    ∃ nc, to_no_checks_ms ctx ms' = Ok nc ∧ ∀ t, accepts (InScript nc t) (Stack_of w).

(** [spends ctx ms script w]: the script is that of [ms], it is read back over full keys,
    and its witness can be pushed; the script is no witness program and no covenant. *)
Record spends (ctx : ScriptContext) ms (script : Script) (w : list bytes) : Prop := {
  sp_encode : encode ctx ms = Ok script;
  sp_pushable : Forall pushable w;
  sp_parsed : read_back PublicKey ctx script w;
  sp_bytes : ∃ l, script_bytes script = instrs_bytes l ∧ Forall instr_named l ∧ no_program l ∧ l ≠ [];
  sp_tokens : ∃ ts, lex script = Ok ts ∧ Forall (λ t, core t = true) ts;
}.

Lemma SatisfierOk_ctx ctx ctx' lh :
  sig_type ctx = sig_type ctx' → SatisfierOk env ctx stfr lh → SatisfierOk env ctx' stfr lh.
Proof. intros Hc []. split; try done. congruence. Qed.

Lemma allow_all_checks {K Ext} `{MiniscriptKey K} `{!EqDecision K} `{!Extension Ext} ctx (ms : Miniscript K Ext) :
  ext_check ctx ExtParams_allow_all ms = Ok tt.
Proof. done. Qed.

(** The satisfaction behind a witness. *)
Lemma ms_satisfy_as_inv ctx mall ms w :
  ms_satisfy_as ctx mall stfr ms = Ok w →
  ∃ script min_fn thresh_fn, encode ctx ms = Ok script ∧ Chooses min_fn thresh_fn ∧
    sat_with ctx stfr (TapLeafHash_from_script script) (safe (Types.mall (ty ms))) min_fn thresh_fn ms w.
Proof.
  intros Hs. destruct mall; apply bind_Ok in Hs as (script & Henc & Hs);
    apply bind_Ok in Hs as (sat & Hsat & Hw%finish_satisfy_Ok); exists script.
  - exists minimum_mall, thresh_mall. split_and!; [done|apply _|]. by eexists.
  - exists minimum, thresh. split_and!; [done|apply _|]. by eexists.
Qed.

Lemma key_hash_checked ctx (k : Pk) : to_pubkeyhash (no_checks_key ctx k) (sig_type ctx) = key_hash ctx k.
Proof.
  unfold no_checks_key, key_hash. destruct (sig_type ctx); cbn.
  - by rewrite PublicKey_pubkeyhash, pubkey_hash_hash.
  - by rewrite XOnly_pubkeyhash, PubkeyHash_hash_hash.
Qed.

Lemma ms_read_back {K : Type} `{!MiniscriptKey K} `{!EqDecision K} `{!ToPublicKey K} `{!ToPublicKeyOk K}
    `{!ParseableKey K} ctx `{!KeyView ctx Pk K} `{!ParseableKeyOk ctx K} ms mall w script :
  ctx ≠ NoChecks → script_ready ctx ms → all_nodes node_not_zero ms →
  (∀ lh, SatisfierOk env ctx stfr lh) → ms_satisfy_as ctx mall stfr ms = Ok w →
  encode ctx ms = Ok script → read_back K ctx script w.
Proof.
  intros Hctx Hr Hnz Hok Hs Henc.
  apply ms_satisfy_as_inv in Hs as (script' & min_fn & thresh_fn & Henc' & HC & Hw).
  assert (script' = script) as -> by congruence.
  pose proof (sr_typed _ _ Hr) as Hwt. exists (as_parsed ctx ms).
  assert (encode ctx (as_parsed ctx ms) = Ok script) as He by (by rewrite (encode_as_parsed ctx ms Hctx (sr_allowed _ _ Hr))).
  split_and!; [|done|].
  - apply encoded_parses; try done.
    + by apply ready_as_parsed.
    + rewrite as_parsed_ty. apply (sr_base _ _ Hr).
    + apply readable_as_parsed, (sr_readable _ _ Hr).
  - exists (no_checks ctx (as_parsed ctx ms)). split; [apply to_no_checks_total|].
    intros t fuel Hf. rewrite collect_computes by done.
    destruct (sat_with_interpret env ctx stfr _ (safe (Types.mall (ty ms))) min_fn thresh_fn ms w t
      (Hok (TapLeafHash_from_script script)) Hwt (sr_base _ _ Hr))
      as [cs Hcs]; [apply all_nodes_all; by intros []|done|done|].
    exists cs. rewrite <-Hcs. cbn [interpret]. rewrite (ev_as_parsed ctx env); [done| |apply key_hash_checked].
    apply (ok_sig_type _ _ _ _ (Hok (TapLeafHash_from_script script))).
Qed.

Lemma ms_spends ctx ms mall w :
  sig_type ctx = Ecdsa → ctx ≠ NoChecks → script_ready ctx ms → all_nodes node_not_zero ms →
  (∀ lh, SatisfierOk env ctx stfr lh) → ms_satisfy_as ctx mall stfr ms = Ok w →
  ∃ script, spends ctx ms script w.
Proof.
  intros He Hctx Hr Hnz Hok Hs.
  pose proof (full_key_view (Pk := Pk) ctx He) as V. pose proof (PublicKey_ParseableKeyOk ctx He) as HK.
  destruct (ms_satisfy_as_inv _ _ _ _ Hs) as (script & min_fn & thresh_fn & Henc & HC & Hw). exists script.
  pose proof (sr_typed _ _ Hr) as Hwt.
  destruct (encoded_lexes ctx ms script Hwt (sr_readable _ _ Hr)
    (sr_signed _ _ Hctx Hr) Henc) as [Hi Hlex].
  split.
  - done.
  - destruct (sat_pushable ctx stfr (TapLeafHash_from_script script) He (safe (Types.mall (ty ms))) min_fn thresh_fn ms Hwt)
      as [Hp _]. by apply Hp.
  - by eapply (ms_read_back ctx).
  - exists (instrs ctx ms). split_and!.
    + by apply script_bytes_instrs.
    + apply instrs_named.
    + by apply instrs_program_free.
    + by apply instrs_nonempty.
  - exists (tokens_of ctx ms). split; [done|]. exact (tokens_core ctx _ Hwt).
Qed.
End spend.

(** ** Spending the outputs of descriptors

    For each kind of output, what [from_txdata] finds in a satisfaction: the Miniscript
    or the key, the stack, and the script code of the descriptor. *)

Section outputs.
Context {Pk : Type} `{MiniscriptKey Pk} `{EqDecision Pk} `{Signatures} `{!ToPublicKey Pk} `{!ToPublicKeyOk Pk}.
Context `{!ScriptBuilder} `{!ScriptBuilderOk} `{!LeafHashes} `{!SignaturesOk} `{!ScriptTemplates}.
Context `{!ScriptTemplatesOk} `{!ScriptKeys} `{!ScriptKeysOk} `{LockTimes}.
Context (env : Env) (stfr : Satisfier Pk).
Implicit Types (ms : Miniscript Pk NoExt) (script : Script) (w : list bytes).

(** ** Elements of the witness *)

Lemma spends_element ctx ms script w :
  spends env ctx ms script w → element_of (script_bytes script) = Push (script_bytes script).
Proof.
  intros Hs. destruct (sp_bytes _ _ _ _ _ Hs) as (l & -> & Hn & _ & Hne).
  unfold element_of. rewrite bool_decide_eq_false_2 by (by apply instrs_bytes_not_one).
  pose proof (instrs_bytes_nonempty l Hne). by destruct (instrs_bytes l).
Qed.

Lemma spends_from_element ctx ms script w :
  spends env ctx ms script w →
  ∃ (ms' : Miniscript PublicKey NoExt) nc,
    script_from_stack_elem ctx (Push (script_bytes script)) = Ok ms' ∧
    encoded ctx ms' = Ok script ∧ no_checks_of ctx ms' = Ok nc ∧
    ∀ t, accepts env (InScript nc t) (Stack_of w).
Proof.
  intros Hs. destruct (sp_parsed _ _ _ _ _ Hs) as (ms' & Hp & Henc & nc & Hnc & Hacc).
  exists ms', nc. cbn [script_from_stack_elem]. rewrite script_from_script, Hp.
  unfold encoded, no_checks_of. rewrite Henc, Hnc. done.
Qed.

(** Without CHECKSIGFROMSTACK a script is no covenant. *)
Lemma spends_no_covenant ctx ms script w :
  spends env ctx ms script w →
  cov_components_from_stackelem (Ext := NoExt) (Push (script_bytes script)) = Ok None.
Proof.
  intros Hs. destruct (sp_tokens _ _ _ _ _ Hs) as (ts & Hlex & Hcore). cbn [cov_components_from_stackelem].
  rewrite script_from_script. unfold parse_cov_components. rewrite Hlex. cbn [result_bind].
  apply Forall_rev in Hcore. unfold TokenIter_new. destruct (rev ts) as [|t ts']; [done|].
  apply Forall_cons_iff in Hcore as [Ht _]. by destruct t.
Qed.

(** ** Witness scripts *)

Lemma p2wsh_spent ctx ms script w :
  ctx = Segwitv0 → spends env ctx ms script w →
  ∃ nc, txdata_p2wsh (Ext := NoExt) (to_v0_p2wsh script) [] (Push (script_bytes script) :: Stack_of w) =
          Ok (InScript nc StWsh, Stack_of w, Some script) ∧
        accepts env (InScript nc StWsh) (Stack_of w).
Proof.
  intros -> Hs. destruct (spends_from_element _ _ _ _ Hs) as (ms' & nc & Hms & Henc & Hnc & Hacc).
  exists nc. split; [|done]. unfold txdata_p2wsh. rewrite (spends_no_covenant _ _ _ _ Hs). cbn [result_bind].
  rewrite Hms. cbn [result_bind]. rewrite Henc. cbn [result_bind]. rewrite Hnc. cbn [result_bind].
  by rewrite bool_decide_eq_true_2 by apply to_v0_p2wsh_hash.
Qed.

Lemma sh_wsh_spent ms script w :
  spends env Segwitv0 ms script w →
  ∃ nc, txdata_sh_wsh (Ext := NoExt) (script_bytes (to_v0_p2wsh script)) [] (Push (script_bytes script) :: Stack_of w) =
          Ok (InScript nc StShWsh, Stack_of w, Some script) ∧
        accepts env (InScript nc StShWsh) (Stack_of w).
Proof.
  intros Hs. destruct (spends_from_element _ _ _ _ Hs) as (ms' & nc & Hms & Henc & Hnc & Hacc).
  exists nc. split; [|done]. unfold txdata_sh_wsh.
  rewrite Hms. cbn [result_bind]. rewrite Henc. cbn [result_bind]. rewrite Hnc. cbn [result_bind].
  by rewrite bool_decide_eq_true_2 by (by rewrite to_v0_p2wsh_hash).
Qed.

(** A redeem script. *)
Lemma p2sh_script_spent ms script w :
  spends env Legacy ms script w →
  ∃ nc, txdata_p2sh (Ext := NoExt) (to_p2sh script) (Push (script_bytes script) :: Stack_of w) [] =
          Ok (InScript nc StSh, Stack_of w, Some script) ∧
        accepts env (InScript nc StSh) (Stack_of w).
Proof.
  intros Hs. destruct (spends_from_element _ _ _ _ Hs) as (ms' & nc & Hms & Henc & Hnc & Hacc).
  destruct (sp_bytes _ _ _ _ _ Hs) as (l & Hl & Hn & Hp & _).
  exists nc. split; [|done]. unfold txdata_p2sh. rewrite (bool_decide_eq_true_2 (to_p2sh script = _)) by apply to_p2sh_hash.
  cbn [negb]. rewrite Hl, !instrs_no_program by (auto || lia). rewrite <-Hl. unfold txdata_sh_script.
  rewrite Hms. cbn [result_bind]. rewrite Henc. cbn [result_bind]. rewrite Hnc. cbn [result_bind].
  by rewrite bool_decide_eq_true_2 by apply to_p2sh_hash.
Qed.

(** ** Keys *)

Lemma pk_accepts k t sig ks :
  verify_sersig (verify_sig env) k sig = Ok ks → accepts env (InPublicKey k t) [Push sig].
Proof.
  intros Hk fuel Hf. rewrite collect_computes by done. exists [CPublicKey ks].
  cbn [interpret]. unfold finish. cbn. by rewrite Hk.
Qed.

Lemma ecdsa_verifies ctx lh pk s :
  SatisfierOk env ctx stfr lh → lookup_ecdsa_sig stfr pk = Some s →
  ∃ ks, verify_sersig (verify_sig env) (Fullkey (to_public_key pk)) (elementssig_to_rawsig s) = Ok ks.
Proof.
  intros Hok Hs. cbn. rewrite elementssig_round_trip. cbn. rewrite (ok_ecdsa _ _ _ _ Hok) by done. eauto.
Qed.

Lemma element_of_key k : element_of (pubkey_bytes k) = Push (pubkey_bytes k).
Proof. apply element_of_push, PublicKey_long. Qed.

Lemma element_of_sig s : element_of (elementssig_to_rawsig s) = Push (elementssig_to_rawsig s).
Proof.
  apply element_of_push. unfold elementssig_to_rawsig. rewrite length_app.
  pose proof (serialize_der_length s.1). lia.
Qed.

Lemma full_key_of_slice k req :
  (req = true → compressed k = true) → pk_from_slice (pubkey_bytes k) req = Ok k.
Proof.
  intros Hc. unfold pk_from_slice. rewrite PublicKey_from_bytes. destruct req; [|done]. by rewrite Hc.
Qed.

Lemma compressed_key pk : is_uncompressed pk = false → compressed (to_public_key pk) = true.
Proof.
  intros Hk. pose proof (pubkey_bytes_length pk) as Hl. rewrite Hk, compressed_length in Hl.
  by destruct (compressed (to_public_key pk)).
Qed.

Lemma p2pkh_spent k sig :
  txdata_p2pkh (Ext := NoExt) (new_p2pkh (hash160_hash (pubkey_bytes k))) [Push (pubkey_bytes k); sig] [] =
  Ok (InPublicKey (Fullkey k) PtPkh, [sig], Some (new_p2pkh (hash160_hash (pubkey_bytes k)))).
Proof.
  cbn [txdata_p2pkh pk_from_stack_elem]. rewrite full_key_of_slice by done. cbn [result_bind].
  by rewrite bool_decide_eq_true_2 by (by rewrite PublicKey_pubkeyhash).
Qed.

Lemma p2wpkh_spent k sig :
  compressed k = true →
  txdata_p2wpkh (Ext := NoExt) (address_p2wpkh k) [] [Push (pubkey_bytes k); sig] =
  Ok (InPublicKey (Fullkey k) PtWpkh, [sig], Some (address_p2pkh k)).
Proof.
  intros Hc. cbn [txdata_p2wpkh pk_from_stack_elem]. rewrite full_key_of_slice by done. cbn [result_bind].
  rewrite PublicKey_pubkeyhash, address_p2pkh_hash. by rewrite bool_decide_eq_true_2 by apply address_p2wpkh_hash.
Qed.

Lemma sh_wpkh_spent k sig :
  compressed k = true →
  txdata_sh_wpkh (Ext := NoExt) (script_bytes (address_p2wpkh k)) [] [Push (pubkey_bytes k); sig] =
  Ok (InPublicKey (Fullkey k) PtShWpkh, [sig], Some (address_p2pkh k)).
Proof.
  intros Hc. cbn [txdata_sh_wpkh pk_from_stack_elem]. rewrite full_key_of_slice by done. cbn [result_bind].
  rewrite PublicKey_pubkeyhash, address_p2pkh_hash. by rewrite bool_decide_eq_true_2 by (by rewrite address_p2wpkh_hash).
Qed.

Lemma p2pk_spent spk k sig :
  script_bytes spk = byte_of_N (N.of_nat (length (pubkey_bytes k))) :: pubkey_bytes k ++ [Byte.xac] →
  txdata_p2pk (Ext := NoExt) spk [sig] [] = Ok (InPublicKey (Fullkey k) PtPk, [sig], Some spk).
Proof.
  intros Hb. cbn [txdata_p2pk]. rewrite Hb. cbn [length drop]. rewrite length_app. cbn [length].
  replace (S (length (pubkey_bytes k) + 1) - 2) with (length (pubkey_bytes k)) by lia.
  rewrite drop_0, take_app_length, full_key_of_slice by done. done.
Qed.

(** A witness program in a scriptSig. *)
Lemma p2sh_program_spent program stk :
  is_program Byte.x14 22 (script_bytes program) = true →
  txdata_p2sh (Ext := NoExt) (to_p2sh program) [Push (script_bytes program)] stk =
  txdata_sh_wpkh (script_bytes program) [] stk.
Proof.
  intros Hp. unfold txdata_p2sh. rewrite (bool_decide_eq_true_2 (to_p2sh program = _)) by apply to_p2sh_hash.
  cbn [negb]. by rewrite Hp.
Qed.

Lemma p2sh_wsh_program_spent program stk :
  is_program Byte.x14 22 (script_bytes program) = false → is_program Byte.x20 34 (script_bytes program) = true →
  txdata_p2sh (Ext := NoExt) (to_p2sh program) [Push (script_bytes program)] stk =
  txdata_sh_wsh (script_bytes program) [] stk.
Proof.
  intros Hp Hp'. unfold txdata_p2sh. rewrite (bool_decide_eq_true_2 (to_p2sh program = _)) by apply to_p2sh_hash.
  cbn [negb]. by rewrite Hp, Hp'.
Qed.

(** ** Multisignatures with sorted keys *)

Lemma sorted_pks_perm (smv : SortedMultiVec Pk) : sorted_pks smv ≡ₚ smv_pks smv.
Proof. apply sort_by_perm. Qed.

(** What [SortedMultiVec::new] accepts, with its keys in any order. *)
Lemma smv_new_ready ctx k pks pks' smv :
  ctx = Legacy ∨ ctx = Segwitv0 → smv_new ctx k pks = Ok smv → pks' ≡ₚ pks →
  ∃ mty mext, multi_node ctx k pks' = Ok (MkMs (Multi k pks') mty mext) ∧
    script_ready ctx (MkMs (Multi k pks') mty mext : Miniscript Pk NoExt).
Proof.
  intros Hctx Hs Hp. unfold smv_new in Hs. destruct (MAX_PUBKEYS_PER_MULTISIG <? length pks); [done|].
  apply bind_Ok in Hs as (ms & Hms%map_err_Ok & Hs).
  apply bind_Ok in Hs as ([] & (Hsize & Hallowed & _)%map_err_Ok%local_validity_Ok & _).
  pose proof (Permutation_length Hp) as Hlen.
  apply bind_Ok in Hms as (mty & Ht & Hms). apply bind_Ok in Hms as (mext & Hx & [= <-]).
  assert (type_check ctx (Multi (Ext := NoExt) k pks') = Ok mty) as Ht'.
  { rewrite <-Ht. cbn. by rewrite Hlen. }
  assert (ext_type_check ctx (Multi (Ext := NoExt) k pks') = Ok mext) as Hx'.
  { rewrite <-Hx. cbn. by rewrite Hlen. }
  assert (node_allowed ctx (Multi (Ext := NoExt) k pks')) as Ha.
  { destruct Hctx as [->| ->]; cbn in *; by rewrite Hp. }
  exists mty, mext. split.
  - unfold multi_node, from_ast. by rewrite Ht', Hx'.
  - assert (well_typed ctx (MkMs (Multi (Ext := NoExt) k pks') mty mext)) as Hwt by (by constructor; [..|constructor]).
    split; [done| | |by constructor..|].
    + cbn. apply type_check_rule in Ht' as [_ ->]. done.
    + apply global_validity_Ok. done.
    + constructor; [|constructor]. cbn.
      assert (length pks' ≤ 20) by (destruct Hctx as [->| ->]; cbn in Ha; tauto). lia.
Qed.
End outputs.
