(* ===== verification/DescriptorSpend.v ===== *)
(** * Descriptors are spent

    What [get_satisfaction] returns for a descriptor before Taproot, [from_txdata] takes
    apart for the output of the descriptor, with its script code, and the interpreter
    accepts. *)

From S2P Require Import Prelude Types Extension Property Ast Typing Resources Iter Tokens Context ScriptNum Script Encoding Lex Decode DecodeLoop DecodeSound Lexing Parse DecodeComplete RoundTrip Interp InterpRefine Satisfy Choice SatShape SatAccept ScriptPubkey CsfsCov TxData Outputs Taproot Descriptor AsParsed SpendStack SpendScript.

Section spend.
Context {Pk : Type} `{MiniscriptKey Pk} `{EqDecision Pk} `{Signatures} `{!ToPublicKey Pk} `{!ToPublicKeyOk Pk}.
Context `{!ScriptBuilder} `{!ScriptBuilderOk} `{!LeafHashes} `{!SignaturesOk} `{!ScriptTemplates} `{!TaprootApi}.
Context `{!ScriptTemplatesOk} `{!ScriptKeys} `{!ScriptKeysOk} `{LockTimes}.
Context (env : Env) (stfr : Satisfier Pk) (mall : bool).
Implicit Types (ms : Miniscript Pk NoExt) (script : Script) (w : list bytes).

(** ** Descriptors that are ready *)

Definition ms_ready (ctx : ScriptContext) ms : Prop := script_ready ctx ms ∧ all_nodes node_not_zero ms.

Definition smv_ready (ctx : ScriptContext) (smv : SortedMultiVec Pk) : Prop :=
  smv_new ctx (smv_k smv) (smv_pks smv) = Ok smv.

Definition wsh_ready (wsh : Wsh Pk) : Prop :=
  match wsh with
  | WshSortedMulti smv => smv_ready Segwitv0 smv
  | WshMs ms => ms_ready Segwitv0 ms
  end.

(** A redeem script is a stack element; shorter ones could be numbers. *)
Definition redeem_sized (script : result Error Script) : Prop :=
  ∀ s, script = Ok s → 5 ≤ length (script_bytes s) ≤ 520.

Definition sh_ready (sh : Sh Pk) : Prop :=
  match sh with
  | ShWsh wsh => wsh_ready wsh
  | ShWpkh pk => is_uncompressed pk = false
  | ShSortedMulti smv => smv_ready Legacy smv ∧ redeem_sized (sh_inner_script sh)
  | ShMs ms => ms_ready Legacy ms ∧ redeem_sized (sh_inner_script sh)
  end.

(** The descriptors before Taproot, except covenants. *)
Definition desc_ready {Ext} (d : Descriptor Pk Ext) : Prop :=
  match d with
  | DBare ms => ms_ready BareCtx ms ∧ bare_new ms = Ok ms
  | DPkh _ => True
  | DWpkh pk => is_uncompressed pk = false
  | DSh sh => sh_ready sh
  | DWsh wsh => wsh_ready wsh
  | DTr _ | DTrExt _ | DLegacyCSFSCov _ => False
  end.

Context (honest : ∀ lh, SatisfierOk env Segwitv0 stfr lh).

(** [spk] with this satisfaction is taken apart, and accepted. *)
Definition delivered (spk code : Script) (wit : list bytes) (ssig : Script) : Prop :=
  ∃ inner stk, from_txdata (Ext := NoExt) spk ssig wit = Ok (inner, stk, Some code) ∧ accepts env inner stk.

(** ** Scripts of descriptors *)

Lemma honest_ctx ctx : sig_type ctx = Ecdsa → ∀ lh, SatisfierOk env ctx stfr lh.
Proof. intros He lh. by apply (SatisfierOk_ctx env stfr Segwitv0). Qed.

Lemma smv_spends ctx smv w :
  ctx = Legacy ∨ ctx = Segwitv0 → smv_ready ctx smv → smv_satisfy ctx smv stfr = Ok w →
  ∃ ms script, smv_encode ctx smv = Ok script ∧ spends env ctx ms script w.
Proof.
  intros Hctx Hr Hs.
  destruct (smv_new_ready ctx _ _ (sorted_pks smv) _ Hctx Hr (sorted_pks_perm smv)) as (mty & mext & Hms & Hready).
  unfold smv_satisfy in Hs. rewrite Hms in Hs. cbn [result_bind] in Hs.
  assert (sig_type ctx = Ecdsa ∧ ctx ≠ NoChecks) as [He Hc] by (by destruct Hctx as [->| ->]).
  destruct (ms_spends env stfr ctx _ false w He Hc Hready) as [script Hsp]; [by constructor|by apply honest_ctx|done|].
  eexists _, script. split; [|exact Hsp]. exact (sp_encode _ _ _ _ _ Hsp).
Qed.

Lemma wsh_spends wsh wit ssig :
  wsh_ready wsh → wsh_get_satisfaction mall wsh stfr = Ok (wit, ssig) →
  ∃ ms script w, spends env Segwitv0 ms script w ∧ wsh_inner_script wsh = Ok script ∧
    wit = w ++ [script_bytes script] ∧ ssig = script_new.
Proof.
  intros Hr (w & Hw & Hs)%bind_Ok. apply bind_Ok in Hs as (script & Hscript & [= <- <-]).
  destruct wsh as [smv|ms]; cbn in Hscript, Hr.
  - destruct (smv_spends Segwitv0 smv w) as (ms & script' & Henc & Hms); auto.
    assert (script' = script) as -> by congruence. by exists ms, script, w.
  - destruct Hr as [Hr Hnz]. destruct (ms_spends env stfr Segwitv0 ms mall w) as [script' Hsp]; try done.
    pose proof (sp_encode _ _ _ _ _ Hsp) as Henc. assert (script' = script) as -> by congruence.
    by exists ms, script, w.
Qed.

Lemma Stack_of_script ctx ms script w :
  spends env ctx ms script w → Stack_of (w ++ [script_bytes script]) = Push (script_bytes script) :: Stack_of w.
Proof. intros Hs. by rewrite Stack_of_snoc, (spends_element _ _ _ _ _ Hs). Qed.

(** ** Kinds of outputs *)

Lemma deliver_wsh wsh wit ssig :
  wsh_ready wsh → wsh_get_satisfaction mall wsh stfr = Ok (wit, ssig) →
  ∃ spk code, wsh_script_pubkey wsh = Ok spk ∧ wsh_ecdsa_sighash_script_code wsh = Ok code ∧
    delivered spk code wit ssig.
Proof.
  intros Hr Hs. destruct (wsh_spends _ _ _ Hr Hs) as (ms & script & w & Hsp & Hin & -> & ->).
  exists (to_v0_p2wsh script), script. unfold wsh_script_pubkey, wsh_ecdsa_sighash_script_code. rewrite Hin.
  split_and!; [done..|]. destruct (p2wsh_spent env _ _ _ _ eq_refl Hsp) as (nc & Htx & Hacc).
  exists (InScript nc StWsh), (Stack_of w). split; [|done]. rewrite <-Htx, to_v0_p2wsh_hash.
  rewrite txdata_p2wsh_branch with (ss := []) by apply empty_script_stack. by rewrite (Stack_of_script _ _ _ _ Hsp).
Qed.

Lemma program_stack program : 5 ≤ length (script_bytes program) ≤ 520 →
  script_sig_stack (push_script program) = Ok [Push (script_bytes program)].
Proof. intros Hl. by apply push_slice_stack. Qed.

Lemma deliver_sh_wsh wsh wit ssig :
  wsh_ready wsh → sh_get_satisfaction mall (ShWsh wsh) stfr = Ok (wit, ssig) →
  ∃ spk code, sh_script_pubkey (ShWsh wsh) = Ok spk ∧ sh_ecdsa_sighash_script_code (ShWsh wsh) = Ok code ∧
    delivered spk code wit ssig.
Proof.
  intros Hr Hs. unfold sh_get_satisfaction in Hs. apply bind_Ok in Hs as (ssig' & Hssig & Hs).
  apply bind_Ok in Hs as ([wit' ssig0] & Hs & [= <- <-]).
  destruct (wsh_spends _ _ _ Hr Hs) as (ms & script & w & Hsp & Hin & -> & ->).
  cbn in Hssig. rewrite Hin in Hssig. injection Hssig as <-.
  exists (to_p2sh (to_v0_p2wsh script)), script. cbn [sh_script_pubkey sh_ecdsa_sighash_script_code].
  unfold wsh_script_pubkey, wsh_ecdsa_sighash_script_code. rewrite Hin. split_and!; [done..|].
  assert (script_bytes (to_v0_p2wsh script) = [Byte.x00; Byte.x20] ++ hash_bytes (sha256_hash (script_bytes script))) as Hb
    by (by rewrite to_v0_p2wsh_hash, new_v0_wsh_bytes).
  assert (length (script_bytes (to_v0_p2wsh script)) = 34) as Hl by (rewrite Hb, length_app, hash_n_length; done).
  destruct (sh_wsh_spent env _ _ _ Hsp) as (nc & Htx & Hacc).
  exists (InScript nc StShWsh), (Stack_of w). split; [|done]. rewrite <-Htx, to_p2sh_hash.
  erewrite txdata_p2sh_branch by (apply program_stack; lia). rewrite <-to_p2sh_hash, (Stack_of_script _ _ _ _ Hsp).
  apply p2sh_wsh_program_spent; unfold is_program; rewrite Hl; [done|]. by rewrite Hb.
Qed.

(** A redeem script with its satisfaction. *)
Lemma deliver_redeem ms script w :
  spends env Legacy ms script w → 5 ≤ length (script_bytes script) ≤ 520 →
  delivered (to_p2sh script) script [] (witness_to_scriptsig (w ++ [script_bytes script])).
Proof.
  intros Hsp Hl. destruct (p2sh_script_spent env _ _ _ Hsp) as (nc & Htx & Hacc).
  exists (InScript nc StSh), (Stack_of w). split; [|done]. rewrite <-Htx, to_p2sh_hash.
  rewrite txdata_p2sh_branch with (ss := Stack_of (w ++ [script_bytes script]));
    [by rewrite (Stack_of_script _ _ _ _ Hsp)|].
  apply scriptsig_stack, Forall_app. split; [apply (sp_pushable _ _ _ _ _ Hsp)|].
  constructor; [|constructor]. by right; right.
Qed.

Lemma deliver_sh_sortedmulti smv wit ssig :
  sh_ready (ShSortedMulti smv) → sh_get_satisfaction mall (ShSortedMulti smv) stfr = Ok (wit, ssig) →
  ∃ script, smv_encode Legacy smv = Ok script ∧ delivered (to_p2sh script) script wit ssig.
Proof.
  intros [Hr Hl] (ssig' & _ & Hs)%bind_Ok. apply bind_Ok in Hs as (w & Hw & Hs).
  apply bind_Ok in Hs as (script & Henc & [= <- <-]).
  destruct (smv_spends Legacy smv w) as (ms & script' & Henc' & Hsp); auto.
  assert (script' = script) as -> by congruence.
  exists script. split; [done|]. by apply (deliver_redeem ms), Hl.
Qed.

Lemma deliver_sh_ms ms wit ssig :
  sh_ready (ShMs ms) → sh_get_satisfaction mall (ShMs ms) stfr = Ok (wit, ssig) →
  ∃ script, encode Legacy ms = Ok script ∧ delivered (to_p2sh script) script wit ssig.
Proof.
  intros [[Hr Hnz] Hl] (ssig' & _ & Hs)%bind_Ok. apply bind_Ok in Hs as (w & Hw & Hs).
  apply bind_Ok in Hs as (script & Henc & [= <- <-]).
  destruct (ms_spends env stfr Legacy ms mall w) as [script' Hsp]; try done; [by apply honest_ctx|].
  pose proof (sp_encode _ _ _ _ _ Hsp) as Henc'. assert (script' = script) as -> by congruence.
  exists script. split; [done|]. by apply (deliver_redeem ms), Hl.
Qed.

(** *** Keys *)

Lemma key_sig_accepts pk t s :
  lookup_ecdsa_sig stfr pk = Some s →
  accepts env (InPublicKey (Fullkey (to_public_key pk)) t) [Push (elementssig_to_rawsig s)].
Proof.
  intros Hs. destruct (ecdsa_verifies env stfr Segwitv0 (TapLeafHash_from_script script_new) pk s) as [ks Hks]; [done..|].
  by eapply pk_accepts.
Qed.

Lemma key_sig_stack k s :
  Stack_of [elementssig_to_rawsig s; pubkey_bytes k] = [Push (pubkey_bytes k); Push (elementssig_to_rawsig s)].
Proof. unfold Stack_of. cbn. by rewrite element_of_key, element_of_sig. Qed.

Lemma deliver_pkh pk wit ssig :
  pkh_get_satisfaction pk stfr = Ok (wit, ssig) →
  delivered (pkh_script_pubkey pk) (pkh_script_pubkey pk) wit ssig.
Proof.
  unfold pkh_get_satisfaction. destruct (lookup_ecdsa_sig stfr pk) as [s|] eqn:Hs; [|done]. intros [= <- <-].
  eexists _, _. split; [|by apply (key_sig_accepts pk PtPkh s)]. unfold pkh_script_pubkey.
  rewrite address_p2pkh_hash, <-p2pkh_spent. rewrite txdata_p2pkh_branch with (ss := Stack_of [elementssig_to_rawsig s; pubkey_bytes (to_public_key pk)]);
    [by rewrite key_sig_stack|].
  apply script_sig_stack_of. cbn [map]. pose proof (serialize_der_length s.1). pose proof (serialize_der_short s.1).
  assert (length (elementssig_to_rawsig s) = length (serialize_der s.1) + 1) as Hl
    by (unfold elementssig_to_rawsig; by rewrite length_app).
  pose proof (compressed_length (to_public_key pk)) as Hk.
  assert (33 ≤ length (pubkey_bytes (to_public_key pk)) ≤ 65) by (destruct (compressed _); lia).
  rewrite !slot_instr_long by lia.
  apply (has_push_key _ [PushBytes _]); [|lia]. apply (has_push_slice _ []); [apply has_new|lia..].
Qed.

Lemma deliver_wpkh pk wit ssig :
  is_uncompressed pk = false → wpkh_get_satisfaction pk stfr = Ok (wit, ssig) →
  delivered (wpkh_script_pubkey pk) (wpkh_ecdsa_sighash_script_code pk) wit ssig.
Proof.
  intros Hc. unfold wpkh_get_satisfaction. destruct (lookup_ecdsa_sig stfr pk) as [s|] eqn:Hs; [|done].
  intros [= <- <-]. eexists _, _. split; [|by apply (key_sig_accepts pk PtWpkh s)].
  unfold wpkh_script_pubkey, wpkh_ecdsa_sighash_script_code. rewrite <-p2wpkh_spent by (by apply compressed_key).
  rewrite address_p2wpkh_hash. erewrite txdata_p2wpkh_branch by apply empty_script_stack. by rewrite <-key_sig_stack.
Qed.

Lemma deliver_sh_wpkh pk wit ssig :
  is_uncompressed pk = false → sh_get_satisfaction mall (ShWpkh pk) stfr = Ok (wit, ssig) →
  delivered (to_p2sh (wpkh_script_pubkey pk)) (wpkh_ecdsa_sighash_script_code pk) wit ssig.
Proof.
  intros Hc. unfold sh_get_satisfaction, wpkh_get_satisfaction. cbn [sh_unsigned_script_sig result_bind].
  destruct (lookup_ecdsa_sig stfr pk) as [s|] eqn:Hs; [|done].
  intros [= <- <-]. eexists _, _. split; [|by apply (key_sig_accepts pk PtShWpkh s)].
  unfold wpkh_script_pubkey, wpkh_ecdsa_sighash_script_code. rewrite <-sh_wpkh_spent by (by apply compressed_key).
  assert (script_bytes (address_p2wpkh (to_public_key pk)) =
    [Byte.x00; Byte.x14] ++ hash_bytes (hash160_hash (pubkey_bytes (to_public_key pk)))) as Hb
    by (by rewrite address_p2wpkh_hash, new_v0_wpkh_bytes).
  assert (length (script_bytes (address_p2wpkh (to_public_key pk))) = 22) as Hl
    by (rewrite Hb, length_app, hash_n_length; done).
  rewrite to_p2sh_hash. erewrite txdata_p2sh_branch by (apply program_stack; lia).
  rewrite <-to_p2sh_hash, <-key_sig_stack. apply p2sh_program_spent. unfold is_program. rewrite Hl. by rewrite Hb.
Qed.

(** *** Bare scripts *)

Lemma encode_bytes ctx ms script :
  ctx ≠ NoChecks → script_ready ctx ms → encode ctx ms = Ok script → script_bytes script = instrs_bytes (instrs ctx ms).
Proof.
  intros Hctx Hr Henc. apply script_bytes_instrs.
  by destruct (encoded_lexes ctx ms script (sr_typed _ _ Hr) (sr_readable _ _ Hr)
    (sr_signed _ _ Hctx Hr) Henc).
Qed.

(** A signature of the satisfier, as the witness of a key. *)
Lemma bare_sig lh pk b :
  signs BareCtx stfr lh pk b →
  ∃ ks, verify_sersig (verify_sig env) (Fullkey (to_public_key pk)) b = Ok ks ∧ pushable b ∧ element_of b = Push b.
Proof.
  intros Hs. destruct (signs_verifies env BareCtx stfr lh (honest_ctx BareCtx eq_refl lh) pk b Hs) as (Hl & ks & Hks).
  exists ks. split_and!; [done|by apply (pushable_signs BareCtx stfr lh eq_refl pk)|by apply element_of_push].
Qed.

Lemma deliver_bare_pk script k b ks :
  script_bytes script = instrs_bytes [PushBytes (pubkey_bytes k); Op OP_CHECKSIG] → pushable b →
  verify_sersig (verify_sig env) (Fullkey k) b = Ok ks → element_of b = Push b →
  delivered script script [] (witness_to_scriptsig [b]).
Proof.
  intros Hb Hp Hv He. eexists _, _. split; [|by eapply (pk_accepts env (Fullkey k) PtPk)].
  assert (script_bytes script = byte_of_N (N.of_nat (length (pubkey_bytes k))) :: pubkey_bytes k ++ [Byte.xac]) as Hb'.
  { rewrite Hb. unfold instrs_bytes. cbn [map concat instr_bytes]. rewrite <-app_assoc.
    unfold push_header. rewrite (proj2 (N.ltb_lt _ _)); [done|]. rewrite compressed_length. case_match; lia. }
  rewrite <-p2pk_spent by exact Hb'. rewrite txdata_p2pk_branch with (ss := [Push b]) (k := k); [done|done|].
  rewrite scriptsig_stack by (by constructor). unfold Stack_of. cbn. by rewrite He.
Qed.

Lemma deliver_bare_pkh script k b ks :
  script_bytes script = instrs_bytes [Op OP_DUP; Op OP_HASH160; PushBytes (hash_bytes (hash160_hash (pubkey_bytes k)));
                                      Op OP_EQUALVERIFY; Op OP_CHECKSIG] → pushable b →
  verify_sersig (verify_sig env) (Fullkey k) b = Ok ks → element_of b = Push b →
  delivered script script [] (witness_to_scriptsig [b; pubkey_bytes k]).
Proof.
  intros Hb Hp Hv He. eexists _, _. split; [|by eapply (pk_accepts env (Fullkey k) PtPkh)].
  assert (script = new_p2pkh (hash160_hash (pubkey_bytes k))) as ->.
  { apply script_bytes_inj. rewrite Hb, new_p2pkh_bytes. unfold instrs_bytes. cbn [map concat instr_bytes].
    by rewrite hash_n_length. }
  rewrite <-p2pkh_spent. rewrite txdata_p2pkh_branch with (ss := [Push (pubkey_bytes k); Push b]); [done|].
  rewrite scriptsig_stack by (constructor; [done|constructor; [apply pushable_key|constructor]]).
  unfold Stack_of. cbn. by rewrite element_of_key, He.
Qed.

Lemma deliver_bare_script ms script w :
  spends env BareCtx ms script w → bare_head (script_bytes script) →
  delivered script script [] (witness_to_scriptsig w).
Proof.
  intros Hsp Hh. destruct (sp_parsed _ _ _ _ _ Hsp) as (ms' & Hp & _ & nc & Hnc & Hacc).
  exists (InScript nc StBare), (Stack_of w). split; [|done].
  rewrite txdata_bare_branch with (ss := Stack_of w); [|done|].
  - unfold txdata_bare. cbn. rewrite Hp. cbn. unfold no_checks_of. rewrite Hnc. done.
  - apply scriptsig_stack, (sp_pushable _ _ _ _ _ Hsp).
Qed.

Lemma multi_bare_head k (keys : list Pk) :
  1 ≤ k ≤ length keys → length keys ≤ 3 →
  bare_head (instrs_bytes ([count_instr k] ++ map (λ k, PushBytes (pubkey_bytes (to_public_key k))) keys
    ++ [count_instr (length keys); Op OP_CHECKMULTISIG])).
Proof.
  intros Hk Hn. destruct keys as [|k0 keys]; [cbn in Hk; lia|].
  assert (∃ x, instr_bytes (count_instr k) = [x] ∧ x ∉ [Byte.x21; Byte.x41; Byte.x76; Byte.x00; Byte.xa9]) as (x & Hx & Hin).
  { destruct k as [|[|[|[|k]]]]; try lia; (eexists; split; [reflexivity|]);
      rewrite !not_elem_of_cons; split_and!; try done; apply not_elem_of_nil. }
  unfold instrs_bytes. cbn [map app concat]. rewrite Hx. cbn [app bare_head]. split; [done|]. intros _.
  cbn [instr_bytes]. unfold push_header. pose proof (compressed_length (to_public_key k0)) as Hl.
  destruct (compressed _); rewrite Hl; done.
Qed.

Lemma deliver_bare ms wit ssig :
  ms_ready BareCtx ms → bare_new ms = Ok ms → bare_get_satisfaction mall ms stfr = Ok (wit, ssig) →
  ∃ script, encode BareCtx ms = Ok script ∧ delivered script script wit ssig.
Proof.
  intros [Hr Hnz] Hnew (w & Hw & [= <- <-])%bind_Ok.
  destruct (ms_satisfy_as_inv stfr BareCtx mall ms w Hw) as (script0 & min_fn & thresh_fn & Henc0 & HC & Hsat).
  destruct (ms_spends env stfr BareCtx ms mall w) as [script Hsp]; try done; [by apply honest_ctx|].
  pose proof (sp_encode _ _ _ _ _ Hsp) as Henc. pose proof (encode_bytes BareCtx _ _ ltac:(done) Hr Henc) as Hbytes.
  exists script. split; [done|]. apply bind_Ok in Hnew as ([] & (_ & _ & Hnew)%bind_Ok & _).
  unfold other_top_level_checks, bare_top_level_checks in Hnew.
  destruct ms as [[] mty mext]; try done; cbn [node] in Hnew.
  - destruct sub as [[] sty sext]; try done.
    + do 2 (apply sat_inv in Hsat; [|done]; cbn [node] in Hsat). destruct Hsat as (b & -> & Hsig).
      destruct (bare_sig _ _ _ Hsig) as (ks & Hks & Hp & He). by apply (deliver_bare_pk script (to_public_key pk) b ks).
    + do 2 (apply sat_inv in Hsat; [|done]; cbn [node] in Hsat). destruct Hsat as (b & -> & Hsig).
      destruct (bare_sig _ _ _ Hsig) as (ks & Hks & Hp & He). apply (deliver_bare_pkh script (to_public_key pk) b ks); [|done..].
      rewrite Hbytes. cbn [instrs app]. unfold key_hash. cbn. by rewrite pubkey_hash_hash.
    + do 2 (apply sat_inv in Hsat; [|done]; cbn [node] in Hsat). unfold pkh_signature in Hsat. cbn [sig_type] in Hsat.
      destruct (lookup_raw_pkh_ecdsa_sig stfr h) as [[k s]|] eqn:Hl; [|done]. injection Hsat as <-.
      apply (ok_raw_ecdsa _ _ _ _ (honest (TapLeafHash_from_script script0))) in Hl as [<- Hv].
      eapply deliver_bare_pkh; [by rewrite Hbytes|apply pushable_sig| |apply element_of_sig].
      cbn. rewrite elementssig_round_trip. cbn. by rewrite Hv.
  - destruct (length pks <=? 3) eqn:Hn; [|done]. apply Nat.leb_le in Hn.
    apply (deliver_bare_script _ _ _ Hsp). rewrite Hbytes. apply multi_bare_head; [|done].
    destruct (well_typed_rule _ _ (sr_typed _ _ Hr)) as [Hk _]. done.
Qed.

(** ** Every kind *)

(** (C15) Spending a descriptor end to end: for every descriptor before Taproot (bare, pkh,
    wpkh, wsh, sh, the nested ones and sorted multisigs), what [get_satisfaction] or
    [get_satisfaction_mall] returns, [from_txdata], without extensions, takes apart for the
    output [script_pubkey] with the script code [script_code], and the interpreter accepts
    it.  The descriptor is ready ([desc_ready]): its Miniscript is well typed, of type B,
    within the limits of its context and admitted by it node by node, nested as the decoder
    nests conjunctions, with lock times and counts below 2^31, without extensions and
    without a hash lock of 32 zero bytes; a bare Miniscript passes [Bare::new], a sorted
    multisig [SortedMultiVec::new]; the key of a wpkh is compressed; the redeem script of
    an sh has 5 to 520 bytes.  The satisfier only offers what the transaction makes good
    ([SatisfierOk]: signatures the callback accepts, preimages and keys of the hashes asked
    for, locks that have passed). *)
Theorem descriptor_spend {Ext : Type} `{!Extension Ext} `{!ParseableExt Ext} `{!SatisfyExt Ext}
    (d : Descriptor Pk Ext) wit ssig :
  desc_ready d → get_satisfaction mall d stfr = Ok (wit, ssig) →
  ∃ spk code, script_pubkey d = Ok spk ∧ script_code d = Ok code ∧ delivered spk code wit ssig.
Proof.
  destruct d as [ms|pk|pk|sh|wsh|tr|tr|cov]; cbn [desc_ready get_satisfaction script_pubkey script_code];
    intros Hr Hs; try done.
  - destruct Hr as [Hr Hn]. destruct (deliver_bare _ _ _ Hr Hn Hs) as (script & He & Hd). by exists script, script.
  - eexists _, _. split_and!; [done..|]. by apply deliver_pkh.
  - eexists _, _. split_and!; [done..|]. by apply deliver_wpkh.
  - destruct sh as [wsh|pk|smv|ms].
    + by apply deliver_sh_wsh.
    + eexists _, _. split_and!; [done..|]. by apply deliver_sh_wpkh.
    + destruct (deliver_sh_sortedmulti _ _ _ Hr Hs) as (script & He & Hd). cbn. rewrite He.
      by exists (to_p2sh script), script.
    + destruct (deliver_sh_ms _ _ _ Hr Hs) as (script & He & Hd). cbn. rewrite He. by exists (to_p2sh script), script.
  - by apply deliver_wsh.
Qed.
End spend.
