(* ===== verification/TapSpend.v ===== *)
(** * Taproot descriptors are spent

    The cheapest leaf is chosen, its witness opens the output, and the interpreter
    accepts it; a signature for the output key comes first. *)

From S2P Require Import Prelude Types Extension Property Ast Typing Resources Iter Tokens Context ScriptNum Script Encoding Lex Decode DecodeLoop DecodeSound Lexing Parse DecodeComplete RoundTrip Timelocks PolicyNormal Lift LiftProps Interp InterpRefine Satisfy Choice SatShape SatAccept SatTotal ScriptPubkey CsfsCov TxData Outputs Taproot AsParsed SpendStack SpendScript.

(** ** The walk over a Taproot tree, and its cached spending information

    The iterator yields the leaves with their depths in depth-first order; the cache of
    [Tr::spend_info] holds what would be computed. *)

Section tree.
Context {Pk : Type} `{MiniscriptKey Pk} {Ext : Type}.
Implicit Types (t : TapTree Pk Ext) (stack : TapTreeIter Pk Ext).

(** The leaves below a depth, from left to right. *)
Fixpoint tap_leaves (depth : nat) t : list (nat * Miniscript Pk Ext) :=
  match t with
  | TapNode l r => tap_leaves (depth + 1) l ++ tap_leaves (depth + 1) r
  | TapLeaf ms => [(depth, ms)]
  end.

Definition stack_leaves stack : list (nat * Miniscript Pk Ext) :=
  concat (map (λ '(depth, t), tap_leaves depth t) stack).
Definition stack_size stack : nat := sum_list (map (λ '(_, t), taptree_size t) stack).

Lemma taptree_size_pos t : 1 ≤ taptree_size t.
Proof. destruct t; cbn; lia. Qed.

Lemma tap_leaves_length depth t : length (tap_leaves depth t) ≤ taptree_size t.
Proof.
  revert depth. induction t as [l IHl r IHr|ms]; intros depth; cbn; [|lia].
  rewrite length_app. specialize (IHl (depth + 1)). specialize (IHr (depth + 1)). lia.
Qed.

(** A call yields the first leaf of the stack and leaves the others. *)
Lemma next_leaf fuel stack :
  stack_size stack ≤ fuel →
  match stack_leaves stack with
  | [] => TapTreeIter_next fuel stack = (None, [])
  | leaf :: rest => ∃ stack', TapTreeIter_next fuel stack = (Some leaf, stack') ∧
      stack_leaves stack' = rest ∧ stack_size stack' ≤ stack_size stack
  end.
Proof.
  revert stack. induction fuel as [|fuel IH]; intros stack Hf.
  { destruct stack as [|[depth t] stack]; [done|]. cbn in Hf. pose proof (taptree_size_pos t). lia. }
  destruct stack as [|[depth t] stack]; [done|]. destruct t as [l r|ms].
  - specialize (IH ((depth + 1, l) :: (depth + 1, r) :: stack)). unfold stack_leaves, stack_size in *.
    cbn [map concat sum_list_with tap_leaves taptree_size TapTreeIter_next id] in *.
    rewrite app_assoc in IH. specialize (IH ltac:(lia)).
    destruct ((tap_leaves (depth + 1) l ++ tap_leaves (depth + 1) r) ++ _) as [|leaf rest]; [done|].
    destruct IH as (stack' & Hn & Hl & Hs). exists stack'. split_and!; [done..|lia].
  - cbn. exists stack. split_and!; [done..|]. unfold stack_size. cbn. lia.
Qed.

Lemma collect_leaves fuel calls stack :
  stack_size stack ≤ fuel → length (stack_leaves stack) ≤ calls →
  TapTreeIter_collect calls fuel stack = stack_leaves stack.
Proof.
  revert stack. induction calls as [|calls IH]; intros stack Hf Hc.
  { destruct (stack_leaves stack); [done|cbn in Hc; lia]. }
  pose proof (next_leaf fuel stack Hf) as Hn. cbn. destruct (stack_leaves stack) as [|leaf rest].
  - by rewrite Hn.
  - destruct Hn as (stack' & -> & <- & Hs). f_equal. apply IH; [lia|]. cbn in Hc. lia.
Qed.

(** The iterator over a Taproot tree terminates and yields its leaves: from the
    stack that holds the root at depth 0, the calls of [next] give every leaf once, from
    left to right, with the depth its control block needs. *)
Theorem taptree_iter_leaves t : taptree_iter t = tap_leaves 0 t.
Proof.
  unfold taptree_iter. rewrite collect_leaves.
  - unfold stack_leaves. cbn. by rewrite app_nil_r.
  - unfold stack_size. cbn. lia.
  - unfold stack_leaves. cbn. rewrite app_nil_r. apply tap_leaves_length.
Qed.

(** The depth of a leaf is within the height of the tree. *)
Lemma tap_leaves_depth depth t d ms :
  (d, ms) ∈ tap_leaves depth t → depth ≤ d ≤ depth + taptree_height t.
Proof.
  revert depth. induction t as [l IHl r IHr|ms']; intros depth; cbn.
  - intros [Hin|Hin]%elem_of_app; [apply IHl in Hin|apply IHr in Hin]; lia.
  - intros [= -> ->]%list_elem_of_singleton. lia.
Qed.
End tree.

(** ** Taproot descriptors are spent

    The cheapest leaf is chosen, its witness opens the output, and the interpreter
    accepts it; a signature for the output key comes first. *)

(** ** Laws of the Taproot builder

    [builder_scripts] are the scripts of the leaves added so far. *)
Class TaprootApiOk `{TaprootApi} : Type := {
  builder_scripts : TaprootBuilder → list Script;
  builder_new_scripts : builder_scripts taproot_builder_new = [];
  add_leaf_scripts b depth s b' : add_leaf b depth s = Some b' → builder_scripts b' = builder_scripts b ++ [s];
  finalize_scripts b key info s : finalize b key = Some info → s ∈ builder_scripts b →
    ∃ cb, control_block info s = Some cb;
  (** a control block proves that its leaf is committed to *)
  control_block_commits info s cb : control_block info s = Some cb →
    verify_taproot_commitment cb (output_key info) s = true;
  control_block_round_trip cb : ControlBlock_from_slice (control_block_serialize cb) = Some cb;
  (** its first byte is a leaf version with a parity bit *)
  control_block_head cb : ∃ x b, control_block_serialize cb = x :: b ∧ x ≠ TAPROOT_ANNEX_PREFIX ∧ b ≠ [];
}.

Section spend_info.
Context {Pk : Type} `{MiniscriptKey Pk} `{EqDecision Pk} `{Signatures} `{!ToPublicKey Pk} `{!ScriptBuilder}.
Context `{!ScriptTemplates} `{!TaprootApi} `{!TaprootApiOk} `{!LeafHashes} `{LockTimes}.
Context {Ext : Type} `{!Extension Ext} `{!ParseableExt Ext} `{!SatisfyExt Ext}.
Implicit Types self : Tr Pk Ext.

(** The cache is empty, or holds what would be computed. *)
Definition cache_coherent self : Prop :=
  ∀ info, cached_spend_info self = Some info → compute_spend_info self = Ok info.

Lemma tr_new_coherent key tree self : tr_new key tree = Ok self → cache_coherent self.
Proof. unfold tr_new. case_match; [|done]. by intros [= <-]. Qed.

(** The cache of the spending information is transparent: on a descriptor whose cache
    is empty or coherent, [spend_info] gives what would be computed, and the descriptor it
    leaves has the same key and tree, is coherent again, and gives the same answer. *)
Theorem spend_info_cached self :
  cache_coherent self →
  match spend_info self with
  | Ok (info, self') =>
      compute_spend_info self = Ok info ∧ internal_key self' = internal_key self ∧
      taptree self' = taptree self ∧ cache_coherent self' ∧ spend_info self' = Ok (info, self')
  | Err e => compute_spend_info self = Err e
  | Panic => compute_spend_info self = Panic
  end.
Proof.
  intros Hc. unfold spend_info. destruct (cached_spend_info self) as [info|] eqn:Hi.
  - split_and!; [by apply Hc|done..|by rewrite Hi].
  - destruct (compute_spend_info self) as [info|e|] eqn:Hcomp; [|done..]. cbn.
    split_and!; [done..| |done]. intros info' [= <-]. exact Hcomp.
Qed.

Lemma spend_info_computes self info self' :
  cache_coherent self → spend_info self = Ok (info, self') → compute_spend_info self = Ok info.
Proof.
  intros Hc. unfold spend_info. destruct (cached_spend_info self) as [i|] eqn:Hi.
  - intros [= <- _]. by apply Hc.
  - by intros (i & Hi' & [= -> _])%bind_Ok.
Qed.

Lemma spend_info_total self info :
  cache_coherent self → compute_spend_info self = Ok info → ∃ self', spend_info self = Ok (info, self').
Proof.
  intros Hc Hi. unfold spend_info. destruct (cached_spend_info self) as [i|] eqn:Hcached.
  - exists self. apply Hc in Hcached. congruence.
  - rewrite Hi. cbn. by eexists.
Qed.

(** Every leaf has a control block. *)
Lemma add_leaves_scripts leaves : ∀ b b',
  try_fold (λ builder '(depth, script),
    let? s := encode Tap script in
    match add_leaf builder depth s with Some builder => Ok builder | None => Panic end) b leaves
  = Ok b' →
  (∀ s, s ∈ builder_scripts b → s ∈ builder_scripts b') ∧
  ∀ depth ms s, (depth, ms) ∈ leaves → encode Tap ms = Ok s → s ∈ builder_scripts b'.
Proof.
  induction leaves as [|[depth ms] leaves IH]; intros b b'; cbn [try_fold].
  { intros [= <-]. split; [done|]. by intros ? ? ? ?%not_elem_of_nil. }
  intros (b1 & (s1 & Henc & Hadd)%bind_Ok & Hrest)%bind_Ok.
  destruct (add_leaf b depth s1) as [b2|] eqn:Hb; [|done]. injection Hadd as ->.
  apply add_leaf_scripts in Hb. destruct (IH _ _ Hrest) as [Hkeep Hall]. split.
  - intros s Hs. apply Hkeep. rewrite Hb. apply elem_of_app. by left.
  - intros d m s [[= -> ->]|Hin]%elem_of_cons Hs; [|by eapply Hall].
    apply Hkeep. rewrite Hb. apply elem_of_app. right. assert (s = s1) as -> by congruence.
    by apply list_elem_of_singleton.
Qed.

Lemma leaf_control_block self info depth ms s :
  compute_spend_info self = Ok info → (depth, ms) ∈ iter_scripts self → encode Tap ms = Ok s →
  ∃ cb, control_block info s = Some cb.
Proof.
  unfold compute_spend_info. destruct (taptree self) as [t|] eqn:Ht.
  - intros (b & Hb & Hf)%bind_Ok Hin Hs. destruct (finalize b _) as [info'|] eqn:Hfin; [|done]. injection Hf as ->.
    eapply finalize_scripts; [done|]. by eapply (add_leaves_scripts _ _ _ Hb).
  - intros _ Hin. unfold iter_scripts in Hin. rewrite Ht in Hin. by apply not_elem_of_nil in Hin.
Qed.
End spend_info.

(** ** The cheapest leaf *)

Section best.
Context {Pk : Type} `{MiniscriptKey Pk} `{EqDecision Pk} `{Signatures} `{!ToPublicKey Pk} `{!ScriptBuilder}.
Context `{!ScriptTemplates} `{!TaprootApi} `{!TaprootApiOk} `{!LeafHashes} `{LockTimes}.
Context {Ext : Type} `{!Extension Ext} `{!ParseableExt Ext} `{!SatisfyExt Ext}.
Context (stfr : Satisfier Pk) (mall : bool).
Implicit Types (self : Tr Pk Ext) (ms : Miniscript Pk Ext) (leaves : list (nat * Miniscript Pk Ext)).

Definition leaf_satisfaction ms : result Error (list bytes) :=
  if mall then ms_satisfy_malleable Tap stfr ms else ms_satisfy Tap stfr ms.

(** The measure: the witness of the leaf, its script and its control block. *)
Definition leaf_size (depth : nat) ms (w : list bytes) : nat :=
  let size := match script_size Tap ms with Ok n => n | _ => 0 end in
  witness_size w + control_block_len depth + size + varint_len size.

(** Nothing panics on a leaf. *)
Definition leaf_good (info : TaprootSpendInfo) (leaf : nat * Miniscript Pk Ext) : Prop :=
  leaf_satisfaction leaf.2 ≠ Panic ∧
  ∃ script n cb, encode Tap leaf.2 = Ok script ∧ script_size Tap leaf.2 = Ok n ∧ control_block info script = Some cb.

(** A witness for one of the leaves. *)
Definition leaf_witness info leaves (wit : list bytes) (size : nat) : Prop :=
  ∃ depth ms w script cb,
    (depth, ms) ∈ leaves ∧ leaf_satisfaction ms = Ok w ∧ encode Tap ms = Ok script ∧
    control_block info script = Some cb ∧ size = leaf_size depth ms w ∧
    wit = w ++ [script_bytes script; control_block_serialize cb].

Definition at_most leaves (size : nat) : Prop :=
  ∀ depth ms w, (depth, ms) ∈ leaves → leaf_satisfaction ms = Ok w → size ≤ leaf_size depth ms w.

(** The best leaf among those that were seen. *)
Definition best_so_far info leaves (min : option (list bytes * nat)) : Prop :=
  match min with
  | None => ∀ depth ms w, (depth, ms) ∈ leaves → leaf_satisfaction ms ≠ Ok w
  | Some (wit, size) => leaf_witness info leaves wit size ∧ at_most leaves size
  end.

Lemma leaf_witness_mono info leaves leaf wit size :
  leaf_witness info leaves wit size → leaf_witness info (leaves ++ [leaf]) wit size.
Proof.
  intros (d & ms & w & s & cb & Hin & Hrest). exists d, ms, w, s, cb. split; [|done]. apply elem_of_app. by left.
Qed.

Lemma at_most_snoc leaves size depth ms :
  at_most leaves size → (∀ w, leaf_satisfaction ms = Ok w → size ≤ leaf_size depth ms w) →
  at_most (leaves ++ [(depth, ms)]) size.
Proof.
  intros Hall Hlast d m w [Hin|[= -> ->]%list_elem_of_singleton]%elem_of_app Hw; [by apply Hall|by apply Hlast].
Qed.

Lemma tap_step_skip info leaves min depth ms :
  best_so_far info leaves min → (∀ w, leaf_satisfaction ms ≠ Ok w) →
  best_so_far info (leaves ++ [(depth, ms)]) min.
Proof.
  intros Hb Hw. destruct min as [[wit size]|]; cbn in *.
  - destruct Hb as [Hwit Hmin]. split; [by apply leaf_witness_mono|]. apply at_most_snoc; [done|].
    intros w Hs. by destruct (Hw w).
  - intros d m w [Hin|[= -> ->]%list_elem_of_singleton]%elem_of_app; [by eapply Hb|apply Hw].
Qed.

Lemma tap_step_best info leaves min leaf :
  best_so_far info leaves min → leaf_good info leaf →
  ∃ min', tap_step info mall stfr min leaf = Ok min' ∧ best_so_far info (leaves ++ [leaf]) min'.
Proof.
  destruct leaf as [depth ms]. intros Hbest (Hp & script & n & cb & Henc & Hn & Hcb). cbn [snd] in *.
  unfold tap_step. fold (leaf_satisfaction ms). destruct (leaf_satisfaction ms) as [w|e|] eqn:Hw; [| |done].
  2:{ eexists. split; [done|]. apply tap_step_skip; [done|]. intros w. by rewrite Hw. }
  rewrite Hn. cbn [result_bind]. rewrite Henc. cbn [result_bind]. rewrite Hcb.
  assert (witness_size w + control_block_len depth + n + varint_len n = leaf_size depth ms w) as ->
    by (unfold leaf_size; by rewrite Hn).
  assert (∀ w', leaf_satisfaction ms = Ok w' → leaf_size depth ms w ≤ leaf_size depth ms w') as Hself
    by (rewrite Hw; by intros w' [= <-]).
  assert (at_most leaves (leaf_size depth ms w) → best_so_far info (leaves ++ [(depth, ms)])
    (Some (w ++ [script_bytes script] ++ [control_block_serialize cb], leaf_size depth ms w))) as Hnew.
  { intros Hall. split; [|by apply at_most_snoc]. exists depth, ms, w, script, cb. split_and!; try done.
    apply elem_of_app. right. by apply list_elem_of_singleton. }
  destruct min as [[wit size]|].
  - destruct Hbest as [Hwit Hmin]. destruct (Nat.ltb_spec size (leaf_size depth ms w)) as [Hlt|Hle].
    + eexists. split; [done|]. split; [by apply leaf_witness_mono|]. apply at_most_snoc; [done|].
      intros w' Hw'. specialize (Hself w' Hw'). lia.
    + eexists. split; [done|]. apply Hnew. intros d m w' Hin Hs. specialize (Hmin d m w' Hin Hs). lia.
  - eexists. split; [done|]. apply Hnew. intros d m w' Hin Hs. by destruct (Hbest d m w' Hin).
Qed.

Lemma tap_fold_best info leaves : ∀ seen min,
  best_so_far info seen min → Forall (leaf_good info) leaves →
  ∃ min', try_fold (tap_step info mall stfr) min leaves = Ok min' ∧ best_so_far info (seen ++ leaves) min'.
Proof.
  induction leaves as [|leaf leaves IH]; intros seen min Hb Hg; cbn [try_fold].
  { exists min. by rewrite app_nil_r. }
  apply Forall_cons_iff in Hg as [Hleaf Hg].
  destruct (tap_step_best info seen min leaf Hb Hleaf) as (min1 & -> & Hb1). cbn [result_bind].
  destruct (IH _ _ Hb1 Hg) as (min' & Hf & Hb'). exists min'. split; [done|]. by rewrite <-app_assoc in Hb'.
Qed.

(** What is chosen, for a descriptor whose spending information is known. *)
Lemma best_tap_spend_spec self info self' :
  spend_info self = Ok (info, self') → lookup_tap_key_spend_sig stfr = None →
  Forall (leaf_good info) (iter_scripts self) →
  match best_tap_spend self stfr mall with
  | Ok (wit, ssig) => ssig = script_new ∧ ∃ size, best_so_far info (iter_scripts self) (Some (wit, size))
  | Err e => e = CouldNotSatisfy ∧ best_so_far info (iter_scripts self) None
  | Panic => False
  end.
Proof.
  intros Hi Hsig Hg. unfold best_tap_spend. rewrite Hi. cbn [result_bind]. rewrite Hsig.
  destruct (tap_fold_best info (iter_scripts self) [] None) as (min & -> & Hb); [|done|].
  { by intros ??? ?%not_elem_of_nil. }
  cbn [result_bind]. destruct min as [[wit size]|]; [|done]. split; [done|]. by exists size.
Qed.
End best.

(** ** Leaves that are ready *)

Section ready.
Context {Pk : Type} `{MiniscriptKey Pk} `{EqDecision Pk} `{Signatures} `{!ToPublicKey Pk} `{!ToPublicKeyOk Pk}.
Context `{!ScriptBuilder} `{!ScriptBuilderOk} `{!LeafHashes} `{!SignaturesOk} `{!ScriptTemplates}.
Context `{!TaprootApi} `{!TaprootApiOk} `{LockTimes}.
Context (stfr : Satisfier Pk) (mall : bool).
Implicit Types (self : Tr Pk NoExt) (ms : Miniscript Pk NoExt).

Definition leaves_ready self : Prop :=
  Forall (λ leaf, script_ready Tap leaf.2 ∧ all_nodes node_liftable leaf.2) (iter_scripts self).

Lemma finish_no_panic sat : finish_satisfy Tap sat ≠ Panic.
Proof. unfold finish_satisfy. destruct (wit sat); [|done..]. cbn. unfold tap_check_witness, check_witness_len. by case_match. Qed.

Lemma leaf_satisfaction_returns ms :
  script_ready Tap ms → all_nodes node_liftable ms → leaf_satisfaction stfr mall ms ≠ Panic.
Proof.
  intros Hr Hl. destruct (encode_total Tap ms (sr_typed _ _ Hr) (sr_readable _ _ Hr) (sr_signed Tap _ ltac:(done) Hr)) as [script Hs].
  unfold leaf_satisfaction, ms_satisfy_malleable, ms_satisfy. rewrite Hs. cbn [result_bind].
  destruct mall; unfold satisfy_mall, satisfy.
  - destruct (helpers_ok_all Tap stfr (TapLeafHash_from_script script) (safe (Types.mall (ty ms)))
      minimum_mall thresh_mall ms (sr_typed _ _ Hr) Hl) as (s & _ & -> & _). apply finish_no_panic.
  - destruct (helpers_ok_all Tap stfr (TapLeafHash_from_script script) (safe (Types.mall (ty ms)))
      minimum thresh ms (sr_typed _ _ Hr) Hl) as (s & _ & -> & _). apply finish_no_panic.
Qed.

Lemma ready_leaf_good self info leaf :
  compute_spend_info self = Ok info → leaf ∈ iter_scripts self →
  script_ready Tap leaf.2 → all_nodes node_liftable leaf.2 → leaf_good stfr mall info leaf.
Proof.
  destruct leaf as [depth ms]. intros Hi Hin Hr Hl. split; [by apply leaf_satisfaction_returns|]. cbn [snd] in *.
  destruct (encode_total Tap ms (sr_typed _ _ Hr) (sr_readable _ _ Hr) (sr_signed Tap _ ltac:(done) Hr)) as [script Hs].
  destruct (leaf_control_block self info depth ms script Hi Hin Hs) as [cb Hcb].
  exists script, (instrs_size (instrs Tap ms)), cb. split_and!; try done.
  apply script_size_instrs; [done|apply (sr_typed _ _ Hr)| |apply (sr_allowed _ _ Hr)|apply all_nodes_all; by intros []].
  eapply all_nodes_impl; [|apply (sr_readable _ _ Hr)]. apply node_readable_sized.
Qed.

Lemma ready_leaves_good self info :
  compute_spend_info self = Ok info → leaves_ready self → Forall (leaf_good stfr mall info) (iter_scripts self).
Proof.
  intros Hi Hr. apply list.Forall_forall. intros leaf Hin. unfold leaves_ready in Hr. rewrite list.Forall_forall in Hr.
  destruct (Hr leaf Hin). by eapply ready_leaf_good.
Qed.

End ready.

(** ** Spending *)

Section spend.
Context {Pk : Type} `{MiniscriptKey Pk} `{EqDecision Pk} `{Signatures} `{!ToPublicKey Pk} `{!ToPublicKeyOk Pk}.
Context `{!ScriptBuilder} `{!ScriptBuilderOk} `{!LeafHashes} `{!SignaturesOk} `{!ScriptTemplates}.
Context `{!ScriptTemplatesOk} `{!ScriptKeys} `{!ScriptKeysOk} `{!TaprootApi} `{!TaprootApiOk} `{LockTimes}.
Context (env : Env) (stfr : Satisfier Pk) (mall : bool).
Implicit Types (self : Tr Pk NoExt) (ms : Miniscript Pk NoExt).

(** The output of a Taproot descriptor. *)
Definition p2tr (key : XOnlyPublicKey) : Script :=
  into_script (push_slice (push_opcode builder_new OP_PUSHNUM_1) (xonly_serialize key)).

Lemma p2tr_bytes key : script_bytes (p2tr key) = [Byte.x51; Byte.x20] ++ xonly_serialize key.
Proof.
  assert (has_instrs (push_slice (push_opcode builder_new OP_PUSHNUM_1) (xonly_serialize key))
    [Op OP_PUSHNUM_1; PushBytes (xonly_serialize key)]) as Hi.
  { pose proof (xonly_serialize_length key). apply (has_push_slice _ [Op OP_PUSHNUM_1]); [|lia..].
    by apply (has_push_opcode _ [] OP_PUSHNUM_1), has_new. }
  unfold p2tr. rewrite (script_bytes_instrs _ _ Hi). unfold instrs_bytes. cbn [map concat instr_bytes].
  by rewrite xonly_serialize_length, app_nil_r.
Qed.

Lemma txdata_p2tr_branch key wit :
  from_txdata (Ext := NoExt) (p2tr key) script_new wit = txdata_p2tr (p2tr key) [] (Stack_of wit).
Proof.
  unfold from_txdata. rewrite empty_script_stack. cbn [result_bind].
  rewrite is_p2pk_template, is_p2pkh_template, is_v0_p2wpkh_template, is_v0_p2wsh_template.
  assert (length (script_bytes (p2tr key)) = 34) as Hl by (by rewrite p2tr_bytes, length_app, xonly_serialize_length).
  rewrite 4!template_length by (rewrite Hl; cbn; lia). cbn [orb].
  rewrite p2tr_bytes. cbn [app]. rewrite template_head by done. unfold is_v1_p2tr. rewrite Hl, p2tr_bytes. done.
Qed.

Lemma p2tr_output_key key : XOnly_from_slice (drop 2 (script_bytes (p2tr key))) = Some key.
Proof. rewrite p2tr_bytes. cbn [app drop]. apply XOnly_from_serialize. Qed.

Lemma element_of_control_block cb : element_of (control_block_serialize cb) = Push (control_block_serialize cb).
Proof.
  destruct (control_block_head cb) as (x & b & Hb & _ & Hne). apply element_of_push. rewrite Hb.
  destruct b; [done|]. cbn. lia.
Qed.

(** A signature for the output key. *)
Lemma key_spend_taken key sig :
  verify_sig env (KsSchnorr key sig) = true →
  ∃ stk, from_txdata (Ext := NoExt) (p2tr key) script_new [schnorr_to_vec sig]
      = Ok (InPublicKey (XOnlyKey key) PtTr, stk, None) ∧ accepts env (InPublicKey (XOnlyKey key) PtTr) stk.
Proof.
  intros Hv. exists [Push (schnorr_to_vec sig)]. split.
  - rewrite txdata_p2tr_branch. unfold Stack_of. cbn [map rev app]. rewrite element_of_push by apply schnorr_length.
    unfold txdata_p2tr. rewrite p2tr_output_key. cbn [ok_or result_bind].
    unfold has_annex. cbn [length]. by rewrite andb_false_r.
  - apply (pk_accepts env _ _ _ (KsSchnorr key sig)). cbn. rewrite schnorr_from_to. cbn. by rewrite Hv.
Qed.

Lemma tap_script_element ms script :
  script_ready Tap ms → encode Tap ms = Ok script → element_of (script_bytes script) = Push (script_bytes script).
Proof.
  intros Hr Henc. pose proof (sr_typed _ _ Hr) as Hwt.
  destruct (encoded_lexes Tap ms script Hwt (sr_readable _ _ Hr) (sr_signed Tap _ ltac:(done) Hr) Henc) as [Hi _].
  rewrite (script_bytes_instrs _ _ Hi). unfold element_of.
  rewrite bool_decide_eq_false_2 by (apply instrs_bytes_not_one, instrs_named).
  pose proof (instrs_bytes_nonempty _ (instrs_nonempty Tap ms Hwt)). by destruct (instrs_bytes _).
Qed.

(** A leaf with its control block. *)
Lemma leaf_spend_taken info ms w script cb :
  script_ready Tap ms → all_nodes node_not_zero ms → (∀ lh, SatisfierOk env Tap stfr lh) →
  leaf_satisfaction stfr mall ms = Ok w → encode Tap ms = Ok script → control_block info script = Some cb →
  ∃ inner stk, from_txdata (Ext := NoExt) (p2tr (output_key info)) script_new
      (w ++ [script_bytes script; control_block_serialize cb]) = Ok (inner, stk, Some script) ∧
    accepts env inner stk.
Proof.
  intros Hr Hnz Hok Hw Henc Hcb.
  pose proof (xonly_key_view (Pk := Pk) Tap eq_refl) as V. pose proof (XOnly_ParseableKeyOk Tap eq_refl) as HK.
  destruct (ms_read_back env stfr Tap ms mall w script (K := XOnlyPublicKey))
    as (ms' & Hp & Henc' & nc & Hnc & Hacc); [done..|].
  exists (InScript nc StTr), (Stack_of w). split; [|done]. rewrite txdata_p2tr_branch.
  assert (Stack_of (w ++ [script_bytes script; control_block_serialize cb]) =
    Push (control_block_serialize cb) :: Push (script_bytes script) :: Stack_of w) as ->.
  { rewrite Stack_of_app. unfold Stack_of at 1. cbn [map rev app].
    by rewrite element_of_control_block, (tap_script_element ms script Hr Henc). }
  unfold txdata_p2tr. rewrite p2tr_output_key. cbn [ok_or result_bind].
  destruct (control_block_head cb) as (x & b & Hb & Hx & _).
  assert (has_annex (Push (control_block_serialize cb) :: Push (script_bytes script) :: Stack_of w) = false) as ->.
  { unfold has_annex. rewrite Hb. by rewrite bool_decide_eq_false_2. }
  cbn [as_push result_bind]. rewrite control_block_round_trip. cbn [ok_or result_bind script_from_stack_elem].
  rewrite script_from_script, Hp. cbn [fueled map_err result_bind]. unfold no_checks_of. rewrite Hnc.
  cbn [map_err result_bind]. unfold encoded. rewrite Henc'. cbn [map_err result_bind].
  by rewrite (control_block_commits _ _ _ Hcb).
Qed.

(** (C20) Spending a Taproot descriptor end to end: what [best_tap_spend] returns,
    [from_txdata] takes apart for the output of the descriptor, as a signature of the
    output key when the satisfier has one or else as the script of one of the leaves, and
    the interpreter accepts it.  The cache is empty or coherent, the spending information
    can be computed, the leaves are well typed, of type B, admitted by Tapscript and nested
    as the decoder nests conjunctions, with lock times and counts below 2^31, without
    extensions, raw key hashes and hash locks of 32 zero bytes; a signature for the key
    spend is valid for the output key, and the satisfier only offers what the transaction
    makes good. *)
Theorem tap_spend self info wit ssig :
  cache_coherent self → compute_spend_info self = Ok info → leaves_ready self →
  Forall (λ leaf, all_nodes node_not_zero leaf.2) (iter_scripts self) →
  (∀ lh, SatisfierOk env Tap stfr lh) →
  (∀ sig, lookup_tap_key_spend_sig stfr = Some sig → verify_sig env (KsSchnorr (output_key info) sig) = true) →
  best_tap_spend self stfr mall = Ok (wit, ssig) →
  ∃ spk, tr_script_pubkey self = Ok spk ∧
    ∃ inner stk code, from_txdata (Ext := NoExt) spk ssig wit = Ok (inner, stk, code) ∧ accepts env inner stk ∧
      match lookup_tap_key_spend_sig stfr, code with
      | Some _, None => inner = InPublicKey (XOnlyKey (output_key info)) PtTr
      | None, Some s => ∃ depth ms, (depth, ms) ∈ iter_scripts self ∧ encode Tap ms = Ok s
      | _, _ => False
      end.
Proof.
  intros Hc Hi Hr Hnz Hok Hsig Hb. destruct (spend_info_total self info Hc Hi) as [self' Hs].
  exists (p2tr (output_key info)). split; [unfold tr_script_pubkey; by rewrite Hs|].
  assert (Forall (leaf_good stfr mall info) (iter_scripts self)) as Hg by (by apply ready_leaves_good).
  destruct (lookup_tap_key_spend_sig stfr) as [sig|] eqn:Hl.
  - unfold best_tap_spend in Hb. rewrite Hs in Hb. cbn [result_bind] in Hb. rewrite Hl in Hb. injection Hb as <- <-.
    destruct (key_spend_taken _ sig (Hsig _ eq_refl)) as (stk & Htx & Hacc). by eexists _, stk, None.
  - pose proof (best_tap_spend_spec stfr mall self info self' Hs Hl Hg) as Hspec. rewrite Hb in Hspec.
    destruct Hspec as (-> & size & (depth & ms & w & script & cb & Hin & Hw & Henc & Hcb & _ & ->) & _).
    unfold leaves_ready in Hr. rewrite list.Forall_forall in Hr, Hnz.
    destruct (leaf_spend_taken info ms w script cb) as (inner & stk & Htx & Hacc); try done.
    + by destruct (Hr _ Hin).
    + by apply (Hnz _ Hin).
    + exists inner, stk, (Some script). split_and!; [done..|]. by exists depth, ms.
Qed.
End spend.
