(* ===== verification/DescriptorSamples.v ===== *)
(** * Descriptors on samples

    A Taproot builder that keeps its leaves, a satisfier over the scripts as bytes, and
    the theorems about descriptors on sample descriptors. *)

From S2P Require Import Prelude Types Extension Instances Property Ast Examples Typing Resources Iter Tokens Context ScriptNum Script Encoding Builder Lex Decode DecodeLoop DecodeSound Lexing Parse DecodeComplete RoundTrip Interp InterpRefine InterpSound Satisfy Choice SatShape SatAccept SatSamples ScriptPubkey CsfsCov TxData Outputs Taproot Descriptor AsParsed SpendStack SpendScript DescriptorSpend TapSpend.
From stdpp Require Import strings.

(** ** A concrete builder of scripts as bytes

    A builder is the list of instructions it was given, a script its bytes, and reading
    them checks that pushes are minimal: a model of the [elements] crate for which the
    laws of the script builder and of the templates hold. *)

(** ** Reading instructions *)

Definition named_opcodes : list opcode := [
  OP_PUSHNUM_NEG1; OP_PUSHNUM_1; OP_PUSHNUM_2; OP_PUSHNUM_3; OP_PUSHNUM_4; OP_PUSHNUM_5;
  OP_PUSHNUM_6; OP_PUSHNUM_7; OP_PUSHNUM_8; OP_PUSHNUM_9; OP_PUSHNUM_10; OP_PUSHNUM_11;
  OP_PUSHNUM_12; OP_PUSHNUM_13; OP_PUSHNUM_14; OP_PUSHNUM_15; OP_PUSHNUM_16; OP_BOOLAND;
  OP_BOOLOR; OP_EQUAL; OP_EQUALVERIFY; OP_NUMEQUAL; OP_NUMEQUALVERIFY; OP_CHECKSIG;
  OP_CHECKSIGVERIFY; OP_CHECKSIGADD; OP_CHECKSIGFROMSTACK; OP_CHECKSIGFROMSTACKVERIFY;
  OP_CHECKMULTISIG; OP_CHECKMULTISIGVERIFY; OP_CSV; OP_CLTV; OP_FROMALTSTACK; OP_TOALTSTACK;
  OP_LEFT; OP_2DUP; OP_CAT; OP_CODESEPARATOR; OP_OVER; OP_NIP; OP_PICK; OP_DROP; OP_DEPTH;
  OP_DUP; OP_ADD; OP_SUB; OP_IF; OP_IFDUP; OP_NOTIF; OP_ELSE; OP_ENDIF; OP_0NOTEQUAL; OP_SIZE;
  OP_SWAP; OP_VERIFY; OP_RIPEMD160; OP_HASH160; OP_SHA256; OP_HASH256; OP_INSPECTINPUTASSET;
  OP_INSPECTINPUTVALUE; OP_INSPECTINPUTSCRIPTPUBKEY; OP_INSPECTINPUTISSUANCE;
  OP_PUSHCURRENTINPUTINDEX; OP_INSPECTOUTPUTASSET; OP_INSPECTOUTPUTVALUE;
  OP_INSPECTOUTPUTSCRIPTPUBKEY; OP_ADD64; OP_SUB64; OP_MUL64; OP_DIV64; OP_NEG64;
  OP_LESSTHAN64; OP_LESSTHANOREQUAL64; OP_GREATERTHAN64; OP_GREATERTHANOREQUAL64; OP_AND;
  OP_OR; OP_XOR; OP_INVERT; OP_SCRIPTNUMTOLE64; OP_LE64TOSCRIPTNUM ].

Definition opcode_of_byte (x : Byte.byte) : opcode :=
  default (OP_OTHER x) (find (λ op, (opcode_byte op =? Byte.to_N x)%N) named_opcodes).

Lemma opcode_of_byte_byte x : (0x4e < Byte.to_N x)%N → byte_of_N (opcode_byte (opcode_of_byte x)) = x.
Proof. by destruct x. Qed.

Lemma opcode_of_byte_not_0 x : opcode_of_byte x ≠ OP_PUSHBYTES_0.
Proof. by destruct x. Qed.

Lemma opcode_of_opcode op :
  op_named op = true → op ≠ OP_PUSHBYTES_0 →
  opcode_of_byte (byte_of_N (opcode_byte op)) = op ∧ (0x4e < Byte.to_N (byte_of_N (opcode_byte op)))%N.
Proof. by destruct op. Qed.

(** A push of one byte that an opcode pushes is not minimal. *)
Definition minimal_data (b : bytes) : bool :=
  match b with
  | [x] => negb ((1 <=? Byte.to_N x)%N && (Byte.to_N x <=? 16)%N) && negb (Byte.to_N x =? 0x81)%N
  | _ => true
  end.

(** The length of a push with this first byte, and the rest of the script. *)
Definition push_length (x : Byte.byte) (b : bytes) : option (result ScriptError (nat * bytes)) :=
  let n := Byte.to_N x in
  let long k low :=
    if length b <? k then Err EarlyEndOfScript
    else
      let len := le_value (take k b) in
      if (len <? low)%N then Err NonMinimalPush else Ok (N.to_nat len, drop k b) in
  if (n <? 76)%N then Some (Ok (N.to_nat n, b))
  else if (n =? 0x4c)%N then Some (long 1 76%N)
  else if (n =? 0x4d)%N then Some (long 2 256%N)
  else if (n =? 0x4e)%N then Some (long 4 65536%N)
  else None.

Fixpoint decode (fuel : nat) (b : bytes) : list (result ScriptError Instruction) :=
  match fuel, b with
  | O, _ | _, [] => []
  | S fuel, x :: b =>
      match push_length x b with
      | None => Ok (Op (opcode_of_byte x)) :: decode fuel b
      | Some (Ok (len, b)) =>
          if length b <? len then [Err EarlyEndOfScript]
          else if minimal_data (take len b) then Ok (PushBytes (take len b)) :: decode fuel (drop len b)
          else [Err NonMinimalPush]
      | Some (Err e) => [Err e]
      | Some Panic => []
      end
  end.

(** *** Lengths *)

Lemma le_bytes_length k n : length (le_bytes k n) = k.
Proof. revert n. induction k as [|k IH]; intros n; [done|]. cbn. by rewrite IH. Qed.

Lemma le_value_bytes k n : (n < 256 ^ N.of_nat k)%N → le_value (le_bytes k n) = n.
Proof.
  revert n. induction k as [|k IH]; intros n Hn; [cbn in *; lia|]. cbn [le_bytes le_value].
  rewrite byte_of_N_to_N, IH.
  - rewrite (N.div_mod' n 256) at 3. lia.
  - rewrite Nat2N.inj_succ, N.pow_succ_r' in Hn. apply N.Div0.div_lt_upper_bound. lia.
Qed.

Lemma byte_of_to_N x : byte_of_N (Byte.to_N x) = x.
Proof. by destruct x. Qed.

Lemma Byte_lt x : (Byte.to_N x < 256)%N.
Proof. by destruct x. Qed.

Lemma le_bytes_value v : le_bytes (length v) (le_value v) = v.
Proof.
  induction v as [|x v IH]; [done|]. cbn [length le_bytes le_value].
  pose proof (Byte_lt x) as Hx. f_equal.
  - unfold byte_of_N. rewrite N.mul_comm, N.Div0.mod_add, N.mod_small by done. by rewrite Byte.of_to_N.
  - rewrite N.mul_comm, N.div_add, N.div_small, N.add_0_l by done. done.
Qed.

Lemma push_length_header n b : (N.of_nat n < 2 ^ 32)%N →
  ∃ x h, push_header n = x :: h ∧ push_length x (h ++ b) = Some (Ok (n, b)).
Proof.
  intros Hn. unfold push_header.
  assert (∀ k low, (N.of_nat n < 256 ^ N.of_nat k)%N → (low <= N.of_nat n)%N →
    (if length (le_bytes k (N.of_nat n) ++ b) <? k then Err EarlyEndOfScript
     else let len := le_value (take k (le_bytes k (N.of_nat n) ++ b)) in
          if (len <? low)%N then Err NonMinimalPush
          else Ok (N.to_nat len, drop k (le_bytes k (N.of_nat n) ++ b))) = Ok (n, b)) as Hlong.
  { intros k low Hk Hlow. rewrite (proj2 (Nat.ltb_ge _ _)) by (rewrite length_app, le_bytes_length; lia).
    rewrite take_app_length', drop_app_length' by (by rewrite le_bytes_length). rewrite le_value_bytes by done.
    cbv zeta. rewrite (proj2 (N.ltb_ge _ _)) by done. by rewrite Nat2N.id. }
  destruct (N.ltb_spec (N.of_nat n) 76) as [H76|H76].
  { do 2 eexists. split; [done|]. unfold push_length. rewrite byte_of_N_to_N, N.mod_small by lia.
    rewrite (proj2 (N.ltb_lt _ _)) by done. by rewrite Nat2N.id. }
  destruct (N.ltb_spec (N.of_nat n) 0x100); [|destruct (N.ltb_spec (N.of_nat n) 0x10000)];
    do 2 eexists; (split; [reflexivity|]); unfold push_length; rewrite Hlong; try done; lia.
Qed.

Lemma header_push_length x b len b' :
  push_length x b = Some (Ok (len, b')) → x :: b = push_header len ++ b'.
Proof.
  unfold push_length. pose proof (byte_of_to_N x) as Hx.
  assert (∀ k low, (if length b <? k then Err EarlyEndOfScript
     else let len := le_value (take k b) in
          if (len <? low)%N then Err NonMinimalPush else Ok (N.to_nat len, drop k b)) = Ok (len, b') →
     (low <= N.of_nat len < 256 ^ N.of_nat k)%N ∧ b = le_bytes k (N.of_nat len) ++ b') as Hlong.
  { intros k low. destruct (Nat.ltb_spec (length b) k) as [|Hk]; [done|]. cbv zeta.
    destruct (N.ltb_spec (le_value (take k b)) low); [done|]. intros [= <- <-]. rewrite N2Nat.id.
    assert (length (take k b) = k) as Hl by (rewrite length_take; lia).
    pose proof (le_value_lt (take k b)) as Hlt. rewrite Hl in Hlt. split; [done|].
    rewrite <-Hl at 1. by rewrite le_bytes_value, take_drop. }
  destruct (N.ltb_spec (Byte.to_N x) 76) as [H76|H76].
  { intros [= <- <-]. unfold push_header. rewrite N2Nat.id, (proj2 (N.ltb_lt _ _)) by done. by rewrite Hx. }
  repeat (case_match; [intros [= [Hlow Hb]%Hlong]|]); [..|done];
    match goal with Hq : (Byte.to_N x =? _)%N = true |- _ => apply N.eqb_eq in Hq; rewrite Hq in Hx end;
    unfold push_header; repeat (rewrite (proj2 (N.ltb_ge _ _)) by lia); try rewrite (proj2 (N.ltb_lt _ _)) by lia;
    by rewrite <-Hx, Hb.
Qed.

(** ** Instructions that are read back *)

Definition good_instr (i : Instruction) : bool :=
  match i with
  | PushBytes b => minimal_data b && (N.of_nat (length b) <? 2 ^ 32)%N
  | Op op => op_named op && negb (bool_decide (op = OP_PUSHBYTES_0))
  end.

Lemma decode_instr i fuel b : good_instr i = true → decode (S fuel) (instr_bytes i ++ b) = Ok i :: decode fuel b.
Proof.
  destruct i as [v|op]; cbn [good_instr instr_bytes].
  - intros [Hm Hl%N.ltb_lt]%andb_prop.
    destruct (push_length_header (length v) (v ++ b) Hl) as (x & h & Hx & Hp). rewrite Hx.
    rewrite <-app_assoc. cbn [app decode]. rewrite Hp.
    rewrite (proj2 (Nat.ltb_ge _ _)) by (rewrite length_app; lia).
    by rewrite take_app_length, drop_app_length, Hm.
  - intros [Hn Ho%negb_true_iff%bool_decide_eq_false]%andb_prop.
    destruct (opcode_of_opcode op Hn Ho) as [Hop Hlt]. cbn [app decode]. unfold push_length.
    rewrite (proj2 (N.ltb_ge _ _)) by lia. rewrite !(proj2 (N.eqb_neq _ _)) by lia. by rewrite Hop.
Qed.

Lemma decode_instrs l : ∀ fuel, length l ≤ fuel → Forall (λ i, good_instr i = true) l →
  decode fuel (instrs_bytes l) = Ok <$> l.
Proof.
  unfold instrs_bytes. induction l as [|i l IH]; intros fuel Hf Hg; [by destruct fuel|].
  destruct fuel as [|fuel]; [cbn in Hf; lia|]. apply Forall_cons_iff in Hg as [Hi Hl]. cbn [map concat].
  rewrite decode_instr by done. rewrite IH; [done| |done]. cbn in Hf. lia.
Qed.

Lemma decode_sound fuel b l : length b ≤ fuel → decode fuel b = Ok <$> l → b = instrs_bytes l.
Proof.
  revert b l. induction fuel as [|fuel IH]; intros b l Hf.
  { destruct b; [|cbn in Hf; lia]. by destruct l. }
  destruct b as [|x b]; [by destruct l|]. cbn [decode].
  destruct (push_length x b) as [[[len b']|e|]|] eqn:Hp.
  - apply header_push_length in Hp. destruct (Nat.ltb_spec (length b') len) as [|Hle]; [by destruct l as [|? []]|].
    destruct (minimal_data (take len b')); [|by destruct l as [|? []]].
    destruct l as [|i l]; [done|]. intros [= <- Hd].
    assert (length (x :: b) = length (push_header len) + length b') as Hlen by (by rewrite Hp, length_app).
    assert (1 ≤ length (push_header len)) by (unfold push_header; repeat case_match; cbn; lia).
    apply IH in Hd; [|rewrite length_drop; cbn in Hf, Hlen; lia].
    unfold instrs_bytes in *. cbn [map concat instr_bytes]. rewrite <-Hd, length_take_le by done.
    by rewrite Hp, <-app_assoc, take_drop.
  - by destruct l as [|? []].
  - intros Hl. destruct l; [|done]. exfalso. revert Hp. unfold push_length. repeat case_match; done.
  - destruct l as [|i l]; [done|]. intros [= <- Hd]. apply IH in Hd; [|cbn in Hf; lia].
    unfold instrs_bytes in *. cbn [map concat instr_bytes app]. rewrite <-Hd, opcode_of_byte_byte; [done|].
    unfold push_length in Hp. destruct (N.ltb_spec (Byte.to_N x) 76); [done|].
    repeat (case_match; [done|]). repeat match goal with Hq : (_ =? _)%N = false |- _ => apply N.eqb_neq in Hq end. lia.
Qed.

Lemma decode_no_panic fuel b : Panic ∉ decode fuel b.
Proof.
  revert b. induction fuel as [|fuel IH]; intros b; [apply not_elem_of_nil|].
  destruct b as [|x b]; [apply not_elem_of_nil|]. cbn [decode].
  repeat case_match; rewrite ?not_elem_of_cons; split_and?; try done; try apply not_elem_of_nil; apply IH.
Qed.

Lemma decode_no_op0 fuel b : Ok (Op OP_PUSHBYTES_0) ∉ decode fuel b.
Proof.
  revert b. induction fuel as [|fuel IH]; intros b; [apply not_elem_of_nil|].
  destruct b as [|x b]; [apply not_elem_of_nil|]. cbn [decode].
  repeat case_match; rewrite ?not_elem_of_cons; split_and?; try done; try apply not_elem_of_nil; try apply IH.
  intros [= Hx]. by apply (opcode_of_byte_not_0 x).
Qed.

(** ** The builder *)

(** Instructions that would not be read back are left out. *)
Definition good (l : list Instruction) : list Instruction := filter (λ i, good_instr i = true) l.

Lemma good_all l : Forall (λ i, good_instr i = true) (good l).
Proof. apply list.Forall_forall. by intros i [Hi _]%list_elem_of_filter. Qed.

Lemma good_id l : Forall (λ i, good_instr i = true) l → good l = l.
Proof. unfold good. induction 1 as [|i l Hi _ IH]; [done|]. by rewrite filter_cons_True, IH. Qed.

Lemma good_snoc l i : good_instr i = true → good (l ++ [i]) = good l ++ [i].
Proof. intros Hi. unfold good. by rewrite list.filter_app, filter_cons_True. Qed.

Lemma good_good l : good (good l) = good l.
Proof. apply good_id, good_all. Qed.

#[export] Instance bytes_ScriptBuilder : ScriptBuilder := {|
  Script.Builder := list Instruction;
  Script := bytes;
  builder_new := [];
  push_opcode b op := b ++ [opcode_instr op];
  push_int b z := b ++ [int_instr z];
  push_slice b s := b ++ [PushBytes s];
  push_key b k := b ++ [PushBytes (pubkey_bytes k)];
  push_verify b := add_verify (good b);
  into_script b := instrs_bytes (good b);
  script_bytes b := b;
  instructions_minimal b := decode (length b) b;
  read_scriptint := demo_read_scriptint;
|}.

Lemma length_instrs_bytes l : length l ≤ length (instrs_bytes l).
Proof.
  unfold instrs_bytes. induction l as [|i l IH]; [done|]. cbn [map concat]. rewrite length_app, instr_bytes_length.
  assert (1 ≤ instr_size i); [|cbn; lia]. destruct i; cbn; [unfold push_opcode_size; repeat case_match; lia|lia].
Qed.

Lemma bytes_has_instrs (b l : list Instruction) : has_instrs b l ↔ l = good b.
Proof.
  unfold has_instrs. cbn. rewrite decode_instrs by (apply length_instrs_bytes || apply good_all).
  split; [by intros ?%fmap_Ok_inj|by intros ->].
Qed.

Lemma bytes_push (b l : list Instruction) i : good_instr i = true → has_instrs b l → has_instrs (b ++ [i]) (l ++ [i]).
Proof. rewrite !bytes_has_instrs. intros Hi ->. by rewrite good_snoc. Qed.

Lemma minimal_long b : 2 ≤ length b → minimal_data b = true.
Proof. destruct b as [|x [|y b]]; cbn; [lia|lia|done]. Qed.

Lemma good_num n : (n < 2 ^ 63)%N → good_instr (num_instr n) = true.
Proof.
  intros Hn. unfold num_instr. destruct (n =? 0)%N; [done|]. destruct (N.leb_spec n 16) as [H16|H16].
  { unfold pushnum. by repeat case_match. }
  cbn [good_instr]. assert (length (build_scriptint (Z.of_N n)) ≤ 8) as Hl
    by (apply build_scriptint_length; [lia|]; change (2 ^ (8 * Z.of_nat 8 - 1))%Z with (Z.of_N (2 ^ 63)); lia).
  apply andb_true_intro. split; [|apply N.ltb_lt; lia].
  pose proof (scriptint_value_build (Z.of_N n)) as Hv. destruct (build_scriptint (Z.of_N n)) as [|x [|y b]]; [done| |done].
  specialize (Hv ltac:(lia)). clear Hl Hn. revert Hv. unfold minimal_data.
  assert (∀ x : Byte.byte, (16 < scriptint_value [x])%Z → (minimal_data [x]) = true) as Hx by (clear; intros []; done).
  intros Hv. apply Hx. lia.
Qed.

Lemma good_opcode op : op_named op → good_instr (opcode_instr op) = true.
Proof. by destruct op. Qed.

Lemma good_add_verify l : Forall (λ i, good_instr i = true) l → good (add_verify l) = add_verify l.
Proof.
  intros Hl. apply good_id. unfold add_verify. destruct (rev l) as [|i l'] eqn:Hr; [by repeat constructor|].
  assert (l = rev l' ++ [i]) as -> by (rewrite <-(rev_involutive l), Hr; done). clear Hr.
  apply Forall_app in Hl as [Hl Hi]. destruct (instr_verify i) as [op|] eqn:Hv.
  - apply Forall_app. split; [done|]. destruct i as [|[]]; simplify_eq/=; by repeat constructor.
  - rewrite !Forall_app. split; [done|by repeat constructor].
Qed.

#[export] Instance bytes_ScriptBuilderOk : ScriptBuilderOk.
Proof.
  split.
  - by apply bytes_has_instrs.
  - intros b l op Hop. apply bytes_push. by apply good_opcode.
  - intros b l n Hb Hn. cbn. rewrite int_instr_num. apply bytes_push; [by apply good_num|done].
  - intros b l s Hb Hs Hl. apply bytes_push; [|done]. cbn. rewrite minimal_long by done. by apply N.ltb_lt.
  - intros b l k Hb Hk. apply bytes_push; [|done]. cbn [good_instr]. rewrite minimal_long by lia. apply N.ltb_lt. lia.
  - intros b l ->%bytes_has_instrs. apply bytes_has_instrs. cbn. rewrite good_add_verify; [done|]. apply good_all.
  - intros s. apply decode_no_op0.
  - intros s. apply decode_no_panic.
  - apply (@read_scriptint_no_panic _ demo_ScriptBuilder _).
  - intros s l Hs. cbn in *. apply decode_sound in Hs; [|done]. rewrite Hs. apply instrs_bytes_length.
  - intros n Hn. cbn [script_bytes into_script push_int builder_new bytes_ScriptBuilder app].
    rewrite int_instr_num, good_id by (constructor; [by apply good_num|constructor]).
    unfold instrs_bytes. cbn [map concat]. rewrite app_nil_r. by apply num_instr_tail.
  - apply (@read_scriptint_ok _ demo_ScriptBuilder _).
  - apply (@read_scriptint_build _ demo_ScriptBuilder _).
Qed.

(** ** The templates *)

#[export] Instance bytes_LeafHashes : LeafHashes := {|
  TapLeafHash := unit;
  TapLeafHash_from_script _ := tt;
  varint_len n := if n <? 253 then 1 else 3;
|}.

Definition p2sh_template (h : hash_n 20) : bytes := [Byte.xa9; Byte.x14] ++ hash_bytes h ++ [Byte.x87].
Definition p2pkh_template (h : hash_n 20) : bytes := p2pkh_prefix ++ hash_bytes h ++ p2pkh_suffix.
Definition program (n : Byte.byte) (h : bytes) : bytes := [Byte.x00; n] ++ h.

(** A control block is the script it commits to. *)
#[export] Instance bytes_ScriptTemplates : ScriptTemplates := {|
  script_new := [];
  script_from b := b;
  new_p2pkh := p2pkh_template;
  new_v0_wpkh h := program Byte.x14 (hash_bytes h);
  new_v0_wsh h := program Byte.x20 (hash_bytes h);
  new_p2sh := p2sh_template;
  to_v0_p2wsh s := program Byte.x20 (hash_bytes (sha256_hash s));
  to_p2sh s := p2sh_template (hash160_hash s);
  address_p2pkh k := p2pkh_template (hash160_hash (pubkey_bytes k));
  address_p2wpkh k := program Byte.x14 (hash_bytes (hash160_hash (pubkey_bytes k)));
  is_p2pk s := template [Byte.x21] 33 [Byte.xac] s || template [Byte.x41] 65 [Byte.xac] s;
  is_p2pkh := template p2pkh_prefix 20 p2pkh_suffix;
  is_v0_p2wpkh := template [Byte.x00; Byte.x14] 20 [];
  is_v0_p2wsh := template [Byte.x00; Byte.x20] 32 [];
  is_p2sh := template [Byte.xa9; Byte.x14] 20 [Byte.x87];
  serialize_script s := byte_of_N (N.of_nat (length s)) :: s;
  sighash_as_u32 t := Byte.to_N t;
  compressed k := k.2;
  secp_serialize k := repeat k.1 33;
  ControlBlock := bytes;
  ControlBlock_from_slice b := match b with Byte.xc4 :: Byte.x00 :: c => Some c | _ => None end;
  verify_taproot_commitment c _ s := bool_decide (c = s);
|}.

Lemma slice_of_bytes {A} n (f : Byte.byte → A) b a :
  slice_of (S n) f b = Some a → ∃ x, a = f x ∧ b = repeat x (S n).
Proof.
  destruct b as [|x b]; [done|]. unfold slice_of. case_bool_decide as Hb; [|done]. intros [= <-]. by exists x.
Qed.

#[export] Instance bytes_ScriptTemplatesOk : ScriptTemplatesOk.
Proof.
  split; try done.
  - intros s l Hs. cbn in *. by apply decode_sound in Hs.
  - intros s. cbn. lia.
  - by intros [x []].
  - intros b k. cbn. destruct (slice_of 33 _ b) as [k'|] eqn:Hs; cbn.
    + intros [= <-]. apply (slice_of_bytes 32) in Hs as (x & -> & ->). done.
    + intros Hk. apply (slice_of_bytes 64) in Hk as (x & -> & ->). done.
  - intros b k Hk. apply (slice_of_bytes 31) in Hk as (x & -> & ->). done.
  - intros [|n|c]; [done|done|]. cbn. done.
  - intros [x []]; done.
  - intros b v. cbn. unfold demo_read_scriptint. destruct (Nat.ltb_spec 4 (length b)); [done|]. intros _. lia.
Qed.

(** ** Full keys as Miniscript keys *)

Definition full_MiniscriptKey : MiniscriptKey (Byte.byte * bool) := {|
  Sha256T := hash_n 32;
  Hash256T := hash_n 32;
  Ripemd160T := hash_n 20;
  Hash160T := hash_n 20;
  is_uncompressed k := negb k.2;
  is_x_only_key _ := false;
  key_to_string _ := "key"%string;
|}.

Definition xonly_MiniscriptKey : MiniscriptKey Byte.byte := {|
  Sha256T := hash_n 32;
  Hash256T := hash_n 32;
  Ripemd160T := hash_n 20;
  Hash160T := hash_n 20;
  is_uncompressed _ := false;
  is_x_only_key _ := true;
  key_to_string _ := "key"%string;
|}.

#[export] Instance bytes_ScriptKeys : ScriptKeys := {|
  full_key := full_MiniscriptKey;
  full_to_public_key := @Build_ToPublicKey _ full_MiniscriptKey _ id fst id id id id;
  xonly_key := xonly_MiniscriptKey;
  xonly_to_public_key := @Build_ToPublicKey _ xonly_MiniscriptKey _ (λ k, (k, true)) id id id id id;
  full_sha256 := id;
  full_hash256 := id;
  full_ripemd160 := id;
  full_hash160 := id;
  xonly_sha256 := id;
  xonly_hash256 := id;
  xonly_ripemd160 := id;
  xonly_hash160 := id;
|}.

#[export] Instance bytes_ScriptKeysOk : ScriptKeysOk.
Proof. by split. Qed.

(** ** Descriptors on samples

    A Taproot builder that keeps its leaves, a satisfier over the scripts as bytes, and
    the theorems about descriptors on sample descriptors. *)

(** ** Instances *)

#[export] Instance demo_TaprootApi : TaprootApi := {|
  TaprootBuilder := list (nat * bytes);
  TaprootSpendInfo := list (nat * bytes) * Byte.byte;
  taproot_builder_new := [];
  add_leaf b depth s := Some (b ++ [(depth, s)]);
  finalize b key := Some (b, key);
  new_key_spend key := ([], key);
  output_key := snd;
  control_block info s := snd <$> find (λ l, bool_decide (l.2 = s)) info.1;
  control_block_serialize c := Byte.xc4 :: Byte.x00 :: c;
|}.

#[export] Instance demo_TaprootApiOk : TaprootApiOk.
Proof.
  unshelve refine {| builder_scripts b := snd <$> (b : list (nat * bytes)) |}; try done.
  - intros b depth s b' [= <-]. by rewrite list.fmap_app.
  - intros b key info s [= <-] ([d s'] & -> & Hin)%list_elem_of_fmap. cbn.
    destruct (find (λ l, bool_decide (l.2 = s')) b) as [l|] eqn:Hf; [by eexists|].
    pose proof (find_none _ _ Hf (d, s') (proj1 (list_elem_of_In _ _) Hin)) as Hn. cbn in Hn.
    by rewrite bool_decide_eq_true_2 in Hn.
  - intros info s cb. cbn. destruct (find _ info.1) as [l|] eqn:Hf; [|done]. intros [= <-].
    apply find_some in Hf as [_ Hl]. exact Hl.
  - intros cb. by eexists _, _.
Defined.

(** Signatures of some keys, the preimage and the lock times. *)
Definition sample_satisfier (ecdsa schnorr : list nat) : Satisfier DemoKey := {|
  lookup_tap_key_spend_sig := None;
  lookup_ecdsa_sig k :=
    if bool_decide (key_index k ∈ ecdsa) then Some ((to_public_key k).1, Byte.x01) else None;
  lookup_tap_leaf_script_sig k _ :=
    if bool_decide (key_index k ∈ schnorr) then Some (to_x_only_pubkey k) else None;
  lookup_raw_pkh_pk _ := None;
  lookup_raw_pkh_x_only_pk _ := None;
  lookup_raw_pkh_ecdsa_sig _ := None;
  lookup_raw_pkh_tap_leaf_script_sig _ := None;
  lookup_sha256 h := if bool_decide (h = preimage) then Some preimage else None;
  lookup_hash256 _ := None;
  lookup_ripemd160 _ := None;
  lookup_hash160 _ := None;
  check_older n := (n <=? 200)%N;
  check_after n := same_unit n 2000 && (n <=? 2000)%N;
  lookup_nversion := None;
  lookup_hashprevouts := None;
  lookup_hashsequence := None;
  lookup_hashissuances := None;
  lookup_outpoint := None;
  lookup_scriptcode := None;
  lookup_value := None;
  lookup_nsequence := None;
  lookup_outputs := None;
  lookup_nlocktime := None;
  lookup_sighashu32 := None;
  lookup_tx := None;
  lookup_spent_utxos := None;
  lookup_curr_inp := None;
  lookup_csfs_sig _ _ := None;
  lookup_price_oracle_sig _ _ := None;
|}.

Lemma sample_satisfier_ok ecdsa lh : SatisfierOk demo_env Segwitv0 (sample_satisfier ecdsa []) lh.
Proof.
  split; try done.
  - intros k s. cbn. case_bool_decide; [|done]. intros [= <-]. by apply bool_decide_eq_true.
  - intros h p. cbn. case_bool_decide as Hh; [|done]. subst h. by intros [= <-].
  - intros n. cbn [check_after sample_satisfier]. intros [Hu Hn%N.leb_le]%andb_prop. done.
  - intros n. cbn. apply N.leb_le.
Qed.

(** ** Spending *)

(** [elsh(wsh(and_v(v:thresh(2,...),or_d(multi(2,...),...))))] *)
Definition desc_spend : Descriptor DemoKey NoExt := DSh (ShWsh (WshMs ms_spend)).

Lemma ms_spend_ready : ms_ready Segwitv0 ms_spend.
Proof.
  split; [split; [exact ms_spend_typed|reflexivity|vm_compute; reflexivity|build_nodes..]|exact ms_spend_not_zero].
Qed.

Definition stfr_spend : Satisfier DemoKey := sample_satisfier [0; 2; 3; 5] [].

Lemma descriptor_spend_witness :
  desc_ready desc_spend ∧
  ∃ wit ssig spk code,
    get_satisfaction false desc_spend stfr_spend = Ok (wit, ssig) ∧
    script_pubkey desc_spend = Ok spk ∧ script_code desc_spend = Ok code ∧
    delivered demo_env spk code wit ssig.
Proof.
  split; [exact ms_spend_ready|].
  destruct (get_satisfaction false desc_spend stfr_spend) as [[wit ssig]| |] eqn:Hs;
    [|exfalso; vm_compute in Hs; discriminate..].
  exists wit, ssig.
  destruct (descriptor_spend demo_env stfr_spend false (sample_satisfier_ok [0; 2; 3; 5]) desc_spend wit ssig
    ms_spend_ready Hs) as (spk & code & Hspk & Hcode & Hd).
  exists spk, code. split_and!; [reflexivity|exact Hspk|exact Hcode|exact Hd].
Defined.

(** *** Taproot *)

Definition tap_pk (n : nat) : Miniscript DemoKey NoExt := build Tap (Check (build Tap (PkK (XOnly n)))).
Definition tap_locked : Miniscript DemoKey NoExt :=
  build Tap (AndV (build Tap (Verify (tap_pk 1))) (build Tap (Older 100))).

(** [eltr(K9,{pk(K7),{and_v(v:pk(K1),older(100)),pk(K1)}})] *)
Definition desc_tr : Tr DemoKey NoExt :=
  MkTr (XOnly 9) (Some (TapNode (TapLeaf (tap_pk 7)) (TapNode (TapLeaf tap_locked) (TapLeaf (tap_pk 1))))) None.

Definition tap_env : Env :=
  MkEnv (λ ks, match ks with
               | KsEcdsa pk s => bool_decide (s.1 = pk.1)
               | KsSchnorr pk s => bool_decide (s = pk)
               end) None 200 2000 Schnorr.
Definition stfr_tap : Satisfier DemoKey := sample_satisfier [] [1].

Lemma stfr_tap_ok lh : SatisfierOk tap_env Tap stfr_tap lh.
Proof.
  split; try done.
  - intros k s. cbn. case_bool_decide; [|done]. intros [= <-]. by apply bool_decide_eq_true.
  - intros h p. cbn. case_bool_decide as Hh; [|done]. subst h. by intros [= <-].
  - intros n. cbn [check_after stfr_tap sample_satisfier]. intros [Hu Hn%N.leb_le]%andb_prop. done.
  - intros n. cbn. apply N.leb_le.
Qed.

Lemma desc_tr_coherent : cache_coherent desc_tr.
Proof. by intros info. Qed.

Lemma desc_tr_ready : leaves_ready desc_tr.
Proof.
  unfold leaves_ready. vm_compute (iter_scripts desc_tr).
  repeat (constructor; [split; [split; [by repeat constructor|reflexivity|vm_compute; reflexivity|build_nodes..]|build_nodes]|]).
  constructor.
Qed.


Lemma tap_spend_witness :
  ∃ info wit ssig spk inner stk code,
    compute_spend_info desc_tr = Ok info ∧ best_tap_spend desc_tr stfr_tap false = Ok (wit, ssig) ∧
    tr_script_pubkey desc_tr = Ok spk ∧ from_txdata (Ext := NoExt) spk ssig wit = Ok (inner, stk, code) ∧
    accepts tap_env inner stk.
Proof.
  destruct (compute_spend_info desc_tr) as [info| |] eqn:Hi; [|exfalso; vm_compute in Hi; discriminate..].
  destruct (best_tap_spend desc_tr stfr_tap false) as [[wit ssig]| |] eqn:Hs;
    [|exfalso; vm_compute in Hs; discriminate..].
  destruct (tap_spend tap_env stfr_tap false desc_tr info wit ssig desc_tr_coherent Hi desc_tr_ready)
    as (spk & Hspk & inner & stk & code & Htx & Hacc & _);
    [repeat constructor|exact stfr_tap_ok|discriminate|exact Hs|].
  exists info, wit, ssig, spk, inner, stk, code. split_and!; [reflexivity|reflexivity|exact Hspk|exact Htx|exact Hacc].
Defined.
